(* ===== verification/_CoqProject ===== *)
-Q . S2P
Prelude.v
Errors.v
Lifecycle.v
PartWindow.v
MemoryBudget.v
Retry.v
Records.v
RunGroup.v
RunGroupProps.v
Scheduler.v
SchedulerInv.v
SchedulerSys.v
StatusReports.v
Dispatcher.v
Sidecar.v
Checkpoint.v
CheckpointProps.v
CheckpointCrash.v
HttpHeaders.v
DownloadIdentity.v
DownloadTask.v
RangeDownload.v
DownloadSystem.v
SerialDownload.v
DownloadPrepare.v
TargetLease.v
UploadFile.v
UploadChunks.v
ProviderXml.v
OssUpload.v
OssUploadProps.v
PresignedUpload.v
PresignedUploadProps.v
PresignedDownload.v
AzureUpload.v
AzureUploadProps.v
BinaryDownload.v
BinaryExec.v
BinaryExecProps.v
Client.v
ClientProps.v
TaskBuild.v
LogRedact.v
LogRedactProps.v
ProtocolDefaults.v
ProviderSigning.v
ProviderSigningProps.v
SidecarFs.v
SidecarFsProps.v
SidecarDurable.v
SidecarShare.v
TargetGuard.v
ProviderRequest.v
ClientWait.v
ExecutorHandle.v
