(* ===== verification/Prelude.v ===== *)
(** * rusty-cat: a verified model of a resumable transfer engine

    rusty-cat uploads and downloads files over HTTP with pause, resume and cancel. A client hands
    tasks to a scheduler thread; the scheduler starts one worker per group of tasks, within limits
    per direction; a worker prepares the transfer, moves its chunks one after the other or several
    at a time, and reports events; the scheduler turns events into statuses, and a dispatcher
    thread calls the user's callbacks. A download keeps a checkpoint file (a sidecar) beside its
    target, so that it can be resumed after a crash; an upload signs its source file and reads it
    again while it may change.

    ** Files and what they model (paths under src/src)

    - [Prelude] machine integers with their maxima, saturating and checked operations, results
      with the question-mark operator, shared tactics and lemmas.
    - [Errors] error.rs: error codes, constructors, classification of I/O errors.
    - [Lifecycle] inner/inner_task.rs, [TransferLifecycle]: the atomic byte that arbitrates
      between completion, pause and cancel, each compare-exchange loop as single instructions of
      interleaved threads, and the abstract arbiter it implements.
    - [PartWindow] inner/exec_impl/part_window.rs: which parts are in flight and the watermark.
    - [MemoryBudget] inner/exec_impl/memory_budget.rs and the admission checks of exec.rs, over a
      class of counting semaphores that states the documented laws of the library's.
    - [Retry] inner/exec_impl/retry.rs: the retry loop as a state machine, backoff, error classes.
    - [Records] the records exchanged by scheduler, workers and callbacks.
    - [RunGroup], [RunGroupProps] inner/exec_impl/exec.rs, [run_group]: a worker as a state machine
      that consumes the answers of an arbitrary backend; the serial loop, the parallel driver with
      concurrently running parts, cleanup.
    - [Scheduler], [SchedulerInv], [SchedulerSys] inner/scheduler_state.rs, inner/executor.rs,
      inner/exec_impl/handle_worker_event.rs and emit.rs: the scheduler's maps and counters, every
      command, every event, closing; the system of scheduler, workers and event channel;
      [StatusReports] the records that callbacks and global listeners are sent over such a run;
      [ExecutorHandle] the handle of inner/executor.rs: its start, the bounded command channel, the
      calls that wait for an answer, drop.
    - [Dispatcher] inner/cb_dispatcher.rs: the bounded callback queue and its thread.
    - [Sidecar], [Checkpoint], [CheckpointProps], [CheckpointCrash] dflt/download_progress.rs: the
      sidecar's codec, loading and verification, staging and committing, and the protocol under
      crashes at any point, with a disk that keeps any mixture of unsynced bytes.
    - [SidecarFs], [SidecarFsProps], [SidecarShare] the same file: the private directory of the
      sidecars, its claim, temporary files, publication, loading, cleanup and deletion as programs
      of single file-system calls, a rely-guarantee logic for them, and any number of downloads
      that share a directory; [SidecarDurable] the same programs over a file system that loses what
      was not synced; [TargetGuard] the check that a target lies outside such a directory.
    - [HttpHeaders] dflt/mod.rs: header checks and the strong validator of a response.
    - [DownloadIdentity] dflt/default_http_transfer.rs: the identity a checkpoint is bound to.
    - [DownloadTask] transfer_task.rs: checkpoint, write, compaction, finalization and release of
      a download's shared state; [RangeDownload] dflt/default_http_transfer_chunks.rs: range
      requests and the transfer of one part, positioned and serial; [DownloadSystem] any
      interleaving of positioned parts, timers, checkpoints and crashes; [SerialDownload] any
      sequence of serial parts, restarts and foreign writes.
    - [DownloadPrepare] dflt/default_http_transfer.rs: the prepare step and the backend's download
      operations; [TargetLease] target_lease.rs: exclusive ownership of a target.
    - [UploadFile] upload_file.rs: the signed snapshot of a source file and verified reads of it;
      [UploadChunks] the upload side of dflt/default_http_transfer_chunks.rs: chunks,
      acknowledgements, completion and cancel.
    - [ProviderXml] provider_xml.rs, provider_body.rs: the resource scan before the XML parser,
      access to the fields of a document, bounded control bodies; [OssUpload], [OssUploadProps]
      aliyun-oss-direct: multipart sessions found by listing, their parts, upload and completion;
      [AzureUpload], [AzureUploadProps] azure-blob-direct: block identifiers, the uncommitted
      block list, upload of blocks and the commit.
    - [PresignedUpload], [PresignedUploadProps] presigned/multipart_upload.rs and its plan: parts
      with signed URLs, resumed parts, completion; [PresignedDownload] presigned/range_download.rs:
      a plan shared by concurrent parts and refreshed under a gate.
    - [BinaryDownload] binary/download.rs: downloads into memory, redirects, retries;
      [BinaryExec], [BinaryExecProps] binary/executor.rs: their scheduler, workers and callback
      thread.
    - [Client], [ClientProps] meow_client.rs: the client's lifecycle, over a class of executors
      that can be closed, with both executors' handles as instances; [ClientWait] the same file:
      waiting for a task, over scheduler and callback thread, and the global listeners.
    - [TaskBuild] meow_config.rs, pounce_task.rs, the two task builders and [from_pounce] of
      inner/inner_task.rs: how tasks are made and what the scheduler receives.
    - [LogRedact], [LogRedactProps] log.rs: the removal of secrets from URLs and text.
    - [ProtocolDefaults] http_breakpoint.rs and the default methods of download_trait.rs: the
      standard range download and the default form upload.
    - [ProviderSigning], [ProviderSigningProps] the signing.rs and download.rs files of
      aliyun-oss-direct and azure-blob-direct: canonical requests, signatures, cached keys, and the
      range requests of signed downloads; [ProviderRequest] provider_body.rs and the URLs built with
      it: the query of a provider request and the bounded text of an error response.

    State is explicit: an operation of the code is a function on a record of the same fields, in
    the code's order, with its early returns; a fallible one returns a [result]; what network, file
    system, clock and protocol objects answer is an input. What runs concurrently is a step
    relation, and theorems about it hold for every sequence of steps.

    ** What the theorems show

    - End to end: a download that completes leaves exactly the representation whose strong
      validator its HEAD request announced ([prepared_download_is_head_generation]); a prepare is
      the start or the resumption of such a run ([prepare_starts_or_resumes]). Without a validator
      in the HEAD response this holds of one validator for downloads of more than one part
      ([download_delivers_one_generation]); a download of one part needs none. Serial downloads
      likewise, whatever other processes write ([completed_serial_download_is_authentic]); uploads
      send the signed content in order ([upload_reads_are_hashed_content],
      [serial_upload_in_order]), unless the server answers a chunk with a finished file.
    - Crash safety: committed parts survive a crash and only verified parts are trusted
      ([crash_keeps_committed_parts], [resume_trusts_only_verified]); a commit is all or nothing,
      and the synced writes and renames that publish it leave a crash the old or the new sidecar
      and, once they returned, the new one ([commit_all_or_nothing]); the sidecar's codec is exact ([sidecar_codec]), its identity binds one generation of one
      resource ([identity_binds_generation]), and one owner at a time has the target
      ([lease_exclusive], [contention_has_winner]).
    - The sidecar on disk: to each of the downloads that share a directory its sidecar is a private
      cell written all at once or not at all, whatever calls fail and however the calls interleave
      ([namespace_refines_cells]); publishing ends ([persist_returns]), a directory of somebody
      else's is left alone ([foreign_namespace_untouched]), and no accepted target leads into the
      sidecars' directory ([checked_target_outside]).
    - Scheduling: the scheduler's state stays consistent under every sequence of commands and
      events, queued work waits only for a free slot, a group has one worker, a task one final
      status, closing reports every task, and pausing loses nothing ([SchedulerSys],
      [StatusReports]); the refusal of a duplicate is the one record with another status. Commands
      reach the scheduler in order and within the channel's capacity, and every call of the handle
      gets its own answer, also when a close overtakes it ([handle_answers_calls]).
    - Workers: one terminal event, completion once and only after every part, progress a prefix,
      nothing after a stop, termination ([RunGroupProps]); the window, the memory budget and the
      retry loop they are built from.
    - Providers: the parts an upload names to its provider, in order, are the bytes of the file
      from the resume offset on, after the bytes kept below it, which are the file's when they were
      cut from it: the code compares numbers and sizes of what an earlier run left, not contents
      ([oss_object_is_content], [azure_commit_is_content], [presigned_object_is_content], the last
      for plans in order); an OSS session is resumed exactly when the numbers and sizes of its
      remote parts fit ([oss_resume_exact]); the resource scan of a control document accepts
      exactly what is within its limits ([preflight_exact]). A part of a presigned download is
      handed a plan that had not expired in that very turn and has the total its task knows; plans
      are refreshed by one part at a time and at most once ([refresh_safe],
      [refresh_at_most_once]), and a part builds a request from one snapshot
      ([request_one_generation]). A signature of a request
      fixes what the provider is asked for ([oss_authorization_binds], [azure_authorization_binds]),
      cached keys change nothing ([oss_cache_transparent]), and a request's query has exactly the
      provider's values beside the caller's own ([provider_query_exact], [error_body_exact]).
    - In-memory downloads: bodies and buffers within the task's limit, redirects that keep to HTTPS,
      one callback for each accepted task, two bodies and 1024 tasks at once, and a close that
      waits for every callback ([BinaryDownload], [BinaryExecProps]).
    - The client: a close that succeeded is final, executors are torn down once, every close can
      return, and the order of calls that [BinaryExecProps] assumes is the one the client keeps
      ([ClientProps]); waiting for a task gives the final status the scheduler reports for it, and
      nothing else ([wait_returns_outcome]).
    - Tasks and requests: whatever calls built a task, its sizes, window and retries are in range
      ([admitted_task_wellformed]); a configuration is accepted exactly when no limit is zero
      ([config_build_exact]); the standard request passes the executor's checks, and equal resume
      identities mean equal requests ([standard_request_bound]).
    - Secrets: what is logged of a URL does not depend on its user information or on the values of
      sensitive parameters ([url_secrets_hidden]), and the value of an assignment to a sensitive
      key is replaced and nothing else of the text around it ([log_hides_assignment]).
    - Lifecycle: the compare-exchange loops implement an abstract arbiter linearizably
      ([lifecycle_linearizable]) and are lock free, and an accepted cancel excludes completion. Callbacks run in order and the dispatcher always shuts down.

    ** Assumptions

    The hash functions are parameters; where a result depends on SHA-256 or HMAC having no collision, the
    conclusion has a collision as an alternative, or the hypothesis names the keys it is about. An
    honest server answers a range request that it gives a strong validator with bytes of that
    validator's representation, possibly cut short; it may answer with any generation, any
    headers, any error. A file-system call does what it documents or fails, a write after any
    number of its bytes; a rename replaces its destination in one step; a sync makes the bytes of a
    file, or the entries of a directory, survive a crash, and without one any bytes and any entry
    since the last sync may be found; other programs keep out of a claimed namespace. URL parsing, path resolution, lower-casing of Unicode and the texts of
    errors are parameters. Integers have the width of the code: 64-bit sizes and offsets, [usize]
    by a word width of at least 32 bits.

    ** Fuel and bounds

    Fuel is used where the recursion is not structural and is proved to be enough: the absorption
    of parts by the window and the dispatch of parts use the number of parts, the start loop of
    the scheduler the length of its queue and one more, the blocks fed by a scan the length of the
    chunk, a scan the number of its buffers; the scan of an XML document its length and one more;
    the launches of the binary scheduler the length of its queue and one more;
    the passes of the redaction the length of the text ([percent_loop_fuel], [redact_loop_fuel])
    and one more ([xml_loop_fuel]). The search for a temporary name needs one attempt more than
    there are files of earlier attempts ([persist_returns]). The pages of an OSS listing are bounded by the code's own limit
    of 10,000 requests.

    ** Not modelled

    The HTTP client and its construction, panics in user hooks, failures of the blocking thread
    pool and poisoned locks; log lines, the log record and its listener; what a crash keeps of the
    marker of the sidecars' directory; the constructors of presigned plans; the
    one-field setters of the configuration. The XML parser, Base64 and JSON are parameters, and so
    is the URL library's codec of queries.
    The durable identity "unverified" is never loaded, so resumption is stated for verified
    generations only; a prepare without one always starts from nothing. *)
From stdpp Require Export base tactics decidable list gmap sets strings pretty relations.
From Stdlib Require Export ZArith Lia.

#[global] Open Scope Z_scope.

(** ** Machine integers *)

Definition U64_MAX : Z := 2 ^ 64 - 1.
Definition U32_MAX : Z := 2 ^ 32 - 1.
Definition U16_MAX : Z := 2 ^ 16 - 1.
Definition U128_MAX : Z := 2 ^ 128 - 1.

(** [fits m z]: the value [z] is representable in the unsigned type whose
    largest value is [m]. *)
Definition fits (m z : Z) : Prop := 0 ≤ z ≤ m.

(** Rust's [saturating_add], [saturating_sub], [saturating_mul] on an unsigned
    type with maximum [m]. *)
Definition sat_add (m a b : Z) : Z := Z.min m (a + b).
Definition sat_sub (a b : Z) : Z := Z.max 0 (a - b).
Definition sat_mul (m a b : Z) : Z := Z.min m (a * b).

(** Rust's [checked_*]: [None] on overflow (or on division by zero). *)
Definition checked_add (m a b : Z) : option Z :=
  if a + b <=? m then Some (a + b) else None.
Definition checked_sub (a b : Z) : option Z :=
  if b <=? a then Some (a - b) else None.
Definition checked_mul (m a b : Z) : option Z :=
  if a * b <=? m then Some (a * b) else None.
Definition checked_div (a b : Z) : option Z :=
  if b =? 0 then None else Some (a / b).

(** Rust's [div_ceil] on unsigned integers. *)
Definition div_ceil (a b : Z) : Z :=
  if a mod b =? 0 then a / b else a / b + 1.

(** ** Results *)

Inductive result (A E : Type) : Type :=
| Ok (a : A)
| Err (e : E).
Arguments Ok {A E} a.
Arguments Err {A E} e.

Declare Scope rust_scope.
Delimit Scope rust_scope with rust.

(** The question-mark operator: bind on [result]. *)
Notation "'let?' x ':=' e1 'in' e2" :=
  (match e1 with Ok x => e2 | Err err => Err err end)
  (at level 10, x pattern, e1 at level 100, e2 at level 200) : rust_scope.
#[global] Open Scope rust_scope.

(** [ok_or] of an option. *)
Definition ok_or {A E} (o : option A) (e : E) : result A E :=
  match o with Some a => Ok a | None => Err e end.

(** Rust's [Result::and]. *)
Definition result_and {A B E} (r1 : result A E) (r2 : result B E) : result B E :=
  match r1 with Ok _ => r2 | Err e => Err e end.

Definition is_ok {A E} (r : result A E) : bool :=
  match r with Ok _ => true | Err _ => false end.

(** ** Tactics *)

(** Case analysis on the boolean comparisons of the code. *)
Ltac zbool :=
  repeat match goal with
  | H : (_ =? _) = true |- _ => apply Z.eqb_eq in H
  | H : (_ =? _) = false |- _ => apply Z.eqb_neq in H
  | H : (_ <=? _) = true |- _ => apply Z.leb_le in H
  | H : (_ <=? _) = false |- _ => apply Z.leb_gt in H
  | H : (_ <? _) = true |- _ => apply Z.ltb_lt in H
  | H : (_ <? _) = false |- _ => apply Z.ltb_ge in H
  | H : (_ && _)%bool = true |- _ => apply andb_true_iff in H as [? ?]
  | H : (_ || _)%bool = false |- _ => apply orb_false_iff in H as [? ?]
  | H : negb _ = true |- _ => apply negb_true_iff in H
  | H : negb _ = false |- _ => apply negb_false_iff in H
  end.

(** Destruct the scrutinee of some [match]/[if] of the goal or of a
    hypothesis, keeping the equation. *)
Ltac case_in_goal :=
  match goal with
  | |- context [match ?x with _ => _ end] =>
      lazymatch x with context [match _ with _ => _ end] => fail | _ => destruct x eqn:? end
  end.
Ltac case_in_hyp H :=
  match type of H with
  | context [match ?x with _ => _ end] =>
      lazymatch x with context [match _ with _ => _ end] => fail | _ => destruct x eqn:? end
  end.

Ltac unfold_arith :=
  unfold sat_add, sat_sub, sat_mul, fits, U64_MAX, U32_MAX, U16_MAX, U128_MAX in *.

(** Arithmetic goals about the saturating operations. *)
Ltac solve_sat := unfold_arith; zbool; lia.

Create HintDb rust discriminated.

(** ** Generic lemmas *)

Lemma checked_add_Some m a b c :
  checked_add m a b = Some c ↔ c = a + b ∧ a + b ≤ m.
Proof. unfold checked_add. destruct (_ <=? _) eqn:E; zbool; naive_solver lia. Qed.

Lemma checked_sub_Some a b c : checked_sub a b = Some c ↔ c = a - b ∧ b ≤ a.
Proof. unfold checked_sub. destruct (_ <=? _) eqn:E; zbool; naive_solver lia. Qed.

Lemma checked_mul_Some m a b c :
  checked_mul m a b = Some c ↔ c = a * b ∧ a * b ≤ m.
Proof. unfold checked_mul. destruct (_ <=? _) eqn:E; zbool; naive_solver lia. Qed.

(** Division rounded up, characterised by the multiples it lies between. *)
Lemma div_ceil_spec a b :
  0 ≤ a → 0 < b → (div_ceil a b - 1) * b < a ≤ div_ceil a b * b.
Proof.
  intros Ha Hb. unfold div_ceil.
  pose proof (Z.div_mod a b ltac:(lia)). pose proof (Z.mod_pos_bound a b Hb).
  destruct (_ =? 0) eqn:E; zbool; nia.
Qed.

Lemma div_ceil_nonneg a b : 0 ≤ a → 0 < b → 0 ≤ div_ceil a b.
Proof. intros Ha Hb. pose proof (div_ceil_spec a b Ha Hb). nia. Qed.

(** A property that holds initially and is kept by every step holds in every
    state a step relation can reach. *)
Lemma rtc_invariant {A} (R : relation A) (P : A → Prop) x y :
  (∀ a b, P a → R a b → P b) → P x → rtc R x y → P y.
Proof. intros HR Hx Hxy. induction Hxy; eauto. Qed.

(** Two different byte strings of the same length with the same hash. *)
Definition hash_collision (hash : list Z → list Z) : Prop :=
  ∃ x y, x ≠ y ∧ length x = length y ∧ hash x = hash y.

Lemma filter_all {A} (P : A → bool) l : Forall (λ x, P x = true) l → List.filter P l = l.
Proof. induction 1 as [|x l Hx Hl IH]; simpl; [done|]. by rewrite Hx, IH. Qed.
Lemma filter_none {A} (P : A → bool) l : Forall (λ x, P x = false) l → List.filter P l = [].
Proof. induction 1 as [|x l Hx Hl IH]; simpl; [done|]. by rewrite Hx, IH. Qed.
