(* ===== verification/Errors.v ===== *)
(** * Errors

    The SDK error type of [src/error.rs]: the numeric codes, the constructors of
    [MeowError], and the classification of local I/O errors that decides which
    code a failed file operation reports. *)
From S2P Require Import Prelude.
#[local] Open Scope string_scope.
#[local] Open Scope Z_scope.

Inductive InnerErrorCode :=
| Unknown
| Success
| RuntimeCreationFailedError
| ParameterEmpty
| DuplicateTaskError
| EnqueueError
| IoErrorCode
| HttpError
| ClientClosed
| TaskNotFound
| ResponseStatusError
| MissingOrInvalidContentLengthFromHead
| CommandSendFailed
| CommandResponseFailed
| ResponseParseError
| InvalidRange
| FileNotFound
| ChecksumMismatch
| InvalidTaskState
| LockPoisoned
| HttpClientBuildFailed
| TaskCanceled
| DiskFull
| LocalFileRemoved
| BinaryTaskQueueFull
| BinaryBodyTooLarge.

#[export] Instance InnerErrorCode_eq_dec : EqDecision InnerErrorCode.
Proof. solve_decision. Defined.

(** The [as i32] cast of the enum. *)
Definition as_i32 (c : InnerErrorCode) : Z :=
  match c with
  | Unknown => -1
  | Success => 0
  | RuntimeCreationFailedError => 101
  | ParameterEmpty => 102
  | DuplicateTaskError => 103
  | EnqueueError => 104
  | IoErrorCode => 105
  | HttpError => 106
  | ClientClosed => 107
  | TaskNotFound => 108
  | ResponseStatusError => 109
  | MissingOrInvalidContentLengthFromHead => 110
  | CommandSendFailed => 111
  | CommandResponseFailed => 112
  | ResponseParseError => 113
  | InvalidRange => 114
  | FileNotFound => 115
  | ChecksumMismatch => 116
  | InvalidTaskState => 117
  | LockPoisoned => 118
  | HttpClientBuildFailed => 119
  | TaskCanceled => 120
  | DiskFull => 121
  | LocalFileRemoved => 122
  | BinaryTaskQueueFull => 123
  | BinaryBodyTooLarge => 124
  end.

(** [std::io::ErrorKind], the kinds the sources test for; every other kind is
    [OtherKind]. *)
Inductive ErrorKind :=
| NotFound
| AlreadyExists
| WouldBlock
| InvalidInput
| InvalidData
| UnexpectedEof
| OtherKind.

#[export] Instance ErrorKind_eq_dec : EqDecision ErrorKind.
Proof. solve_decision. Defined.

(** [std::io::Error] as the sources observe it: kind, OS error number, text. *)
Record IoError := mkIoError {
  io_kind : ErrorKind;
  raw_os_error : option Z;
  io_msg : string;
}.

(** [io::Error::new(kind, msg)] and [io::Error::other(msg)]. *)
Definition io_new (k : ErrorKind) (m : string) : IoError := mkIoError k None m.
Definition io_other (m : string) : IoError := mkIoError OtherKind None m.

Record MeowError := mkMeowError {
  code : Z;
  msg : string;
  source : option IoError;
  http_status : option Z;
}.

Definition from_code1 (c : InnerErrorCode) : MeowError :=
  mkMeowError (as_i32 c) "" None None.
Definition from_code (c : InnerErrorCode) (m : string) : MeowError :=
  mkMeowError (as_i32 c) m None None.
Definition from_code_str (c : InnerErrorCode) (m : string) : MeowError :=
  mkMeowError (as_i32 c) m None None.
Definition from_source (c : InnerErrorCode) (m : string) (s : IoError) : MeowError :=
  mkMeowError (as_i32 c) m (Some s) None.
Definition with_http_status (e : MeowError) (status : Z) : MeowError :=
  mkMeowError (code e) (msg e) (source e) (Some status).

(** The target platform, for the [cfg] attributes of the sources. *)
Inductive Platform := Unix | Windows.

#[export] Instance Platform_eq_dec : EqDecision Platform.
Proof. solve_decision. Defined.

Definition is_disk_full (p : Platform) (e : IoError) : bool :=
  match raw_os_error e with
  | Some n =>
      match p with
      | Unix => n =? 28
      | Windows => (n =? 112) || (n =? 39)
      end
  | None => false
  end.

Definition classify_io_error (p : Platform) (e : IoError) : InnerErrorCode :=
  if is_disk_full p e then DiskFull
  else if bool_decide (io_kind e = NotFound) then LocalFileRemoved
  else IoErrorCode.

Definition from_io (p : Platform) (m : string) (e : IoError) : MeowError :=
  from_source (classify_io_error p e) m e.

(** The [PartialEq] of [MeowError]: code and message only. *)
Definition meow_error_eqb (e1 e2 : MeowError) : bool :=
  (code e1 =? code e2) && String.eqb (msg e1) (msg e2).

(** ** Lemmas *)

Lemma as_i32_inj c1 c2 : as_i32 c1 = as_i32 c2 → c1 = c2.
Proof. destruct c1, c2; simpl; intros; congruence. Qed.

#[export] Instance as_i32_Inj : Inj (=) (=) as_i32.
Proof. exact as_i32_inj. Qed.

Lemma as_i32_eqb c1 c2 : (as_i32 c1 =? as_i32 c2) = bool_decide (c1 = c2).
Proof.
  destruct (Z.eqb_spec (as_i32 c1) (as_i32 c2)) as [E|E]; symmetry.
  - by apply bool_decide_eq_true, as_i32_inj.
  - apply bool_decide_eq_false. congruence.
Qed.

(** The [source] a caller can inspect is the I/O error itself, whatever code was
    chosen for it. *)
Lemma from_io_keeps_source p m e : source (from_io p m e) = Some e.
Proof. reflexivity. Qed.

(** An I/O error is never classified as a network error, so [from_io] errors are
    never retried by the transfer layer. *)
Lemma classify_io_error_local p e :
  classify_io_error p e = DiskFull
  ∨ classify_io_error p e = LocalFileRemoved
  ∨ classify_io_error p e = IoErrorCode.
Proof. unfold classify_io_error. repeat case_match; auto. Qed.
