(* ===== verification/Lifecycle.v ===== *)
(** * Terminal lifecycle arbitration

    [TransferLifecycle] of [src/inner/inner_task.rs]: one atomic byte shared by the
    scheduler and the worker of a task decides whether the final request of a
    transfer or a pause/cancel wins, and one atomic flag makes the provider abort
    happen once.

    The operations are compare-exchange loops. Each is described by its [plan]: what
    the loop body does with the value it loads. [atomic_op] executes the body in one
    indivisible step, [Arbiter] is what the byte stands for, and any number of threads
    running the loops concurrently behave like the arbiter's operations executed one after
    the other. *)
From S2P Require Import Prelude.

Definition TRANSFER_OPEN : Z := 0.
Definition TRANSFER_COMPLETING : Z := 1.
Definition TRANSFER_CANCELING : Z := 2.
Definition TRANSFER_PAUSING : Z := 3.
Definition TRANSFER_COMPLETING_CANCEL_PENDING : Z := 4.
Definition TRANSFER_COMPLETING_PAUSE_PENDING : Z := 5.

Inductive StopRequestDisposition := InterruptNow | DeferredUntilRequestReturns.
Inductive DeferredStop := DeferredPause | DeferredCancel.

#[export] Instance StopRequestDisposition_eq_dec : EqDecision StopRequestDisposition.
Proof. solve_decision. Defined.
#[export] Instance DeferredStop_eq_dec : EqDecision DeferredStop.
Proof. solve_decision. Defined.

Record TransferLifecycle := mkLifecycle {
  terminal : Z;
  abort_started : bool;
  abort_required : bool;
}.

Definition lifecycle_new : TransferLifecycle :=
  mkLifecycle TRANSFER_OPEN false false.

(** ** The loop bodies *)

(** What a loop body does after loading the byte: return, or try to exchange the
    loaded value for [next] and return [r] when that succeeds (a failed exchange
    starts the body again). *)
Inductive plan (R : Type) :=
| Return (r : R)
| TryCas (next : Z) (r : R).
Arguments Return {R} r.
Arguments TryCas {R} next r.

Definition begin_pause_plan (v : Z) : plan StopRequestDisposition :=
  if v =? TRANSFER_OPEN then TryCas TRANSFER_PAUSING InterruptNow
  else if v =? TRANSFER_COMPLETING then
    TryCas TRANSFER_COMPLETING_PAUSE_PENDING DeferredUntilRequestReturns
  else if (v =? TRANSFER_COMPLETING_PAUSE_PENDING)
          || (v =? TRANSFER_COMPLETING_CANCEL_PENDING) then
    Return DeferredUntilRequestReturns
  else if (v =? TRANSFER_PAUSING) || (v =? TRANSFER_CANCELING) then
    Return InterruptNow
  else Return DeferredUntilRequestReturns.

Definition begin_cancel_plan (v : Z) : plan StopRequestDisposition :=
  if v =? TRANSFER_CANCELING then Return InterruptNow
  else if v =? TRANSFER_COMPLETING then
    TryCas TRANSFER_COMPLETING_CANCEL_PENDING DeferredUntilRequestReturns
  else if v =? TRANSFER_COMPLETING_PAUSE_PENDING then
    TryCas TRANSFER_COMPLETING_CANCEL_PENDING DeferredUntilRequestReturns
  else if v =? TRANSFER_COMPLETING_CANCEL_PENDING then
    Return DeferredUntilRequestReturns
  else if (v =? TRANSFER_OPEN) || (v =? TRANSFER_PAUSING) then
    TryCas TRANSFER_CANCELING InterruptNow
  else Return DeferredUntilRequestReturns.

Definition acknowledge_completion_plan (v : Z) : plan unit :=
  if v =? TRANSFER_COMPLETING then Return tt
  else TryCas TRANSFER_COMPLETING tt.

Definition finish_incomplete_completion_plan (v : Z) : plan (option DeferredStop) :=
  if v =? TRANSFER_COMPLETING then TryCas TRANSFER_OPEN None
  else if v =? TRANSFER_COMPLETING_PAUSE_PENDING then
    TryCas TRANSFER_PAUSING (Some DeferredPause)
  else if v =? TRANSFER_COMPLETING_CANCEL_PENDING then
    TryCas TRANSFER_CANCELING (Some DeferredCancel)
  else Return None.

(** ** The operations on a lifecycle, as one step each *)

(** [atomic_op p v]: the body runs with nobody interfering between its load and
    its exchange. *)
Definition atomic_op {R} (p : Z → plan R) (v : Z) : R * Z :=
  match p v with
  | Return r => (r, v)
  | TryCas next r => (r, next)
  end.

Definition set_terminal (t : Z) (lc : TransferLifecycle) : TransferLifecycle :=
  mkLifecycle t (abort_started lc) (abort_required lc).

Definition run_plan {R} (p : Z → plan R) (lc : TransferLifecycle) : R * TransferLifecycle :=
  let '(r, t) := atomic_op p (terminal lc) in (r, set_terminal t lc).

(** A single [compare_exchange], whose result says whether it happened. *)
Definition begin_completion (lc : TransferLifecycle) : bool * TransferLifecycle :=
  if terminal lc =? TRANSFER_OPEN
  then (true, set_terminal TRANSFER_COMPLETING lc)
  else (false, lc).

Definition acknowledge_completion (lc : TransferLifecycle) : TransferLifecycle :=
  snd (run_plan acknowledge_completion_plan lc).

Definition begin_pause (lc : TransferLifecycle) : StopRequestDisposition * TransferLifecycle :=
  run_plan begin_pause_plan lc.

Definition begin_cancel (lc : TransferLifecycle) : StopRequestDisposition * TransferLifecycle :=
  run_plan begin_cancel_plan lc.

Definition reset_pause (lc : TransferLifecycle) : TransferLifecycle :=
  if terminal lc =? TRANSFER_PAUSING then set_terminal TRANSFER_OPEN lc else lc.

Definition finish_incomplete_completion (lc : TransferLifecycle)
  : option DeferredStop * TransferLifecycle :=
  run_plan finish_incomplete_completion_plan lc.

Definition begin_abort (lc : TransferLifecycle) : bool * TransferLifecycle :=
  if abort_started lc then (false, lc)
  else (true, mkLifecycle (terminal lc) true (abort_required lc)).

Definition require_abort (lc : TransferLifecycle) : TransferLifecycle :=
  mkLifecycle (terminal lc) (abort_started lc) true.

Definition stop_requested (lc : TransferLifecycle) : bool :=
  (terminal lc =? TRANSFER_CANCELING)
  || (terminal lc =? TRANSFER_PAUSING)
  || (terminal lc =? TRANSFER_COMPLETING_CANCEL_PENDING)
  || (terminal lc =? TRANSFER_COMPLETING_PAUSE_PENDING).

(** ** Operations as data, and runs of them *)

Inductive lc_op :=
| OpBeginCompletion
| OpAcknowledge
| OpBeginPause
| OpBeginCancel
| OpResetPause
| OpFinishIncomplete
| OpBeginAbort
| OpRequireAbort.

Definition apply_op (o : lc_op) (lc : TransferLifecycle) : TransferLifecycle :=
  match o with
  | OpBeginCompletion => snd (begin_completion lc)
  | OpAcknowledge => acknowledge_completion lc
  | OpBeginPause => snd (begin_pause lc)
  | OpBeginCancel => snd (begin_cancel lc)
  | OpResetPause => reset_pause lc
  | OpFinishIncomplete => snd (finish_incomplete_completion lc)
  | OpBeginAbort => snd (begin_abort lc)
  | OpRequireAbort => require_abort lc
  end.

Definition apply_ops (os : list lc_op) (lc : TransferLifecycle) : TransferLifecycle :=
  fold_left (λ l o, apply_op o l) os lc.

(** The byte only ever holds one of the six constants. *)
Definition terminal_ok (lc : TransferLifecycle) : Prop :=
  terminal lc ∈ [TRANSFER_OPEN; TRANSFER_COMPLETING; TRANSFER_CANCELING; TRANSFER_PAUSING;
                 TRANSFER_COMPLETING_CANCEL_PENDING; TRANSFER_COMPLETING_PAUSE_PENDING].

(** A cancel has been accepted and not yet overridden by a completed transfer. *)
Definition cancel_accepted (lc : TransferLifecycle) : Prop :=
  terminal lc = TRANSFER_CANCELING ∨ terminal lc = TRANSFER_COMPLETING_CANCEL_PENDING.

(** The completion claim is held: the final request may be in flight. *)
Definition completion_claimed (lc : TransferLifecycle) : Prop :=
  terminal lc = TRANSFER_COMPLETING
  ∨ terminal lc = TRANSFER_COMPLETING_CANCEL_PENDING
  ∨ terminal lc = TRANSFER_COMPLETING_PAUSE_PENDING.

Ltac lc_unfold :=
  unfold begin_pause, begin_cancel, acknowledge_completion, finish_incomplete_completion,
    begin_completion, reset_pause, begin_abort, require_abort, stop_requested, run_plan,
    atomic_op, begin_pause_plan, begin_cancel_plan, acknowledge_completion_plan,
    finish_incomplete_completion_plan, set_terminal, cancel_accepted, completion_claimed,
    terminal_ok, lifecycle_new,
    TRANSFER_OPEN, TRANSFER_COMPLETING, TRANSFER_CANCELING, TRANSFER_PAUSING,
    TRANSFER_COMPLETING_CANCEL_PENDING, TRANSFER_COMPLETING_PAUSE_PENDING in *.

(** Case analysis over the values the byte can hold. *)
Ltac lc_cases lc :=
  destruct lc as [t ast arq]; lc_unfold; simpl in *;
  repeat (case_match; simpl in *; simplify_eq); zbool;
  rewrite ?elem_of_cons, ?elem_of_nil in *; naive_solver lia.

Lemma apply_op_terminal_ok o lc : terminal_ok lc → terminal_ok (apply_op o lc).
Proof. intros H. destruct o; unfold apply_op; lc_cases lc. Qed.
#[export] Hint Resolve apply_op_terminal_ok : rust.

Lemma fold_left_invariant {A B} (f : A → B → A) (P : A → Prop) (Q : B → Prop) l a :
  (∀ x b, Q b → P x → P (f x b)) → Forall Q l → P a → P (fold_left f l a).
Proof. intros Hf Hl. revert a. induction Hl; simpl; eauto. Qed.

Lemma apply_ops_terminal_ok os lc : terminal_ok lc → terminal_ok (apply_ops os lc).
Proof.
  apply (fold_left_invariant _ _ (λ _, True)); [eauto with rust|].
  by apply Forall_true.
Qed.

(** ** What the arbitration guarantees *)

(** Neither a pause, a reset, a retry of the final request, nor a second cancel takes
    an accepted cancel back; only [acknowledge_completion] does. *)
Lemma cancel_accepted_step o lc :
  o ≠ OpAcknowledge → cancel_accepted lc → cancel_accepted (apply_op o lc).
Proof. intros Ho H. destruct o; unfold apply_op; try done; lc_cases lc. Qed.

Lemma cancel_accepted_no_completion lc :
  cancel_accepted lc → fst (begin_completion lc) = false.
Proof. intros H; lc_cases lc. Qed.

Lemma begin_cancel_accepts lc :
  terminal_ok lc → cancel_accepted (snd (begin_cancel lc)).
Proof. intros H; lc_cases lc. Qed.

(** An accepted cancel is final: after [begin_cancel], whatever operations follow
    (from any number of threads, in any order), as long as the remote end does not
    report completion, the completion claim is refused. *)
Definition no_acknowledge (os : list lc_op) : Prop := Forall (λ o, o ≠ OpAcknowledge) os.

Lemma cancel_accepted_run os lc :
  no_acknowledge os → cancel_accepted lc → cancel_accepted (apply_ops os lc).
Proof. apply fold_left_invariant. intros; by apply cancel_accepted_step. Qed.

(** A stop request made while the final request is in flight is not lost. *)
Lemma deferred_stop_reported lc :
  completion_claimed lc →
  fst (finish_incomplete_completion (snd (begin_cancel lc))) = Some DeferredCancel
  ∧ (terminal lc ≠ TRANSFER_COMPLETING_CANCEL_PENDING →
     fst (finish_incomplete_completion (snd (begin_pause lc))) = Some DeferredPause).
Proof. intros H; split; [|intros Hn]; lc_cases lc. Qed.

(** The disposition tells the caller whether the worker may be interrupted: it is
    deferred exactly while the completion claim is held. *)
Lemma begin_pause_disposition lc :
  terminal_ok lc →
  (fst (begin_pause lc) = DeferredUntilRequestReturns ↔ completion_claimed lc).
Proof. intros H; split; intros H'; lc_cases lc. Qed.

Lemma begin_cancel_disposition lc :
  terminal_ok lc →
  (fst (begin_cancel lc) = DeferredUntilRequestReturns ↔ completion_claimed lc).
Proof. intros H; split; intros H'; lc_cases lc. Qed.

(** The abort flag is taken once. *)
Fixpoint count_aborts (os : list lc_op) (lc : TransferLifecycle) : nat :=
  match os with
  | [] => 0
  | o :: os =>
      (match o with
       | OpBeginAbort => if fst (begin_abort lc) then 1 else 0
       | _ => 0
       end + count_aborts os (apply_op o lc))%nat
  end.

Lemma apply_op_abort_started o lc :
  abort_started lc = true → abort_started (apply_op o lc) = true.
Proof. intros H. destruct o; unfold apply_op; lc_cases lc. Qed.

Lemma count_aborts_started os lc : abort_started lc = true → count_aborts os lc = 0%nat.
Proof.
  revert lc. induction os as [|o os IH]; intros lc H; [done|]. simpl.
  rewrite IH by auto using apply_op_abort_started.
  destruct o; try done. unfold begin_abort. by rewrite H.
Qed.

Lemma count_aborts_le os lc : (count_aborts os lc ≤ 1)%nat.
Proof.
  revert lc. induction os as [|o os IH]; intros lc; simpl; [lia|].
  destruct o; simpl; try apply IH.
  unfold begin_abort. destruct (abort_started lc) eqn:E; simpl; [apply IH|].
  rewrite count_aborts_started; [lia|done].
Qed.

(** ** Concurrent execution of the loops *)

(** The operations on the byte, with their results in one type. *)
Inductive byte_op := BBeginCompletion | BAcknowledge | BBeginPause | BBeginCancel
                   | BResetPause | BFinishIncomplete.
Inductive byte_result :=
| RBool (b : bool)
| RUnit
| RDisposition (d : StopRequestDisposition)
| RStop (s : option DeferredStop).

Definition plan_map {R S} (f : R → S) (p : plan R) : plan S :=
  match p with Return r => Return (f r) | TryCas n r => TryCas n (f r) end.

(** The loop body of an operation, when it is a loop. *)
Definition loop_plan (o : byte_op) : option (Z → plan byte_result) :=
  match o with
  | BAcknowledge => Some (λ v, plan_map (λ _, RUnit) (acknowledge_completion_plan v))
  | BBeginPause => Some (λ v, plan_map RDisposition (begin_pause_plan v))
  | BBeginCancel => Some (λ v, plan_map RDisposition (begin_cancel_plan v))
  | BFinishIncomplete => Some (λ v, plan_map RStop (finish_incomplete_completion_plan v))
  | BBeginCompletion | BResetPause => None
  end.

(** The two operations that are one [compare_exchange]. *)
Definition once_op (o : byte_op) (v : Z) : byte_result * Z :=
  match o with
  | BBeginCompletion =>
      if v =? TRANSFER_OPEN then (RBool true, TRANSFER_COMPLETING) else (RBool false, v)
  | _ => if v =? TRANSFER_PAUSING then (RUnit, TRANSFER_OPEN) else (RUnit, v)
  end.

Definition atomic_byte_op (o : byte_op) (v : Z) : byte_result * Z :=
  match loop_plan o with
  | Some p => atomic_op p v
  | None => once_op o v
  end.

Inductive thread :=
| Ready (o : byte_op)
| Loaded (o : byte_op) (v : Z)
| Done (o : byte_op) (r : byte_result).

(** One instruction of one thread. [lin] says whether the instruction is the one at
    which the operation takes effect. *)
Inductive tstep : Z → thread → bool → Z → thread → Prop :=
| ts_load_return v o p r :
    loop_plan o = Some p → p v = Return r →
    tstep v (Ready o) true v (Done o r)
| ts_load_cas v o p next r :
    loop_plan o = Some p → p v = TryCas next r →
    tstep v (Ready o) false v (Loaded o v)
| ts_cas_ok v o p next r :
    loop_plan o = Some p → p v = TryCas next r →
    tstep v (Loaded o v) true next (Done o r)
| ts_cas_fail v w o :
    v ≠ w →
    tstep v (Loaded o w) false v (Ready o)
| ts_once v o r v' :
    loop_plan o = None → once_op o v = (r, v') →
    tstep v (Ready o) true v' (Done o r).

Definition cconf : Type := Z * list thread.

Inductive cstep (lin : bool) : cconf → cconf → Prop :=
| cstep_thread v ts i t v' t' :
    ts !! i = Some t → tstep v t lin v' t' →
    cstep lin (v, ts) (v', <[i := t']> ts).

Definition conc_step (c c' : cconf) : Prop := ∃ lin, cstep lin c c'.

(** *** What the arbitration means *)

(** The transfer is open to a completion claim or a stop; a worker holds the claim for its final
    request, with the strongest stop requested meanwhile; or it is being stopped. *)
Inductive Arbiter := AOpen | AClaimed (stop : option DeferredStop) | AStopping (stop : DeferredStop).

Definition encode_arbiter (a : Arbiter) : Z :=
  match a with
  | AOpen => TRANSFER_OPEN
  | AClaimed None => TRANSFER_COMPLETING
  | AClaimed (Some DeferredPause) => TRANSFER_COMPLETING_PAUSE_PENDING
  | AClaimed (Some DeferredCancel) => TRANSFER_COMPLETING_CANCEL_PENDING
  | AStopping DeferredPause => TRANSFER_PAUSING
  | AStopping DeferredCancel => TRANSFER_CANCELING
  end.

(** A cancel is stronger than a pause. *)
Definition stronger (s s' : DeferredStop) : DeferredStop :=
  match s, s' with DeferredPause, DeferredPause => DeferredPause | _, _ => DeferredCancel end.

Definition request_stop (s : DeferredStop) (a : Arbiter) : byte_result * Arbiter :=
  match a with
  | AOpen => (RDisposition InterruptNow, AStopping s)
  | AStopping s' => (RDisposition InterruptNow, AStopping (stronger s' s))
  | AClaimed None => (RDisposition DeferredUntilRequestReturns, AClaimed (Some s))
  | AClaimed (Some s') => (RDisposition DeferredUntilRequestReturns, AClaimed (Some (stronger s' s)))
  end.

(** The operations on an arbiter: a claim needs an open transfer; an acknowledged completion
    overrides everything; an incomplete one gives the claim back and delivers the stop recorded
    with it; only a pause can be reset. *)
Definition arbiter_op (o : byte_op) (a : Arbiter) : byte_result * Arbiter :=
  match o, a with
  | BBeginCompletion, AOpen => (RBool true, AClaimed None)
  | BBeginCompletion, _ => (RBool false, a)
  | BAcknowledge, _ => (RUnit, AClaimed None)
  | BBeginPause, _ => request_stop DeferredPause a
  | BBeginCancel, _ => request_stop DeferredCancel a
  | BResetPause, AStopping DeferredPause => (RUnit, AOpen)
  | BResetPause, _ => (RUnit, a)
  | BFinishIncomplete, AClaimed None => (RStop None, AOpen)
  | BFinishIncomplete, AClaimed (Some s) => (RStop (Some s), AStopping s)
  | BFinishIncomplete, _ => (RStop None, a)
  end.

(** The byte is the arbiter: every operation does to it what it does to the arbiter. *)
Lemma atomic_op_arbiter o a r v :
  atomic_byte_op o (encode_arbiter a) = (r, v) → ∃ a', v = encode_arbiter a' ∧ arbiter_op o a = (r, a').
Proof.
  destruct o, a as [|[[]|]|[]]; vm_compute; intros [= <- <-]; eexists; (split; [|reflexivity]); reflexivity.
Qed.

(** The sequential machine: every pending operation takes effect in one step on the arbiter. *)
Inductive athread := Pending (o : byte_op) | Finished (o : byte_op) (r : byte_result).

Inductive astep : Arbiter * list athread → Arbiter * list athread → Prop :=
| astep_thread a ts i o r a' :
    ts !! i = Some (Pending o) → arbiter_op o a = (r, a') →
    astep (a, ts) (a', <[i := Finished o r]> ts).

Definition abs_thread (t : thread) : athread :=
  match t with
  | Ready o | Loaded o _ => Pending o
  | Done o r => Finished o r
  end.
Lemma tstep_silent v t v' t' :
  tstep v t false v' t' → v' = v ∧ abs_thread t' = abs_thread t.
Proof. inversion 1; by subst. Qed.

Lemma tstep_lin v t v' t' :
  tstep v t true v' t' →
  ∃ o r, abs_thread t = Pending o ∧ abs_thread t' = Finished o r
         ∧ atomic_byte_op o v = (r, v').
Proof.
  inversion 1; subst; simpl; eexists _, _; split_and!; try done;
    unfold atomic_byte_op, atomic_op;
    repeat match goal with
    | H : loop_plan _ = _ |- _ => rewrite H
    | H : _ = Return _ |- _ => rewrite H
    | H : _ = TryCas _ _ |- _ => rewrite H
    end; done.
Qed.

Lemma conc_step_simulated a ts v' ts' :
  conc_step (encode_arbiter a, ts) (v', ts') →
  ∃ a', v' = encode_arbiter a'
    ∧ ((a' = a ∧ abs_thread <$> ts' = abs_thread <$> ts) ∨ astep (a, abs_thread <$> ts) (a', abs_thread <$> ts')).
Proof.
  intros [lin Hs]. inversion Hs as [v ts1 i t v1 t' Hi Ht]; subst. rewrite list_fmap_insert. destruct lin.
  - destruct (tstep_lin _ _ _ _ Ht) as (o & r & Ho & -> & Hop). apply atomic_op_arbiter in Hop as (a' & -> & Hop).
    exists a'. split; [done|]. right. econstructor; [|done]. by rewrite list_lookup_fmap, Hi; simpl; rewrite Ho.
  - destruct (tstep_silent _ _ _ _ Ht) as [-> ->]. exists a. split; [done|]. left. split; [done|].
    apply list_insert_id. by rewrite list_lookup_fmap, Hi.
Qed.

Lemma conc_refines a ts v' ts' :
  rtc conc_step (encode_arbiter a, ts) (v', ts') →
  ∃ a', v' = encode_arbiter a' ∧ rtc astep (a, abs_thread <$> ts) (a', abs_thread <$> ts').
Proof.
  intros Hs. remember (encode_arbiter a, ts) as c eqn:Hc. remember (v', ts') as c' eqn:Hc'.
  revert a ts Hc. induction Hs as [c|c1 [v2 ts2] c3 Hstep _ IH]; intros a ts Hc; simplify_eq.
  - exists a. split; [done|reflexivity].
  - destruct (conc_step_simulated a ts v2 ts2 Hstep) as (a2 & -> & Ha).
    destruct (IH eq_refl a2 ts2 eq_refl) as (a' & -> & Hr). exists a'. split; [done|].
    destruct Ha as [[-> <-]|Ha]; [done|by eapply rtc_l].
Qed.

(** *** Consequences for every run *)

Definition thread_op (t : athread) : byte_op := match t with Pending o | Finished o _ => o end.
Definition is_claim (t : athread) : bool := match t with Finished BBeginCompletion (RBool true) => true | _ => false end.
Definition is_finish (t : athread) : bool := match t with Finished BFinishIncomplete _ => true | _ => false end.
Definition count (f : athread → bool) (ts : list athread) : nat := sum_list_with (λ t, Nat.b2n (f t)) ts.
Definition claimed_now (a : Arbiter) : nat := match a with AClaimed _ => 1 | _ => 0 end.
Definition cancel_in (a : Arbiter) : Prop := a = AStopping DeferredCancel ∨ a = AClaimed (Some DeferredCancel).

Lemma sum_list_with_insert {A} (f : A → nat) (l : list A) i x y :
  l !! i = Some x →
  (sum_list_with f (<[i := y]> l) + f x = sum_list_with f l + f y)%nat.
Proof.
  revert i. induction l as [|z l IH]; intros [|i] Hi; simplify_eq/=; [lia|].
  specialize (IH i Hi). lia.
Qed.

(** A claim is only given again after it was given back, and a cancel stays. *)
Definition arbiter_inv (os : list byte_op) (st : Arbiter * list athread) : Prop :=
  let '(a, ts) := st in
  thread_op <$> ts = os
  ∧ (BAcknowledge ∉ os → (count is_claim ts ≤ count is_finish ts + claimed_now a)%nat
     ∧ ∀ i r, ts !! i = Some (Finished BBeginCancel r) → cancel_in a).

Lemma astep_inv os st st' : arbiter_inv os st → astep st st' → arbiter_inv os st'.
Proof.
  intros Hinv Hst. destruct Hst as [a ts i o r a' Hi Hop]. destruct Hinv as [Hos Hinv]. split.
  { rewrite list_fmap_insert. cbn [thread_op]. rewrite <- Hos. apply list_insert_id. by rewrite list_lookup_fmap, Hi. }
  intros Hna. destruct (Hinv Hna) as [Hc Hcancel].
  assert (o ≠ BAcknowledge) as Ho.
  { intros ->. apply Hna. rewrite <- Hos. apply list_elem_of_fmap. exists (Pending BAcknowledge).
    split; [done|by eapply list_elem_of_lookup_2]. }
  pose proof (sum_list_with_insert (λ t, Nat.b2n (is_claim t)) ts i _ (Finished o r) Hi) as H1.
  pose proof (sum_list_with_insert (λ t, Nat.b2n (is_finish t)) ts i _ (Finished o r) Hi) as H2.
  unfold count in *. simpl in H1, H2. split.
  - destruct o, a as [|[[]|]|[]]; try done; injection Hop as <- <-; simpl in *; lia.
  - assert (cancel_in a ∨ o = BBeginCancel → cancel_in a') as Hkeep.
    { unfold cancel_in. intros Hca. destruct o, a as [|[[]|]|[]]; try done; injection Hop as _ <-; naive_solver. }
    intros j r' Hj. destruct (decide (i = j)) as [<-|Hne].
    + rewrite list_lookup_insert_eq in Hj by (by eapply lookup_lt_Some). injection Hj as -> _. apply Hkeep. by right.
    + rewrite list_lookup_insert_ne in Hj by done. apply Hkeep. left. by eapply Hcancel.
Qed.

Lemma arbiter_inv_start os a : arbiter_inv os (a, Pending <$> os).
Proof.
  split; [rewrite <- list_fmap_compose; apply list_fmap_id|]. intros _.
  assert (∀ f, (∀ o, f (Pending o) = false) → count f (Pending <$> os) = 0%nat) as H0.
  { intros f Hf. unfold count. induction os as [|o os IH]; [done|]. cbn [fmap list_fmap map sum_list_with]. by rewrite Hf. }
  split; [rewrite (H0 is_claim) by done; lia|]. intros i r Hi. rewrite list_lookup_fmap in Hi. by destruct (os !! i).
Qed.

(** Bound on the instructions that can pass without any operation taking effect. *)
Definition pending_cost (v : Z) (t : thread) : nat :=
  match t with
  | Ready _ => 1
  | Loaded _ w => if v =? w then 0 else 2
  | Done _ _ => 0
  end.
Definition system_cost (c : cconf) : nat :=
  sum_list_with (pending_cost (fst c)) (snd c).

Lemma silent_step_cost c c' : cstep false c c' → (system_cost c' < system_cost c)%nat.
Proof.
  inversion 1 as [v ts i t v' t' Hi Ht]; subst. unfold system_cost; simpl.
  destruct (tstep_silent _ _ _ _ Ht) as [-> _].
  pose proof (sum_list_with_insert (pending_cost v) ts i t t' Hi) as Hsum.
  assert (pending_cost v t' < pending_cost v t)%nat; [|lia].
  inversion Ht; subst; simpl; [by rewrite Z.eqb_refl; lia|].
  destruct (v =? w) eqn:E; zbool; [done|lia].
Qed.

Lemma system_cost_le c : (system_cost c ≤ 2 * length (snd c))%nat.
Proof.
  destruct c as [v ts]; unfold system_cost; simpl.
  induction ts as [|t ts IH]; simpl; [lia|].
  assert (pending_cost v t ≤ 2)%nat; [|lia].
  destruct t; simpl; repeat case_match; lia.
Qed.

Lemma cstep_length lin c c' : cstep lin c c' → length (snd c') = length (snd c).
Proof. inversion 1; subst; simpl. apply length_insert. Qed.

(** ** Claims *)

(** C30: the lifecycle byte is a linearizable arbiter. Whatever the interleaving of the instructions
    of any number of threads, each running one lifecycle operation as its compare-exchange loop,
    the byte always stands for an arbiter, and the values returned and the final arbiter are those
    of a sequential execution of the arbiter's operations. In every such run without an
    acknowledgement the completion claims granted are at most one more than the requests reported
    incomplete, and once a cancel has returned the arbiter keeps it, whatever other operations
    return. *)
Theorem lifecycle_linearizable a os v' ts' :
  rtc conc_step (encode_arbiter a, Ready <$> os) (v', ts') →
  ∃ a', v' = encode_arbiter a' ∧ rtc astep (a, Pending <$> os) (a', abs_thread <$> ts')
    ∧ (BAcknowledge ∉ os →
         (count is_claim (abs_thread <$> ts') ≤ S (count is_finish (abs_thread <$> ts')))%nat
         ∧ (∀ i r, ts' !! i = Some (Done BBeginCancel r) → cancel_in a')).
Proof.
  intros Hs. destruct (conc_refines a (Ready <$> os) v' ts' Hs) as (a' & -> & Hr).
  rewrite <- list_fmap_compose in Hr. exists a'. split; [done|]. split; [exact Hr|]. intros Hna.
  destruct (rtc_invariant astep (arbiter_inv os) _ _ (λ st st', astep_inv os st st') (arbiter_inv_start os a) Hr) as [_ Hinv].
  destruct (Hinv Hna) as [Hc Hcancel]. split.
  - destruct a'; simpl in Hc; lia.
  - intros i r Hi. apply (Hcancel i r). by rewrite list_lookup_fmap, Hi.
Qed.

(** A cancel and a completion claim racing from two threads. *)
Lemma lifecycle_linearizable_witness :
  ∃ a', TRANSFER_COMPLETING_CANCEL_PENDING = encode_arbiter a'
    ∧ rtc astep (AOpen, [Pending BBeginCancel; Pending BBeginCompletion])
        (a', [Finished BBeginCancel (RDisposition DeferredUntilRequestReturns); Finished BBeginCompletion (RBool true)])
    ∧ cancel_in a'.
Proof.
  destruct (lifecycle_linearizable AOpen [BBeginCancel; BBeginCompletion]
           TRANSFER_COMPLETING_CANCEL_PENDING
           [Done BBeginCancel (RDisposition DeferredUntilRequestReturns);
            Done BBeginCompletion (RBool true)]) as (a' & Hv & Hr & Hc).
  - eapply rtc_l; [exists false; eapply (cstep_thread _ _ _ 0); [reflexivity|]; by eapply ts_load_cas|].
    eapply rtc_l; [exists true; eapply (cstep_thread _ _ _ 1); [reflexivity|]; by eapply ts_once|].
    eapply rtc_l; [exists false; eapply (cstep_thread _ _ _ 0); [reflexivity|]; by eapply ts_cas_fail|].
    eapply rtc_l; [exists false; eapply (cstep_thread _ _ _ 0); [reflexivity|]; by eapply ts_load_cas|].
    eapply rtc_l; [exists true; eapply (cstep_thread _ _ _ 0); [reflexivity|]; by eapply ts_cas_ok|].
    apply rtc_refl.
  - exists a'. split; [exact Hv|]. split; [exact Hr|]. destruct Hc as [_ Hc]; [set_solver|].
    apply (Hc 0%nat (RDisposition DeferredUntilRequestReturns)). reflexivity.
Defined.

(** Lock freedom. The compare-exchange loops cannot spin forever: from any
    configuration, no more than two instructions per thread can be executed before some
    operation takes effect. *)
Theorem lifecycle_lock_free c c' n :
  nsteps (cstep false) n c c' → (n ≤ 2 * length (snd c))%nat.
Proof.
  intros Hn. pose proof (system_cost_le c).
  enough (n + system_cost c' ≤ system_cost c)%nat by lia.
  clear H. induction Hn as [|n c1 c2 c3 H12 _ IH]; [lia|].
  pose proof (silent_step_cost _ _ H12). lia.
Qed.

Lemma lifecycle_lock_free_witness : (1 ≤ 2 * 1)%nat.
Proof.
  apply (lifecycle_lock_free (TRANSFER_OPEN, [Ready BBeginPause])
           (TRANSFER_OPEN, [Loaded BBeginPause TRANSFER_OPEN]) 1).
  apply nsteps_once.
  apply (cstep_thread false TRANSFER_OPEN [Ready BBeginPause] 0 (Ready BBeginPause)
           TRANSFER_OPEN (Loaded BBeginPause TRANSFER_OPEN)); [reflexivity|].
  by eapply ts_load_cas.
Defined.

(** An accepted cancel is final. After [begin_cancel] and any further operations
    except the acknowledgement of an already completed transfer, no worker obtains the
    right to run the final (completing) request. *)
Theorem cancel_excludes_completion os lc :
  terminal_ok lc → no_acknowledge os →
  fst (begin_completion (apply_ops os (snd (begin_cancel lc)))) = false.
Proof.
  intros Hok Hos. apply cancel_accepted_no_completion, cancel_accepted_run; [done|].
  by apply begin_cancel_accepts.
Qed.

Lemma cancel_excludes_completion_witness :
  fst (begin_completion
         (apply_ops [OpBeginPause; OpResetPause; OpFinishIncomplete; OpResetPause]
            (snd (begin_cancel lifecycle_new)))) = false.
Proof.
  apply (cancel_excludes_completion [OpBeginPause; OpResetPause; OpFinishIncomplete; OpResetPause]
           lifecycle_new).
  - apply list_elem_of_here.
  - repeat constructor; discriminate.
Defined.

(** the completion claim is exclusive and stop requests made while it is held are
    reported, not lost: a second claim fails, a pause or cancel is answered "deferred",
    and when the request turns out not to have finished the transfer the worker learns
    of the pause, or of the cancel if one arrived as well. *)
Theorem completion_claim_exclusive lc :
  fst (begin_completion lc) = true →
  let claimed := snd (begin_completion lc) in
  fst (begin_completion claimed) = false
  ∧ fst (begin_pause claimed) = DeferredUntilRequestReturns
  ∧ fst (begin_cancel claimed) = DeferredUntilRequestReturns
  ∧ fst (finish_incomplete_completion claimed) = None
  ∧ fst (finish_incomplete_completion (snd (begin_pause claimed))) = Some DeferredPause
  ∧ fst (finish_incomplete_completion (snd (begin_cancel claimed))) = Some DeferredCancel
  ∧ fst (finish_incomplete_completion (snd (begin_cancel (snd (begin_pause claimed)))))
    = Some DeferredCancel
  ∧ fst (finish_incomplete_completion (snd (begin_pause (snd (begin_cancel claimed)))))
    = Some DeferredCancel.
Proof. intros H; simpl; split_and!; lc_cases lc. Qed.

Lemma completion_claim_exclusive_witness :
  fst (begin_pause (snd (begin_completion lifecycle_new))) = DeferredUntilRequestReturns.
Proof. apply (completion_claim_exclusive lifecycle_new). reflexivity. Defined.

(** a provider abort is started at most once per task, however the scheduler's and
    the worker's views of the task interleave their requests. *)
Theorem abort_at_most_once os : (count_aborts os lifecycle_new ≤ 1)%nat.
Proof. apply count_aborts_le. Qed.
