(* ===== verification/PartWindow.v ===== *)
(** * The part window

    [PartWindow] of [src/inner/exec_impl/part_window.rs]: it hands out the part offsets
    of one file, at most [max_in_flight] at a time, and reduces completions that arrive
    in any order to one contiguous prefix (the watermark).

    The specification tracks, beside the window, the set of offsets whose part is in
    flight and the set of offsets whose part has completed: the watermark is the end of
    the longest run of completed parts from the start offset, and completion is reported
    when every part of the grid is completed and nothing is in flight. *)
From S2P Require Import Prelude Errors.
#[local] Open Scope Z_scope.

Record PartWindow := mkPartWindow {
  chunk : Z;
  total : Z;
  max_in_flight : Z;
  next_dispatch : Z;
  completed : gset Z;
  watermark : Z;
  in_flight : Z;
}.

Definition part_window_new (start_offset chunk total max_in_flight : Z) : PartWindow :=
  let start := Z.min start_offset total in
  mkPartWindow (Z.max chunk 1) total (Z.max max_in_flight 1) start ∅ start 0.

Definition take_dispatch (w : PartWindow) : option Z * PartWindow :=
  if (max_in_flight w <=? in_flight w) || (total w <=? next_dispatch w) then (None, w)
  else
    let off := next_dispatch w in
    (Some off,
     mkPartWindow (chunk w) (total w) (max_in_flight w)
       (Z.min (sat_add U64_MAX off (chunk w)) (total w))
       (completed w) (watermark w) (in_flight w + 1)).

(** The loop of [on_done]: while the part at the watermark is completed, remove it and
    move the watermark over it. Every iteration removes one element, so one more unit of
    fuel than there are elements is enough ([absorb_stops]). *)
Fixpoint absorb (fuel : nat) (total chunk : Z) (completed : gset Z) (watermark : Z)
  : gset Z * Z :=
  match fuel with
  | O => (completed, watermark)
  | S fuel =>
      if (watermark <? total) && bool_decide (watermark ∈ completed) then
        absorb fuel total chunk (completed ∖ {[watermark]})
          (Z.min (sat_add U64_MAX watermark chunk) total)
      else (completed, watermark)
  end.

Definition on_done (w : PartWindow) (offset : Z) : result (option Z) MeowError * PartWindow :=
  if in_flight w =? 0 then
    (Err (from_code_str InvalidTaskState
            "internal: on_done called without a matching dispatch"), w)
  else
    let completed1 := {[offset]} ∪ completed w in
    let '(completed2, watermark2) :=
      absorb (S (size completed1)) (total w) (chunk w) completed1 (watermark w) in
    let w' := mkPartWindow (chunk w) (total w) (max_in_flight w) (next_dispatch w)
                completed2 watermark2 (in_flight w - 1) in
    (Ok (if watermark2 =? watermark w then None else Some watermark2), w').

Definition on_settled_without_progress (w : PartWindow) : PartWindow :=
  mkPartWindow (chunk w) (total w) (max_in_flight w) (next_dispatch w) (completed w)
    (watermark w) (sat_sub (in_flight w) 1).

Definition is_complete (w : PartWindow) : bool :=
  (total w <=? watermark w) && (in_flight w =? 0).

(** ** Specification *)

(** A window together with the parts it has in flight and the parts completed. *)
Record tracked := mkTracked {
  win : PartWindow;
  flying : gset Z;
  finished : gset Z;
}.

Inductive window_step : tracked → tracked → Prop :=
| step_dispatch w w' off F D :
    take_dispatch w = (Some off, w') →
    window_step (mkTracked w F D) (mkTracked w' ({[off]} ∪ F) D)
| step_done w w' off r F D :
    off ∈ F → on_done w off = (Ok r, w') →
    window_step (mkTracked w F D) (mkTracked w' (F ∖ {[off]}) ({[off]} ∪ D))
| step_settled w off F D :
    off ∈ F →
    window_step (mkTracked w F D)
      (mkTracked (on_settled_without_progress w) (F ∖ {[off]}) D).

Definition tracked_init (start chunk total max : Z) : tracked :=
  mkTracked (part_window_new start chunk total max) ∅ ∅.

(** [p] is the start offset of a part of the grid of [w] that begins at [s]. *)
Definition on_grid (s : Z) (w : PartWindow) (p : Z) : Prop :=
  ∃ k, 0 ≤ k ∧ p = s + k * chunk w ∧ p < total w.

(** End of the [n]-th part of the grid from [s], clamped to the total. *)
Definition grid_end (s ch tot n : Z) : Z := Z.min tot (s + n * ch).

Record window_inv (s : Z) (t : tracked) : Prop := {
  wi_chunk : 1 ≤ chunk (win t);
  wi_max : 1 ≤ max_in_flight (win t);
  wi_start : 0 ≤ s ≤ total (win t);
  wi_total : total (win t) ≤ U64_MAX;
  wi_flight : in_flight (win t) = Z.of_nat (size (flying t));
  wi_bound : in_flight (win t) ≤ max_in_flight (win t);
  wi_disj : flying t ## finished t;
  wi_next : ∃ n, 0 ≤ n ∧
    next_dispatch (win t) = grid_end s (chunk (win t)) (total (win t)) n
    ∧ (∀ p, p ∈ flying t ∪ finished t →
            ∃ k, 0 ≤ k < n ∧ p = s + k * chunk (win t) ∧ p < total (win t));
  wi_mark : ∃ m, 0 ≤ m ∧
    watermark (win t) = grid_end s (chunk (win t)) (total (win t)) m
    ∧ (∀ k, 0 ≤ k < m → s + k * chunk (win t) < total (win t) →
            s + k * chunk (win t) ∈ finished t);
  wi_completed : ∀ p,
    p ∈ completed (win t) ↔ p ∈ finished t ∧ watermark (win t) ≤ p;
  wi_max_prefix : watermark (win t) < total (win t) → watermark (win t) ∉ finished t;
}.

(** ** The absorption loop *)

(** Saturation is invisible below a total that fits 64 bits. *)
Lemma advance_clamped ch tot v :
  tot ≤ U64_MAX → Z.min (sat_add U64_MAX v ch) tot = Z.min tot (v + ch).
Proof. unfold sat_add. lia. Qed.

Lemma grid_end_next s ch tot m :
  tot ≤ U64_MAX → grid_end s ch tot m < tot →
  Z.min (sat_add U64_MAX (grid_end s ch tot m) ch) tot = grid_end s ch tot (m + 1).
Proof. intros Ht Hm. rewrite advance_clamped by done. unfold grid_end in *. lia. Qed.

Lemma absorb_stops fuel tot ch C v C' v' :
  (size C < fuel)%nat → absorb fuel tot ch C v = (C', v') →
  ¬ (v' < tot ∧ v' ∈ C').
Proof.
  revert C v. induction fuel as [|fuel IH]; intros C v Hf Hab; [lia|]. simpl in Hab.
  destruct (v <? tot) eqn:E1; simpl in Hab; zbool; [|naive_solver lia].
  case_bool_decide as E2; [|naive_solver].
  apply (IH _ _) in Hab; [done|].
  rewrite size_difference, size_singleton by set_solver.
  assert (size C ≠ 0%nat) by (intros ?%size_empty_inv; set_solver). lia.
Qed.

(** What the loop computes, on the grid. *)
Lemma absorb_grid fuel s ch tot (D C : gset Z) m C' v' :
  1 ≤ ch → 0 ≤ s → tot ≤ U64_MAX → 0 ≤ m →
  (∀ p, p ∈ D → ∃ k, 0 ≤ k ∧ p = s + k * ch ∧ p < tot) →
  (∀ p, p ∈ C ↔ p ∈ D ∧ grid_end s ch tot m ≤ p) →
  (∀ k, 0 ≤ k < m → s + k * ch < tot → s + k * ch ∈ D) →
  absorb fuel tot ch C (grid_end s ch tot m) = (C', v') →
  ∃ m', m ≤ m' ∧ v' = grid_end s ch tot m'
        ∧ (∀ k, 0 ≤ k < m' → s + k * ch < tot → s + k * ch ∈ D)
        ∧ (∀ p, p ∈ C' ↔ p ∈ D ∧ v' ≤ p).
Proof.
  intros Hch Hs Ht. revert C m.
  induction fuel as [|fuel IH]; intros C m Hm Hgrid HC Hpre Hab; simpl in Hab;
    [naive_solver lia|].
  destruct (_ <? tot) eqn:E1; simpl in Hab; zbool; [|naive_solver lia].
  case_bool_decide as E2; [|naive_solver lia].
  rewrite grid_end_next in Hab by done.
  assert (Hgm : grid_end s ch tot m = s + m * ch) by (unfold grid_end in *; lia).
  apply HC in E2 as [HD _].
  destruct (IH (C ∖ {[grid_end s ch tot m]}) (m + 1)) as (m' & ? & -> & ? & ?);
    [lia|done| | |done|by exists m'; split_and!; [lia|..]].
  - intros p. rewrite elem_of_difference, elem_of_singleton, HC. split.
    + intros [[HpD Hle] Hne]. split; [done|].
      destruct (Hgrid _ HpD) as (k & Hk & -> & Hlt). rewrite Hgm in *.
      assert (m < k) by nia. unfold grid_end. nia.
    + intros [HpD Hle]. destruct (Hgrid _ HpD) as (k & Hk & -> & Hlt).
      assert (m + 1 ≤ k) by (unfold grid_end in Hle; nia).
      rewrite Hgm. split; [split; [done|nia]|nia].
  - intros k Hk Hlt. destruct (decide (k = m)) as [->|]; [by rewrite <- Hgm|].
    apply Hpre; lia.
Qed.

(** ** The invariant *)

Lemma window_inv_init s0 ch tot mx :
  0 ≤ s0 → 0 ≤ tot ≤ U64_MAX →
  window_inv (Z.min s0 tot) (tracked_init s0 ch tot mx).
Proof.
  intros Hs Ht. constructor; simpl; try first [done | lia | set_solver].
  - exists 0. unfold grid_end. split_and!; [lia|lia|set_solver].
  - exists 0. unfold grid_end. split_and!; [lia|lia|lia].
Qed.

Lemma take_dispatch_inv w off w' :
  take_dispatch w = (Some off, w') →
  in_flight w < max_in_flight w ∧ off = next_dispatch w ∧ off < total w
  ∧ w' = mkPartWindow (chunk w) (total w) (max_in_flight w)
           (Z.min (sat_add U64_MAX off (chunk w)) (total w))
           (completed w) (watermark w) (in_flight w + 1).
Proof.
  unfold take_dispatch. destruct (_ || _) eqn:E; zbool; intros; simplify_eq. auto.
Qed.

Lemma window_inv_dispatch s w w' off F D :
  take_dispatch w = (Some off, w') → window_inv s (mkTracked w F D) →
  window_inv s (mkTracked w' ({[off]} ∪ F) D) ∧ off ∉ F ∪ D.
Proof.
  intros (Hlt & -> & Htot & ->)%take_dispatch_inv [Hc Hm Hs Ht Hf Hb Hd Hn Hw Hcp Hmp];
    simpl in *.
  destruct Hn as (n & Hn0 & Hnd & Hall).
  assert (Hnew : next_dispatch w = s + n * chunk w) by (unfold grid_end in *; lia).
  assert (Hfresh : next_dispatch w ∉ F ∪ D).
  { intros (k & Hk & Heq & _)%Hall. nia. }
  split; [|done]. constructor; simpl; try first [done | lia | by eauto].
  - rewrite size_union, size_singleton by set_solver. lia.
  - set_solver.
  - exists (n + 1). split_and!; [lia| |].
    + rewrite Hnd. apply grid_end_next; [done|]. lia.
    + intros p [[->%elem_of_singleton|Hp]%elem_of_union|Hp]%elem_of_union.
      * exists n. split_and!; lia.
      * destruct (Hall p) as (k & Hk & Heq & Hl); [set_solver|]. exists k. split_and!; lia.
      * destruct (Hall p) as (k & Hk & Heq & Hl); [set_solver|]. exists k. split_and!; lia.
Qed.

Lemma size_remove_flying (F : gset Z) off :
  off ∈ F → Z.of_nat (size (F ∖ {[off]})) = Z.of_nat (size F) - 1 ∧ 1 ≤ Z.of_nat (size F).
Proof.
  intros Hin. rewrite size_difference, size_singleton by set_solver.
  assert (size F ≠ 0%nat) by (intros ?%size_empty_inv; set_solver). lia.
Qed.

Lemma window_inv_settled s w off F D :
  off ∈ F → window_inv s (mkTracked w F D) →
  window_inv s (mkTracked (on_settled_without_progress w) (F ∖ {[off]}) D).
Proof.
  intros Hin [Hc Hm Hs Ht Hf Hb Hd (n & Hn0 & Hnd & Hall) Hw Hcp Hmp]; simpl in *.
  destruct (size_remove_flying F off Hin) as [Hsz Hpos].
  constructor; simpl; unfold sat_sub; try first [done | lia | by eauto]; [set_solver|].
  exists n. split_and!; [done..|]. intros p Hp. apply Hall. set_solver.
Qed.

Lemma window_inv_done s w w' off r F D :
  off ∈ F → on_done w off = (r, w') → window_inv s (mkTracked w F D) →
  window_inv s (mkTracked w' (F ∖ {[off]}) ({[off]} ∪ D))
  ∧ watermark w ≤ watermark w'
  ∧ r = Ok (if watermark w' =? watermark w then None else Some (watermark w')).
Proof.
  intros Hin Hdone [Hc Hm Hs Ht Hf Hb Hd (n & Hn0 & Hnd & Hall) (m & Hm0 & Hwm & Hpre) Hcp Hmp];
    simpl in *.
  destruct (size_remove_flying F off Hin) as [Hsz Hpos].
  unfold on_done in Hdone. destruct (in_flight w =? 0) eqn:E; zbool; [lia|].
  destruct (absorb _ _ _ _ _) as [C2 v2] eqn:Hab; simplify_eq; simpl.
  pose proof (absorb_stops _ _ _ _ _ _ _ (Nat.lt_succ_diag_r _) Hab) as Hstop.
  assert (Hoff : watermark w ≤ off).
  { destruct (Hall off) as (k & Hk & -> & Hlt); [set_solver|].
    destruct (decide (k < m)) as [Hkm|]; [|assert (m * chunk w ≤ k * chunk w) by (apply Z.mul_le_mono_nonneg_r; lia);
       rewrite Hwm; unfold grid_end; lia].
    exfalso. apply (Hd (s + k * chunk w)); [done|]. apply Hpre; lia. }
  rewrite Hwm in Hab.
  destruct (absorb_grid (S (size ({[off]} ∪ completed w))) s (chunk w) (total w) ({[off]} ∪ D) ({[off]} ∪ completed w) m C2 v2)
    as (m' & Hle & -> & Hpre' & HC2); try done; try lia.
  - intros p Hp. destruct (Hall p) as (k & Hk & Heq & Hl); [set_solver|]. exists k; lia.
  - intros p. rewrite !elem_of_union, !elem_of_singleton, Hcp, <- Hwm.
    split; [intros [->|[? ?]]|intros [[->|?] ?]]; auto.
  - intros k Hk Hl. apply elem_of_union_r, Hpre; lia.
  - split_and!; [|rewrite Hwm; unfold grid_end; nia|done].
    constructor; simpl; try first [done | lia].
    + set_solver.
    + exists n. split_and!; [done..|]. intros p Hp. apply Hall. set_solver.
    + exists m'. split_and!; [lia|done|done].
    + intros Hlt Hmem. apply Hstop. split; [done|]. apply HC2. split; [done|lia].
Qed.

Lemma window_step_inv s t t' : window_inv s t → window_step t t' → window_inv s t'.
Proof.
  intros Hi Hst. inversion Hst; subst.
  - by eapply window_inv_dispatch.
  - by eapply window_inv_done.
  - by eapply window_inv_settled.
Qed.

Lemma window_reachable_inv s0 ch tot mx t :
  0 ≤ s0 → 0 ≤ tot ≤ U64_MAX →
  rtc window_step (tracked_init s0 ch tot mx) t → window_inv (Z.min s0 tot) t.
Proof.
  intros Hs Ht. apply rtc_invariant; [|by apply window_inv_init].
  intros; by eapply window_step_inv.
Qed.

Lemma window_step_params t t' :
  window_step t t' → chunk (win t') = chunk (win t) ∧ total (win t') = total (win t)
                     ∧ max_in_flight (win t') = max_in_flight (win t).
Proof.
  inversion 1; subst; simpl; try done.
  - destruct (take_dispatch_inv _ _ _ H0) as (_ & _ & _ & ->). done.
  - unfold on_done in H1. repeat case_match; by simplify_eq.
Qed.

Lemma window_reachable_params s0 ch tot mx t :
  rtc window_step (tracked_init s0 ch tot mx) t →
  chunk (win t) = Z.max ch 1 ∧ total (win t) = tot ∧ max_in_flight (win t) = Z.max mx 1.
Proof.
  apply (rtc_invariant window_step
    (λ t, chunk (win t) = Z.max ch 1 ∧ total (win t) = tot ∧ max_in_flight (win t) = Z.max mx 1));
    [|done].
  intros a b Ha Hs. by rewrite !(proj1 (window_step_params _ _ Hs)),
    !(proj1 (proj2 (window_step_params _ _ Hs))), !(proj2 (proj2 (window_step_params _ _ Hs))).
Qed.

(** When every part of the grid is finished the watermark is the total. *)
Lemma watermark_total s t :
  window_inv s t →
  (watermark (win t) = total (win t) ↔ ∀ p, on_grid s (win t) p → p ∈ finished t).
Proof.
  intros [Hc Hm Hs Ht Hf Hb Hd Hn (m & Hm0 & Hwm & Hpre) Hcp Hmp]. split.
  - intros Heq p (k & Hk & -> & Hlt). apply Hpre; [|done].
    split; [done|]. rewrite Heq in Hwm. unfold grid_end in Hwm. nia.
  - intros Hall. destruct (decide (watermark (win t) < total (win t))) as [Hlt|];
      [|rewrite Hwm in *; unfold grid_end in *; lia].
    exfalso. apply (Hmp Hlt), Hall. exists m. unfold grid_end in *. lia.
Qed.

(** ** Claims *)

(** A file of 25 bytes in parts of 10, two at a time: the first two parts are dispatched
    and the second one completes first. *)
Definition demo_out_of_order : tracked :=
  let w0 := part_window_new 0 10 25 2 in
  let w1 := snd (take_dispatch w0) in
  let w2 := snd (take_dispatch w1) in
  mkTracked (snd (on_done w2 10)) (({[10]} ∪ ({[0]} ∪ ∅)) ∖ {[10]}) ({[10]} ∪ ∅).

Lemma demo_reachable : rtc window_step (tracked_init 0 10 25 2) demo_out_of_order.
Proof.
  eapply rtc_l; [eapply (step_dispatch _ _ 0); reflexivity|].
  eapply rtc_l; [eapply (step_dispatch _ _ 10); reflexivity|].
  eapply rtc_l; [|apply rtc_refl]. unfold demo_out_of_order.
  eapply (step_done _ _ 10 None); [set_solver|]. by vm_compute.
Qed.

(** In every state the window can reach, with parts completing in any order and some
    of them failing, the watermark is the end of the longest run of completed parts: all
    parts below it are completed, the part at it (if the total is not reached) is not, and
    it lies on a part boundary. *)
Theorem watermark_is_contiguous_prefix s0 ch tot mx t :
  0 ≤ s0 → 0 ≤ tot ≤ U64_MAX → rtc window_step (tracked_init s0 ch tot mx) t →
  (∀ p, on_grid (Z.min s0 tot) (win t) p → p < watermark (win t) → p ∈ finished t)
  ∧ (watermark (win t) < tot → watermark (win t) ∉ finished t)
  ∧ (watermark (win t) = tot ∨ on_grid (Z.min s0 tot) (win t) (watermark (win t))).
Proof.
  intros Hs Ht Hr. pose proof (window_reachable_inv _ _ _ _ _ Hs Ht Hr) as Hi.
  destruct (window_reachable_params _ _ _ _ _ Hr) as (_ & Htot & _).
  destruct Hi as [Hc Hm Hst Hu Hf Hb Hd Hn (m & Hm0 & Hwm & Hpre) Hcp Hmp].
  rewrite Htot in *. split_and!; [|done|].
  - intros p (k & Hk & -> & Hlt) Hp. rewrite Hwm in Hp. unfold grid_end in Hp.
    rewrite Htot in Hlt. apply Hpre; [|done]. split; [done|]. nia.
  - rewrite Hwm. destruct (decide (tot ≤ Z.min s0 tot + m * chunk (win t)));
      unfold grid_end; [left; lia|right]. exists m. rewrite Htot. lia.
Qed.

Lemma watermark_is_contiguous_prefix_witness :
  watermark (win demo_out_of_order) = 0
  ∧ (watermark (win demo_out_of_order) < 25 →
     watermark (win demo_out_of_order) ∉ finished demo_out_of_order).
Proof.
  split; [by vm_compute|].
  apply (watermark_is_contiguous_prefix 0 10 25 2 demo_out_of_order).
  - lia.
  - unfold U64_MAX; lia.
  - exact demo_reachable.
Defined.

(** dispatch hands out the part offsets of the grid in increasing order, each exactly
    once (also when parts fail), skipping none, and never has more than [max_in_flight]
    parts in flight. *)
Theorem dispatch_each_part_once s0 ch tot mx t off w' :
  0 ≤ s0 → 0 ≤ tot ≤ U64_MAX → rtc window_step (tracked_init s0 ch tot mx) t →
  take_dispatch (win t) = (Some off, w') →
  on_grid (Z.min s0 tot) (win t) off
  ∧ (off ∉ flying t ∪ finished t)
  ∧ off < next_dispatch w'
  ∧ (∀ p, on_grid (Z.min s0 tot) (win t) p → p ≤ off ∨ next_dispatch w' ≤ p)
  ∧ in_flight w' ≤ Z.max mx 1.
Proof.
  intros Hs Ht Hr Hd. pose proof (window_reachable_inv _ _ _ _ _ Hs Ht Hr) as Hi.
  destruct (window_reachable_params _ _ _ _ _ Hr) as (_ & Htot & Hmx).
  destruct t as [w F D]; simpl in *.
  pose proof (window_inv_dispatch _ _ _ _ _ _ Hd Hi) as [_ Hfresh].
  destruct (take_dispatch_inv _ _ _ Hd) as (Hlt & -> & Hlt2 & ->); simpl.
  destruct Hi as [Hc Hm Hst Hu Hf Hb Hdj (n & Hn0 & Hnd & Hall) _ _ _]; simpl in *.
  rewrite advance_clamped by lia.
  assert (Hn : next_dispatch w = Z.min s0 tot + n * chunk w) by (unfold grid_end in Hnd; lia).
  split_and!; [by exists n|done|lia| |lia].
  intros p (k & Hk & -> & Hp). rewrite Hn.
  destruct (decide (k ≤ n)) as [Hkn|]; [left|right]; nia.
Qed.

Lemma dispatch_each_part_once_witness :
  on_grid (Z.min 0 25) (part_window_new 0 10 25 2) 0.
Proof.
  apply (dispatch_each_part_once 0 10 25 2 (tracked_init 0 10 25 2) 0
           (snd (take_dispatch (part_window_new 0 10 25 2)))).
  - lia.
  - unfold U64_MAX; lia.
  - apply rtc_refl.
  - reflexivity.
Defined.

(** the window reports completion exactly when every part of the grid is completed
    and nothing is in flight; this is the condition under which the transfer may be
    finalised. *)
Theorem complete_iff_all_parts_done s0 ch tot mx t :
  0 ≤ s0 → 0 ≤ tot ≤ U64_MAX → rtc window_step (tracked_init s0 ch tot mx) t →
  is_complete (win t) = true ↔
  flying t = ∅ ∧ ∀ p, on_grid (Z.min s0 tot) (win t) p → p ∈ finished t.
Proof.
  intros Hs Ht Hr. pose proof (window_reachable_inv _ _ _ _ _ Hs Ht Hr) as Hi.
  rewrite <- (watermark_total _ _ Hi). unfold is_complete.
  rewrite andb_true_iff, Z.leb_le, Z.eqb_eq, (wi_flight _ _ Hi).
  destruct (wi_mark _ _ Hi) as (m & _ & Hwm & _). unfold grid_end in Hwm. split.
  - intros [Hle Hsz]. split; [|lia]. apply leibniz_equiv, size_empty_inv. lia.
  - intros [-> Heq]. by rewrite size_empty, Heq.
Qed.

Lemma complete_iff_all_parts_done_witness :
  is_complete (win (tracked_init 7 10 7 2)) = true
  ∧ (∀ p, on_grid (Z.min 7 7) (win (tracked_init 7 10 7 2)) p → p ∈ (∅ : gset Z)).
Proof.
  split; [reflexivity|].
  apply (complete_iff_all_parts_done 7 10 7 2 (tracked_init 7 10 7 2)).
  - lia.
  - unfold U64_MAX; lia.
  - apply rtc_refl.
  - reflexivity.
Defined.

(** a completion never moves the watermark backwards, and the caller is told about it
    (with the new value) exactly when it moved, so one progress event is emitted per
    advance; a completion with nothing in flight is an error that leaves the window
    unchanged. *)
Theorem on_done_reports_advance s0 ch tot mx t off r w' :
  0 ≤ s0 → 0 ≤ tot ≤ U64_MAX → rtc window_step (tracked_init s0 ch tot mx) t →
  off ∈ flying t → on_done (win t) off = (r, w') →
  watermark (win t) ≤ watermark w'
  ∧ r = Ok (if watermark w' =? watermark (win t) then None else Some (watermark w'))
  ∧ on_done (part_window_new s0 ch tot mx) off
    = (Err (from_code_str InvalidTaskState
              "internal: on_done called without a matching dispatch"),
       part_window_new s0 ch tot mx).
Proof.
  intros Hs Ht Hr Hin Hd. pose proof (window_reachable_inv _ _ _ _ _ Hs Ht Hr) as Hi.
  destruct t as [w F D]; simpl in *.
  destruct (window_inv_done _ _ _ _ _ _ _ Hin Hd Hi) as (_ & ? & ?). done.
Qed.

Lemma on_done_reports_advance_witness :
  on_done (win demo_out_of_order) 0
  = (Ok (Some 20), snd (on_done (win demo_out_of_order) 0))
  ∧ watermark (win demo_out_of_order) ≤ watermark (snd (on_done (win demo_out_of_order) 0)).
Proof.
  split; [by vm_compute|].
  apply (on_done_reports_advance 0 10 25 2 demo_out_of_order 0
           (fst (on_done (win demo_out_of_order) 0))
           (snd (on_done (win demo_out_of_order) 0))).
  - lia.
  - unfold U64_MAX; lia.
  - exact demo_reachable.
  - unfold demo_out_of_order; simpl. set_solver.
  - apply surjective_pairing.
Defined.
