(* ===== verification/MemoryBudget.v ===== *)
(** * Memory budget of parallel parts

    The client-wide byte budget of [src/inner/exec_impl/memory_budget.rs] and the checks of
    [src/inner/exec_impl/exec.rs] that admit a parallel run: [validate_parallel_part_window]
    before any part is spawned and [checked_parallel_part_memory_bytes] for each part.

    The semaphore is tokio's; it enters through the class [Semaphore], whose laws are its
    documented behaviour, and [Z_semaphore] shows they can be met. *)
From S2P Require Import Prelude Errors.
#[local] Open Scope string_scope.
#[local] Open Scope Z_scope.

Definition MEMORY_LIMIT_32_BIT : Z := 64 * 1024 * 1024.
Definition MEMORY_LIMIT_64_BIT : Z := 512 * 1024 * 1024.
Definition MAX_PARALLEL_PART_TASKS : Z := 256.

Definition memory_limit_for_pointer_width (pointer_width : Z) : Z :=
  if pointer_width <=? 32 then MEMORY_LIMIT_32_BIT else MEMORY_LIMIT_64_BIT.

(** A counting semaphore: [sem_available] permits are free, [sem_try_acquire n] takes [n]
    of them at once if they are all free, [sem_release n] returns [n]. *)
Class Semaphore (S : Type) := {
  sem_max_permits : Z;
  sem_new : Z → S;
  sem_available : S → Z;
  sem_try_acquire : S → Z → option S;
  sem_release : S → Z → S;
  sem_new_available n : 0 ≤ n → sem_available (sem_new n) = n;
  sem_acquire_some s n : 0 ≤ n ≤ sem_available s →
    ∃ s', sem_try_acquire s n = Some s' ∧ sem_available s' = sem_available s - n;
  sem_acquire_none s n : sem_available s < n → sem_try_acquire s n = None;
  sem_release_available s n : 0 ≤ n → sem_available (sem_release s n) = sem_available s + n;
}.

(** A number as a semaphore. *)
#[export, refine] Instance Z_semaphore : Semaphore Z := {|
  sem_max_permits := U64_MAX / 8;
  sem_new := λ n, n;
  sem_available := λ s, s;
  sem_try_acquire := λ s n, if n <=? s then Some (s - n) else None;
  sem_release := λ s n, s + n;
|}.
Proof.
  - done.
  - intros s n [_ Hn]. exists (s - n). rewrite (proj2 (Z.leb_le _ _)) by done. done.
  - intros s n Hn. by rewrite (proj2 (Z.leb_gt _ _)).
  - done.
Defined.

(** ** Operations *)

Section Budget.
Context {S : Type} `{Semaphore S}.

Record ParallelMemoryBudget := mkBudget {
  semaphore : S;
  limit_bytes : Z;
}.

(** [usize::try_from(capped)] succeeds because [capped] is at most [sem_max_permits],
    a [usize]. *)
Definition with_limit (limit : Z) : ParallelMemoryBudget :=
  let capped := Z.min (Z.min limit sem_max_permits) U32_MAX in
  mkBudget (sem_new capped) capped.

Definition for_current_target (pointer_width : Z) : ParallelMemoryBudget :=
  with_limit (memory_limit_for_pointer_width pointer_width).

(** Result of one poll of [acquire]: an error, the cancelled branch (polled first,
    the [select!] is biased), a permit, or still waiting. *)
Inductive acquire_result :=
| AcquireErr (e : MeowError)
| AcquireCancelled
| AcquireGranted (b : ParallelMemoryBudget)
| AcquireWaiting.

Definition acquire (b : ParallelMemoryBudget) (bytes : Z) (cancelled : bool)
  : acquire_result :=
  if limit_bytes b <? bytes then
    AcquireErr (from_code IoErrorCode
      ("parallel part memory exceeds client limit: requested=" +:+ pretty bytes
       +:+ " limit=" +:+ pretty (limit_bytes b)))
  else if U32_MAX <? bytes then
    AcquireErr (from_code IoErrorCode
      ("parallel part memory permit count does not fit u32: " +:+ pretty bytes))
  else if cancelled then AcquireCancelled
  else
    match sem_try_acquire (semaphore b) bytes with
    | Some s' => AcquireGranted (mkBudget s' (limit_bytes b))
    | None => AcquireWaiting
    end.

(** Dropping the permit of [bytes] bytes. *)
Definition release (b : ParallelMemoryBudget) (bytes : Z) : ParallelMemoryBudget :=
  mkBudget (sem_release (semaphore b) bytes) (limit_bytes b).

(** The budget and the permits held by running parts. *)
Inductive budget_step : ParallelMemoryBudget * list Z → ParallelMemoryBudget * list Z → Prop :=
| budget_acquire b b' held bytes cancelled :
    0 ≤ bytes → acquire b bytes cancelled = AcquireGranted b' →
    budget_step (b, held) (b', bytes :: held)
| budget_release b held1 bytes held2 :
    budget_step (b, held1 ++ bytes :: held2)%list (release b bytes, held1 ++ held2)%list.

Definition held_bytes (held : list Z) : Z := foldr Z.add 0 held.

Lemma held_bytes_app l1 l2 : held_bytes (l1 ++ l2)%list = held_bytes l1 + held_bytes l2.
Proof. unfold held_bytes. induction l1; simpl; lia. Qed.

Definition budget_inv (limit : Z) (bh : ParallelMemoryBudget * list Z) : Prop :=
  limit_bytes bh.1 = limit
  ∧ Forall (λ n, 0 ≤ n) bh.2
  ∧ sem_available (semaphore bh.1) + held_bytes bh.2 = limit
  ∧ 0 ≤ sem_available (semaphore bh.1).

Lemma acquire_granted b bytes cancelled b' :
  0 ≤ bytes → acquire b bytes cancelled = AcquireGranted b' →
  limit_bytes b' = limit_bytes b
  ∧ sem_available (semaphore b') = sem_available (semaphore b) - bytes
  ∧ 0 ≤ sem_available (semaphore b').
Proof.
  intros Hb Ha. unfold acquire in Ha.
  repeat (case_match; try discriminate). simplify_eq. simpl.
  destruct (decide (bytes ≤ sem_available (semaphore b))) as [Hle|Hgt].
  - destruct (sem_acquire_some (semaphore b) bytes) as (s' & Hs & Hav); [done|].
    simplify_eq. split; [done|]. lia.
  - rewrite sem_acquire_none in * by lia. done.
Qed.

Lemma budget_step_inv limit c c' : budget_inv limit c → budget_step c c' → budget_inv limit c'.
Proof.
  intros (Hl & Hpos & Hsum & Hav) Hs. inversion Hs; subst; simpl in *.
  - destruct (acquire_granted _ _ _ _ H0 H1) as (? & Hs' & ?).
    split_and!; simpl; [done|by constructor| |done]. rewrite Hs'. simpl. lia.
  - apply Forall_app in Hpos as [Hp1 [Hp2 Hp3]%Forall_cons].
    rewrite held_bytes_app in Hsum. simpl in Hsum.
    split_and!; simpl; [done|by apply Forall_app| |];
      rewrite sem_release_available by done; rewrite ?held_bytes_app; lia.
Qed.

Lemma with_limit_inv limit :
  0 ≤ limit → 0 ≤ sem_max_permits →
  budget_inv (limit_bytes (with_limit limit)) (with_limit limit, []).
Proof.
  intros Hl Hm. unfold budget_inv, with_limit; simpl.
  rewrite sem_new_available by solve_sat. split_and!; [done|constructor|lia|solve_sat].
Qed.
End Budget.
Arguments ParallelMemoryBudget : clear implicits.
Arguments acquire_result : clear implicits.

(** The parallel window admission check of [exec.rs]; the quantities are [u64] and the
    budget arithmetic is [u128]. *)
Definition validate_parallel_part_window
    (max_parts_in_flight chunk_size remaining_bytes body_buffer_copies
     verification_scratch_bytes memory_limit_bytes : Z) : result unit MeowError :=
  if remaining_bytes =? 0 then Ok tt else
  let? part_count :=
    ok_or (last ← checked_sub remaining_bytes 1;
           parts_before_last ← checked_div last chunk_size;
           checked_add U64_MAX parts_before_last 1)
      (from_code_str IoErrorCode "parallel part count overflow or zero chunk size") in
  let effective_parts := Z.min (Z.max max_parts_in_flight 1) part_count in
  if MAX_PARALLEL_PART_TASKS <? effective_parts then
    Err (from_code IoErrorCode
      ("parallel part window exceeds task limit: requested=" +:+ pretty effective_parts
       +:+ " limit=" +:+ pretty MAX_PARALLEL_PART_TASKS))
  else
  let? body_budget :=
    ok_or ((λ bytes, Z.min bytes remaining_bytes) <$> checked_mul U128_MAX effective_parts chunk_size)
      (from_code_str IoErrorCode "parallel part body budget overflow") in
  let? body_budget :=
    ok_or (checked_mul U128_MAX body_budget (Z.max body_buffer_copies 1))
      (from_code_str IoErrorCode "parallel part body-buffer budget overflow") in
  let? scratch_budget :=
    ok_or (checked_mul U128_MAX effective_parts verification_scratch_bytes)
      (from_code_str IoErrorCode "parallel verification scratch budget overflow") in
  let? budget :=
    ok_or (checked_add U128_MAX body_budget scratch_budget)
      (from_code_str IoErrorCode "parallel part window size overflow") in
  if memory_limit_bytes <? budget then
    Err (from_code IoErrorCode
      ("parallel part window exceeds memory limit: requested=" +:+ pretty budget
       +:+ " limit=" +:+ pretty memory_limit_bytes))
  else Ok tt.

Definition checked_parallel_part_memory_bytes
    (body_bytes body_buffer_copies verification_scratch_bytes : Z) : result Z MeowError :=
  let? body :=
    ok_or (checked_mul U64_MAX body_bytes (Z.max body_buffer_copies 1))
      (from_code_str IoErrorCode "parallel part body-buffer size overflow") in
  ok_or (checked_add U64_MAX body verification_scratch_bytes)
    (from_code_str IoErrorCode "parallel part body plus verification scratch overflow").

(** ** Reference definition of the admission check *)

(** Parts that can be in flight at once. *)
Definition effective_window (max_parts chunk remaining : Z) : Z :=
  Z.min (Z.max max_parts 1) (div_ceil remaining chunk).

(** Bytes the window may buffer at once, without any machine limit. *)
Definition window_bytes (max_parts chunk remaining copies scratch : Z) : Z :=
  let parts := effective_window max_parts chunk remaining in
  Z.min (parts * chunk) remaining * Z.max copies 1 + parts * scratch.

Lemma part_count_is_ceil remaining chunk :
  0 < remaining → 0 < chunk → (remaining - 1) / chunk + 1 = div_ceil remaining chunk.
Proof.
  intros Hr Hc. pose proof (div_ceil_spec remaining chunk ltac:(lia) Hc).
  apply Z.add_move_r. symmetry.
  apply Z.div_unique_pos with (r := remaining - 1 - (div_ceil remaining chunk - 1) * chunk); nia.
Qed.

Lemma mul_bound a b A B : 0 ≤ a ≤ A → 0 ≤ b ≤ B → 0 ≤ a * b ≤ A * B.
Proof. intros. split; [nia|]. apply Z.mul_le_mono_nonneg; lia. Qed.

(** The quantities of the check are machine integers. *)
Definition window_inputs_fit (max_parts chunk remaining copies scratch limit : Z) : Prop :=
  fits U64_MAX max_parts ∧ fits U64_MAX chunk ∧ fits U64_MAX remaining
  ∧ fits U64_MAX copies ∧ fits U64_MAX scratch ∧ fits U64_MAX limit.

Lemma effective_window_pos max_parts chunk remaining :
  0 < remaining → 0 < chunk → 0 < effective_window max_parts chunk remaining.
Proof.
  intros Hr Hc. unfold effective_window.
  pose proof (div_ceil_spec remaining chunk ltac:(lia) Hc).
  assert (0 < div_ceil remaining chunk) by nia. lia.
Qed.

(** The products of a window of at most [MAX_PARALLEL_PART_TASKS] parts never overflow the
    [u128] arithmetic (their sum can, for scratch sizes near the end of [u64]). *)
Lemma window_no_overflow parts chunk remaining copies scratch :
  0 < parts ≤ MAX_PARALLEL_PART_TASKS → fits U64_MAX chunk → fits U64_MAX remaining →
  fits U64_MAX copies → fits U64_MAX scratch →
  parts * chunk ≤ U128_MAX
  ∧ Z.min (parts * chunk) remaining * Z.max copies 1 ≤ U128_MAX
  ∧ parts * scratch ≤ U128_MAX.
Proof.
  unfold MAX_PARALLEL_PART_TASKS, fits. intros Hp Hc Hr Hco Hs.
  pose proof (mul_bound parts chunk 256 U64_MAX ltac:(lia) ltac:(lia)) as H1.
  pose proof (mul_bound parts scratch 256 U64_MAX ltac:(lia) ltac:(lia)) as H2.
  assert (Z.min (parts * chunk) remaining * Z.max copies 1 ≤ U64_MAX * U64_MAX)
    by (apply Z.mul_le_mono_nonneg; unfold U64_MAX in *; lia).
  unfold U64_MAX, U128_MAX in *. lia.
Qed.

Lemma validate_eq max_parts chunk remaining copies scratch limit :
  window_inputs_fit max_parts chunk remaining copies scratch limit →
  is_ok (validate_parallel_part_window max_parts chunk remaining copies scratch limit)
  = (remaining =? 0)
    || ((0 <? chunk)
        && (effective_window max_parts chunk remaining <=? MAX_PARALLEL_PART_TASKS)
        && (window_bytes max_parts chunk remaining copies scratch <=? limit)).
Proof.
  intros (Hm & Hc & Hr & Hco & Hs & Hl). unfold validate_parallel_part_window.
  destruct (remaining =? 0) eqn:Er; [done|]. zbool. simpl.
  rewrite (proj2 (checked_sub_Some remaining 1 (remaining - 1))) by (unfold fits in *; lia).
  unfold checked_div. simpl.
  destruct (Z.eq_dec chunk 0) as [->|Hc0]; [done|].
  rewrite (proj2 (Z.eqb_neq chunk 0)) by done.
  rewrite (proj2 (Z.ltb_lt 0 chunk)) by (unfold fits in *; lia). simpl.
  rewrite (proj2 (checked_add_Some U64_MAX _ 1 (div_ceil remaining chunk))); cycle 1.
  { rewrite part_count_is_ceil by (unfold fits in *; lia). split; [done|].
    pose proof (div_ceil_spec remaining chunk ltac:(unfold fits in *; lia)
      ltac:(unfold fits in *; lia)). unfold fits in *. nia. }
  simpl. fold (effective_window max_parts chunk remaining).
  pose proof (effective_window_pos max_parts chunk remaining ltac:(unfold fits in *; lia)
    ltac:(unfold fits in *; lia)) as Hpos.
  set (parts := effective_window max_parts chunk remaining) in *.
  destruct (MAX_PARALLEL_PART_TASKS <? parts) eqn:Ep; zbool.
  { by rewrite (proj2 (Z.leb_gt parts _)). }
  rewrite (proj2 (Z.leb_le parts _)) by done. simpl.
  destruct (window_no_overflow parts chunk remaining copies scratch) as (H1 & H2 & H3);
    [done..|].
  rewrite (proj2 (checked_mul_Some _ parts chunk _)) by done. simpl.
  rewrite (proj2 (checked_mul_Some _ (Z.min _ _) _ _)) by done. simpl.
  rewrite (proj2 (checked_mul_Some _ parts scratch _)) by done. simpl.
  unfold window_bytes. fold parts. unfold checked_add.
  set (total := Z.min _ _ * _ + _) in *.
  destruct (total <=? U128_MAX) eqn:Et; zbool; simpl;
    [|symmetry; apply Z.leb_gt; unfold fits, U64_MAX, U128_MAX in *; lia].
  destruct (limit <? _) eqn:El; zbool; [symmetry; by apply Z.leb_gt|symmetry; by apply Z.leb_le].
Qed.

(** ** Properties *)

(** The running parts of a client never hold more bytes than its memory limit, whatever the
    order in which permits are taken and returned. *)
Theorem budget_never_exceeded {S} `{Semaphore S} limit bh :
  0 ≤ limit → 0 ≤ sem_max_permits →
  rtc budget_step (with_limit limit, []) bh →
  0 ≤ held_bytes bh.2 ≤ limit_bytes (with_limit limit) ∧ limit_bytes (with_limit limit) ≤ limit.
Proof.
  intros Hl Hm Hsteps.
  assert (budget_inv (limit_bytes (with_limit limit)) bh) as (H1 & H2 & H3 & H4).
  { eapply rtc_invariant; [|apply (with_limit_inv limit Hl Hm)|exact Hsteps].
    intros a b. apply budget_step_inv. }
  split; [|simpl; lia]. split; [|lia].
  clear -H2. unfold held_bytes. induction H2; simpl; lia.
Qed.

Lemma budget_never_exceeded_witness :
  ∃ bh : ParallelMemoryBudget Z * list Z,
    rtc budget_step (with_limit 100, []) bh ∧ bh.2 = [30; 60]
    ∧ 0 ≤ held_bytes bh.2 ≤ limit_bytes (with_limit (S := Z) 100).
Proof.
  eassert (rtc budget_step (with_limit (S := Z) 100, []) (_, [30; 60])) as Hs.
  { eapply rtc_l; [eapply (budget_acquire _ _ _ 60 false); [lia|by vm_compute]|].
    eapply rtc_l; [eapply (budget_acquire _ _ _ 30 false); [lia|by vm_compute]|].
    apply rtc_refl. }
  eexists. split; [exact Hs|]. split; [done|].
  apply (budget_never_exceeded (S := Z) 100 _); [lia|by vm_compute|exact Hs].
Defined.

(** A part whose bytes fit the limit is never refused, and in any state where the permits
    held by the other parts leave room for it, an uncancelled acquisition is granted at once; so
    a part that waits is waiting for bytes held by a running part. *)
Theorem acquire_progress {S} `{Semaphore S} limit (b : ParallelMemoryBudget S) held bytes :
  0 ≤ limit → 0 ≤ sem_max_permits →
  rtc budget_step (with_limit limit, []) (b, held) →
  0 ≤ bytes ≤ limit_bytes (with_limit limit) →
  match acquire b bytes false with
  | AcquireGranted _ => held_bytes held + bytes ≤ limit_bytes (with_limit limit)
  | AcquireWaiting => limit_bytes (with_limit limit) < held_bytes held + bytes ∧ held ≠ []
  | _ => False
  end.
Proof.
  intros Hl Hm Hsteps Hb.
  assert (budget_inv (limit_bytes (with_limit limit)) (b, held)) as (H1 & H2 & H3 & H4).
  { eapply rtc_invariant; [|apply (with_limit_inv limit Hl Hm)|exact Hsteps].
    intros ? ?. apply budget_step_inv. }
  simpl in *. unfold acquire. rewrite H1.
  rewrite (proj2 (Z.ltb_ge _ _)) by lia. rewrite (proj2 (Z.ltb_ge _ _)) by lia.
  destruct (decide (bytes ≤ sem_available (semaphore b))) as [Hle|Hgt].
  - destruct (sem_acquire_some (semaphore b) bytes) as (s' & -> & _); [lia|]. lia.
  - rewrite sem_acquire_none by lia. split; [lia|]. intros ->. simpl in *. lia.
Qed.

Lemma acquire_progress_witness :
  match acquire (with_limit (S := Z) 100) 100 false with
  | AcquireGranted _ => held_bytes [] + 100 ≤ limit_bytes (with_limit (S := Z) 100)
  | AcquireWaiting => limit_bytes (with_limit (S := Z) 100) < held_bytes [] + 100 ∧ [] ≠ @nil Z
  | _ => False
  end.
Proof.
  apply (acquire_progress (S := Z) 100 _ [] 100);
    [lia|by vm_compute|apply rtc_refl|split; [lia|by vm_compute]].
Defined.

(** the admission check of a parallel run accepts exactly the runs with nothing left to
    transfer, and those with a non-zero chunk size whose effective window has at most 256 parts
    and whose buffers, counted in unbounded arithmetic, fit the memory limit. *)
Theorem validate_window_exact max_parts chunk remaining copies scratch limit :
  window_inputs_fit max_parts chunk remaining copies scratch limit →
  validate_parallel_part_window max_parts chunk remaining copies scratch limit = Ok tt ↔
  remaining = 0
  ∨ (0 < chunk
     ∧ effective_window max_parts chunk remaining ≤ MAX_PARALLEL_PART_TASKS
     ∧ window_bytes max_parts chunk remaining copies scratch ≤ limit).
Proof.
  intros Hfit. pose proof (validate_eq _ _ _ _ _ _ Hfit) as He.
  rewrite <- Z.eqb_eq, <- Z.ltb_lt, <- !Z.leb_le, <- !andb_true_iff, <- orb_true_iff.
  rewrite andb_assoc, <- He.
  destruct (validate_parallel_part_window _ _ _ _ _ _) as [[]|]; simpl; naive_solver.
Qed.

Lemma validate_window_exact_witness :
  validate_parallel_part_window 4 1024 5000 2 64 10304 = Ok tt
  ∧ validate_parallel_part_window 4 1024 5000 2 64 8447 ≠ Ok tt
  ∧ (0 < 1024 ∧ effective_window 4 1024 5000 ≤ MAX_PARALLEL_PART_TASKS
     ∧ window_bytes 4 1024 5000 2 64 ≤ 10304).
Proof.
  assert (∀ l, 0 ≤ l ≤ 20000 → window_inputs_fit 4 1024 5000 2 64 l) as Hf
    by (intros; unfold window_inputs_fit; unfold_arith; lia).
  split.
  - apply (validate_window_exact 4 1024 5000 2 64 10304); [apply Hf; lia|].
    right. by split_and!.
  - by split_and!.
Defined.

(** once a run is admitted, the memory request of each of its parts is computed without
    overflow and fits the limit, so no part of an admitted run is refused by the budget. *)
Theorem admitted_parts_fit max_parts chunk remaining copies scratch limit len :
  window_inputs_fit max_parts chunk remaining copies scratch limit →
  validate_parallel_part_window max_parts chunk remaining copies scratch limit = Ok tt →
  0 < len ≤ Z.min chunk remaining →
  ∃ bytes, checked_parallel_part_memory_bytes len copies scratch = Ok bytes ∧ 0 < bytes ≤ limit.
Proof.
  intros Hfit Hok Hlen. pose proof (validate_eq _ _ _ _ _ _ Hfit) as He.
  rewrite Hok in He. simpl in He. symmetry in He.
  apply orb_true_iff in He as [He|He]; zbool; [lia|].
  pose proof (effective_window_pos max_parts chunk remaining ltac:(lia) ltac:(lia)) as Hpos.
  unfold window_bytes in *. set (parts := effective_window _ _ _) in *.
  destruct Hfit as (Hm & Hc & Hr & Hco & Hs & Hl). unfold fits in *.
  assert (chunk ≤ parts * chunk) by nia.
  assert (0 < len * Z.max copies 1) by nia.
  assert (len * Z.max copies 1 ≤ Z.min (parts * chunk) remaining * Z.max copies 1)
    by (apply Z.mul_le_mono_nonneg_r; lia).
  assert (scratch ≤ parts * scratch) by nia.
  exists (len * Z.max copies 1 + scratch). unfold checked_parallel_part_memory_bytes.
  rewrite (proj2 (checked_mul_Some _ len _ _)) by (split; [reflexivity|lia]). simpl.
  rewrite (proj2 (checked_add_Some _ _ scratch _)) by (split; [reflexivity|lia]). simpl.
  split; [done|lia].
Qed.

Lemma admitted_parts_fit_witness :
  ∃ bytes, checked_parallel_part_memory_bytes 904 2 64 = Ok bytes ∧ 0 < bytes ≤ 10304.
Proof.
  apply (admitted_parts_fit 4 1024 5000 2 64 10304 904).
  - unfold window_inputs_fit; unfold_arith; lia.
  - by vm_compute.
  - lia.
Defined.
