(* ===== verification/Retry.v ===== *)
(** * Chunk retries

    [src/inner/exec_impl/retry.rs]: the loop that transfers one chunk with retries and
    backoff, the classification of errors, and the backoff delay.

    The loop awaits at three places (the request, the backoff sleep, and between two
    attempts it polls the token), and between two awaits the scheduler may pause or cancel
    the task. It is therefore a state machine: [RetryState] says where the loop is,
    [retry_step] executes it up to its next await for one [RetryInput] (the answer of the
    backend, the end of the sleep), and [control] is what the scheduler or the backend may
    do meanwhile to the state they share with the worker. *)
From S2P Require Import Prelude Errors Lifecycle.

(** ** State shared by a worker and the scheduler *)

(** The cancellation token of the running worker and the lifecycle of its task. *)
Record Shared := mkShared {
  token_cancelled : bool;
  lifecycle : TransferLifecycle;
}.

Definition cancel_token (sh : Shared) : Shared := mkShared true (lifecycle sh).
Definition set_lifecycle (lc : TransferLifecycle) (sh : Shared) : Shared :=
  mkShared (token_cancelled sh) lc.

(** A pause or a cancel of an active task by the scheduler (see [pause_group] and
    [cancel_group]): the token is cancelled only when the lifecycle lets the worker be
    interrupted. [CtlCloseCanceling] is the close of the client, which cancels the token of a
    task it finds canceling, also when that cancel was deferred. The last two are the marks a
    transfer backend leaves on an upload. *)
Inductive ControlAct :=
  CtlPause | CtlCancel | CtlCloseCanceling | BackendRequireAbort | BackendBeginAbort.

Definition interrupt_if (d : StopRequestDisposition) (sh : Shared) : Shared :=
  match d with InterruptNow => cancel_token sh | DeferredUntilRequestReturns => sh end.

Definition control (a : ControlAct) (sh : Shared) : Shared :=
  match a with
  | CtlPause =>
      let '(d, lc) := begin_pause (lifecycle sh) in interrupt_if d (set_lifecycle lc sh)
  | CtlCancel =>
      let '(d, lc) := begin_cancel (lifecycle sh) in interrupt_if d (set_lifecycle lc sh)
  | CtlCloseCanceling =>
      if (terminal (lifecycle sh) =? TRANSFER_CANCELING)
         || (terminal (lifecycle sh) =? TRANSFER_COMPLETING_CANCEL_PENDING)
      then cancel_token sh else sh
  | BackendRequireAbort => set_lifecycle (require_abort (lifecycle sh)) sh
  | BackendBeginAbort => set_lifecycle (snd (begin_abort (lifecycle sh))) sh
  end.

(** ** Data *)

Record ChunkOutcome := mkChunkOutcome {
  next_offset : Z;
  outcome_total_size : Z;
  done : bool;
  completion_payload : option string;
}.

Inductive ChunkRetryResult :=
| Done (outcome : ChunkOutcome)
| Cancelled
| Failed (e : MeowError).

Inductive ChunkTransferMode := Whole | Part.

Definition CHUNK_RETRY_BASE_DELAY_MS : Z := 200.
Definition CHUNK_RETRY_MAX_DELAY_MS : Z := 5000.
Definition CHUNK_RETRY_JITTER_PERCENT : Z := 20.

Definition RETRYABLE_CHUNK_ERROR_CODES : list Z := [as_i32 HttpError; as_i32 ResponseStatusError].

(** ** Error classification *)

Definition cancellation_can_mask (e : MeowError) : bool :=
  (code e =? as_i32 HttpError) || (code e =? as_i32 TaskCanceled).

Definition is_retryable_http_status (status : Z) : bool :=
  (status =? 408) || (status =? 429) || ((500 <=? status) && (status <=? 599)).

Definition is_transport_retryable (e : MeowError) : bool :=
  if negb (bool_decide (code e ∈ RETRYABLE_CHUNK_ERROR_CODES)) then false
  else if code e =? as_i32 ResponseStatusError then
    match http_status e with
    | Some status => is_retryable_http_status status
    | None => true
    end
  else true.

Definition is_connection_layer_retryable (e : MeowError) : bool :=
  code e =? as_i32 HttpError.

(** ** Backoff *)

(** [subsec_nanos] is the sub-second part of the system clock, [None] when the clock is
    before the Unix epoch. *)
Definition calc_backoff_with_jitter_ms (subsec_nanos : option Z) (attempt : Z) : Z :=
  let exp := sat_mul U64_MAX CHUNK_RETRY_BASE_DELAY_MS (Z.shiftl 1 (Z.min attempt 20)) in
  let capped := Z.min exp CHUNK_RETRY_MAX_DELAY_MS in
  let nanos := default 0 subsec_nanos in
  let jitter_span := CHUNK_RETRY_JITTER_PERCENT * 2 in
  let ratio_percent := 100 - CHUNK_RETRY_JITTER_PERCENT + nanos mod (jitter_span + 1) in
  sat_mul U64_MAX capped ratio_percent / 100.

(** ** The retry loop *)

Inductive RetryState :=
| RetryTop (attempt : Z)
| RetryInFlight (attempt : Z)
| RetryBackoff (attempt delay_ms : Z)
| RetryReturned (r : ChunkRetryResult).

Inductive RetryInput :=
| StartAttempt
| Answer (r : result ChunkOutcome MeowError) (subsec_nanos : option Z)
| SleepElapsed
| SleepCancelled.

(** The [Err] arm: honour a stop the error can be attributed to, give up, or back off. *)
Definition retry_on_error (max_chunk_retries : Z) (attempt : Z) (e : MeowError)
    (subsec_nanos : option Z) (sh : Shared) : RetryState * Shared :=
  let cancellation_related := cancellation_can_mask e in
  let deferred_protocol_stop :=
    (code e =? as_i32 TaskCanceled) && stop_requested (lifecycle sh) in
  if (token_cancelled sh && cancellation_related) || deferred_protocol_stop then
    (RetryReturned Cancelled,
     if deferred_protocol_stop
     then set_lifecycle (snd (finish_incomplete_completion (lifecycle sh))) sh
     else sh)
  else
  let retryable := is_transport_retryable e in
  let reached_limit := max_chunk_retries <=? attempt in
  if negb retryable || reached_limit then (RetryReturned (Failed e), sh)
  else (RetryBackoff attempt (calc_backoff_with_jitter_ms subsec_nanos attempt), sh).

(** One turn of the loop up to the next await. [None]: that input cannot arrive in this
    state ([SleepCancelled] is the branch of the [select!] on the token). *)
Definition transfer_chunk_with_retry_step (max_chunk_retries : Z) (st : RetryState)
    (inp : RetryInput) (sh : Shared) : option (RetryState * Shared) :=
  match st, inp with
  | RetryTop attempt, StartAttempt =>
      if token_cancelled sh then Some (RetryReturned Cancelled, sh)
      else Some (RetryInFlight attempt, sh)
  | RetryInFlight attempt, Answer (Ok outcome) _ => Some (RetryReturned (Done outcome), sh)
  | RetryInFlight attempt, Answer (Err e) subsec_nanos =>
      Some (retry_on_error max_chunk_retries attempt e subsec_nanos sh)
  | RetryBackoff attempt _, SleepElapsed => Some (RetryTop (attempt + 1), sh)
  | RetryBackoff attempt _, SleepCancelled =>
      if token_cancelled sh then Some (RetryReturned Cancelled, sh) else None
  | _, _ => None
  end.

(** ** Runs of the loop with interference *)

(** A run keeps the answers of the backend, oldest first. *)
Record RetryRun := mkRetryRun {
  rr_state : RetryState;
  rr_shared : Shared;
  rr_answers : list (result ChunkOutcome MeowError);
}.

Definition answers_of (inp : RetryInput) : list (result ChunkOutcome MeowError) :=
  match inp with Answer r _ => [r] | _ => [] end.

Inductive retry_run_step (max : Z) : RetryRun → RetryRun → Prop :=
| retry_run_input st inp sh ans st' sh' :
    transfer_chunk_with_retry_step max st inp sh = Some (st', sh') →
    retry_run_step max (mkRetryRun st sh ans) (mkRetryRun st' sh' (ans ++ answers_of inp))
| retry_run_control st a sh ans :
    retry_run_step max (mkRetryRun st sh ans) (mkRetryRun st (control a sh) ans).

Definition retry_start (sh : Shared) : RetryRun := mkRetryRun (RetryTop 0) sh [].

(** ** Facts about the shared state *)

(** A stop request has taken effect: the byte says pausing or canceling, or that a cancel
    waits for the final request to return. *)
Definition stop_effective (lc : TransferLifecycle) : Prop :=
  terminal lc = TRANSFER_PAUSING ∨ terminal lc = TRANSFER_CANCELING
  ∨ terminal lc = TRANSFER_COMPLETING_CANCEL_PENDING.

(** The byte holds one of its constants, and the token is cancelled only once a stop has
    taken effect. *)
Definition shared_ok (sh : Shared) : Prop :=
  terminal_ok (lifecycle sh) ∧ (token_cancelled sh = true → stop_effective (lifecycle sh)).

Definition shared_new : Shared := mkShared false lifecycle_new.

Lemma shared_new_ok : shared_ok shared_new.
Proof. split; [|done]. unfold terminal_ok; simpl. set_solver. Qed.

Ltac shared_cases sh :=
  destruct sh as [tok lc]; unfold shared_ok, stop_effective, control, interrupt_if, cancel_token,
    set_lifecycle in *; simpl in *; lc_cases lc.

Lemma control_ok a sh : shared_ok sh → shared_ok (control a sh).
Proof. intros [H1 H2]. split; [|intros H3]; destruct a; shared_cases sh. Qed.
#[export] Hint Resolve control_ok : rust.

Lemma control_stop_effective a sh :
  stop_effective (lifecycle sh) → stop_effective (lifecycle (control a sh)).
Proof. intros H; destruct a; shared_cases sh. Qed.
#[export] Hint Resolve control_stop_effective : rust.

Lemma control_token a sh : token_cancelled sh = true → token_cancelled (control a sh) = true.
Proof. intros H; destruct a; shared_cases sh. Qed.

Lemma finish_incomplete_stop_effective lc :
  terminal_ok lc → stop_requested lc = true →
  stop_effective (snd (finish_incomplete_completion lc)).
Proof. intros H1 H2. unfold stop_effective. lc_cases lc. Qed.

Lemma finish_incomplete_keeps_stop lc :
  stop_effective lc → stop_effective (snd (finish_incomplete_completion lc)).
Proof. unfold stop_effective. intros H. lc_cases lc. Qed.

Lemma finish_incomplete_terminal_ok lc :
  terminal_ok lc → terminal_ok (snd (finish_incomplete_completion lc)).
Proof. apply (apply_op_terminal_ok OpFinishIncomplete). Qed.

Lemma finish_incomplete_ok sh :
  shared_ok sh →
  shared_ok (set_lifecycle (snd (finish_incomplete_completion (lifecycle sh))) sh).
Proof.
  intros [H1 H2]. split; simpl; [by apply finish_incomplete_terminal_ok|].
  intros Ht. apply finish_incomplete_keeps_stop. auto.
Qed.

(** Every branch of the error arm. *)
Lemma retry_on_error_cases max attempt e nanos sh st' sh' :
  shared_ok sh → retry_on_error max attempt e nanos sh = (st', sh') →
  shared_ok sh' ∧ token_cancelled sh' = token_cancelled sh ∧
  ((st' = RetryReturned Cancelled ∧ cancellation_can_mask e = true
    ∧ stop_effective (lifecycle sh'))
   ∨ (sh' = sh ∧ st' = RetryReturned (Failed e)
      ∧ (is_transport_retryable e = false ∨ max ≤ attempt)
      ∧ (token_cancelled sh = false ∨ cancellation_can_mask e = false))
   ∨ (sh' = sh ∧ is_transport_retryable e = true ∧ attempt < max
      ∧ (token_cancelled sh = false ∨ cancellation_can_mask e = false)
      ∧ st' = RetryBackoff attempt (calc_backoff_with_jitter_ms nanos attempt))).
Proof.
  intros Hok He. unfold retry_on_error in He.
  destruct ((token_cancelled sh && cancellation_can_mask e)
    || ((code e =? as_i32 TaskCanceled) && stop_requested (lifecycle sh))) eqn:Ec.
  - simplify_eq. destruct ((code e =? as_i32 TaskCanceled) && _) eqn:Ed; zbool.
    + split_and!; [by apply finish_incomplete_ok|done|]. left. split_and!; [done| |].
      * unfold cancellation_can_mask. apply orb_true_iff. right. by apply Z.eqb_eq.
      * simpl. apply finish_incomplete_stop_effective; [apply Hok|done].
    + rewrite orb_false_r in Ec. zbool.
      split_and!; [done|done|]. left. split_and!; [done|done|by apply Hok].
  - apply orb_false_iff in Ec as [Et _]. apply andb_false_iff in Et.
    destruct (negb (is_transport_retryable e) || (max <=? attempt)) eqn:Er; simplify_eq;
      (split_and!; [done|done|]); right.
    + left. apply orb_true_iff in Er as [?|?]; zbool; auto.
    + right. zbool. auto 10.
Qed.

Lemma retry_step_shared_ok max st inp sh st' sh' :
  shared_ok sh → transfer_chunk_with_retry_step max st inp sh = Some (st', sh') →
  shared_ok sh' ∧ token_cancelled sh' = token_cancelled sh.
Proof.
  intros Hok Hs. destruct st, inp as [|[]| |]; simpl in Hs; try done;
    repeat case_match; simplify_eq; try done.
  by edestruct retry_on_error_cases as (? & ? & _).
Qed.

(** ** Invariant of a run *)

(** An answer after which the loop goes on. *)
Definition retried (r : result ChunkOutcome MeowError) : Prop :=
  match r with Ok _ => False | Err e => is_transport_retryable e = true end.

Definition state_ok (max : Z) (st : RetryState) (sh : Shared)
    (ans : list (result ChunkOutcome MeowError)) : Prop :=
  match st with
  | RetryTop a | RetryInFlight a => 0 ≤ a ≤ max ∧ Z.of_nat (length ans) = a ∧ Forall retried ans
  | RetryBackoff a _ => 0 ≤ a < max ∧ Z.of_nat (length ans) = a + 1 ∧ Forall retried ans
  | RetryReturned (Done o) =>
      ∃ pre, ans = pre ++ [Ok o] ∧ Forall retried pre ∧ Z.of_nat (length pre) ≤ max
  | RetryReturned (Failed e) =>
      ∃ pre, ans = pre ++ [Err e] ∧ Forall retried pre ∧ Z.of_nat (length pre) ≤ max
             ∧ (is_transport_retryable e = false ∨ Z.of_nat (length pre) = max)
  | RetryReturned Cancelled =>
      stop_effective (lifecycle sh) ∧ Z.of_nat (length ans) ≤ max + 1
      ∧ ∀ pre r, ans = pre ++ [r] →
          Forall retried pre ∧
          (retried r ∨ ∃ e, r = Err e ∧ cancellation_can_mask e = true)
  end.

Definition retry_inv (max : Z) (rr : RetryRun) : Prop :=
  shared_ok (rr_shared rr) ∧ state_ok max (rr_state rr) (rr_shared rr) (rr_answers rr).

Lemma all_retried_cancelled ans :
  Forall retried ans → ∀ pre r, ans = pre ++ [r] →
    Forall retried pre ∧ (retried r ∨ ∃ e, r = Err e ∧ cancellation_can_mask e = true).
Proof. intros H pre r ->. apply Forall_app in H as [? [? _]%Forall_cons]. auto. Qed.

Lemma on_error_inv max a e nanos sh st' sh' ans :
  shared_ok sh → state_ok max (RetryInFlight a) sh ans →
  retry_on_error max a e nanos sh = (st', sh') →
  state_ok max st' sh' (ans ++ [Err e]).
Proof.
  intros Hok (Ha & Hl & Hr) He.
  destruct (retry_on_error_cases _ _ _ _ _ _ _ Hok He)
    as (_ & _ & [(-> & Hm & Hs)|[(-> & -> & Hx & _)|(-> & Hx & Hlt & _ & ->)]]); simpl.
  - split_and!; [done|rewrite length_app; simpl; lia|].
    intros pre r [-> [= <-]]%app_inj_tail. eauto 10.
  - exists ans. split_and!; [done|done|lia|]. destruct Hx; [auto|right; lia].
  - rewrite length_app; simpl. split_and!; [lia..|].
    apply Forall_app; split; [done|by constructor].
Qed.

Lemma retry_run_step_inv max rr rr' :
  0 ≤ max → retry_inv max rr → retry_run_step max rr rr' → retry_inv max rr'.
Proof.
  intros Hmax [Hok Hst] Hstep.
  destruct Hstep as [st inp sh ans st' sh' Hs|st a sh ans]; unfold retry_inv in *; simpl in *.
  - split; [by eapply retry_step_shared_ok|].
    destruct st as [a|a|a d|r], inp as [|[o|e] nanos| |]; simpl in Hs; try done;
      simpl; rewrite ?app_nil_r.
    + destruct (token_cancelled sh) eqn:Et; simplify_eq; simpl in *; [|done].
      destruct Hst as (? & ? & ?). split_and!; [by apply Hok|lia|by apply all_retried_cancelled].
    + simplify_eq. simpl in *. destruct Hst as (? & ? & ?). exists ans. split_and!; [done..|lia].
    + simplify_eq. by eapply on_error_inv.
    + simplify_eq. simpl in *. destruct Hst as (? & ? & ?). split_and!; [lia..|done].
    + destruct (token_cancelled sh) eqn:Et; simplify_eq; simpl in *.
      destruct Hst as (? & ? & ?). split_and!; [by apply Hok|lia|by apply all_retried_cancelled].
  - split; [by apply control_ok|].
    destruct st as [| | |[]]; simpl in *; try done.
    destruct Hst as (? & ? & ?). split_and!; auto with rust.
Qed.

Lemma retry_start_inv max sh : 0 ≤ max → shared_ok sh → retry_inv max (retry_start sh).
Proof. intros. split; [done|]. simpl. split_and!; [lia..|done|constructor]. Qed.

Lemma retry_reachable_inv max sh rr :
  0 ≤ max → shared_ok sh → rtc (retry_run_step max) (retry_start sh) rr → retry_inv max rr.
Proof.
  intros Hm Hok. apply rtc_invariant.
  - intros ? ?. by apply retry_run_step_inv.
  - by apply retry_start_inv.
Qed.

(** ** Termination *)

(** Turns of the loop still to run. *)
Definition retry_measure (max : Z) (st : RetryState) : Z :=
  match st with
  | RetryTop a => 3 * (max - a) + 3
  | RetryInFlight a => 3 * (max - a) + 2
  | RetryBackoff a _ => 3 * (max - a) + 1
  | RetryReturned _ => 0
  end.

Lemma retry_step_measure max st inp sh st' sh' :
  (match st with RetryTop a | RetryInFlight a => a ≤ max | RetryBackoff a _ => a < max | _ => True end) →
  transfer_chunk_with_retry_step max st inp sh = Some (st', sh') →
  0 ≤ retry_measure max st' < retry_measure max st.
Proof.
  intros Ha Hs. destruct st, inp as [|[]| |]; simpl in Hs; try done;
    repeat case_match; simplify_eq; simpl; try lia.
  unfold retry_on_error in Hs.
  repeat (case_match; simplify_eq); zbool; simpl; lia.
Qed.

Lemma retry_step_enabled max st sh :
  (∃ r, st = RetryReturned r)
  ∨ ∃ inp st' sh', transfer_chunk_with_retry_step max st inp sh = Some (st', sh').
Proof.
  destruct st as [a|a|a d|r]; [right..|by left; eexists].
  - exists StartAttempt. simpl. destruct (token_cancelled sh); eauto.
  - exists (Answer (Ok (mkChunkOutcome 0 0 true None)) None). simpl. eauto.
  - exists SleepElapsed. simpl. eauto.
Qed.

(** ** Properties *)

(** Whatever pauses and cancels arrive while a chunk is retried, the backend is asked at
    most [1 + max_chunk_retries] times; success returns the last answer and every earlier answer
    was a retryable error; failure returns the last error, which is not retryable or used up the
    retries; and [Cancelled] is returned only after a pause or cancel took effect on the task,
    with a last error (if any) that was retryable or that an interrupted request may cause, so a
    local integrity error is never reported as a cancellation. *)
Theorem retry_result_justified max sh rr :
  0 ≤ max → shared_ok sh → rtc (retry_run_step max) (retry_start sh) rr →
  Z.of_nat (length (rr_answers rr)) ≤ max + 1
  ∧ match rr_state rr with
    | RetryReturned (Done o) =>
        ∃ pre, rr_answers rr = pre ++ [Ok o] ∧ Forall retried pre
    | RetryReturned (Failed e) =>
        ∃ pre, rr_answers rr = pre ++ [Err e] ∧ Forall retried pre
          ∧ (is_transport_retryable e = false ∨ Z.of_nat (length pre) = max)
    | RetryReturned Cancelled =>
        stop_effective (lifecycle (rr_shared rr))
        ∧ ∀ pre r, rr_answers rr = pre ++ [r] →
            Forall retried pre
            ∧ (retried r ∨ ∃ e, r = Err e ∧ cancellation_can_mask e = true)
    | _ => Forall retried (rr_answers rr)
    end.
Proof.
  intros Hm Hok Hr. destruct (retry_reachable_inv _ _ _ Hm Hok Hr) as [_ Hst].
  destruct (rr_state rr) as [a|a|a d|[o| |e]]; simpl in Hst.
  - destruct Hst as (? & ? & ?). split; [lia|done].
  - destruct Hst as (? & ? & ?). split; [lia|done].
  - destruct Hst as (? & ? & ?). split; [lia|done].
  - destruct Hst as (pre & -> & ? & ?). rewrite length_app; simpl. split; [lia|eauto].
  - destruct Hst as (? & ? & ?). split; [lia|done].
  - destruct Hst as (pre & -> & ? & ? & ?). rewrite length_app; simpl. split; [lia|eauto].
Qed.

Lemma retry_result_justified_witness :
  let http := Err (from_code_str HttpError "reset"%string) in
  ∃ rr, rtc (retry_run_step 2) (retry_start shared_new) rr
    ∧ rr_state rr = RetryReturned Cancelled
    ∧ rr_answers rr = [http; http]
    ∧ stop_effective (lifecycle (rr_shared rr)).
Proof.
  intros http.
  eassert (rtc (retry_run_step 2) (retry_start shared_new)
    (mkRetryRun (RetryReturned Cancelled) _ [http; http])) as Hr.
  { eapply rtc_l; [eapply (retry_run_input _ _ StartAttempt); reflexivity|].
    eapply rtc_l; [eapply (retry_run_input _ _ (Answer http (Some 5))); reflexivity|].
    eapply rtc_l; [eapply (retry_run_input _ _ SleepElapsed); reflexivity|].
    eapply rtc_l; [eapply (retry_run_input _ _ StartAttempt); reflexivity|].
    eapply rtc_l; [eapply (retry_run_control _ _ CtlPause)|].
    eapply rtc_l; [eapply (retry_run_input _ _ (Answer http None)); reflexivity|].
    apply rtc_refl. }
  eexists. split; [exact Hr|]. split_and!; [done|done|].
  apply (retry_result_justified 2 shared_new _ ltac:(lia) shared_new_ok Hr).
Defined.

(** The retry loop always returns: from any state it can reach, it has returned or some
    input makes it go on, and every input it consumes decreases a bound that starts at
    [3 * max_chunk_retries + 3] and never becomes negative. *)
Theorem retry_terminates max sh rr :
  0 ≤ max → shared_ok sh → rtc (retry_run_step max) (retry_start sh) rr →
  0 ≤ retry_measure max (rr_state rr) ≤ 3 * max + 3
  ∧ ((∃ r, rr_state rr = RetryReturned r)
     ∨ ∃ inp st' sh',
         transfer_chunk_with_retry_step max (rr_state rr) inp (rr_shared rr) = Some (st', sh'))
  ∧ ∀ inp st' sh',
      transfer_chunk_with_retry_step max (rr_state rr) inp (rr_shared rr) = Some (st', sh') →
      0 ≤ retry_measure max st' < retry_measure max (rr_state rr).
Proof.
  intros Hm Hok Hr. destruct (retry_reachable_inv _ _ _ Hm Hok Hr) as [_ Hst].
  split_and!.
  1,2: destruct (rr_state rr) as [| | |[]]; simpl in *; lia.
  - apply retry_step_enabled.
  - intros inp st' sh'. apply retry_step_measure.
    destruct (rr_state rr); simpl in *; lia || done.
Qed.

Lemma retry_terminates_witness :
  0 ≤ retry_measure 2 (RetryTop 0) ≤ 3 * 2 + 3
  ∧ transfer_chunk_with_retry_step 2 (RetryTop 0) StartAttempt shared_new
    = Some (RetryInFlight 0, shared_new)
  ∧ 0 ≤ retry_measure 2 (RetryInFlight 0) < retry_measure 2 (RetryTop 0).
Proof.
  destruct (retry_terminates 2 shared_new (retry_start shared_new) ltac:(lia) shared_new_ok
    (rtc_refl _ _)) as (H1 & _ & H3).
  split_and!; [apply H1..|done| |]; by apply (H3 StartAttempt _ shared_new).
Defined.

(** The backoff before retry [attempt] is within 20 percent of [200 * 2 ^ attempt]
    milliseconds capped at 5000, for any clock; so it is never zero and never above 6 seconds. *)
Theorem backoff_within_jitter nanos attempt :
  0 ≤ attempt → 0 ≤ default 0 nanos →
  let nominal := Z.min (200 * 2 ^ Z.min attempt 20) 5000 in
  nominal * 80 / 100 ≤ calc_backoff_with_jitter_ms nanos attempt ≤ nominal * 120 / 100
  ∧ 160 ≤ calc_backoff_with_jitter_ms nanos attempt ≤ 6000.
Proof.
  intros Ha Hn. unfold calc_backoff_with_jitter_ms, CHUNK_RETRY_BASE_DELAY_MS,
    CHUNK_RETRY_MAX_DELAY_MS, CHUNK_RETRY_JITTER_PERCENT; simpl.
  change (100 - 20) with 80. change (20 * 2 + 1) with 41. rewrite Z.shiftl_1_l.
  assert (1 ≤ 2 ^ Z.min attempt 20 ≤ 2 ^ 20) as Hp.
  { split; [change 1 with (2 ^ 0)|]; apply Z.pow_le_mono_r; lia. }
  set (p := 2 ^ Z.min attempt 20) in *.
  pose proof (Z.mod_pos_bound (default 0 nanos) 41 ltac:(lia)) as Hr.
  set (r := default 0 nanos mod 41) in *.
  replace (sat_mul U64_MAX 200 p) with (200 * p) by (unfold sat_mul, U64_MAX; lia).
  set (n := Z.min (200 * p) 5000). assert (200 ≤ n ≤ 5000) as Hb by lia.
  replace (sat_mul U64_MAX n (80 + r)) with (n * (80 + r)) by (unfold sat_mul, U64_MAX; nia).
  assert (n * 80 / 100 ≤ n * (80 + r) / 100 ≤ n * 120 / 100).
  { split; apply Z.div_le_mono; nia. }
  assert (160 ≤ n * 80 / 100) by (apply Z.div_le_lower_bound; lia).
  assert (n * 120 / 100 ≤ 6000) by (apply Z.div_le_upper_bound; lia).
  lia.
Qed.

Lemma backoff_within_jitter_witness :
  calc_backoff_with_jitter_ms (Some 999999999) 3 = 1856
  ∧ 160 ≤ calc_backoff_with_jitter_ms (Some 999999999) 3 ≤ 6000.
Proof.
  split; [by vm_compute|]. apply (backoff_within_jitter (Some 999999999) 3); simpl; lia.
Defined.
