(* ===== verification/Records.v ===== *)
(** * Task records

    The data the scheduler, the workers and the callbacks exchange: directions, statuses and
    progress records ([src/direction.rs], [src/transfer_status.rs],
    [src/file_transfer_record.rs]), the identifiers of [src/ids.rs], the immutable part of a
    task ([src/inner/inner_task.rs]), the record of a group ([src/inner/group_state.rs]) and the
    events a worker sends ([src/inner/worker_event.rs]).

    A callback is a number (its identity); the mutable lifecycle of a task, shared behind an
    [Arc], is kept apart and found by task id. The progress ratio is a binary32 number, computed
    with the round-to-nearest operations of the Standard Library's [SpecFloat]. *)
From Stdlib Require Import SpecFloat.
From S2P Require Import Prelude Errors.
#[local] Open Scope string_scope.
#[local] Open Scope Z_scope.

Inductive Direction := Upload | Download.

#[export] Instance Direction_eq_dec : EqDecision Direction.
Proof. solve_decision. Defined.
#[export] Instance Direction_countable : Countable Direction.
Proof.
  refine (inj_countable' (λ d, match d with Upload => true | Download => false end)
            (λ b : bool, if b then Upload else Download) _).
  by intros [].
Defined.

(** [(Direction, String)]: the deduplication key of a group. *)
Definition UniqueId : Type := Direction * string.

Inductive TransferStatus :=
| StatusNone
| Pending
| Transmission
| Paused
| Complete
| StatusFailed (e : MeowError)
| Canceled.

Definition status_as_i32 (s : TransferStatus) : Z :=
  match s with
  | Pending => 0
  | Transmission => 1
  | Paused => 2
  | Complete => 3
  | StatusFailed _ => 4
  | Canceled => 5
  | StatusNone => -1
  end.

(** ** Identifiers *)

Definition TaskId : Type := Z.

(** [fetch_update] of the counter: the previous value is returned, the counter moves to the
    next non-zero [u64]. *)
Definition next_non_zero (counter : Z) : Z * Z :=
  (counter,
   match checked_add U64_MAX counter 1 with
   | Some next => if next =? 0 then 1 else next
   | None => 1
   end).

(** ** Tasks and groups *)

Record InnerTask := mkInnerTask {
  task_id : TaskId;
  file_sign : string;
  file_name : string;
  file_path : string;
  (** [upload_file_snapshot], by its verification scratch size *)
  snapshot_scratch : option Z;
  direction : Direction;
  total_size : Z;
  chunk_size : Z;
  url : string;
  max_chunk_retries : Z;
  max_upload_prepare_retries : Z;
  max_parts_in_flight : Z;
}.

Definition dedupe_key (t : InnerTask) : UniqueId :=
  match direction t with
  | Upload => (Upload, file_sign t)
  | Download => (Download, url t)
  end.

Record TaskCallbacks := mkTaskCallbacks {
  progress_cb : option Z;
  complete_cb : option Z;
}.

Record RecordEntry := mkRecordEntry {
  inner : InnerTask;
  callbacks : TaskCallbacks;
}.

Record GroupState := mkGroupState {
  leader_inner : InnerTask;
  entry : RecordEntry;
}.

(** ** Progress records *)

(** [u64 as f32] and the division of two [f32]. *)
Definition f32_of_u64 (z : Z) : spec_float := binary_normalize 24 128 z 0 false.
Definition f32_zero : spec_float := S754_zero false.
Definition f32_one : spec_float := S754_finite false 8388608 (-23).
Definition f32_div (a b : spec_float) : spec_float := SFdiv 24 128 a b.

Definition progress_ratio (transferred total : Z) : spec_float :=
  if total =? 0 then f32_zero else f32_div (f32_of_u64 transferred) (f32_of_u64 total).

Record FileTransferRecord := mkRecord {
  rec_task_id : TaskId;
  rec_file_sign : string;
  rec_file_name : string;
  rec_total_size : Z;
  rec_progress : spec_float;
  rec_status : TransferStatus;
  rec_direction : Direction;
}.

Definition to_record_inner (t : InnerTask) (status : TransferStatus)
    (transferred file_size_u64 : Z) : FileTransferRecord :=
  mkRecord (task_id t) (file_sign t) (file_name t) file_size_u64
    (progress_ratio transferred file_size_u64) status (direction t).

Record TransferSnapshot := mkSnapshot {
  queued_groups : nat;
  active_groups : nat;
  active_keys : list UniqueId;
}.

(** ** Worker events *)

Inductive WorkerEvent :=
| EvProgress (key : UniqueId) (ev_next_offset ev_total_size : Z)
| EvCompleted (key : UniqueId) (ev_total_size : Z) (payload : option string)
| EvFailed (key : UniqueId) (error : MeowError) (ev_total_size : Z)
| EvCanceled (key : UniqueId) (ev_total_size : Z).

Definition event_key (ev : WorkerEvent) : UniqueId :=
  match ev with
  | EvProgress key _ _ | EvCompleted key _ _ | EvFailed key _ _ | EvCanceled key _ => key
  end.

Definition may_change_scheduler_readiness (ev : WorkerEvent) : bool :=
  match ev with EvProgress _ _ _ => false | _ => true end.

Record PrepareOutcome := mkPrepareOutcome {
  prep_next_offset : Z;
  prep_total_size : Z;
}.

(** ** Facts *)

Example progress_half : progress_ratio 5 10 = S754_finite false 8388608 (-24).
Proof. reflexivity. Qed.
Example progress_large : progress_ratio (2 ^ 64 - 1) (2 ^ 64 - 1) = f32_one.
Proof. vm_compute. reflexivity. Qed.

(** The counter never holds zero and stays within [u64]. *)
Lemma next_non_zero_range c :
  1 ≤ c ≤ U64_MAX → fst (next_non_zero c) = c ∧ 1 ≤ snd (next_non_zero c) ≤ U64_MAX.
Proof.
  intros Hc. unfold next_non_zero, checked_add; simpl.
  destruct (c + 1 <=? U64_MAX) eqn:E; zbool; [|unfold U64_MAX in *; lia].
  rewrite (proj2 (Z.eqb_neq _ _)) by lia. lia.
Qed.
