(* ===== verification/RunGroup.v ===== *)
(** * The worker of a group

    [run_group] and [run_group_parallel] of [src/inner/exec_impl/exec.rs]: prepare with
    retries, then either the serial chunk loop or the windowed parallel driver, and exactly one
    terminal event at the end, sent after the cleanup of the target.

    The worker awaits the transfer backend, the file system, timers and its part tasks, and
    between two awaits the scheduler may pause or cancel it. It is a state machine: [RgState]
    has a constructor per await, [run_group_step] runs the code from one await to the next for
    an input (an answer of the backend, a settled part, ...), and [Output] records what it does:
    events sent to the scheduler, calls of the backend, parts joined (no result for a
    panicked one), checkpoints and releases. The backend
    ([TransferTrait]) is any implementation: its answers are inputs. The steps of a cleanup
    (checkpoint, release of the file lock and of the path lease, provider abort) read nothing
    the scheduler changes and are executed together, with their results in [CleanupIo].

    The part tasks of the parallel driver run concurrently: each is a state machine of its own
    ([PartState], [part_step]) and any part may take the next step. *)
From S2P Require Import Prelude Errors Lifecycle PartWindow MemoryBudget Retry Records.
#[local] Open Scope Z_scope.

(** ** Outputs and inputs *)

Inductive Output :=
| Send (ev : WorkerEvent)
| CallPrepare (offset : Z)
| CallChunk (mode : ChunkTransferMode) (offset : Z)
| Joined (offset : Z) (r : option ChunkRetryResult)
| CallComplete
| CallValidateGeneration
| CallCancel
| CallCheckpoint
| CallReleaseTarget
| ReleaseUploadHandle.

(** Results of the cleanup calls. *)
Record CleanupIo := mkCleanupIo {
  io_checkpoint : result unit MeowError;
  io_file_release : result unit MeowError;
  io_lease_release : result unit MeowError;
}.

(** [PiPanic]: the part panicked; its [JoinError] prints as [join_err]. *)
Inductive PartInput := PiPoll | PiRetry (inp : RetryInput) | PiPanic (join_err : string).

Inductive RgInput :=
| InContinue (io : CleanupIo)
| InPrepare (r : result PrepareOutcome MeowError) (subsec_nanos : option Z) (io : CleanupIo)
| InSleepElapsed
| InSleepCancelled (io : CleanupIo)
| InChunk (inp : RetryInput) (io : CleanupIo)
| InPart (i : nat) (inp : PartInput)
| InJoin (i : nat)
| InComplete (r : result (option string) MeowError) (io : CleanupIo)
| InValidate (r : result unit MeowError)
| InPanic (join_err : string).

(** ** State *)

(** A part task: not started (or waiting for its memory permit), transferring with a permit
    of [bytes] bytes, finished with a result, or panicked. *)
Inductive PartState :=
| PartSpawned
| PartRetry (st : RetryState) (bytes : Z)
| PartDone (r : ChunkRetryResult)
| PartPanicked (join_err : string).

(** State of the parallel driver: the window, the [JoinSet] and the two flags. *)
Record ParState := mkParState {
  par_window : PartWindow;
  par_set : list (Z * PartState);
  par_cancelled : bool;
  par_failed : option MeowError;
}.

(** Where [run_group] awaits. *)
Inductive RgState :=
| RgPrepareTop (attempt : Z)
| RgPreparing (attempt : Z)
| RgPrepareBackoff (attempt delay_ms : Z)
| RgPrepared (offset known_total : Z)
| RgSerialTop (offset known_total : Z) (terminal_claimed : bool)
| RgChunk (offset known_total : Z) (terminal_claimed : bool) (st : RetryState)
| RgChunkSent (offset known_total : Z) (terminal_claimed : bool) (outcome : ChunkOutcome)
| RgFinalizing (known_total : Z)
| RgValidating (known_total : Z)
| RgParallel (known_total : Z) (p : ParState)
| RgDraining (known_total : Z) (join_err : string) (set : list (Z * PartState))
| RgCompleting (known_total : Z)
| RgReturned.

Section RunGroup.
Context {S : Type} `{!Semaphore S}.

(** The parameters of one run: the group key, the task, the offset the scheduler starts from
    and [executor.supports_parallel_parts]. *)
Record RunParams := mkRunParams {
  key : UniqueId;
  task : InnerTask;
  start_offset : Z;
  supports_parallel_parts : bool;
}.

Record Worker := mkWorker {
  wk_state : RgState;
  wk_shared : Shared;
  wk_budget : ParallelMemoryBudget S;
  wk_out : list Output;
}.

Definition goto (st : RgState) (w : Worker) : Worker :=
  mkWorker st (wk_shared w) (wk_budget w) (wk_out w).
Definition emit (os : list Output) (w : Worker) : Worker :=
  mkWorker (wk_state w) (wk_shared w) (wk_budget w) (wk_out w ++ os).
Definition with_shared (sh : Shared) (w : Worker) : Worker :=
  mkWorker (wk_state w) sh (wk_budget w) (wk_out w).
Definition with_lifecycle (lc : TransferLifecycle) (w : Worker) : Worker :=
  with_shared (set_lifecycle lc (wk_shared w)) w.
Definition with_budget (b : ParallelMemoryBudget S) (w : Worker) : Worker :=
  mkWorker (wk_state w) (wk_shared w) b (wk_out w).

Context (rp : RunParams).
Let t : InnerTask := task rp.
Let k : UniqueId := key rp.

(** ** Helpers of [exec.rs] and [transfer_task.rs] *)

Definition is_download : bool := bool_decide (direction t = Download).

Definition upload_abort_required (sh : Shared) : bool :=
  bool_decide (direction t = Upload) && abort_required (lifecycle sh).

Definition require_upload_abort (sh : Shared) : Shared :=
  if bool_decide (direction t = Upload) then set_lifecycle (require_abort (lifecycle sh)) sh else sh.

Definition release_terminal_download_target (io : CleanupIo) : result unit MeowError :=
  result_and (io_file_release io) (io_lease_release io).

Definition settle_failed_download_target (io : CleanupIo) : result unit MeowError :=
  result_and (io_checkpoint io) (release_terminal_download_target io).

(** The calls those two functions make. *)
Definition settle_calls : list Output := [CallCheckpoint; CallReleaseTarget].

Definition emit_canceled_after_quiescent_cleanup (total : Z) (io : CleanupIo) : list Output :=
  if is_download then
    settle_calls ++
    match settle_failed_download_target io with
    | Err error => [Send (EvFailed k error total)]
    | Ok _ => [Send (EvCanceled k total)]
    end
  else [Send (EvCanceled k total)].

Definition settle_required_upload_abort (sh : Shared) : list Output :=
  if upload_abort_required sh then [CallCancel] else [].

(** Drop of [UploadFileHandleRelease] on every exit path. *)
Definition handle_release : list Output :=
  match snapshot_scratch t with Some _ => [ReleaseUploadHandle] | None => [] end.

Definition finish (os : list Output) (w : Worker) : Worker :=
  goto RgReturned (emit (os ++ handle_release) w).

Definition finish_canceled (total : Z) (io : CleanupIo) (w : Worker) : Worker :=
  finish (emit_canceled_after_quiescent_cleanup total io) w.

(** ** Prepare *)

Definition max_prep_retries : Z :=
  match direction t with
  | Upload => max_upload_prepare_retries t
  | Download => max_chunk_retries t
  end.

Definition prepare_top (attempt : Z) (io : CleanupIo) (w : Worker) : Worker :=
  if token_cancelled (wk_shared w) then finish_canceled (total_size t) io w
  else goto (RgPreparing attempt) (emit [CallPrepare (start_offset rp)] w).

Definition prepare_error (attempt : Z) (e : MeowError) (subsec_nanos : option Z) (io : CleanupIo)
    (w : Worker) : Worker :=
  let sh := wk_shared w in
  let cancellation_related := cancellation_can_mask e in
  if token_cancelled sh && cancellation_related && negb (upload_abort_required sh) then
    finish_canceled (total_size t) io w
  else
  let force_failure :=
    upload_abort_required sh || (token_cancelled sh && negb cancellation_related) in
  let retryable :=
    negb force_failure &&
    match direction t with
    | Upload => is_transport_retryable e
    | Download => is_connection_layer_retryable e
    end in
  let reached_limit := max_prep_retries <=? attempt in
  if negb retryable || reached_limit then
    finish ((if is_download then settle_calls else settle_required_upload_abort sh)
            ++ [Send (EvFailed k e (total_size t))]) w
  else goto (RgPrepareBackoff attempt (calc_backoff_with_jitter_ms subsec_nanos attempt)) w.

Definition prepare_ok (v : PrepareOutcome) (w : Worker) : Worker :=
  let offset := prep_next_offset v in
  let known_total := if 0 <? prep_total_size v then prep_total_size v else total_size t in
  goto (RgPrepared offset known_total) (emit [Send (EvProgress k offset known_total)] w).

(** ** Part tasks *)

Definition verification_scratch_bytes : Z := default 0 (snapshot_scratch t).
Definition body_buffer_copies : Z := if is_download then 2 else 1.

(** The bytes a part asks of the budget. *)
Definition part_required_bytes (offset known_total : Z) : result Z MeowError :=
  let? body_bytes :=
    match checked_sub known_total offset with
    | Some remaining => Ok (Z.min remaining (chunk_size t))
    | None =>
        Err (from_code InvalidRange
          ("parallel part offset exceeds total: offset=" +:+ pretty offset
           +:+ " total=" +:+ pretty known_total)%string)
    end in
  checked_parallel_part_memory_bytes body_bytes body_buffer_copies verification_scratch_bytes.

(** One step of the body [spawn_part] gives to the [JoinSet]. [None]: the input cannot happen
    in this state; in particular a part that is waiting for its permit is not polled to any
    effect until the permit can be granted or the token is cancelled. *)
Definition part_step (offset known_total : Z) (st : PartState) (inp : PartInput) (sh : Shared)
    (b : ParallelMemoryBudget S)
  : option (PartState * Shared * ParallelMemoryBudget S * list Output) :=
  match st, inp with
  | PartSpawned, PiPoll =>
      match part_required_bytes offset known_total with
      | Err error => Some (PartDone (Failed error), sh, b, [])
      | Ok required_bytes =>
          match acquire b required_bytes (token_cancelled sh) with
          | AcquireErr error => Some (PartDone (Failed error), sh, b, [])
          | AcquireCancelled => Some (PartDone Cancelled, sh, b, [])
          | AcquireGranted b' => Some (PartRetry (RetryTop 0) required_bytes, sh, b', [])
          | AcquireWaiting => None
          end
      end
  | PartRetry rst bytes, PiRetry rinp =>
      match transfer_chunk_with_retry_step (max_chunk_retries t) rst rinp sh with
      | Some (RetryReturned r, sh') => Some (PartDone r, sh', release b bytes, [])
      | Some (rst', sh') =>
          Some (PartRetry rst' bytes, sh', b,
                match rst' with RetryInFlight _ => [CallChunk Part offset] | _ => [] end)
      | None => None
      end
  | PartSpawned, PiPanic join_err => Some (PartPanicked join_err, sh, b, [])
  | PartRetry _ bytes, PiPanic join_err => Some (PartPanicked join_err, sh, release b bytes, [])
  | _, _ => None
  end.

(** ** The parallel driver *)

(** [while let Some(off) = window.take_dispatch() { spawn_part(..) }]; the window never has
    more than [max_in_flight] parts, which bounds the iterations ([dispatch_fuel_enough]). *)
Fixpoint dispatch_parts (fuel : nat) (w : PartWindow) (set : list (Z * PartState))
  : PartWindow * list (Z * PartState) :=
  match fuel with
  | O => (w, set)
  | Datatypes.S fuel =>
      match take_dispatch w with
      | (Some off, w') => dispatch_parts fuel w' (set ++ [(off, PartSpawned)])
      | (None, w') => (w', set)
      end
  end.

Definition dispatch_all (w : PartWindow) (set : list (Z * PartState))
  : PartWindow * list (Z * PartState) :=
  dispatch_parts (Datatypes.S (Z.to_nat (max_in_flight w - in_flight w))) w set.

(** A window that starts at or after the total. *)
Definition parallel_nothing_left (known_total : Z) (io : CleanupIo) (w : Worker) : Worker :=
  let '(claimed, lc) := begin_completion (lifecycle (wk_shared w)) in
  let w := with_lifecycle lc w in
  if negb claimed then finish_canceled known_total io w
  else if is_download then goto (RgFinalizing known_total) (emit [CallComplete] w)
  else
    match snapshot_scratch t with
    | Some _ => goto (RgValidating known_total) (emit [CallValidateGeneration] w)
    | None => finish [Send (EvCompleted k known_total None)] w
    end.

Definition parallel_start (offset known_total : Z) (io : CleanupIo) (w : Worker) : Worker :=
  if known_total <=? offset then parallel_nothing_left known_total io w
  else
    let '(win, set) :=
      dispatch_all
        (part_window_new offset (chunk_size t) known_total (max_parts_in_flight t)) [] in
    goto (RgParallel known_total (mkParState win set false None)) w.

(** The dispatch after prepare: parallel when it was asked for and is possible. *)
Definition after_prepare (offset known_total : Z) (io : CleanupIo) (w : Worker) : Worker :=
  if (1 <? max_parts_in_flight t) && (0 <? known_total) && supports_parallel_parts rp then
    match validate_parallel_part_window (max_parts_in_flight t) (chunk_size t)
            (sat_sub known_total offset) body_buffer_copies verification_scratch_bytes
            (limit_bytes (wk_budget w)) with
    | Err error =>
        let sh := require_upload_abort (wk_shared w) in
        finish ((if is_download then settle_calls else settle_required_upload_abort sh)
                ++ [Send (EvFailed k error known_total)]) (with_shared sh w)
    | Ok _ => parallel_start offset known_total io w
    end
  else goto (RgSerialTop offset known_total false) w.

Definition finalize_answer (known_total : Z) (r : result (option string) MeowError)
    (io : CleanupIo) (w : Worker) : Worker :=
  match r with
  | Ok payload =>
      match release_terminal_download_target io with
      | Ok _ => finish [CallReleaseTarget; Send (EvCompleted k known_total payload)] w
      | Err error => finish [CallReleaseTarget; Send (EvFailed k error known_total)] w
      end
  | Err e => finish (settle_calls ++ [Send (EvFailed k e known_total)]) w
  end.

Definition validate_answer (known_total : Z) (r : result unit MeowError) (w : Worker) : Worker :=
  match r with
  | Err error =>
      let sh := require_upload_abort (wk_shared w) in
      finish (settle_required_upload_abort sh ++ [Send (EvFailed k error known_total)])
        (with_shared sh w)
  | Ok _ => finish [Send (EvCompleted k known_total None)] w
  end.

Definition run_part (known_total : Z) (set : list (Z * PartState)) (i : nat) (inp : PartInput)
    (w : Worker) : option (list (Z * PartState) * Worker) :=
  match set !! i with
  | Some (off, st) =>
      match part_step off known_total st inp (wk_shared w) (wk_budget w) with
      | Some (st', sh', b', os) =>
          Some (<[i := (off, st')]> set, emit os (with_budget b' (with_shared sh' w)))
      | None => None
      end
  | None => None
  end.

(** [join_next] returned the part [i]. *)
Definition join_done (known_total : Z) (p : ParState) (rest : list (Z * PartState)) (off : Z)
    (w : Worker) : Worker :=
  let '(r, win) := on_done (par_window p) off in
  let os :=
    match r with
    | Ok (Some mark) => [Send (EvProgress k mark known_total)]
    | _ => []
    end in
  let failed :=
    match r with
    | Err e => Some (default e (par_failed p))
    | Ok _ => par_failed p
    end in
  let '(win, set) :=
    if negb (par_cancelled p) && bool_decide (failed = None) then dispatch_all win rest
    else (win, rest) in
  goto (RgParallel known_total (mkParState win set (par_cancelled p) failed)) (emit os w).

Definition join_part (known_total : Z) (p : ParState) (i : nat) (w : Worker) : option Worker :=
  let rest := delete i (par_set p) in
  match par_set p !! i with
  | Some (off, PartPanicked join_err) =>
      Some (goto (RgDraining known_total join_err rest)
        (emit [Joined off None] (with_shared (cancel_token (wk_shared w)) w)))
  | Some (off, PartDone (Done o)) =>
      Some (join_done known_total p rest off (emit [Joined off (Some (Done o))] w))
  | Some (off, PartDone Cancelled) =>
      Some (goto (RgParallel known_total
        (mkParState (on_settled_without_progress (par_window p)) rest true (par_failed p)))
        (emit [Joined off (Some Cancelled)] w))
  | Some (off, PartDone (Failed e)) =>
      Some (goto (RgParallel known_total
        (mkParState (on_settled_without_progress (par_window p)) rest (par_cancelled p)
           (Some (default e (par_failed p))))) (emit [Joined off (Some (Failed e))] w))
  | _ => None
  end.

(** After a panicked part the remaining parts are joined and forgotten. *)
Definition drain_join (known_total : Z) (join_err : string) (set : list (Z * PartState)) (i : nat)
    (w : Worker) : option Worker :=
  match set !! i with
  | Some (off, PartDone r) =>
      Some (goto (RgDraining known_total join_err (delete i set)) (emit [Joined off (Some r)] w))
  | Some (off, PartPanicked _) =>
      Some (goto (RgDraining known_total join_err (delete i set)) (emit [Joined off None] w))
  | _ => None
  end.

Definition part_panic_error (join_err : string) : MeowError :=
  from_code Unknown ("transfer part task panicked: " +:+ join_err)%string.

Definition drain_finish (known_total : Z) (join_err : string) (w : Worker) : Worker :=
  let sh := require_upload_abort (wk_shared w) in
  finish ((if is_download then settle_calls else settle_required_upload_abort sh)
          ++ [Send (EvFailed k (part_panic_error join_err) known_total)]) (with_shared sh w).

Definition incomplete_error (known_total : Z) (win : PartWindow) : MeowError :=
  from_code Unknown
    ("internal: complete fired before contiguous prefix reached total (watermark="
     +:+ pretty (watermark win) +:+ ", total=" +:+ pretty known_total +:+ ")")%string.

(** After the join barrier. *)
Definition parallel_finish (known_total : Z) (p : ParState) (io : CleanupIo) (w : Worker) : Worker :=
  let sh := wk_shared w in
  match par_failed p with
  | Some e =>
      finish ((if is_download then settle_calls else []) ++ settle_required_upload_abort sh
              ++ [Send (EvFailed k e known_total)]) w
  | None =>
      if par_cancelled p || token_cancelled sh then finish_canceled known_total io w
      else if negb (is_complete (par_window p)) then
        finish ((if is_download then settle_calls else [])
                ++ [Send (EvFailed k (incomplete_error known_total (par_window p)) known_total)]) w
      else
        let '(claimed, lc) := begin_completion (lifecycle sh) in
        let w := with_lifecycle lc w in
        if negb claimed then finish_canceled known_total io w
        else goto (RgCompleting known_total) (emit [CallComplete] w)
  end.

Definition complete_answer (known_total : Z) (r : result (option string) MeowError)
    (io : CleanupIo) (w : Worker) : Worker :=
  match r with
  | Ok payload =>
      if is_download then
        match release_terminal_download_target io with
        | Err error => finish [CallReleaseTarget; Send (EvFailed k error known_total)] w
        | Ok _ => finish [CallReleaseTarget; Send (EvCompleted k known_total payload)] w
        end
      else finish [Send (EvCompleted k known_total payload)] w
  | Err e =>
      finish ((if is_download then settle_calls else []) ++ [Send (EvFailed k e known_total)]) w
  end.

(** ** The serial loop *)

Definition is_terminal_chunk (offset known_total : Z) : bool :=
  ((0 <? known_total)
   && match checked_add U64_MAX offset (chunk_size t) with
      | Some end_ => known_total <=? end_
      | None => true
      end)
  || (bool_decide (direction t = Upload) && (total_size t =? 0)).

Definition serial_top (offset known_total : Z) (terminal_claimed : bool) (io : CleanupIo)
    (w : Worker) : Worker :=
  if token_cancelled (wk_shared w) then finish_canceled known_total io w
  else if is_terminal_chunk offset known_total && negb terminal_claimed then
    let '(claimed, lc) := begin_completion (lifecycle (wk_shared w)) in
    let w := with_lifecycle lc w in
    if negb claimed then finish_canceled known_total io w
    else goto (RgChunk offset known_total true (RetryTop 0)) w
  else goto (RgChunk offset known_total terminal_claimed (RetryTop 0)) w.

(** The result of the chunk's retry loop. *)
Definition serial_chunk_result (offset known_total : Z) (terminal_claimed : bool)
    (r : ChunkRetryResult) (io : CleanupIo) (w : Worker) : Worker :=
  match r with
  | Done outcome =>
      let known_total :=
        if 0 <? outcome_total_size outcome then outcome_total_size outcome else known_total in
      goto (RgChunkSent (next_offset outcome) known_total terminal_claimed outcome)
        (emit [Send (EvProgress k (next_offset outcome) known_total)] w)
  | Cancelled => finish_canceled known_total io w
  | Failed e =>
      finish ((if is_download then settle_calls else [])
              ++ settle_required_upload_abort (wk_shared w)
              ++ [Send (EvFailed k e known_total)]) w
  end.

Definition serial_chunk_step (offset known_total : Z) (terminal_claimed : bool)
    (st : RetryState) (inp : RetryInput) (io : CleanupIo) (w : Worker) : option Worker :=
  match transfer_chunk_with_retry_step (max_chunk_retries t) st inp (wk_shared w) with
  | Some (RetryReturned r, sh') =>
      Some (serial_chunk_result offset known_total terminal_claimed r io (with_shared sh' w))
  | Some (st', sh') =>
      Some (goto (RgChunk offset known_total terminal_claimed st')
        (emit (match st' with RetryInFlight _ => [CallChunk Whole offset] | _ => [] end)
           (with_shared sh' w)))
  | None => None
  end.

(** After the progress of a chunk was sent. *)
Definition serial_chunk_sent (offset known_total : Z) (terminal_claimed : bool)
    (outcome : ChunkOutcome) (io : CleanupIo) (w : Worker) : Worker :=
  if done outcome then
    let w := with_lifecycle (acknowledge_completion (lifecycle (wk_shared w))) w in
    if is_download then
      match release_terminal_download_target io with
      | Err error => finish [CallReleaseTarget; Send (EvFailed k error known_total)] w
      | Ok _ =>
          finish [CallReleaseTarget; Send (EvCompleted k known_total (completion_payload outcome))] w
      end
    else finish [Send (EvCompleted k known_total (completion_payload outcome))] w
  else if terminal_claimed then
    let '(stop, lc) := finish_incomplete_completion (lifecycle (wk_shared w)) in
    let w := with_lifecycle lc w in
    match stop with
    | Some _ => finish_canceled known_total io w
    | None => goto (RgSerialTop offset known_total false) w
    end
  else goto (RgSerialTop offset known_total terminal_claimed) w.

(** ** The whole worker *)

Definition run_panic_error (join_err : string) : MeowError :=
  from_code Unknown ("run_group task panicked: " +:+ join_err)%string.

(** The supervising task of [try_start_next], when the worker unwound. *)
Definition run_panicked (join_err : string) (w : Worker) : Worker :=
  let sh := require_upload_abort (wk_shared w) in
  goto RgReturned
    (emit (handle_release
           ++ (if is_download then settle_calls else settle_required_upload_abort sh)
           ++ [Send (EvFailed k (run_panic_error join_err) (total_size t))]) (with_shared sh w)).

Definition run_group_step (inp : RgInput) (w : Worker) : option Worker :=
  match wk_state w, inp with
  | RgReturned, _ => None
  | _, InPanic join_err => Some (run_panicked join_err w)
  | RgPrepareTop attempt, InContinue io => Some (prepare_top attempt io w)
  | RgPreparing _, InPrepare (Ok v) _ _ => Some (prepare_ok v w)
  | RgPreparing attempt, InPrepare (Err e) nanos io => Some (prepare_error attempt e nanos io w)
  | RgPrepareBackoff attempt _, InSleepElapsed => Some (goto (RgPrepareTop (attempt + 1)) w)
  | RgPrepareBackoff _ _, InSleepCancelled io =>
      if token_cancelled (wk_shared w) then Some (finish_canceled (total_size t) io w) else None
  | RgPrepared offset total, InContinue io => Some (after_prepare offset total io w)
  | RgSerialTop offset total claimed, InContinue io => Some (serial_top offset total claimed io w)
  | RgChunk offset total claimed st, InChunk inp io =>
      serial_chunk_step offset total claimed st inp io w
  | RgChunkSent offset total claimed outcome, InContinue io =>
      Some (serial_chunk_sent offset total claimed outcome io w)
  | RgFinalizing total, InComplete r io => Some (finalize_answer total r io w)
  | RgValidating total, InValidate r => Some (validate_answer total r w)
  | RgParallel total p, InPart i inp =>
      match run_part total (par_set p) i inp w with
      | Some (set', w') =>
          Some (goto (RgParallel total
            (mkParState (par_window p) set' (par_cancelled p) (par_failed p))) w')
      | None => None
      end
  | RgParallel total p, InJoin i => join_part total p i w
  | RgParallel total p, InContinue io =>
      match par_set p with [] => Some (parallel_finish total p io w) | _ => None end
  | RgDraining total join_err set, InPart i inp =>
      match run_part total set i inp w with
      | Some (set', w') => Some (goto (RgDraining total join_err set') w')
      | None => None
      end
  | RgDraining total join_err set, InJoin i => drain_join total join_err set i w
  | RgDraining total join_err set, InContinue _ =>
      match set with [] => Some (drain_finish total join_err w) | _ => None end
  | RgCompleting total, InComplete r io => Some (complete_answer total r io w)
  | _, _ => None
  end.

(** The sizes and offsets a backend answers are [u64]. *)
Definition input_fits (inp : RgInput) : Prop :=
  match inp with
  | InPrepare (Ok v) _ _ => fits U64_MAX (prep_next_offset v) ∧ fits U64_MAX (prep_total_size v)
  | InChunk (Answer (Ok o) _) _ => fits U64_MAX (next_offset o) ∧ fits U64_MAX (outcome_total_size o)
  | _ => True
  end.

(** The worker with its environment: inputs, pause and cancel requests, and other runs of the
    client taking and returning memory permits. *)
Inductive worker_step : Worker → Worker → Prop :=
| worker_input inp w w' :
    input_fits inp → run_group_step inp w = Some w' → worker_step w w'
| worker_control a w : worker_step w (with_shared (control a (wk_shared w)) w)
| worker_budget b w :
    limit_bytes b = limit_bytes (wk_budget w) → worker_step w (with_budget b w).

Definition worker_init (sh : Shared) (b : ParallelMemoryBudget S) : Worker :=
  mkWorker (RgPrepareTop 0) sh b [].
End RunGroup.
Arguments Worker : clear implicits.
