(* ===== verification/RunGroupProps.v ===== *)
(** * Properties of the worker

    What the scheduler may rely on when it runs a group, proved for every backend and every
    interleaving of answers, part steps, pause and cancel requests: one terminal event
    ([Events]), finalisation only of a fully transferred file ([Parallel]), no new request after
    an accepted stop ([Stopping]), and termination ([Termination]). *)
From Stdlib Require Import Sorting.Sorted.
From S2P Require Import Prelude Errors Lifecycle PartWindow MemoryBudget Retry Records RunGroup.
#[local] Open Scope Z_scope.

Definition sends (os : list Output) : list WorkerEvent :=
  omap (λ o, match o with Send ev => Some ev | _ => None end) os.

Definition is_progress (ev : WorkerEvent) : Prop :=
  match ev with EvProgress _ _ _ => True | _ => False end.
Definition is_terminal (ev : WorkerEvent) : Prop := ¬ is_progress ev.

(** A sequence of progress events for the group [k], followed by one terminal event if [fin]. *)
Definition event_sequence (k : UniqueId) (fin : Prop) (evs : list WorkerEvent) : Prop :=
  Forall (λ ev, event_key ev = k) evs
  ∧ ((fin ∧ ∃ ps ev, evs = ps ++ [ev] ∧ Forall is_progress ps ∧ is_terminal ev)
     ∨ (¬ fin ∧ Forall is_progress evs)).

Lemma sends_app os1 os2 : sends (os1 ++ os2) = sends os1 ++ sends os2.
Proof. apply omap_app. Qed.

(** ** Events *)

Section Events.
Context {S : Type} `{!Semaphore S} (rp : RunParams).
Implicit Types w : Worker S.

Lemma sends_handle_release : sends (handle_release rp) = [].
Proof. unfold handle_release. by case_match. Qed.

Lemma sends_settle_calls : sends settle_calls = [].
Proof. done. Qed.

Lemma sends_settle_abort sh : sends (settle_required_upload_abort rp sh) = [].
Proof. unfold settle_required_upload_abort. by case_match. Qed.

(** Every exit sends one terminal event. *)
Definition one_terminal (os : list Output) : Prop :=
  ∃ ev, sends os = [ev] ∧ is_terminal ev ∧ event_key ev = key rp.

Lemma emit_canceled_one_terminal total io :
  one_terminal (emit_canceled_after_quiescent_cleanup rp total io).
Proof.
  unfold emit_canceled_after_quiescent_cleanup, one_terminal.
  repeat case_match; rewrite ?sends_app, ?sends_settle_calls; simpl; eexists; split_and!;
    eauto; by intros [].
Qed.

Lemma exit_one_terminal os ev :
  sends os = [] → is_terminal ev → event_key ev = key rp → one_terminal (os ++ [Send ev]).
Proof. intros H1 H2 H3. exists ev. by rewrite sends_app, H1. Qed.

(** How a step extends the outputs. *)
Definition step_outputs (w w' : Worker S) : Prop :=
  ∃ os, wk_out w' = wk_out w ++ os
    ∧ ((wk_state w' = RgReturned ∧ one_terminal os)
       ∨ (wk_state w' ≠ RgReturned
          ∧ Forall (λ ev, is_progress ev ∧ event_key ev = key rp) (sends os))).

Lemma finish_outputs os w0 w :
  wk_out w = wk_out w0 → one_terminal os → step_outputs w0 (finish rp os w).
Proof.
  intros Ho (ev & H1 & H2 & H3). exists (os ++ handle_release rp). simpl. rewrite Ho.
  split; [done|]. left. split; [done|]. exists ev.
  by rewrite sends_app, sends_handle_release, H1.
Qed.

Lemma goto_outputs st os w0 w :
  wk_out w = wk_out w0 → st ≠ RgReturned →
  Forall (λ ev, is_progress ev ∧ event_key ev = key rp) (sends os) →
  step_outputs w0 (goto st (emit os w)).
Proof. intros Ho Hst Hs. exists os. simpl. rewrite Ho. auto. Qed.

Lemma goto_outputs_quiet st w0 w :
  wk_out w = wk_out w0 → st ≠ RgReturned → step_outputs w0 (goto st w).
Proof. intros Ho Hst. exists []. simpl. rewrite Ho, app_nil_r. split; [done|]. right. by split. Qed.

(** An exit that ends with a terminal event, after calls that send nothing. *)
Ltac exit_tac :=
  first [ apply emit_canceled_one_terminal
        | unfold one_terminal;
          repeat case_match; rewrite ?sends_app, ?sends_settle_calls, ?sends_settle_abort; simpl;
          rewrite ?sends_app, ?sends_settle_abort; simpl;
          eexists; split_and!; [reflexivity|by intros []|done] ].
Ltac outputs_tac :=
  repeat case_match; simplify_eq; simpl in *;
  first [ apply finish_outputs; [done|exit_tac]
        | apply goto_outputs; [done|done|simpl; by repeat constructor]
        | apply goto_outputs_quiet; done ].

Lemma prepare_outputs attempt e nanos io w : step_outputs w (prepare_error rp attempt e nanos io w).
Proof. unfold prepare_error, finish_canceled. outputs_tac. Qed.

Lemma after_prepare_outputs off total io w : step_outputs w (after_prepare rp off total io w).
Proof.
  unfold after_prepare, parallel_start, parallel_nothing_left, finish_canceled. outputs_tac.
Qed.

Lemma parallel_finish_outputs total p io w : step_outputs w (parallel_finish rp total p io w).
Proof. unfold parallel_finish, finish_canceled. outputs_tac. Qed.

Lemma serial_top_outputs off total c io w : step_outputs w (serial_top rp off total c io w).
Proof. unfold serial_top, finish_canceled. outputs_tac. Qed.

Lemma serial_chunk_sent_outputs off total c o io w :
  step_outputs w (serial_chunk_sent rp off total c o io w).
Proof. unfold serial_chunk_sent, finish_canceled. outputs_tac. Qed.

Lemma answers_outputs total r io w :
  step_outputs w (complete_answer rp total r io w) ∧ step_outputs w (finalize_answer rp total r io w).
Proof. unfold complete_answer, finalize_answer. split; outputs_tac. Qed.

Lemma serial_chunk_outputs off total c st inp io w w' :
  serial_chunk_step rp off total c st inp io w = Some w' → step_outputs w w'.
Proof.
  unfold serial_chunk_step, serial_chunk_result, finish_canceled. intros H.
  repeat case_match; simplify_eq; outputs_tac.
Qed.

Lemma join_done_outputs total p rest off o w :
  step_outputs w (join_done rp total p rest off (emit [Joined off o] w)).
Proof.
  unfold join_done. destruct (on_done _ _) as [r win].
  match goal with |- step_outputs _ (let '(_, _) := ?x in _) => destruct x end.
  eexists ([Joined off o] ++ _). simpl. rewrite <- app_assoc. split; [done|]. right.
  split; [done|]. simpl. repeat case_match; simpl; by repeat constructor.
Qed.

Lemma run_part_outputs total set i inp w set' w' :
  run_part rp total set i inp w = Some (set', w') →
  ∃ os, wk_out w' = wk_out w ++ os ∧ sends os = [].
Proof.
  unfold run_part, part_step. intros H.
  repeat case_match; simplify_eq; simpl; eexists; split; eauto.
Qed.

Lemma run_panicked_outputs join_err w : step_outputs w (run_panicked rp join_err w).
Proof.
  unfold run_panicked. eexists. split; [reflexivity|]. left. split; [done|].
  eexists. rewrite !sends_app, sends_handle_release.
  case_match; rewrite ?sends_settle_calls, ?sends_settle_abort; simpl;
    (split_and!; [reflexivity|by intros []|done]).
Qed.

Lemma run_group_step_outputs inp w w' :
  run_group_step rp inp w = Some w' → step_outputs w w' ∧ wk_state w ≠ RgReturned.
Proof.
  intros Hs. split; [|by intros E; unfold run_group_step in Hs; rewrite E in Hs].
  destruct (wk_state w) eqn:Est, inp; unfold run_group_step in Hs; rewrite Est in Hs;
    try discriminate Hs;
    try (injection Hs as <-; apply run_panicked_outputs).
  - injection Hs as <-. unfold prepare_top, finish_canceled. outputs_tac.
  - case_match; simplify_eq; [unfold prepare_ok; outputs_tac|apply prepare_outputs].
  - simplify_eq. outputs_tac.
  - case_match; simplify_eq. unfold finish_canceled. outputs_tac.
  - simplify_eq. apply after_prepare_outputs.
  - simplify_eq. apply serial_top_outputs.
  - by eapply serial_chunk_outputs.
  - simplify_eq. apply serial_chunk_sent_outputs.
  - simplify_eq. apply answers_outputs.
  - simplify_eq. unfold validate_answer. outputs_tac.
  - case_match; simplify_eq. apply parallel_finish_outputs.
  - destruct (run_part _ _ _ _ _ _) as [[set' w1]|] eqn:Hp; simplify_eq.
    destruct (run_part_outputs _ _ _ _ _ _ _ Hp) as (os & Ho & Hsd).
    exists os. simpl. rewrite Hsd. auto.
  - unfold join_part in Hs. repeat case_match; simplify_eq;
      first [apply join_done_outputs | outputs_tac].
  - case_match; simplify_eq. unfold drain_finish. outputs_tac.
  - destruct (run_part _ _ _ _ _ _) as [[set' w1]|] eqn:Hp; simplify_eq.
    destruct (run_part_outputs _ _ _ _ _ _ _ Hp) as (os & Ho & Hsd).
    exists os. simpl. rewrite Hsd. auto.
  - unfold drain_join in Hs. outputs_tac.
  - simplify_eq. apply answers_outputs.
Qed.

Definition events_ok (w : Worker S) : Prop :=
  event_sequence (key rp) (wk_state w = RgReturned) (sends (wk_out w)).

Lemma worker_step_events w w' : events_ok w → worker_step rp w w' → events_ok w'.
Proof.
  intros [Hk Hseq] Hs. destruct Hs as [inp w w' _ Hs|a w|b w Hb]; [|by split..].
  destruct (run_group_step_outputs _ _ _ Hs) as [(os & Ho & Hos) Hnr].
  destruct Hseq as [[? _]|[_ Hprog]]; [done|]. unfold events_ok. rewrite Ho, sends_app.
  destruct Hos as [(Hr & ev & He & Ht & Hke)|[Hr Hall]].
  - split; [rewrite He; by apply Forall_app; auto|]. left. split; [done|].
    exists (sends (wk_out w)), ev. by rewrite He.
  - apply Forall_and in Hall as [Hp1 Hp2]. split; [by apply Forall_app|].
    right. split; [done|by apply Forall_app].
Qed.

Lemma worker_reachable_events sh b w :
  rtc (worker_step rp) (worker_init sh b) w → events_ok w.
Proof.
  apply rtc_invariant; [intros ? ?; apply worker_step_events|].
  split; [constructor|]. right. split; [done|constructor].
Qed.
End Events.

(** ** Stopping *)

(** A request to the transfer backend that moves the transfer forward. *)
Definition is_request (o : Output) : bool :=
  match o with
  | CallPrepare _ | CallChunk _ _ | CallComplete | CallValidateGeneration => true
  | _ => false
  end.

Definition is_completed (o : Output) : bool :=
  match o with Send (EvCompleted _ _ _) => true | _ => false end.

(** The last request of the transfer may be in flight, or answered but not yet settled. *)
Definition finishing (st : RgState) : bool :=
  match st with
  | RgChunk _ _ _ _ | RgChunkSent _ _ _ _ | RgFinalizing _ | RgValidating _ | RgCompleting _ => true
  | _ => false
  end.

Lemma begin_completion_stopped lc : stop_effective lc → begin_completion lc = (false, lc).
Proof. unfold stop_effective. intros H. lc_cases lc. Qed.

Lemma retry_step_stopped max st inp sh st' sh' :
  token_cancelled sh = true →
  transfer_chunk_with_retry_step max st inp sh = Some (st', sh') →
  token_cancelled sh' = true
  ∧ (stop_effective (lifecycle sh) → stop_effective (lifecycle sh'))
  ∧ (∀ a, st' ≠ RetryInFlight a).
Proof.
  intros Ht Hst. destruct st, inp as [|[]| |]; simpl in Hst; rewrite ?Ht in Hst; simplify_eq;
    try done.
  unfold retry_on_error in Hst. rewrite Ht in Hst. simpl in Hst.
  repeat case_match; simplify_eq; split_and!; try done. simpl. apply finish_incomplete_keeps_stop.
Qed.

Section Stopping.
Context {S : Type} `{!Semaphore S} (rp : RunParams).
Implicit Types w : Worker S.

(** The worker has been told to stop (or is draining after a panicked part). *)
Definition stopping (w : Worker S) : Prop :=
  token_cancelled (wk_shared w) = true
  ∧ (stop_effective (lifecycle (wk_shared w))
     ∨ match wk_state w with RgDraining _ _ _ | RgReturned => True | _ => False end).

(** A step of a stopping worker. *)
Definition stopping_step (w w' : Worker S) : Prop :=
  stopping w' ∧ ∃ os, wk_out w' = wk_out w ++ os
    ∧ Forall (λ o, is_request o = false) os
    ∧ (finishing (wk_state w) = false → Forall (λ o, is_completed o = false) os)
    ∧ (finishing (wk_state w) = false → finishing (wk_state w') = false).

Lemma stopping_finish w0 w os :
  wk_out w = wk_out w0 → token_cancelled (wk_shared w) = true →
  Forall (λ o, is_request o = false) os →
  (finishing (wk_state w0) = false → Forall (λ o, is_completed o = false) os) →
  stopping_step w0 (finish rp os w).
Proof.
  intros Ho Ht Hr Hc. split; [split; [done|by right]|].
  exists (os ++ handle_release rp). simpl. rewrite Ho.
  assert (∀ f, f ReleaseUploadHandle = false →
    Forall (λ o, f o = false) (handle_release rp)) as Hh.
  { intros f Hf. unfold handle_release. case_match; auto. }
  split_and!; [done|by apply Forall_app; auto| |done].
  intros Hf. apply Forall_app; auto.
Qed.

Lemma stopping_goto w0 w st os :
  wk_out w = wk_out w0 → token_cancelled (wk_shared w) = true →
  stop_effective (lifecycle (wk_shared w)) →
  Forall (λ o, is_request o = false ∧ is_completed o = false) os →
  (finishing (wk_state w0) = false → finishing st = false) →
  stopping_step w0 (goto st (emit os w)).
Proof.
  intros Ho Ht Hs [H1 H2]%Forall_and Hf. split; [split; [done|by left]|].
  exists os. simpl. rewrite Ho. auto.
Qed.

Lemma stopping_canceled w0 w total io :
  wk_out w = wk_out w0 → token_cancelled (wk_shared w) = true →
  stopping_step w0 (finish_canceled rp total io w).
Proof.
  intros Ho Ht. apply stopping_finish; [done|done| |intros _];
    unfold emit_canceled_after_quiescent_cleanup, settle_calls; repeat case_match;
    by repeat constructor.
Qed.

Lemma stopping_goto_quiet w0 w st :
  wk_out w = wk_out w0 → token_cancelled (wk_shared w) = true →
  stop_effective (lifecycle (wk_shared w)) →
  (finishing (wk_state w0) = false → finishing st = false) →
  stopping_step w0 (goto st w).
Proof.
  intros Ho Ht Hs Hf. split; [split; [done|by left]|].
  exists []. simpl. rewrite Ho, app_nil_r. auto.
Qed.

Lemma require_abort_token sh : token_cancelled (require_upload_abort rp sh) = token_cancelled sh.
Proof. unfold require_upload_abort. by case_match. Qed.

Ltac calls_tac :=
  unfold settle_calls, settle_required_upload_abort; repeat case_match; by repeat constructor.
Ltac stop_tac :=
  repeat case_match; simplify_eq; simpl in *;
  first [ by apply stopping_canceled
        | apply stopping_finish; simpl;
          [done|by rewrite ?require_abort_token|calls_tac|intros _; calls_tac]
        | apply stopping_goto; [done|done|done|calls_tac|done]
        | by apply stopping_goto_quiet ].

(** The steps that leave a state in which no final request is outstanding. *)
Lemma stopping_open_steps w :
  token_cancelled (wk_shared w) = true → stop_effective (lifecycle (wk_shared w)) →
  finishing (wk_state w) = false →
  (∀ attempt io, stopping_step w (prepare_top rp attempt io w))
  ∧ (∀ v, stopping_step w (prepare_ok rp v w))
  ∧ (∀ off total io, stopping_step w (after_prepare rp off total io w))
  ∧ (∀ off total claimed io, stopping_step w (serial_top rp off total claimed io w))
  ∧ (∀ total p io, stopping_step w (parallel_finish rp total p io w)).
Proof.
  intros Ht Hs Hf. split_and!; intros.
  - unfold prepare_top. rewrite Ht. by apply stopping_canceled.
  - unfold prepare_ok. apply stopping_goto; [done..|calls_tac|done].
  - unfold after_prepare, parallel_start, parallel_nothing_left.
    rewrite begin_completion_stopped by done. stop_tac.
  - unfold serial_top. rewrite Ht. by apply stopping_canceled.
  - unfold parallel_finish. rewrite Ht, orb_true_r. stop_tac.
Qed.

Lemma stopping_prepare_error a e nanos io w :
  token_cancelled (wk_shared w) = true → stop_effective (lifecycle (wk_shared w)) →
  stopping_step w (prepare_error rp a e nanos io w).
Proof. intros Ht Hs. unfold prepare_error. stop_tac. Qed.

Lemma stopping_chunk off total claimed st inp io w w' :
  token_cancelled (wk_shared w) = true → stop_effective (lifecycle (wk_shared w)) →
  finishing (wk_state w) = true →
  serial_chunk_step rp off total claimed st inp io w = Some w' → stopping_step w w'.
Proof.
  intros Ht Hs Hf Hstep. unfold serial_chunk_step in Hstep.
  destruct (transfer_chunk_with_retry_step _ _ _ _) as [[st' sh']|] eqn:Er; [|done].
  destruct (retry_step_stopped _ _ _ _ _ _ Ht Er) as (Ht' & Hs' & Hni). specialize (Hs' Hs).
  destruct st' as [a|a|a d|[o| |e]]; simplify_eq; try (by destruct (Hni a)); simpl.
  1,2: apply stopping_goto; [done..|constructor|by rewrite Hf].
  - unfold serial_chunk_result. apply stopping_goto; [done..|calls_tac|by rewrite Hf].
  - by apply stopping_canceled.
  - apply stopping_finish; [done|done|calls_tac|by rewrite Hf].
Qed.

Lemma stopping_finishing_answers w :
  token_cancelled (wk_shared w) = true → stop_effective (lifecycle (wk_shared w)) →
  finishing (wk_state w) = true →
  (∀ off total claimed o io, stopping_step w (serial_chunk_sent rp off total claimed o io w))
  ∧ (∀ total r io, stopping_step w (finalize_answer rp total r io w))
  ∧ (∀ total r io, stopping_step w (complete_answer rp total r io w))
  ∧ (∀ total v, stopping_step w (validate_answer rp total v w)).
Proof.
  intros Ht Hs Hf. assert (finishing (wk_state w) = false → False) as Hnf by (by rewrite Hf).
  split_and!; intros.
  - unfold serial_chunk_sent.
    destruct (finish_incomplete_completion _) as [stop lc] eqn:Ei.
    assert (stop_effective lc) as Hlc.
    { pose proof (finish_incomplete_keeps_stop _ Hs) as H. by rewrite Ei in H. }
    repeat case_match; simplify_eq;
      first [ by apply stopping_canceled
            | apply stopping_finish; [done|done|calls_tac|done]
            | by apply stopping_goto_quiet; simpl ].
  - unfold finalize_answer. repeat case_match; (apply stopping_finish; [done|done|calls_tac|done]).
  - unfold complete_answer. repeat case_match; (apply stopping_finish; [done|done|calls_tac|done]).
  - unfold validate_answer. repeat case_match;
      (apply stopping_finish; simpl; [done|by rewrite ?require_abort_token|calls_tac|done]).
Qed.

Lemma stopping_run_part total set i inp w set' w' :
  token_cancelled (wk_shared w) = true →
  run_part rp total set i inp w = Some (set', w') →
  token_cancelled (wk_shared w') = true
  ∧ (stop_effective (lifecycle (wk_shared w)) → stop_effective (lifecycle (wk_shared w')))
  ∧ wk_out w' = wk_out w.
Proof.
  intros Ht Hp. unfold run_part in Hp. destruct (set !! i) as [[off st]|]; [|done].
  destruct (part_step _ _ _ _ _ _ _) as [[[[st' sh'] b'] os]|] eqn:Es; simplify_eq; simpl.
  unfold part_step in Es.
  destruct st as [|rst bytes| |], inp as [|rinp|]; try done; simplify_eq;
    try (by rewrite app_nil_r).
  - repeat case_match; simplify_eq; by rewrite app_nil_r.
  - destruct (transfer_chunk_with_retry_step _ _ _ _) as [[rst' sh'']|] eqn:Er; [|done].
    destruct (retry_step_stopped _ _ _ _ _ _ Ht Er) as (Ht' & Hs' & Hni).
    destruct rst' as [a|a| |]; simplify_eq; [|by destruct (Hni a)|..]; by rewrite app_nil_r.
Qed.

Lemma stopping_join total p i w w' :
  token_cancelled (wk_shared w) = true → stop_effective (lifecycle (wk_shared w)) →
  finishing (wk_state w) = false →
  join_part rp total p i w = Some w' → stopping_step w w'.
Proof.
  intros Ht Hs Hf Hj. unfold join_part, join_done in Hj.
  destruct (par_set p !! i) as [[off st]|]; [|done].
  destruct st as [| |[o| |e]|]; simplify_eq; try (apply stopping_goto; [done..|calls_tac|done]).
  destruct (on_done _ _) as [r win].
  match goal with |- stopping_step _ (let '(_, _) := ?x in _) => destruct x end.
  split; [split; [done|by left]|]. eexists ([Joined off (Some (Done o))] ++ _). simpl.
  rewrite <- app_assoc. split; [done|].
  repeat case_match; split_and!; try done; intros; by repeat constructor.
Qed.

Lemma stopping_panicked join_err w :
  token_cancelled (wk_shared w) = true → stopping_step w (run_panicked rp join_err w).
Proof.
  intros Ht. split.
  - split; [simpl; by rewrite require_abort_token|by right].
  - eexists. split; [reflexivity|]. unfold handle_release.
    split_and!; [| |done]; [|intros _];
      (apply Forall_app; split; [by case_match; repeat constructor|calls_tac]).
Qed.

Lemma stopping_step_preserved inp w w' :
  stopping w → run_group_step rp inp w = Some w' → stopping_step w w'.
Proof.
  intros [Ht Hst] Hs. unfold run_group_step in Hs.
  destruct (wk_state w) eqn:Est, inp; try discriminate Hs;
    try (injection Hs as <-; by apply stopping_panicked);
    try (destruct Hst as [Hst|[]]; [idtac]); simpl in Hs;
    try (assert (finishing (wk_state w) = false) as Hf by (by rewrite Est));
    try (assert (finishing (wk_state w) = true) as Hf by (by rewrite Est));
    try (injection Hs as <-; by apply stopping_open_steps);
    try (injection Hs as <-; by apply stopping_finishing_answers).
  - case_match; simplify_eq; [by apply stopping_open_steps|by apply stopping_prepare_error].
  - simplify_eq. by apply stopping_goto_quiet.
  - rewrite Ht in Hs. simplify_eq. by apply stopping_canceled.
  - by eapply stopping_chunk.
  - case_match; simplify_eq. by apply stopping_open_steps.
  - destruct (run_part _ _ _ _ _ _) as [[set' w1]|] eqn:Hp; simplify_eq.
    destruct (stopping_run_part _ _ _ _ _ _ _ Ht Hp) as (Ht' & Hs' & Ho).
    apply stopping_goto_quiet; auto.
  - by eapply stopping_join.
  - case_match; simplify_eq. unfold drain_finish.
    apply stopping_finish; simpl; [done|by rewrite require_abort_token|calls_tac|intros _; calls_tac].
  - destruct (run_part _ _ _ _ _ _) as [[set' w1]|] eqn:Hp; simplify_eq.
    destruct (stopping_run_part _ _ _ _ _ _ _ Ht Hp) as (Ht' & Hs' & Ho).
    split; [split; [done|by right]|]. exists []. simpl. by rewrite Ho, app_nil_r.
  - unfold drain_join in Hs. repeat case_match; simplify_eq;
      (split; [split; [done|by right]|]; eexists; split; [reflexivity|]; by repeat constructor).
Qed.

Lemma stopping_worker_step w w' :
  stopping w → worker_step rp w w' → stopping_step w w'.
Proof.
  intros Hst Hstep. destruct Hstep as [inp w1 w1' _ Hs|a w1|b w1 Hb].
  - by eapply stopping_step_preserved.
  - destruct Hst as [Ht Hst]. split; [split; simpl; [by apply control_token|]|].
    + destruct Hst; [left; by apply control_stop_effective|by right].
    + exists []. simpl. by rewrite app_nil_r.
  - split; [exact Hst|]. exists []. simpl. by rewrite app_nil_r.
Qed.

Lemma stopping_run w w' :
  stopping w → rtc (worker_step rp) w w' →
  ∃ os, wk_out w' = wk_out w ++ os
    ∧ Forall (λ o, is_request o = false) os
    ∧ (finishing (wk_state w) = false → Forall (λ o, is_completed o = false) os).
Proof.
  intros Hst Hr. induction Hr as [w|w w1 w' Hs Hr IH].
  - exists []. by rewrite app_nil_r.
  - destruct (stopping_worker_step _ _ Hst Hs) as (Hst1 & os & Ho & H1 & H2 & H3).
    destruct (IH Hst1) as (os' & Ho' & H1' & H2'). exists (os ++ os').
    rewrite Ho', Ho, app_assoc. split_and!; [done|by apply Forall_app|].
    intros Hf. apply Forall_app. auto.
Qed.
End Stopping.

(** ** The parallel driver *)

Definition is_complete_call (o : Output) : bool :=
  match o with CallComplete => true | _ => false end.

(** Number of [complete] calls made. *)
Fixpoint completes (os : list Output) : nat :=
  match os with
  | [] => 0
  | o :: os => (if is_complete_call o then 1 else 0) + completes os
  end.

(** Offsets of the progress events sent. *)
Definition marks (os : list Output) : list Z :=
  omap (λ o, match o with Send (EvProgress _ m _) => Some m | _ => None end) os.

(** The part at [q] was transferred and joined. *)
Definition joined_done (q : Z) (os : list Output) : Prop := ∃ o, Joined q (Some (Done o)) ∈ os.

Lemma completes_app os1 os2 : completes (os1 ++ os2) = (completes os1 + completes os2)%nat.
Proof. induction os1; simpl; lia. Qed.

Lemma marks_app os1 os2 : marks (os1 ++ os2) = marks os1 ++ marks os2.
Proof. apply omap_app. Qed.

Lemma joined_done_app q os1 os2 : joined_done q os1 → joined_done q (os1 ++ os2).
Proof. intros [o Ho]. exists o. set_solver. Qed.

(** Part offsets of a [JoinSet]. *)
Definition set_offsets (set : list (Z * PartState)) : gset Z := list_to_set set.*1.

Lemma set_offsets_delete (set : list (Z * PartState)) i off st :
  NoDup set.*1 → set !! i = Some (off, st) →
  NoDup (delete i set).*1 ∧ set_offsets (delete i set) = set_offsets set ∖ {[off]}
  ∧ off ∈ set_offsets set.
Proof.
  intros Hnd Hi. pose proof (delete_Permutation _ _ _ Hi) as Hp.
  apply (fmap_Permutation fst) in Hp. simpl in Hp. unfold set_offsets. rewrite Hp in Hnd.
  apply NoDup_cons in Hnd as [Hni Hnd]. split; [done|].
  rewrite Hp. simpl. split; [|set_solver]. apply leibniz_equiv.
  assert (off ∉ (list_to_set (delete i set).*1 : gset Z)) by (by rewrite elem_of_list_to_set).
  set_solver.
Qed.

Lemma set_offsets_insert (set : list (Z * PartState)) i off st st' :
  set !! i = Some (off, st) → (<[i := (off, st')]> set).*1 = set.*1.
Proof.
  intros Hi. rewrite list_fmap_insert. apply list_insert_id. by rewrite list_lookup_fmap, Hi.
Qed.

Section Parallel.
Context {S : Type} `{!Semaphore S} (rp : RunParams).
Implicit Types w : Worker S.

Definition window_of (s tot : Z) (win : PartWindow) (set : list (Z * PartState)) (D : gset Z) : Prop :=
  window_inv s (mkTracked win (set_offsets set) D) ∧ NoDup set.*1
  ∧ total win = tot ∧ chunk win = Z.max (chunk_size (task rp)) 1.

(** Dispatching keeps the window and the [JoinSet] in step. *)
Lemma dispatch_parts_ok fuel s tot win set D win' set' :
  window_of s tot win set D → dispatch_parts fuel win set = (win', set') →
  window_of s tot win' set' D ∧ watermark win' = watermark win.
Proof.
  revert win set. induction fuel as [|fuel IH]; intros win set (Hi & Hnd & Ht & Hc) Hd; simpl in Hd;
    [by simplify_eq|].
  destruct (take_dispatch win) as [[off|] w1] eqn:Et.
  - destruct (window_inv_dispatch _ _ _ _ _ _ Et Hi) as [Hi1 Hfresh].
    destruct (take_dispatch_inv _ _ _ Et) as (_ & _ & _ & ->).
    apply IH in Hd as [Hw Hm]; [by rewrite Hm|]. unfold window_of, set_offsets in *.
    rewrite fmap_app, list_to_set_app_L; simpl. split_and!; [|..|done|done].
    + rewrite union_empty_r_L, (comm_L (∪)). done.
    + apply NoDup_app. split_and!; [done| |apply NoDup_singleton].
      intros x Hx ->%list_elem_of_singleton. apply Hfresh. set_solver.
  - unfold take_dispatch in Et. case_match; by simplify_eq.
Qed.

Definition starts_at (s tot : Z) (os : list Output) : Prop :=
  ∃ rest, sends os = EvProgress (key rp) s tot :: rest.

(** The marks sent so far, below the watermark. *)
Definition marks_ok (mark : Z) (os : list Output) : Prop :=
  StronglySorted Z.lt (marks os) ∧ Forall (λ m, m ≤ mark) (marks os).

Definition par_ok (tot : Z) (p : ParState) (os : list Output) : Prop :=
  ∃ s D, starts_at s tot os ∧ window_of s tot (par_window p) (par_set p) D
    ∧ (∀ q, q ∈ D → joined_done q os)
    ∧ marks_ok (watermark (par_window p)) os ∧ completes os = 0%nat.

(** Every part of the grid from [s] has been joined. *)
Definition all_joined (s tot : Z) (os : list Output) : Prop :=
  ∀ q j, 0 ≤ j → q = s + j * Z.max (chunk_size (task rp)) 1 → q < tot → joined_done q os.

Definition phase_ok (w : Worker S) : Prop :=
  let os := wk_out w in
  match wk_state w with
  | RgPrepareTop _ | RgPreparing _ | RgPrepareBackoff _ _ => sends os = [] ∧ marks os = [] ∧ completes os = 0%nat
  | RgPrepared off tot =>
      sends os = [EvProgress (key rp) off tot] ∧ marks os = [off] ∧ completes os = 0%nat
      ∧ 0 ≤ off ∧ 0 ≤ tot ≤ U64_MAX
  | RgSerialTop _ _ _ | RgChunk _ _ _ _ | RgChunkSent _ _ _ _ | RgValidating _
  | RgDraining _ _ _ => completes os = 0%nat
  | RgFinalizing _ => completes os = 1%nat
  | RgParallel tot p => par_ok tot p os
  | RgCompleting tot =>
      ∃ s, starts_at s tot os ∧ all_joined s tot os ∧ StronglySorted Z.lt (marks os)
           ∧ completes os = 1%nat ∧ completion_claimed (lifecycle (wk_shared w))
  | RgReturned => (completes os ≤ 1)%nat
  end.

Lemma phase_finish w os :
  (completes (wk_out w) + completes os ≤ 1)%nat → phase_ok (finish rp os w).
Proof.
  intros H. unfold phase_ok; simpl. rewrite !completes_app.
  assert (completes (handle_release rp) = 0%nat) as -> by (unfold handle_release; by case_match).
  lia.
Qed.

Lemma completes_canceled tot io :
  completes (emit_canceled_after_quiescent_cleanup rp tot io) = 0%nat.
Proof. unfold emit_canceled_after_quiescent_cleanup. by repeat case_match. Qed.

Lemma completes_abort sh : completes (settle_required_upload_abort rp sh) = 0%nat.
Proof. unfold settle_required_upload_abort. by case_match. Qed.

Ltac phase_finish_tac :=
  repeat case_match; simplify_eq; simpl in *; unfold finish_canceled;
  first [ apply phase_finish; simpl; rewrite ?completes_canceled, ?completes_app, ?completes_abort;
          simpl; rewrite ?completes_app, ?completes_abort; simpl; lia
        | unfold phase_ok; simpl; rewrite ?completes_app; simpl; lia ].

Lemma par_start_ok s tot os p :
  starts_at s tot os → marks os = [s] → completes os = 0%nat →
  0 ≤ s < tot → tot ≤ U64_MAX →
  (par_window p, par_set p)
  = dispatch_all (part_window_new s (chunk_size (task rp)) tot (max_parts_in_flight (task rp))) [] →
  par_ok tot p os.
Proof.
  intros Hst Hm Hc Hs Ht Hd. symmetry in Hd. unfold dispatch_all in Hd.
  eapply (dispatch_parts_ok _ s tot _ _ ∅) in Hd as [Hw Hmk].
  - exists s, ∅. split_and!; [done|done|set_solver| |done].
    rewrite Hmk. unfold marks_ok. rewrite Hm. simpl. split; repeat constructor. lia.
  - split_and!; [|constructor|done|done].
    pose proof (window_inv_init s (chunk_size (task rp)) tot (max_parts_in_flight (task rp))) as Hi.
    rewrite Z.min_l in Hi by lia. apply Hi; lia.
Qed.

Lemma after_prepare_phase off tot io w :
  wk_state w = RgPrepared off tot → phase_ok w → phase_ok (after_prepare rp off tot io w).
Proof.
  intros Hst Hp. unfold phase_ok in Hp. rewrite Hst in Hp. destruct Hp as (Hs & Hm & Hc & Ho & Ht).
  unfold after_prepare, parallel_start, parallel_nothing_left.
  destruct (_ && _ && _) eqn:Eg; [|phase_finish_tac]. zbool.
  destruct (validate_parallel_part_window _ _ _ _ _ _); [|phase_finish_tac].
  destruct (tot <=? off) eqn:Et; zbool; [phase_finish_tac|].
  destruct (dispatch_all _ _) as [win set] eqn:Ed. unfold phase_ok; simpl.
  eapply par_start_ok; [by exists []|done|done|lia|lia|done].
Qed.

Lemma marks_ok_app mark mark' os os' :
  marks_ok mark os → mark ≤ mark' → marks os' = [] → marks_ok mark' (os ++ os').
Proof.
  intros [H1 H2] Hle Hn. unfold marks_ok. rewrite marks_app, Hn, app_nil_r.
  split; [done|]. eapply Forall_impl; [done|]. simpl; lia.
Qed.

Lemma marks_ok_snoc mark mark' os ev :
  marks_ok mark os → mark < mark' → marks [ev] = [mark'] → marks_ok mark' (os ++ [ev]).
Proof.
  intros [H1 H2] Hlt Hn. unfold marks_ok. rewrite marks_app, Hn. split.
  - clear Hn. induction (marks os) as [|m l IH]; simpl; [repeat constructor|].
    apply StronglySorted_inv in H1 as [H1 H3]. apply Forall_cons in H2 as [Hm H2].
    constructor; [by apply IH|]. apply Forall_app; split; [done|]. repeat constructor; lia.
  - apply Forall_app. split; [|repeat constructor; lia].
    eapply Forall_impl; [done|]. simpl; lia.
Qed.

Lemma starts_at_app s tot os os' : starts_at s tot os → starts_at s tot (os ++ os').
Proof. intros [rest H]. unfold starts_at. rewrite sends_app, H. by eexists. Qed.

(** A settled part other than a completed one. *)
Lemma par_ok_settled tot p i off st os c f o :
  par_ok tot p os → par_set p !! i = Some (off, st) →
  par_ok tot (mkParState (on_settled_without_progress (par_window p)) (delete i (par_set p)) c f)
    (os ++ [Joined off o]).
Proof.
  intros (s & D & Hs & (Hi & Hnd & Ht & Hc) & HD & Hm & Hcp) Hl.
  destruct (set_offsets_delete _ _ _ _ Hnd Hl) as (Hnd' & He & Hin).
  exists s, D. split_and!; simpl.
  - by apply starts_at_app.
  - split_and!; simpl; [rewrite He; by apply window_inv_settled|done|done|done].
  - intros q Hq. by apply joined_done_app, HD.
  - by eapply marks_ok_app.
  - rewrite completes_app; simpl. lia.
Qed.

Lemma join_done_phase tot p i off o w :
  par_ok tot p (wk_out w) → par_set p !! i = Some (off, PartDone (Done o)) →
  phase_ok (join_done rp tot p (delete i (par_set p)) off (emit [Joined off (Some (Done o))] w)).
Proof.
  intros (s & D & Hs & (Hi & Hnd & Ht & Hc) & HD & Hm & Hcp) Hl.
  destruct (set_offsets_delete _ _ _ _ Hnd Hl) as (Hnd' & He & Hin).
  unfold join_done. destruct (on_done _ _) as [r win] eqn:Ed.
  destruct (window_inv_done _ _ _ _ _ _ _ Hin Ed Hi) as (Hi' & Hle & ->).
  assert (chunk win = chunk (par_window p) ∧ total win = total (par_window p)) as [Hc' Ht'].
  { unfold on_done in Ed. repeat case_match; by simplify_eq. }
  assert (window_of s tot win (delete i (par_set p)) ({[off]} ∪ D)) as Hw.
  { split_and!; [by rewrite He|done|congruence|congruence]. }
  set (fl := par_failed p).
  destruct (if negb (par_cancelled p) && bool_decide (fl = None)
            then dispatch_all win (delete i (par_set p)) else (win, delete i (par_set p)))
    as [win' set'] eqn:Edis.
  assert (window_of s tot win' set' ({[off]} ∪ D) ∧ watermark win' = watermark win) as [Hw' Hmk].
  { case_match; [by eapply dispatch_parts_ok|by simplify_eq]. }
  unfold phase_ok; simpl. exists s, ({[off]} ∪ D). simpl. rewrite <- app_assoc.
  split_and!; [by apply starts_at_app|done| | |].
  - intros q [->%elem_of_singleton|Hq]%elem_of_union; [|by apply joined_done_app, HD].
    exists o. set_solver.
  - rewrite Hmk, app_assoc. destruct (watermark win =? watermark (par_window p)) eqn:Ew; zbool.
    + apply marks_ok_app with (watermark win); [|lia|done].
      rewrite Ew. by apply marks_ok_app with (watermark (par_window p)).
    + apply marks_ok_snoc with (watermark (par_window p)); [|lia|done].
      by apply marks_ok_app with (watermark (par_window p)).
  - rewrite !completes_app, Hcp. by destruct (watermark win =? _).
Qed.

Lemma run_part_phase tot set i inp w set' w' :
  run_part rp tot set i inp w = Some (set', w') →
  set'.*1 = set.*1 ∧ ∃ os, wk_out w' = wk_out w ++ os ∧ sends os = [] ∧ marks os = []
    ∧ completes os = 0%nat.
Proof.
  intros Hp. unfold run_part in Hp. destruct (set !! i) as [[off st]|] eqn:Hl; [|done].
  destruct (part_step _ _ _ _ _ _ _) as [[[[st' sh'] b'] os]|] eqn:Es; simplify_eq; simpl.
  split; [by eapply set_offsets_insert|]. exists os. split; [done|].
  unfold part_step in Es. repeat case_match; by simplify_eq.
Qed.

Lemma par_ok_app tot p set' os os' :
  par_ok tot p os → set'.*1 = (par_set p).*1 →
  sends os' = [] → marks os' = [] → completes os' = 0%nat →
  par_ok tot (mkParState (par_window p) set' (par_cancelled p) (par_failed p)) (os ++ os').
Proof.
  intros (s & D & Hs & (Hi & Hnd & Ht & Hc) & HD & Hm & Hcp) He H1 H2 H3.
  exists s, D. simpl. split_and!; [by apply starts_at_app| | | |].
  - unfold window_of, set_offsets in *. by rewrite He.
  - intros q Hq. by apply joined_done_app, HD.
  - by eapply marks_ok_app.
  - rewrite completes_app. lia.
Qed.

Lemma join_part_phase tot p i w w' :
  par_ok tot p (wk_out w) → join_part rp tot p i w = Some w' → phase_ok w'.
Proof.
  intros Hok Hj. unfold join_part in Hj.
  destruct (par_set p !! i) as [[off st]|] eqn:Hl; [|done].
  destruct st as [| |[o| |e]|]; simplify_eq;
    try (unfold phase_ok; simpl; by eapply par_ok_settled).
  - by eapply join_done_phase.
  - destruct Hok as (s & D & _ & _ & _ & _ & Hcp). unfold phase_ok; simpl.
    rewrite completes_app, Hcp. done.
Qed.

Lemma parallel_finish_phase tot p io w :
  par_ok tot p (wk_out w) → par_set p = [] → phase_ok (parallel_finish rp tot p io w).
Proof.
  intros (s & D & Hs & (Hi & Hnd & Ht & Hc) & HD & Hm & Hcp) Hset.
  unfold parallel_finish. case_match; [phase_finish_tac|].
  case_match; [phase_finish_tac|]. destruct (is_complete _) eqn:Ec; [|phase_finish_tac].
  simpl. destruct (begin_completion _) as [claimed lc] eqn:Eb.
  destruct claimed; [|phase_finish_tac]. simpl.
  unfold phase_ok; simpl. exists s. rewrite completes_app, marks_app, Hcp. simpl.
  rewrite app_nil_r. split_and!; [by apply starts_at_app| |apply Hm|done|].
  - intros q j Hj -> Hq. apply joined_done_app, HD.
    unfold is_complete in Ec. zbool. rewrite Ht in *.
    assert (watermark (par_window p) = total (par_window p)) as Hwm.
    { destruct (wi_mark _ _ Hi) as (m & _ & Hw & _). simpl in Hw. unfold grid_end in Hw. lia. }
    apply (proj1 (watermark_total _ _ Hi) Hwm). exists j. simpl. rewrite Hc, Ht. lia.
  - unfold completion_claimed, begin_completion in *. case_match; simplify_eq. by left.
Qed.

Lemma phase_completes w : phase_ok w → (completes (wk_out w) ≤ 1)%nat.
Proof.
  unfold phase_ok, par_ok.
  destruct (wk_state w); intros H; (rewrite H || naive_solver lia); done || lia.
Qed.

Lemma run_panicked_phase join_err w : phase_ok w → phase_ok (run_panicked rp join_err w).
Proof.
  intros H%phase_completes. unfold run_panicked, phase_ok; simpl.
  rewrite !completes_app.
  assert (completes (handle_release rp) = 0%nat) as -> by (unfold handle_release; by case_match).
  case_match; rewrite ?completes_abort; simpl; lia.
Qed.

Lemma serial_phase off tot claimed io w :
  completes (wk_out w) = 0%nat →
  phase_ok (serial_top rp off tot claimed io w)
  ∧ (∀ o, phase_ok (serial_chunk_sent rp off tot claimed o io w))
  ∧ (∀ st inp w', serial_chunk_step rp off tot claimed st inp io w = Some w' → phase_ok w').
Proof.
  intros Hc. split_and!.
  - unfold serial_top. phase_finish_tac.
  - intros o. unfold serial_chunk_sent. phase_finish_tac.
  - intros st inp w'. unfold serial_chunk_step, serial_chunk_result. intros Hs. phase_finish_tac.
Qed.

Lemma prepare_phase attempt io w :
  sends (wk_out w) = [] → marks (wk_out w) = [] → completes (wk_out w) = 0%nat →
  phase_ok (prepare_top rp attempt io w) ∧ (∀ e n, phase_ok (prepare_error rp attempt e n io w)).
Proof.
  intros H1 H2 H3. split.
  - unfold prepare_top. case_match; [phase_finish_tac|].
    unfold phase_ok; simpl. by rewrite sends_app, marks_app, completes_app, H1, H2, H3.
  - intros e n. unfold prepare_error. case_match; [phase_finish_tac|].
    case_match; [phase_finish_tac|]. by unfold phase_ok.
Qed.

Lemma run_group_step_phase inp w w' :
  fits U64_MAX (total_size (task rp)) → input_fits inp →
  phase_ok w → run_group_step rp inp w = Some w' → phase_ok w'.
Proof.
  intros Htask Hfits Hp Hs. pose proof Hp as Hp'. unfold phase_ok in Hp. unfold run_group_step in Hs.
  destruct (wk_state w) eqn:Est, inp; try discriminate Hs;
    try (injection Hs as <-; by apply run_panicked_phase).
  - injection Hs as <-. destruct Hp as (?&?&?). by apply prepare_phase.
  - destruct Hp as (H1&H2&H3). case_match; injection Hs as <-; [|by apply prepare_phase].
    destruct Hfits. unfold phase_ok, prepare_ok; simpl.
    rewrite sends_app, marks_app, completes_app, H1, H2, H3.
    split_and!; [done..|unfold fits in *; lia| |]; case_match; unfold fits in *; lia.
  - injection Hs as <-. by unfold phase_ok.
  - case_match; simplify_eq. destruct Hp as (?&?&?). phase_finish_tac.
  - injection Hs as <-. by apply after_prepare_phase.
  - injection Hs as <-. by apply serial_phase.
  - by eapply (serial_phase _ _ _ _ w).
  - injection Hs as <-. by apply serial_phase.
  - injection Hs as <-. unfold finalize_answer. phase_finish_tac.
  - injection Hs as <-. unfold validate_answer. phase_finish_tac.
  - case_match; simplify_eq. by apply parallel_finish_phase.
  - destruct (run_part _ _ _ _ _ _) as [[set' w1]|] eqn:Er; simplify_eq.
    destruct (run_part_phase _ _ _ _ _ _ _ Er) as (He & os & Ho & H1 & H2 & H3).
    unfold phase_ok; simpl. rewrite Ho. by apply par_ok_app.
  - by eapply join_part_phase.
  - case_match; simplify_eq. unfold drain_finish. phase_finish_tac.
  - destruct (run_part _ _ _ _ _ _) as [[set' w1]|] eqn:Er; simplify_eq.
    destruct (run_part_phase _ _ _ _ _ _ _ Er) as (He & os & Ho & H1 & H2 & H3).
    unfold phase_ok; simpl. rewrite Ho, completes_app. lia.
  - unfold drain_join in Hs. phase_finish_tac.
  - injection Hs as <-. destruct Hp as (s & _ & _ & _ & Hc & _). unfold complete_answer.
    phase_finish_tac.
Qed.

Lemma control_claimed a sh :
  completion_claimed (lifecycle sh) → completion_claimed (lifecycle (control a sh)).
Proof. intros H; destruct a; shared_cases sh. Qed.

Lemma worker_step_phase w w' :
  fits U64_MAX (total_size (task rp)) → phase_ok w → worker_step rp w w' → phase_ok w'.
Proof.
  intros Htask Hp Hs. destruct Hs as [inp w w' Hf Hs|a w|b w Hb].
  - by eapply run_group_step_phase.
  - unfold phase_ok in *; simpl. destruct (wk_state w); try done.
    destruct Hp as (s & ? & ? & ? & ? & ?). exists s. split_and!; [done..|by apply control_claimed].
  - done.
Qed.

Lemma worker_reachable_phase sh b w :
  fits U64_MAX (total_size (task rp)) →
  rtc (worker_step rp) (worker_init sh b) w → phase_ok w.
Proof.
  intros Ht. apply rtc_invariant; [intros ? ?; by apply worker_step_phase|].
  by unfold phase_ok.
Qed.
End Parallel.

(** ** Termination *)

Section Termination.
Context {S : Type} `{!Semaphore S} (rp : RunParams).
Implicit Types w : Worker S.
Let M : Z := max_chunk_retries (task rp).
Let Mp : Z := max_prep_retries rp.

(** A chunk that does not finish the transfer moves the offset forward. *)
Definition input_advances (st : RgState) (inp : RgInput) : Prop :=
  match st, inp with
  | RgChunk off _ _ _, InChunk (Answer (Ok o) _) _ => done o = false → off < next_offset o
  | _, _ => True
  end.

(** Weight of a chunk or part: more than the steps of its retry loop. *)
Definition chunk_weight : Z := 3 * M + 7.

Definition part_measure (st : PartState) : Z :=
  match st with
  | PartSpawned => 3 * M + 6
  | PartRetry rst _ => retry_measure M rst + 2
  | PartDone _ | PartPanicked _ => 1
  end.

Definition set_measure (set : list (Z * PartState)) : Z :=
  foldr (λ p n, part_measure p.2 + n) 0 set.

(** Bound on the steps the worker can still take. *)
Definition worker_measure (st : RgState) : Z :=
  match st with
  | RgPrepareTop a => chunk_weight * (U64_MAX + 1) + 3 * (Mp - a) + 7
  | RgPreparing a => chunk_weight * (U64_MAX + 1) + 3 * (Mp - a) + 6
  | RgPrepareBackoff a _ => chunk_weight * (U64_MAX + 1) + 3 * (Mp - a) + 5
  | RgPrepared _ _ => chunk_weight * (U64_MAX + 1) + 3
  | RgSerialTop off _ _ => chunk_weight * (U64_MAX - off) + 3 * M + 6
  | RgChunk off _ _ rst => chunk_weight * (U64_MAX - off) + retry_measure M rst + 2
  | RgChunkSent off _ _ o => if done o then 1 else chunk_weight * (U64_MAX - off + 1)
  | RgParallel tot p => chunk_weight * (tot - next_dispatch (par_window p)) + set_measure (par_set p) + 3
  | RgDraining _ _ set => set_measure set + 2
  | RgFinalizing _ | RgValidating _ | RgCompleting _ => 1
  | RgReturned => 0
  end.

(** The retry counters are within their limits. *)
Definition retry_ok (rst : RetryState) : Prop :=
  match rst with
  | RetryTop a | RetryInFlight a => 0 ≤ a ≤ M
  | RetryBackoff a _ => 0 ≤ a < M
  | RetryReturned _ => False
  end.
Definition part_ok (p : Z * PartState) : Prop :=
  match p.2 with PartRetry rst _ => retry_ok rst | _ => True end.
Definition win_ok (tot : Z) (win : PartWindow) : Prop :=
  0 ≤ next_dispatch win ≤ tot ∧ tot ≤ U64_MAX ∧ total win = tot ∧ 1 ≤ chunk win.

Definition counters_ok (st : RgState) : Prop :=
  match st with
  | RgPrepareTop a | RgPreparing a => 0 ≤ a ≤ Mp
  | RgPrepareBackoff a _ => 0 ≤ a < Mp
  | RgPrepared off tot => 0 ≤ off ≤ U64_MAX ∧ 0 ≤ tot ≤ U64_MAX
  | RgSerialTop off _ _ => 0 ≤ off ≤ U64_MAX
  | RgChunk off _ _ rst => 0 ≤ off ≤ U64_MAX ∧ retry_ok rst
  | RgChunkSent off _ _ _ => 0 ≤ off ≤ U64_MAX
  | RgParallel tot p => win_ok tot (par_window p) ∧ Forall part_ok (par_set p)
  | RgDraining _ _ set => Forall part_ok set
  | _ => True
  end.

Context (HM : 0 ≤ M) (HMp : 0 ≤ Mp) (Htask : fits U64_MAX (total_size (task rp))).

Lemma part_measure_pos p : part_ok p → 1 ≤ part_measure p.2.
Proof.
  unfold part_ok. destruct p as [off [|rst|r|e]]; simpl; try lia.
  destruct rst; simpl; try done; lia.
Qed.

Lemma set_measure_nonneg set : Forall part_ok set → 0 ≤ set_measure set.
Proof.
  induction 1 as [|p set Hp Hs IH]; simpl; [lia|]. pose proof (part_measure_pos p Hp). lia.
Qed.

Lemma set_measure_app s1 s2 : set_measure (s1 ++ s2) = set_measure s1 + set_measure s2.
Proof. unfold set_measure. induction s1; simpl; lia. Qed.

Lemma set_measure_delete set i p :
  set !! i = Some p → set_measure set = part_measure p.2 + set_measure (delete i set).
Proof.
  intros Hi. pose proof (delete_Permutation _ _ _ Hi) as Hp.
  rewrite <- (take_drop_middle set i p Hi) at 1.
  rewrite set_measure_app; simpl. rewrite delete_take_drop, set_measure_app. lia.
Qed.

Lemma set_measure_insert set i p q :
  set !! i = Some p →
  set_measure (<[i := q]> set) = set_measure set - part_measure p.2 + part_measure q.2.
Proof.
  intros Hi. rewrite insert_take_drop by (by eapply lookup_lt_Some).
  rewrite <- (take_drop_middle set i p Hi) at 3.
  rewrite !set_measure_app; simpl. lia.
Qed.

Lemma retry_step_decreases rst inp sh rst' sh' :
  retry_ok rst → transfer_chunk_with_retry_step M rst inp sh = Some (rst', sh') →
  0 ≤ retry_measure M rst' < retry_measure M rst
  ∧ (retry_ok rst' ∨ ∃ r, rst' = RetryReturned r).
Proof.
  intros Ha Hs. split.
  - eapply retry_step_measure; [|done]. destruct rst; simpl in *; lia || done.
  - destruct rst as [a|a|a d|], inp as [|[]| |]; simpl in Hs; try done;
      repeat case_match; simplify_eq; simpl in *; eauto; try (left; lia).
    unfold retry_on_error in Hs. repeat (case_match; simplify_eq); zbool; simpl; eauto.
    left. lia.
Qed.

Lemma part_step_decreases off tot st inp sh (b : ParallelMemoryBudget S) st' sh' b' os :
  part_ok (off, st) → part_step rp off tot st inp sh b = Some (st', sh', b', os) →
  part_ok (off, st') ∧ part_measure st' < part_measure st.
Proof.
  intros Hok Hs. unfold part_step in Hs. unfold part_ok in *; simpl in *.
  destruct st as [|rst bytes| |], inp as [|rinp|]; try done; simplify_eq; simpl.
  - repeat case_match; simplify_eq; simpl; split; done || lia.
  - split; [done|lia].
  - destruct (transfer_chunk_with_retry_step _ _ _ _) as [[rst' sh'']|] eqn:Er; [|done].
    destruct (retry_step_decreases _ _ _ _ _ Hok Er) as [Hlt [Hok'|[r ->]]].
    + destruct rst'; simplify_eq; simpl in *; split; done || lia.
    + simplify_eq. simpl in *. split; [done|lia].
  - split; [done|]. destruct rst; simpl in *; try done; lia.
Qed.

Lemma run_part_decreases tot set i inp w set' w' :
  Forall part_ok set → run_part rp tot set i inp w = Some (set', w') →
  Forall part_ok set' ∧ 0 ≤ set_measure set' < set_measure set.
Proof.
  intros Hall Hp. unfold run_part in Hp. destruct (set !! i) as [[off st]|] eqn:Hl; [|done].
  destruct (part_step _ _ _ _ _ _ _) as [[[[st' sh'] b'] os]|] eqn:Es; simplify_eq.
  pose proof (Forall_lookup_1 _ _ _ _ Hall Hl) as Hok.
  destruct (part_step_decreases _ _ _ _ _ _ _ _ _ _ Hok Es) as [Hok' Hlt].
  assert (Forall part_ok (<[i := (off, st')]> set)) as Hall' by (by apply Forall_insert).
  split; [done|]. split; [by apply set_measure_nonneg|].
  rewrite (set_measure_insert _ _ _ _ Hl). simpl. lia.
Qed.

Lemma dispatch_decreases fuel tot win set win' set' :
  win_ok tot win → Forall part_ok set → dispatch_parts fuel win set = (win', set') →
  win_ok tot win' ∧ Forall part_ok set'
  ∧ chunk_weight * (tot - next_dispatch win') + set_measure set'
    ≤ chunk_weight * (tot - next_dispatch win) + set_measure set.
Proof.
  revert win set. induction fuel as [|fuel IH]; intros win set Hw Hall Hd; simpl in Hd;
    [simplify_eq; split_and!; done || lia|].
  destruct (take_dispatch win) as [[off|] w1] eqn:Et.
  - destruct (take_dispatch_inv _ _ _ Et) as (_ & -> & Hlt & ->).
    destruct Hw as (Hn & Ht & <- & Hc). set (n := next_dispatch win) in *.
    assert (n + 1 ≤ Z.min (sat_add U64_MAX n (chunk win)) (total win)) by (unfold sat_add; lia).
    apply IH in Hd as (Hw & Hall' & Hle).
    + split_and!; [done..|]. etrans; [exact Hle|]. simpl. rewrite set_measure_app. simpl.
      unfold chunk_weight. nia.
    + unfold win_ok; simpl. split_and!; try done; lia.
    + apply Forall_app; split; [done|]. repeat constructor.
  - unfold take_dispatch in Et. case_match; simplify_eq. split_and!; done || lia.
Qed.

Definition decreases (w w' : Worker S) : Prop :=
  counters_ok (wk_state w') ∧ 0 ≤ worker_measure (wk_state w') < worker_measure (wk_state w).

Lemma measure_pos w :
  counters_ok (wk_state w) → wk_state w ≠ RgReturned → 1 ≤ worker_measure (wk_state w).
Proof.
  assert (1 ≤ chunk_weight) by (unfold chunk_weight; lia).
  destruct (wk_state w); simpl; intros Hc Hn; unfold U64_MAX in *; try done; try nia.
  - destruct Hc as [Hc Hr]. destruct st; simpl in *; try done; nia.
  - case_match; nia.
  - destruct Hc as [(? & ? & ? & ?) Hall]. pose proof (set_measure_nonneg _ Hall). nia.
  - pose proof (set_measure_nonneg _ Hc). lia.
Qed.

Lemma decreases_finish w0 w os :
  counters_ok (wk_state w0) → wk_state w0 ≠ RgReturned → decreases w0 (finish rp os w).
Proof. intros Hc Hn. split; [done|]. simpl. pose proof (measure_pos _ Hc Hn). lia. Qed.

Ltac dec_tac Est :=
  repeat case_match; simplify_eq; unfold finish_canceled;
  first [ apply decreases_finish; by rewrite Est
        | split; simpl in *; [done || lia|rewrite ?Est; simpl; unfold chunk_weight, U64_MAX in *; nia] ].

Lemma prepare_decreases w a io :
  wk_state w = RgPrepareTop a → 0 ≤ a ≤ Mp → decreases w (prepare_top rp a io w).
Proof. intros Est Ha. unfold prepare_top. dec_tac Est. Qed.

Lemma prepare_error_decreases w a e n io :
  wk_state w = RgPreparing a → 0 ≤ a ≤ Mp → decreases w (prepare_error rp a e n io w).
Proof.
  intros Est Ha. unfold prepare_error, finish_canceled.
  case_match; [apply decreases_finish; by rewrite Est|].
  match goal with |- context [if ?b then _ else _] => destruct b eqn:Eb end;
    [apply decreases_finish; by rewrite Est|].
  zbool. unfold Mp in *. split; simpl; [unfold Mp; lia|]. rewrite Est; simpl. unfold chunk_weight, U64_MAX in *. nia.
Qed.

Lemma after_prepare_decreases w off tot io :
  wk_state w = RgPrepared off tot → counters_ok (RgPrepared off tot) →
  decreases w (after_prepare rp off tot io w).
Proof.
  intros Est Hc. pose proof Hc as [Ho Ht].
  assert (1 ≤ chunk_weight) as Hcw by (unfold chunk_weight; lia).
  unfold after_prepare, parallel_start, parallel_nothing_left.
  destruct (_ && _ && _) eqn:Eg; [|dec_tac Est]. zbool.
  destruct (validate_parallel_part_window _ _ _ _ _ _);
    [|apply decreases_finish; by rewrite Est].
  destruct (tot <=? off) eqn:Et; zbool; [dec_tac Est|].
  destruct (dispatch_all _ _) as [win set] eqn:Ed.
  apply (dispatch_decreases _ tot) in Ed as (Hw & Hall & Hle).
  - split; [done|]. simpl. rewrite Est. simpl in *. pose proof (set_measure_nonneg _ Hall).
    destruct Hw as (? & ? & ? & ?). rewrite Z.min_l in Hle by lia. unfold chunk_weight in *. nia.
  - unfold win_ok; simpl. lia.
  - constructor.
Qed.

Lemma serial_top_decreases w off tot claimed io :
  wk_state w = RgSerialTop off tot claimed → 0 ≤ off ≤ U64_MAX →
  decreases w (serial_top rp off tot claimed io w).
Proof. intros Est Ho. unfold serial_top. dec_tac Est. Qed.

Lemma serial_sent_decreases w off tot claimed o io :
  wk_state w = RgChunkSent off tot claimed o → 0 ≤ off ≤ U64_MAX →
  decreases w (serial_chunk_sent rp off tot claimed o io w).
Proof.
  intros Est Ho. unfold serial_chunk_sent, finish_canceled. destruct (done o) eqn:Ed.
  - repeat case_match; apply decreases_finish; by rewrite Est.
  - repeat case_match; first [ apply decreases_finish; by rewrite Est
      | split; [done|]; rewrite Est; simpl; rewrite Ed; unfold chunk_weight; nia ].
Qed.

Lemma serial_chunk_decreases w off tot claimed rst rinp io w' :
  wk_state w = RgChunk off tot claimed rst → counters_ok (wk_state w) →
  input_fits (InChunk rinp io) → input_advances (wk_state w) (InChunk rinp io) →
  serial_chunk_step rp off tot claimed rst rinp io w = Some w' → decreases w w'.
Proof.
  intros Est Hc Hf Ha Hs. rewrite Est in Hc, Ha. destruct Hc as [Ho Hr].
  unfold serial_chunk_step in Hs.
  destruct (transfer_chunk_with_retry_step _ _ _ _) as [[rst' sh']|] eqn:Er; [|done].
  destruct (retry_step_decreases _ _ _ _ _ Hr Er) as [Hlt Hok].
  destruct Hok as [Hok|[r ->]].
  - destruct rst'; simplify_eq; (split; [done|]); rewrite Est; simpl in *;
      unfold chunk_weight in *; nia.
  - simplify_eq. unfold serial_chunk_result, finish_canceled.
    destruct r as [o| |e]; [|apply decreases_finish; rewrite Est; done..].
    destruct rst as [a|a|a d|], rinp as [|[o'|e'] n| |]; simpl in Er; try done;
      [by case_match|..|by case_match]; simplify_eq.
    + simpl in Hf. destruct Hf as [Hfo _]. unfold fits in Hfo. simpl in Ha.
      split; [done|]. rewrite Est; simpl in *. unfold chunk_weight in *.
      destruct (done o) eqn:Ed; [nia|]. specialize (Ha eq_refl). nia.
    + unfold retry_on_error in Er. repeat case_match; simplify_eq.
Qed.

Lemma join_decreases w tot p i w' :
  wk_state w = RgParallel tot p → counters_ok (wk_state w) →
  join_part rp tot p i w = Some w' → decreases w w'.
Proof.
  intros Est Hc Hj. rewrite Est in Hc. destruct Hc as [Hw Hall]. pose proof Hw as (Hn & Ht & _ & Hch).
  unfold join_part in Hj. destruct (par_set p !! i) as [[off st]|] eqn:Hl; [|done].
  pose proof (set_measure_delete _ _ _ Hl) as Hm.
  pose proof (part_measure_pos _ (Forall_lookup_1 _ _ _ _ Hall Hl)) as Hp1.
  assert (Forall part_ok (delete i (par_set p))) as Hall' by (by apply Forall_delete).
  pose proof (set_measure_nonneg _ Hall') as Hnn.
  assert (1 ≤ chunk_weight) as Hcw by (unfold chunk_weight; lia).
  destruct st as [| |[o| |e]|]; simplify_eq; simpl in Hm, Hp1;
    try (split; [done|]; rewrite Est; simpl; nia).
  unfold join_done. destruct (on_done _ _) as [r win] eqn:Ed.
  assert (win_ok tot win ∧ next_dispatch win = next_dispatch (par_window p)) as [Hw' Hnd].
  { unfold on_done in Ed. repeat case_match; simplify_eq; split; done. }
  destruct (if negb _ && _ then _ else _) as [win' set'] eqn:Edis.
  assert (win_ok tot win' ∧ Forall part_ok set'
    ∧ chunk_weight * (tot - next_dispatch win') + set_measure set'
      ≤ chunk_weight * (tot - next_dispatch win) + set_measure (delete i (par_set p)))
    as (Hw'' & Hall'' & Hle).
  { case_match; [by eapply dispatch_decreases|]. simplify_eq. split_and!; done || lia. }
  pose proof (set_measure_nonneg _ Hall''). destruct Hw'' as (? & ? & ? & ?).
  split; [done|]. rewrite Est; simpl. rewrite Hnd in Hle. nia.
Qed.

Lemma panicked_decreases join_err w :
  counters_ok (wk_state w) → wk_state w ≠ RgReturned → decreases w (run_panicked rp join_err w).
Proof. intros Hc Hn. split; [done|]. simpl. pose proof (measure_pos _ Hc Hn). lia. Qed.

Lemma answers_decrease w tot r v io :
  counters_ok (wk_state w) → wk_state w ≠ RgReturned →
  decreases w (complete_answer rp tot r io w) ∧ decreases w (finalize_answer rp tot r io w)
  ∧ decreases w (validate_answer rp tot v w).
Proof.
  intros Hc Hn. unfold complete_answer, finalize_answer, validate_answer.
  split_and!; repeat case_match; by apply decreases_finish.
Qed.

Lemma parallel_finish_decreases w tot p io :
  wk_state w = RgParallel tot p → counters_ok (wk_state w) → decreases w (parallel_finish rp tot p io w).
Proof.
  intros Est Hc. unfold parallel_finish, finish_canceled.
  repeat case_match; first [ apply decreases_finish; by rewrite ?Est in * | split; [done|] ].
  rewrite Est in *. simpl in *. destruct Hc as [(? & ? & ? & ?) Hall].
  pose proof (set_measure_nonneg _ Hall). unfold chunk_weight. nia.
Qed.

Lemma parts_decrease tot set set' w w' :
  Forall part_ok set' → 0 ≤ set_measure set' < set_measure set →
  (∀ p, wk_state w = RgParallel tot p → par_set p = set → counters_ok (wk_state w) →
     decreases w (goto (RgParallel tot
       (mkParState (par_window p) set' (par_cancelled p) (par_failed p))) w'))
  ∧ (∀ e, wk_state w = RgDraining tot e set → decreases w (goto (RgDraining tot e set') w')).
Proof.
  intros Hall Hlt. split.
  - intros p Est Hset Hc. rewrite Est in Hc. destruct Hc as [Hw _]. split; [done|].
    rewrite Est; simpl. rewrite Hset. destruct Hw as (? & ? & ? & ?). unfold chunk_weight. nia.
  - intros e Est. split; [done|]. rewrite Est; simpl. lia.
Qed.

Lemma run_group_step_decreases inp w w' :
  counters_ok (wk_state w) → input_fits inp → input_advances (wk_state w) inp →
  run_group_step rp inp w = Some w' → decreases w w'.
Proof.
  intros Hc Hf Ha Hs.
  assert (wk_state w ≠ RgReturned) as Hnr.
  { intros E. unfold run_group_step in Hs. by rewrite E in Hs. }
  unfold run_group_step in Hs. destruct (wk_state w) eqn:Est, inp; try discriminate Hs;
    try (injection Hs as <-; by apply panicked_decreases; rewrite Est); rewrite <- Est in Hc, Ha, Hnr.
  - injection Hs as <-. apply prepare_decreases; [done|by rewrite Est in Hc].
  - rewrite Est in Hc. case_match; injection Hs as <-; [|by apply prepare_error_decreases].
    destruct Hf as [Hf1 Hf2]. unfold fits in *. split; simpl; [case_match; lia|].
    rewrite Est; simpl. simpl in Hc. unfold chunk_weight, U64_MAX; nia.
  - injection Hs as <-. rewrite Est in Hc. simpl in Hc. split; simpl; [lia|]. rewrite Est; simpl.
    unfold chunk_weight, U64_MAX. nia.
  - case_match; simplify_eq. by apply decreases_finish.
  - injection Hs as <-. apply after_prepare_decreases; [done|by rewrite <- Est].
  - injection Hs as <-. apply serial_top_decreases; [done|by rewrite Est in Hc].
  - by eapply serial_chunk_decreases.
  - injection Hs as <-. apply serial_sent_decreases; [done|by rewrite Est in Hc].
  - injection Hs as <-. by apply (answers_decrease _ _ _ (Ok tt)).
  - injection Hs as <-. by apply (answers_decrease _ _ (Ok None) _ (mkCleanupIo (Ok tt) (Ok tt) (Ok tt))).
  - case_match; simplify_eq. by apply parallel_finish_decreases.
  - destruct (run_part _ _ _ _ _ _) as [[set' w1]|] eqn:Er; simplify_eq.
    pose proof Hc as Hc'. rewrite Est in Hc'. destruct Hc' as [Hw Hall].
    destruct (run_part_decreases _ _ _ _ _ _ _ Hall Er) as [Hall' Hlt].
    by apply (parts_decrease known_total (par_set p) set').
  - by eapply join_decreases.
  - case_match; simplify_eq. by apply decreases_finish.
  - destruct (run_part _ _ _ _ _ _) as [[set' w1]|] eqn:Er; simplify_eq.
    pose proof Hc as Hall. rewrite Est in Hall.
    destruct (run_part_decreases _ _ _ _ _ _ _ Hall Er) as [Hall' Hlt].
    by apply (parts_decrease known_total set set').
  - pose proof Hc as Hall. rewrite Est in Hall. simpl in Hall.
    unfold drain_join in Hs. destruct (set !! i) as [[off st]|] eqn:Hl; [|done].
    pose proof (set_measure_delete _ _ _ Hl) as Hm.
    pose proof (part_measure_pos _ (Forall_lookup_1 _ _ _ _ Hall Hl)).
    assert (Forall part_ok (delete i set)) as Hall' by (by apply Forall_delete).
    pose proof (set_measure_nonneg _ Hall'). simpl in *.
    destruct st; simplify_eq; apply (parts_decrease known_total set (delete i set)); done || lia.
  - injection Hs as <-. by apply (answers_decrease _ _ _ (Ok tt)).
Qed.

(** A run whose backend advances; [n] counts the inputs consumed. *)
Inductive advancing_run : Worker S → nat → Worker S → Prop :=
| run_refl w : advancing_run w 0 w
| run_input inp w w' w'' n :
    input_fits inp → input_advances (wk_state w) inp → run_group_step rp inp w = Some w' →
    advancing_run w' n w'' → advancing_run w (Datatypes.S n) w''
| run_control a w w'' n :
    advancing_run (with_shared (control a (wk_shared w)) w) n w'' → advancing_run w n w''
| run_budget b w w'' n :
    limit_bytes b = limit_bytes (wk_budget w) →
    advancing_run (with_budget b w) n w'' → advancing_run w n w''.

Lemma advancing_run_bound w n w' :
  counters_ok (wk_state w) → 0 ≤ worker_measure (wk_state w) → advancing_run w n w' →
  counters_ok (wk_state w')
  ∧ 0 ≤ worker_measure (wk_state w') ≤ worker_measure (wk_state w) - Z.of_nat n.
Proof.
  intros Hc H0 Hr. induction Hr as [w|inp w w1 w2 n Hf Ha Hs Hr IH|a w w2 n Hr IH|b w w2 n Hb Hr IH];
    simpl in *; [split; [done|lia]| |auto..].
  destruct (run_group_step_decreases _ _ _ Hc Hf Ha Hs) as [Hc1 Hd].
  destruct IH as [Hc2 Hd2]; [done|lia|]. split; [done|lia].
Qed.

Lemma counters_init sh (b : ParallelMemoryBudget S) :
  counters_ok (wk_state (worker_init sh b)) ∧ 0 ≤ worker_measure (wk_state (worker_init sh b)).
Proof. simpl. unfold chunk_weight, U64_MAX. split; [lia|nia]. Qed.

(** Some part waits for its memory permit, and no part can do anything else. *)
Definition waiting_for_memory (w : Worker S) : Prop :=
  ∃ tot set, match wk_state w with
             | RgParallel tot' p => tot' = tot ∧ par_set p = set
             | RgDraining tot' _ set' => tot' = tot ∧ set' = set
             | _ => False
             end
    ∧ set ≠ [] ∧ ∀ off st, (off, st) ∈ set → st = PartSpawned
        ∧ ∃ bytes, part_required_bytes rp off tot = Ok bytes
            ∧ acquire (wk_budget w) bytes (token_cancelled (wk_shared w)) = AcquireWaiting.

Definition is_panic (inp : RgInput) : Prop :=
  match inp with InPanic _ | InPart _ (PiPanic _) => True | _ => False end.

Definition can_go_on (w : Worker S) : Prop :=
  ∃ inp w', ¬ is_panic inp ∧ input_fits inp ∧ input_advances (wk_state w) inp
    ∧ run_group_step rp inp w = Some w'.

Lemma forall_or_lookup {A} (P Q : A → Prop) (l : list A) :
  (∀ x, x ∈ l → P x ∨ Q x) → (∀ x, x ∈ l → P x) ∨ ∃ i x, l !! i = Some x ∧ Q x.
Proof.
  induction l as [|a l IH]; intros H; [left; set_solver|].
  destruct (H a) as [HP|HQ]; [set_solver| |right; by exists 0%nat, a].
  destruct IH as [Hall|(i & x & Hi & HQ)]; [set_solver| |right; by exists (Datatypes.S i), x].
  left. intros x [->|Hx]%elem_of_cons; auto.
Qed.

Definition part_waits (tot : Z) (w : Worker S) (p : Z * PartState) : Prop :=
  p.2 = PartSpawned ∧ ∃ bytes, part_required_bytes rp p.1 tot = Ok bytes
    ∧ acquire (wk_budget w) bytes (token_cancelled (wk_shared w)) = AcquireWaiting.

Definition part_goes_on (tot : Z) (w : Worker S) (p : Z * PartState) : Prop :=
  (∃ r, p.2 = PartDone r) ∨ (∃ e, p.2 = PartPanicked e)
  ∨ ∃ inp r, (∀ e, inp ≠ PiPanic e)
      ∧ part_step rp p.1 tot p.2 inp (wk_shared w) (wk_budget w) = Some r.

Lemma part_enabled tot w p : part_ok p → part_waits tot w p ∨ part_goes_on tot w p.
Proof.
  destruct p as [off [|rst bytes|r|e]]; intros Hok; unfold part_waits, part_goes_on; simpl; eauto.
  - destruct (part_required_bytes rp off tot) as [bytes|e] eqn:Eb;
      [destruct (acquire (wk_budget w) bytes (token_cancelled (wk_shared w))) eqn:Ea|].
    4: left; eauto.
    all: right; right; right; exists PiPoll; simpl; rewrite ?Eb, ?Ea; eauto.
  - right; right; right.
    destruct (retry_step_enabled M rst (wk_shared w)) as [[r ->]|(inp & st' & sh' & Hs)]; [done|].
    exists (PiRetry inp). simpl. fold M. rewrite Hs.
    destruct st'; eexists; split; try done.
Qed.

Lemma parts_enabled tot w set :
  Forall part_ok set → set ≠ [] →
  (∀ off st, (off, st) ∈ set → st = PartSpawned
     ∧ ∃ bytes, part_required_bytes rp off tot = Ok bytes
         ∧ acquire (wk_budget w) bytes (token_cancelled (wk_shared w)) = AcquireWaiting)
  ∨ (∃ i off r, set !! i = Some (off, PartDone r)) ∨ (∃ i off e, set !! i = Some (off, PartPanicked e))
  ∨ ∃ i inp r, (∀ e, inp ≠ PiPanic e) ∧ run_part rp tot set i inp w = Some r.
Proof.
  intros Hall Hne.
  destruct (forall_or_lookup (part_waits tot w) (part_goes_on tot w) set)
    as [Hw|(i & [off st] & Hi & Hg)].
  - intros p Hp. apply part_enabled. by eapply Forall_forall in Hall.
  - left. intros off st Hin. by apply (Hw (off, st)).
  - right. destruct Hg as [[r Hr]|[[e He]|(inp & [[[st' sh'] b'] os] & Hn & Hs)]]; simpl in *; subst.
    + eauto 10.
    + eauto 10.
    + right; right. exists i, inp. unfold run_part. rewrite Hi, Hs. eauto.
Qed.

Lemma worker_not_stuck w :
  counters_ok (wk_state w) → wk_state w ≠ RgReturned → can_go_on w ∨ waiting_for_memory w.
Proof.
  intros Hc Hn. pose (io := mkCleanupIo (Ok tt) (Ok tt) (Ok tt)).
  pose (o := mkChunkOutcome 0 0 true None).
  assert (∀ inp w', ¬ is_panic inp → input_fits inp → input_advances (wk_state w) inp →
    run_group_step rp inp w = Some w' → can_go_on w ∨ waiting_for_memory w) as Hgo.
  { intros. left. by exists inp, w'. }
  destruct (wk_state w) eqn:Est; try done;
    try (eapply (Hgo (InContinue io)); [tauto|done|done|unfold run_group_step; by rewrite Est]).
  - eapply (Hgo (InPrepare (Err (from_code_str HttpError "")) None io)); [tauto|done|done|].
    unfold run_group_step; by rewrite Est.
  - eapply (Hgo InSleepElapsed); [tauto|done|done|unfold run_group_step; by rewrite Est].
  - destruct Hc as [_ Hr]. destruct st as [a|a|a d|]; [..|done].
    + destruct (token_cancelled (wk_shared w)) eqn:Et;
        (eapply (Hgo (InChunk StartAttempt io)); [tauto|done|done|];
         unfold run_group_step, serial_chunk_step; rewrite Est; simpl; by rewrite Et).
    + eapply (Hgo (InChunk (Answer (Ok o) None) io)); [tauto|by unfold U64_MAX|done|].
      unfold run_group_step, serial_chunk_step; by rewrite Est.
    + eapply (Hgo (InChunk SleepElapsed io)); [tauto|done|done|].
      unfold run_group_step, serial_chunk_step; by rewrite Est.
  - eapply (Hgo (InComplete (Ok None) io)); [tauto|done|done|unfold run_group_step; by rewrite Est].
  - eapply (Hgo (InValidate (Ok tt))); [tauto|done|done|unfold run_group_step; by rewrite Est].
  - destruct Hc as [_ Hall]. destruct (decide (par_set p = [])) as [He|Hne].
    { eapply (Hgo (InContinue io)); [tauto|done|done|unfold run_group_step; by rewrite Est, He]. }
    destruct (parts_enabled known_total w _ Hall Hne)
      as [Hw|[(i & off & r & Hi)|[(i & off & e & Hi)|(i & inp & [set' w'] & Hp & Hr)]]].
    + right. exists known_total, (par_set p). by rewrite Est.
    + destruct r; (eapply (Hgo (InJoin i)); [tauto|done|done|
        unfold run_group_step, join_part; by rewrite Est, Hi]).
    + eapply (Hgo (InJoin i)); [tauto|done|done|unfold run_group_step, join_part; by rewrite Est, Hi].
    + eapply (Hgo (InPart i inp)); [destruct inp; naive_solver|done|done|
        unfold run_group_step; by rewrite Est, Hr].
  - destruct (decide (set = [])) as [->|Hne].
    { eapply (Hgo (InContinue io)); [tauto|done|done|unfold run_group_step; by rewrite Est]. }
    destruct (parts_enabled known_total w _ Hc Hne)
      as [Hw|[(i & off & r & Hi)|[(i & off & e & Hi)|(i & inp & [set' w'] & Hp & Hr)]]].
    + right. exists known_total, set. by rewrite Est.
    + eapply (Hgo (InJoin i)); [tauto|done|done|unfold run_group_step, drain_join; by rewrite Est, Hi].
    + eapply (Hgo (InJoin i)); [tauto|done|done|unfold run_group_step, drain_join; by rewrite Est, Hi].
    + eapply (Hgo (InPart i inp)); [destruct inp; naive_solver|done|done|
        unfold run_group_step; by rewrite Est, Hr].
  - eapply (Hgo (InComplete (Ok None) io)); [tauto|done|done|unfold run_group_step; by rewrite Est].
Qed.
End Termination.

(** ** A concrete run *)

Section Demo.
Context {S : Type} `{!Semaphore S} (rp : RunParams).

Fixpoint run_inputs (ins : list RgInput) (w : Worker S) : option (Worker S) :=
  match ins with
  | [] => Some w
  | inp :: ins => w' ← run_group_step rp inp w; run_inputs ins w'
  end.

Lemma run_inputs_rtc ins w w' :
  Forall input_fits ins → run_inputs ins w = Some w' → rtc (worker_step rp) w w'.
Proof.
  intros Hf. revert w. induction Hf as [|inp ins Hi Hf IH]; intros w Hr; simpl in Hr.
  - simplify_eq. apply rtc_refl.
  - destruct (run_group_step rp inp w) as [w1|] eqn:Es; simpl in Hr; [|done].
    eapply rtc_l; [by eapply worker_input|by apply IH].
Qed.
End Demo.

(** A download of 25 bytes in parts of 10, two at a time; the second part finishes first. *)
Definition demo_task : InnerTask :=
  mkInnerTask 1 "sign" "f.bin" "/tmp/f.bin" None Download 0 10 "http://h/f" 2 0 2.
Definition demo_params : RunParams := mkRunParams (dedupe_key demo_task) demo_task 0 true.
Definition demo_io : CleanupIo := mkCleanupIo (Ok tt) (Ok tt) (Ok tt).
Definition demo_outcome : ChunkOutcome := mkChunkOutcome 25 25 false None.
Definition demo_part (i : nat) : list RgInput :=
  [InPart i PiPoll; InPart i (PiRetry StartAttempt);
   InPart i (PiRetry (Answer (Ok demo_outcome) None)); InJoin i].
Definition demo_inputs : list RgInput :=
  [InContinue demo_io; InPrepare (Ok (mkPrepareOutcome 0 25)) None demo_io; InContinue demo_io]
  ++ demo_part 1 ++ demo_part 0 ++ demo_part 0.
Definition demo_start : Worker Z := worker_init shared_new (with_limit 1000).

Lemma demo_inputs_fit : Forall input_fits demo_inputs.
Proof. repeat constructor; unfold fits, U64_MAX; simpl; lia. Qed.

(** The demo run up to its join barrier, and to the call of [complete]. *)
Definition demo_parallel : option (Worker Z) := run_inputs demo_params demo_inputs demo_start.
Definition demo_completing : option (Worker Z) :=
  run_inputs demo_params (demo_inputs ++ [InContinue demo_io]) demo_start.
Definition demo_completed : option (Worker Z) :=
  run_inputs demo_params
    (demo_inputs ++ [InContinue demo_io; InComplete (Ok None) demo_io]) demo_start.

(** ** Properties *)

(** C4: whatever the backend answers, whatever parts fail or panic, and whenever pause and
    cancel arrive, a worker sends progress events of its own group only and, when it returns,
    has sent exactly one terminal event, as the last one. *)
Theorem one_terminal_event {S} `{!Semaphore S} rp sh (b : ParallelMemoryBudget S) w :
  rtc (worker_step rp) (worker_init sh b) w →
  event_sequence (key rp) (wk_state w = RgReturned) (sends (wk_out w)).
Proof. apply worker_reachable_events. Qed.

Lemma one_terminal_event_witness :
  ∃ w, demo_completed = Some w ∧ wk_state w = RgReturned
    ∧ sends (wk_out w)
      = [EvProgress (Download, "http://h/f"%string) 0 25;
         EvProgress (Download, "http://h/f"%string) 20 25;
         EvProgress (Download, "http://h/f"%string) 25 25;
         EvCompleted (Download, "http://h/f"%string) 25 None]
    ∧ event_sequence (key demo_params) (wk_state w = RgReturned) (sends (wk_out w)).
Proof.
  destruct demo_completed as [w|] eqn:E; [|by vm_compute in E].
  exists w. split; [done|].
  assert (event_sequence (key demo_params) (wk_state w = RgReturned) (sends (wk_out w))) as Hs.
  { eapply (one_terminal_event demo_params shared_new (with_limit 1000) w).
    eapply run_inputs_rtc; [|exact E].
    apply Forall_app; split; [apply demo_inputs_fit|repeat constructor]. }
  vm_compute in E. injection E as <-. by split_and!.
Defined.

(** C9: in the parallel mode the backend's [complete] is called at most once, and only after
    every part of the grid, from the offset reported by prepare to the total, has been
    transferred successfully and joined, with the completion claim held. *)
Theorem complete_once_after_all_parts {S} `{!Semaphore S} rp sh (b : ParallelMemoryBudget S) w :
  fits U64_MAX (total_size (task rp)) →
  rtc (worker_step rp) (worker_init sh b) w →
  (completes (wk_out w) ≤ 1)%nat
  ∧ ∀ tot, wk_state w = RgCompleting tot →
      completion_claimed (lifecycle (wk_shared w))
      ∧ ∃ s, starts_at rp s tot (wk_out w) ∧ all_joined rp s tot (wk_out w).
Proof.
  intros Ht Hr. pose proof (worker_reachable_phase rp _ _ _ Ht Hr) as Hp.
  split; [by eapply phase_completes|]. intros tot Est. unfold phase_ok in Hp. rewrite Est in Hp.
  destruct Hp as (s & H1 & H2 & _ & _ & H5). eauto.
Qed.

Lemma complete_once_after_all_parts_witness :
  ∃ w, demo_completing = Some w ∧ wk_state w = RgCompleting 25
    ∧ completes (wk_out w) = 1%nat
    ∧ ∃ s, starts_at demo_params s 25 (wk_out w) ∧ all_joined demo_params s 25 (wk_out w).
Proof.
  destruct demo_completing as [w|] eqn:E; [|by vm_compute in E].
  exists w. split; [done|].
  assert (wk_state w = RgCompleting 25) as Est by (vm_compute in E; by injection E as <-).
  assert (completes (wk_out w) = 1%nat) as Hc by (vm_compute in E; by injection E as <-).
  split_and!; [done|done|].
  assert (rtc (worker_step demo_params) demo_start w) as Hr.
  { eapply run_inputs_rtc; [|exact E].
    apply Forall_app; split; [apply demo_inputs_fit|repeat constructor]. }
  destruct (complete_once_after_all_parts demo_params shared_new (with_limit 1000) w) as [_ H];
    [unfold fits, U64_MAX; simpl; lia|exact Hr|].
  exact (proj2 (H 25 Est)).
Defined.

(** In the parallel mode the progress offsets are strictly increasing and each one is a
    contiguous prefix: every part of the grid below it has been transferred and joined, so the
    offset a later resume starts from never hides a missing part. *)
Theorem parallel_progress_is_prefix {S} `{!Semaphore S} rp sh (b : ParallelMemoryBudget S) w tot p :
  fits U64_MAX (total_size (task rp)) →
  rtc (worker_step rp) (worker_init sh b) w → wk_state w = RgParallel tot p →
  StronglySorted Z.lt (marks (wk_out w))
  ∧ ∃ s, starts_at rp s tot (wk_out w)
      ∧ ∀ m, m ∈ marks (wk_out w) → m ≤ tot ∧ all_joined rp s m (wk_out w).
Proof.
  intros Ht Hr Est. pose proof (worker_reachable_phase rp _ _ _ Ht Hr) as Hp.
  unfold phase_ok in Hp. rewrite Est in Hp.
  destruct Hp as (s & D & Hs & (Hi & Hnd & Htot & Hc) & HD & [Hso Hle] & _).
  split; [done|]. exists s. split; [done|]. intros m Hm.
  rewrite Forall_forall in Hle. apply Hle in Hm.
  destruct (wi_mark _ _ Hi) as (n & Hn & Hw & Hpre). simpl in *. unfold grid_end in Hw.
  split; [lia|]. intros q j Hj -> Hq. apply HD. rewrite <- Hc. apply Hpre; [|rewrite Hc; lia].
  split; [done|]. rewrite <- Hc in Hq. pose proof (wi_chunk _ _ Hi). simpl in *. nia.
Qed.

Lemma parallel_progress_is_prefix_witness :
  ∃ w p, demo_parallel = Some w ∧ wk_state w = RgParallel 25 p
    ∧ marks (wk_out w) = [0; 20; 25]
    ∧ StronglySorted Z.lt (marks (wk_out w)).
Proof.
  destruct demo_parallel as [w|] eqn:E; [|by vm_compute in E].
  assert (∃ p, wk_state w = RgParallel 25 p) as [p Est]
    by (vm_compute in E; injection E as <-; by eexists).
  assert (marks (wk_out w) = [0; 20; 25]) as Hm by (vm_compute in E; by injection E as <-).
  exists w, p. split_and!; [done|done|done|].
  assert (rtc (worker_step demo_params) demo_start w) as Hr
    by (eapply run_inputs_rtc; [apply demo_inputs_fit|exact E]).
  apply (parallel_progress_is_prefix demo_params shared_new (with_limit 1000) w 25 p);
    [unfold fits, U64_MAX; simpl; lia|exact Hr|done].
Defined.

(** Once a pause or cancel has interrupted the worker, it issues no further prepare,
    chunk or complete request; and unless the last request of the transfer was already
    outstanding at that moment, it never reports completion. *)
Theorem stop_ends_requests {S} `{!Semaphore S} rp (w w' : Worker S) :
  token_cancelled (wk_shared w) = true → stop_effective (lifecycle (wk_shared w)) →
  rtc (worker_step rp) w w' →
  ∃ os, wk_out w' = wk_out w ++ os
    ∧ Forall (λ o, is_request o = false) os
    ∧ (finishing (wk_state w) = false → Forall (λ o, is_completed o = false) os).
Proof. intros Ht Hs. apply stopping_run. split; [done|by left]. Qed.

Lemma stop_ends_requests_witness :
  ∃ w w' os,
    run_inputs demo_params (take 5 demo_inputs) demo_start = Some w
    ∧ let wp := with_shared (control CtlPause (wk_shared w)) w in
      rtc (worker_step demo_params) wp w'
      ∧ wk_state w' = RgReturned ∧ wk_out w' = wk_out wp ++ os
      ∧ Forall (λ o, is_request o = false) os.
Proof.
  pose (ins := [InPart 1 (PiRetry (Answer (Err (from_code_str HttpError "reset"%string)) None));
                InPart 0 PiPoll; InJoin 1; InJoin 0; InContinue demo_io]).
  destruct (run_inputs demo_params (take 5 demo_inputs) demo_start) as [w|] eqn:E;
    [|by vm_compute in E].
  pose (wp := with_shared (control CtlPause (wk_shared w)) w).
  destruct (run_inputs demo_params ins wp) as [w'|] eqn:E';
    [|vm_compute in E; injection E as <-; by vm_compute in E'].
  assert (token_cancelled (wk_shared wp) = true ∧ stop_effective (lifecycle (wk_shared wp)))
    as [Ht Hst].
  { clear E'. vm_compute in E. injection E as <-. split; [done|]. by left. }
  assert (wk_state w' = RgReturned) as Hret.
  { vm_compute in E. injection E as <-. vm_compute in E'. by injection E' as <-. }
  assert (rtc (worker_step demo_params) wp w') as Hr
    by (eapply run_inputs_rtc; [|exact E']; repeat constructor).
  destruct (stop_ends_requests demo_params wp w' Ht Hst Hr) as (os & Ho & Hreq & _).
  exists w, w', os. by split_and!.
Defined.

(** C31: a worker whose backend makes progress (a chunk that does not finish the transfer moves
    the offset forward) always returns: the number of inputs it can consume is bounded, and
    until it returns it can consume one, or all its parts are waiting for memory held by other
    transfers of the client. *)
Theorem worker_terminates {S} `{!Semaphore S} rp sh (b : ParallelMemoryBudget S) n w :
  0 ≤ max_chunk_retries (task rp) → 0 ≤ max_prep_retries rp →
  fits U64_MAX (total_size (task rp)) →
  advancing_run rp (worker_init sh b) n w →
  Z.of_nat n ≤ worker_measure rp (RgPrepareTop 0)
  ∧ (wk_state w = RgReturned ∨ can_go_on rp w ∨ waiting_for_memory rp w).
Proof.
  intros HM HMp Ht Hr.
  destruct (counters_init rp HM HMp sh b) as [Hc H0].
  destruct (advancing_run_bound rp HM Ht _ _ _ Hc H0 Hr) as [Hc' Hb].
  split; [simpl in *; lia|].
  assert (wk_state w = RgReturned ∨ wk_state w ≠ RgReturned) as [?|Hn]
    by (destruct (wk_state w); auto); [by left|right].
  by apply worker_not_stuck.
Qed.

Lemma worker_terminates_witness :
  ∃ w, run_inputs demo_params (take 2 demo_inputs) demo_start = Some w
    ∧ Z.of_nat 2 ≤ worker_measure demo_params (RgPrepareTop 0)
    ∧ (wk_state w = RgReturned ∨ can_go_on demo_params w ∨ waiting_for_memory demo_params w).
Proof.
  destruct (run_inputs demo_params (take 2 demo_inputs) demo_start) as [w|] eqn:E;
    [|by vm_compute in E].
  exists w. split; [done|].
  apply (worker_terminates demo_params shared_new (with_limit 1000) 2 w);
    [simpl; lia|simpl; unfold max_prep_retries; simpl; lia|unfold fits, U64_MAX; simpl; lia|].
  eapply (run_input _ (InContinue demo_io)); [done|done|reflexivity|].
  eapply (run_input _ (InPrepare (Ok (mkPrepareOutcome 0 25)) None demo_io));
    [unfold input_fits, fits, U64_MAX; simpl; lia|done|reflexivity|].
  vm_compute in E. injection E as <-. apply run_refl.
Defined.
