(* ===== verification/Scheduler.v ===== *)
(** * The scheduler

    The state of [src/inner/scheduler_state.rs] and everything that changes it: starting queued
    groups ([try_start_next] of [exec_impl/exec.rs]), the worker events
    ([exec_impl/handle_worker_event.rs], [handle_quiescent_worker_event] of [executor.rs]), the
    control operations on a group ([pause_group], [resume_group], [cancel_group]) and the
    commands of the worker loop ([src/inner/executor.rs]), with the status emission of
    [exec_impl/emit.rs].

    The scheduler is one task: an operation is a function on the [World], which holds the
    scheduler's own state, the state it shares with the workers (the lifecycle of every task,
    the cancelled tokens) and the trace of its effects: the callback jobs submitted, the workers
    spawned, the aborts asked of the backend, the answers to commands. *)
From S2P Require Import Prelude Errors Lifecycle Records.
#[local] Open Scope Z_scope.

(** ** State *)

Record SchedulerState := mkScheduler {
  max_upload_concurrency : Z;
  max_download_concurrency : Z;
  (** the registered global listeners, [None] when their lock is poisoned *)
  global_progress_listener : option (list Z);
  groups : gmap UniqueId GroupState;
  task_id_to_dedupe : gmap TaskId UniqueId;
  queued : list UniqueId;
  queued_set : gset UniqueId;
  paused_set : gset UniqueId;
  (** the running groups, with the identity of their cancellation token *)
  active : gmap UniqueId Z;
  canceling_set : gset UniqueId;
  active_uploads : Z;
  active_downloads : Z;
  offsets : gmap UniqueId Z;
  known_totals : gmap UniqueId Z;
  (** whether the callback dispatcher is still there *)
  cb_submit : bool;
}.

(** A job for the callback dispatcher. *)
Inductive CbJob :=
| ProgressJob (cb : Z) (dto : FileTransferRecord)
| CompleteJob (cb : Z) (tid : TaskId) (payload : option string).

Inductive Effect :=
| StatusLine (tid : TaskId) (status : TransferStatus) (transferred total : Z)
| Submit (job : CbJob)
| SpawnWorker (key : UniqueId) (t : InnerTask) (token start_offset : Z)
| ExecutorCancel (tid : TaskId)
| ReleaseHandle (tid : TaskId)
| Respond (r : result unit MeowError)
| RespondSnapshot (s : TransferSnapshot)
| DispatcherShutdown.

Record World := mkWorld {
  sched : SchedulerState;
  lifecycles : gmap TaskId TransferLifecycle;
  cancelled_tokens : gset Z;
  next_token : Z;
  trace : list Effect;
}.

Definition scheduler_new (max_up max_down : Z) (listeners : option (list Z)) : SchedulerState :=
  mkScheduler max_up max_down listeners ∅ ∅ [] ∅ ∅ ∅ ∅ 0 0 ∅ ∅ true.

(** ** Field updates *)

Definition set_groups g s :=
  mkScheduler (max_upload_concurrency s) (max_download_concurrency s) (global_progress_listener s)
    g (task_id_to_dedupe s) (queued s) (queued_set s) (paused_set s) (active s) (canceling_set s)
    (active_uploads s) (active_downloads s) (offsets s) (known_totals s) (cb_submit s).
Definition set_task_ids m s :=
  mkScheduler (max_upload_concurrency s) (max_download_concurrency s) (global_progress_listener s)
    (groups s) m (queued s) (queued_set s) (paused_set s) (active s) (canceling_set s)
    (active_uploads s) (active_downloads s) (offsets s) (known_totals s) (cb_submit s).
Definition set_queue q qs s :=
  mkScheduler (max_upload_concurrency s) (max_download_concurrency s) (global_progress_listener s)
    (groups s) (task_id_to_dedupe s) q qs (paused_set s) (active s) (canceling_set s)
    (active_uploads s) (active_downloads s) (offsets s) (known_totals s) (cb_submit s).
Definition set_paused p s :=
  mkScheduler (max_upload_concurrency s) (max_download_concurrency s) (global_progress_listener s)
    (groups s) (task_id_to_dedupe s) (queued s) (queued_set s) p (active s) (canceling_set s)
    (active_uploads s) (active_downloads s) (offsets s) (known_totals s) (cb_submit s).
Definition set_active a up down s :=
  mkScheduler (max_upload_concurrency s) (max_download_concurrency s) (global_progress_listener s)
    (groups s) (task_id_to_dedupe s) (queued s) (queued_set s) (paused_set s) a (canceling_set s)
    up down (offsets s) (known_totals s) (cb_submit s).
Definition set_canceling c s :=
  mkScheduler (max_upload_concurrency s) (max_download_concurrency s) (global_progress_listener s)
    (groups s) (task_id_to_dedupe s) (queued s) (queued_set s) (paused_set s) (active s) c
    (active_uploads s) (active_downloads s) (offsets s) (known_totals s) (cb_submit s).
Definition set_offsets_totals o k s :=
  mkScheduler (max_upload_concurrency s) (max_download_concurrency s) (global_progress_listener s)
    (groups s) (task_id_to_dedupe s) (queued s) (queued_set s) (paused_set s) (active s)
    (canceling_set s) (active_uploads s) (active_downloads s) o k (cb_submit s).
Definition take_cb_submit s :=
  mkScheduler (max_upload_concurrency s) (max_download_concurrency s) (global_progress_listener s)
    (groups s) (task_id_to_dedupe s) (queued s) (queued_set s) (paused_set s) (active s)
    (canceling_set s) (active_uploads s) (active_downloads s) (offsets s) (known_totals s) false.

(** Apply an update to the scheduler's own state, append effects. *)
Definition upd (f : SchedulerState → SchedulerState) (w : World) : World :=
  mkWorld (f (sched w)) (lifecycles w) (cancelled_tokens w) (next_token w) (trace w).
Definition effect (es : list Effect) (w : World) : World :=
  mkWorld (sched w) (lifecycles w) (cancelled_tokens w) (next_token w) (trace w ++ es).

(** ** [scheduler_state.rs] *)

Definition active_direction_count (s : SchedulerState) (d : Direction) : Z :=
  match d with Upload => active_uploads s | Download => active_downloads s end.

Definition insert_active (key : UniqueId) (token : Z) (s : SchedulerState) : SchedulerState :=
  let new := match active s !! key with None => 1 | Some _ => 0 end in
  match key.1 with
  | Upload => set_active (<[key := token]> (active s)) (active_uploads s + new) (active_downloads s) s
  | Download => set_active (<[key := token]> (active s)) (active_uploads s) (active_downloads s + new) s
  end.

Definition remove_active (key : UniqueId) (s : SchedulerState) : SchedulerState :=
  let gone := match active s !! key with None => 0 | Some _ => 1 end in
  match key.1 with
  | Upload => set_active (delete key (active s)) (sat_sub (active_uploads s) gone) (active_downloads s) s
  | Download => set_active (delete key (active s)) (active_uploads s) (sat_sub (active_downloads s) gone) s
  end.

Definition clear_active (s : SchedulerState) : SchedulerState := set_active ∅ 0 0 s.

Definition push_queue (key : UniqueId) (s : SchedulerState) : SchedulerState :=
  set_queue (queued s ++ [key]) ({[key]} ∪ queued_set s) s.

(** [queued_mut().retain(|k| k != key)] and the removal from the mirror set. *)
Definition drop_queue (key : UniqueId) (s : SchedulerState) : SchedulerState :=
  set_queue (filter (λ k, k ≠ key) (queued s)) (queued_set s ∖ {[key]}) s.

(** ** Lifecycles and tokens *)

Definition lifecycle_of (w : World) (tid : TaskId) : TransferLifecycle :=
  default lifecycle_new (lifecycles w !! tid).

Definition put_lifecycle (tid : TaskId) (lc : TransferLifecycle) (w : World) : World :=
  mkWorld (sched w) (<[tid := lc]> (lifecycles w)) (cancelled_tokens w) (next_token w) (trace w).

Definition begin_terminal_pause (t : InnerTask) (w : World) : StopRequestDisposition * World :=
  let '(d, lc) := begin_pause (lifecycle_of w (task_id t)) in (d, put_lifecycle (task_id t) lc w).

Definition begin_terminal_cancel (t : InnerTask) (w : World) : StopRequestDisposition * World :=
  let '(d, lc) := begin_cancel (lifecycle_of w (task_id t)) in (d, put_lifecycle (task_id t) lc w).

Definition reset_terminal_pause (t : InnerTask) (w : World) : World :=
  put_lifecycle (task_id t) (reset_pause (lifecycle_of w (task_id t))) w.

(** [if let Some(active) = state.active().get(key) { active.cancel().cancel() }] *)
Definition cancel_worker_token (key : UniqueId) (w : World) : World :=
  match active (sched w) !! key with
  | Some token =>
      mkWorld (sched w) (lifecycles w) ({[token]} ∪ cancelled_tokens w) (next_token w) (trace w)
  | None => w
  end.

(** ** [emit.rs] *)

Definition invoke_progress_cb (cb : Z) (dto : FileTransferRecord) (w : World) : World :=
  if cb_submit (sched w) then effect [Submit (ProgressJob cb dto)] w else w.

Definition invoke_complete_cb (cb : Z) (tid : TaskId) (payload : option string) (w : World) : World :=
  if cb_submit (sched w) then effect [Submit (CompleteJob cb tid payload)] w else w.

Definition emit_global_progress (dto : FileTransferRecord) (w : World) : World :=
  match global_progress_listener (sched w) with
  | Some listeners => fold_left (λ w cb, invoke_progress_cb cb dto w) listeners w
  | None => w
  end.

Definition effective_total (s : SchedulerState) (key : UniqueId) (t : InnerTask) : Z :=
  match known_totals s !! key with
  | Some v => if 0 <? v then v else total_size t
  | None => total_size t
  end.

Definition emit_status (e : RecordEntry) (status : TransferStatus) (transferred total : Z)
    (w : World) : World :=
  let dto := to_record_inner (inner e) status transferred total in
  let w := effect [StatusLine (task_id (inner e)) status transferred total] w in
  let w := match progress_cb (callbacks e) with
           | Some cb => invoke_progress_cb cb dto w
           | None => w
           end in
  emit_global_progress dto w.

Definition current_offset (s : SchedulerState) (key : UniqueId) : Z := default 0 (offsets s !! key).

(** ** [try_start_next] *)

Definition can_start_direction (s : SchedulerState) (d : Direction) : bool :=
  match d with
  | Upload => active_direction_count s d <? max_upload_concurrency s
  | Download => active_direction_count s d <? max_download_concurrency s
  end.

(** Start a group whose turn has come: status, token, worker. *)
Definition start_group (key : UniqueId) (g : GroupState) (w : World) : World :=
  let current := current_offset (sched w) key in
  let start_total := effective_total (sched w) key (inner (entry g)) in
  let w :=
    if bool_decide (key.1 = Download) && (start_total =? 0) then w
    else emit_status (entry g) Transmission current start_total w in
  let token := next_token w in
  let w := mkWorld (insert_active key token (sched w)) (lifecycles w) (cancelled_tokens w)
             (token + 1) (trace w) in
  effect [SpawnWorker key (leader_inner g) token (current_offset (sched w) key)] w.

(** One iteration of the inner loop: take the front key, requeue it or start it. *)
Definition start_one (w : World) : World * list UniqueId :=
  match queued (sched w) with
  | [] => (w, [])
  | key :: rest =>
      let w := upd (set_queue rest (queued_set (sched w) ∖ {[key]})) w in
      if bool_decide (key ∈ paused_set (sched w)) then (upd (push_queue key) w, [])
      else if bool_decide (is_Some (active (sched w) !! key)) then (upd (push_queue key) w, [])
      else
        match groups (sched w) !! key with
        | None => (w, [])
        | Some g =>
            if negb (can_start_direction (sched w) key.1) then (upd (push_queue key) w, [])
            else (start_group key g w, [key])
        end
  end.

Fixpoint start_round (n : nat) (w : World) : World * list UniqueId :=
  match n with
  | O => (w, [])
  | S n =>
      let '(w, started) := start_one w in
      let '(w, started') := start_round n w in
      (w, started ++ started')
  end.

(** The outer loop runs rounds until one of them starts nothing. Every round but the last
    starts a group and so shortens the queue: one more round than queued keys is enough
    ([try_start_loop_blocked]). *)
Fixpoint try_start_loop (fuel : nat) (w : World) : World * list UniqueId :=
  match fuel with
  | O => (w, [])
  | S fuel =>
      match queued (sched w) with
      | [] => (w, [])
      | _ =>
          let '(w, started) := start_round (length (queued (sched w))) w in
          match started with
          | [] => (w, [])
          | _ => let '(w, started') := try_start_loop fuel w in (w, started ++ started')
          end
      end
  end.

Definition try_start_next (w : World) : World * list UniqueId :=
  try_start_loop (S (length (queued (sched w)))) w.

(** ** [handle_worker_event] *)

Definition forget_progress (key : UniqueId) (s : SchedulerState) : SchedulerState :=
  set_offsets_totals (delete key (offsets s)) (delete key (known_totals s)) s.

Definition on_progress (key : UniqueId) (next_offset total_size : Z) (w : World) : World :=
  match groups (sched w) !! key with
  | Some g =>
      let w := upd (λ s, set_offsets_totals (<[key := next_offset]> (offsets s))
                 (if 0 <? total_size then <[key := total_size]> (known_totals s)
                  else known_totals s) s) w in
      let total := Z.max total_size (effective_total (sched w) key (inner (entry g))) in
      if bool_decide (key ∈ canceling_set (sched w)) then w
      else emit_status (entry g) Transmission next_offset total w
  | None => w
  end.

(** Shared beginning of the terminal arms: the group is no longer running or canceling. *)
Definition retire (key : UniqueId) (w : World) : World :=
  upd (λ s, remove_active key (set_canceling (canceling_set s ∖ {[key]}) s)) w.

Definition unpause (key : UniqueId) (w : World) : World :=
  upd (λ s, set_paused (paused_set s ∖ {[key]}) s) w.

(** Remove the group and its task id. *)
Definition remove_group (key : UniqueId) (g : GroupState) (w : World) : World :=
  upd (λ s, set_task_ids (delete (task_id (leader_inner g)) (task_id_to_dedupe s))
              (set_groups (delete key (groups s)) s)) w.

Definition on_completed (key : UniqueId) (total_size : Z) (payload : option string) (w : World) : World :=
  let w := unpause key (retire key w) in
  let w := upd (λ s, set_offsets_totals (<[key := total_size]> (offsets s)) (known_totals s) s) w in
  let w :=
    match groups (sched w) !! key with
    | Some g =>
        let w := remove_group key g w in
        let total := Z.max total_size (effective_total (sched w) key (inner (entry g))) in
        let w := emit_status (entry g) Complete total total w in
        match complete_cb (callbacks (entry g)) with
        | Some cb => invoke_complete_cb cb (task_id (inner (entry g))) payload w
        | None => w
        end
    | None => w
    end in
  upd (forget_progress key) w.

Definition on_failed (key : UniqueId) (error : MeowError) (total_size : Z) (w : World) : World :=
  let w := unpause key (retire key w) in
  let w :=
    match groups (sched w) !! key with
    | Some g =>
        let w := remove_group key g w in
        let total := Z.max total_size (effective_total (sched w) key (inner (entry g))) in
        emit_status (entry g) (StatusFailed error) (current_offset (sched w) key) total w
    | None => w
    end in
  upd (forget_progress key) w.

Definition on_canceled (key : UniqueId) (total_size : Z) (w : World) : World :=
  let was_canceling := bool_decide (key ∈ canceling_set (sched w)) in
  let w := retire key w in
  if bool_decide (key ∈ paused_set (sched w)) && negb was_canceling then
    match groups (sched w) !! key with
    | Some g =>
        let w := reset_terminal_pause (leader_inner g) w in
        let total := Z.max total_size (effective_total (sched w) key (inner (entry g))) in
        emit_status (entry g) Paused (current_offset (sched w) key) total w
    | None => w
    end
  else
    let w := unpause key w in
    let w :=
      match groups (sched w) !! key with
      | Some g =>
          let w := remove_group key g w in
          let total := Z.max total_size (effective_total (sched w) key (inner (entry g))) in
          emit_status (entry g) Canceled (current_offset (sched w) key) total w
      | None => w
      end in
    upd (forget_progress key) w.

Definition handle_worker_event (ev : WorkerEvent) (w : World) : World :=
  match ev with
  | EvProgress key next_offset total_size => on_progress key next_offset total_size w
  | EvCompleted key total_size payload => on_completed key total_size payload w
  | EvFailed key error total_size => on_failed key error total_size w
  | EvCanceled key total_size => on_canceled key total_size w
  end.

(** ** [handle_quiescent_worker_event] *)

(** Release of the shared upload descriptor at a terminal event. *)
Definition release_snapshot_handle (ev : WorkerEvent) (w : World) : World :=
  if may_change_scheduler_readiness ev then
    match groups (sched w) !! event_key ev with
    | Some g =>
        match snapshot_scratch (leader_inner g) with
        | Some _ => effect [ReleaseHandle (task_id (leader_inner g))] w
        | None => w
        end
    | None => w
    end
  else w.

(** The provider abort of a canceled upload, once its worker is quiet. *)
Definition abort_quiescent_upload (ev : WorkerEvent) (w : World) : World :=
  match ev with
  | EvCanceled key _ | EvFailed key _ _ =>
      if bool_decide (key.1 = Upload) && bool_decide (key ∈ canceling_set (sched w)) then
        match groups (sched w) !! key with
        | Some g => effect [ExecutorCancel (task_id (leader_inner g))] w
        | None => w
        end
      else w
  | _ => w
  end.

Definition handle_quiescent_worker_event (ev : WorkerEvent) (w : World) : World :=
  handle_worker_event ev (abort_quiescent_upload ev (release_snapshot_handle ev w)).

(** ** Control of one group *)

Definition pause_group (key : UniqueId) (w : World) : result unit MeowError * World :=
  let was_active := bool_decide (is_Some (active (sched w) !! key)) in
  let '(disposition, w) :=
    if was_active then
      match groups (sched w) !! key with
      | Some g => begin_terminal_pause (leader_inner g) w
      | None => (InterruptNow, w)
      end
    else (InterruptNow, w) in
  let w := match disposition with
           | InterruptNow => cancel_worker_token key w
           | DeferredUntilRequestReturns => w
           end in
  let w := upd (drop_queue key) w in
  let w := upd (λ s, set_paused ({[key]} ∪ paused_set s) s) w in
  let w :=
    if was_active then w
    else
      match groups (sched w) !! key with
      | Some g =>
          emit_status (entry g) Paused (current_offset (sched w) key)
            (effective_total (sched w) key (inner (entry g))) w
      | None => w
      end in
  (Ok tt, w).

Definition invalid_state (msg : string) : MeowError := from_code InvalidTaskState msg.

Definition resume_group (key : UniqueId) (w : World) : result unit MeowError * World :=
  if negb (bool_decide (key ∈ paused_set (sched w))) then
    (Err (invalid_state "resume target is not paused"), w)
  else if bool_decide (is_Some (active (sched w) !! key)) then
    (Err (invalid_state "resume target is still stopping, retry later"), w)
  else
    let w := unpause key w in
    match groups (sched w) !! key with
    | None => (Err (invalid_state "resume target group missing"), w)
    | Some g =>
        let w := emit_status (entry g) Pending (current_offset (sched w) key)
                   (effective_total (sched w) key (inner (entry g))) w in
        let w :=
          if negb (bool_decide (is_Some (active (sched w) !! key)))
             && negb (bool_decide (key ∈ queued_set (sched w)))
          then upd (push_queue key) w else w in
        (Ok tt, w)
    end.

Definition cancel_group (key : UniqueId) (w : World) : result unit MeowError * World :=
  let was_active := bool_decide (is_Some (active (sched w) !! key)) in
  let w :=
    if was_active then
      let '(disposition, w) :=
        match groups (sched w) !! key with
        | Some g => begin_terminal_cancel (leader_inner g) w
        | None => (InterruptNow, w)
        end in
      match disposition with
      | InterruptNow => cancel_worker_token key w
      | DeferredUntilRequestReturns => w
      end
    else w in
  let w := upd (drop_queue key) w in
  let w := unpause key w in
  if was_active then
    let w := upd (λ s, set_canceling ({[key]} ∪ canceling_set s) s) w in
    let w :=
      match groups (sched w) !! key with
      | Some g =>
          upd (λ s, set_task_ids (delete (task_id (leader_inner g)) (task_id_to_dedupe s)) s) w
      | None => w
      end in
    (Ok tt, w)
  else
    let w :=
      match groups (sched w) !! key with
      | Some g =>
          let w := upd (λ s, set_groups (delete key (groups s)) s) w in
          let w := snd (begin_terminal_cancel (leader_inner g) w) in
          let w := effect [ExecutorCancel (task_id (leader_inner g))] w in
          let w := upd (λ s, set_task_ids
                     (delete (task_id (leader_inner g)) (task_id_to_dedupe s)) s) w in
          let w := emit_status (entry g) Canceled (current_offset (sched w) key)
                     (effective_total (sched w) key (inner (entry g))) w in
          upd (forget_progress key) w
      | None => w
      end in
    (Ok tt, upd (λ s, set_canceling (canceling_set s ∖ {[key]}) s) w).

(** ** Commands *)

Inductive TransferCmd :=
| CmdEnqueue (t : InnerTask) (cbs : TaskCallbacks)
| CmdEnqueuePaused (t : InnerTask) (cbs : TaskCallbacks)
| CmdPause (tid : TaskId)
| CmdResume (tid : TaskId)
| CmdCancel (tid : TaskId)
| CmdSnapshot.

(** [TaskId] prints as its number, with [{:?}] too. *)
Definition task_not_found_error (tid : TaskId) : MeowError :=
  from_code TaskNotFound ("task not found: " +:+ pretty tid)%string.

(** The refusal of a second task with the key of a live group. *)
Definition reject_duplicate (existing : GroupState) (cbs : TaskCallbacks) (w : World) : World :=
  let leader := leader_inner existing in
  let dup_dto :=
    to_record_inner leader (StatusFailed (from_code1 DuplicateTaskError)) 0 (total_size leader) in
  let w := match progress_cb cbs with
           | Some cb => invoke_progress_cb cb dup_dto w
           | None => w
           end in
  emit_global_progress dup_dto w.

Definition register_group (t : InnerTask) (cbs : TaskCallbacks) (w : World) : World :=
  upd (λ s, set_groups (<[dedupe_key t := mkGroupState t (mkRecordEntry t cbs)]> (groups s))
              (set_task_ids (<[task_id t := dedupe_key t]> (task_id_to_dedupe s)) s)) w.

Definition cmd_enqueue (t : InnerTask) (cbs : TaskCallbacks) (w : World) : World :=
  let key := dedupe_key t in
  match groups (sched w) !! key with
  | Some existing => reject_duplicate existing cbs w
  | None =>
      let should_send_running := bool_decide (is_Some (active (sched w) !! key)) in
      let w := register_group t cbs w in
      let e := mkRecordEntry t cbs in
      let current := current_offset (sched w) key in
      let total := effective_total (sched w) key t in
      let w := emit_status e Pending current total w in
      let w := if should_send_running then emit_status e Transmission current total w else w in
      let w :=
        if negb (bool_decide (is_Some (active (sched w) !! key)))
           && negb (bool_decide (key ∈ queued_set (sched w)))
        then upd (push_queue key) w else w in
      fst (try_start_next w)
  end.

Definition cmd_enqueue_paused (t : InnerTask) (cbs : TaskCallbacks) (w : World) : World :=
  let key := dedupe_key t in
  match groups (sched w) !! key with
  | Some existing => reject_duplicate existing cbs w
  | None =>
      let w := register_group t cbs w in
      let w := upd (λ s, set_paused ({[key]} ∪ paused_set s) s) w in
      emit_status (mkRecordEntry t cbs) Paused (current_offset (sched w) key)
        (effective_total (sched w) key t) w
  end.

(** Look up the task, run the operation, answer, start what can be started. *)
Definition control_cmd (op : UniqueId → World → result unit MeowError * World) (tid : TaskId)
    (w : World) : World :=
  let w :=
    match task_id_to_dedupe (sched w) !! tid with
    | Some key => let '(ret, w) := op key w in effect [Respond ret] w
    | None => effect [Respond (Err (task_not_found_error tid))] w
    end in
  fst (try_start_next w).

Definition cmd_pause : TaskId → World → World := control_cmd pause_group.
Definition cmd_resume : TaskId → World → World := control_cmd resume_group.
Definition cmd_cancel : TaskId → World → World := control_cmd cancel_group.

Definition cmd_snapshot (w : World) : World :=
  let s := sched w in
  effect [RespondSnapshot (mkSnapshot (length (queued s)) (size (active s))
            (map_to_list (active s)).*1)] w.

Definition handle_cmd (c : TransferCmd) (w : World) : World :=
  match c with
  | CmdEnqueue t cbs => cmd_enqueue t cbs w
  | CmdEnqueuePaused t cbs => cmd_enqueue_paused t cbs w
  | CmdPause tid => cmd_pause tid w
  | CmdResume tid => cmd_resume tid w
  | CmdCancel tid => cmd_cancel tid w
  | CmdSnapshot => cmd_snapshot w
  end.

(** The branch of the loop for worker events. *)
Definition deliver_event (ev : WorkerEvent) (w : World) : World :=
  let w := handle_quiescent_worker_event ev w in
  if may_change_scheduler_readiness ev then fst (try_start_next w) else w.

(** ** Close *)

(** The stop of one running group. *)
Definition close_stop (key : UniqueId) (w : World) : World :=
  if bool_decide (key ∈ canceling_set (sched w)) then cancel_worker_token key w
  else
    let '(disposition, w) :=
      match groups (sched w) !! key with
      | Some g => begin_terminal_pause (leader_inner g) w
      | None => (InterruptNow, w)
      end in
    let w := upd (λ s, set_paused ({[key]} ∪ paused_set s) s) w in
    match disposition with
    | InterruptNow => cancel_worker_token key w
    | DeferredUntilRequestReturns => w
    end.

Definition close_pause_inactive (key : UniqueId) (w : World) : World :=
  match groups (sched w) !! key with
  | Some g =>
      emit_status (entry g) Paused (current_offset (sched w) key)
        (effective_total (sched w) key (inner (entry g))) w
  | None => w
  end.

(** Stop the running groups, report the others paused. *)
Definition close_begin (w : World) : World :=
  let active_keys := (map_to_list (active (sched w))).*1 in
  let w := fold_left (λ w k, close_stop k w) active_keys w in
  let inactive_keys :=
    filter (λ k, active (sched w) !! k = None) (map_to_list (groups (sched w))).*1 in
  fold_left (λ w k, close_pause_inactive k w) inactive_keys w.

(** Everything is forgotten, the dispatcher shut down, the command answered. *)
Definition close_finish (w : World) : World :=
  let w := upd (λ s, set_offsets_totals ∅ ∅ (set_canceling ∅ (set_paused ∅ (set_queue [] ∅
             (set_task_ids ∅ (set_groups ∅ (clear_active s))))))) w in
  let w := effect [DispatcherShutdown] (upd take_cb_submit w) in
  effect [Respond (Ok tt)] w.
