(* ===== verification/SchedulerInv.v ===== *)
(** * Invariant of the scheduler state

    The well-formedness of [SchedulerState] and its preservation by every operation of
    [Scheduler.v]: the queue has no duplicates and equals its mirror set, the direction counters
    are the sizes they cache and respect the limits, queued, running, paused and canceling keys
    are related to the live groups as they should be, and no live group is forgotten (each one
    is queued, running or paused). *)
From S2P Require Import Prelude Errors Lifecycle Records Scheduler.
#[local] Open Scope Z_scope.

(** ** Effects do not touch the state *)

(** A world whose state is unchanged; only effects were added. *)
Definition only_effects (w w' : World) : Prop :=
  sched w' = sched w ∧ lifecycles w' = lifecycles w ∧ cancelled_tokens w' = cancelled_tokens w
  ∧ next_token w' = next_token w.

#[export] Instance only_effects_preorder : PreOrder only_effects.
Proof.
  split; [by intros w|].
  intros w1 w2 w3 (?&?&?&?) (?&?&?&?). split_and!; congruence.
Qed.

(** The jobs a status emission submits. *)
Definition submits (es : list Effect) : Prop := Forall (λ e, ∃ job, e = Submit job) es.

Lemma invoke_progress_cb_effect cb dto w :
  ∃ es, invoke_progress_cb cb dto w = effect es w ∧ submits es.
Proof.
  unfold invoke_progress_cb. case_match; [eexists; split; [done|]; repeat constructor; eauto|].
  exists []. unfold effect. rewrite app_nil_r. split; [by destruct w|constructor].
Qed.

Lemma effect_effect es1 es2 w : effect es2 (effect es1 w) = effect (es1 ++ es2) w.
Proof. unfold effect; simpl. by rewrite app_assoc. Qed.

Lemma effect_nil w : effect [] w = w.
Proof. destruct w. unfold effect; simpl. by rewrite app_nil_r. Qed.

Lemma emit_global_progress_effect dto w :
  ∃ es, emit_global_progress dto w = effect es w ∧ submits es.
Proof.
  unfold emit_global_progress.
  destruct (global_progress_listener (sched w)) as [ls|];
    [|exists []; rewrite effect_nil; split; [done|constructor]].
  revert w. induction ls as [|cb ls IH]; intros w; simpl.
  - exists []. rewrite effect_nil. split; [done|constructor].
  - destruct (invoke_progress_cb_effect cb dto w) as (es1 & -> & H1).
    destruct (IH (effect es1 w)) as (es2 & -> & H2).
    exists (es1 ++ es2). rewrite effect_effect. split; [done|by apply Forall_app].
Qed.

Lemma emit_status_effect e st tr tot w :
  ∃ es, emit_status e st tr tot w = effect (StatusLine (task_id (inner e)) st tr tot :: es) w
        ∧ submits es.
Proof.
  unfold emit_status. set (dto := to_record_inner _ _ _ _).
  assert (∃ es, match progress_cb (callbacks e) with
                | Some cb => invoke_progress_cb cb dto (effect [StatusLine (task_id (inner e)) st tr tot] w)
                | None => effect [StatusLine (task_id (inner e)) st tr tot] w
                end = effect (StatusLine (task_id (inner e)) st tr tot :: es) w ∧ submits es)
    as (es1 & -> & H1).
  { case_match; [|exists []; split; [done|constructor]].
    edestruct invoke_progress_cb_effect as (es & -> & Hs).
    exists es. by rewrite effect_effect. }
  edestruct emit_global_progress_effect as (es2 & -> & H2).
  exists (es1 ++ es2). rewrite effect_effect. split; [done|by apply Forall_app].
Qed.

Lemma reject_duplicate_effect g cbs w :
  ∃ es, reject_duplicate g cbs w = effect es w ∧ submits es.
Proof.
  unfold reject_duplicate. set (dto := to_record_inner _ _ _ _).
  assert (∃ es, match progress_cb cbs with
                | Some cb => invoke_progress_cb cb dto w | None => w
                end = effect es w ∧ submits es) as (es1 & -> & H1).
  { case_match; [apply invoke_progress_cb_effect|].
    exists []. rewrite effect_nil. split; [done|constructor]. }
  edestruct emit_global_progress_effect as (es2 & -> & H2).
  exists (es1 ++ es2). rewrite effect_effect. split; [done|by apply Forall_app].
Qed.

Lemma emit_status_only e st tr tot w : only_effects w (emit_status e st tr tot w).
Proof. destruct (emit_status_effect e st tr tot w) as (es & -> & _). done. Qed.

Lemma sched_emit_status e st tr tot w : sched (emit_status e st tr tot w) = sched w.
Proof. apply emit_status_only. Qed.

(** ** Direction counters *)

Definition dir_count (d : Direction) (m : gmap UniqueId Z) : Z :=
  Z.of_nat (size (filter (λ kv : UniqueId * Z, kv.1.1 = d) m)).

Definition one_if (b : bool) : Z := if b then 1 else 0.

Lemma dir_count_insert (d : Direction) (m : gmap UniqueId Z) (k : UniqueId) (t : Z) :
  m !! k = None → dir_count d (<[k := t]> m) = dir_count d m + one_if (bool_decide (k.1 = d)).
Proof.
  intros Hk. unfold dir_count. case_bool_decide as Hd.
  - rewrite map_filter_insert_True by done.
    rewrite map_size_insert_None; [simpl; lia|]. apply map_lookup_filter_None. by left.
  - rewrite map_filter_insert_False by done. rewrite delete_id by done. simpl. lia.
Qed.

Lemma dir_count_delete (d : Direction) (m : gmap UniqueId Z) (k : UniqueId) (t : Z) :
  m !! k = Some t → dir_count d (delete k m) = dir_count d m - one_if (bool_decide (k.1 = d)).
Proof.
  intros Hk. rewrite <- (insert_delete_id m k t Hk) at 2.
  rewrite dir_count_insert by apply lookup_delete_eq. lia.
Qed.

Lemma dir_count_nonneg d m : 0 ≤ dir_count d m.
Proof. unfold dir_count. lia. Qed.

(** ** The invariant *)

Record sched_inv (s : SchedulerState) : Prop := {
  si_nodup : NoDup (queued s);
  si_mirror : queued_set s = list_to_set (queued s);
  si_up : active_uploads s = dir_count Upload (active s);
  si_down : active_downloads s = dir_count Download (active s);
  si_max_up : active_uploads s ≤ max_upload_concurrency s;
  si_max_down : active_downloads s ≤ max_download_concurrency s;
  si_active : ∀ k, is_Some (active s !! k) → is_Some (groups s !! k);
  si_queued : ∀ k, k ∈ queued s →
    is_Some (groups s !! k) ∧ active s !! k = None ∧ k ∉ paused_set s;
  si_paused : ∀ k, k ∈ paused_set s → is_Some (groups s !! k);
  si_canceling : ∀ k, k ∈ canceling_set s → is_Some (active s !! k) ∧ k ∉ paused_set s;
  si_ids : ∀ tid k, task_id_to_dedupe s !! tid = Some k ↔
    ∃ g, groups s !! k = Some g ∧ task_id (leader_inner g) = tid ∧ k ∉ canceling_set s;
  si_inj : ∀ k1 k2 g1 g2, groups s !! k1 = Some g1 → groups s !! k2 = Some g2 →
    task_id (leader_inner g1) = task_id (leader_inner g2) → k1 = k2;
  si_offsets : ∀ k, is_Some (offsets s !! k) → is_Some (groups s !! k);
  si_totals : ∀ k, is_Some (known_totals s !! k) → is_Some (groups s !! k);
  si_entry : ∀ k g, groups s !! k = Some g →
    inner (entry g) = leader_inner g ∧ dedupe_key (leader_inner g) = k;
  si_live : ∀ k, is_Some (groups s !! k) →
    k ∈ queued s ∨ is_Some (active s !! k) ∨ k ∈ paused_set s;
}.

Lemma scheduler_new_inv up down ls :
  0 ≤ up → 0 ≤ down → sched_inv (scheduler_new up down ls).
Proof.
  intros Hu Hd. constructor; simpl; try done; try (by intros ? [? ?]); try set_solver.
  constructor.
Qed.

(** ** Removing a group *)

(** Everything the scheduler knows of the group [k] is removed. *)
Definition purge (k : UniqueId) (tid : TaskId) (s : SchedulerState) : SchedulerState :=
  forget_progress k
    (set_task_ids (delete tid (task_id_to_dedupe s))
      (set_groups (delete k (groups s))
        (set_paused (paused_set s ∖ {[k]})
          (remove_active k (set_canceling (canceling_set s ∖ {[k]}) (drop_queue k s)))))).

Lemma remove_active_fields k s :
  active (remove_active k s) = delete k (active s)
  ∧ groups (remove_active k s) = groups s ∧ queued (remove_active k s) = queued s
  ∧ queued_set (remove_active k s) = queued_set s ∧ paused_set (remove_active k s) = paused_set s
  ∧ canceling_set (remove_active k s) = canceling_set s
  ∧ task_id_to_dedupe (remove_active k s) = task_id_to_dedupe s
  ∧ offsets (remove_active k s) = offsets s ∧ known_totals (remove_active k s) = known_totals s
  ∧ max_upload_concurrency (remove_active k s) = max_upload_concurrency s
  ∧ max_download_concurrency (remove_active k s) = max_download_concurrency s.
Proof. unfold remove_active. by destruct (k.1). Qed.

Lemma remove_active_counts k s :
  sched_inv s →
  active_uploads (remove_active k s) = dir_count Upload (delete k (active s))
  ∧ active_downloads (remove_active k s) = dir_count Download (delete k (active s))
  ∧ active_uploads (remove_active k s) ≤ active_uploads s
  ∧ active_downloads (remove_active k s) ≤ active_downloads s.
Proof.
  intros Hi. unfold remove_active. pose proof (si_up _ Hi). pose proof (si_down _ Hi).
  pose proof (dir_count_nonneg Upload (active s)). pose proof (dir_count_nonneg Download (active s)).
  destruct (active s !! k) as [t|] eqn:Ek; [|rewrite delete_id by done];
    destruct k as [[] n]; simpl in *; unfold sat_sub; rewrite ?(dir_count_delete _ _ _ _ Ek); simpl;
    try lia.
  - pose proof (dir_count_nonneg Upload (delete (Upload, n) (active s))) as Hn.
    rewrite (dir_count_delete _ _ _ _ Ek) in Hn. simpl in Hn. lia.
  - pose proof (dir_count_nonneg Download (delete (Download, n) (active s))) as Hn.
    rewrite (dir_count_delete _ _ _ _ Ek) in Hn. simpl in Hn. lia.
Qed.

Lemma elem_of_drop_queue k k' (l : list UniqueId) :
  k' ∈ filter (λ x, x ≠ k) l ↔ k' ≠ k ∧ k' ∈ l.
Proof. by rewrite list_elem_of_filter. Qed.

Lemma drop_queue_mirror k s :
  sched_inv s →
  NoDup (filter (λ x, x ≠ k) (queued s))
  ∧ queued_set s ∖ {[k]} = list_to_set (filter (λ x, x ≠ k) (queued s)).
Proof.
  intros Hi. split; [apply NoDup_filter, Hi|].
  apply leibniz_equiv. intros k'.
  rewrite elem_of_difference, elem_of_singleton, (si_mirror _ Hi), !elem_of_list_to_set,
    elem_of_drop_queue. tauto.
Qed.

(** A group can be removed when its key is the only one with its task id. *)
Lemma purge_inv k g s :
  sched_inv s → groups s !! k = Some g → sched_inv (purge k (task_id (leader_inner g)) s).
Proof.
  intros Hi Hg. destruct (drop_queue_mirror k s Hi) as [Hnd Hmir].
  pose (s0 := set_canceling (canceling_set s ∖ {[k]}) (drop_queue k s)).
  assert (remove_active k s0 = set_canceling (canceling_set s ∖ {[k]}) (drop_queue k (remove_active k s)))
    as Hra by (unfold s0, remove_active; simpl; by destruct (k.1)).
  destruct (remove_active_counts k s Hi) as (Hcu & Hcd & Hlu & Hld).
  destruct (remove_active_fields k s) as (Fa & Fg & Fq & Fqs & Fp & Fc & Ft & Fo & Fk & Fmu & Fmd).
  unfold purge. fold s0. rewrite Hra. pose proof (si_max_up _ Hi). pose proof (si_max_down _ Hi).
  constructor; simpl; rewrite ?Fa, ?Fg, ?Fq, ?Fqs, ?Fp, ?Fc, ?Ft, ?Fo, ?Fk, ?Fmu, ?Fmd;
    try first [done | lia].
  - intros k' [Hne Hs]%lookup_delete_is_Some. apply lookup_delete_is_Some. split; [done|].
    by apply (si_active _ Hi).
  - intros k' [Hne Hq]%elem_of_drop_queue. destruct (si_queued _ Hi k' Hq) as (H1 & H2 & H3).
    split_and!; [by apply lookup_delete_is_Some|by rewrite lookup_delete_ne|set_solver].
  - intros k' [Hp Hne]%elem_of_difference. apply lookup_delete_is_Some.
    split; [set_solver|]. by apply (si_paused _ Hi).
  - intros k' [Hc Hne]%elem_of_difference. destruct (si_canceling _ Hi k' Hc).
    split; [apply lookup_delete_is_Some; set_solver|set_solver].
  - intros tid k'. rewrite lookup_delete_Some, (si_ids _ Hi). split.
    + intros (Hne & g' & Hg' & <- & Hc). exists g'.
      assert (k' ≠ k) by (intros ->; simplify_eq).
      rewrite lookup_delete_ne by done. split_and!; [done|done|set_solver].
    + intros (g' & Hg' & <- & Hc). apply lookup_delete_Some in Hg' as [Hne Hg'].
      split; [|exists g'; split_and!; [done|done|set_solver]].
      intros He. apply Hne. symmetry. by apply (si_inj _ Hi k' k g' g).
  - intros k1 k2 g1 g2 [_ H1]%lookup_delete_Some [_ H2]%lookup_delete_Some. by apply (si_inj _ Hi).
  - intros k' [Hne Hs]%lookup_delete_is_Some. apply lookup_delete_is_Some. split; [done|].
    by apply (si_offsets _ Hi).
  - intros k' [Hne Hs]%lookup_delete_is_Some. apply lookup_delete_is_Some. split; [done|].
    by apply (si_totals _ Hi).
  - intros k' g' [_ H1]%lookup_delete_Some. by apply (si_entry _ Hi).
  - intros k' [Hne Hs]%lookup_delete_is_Some. rewrite elem_of_drop_queue, lookup_delete_ne by done.
    destruct (si_live _ Hi k' Hs) as [?|[?|?]]; [by left|by right; left|right; right; set_solver].
Qed.

(** ** Worker events *)

Lemma drop_queue_id k s : sched_inv s → k ∉ queued s → drop_queue k s = s.
Proof.
  intros Hi Hk. unfold drop_queue.
  assert (filter (λ x, x ≠ k) (queued s) = queued s) as ->.
  { clear -Hk. induction (queued s) as [|x l IH]; [done|].
    rewrite filter_cons_True by set_solver. f_equal. apply IH. set_solver. }
  assert (queued_set s ∖ {[k]} = queued_set s) as ->.
  { rewrite (si_mirror _ Hi). apply leibniz_equiv. set_solver. }
  by destruct s.
Qed.

Lemma sched_remove_group k g w :
  sched (remove_group k g w)
  = set_task_ids (delete (task_id (leader_inner g)) (task_id_to_dedupe (sched w)))
      (set_groups (delete k (groups (sched w))) (sched w)).
Proof. done. Qed.

Lemma retire_groups k w : groups (sched (unpause k (retire k w))) = groups (sched w).
Proof. unfold unpause, retire; simpl. unfold remove_active; simpl. by destruct (k.1). Qed.

Lemma purge_no_queue k tid s :
  sched_inv s → k ∉ queued s →
  purge k tid s =
  forget_progress k
    (set_task_ids (delete tid (task_id_to_dedupe s))
      (set_groups (delete k (groups s))
        (set_paused (paused_set s ∖ {[k]})
          (remove_active k (set_canceling (canceling_set s ∖ {[k]}) s))))).
Proof. intros Hi Hk. unfold purge. by rewrite drop_queue_id. Qed.

Lemma on_failed_sched k e tot w g :
  sched_inv (sched w) → k ∉ queued (sched w) → groups (sched w) !! k = Some g →
  sched (on_failed k e tot w) = purge k (task_id (leader_inner g)) (sched w).
Proof.
  intros Hi Hk Hg. rewrite purge_no_queue by done. unfold on_failed.
  rewrite retire_groups, Hg. simpl. rewrite sched_emit_status. simpl.
  unfold remove_active; simpl. by destruct (k.1).
Qed.

Lemma on_completed_sched k tot p w g :
  sched_inv (sched w) → k ∉ queued (sched w) → groups (sched w) !! k = Some g →
  sched (on_completed k tot p w) = purge k (task_id (leader_inner g)) (sched w).
Proof.
  intros Hi Hk Hg. rewrite purge_no_queue by done. unfold on_completed.
  assert (∀ w', groups (sched (upd (λ s, set_offsets_totals (<[k := tot]> (offsets s)) (known_totals s) s) w'))
    = groups (sched w')) as Hu by done.
  rewrite Hu, retire_groups, Hg. simpl.
  assert (∀ w', sched (match complete_cb (callbacks (entry g)) with
    | Some cb => invoke_complete_cb cb (task_id (inner (entry g))) p w' | None => w' end) = sched w') as Hc.
  { intros w'. unfold invoke_complete_cb. by repeat case_match. }
  rewrite Hc, sched_emit_status. simpl. unfold remove_active, forget_progress; simpl.
  destruct (k.1); simpl; by rewrite delete_insert_eq.
Qed.

(** The group of a canceled worker is kept when it was paused and not canceled. *)
Lemma on_canceled_sched k tot w g :
  sched_inv (sched w) → k ∉ queued (sched w) → groups (sched w) !! k = Some g →
  sched (on_canceled k tot w)
  = if bool_decide (k ∈ paused_set (sched w)) && negb (bool_decide (k ∈ canceling_set (sched w)))
    then remove_active k (set_canceling (canceling_set (sched w) ∖ {[k]}) (sched w))
    else purge k (task_id (leader_inner g)) (sched w).
Proof.
  intros Hi Hk Hg. unfold on_canceled.
  assert (paused_set (sched (retire k w)) = paused_set (sched w)) as ->
    by (unfold retire, remove_active; simpl; by destruct (k.1)).
  assert (groups (sched (retire k w)) !! k = Some g) as Hg'
    by (unfold retire, remove_active; simpl; by destruct (k.1)).
  case_match.
  - rewrite Hg'. by rewrite sched_emit_status.
  - rewrite retire_groups, Hg. rewrite purge_no_queue by done. simpl. rewrite sched_emit_status. simpl.
    unfold remove_active; simpl. by destruct (k.1).
Qed.

Lemma retire_inv k s :
  sched_inv s → k ∈ paused_set s →
  sched_inv (remove_active k (set_canceling (canceling_set s ∖ {[k]}) s)).
Proof.
  intros Hi Hp. pose (s0 := set_canceling (canceling_set s ∖ {[k]}) s).
  assert (k ∉ canceling_set s) as Hnc by (intros ?%(si_canceling _ Hi); tauto).
  assert (remove_active k s0 = set_canceling (canceling_set s ∖ {[k]}) (remove_active k s))
    as Hra by (unfold s0, remove_active; simpl; by destruct (k.1)).
  destruct (remove_active_counts k s Hi) as (Hcu & Hcd & Hlu & Hld).
  destruct (remove_active_fields k s) as (Fa & Fg & Fq & Fqs & Fp & Fc & Ft & Fo & Fk & Fmu & Fmd).
  fold s0. rewrite Hra. pose proof (si_max_up _ Hi). pose proof (si_max_down _ Hi).
  assert (canceling_set s ∖ {[k]} = canceling_set s) as Hc0 by (apply leibniz_equiv; set_solver).
  constructor; simpl; rewrite ?Fa, ?Fg, ?Fq, ?Fqs, ?Fp, ?Fc, ?Ft, ?Fo, ?Fk, ?Fmu, ?Fmd, ?Hc0;
    try first [done | lia | apply Hi].
  - intros k' [Hne Hs]%lookup_delete_is_Some. by apply (si_active _ Hi).
  - intros k' Hq. destruct (si_queued _ Hi k' Hq) as (H1 & H2 & H3). split_and!; [done| |done].
    by apply lookup_delete_None; right.
  - intros k' Hc. destruct (si_canceling _ Hi k' Hc). split; [|done].
    apply lookup_delete_is_Some. split; [by intros ->|done].
  - intros k' Hs. destruct (decide (k' = k)) as [->|Hne]; [by right; right|].
    rewrite lookup_delete_ne by done. by apply (si_live _ Hi).
Qed.

Lemma on_progress_inv k off tot w :
  sched_inv (sched w) → sched_inv (sched (on_progress k off tot w)).
Proof.
  intros Hi. unfold on_progress. destruct (groups (sched w) !! k) as [g|] eqn:Hg; [|done].
  assert (sched_inv (set_offsets_totals (<[k := off]> (offsets (sched w)))
    (if 0 <? tot then <[k := tot]> (known_totals (sched w)) else known_totals (sched w)) (sched w)))
    as Hi'.
  { constructor; simpl; try apply Hi.
    - intros k' [<-|[_ Hs]]%lookup_insert_is_Some; [by rewrite Hg; eexists|by apply (si_offsets _ Hi)].
    - intros k'. case_match; [|apply (si_totals _ Hi)].
      intros [<-|[_ Hs]]%lookup_insert_is_Some; [by rewrite Hg; eexists|by apply (si_totals _ Hi)]. }
  destruct (bool_decide _); [exact Hi'|]. rewrite sched_emit_status. exact Hi'.
Qed.

(** A terminal event arrives for a running group. *)
Lemma handle_worker_event_inv ev w :
  sched_inv (sched w) → is_Some (active (sched w) !! event_key ev) →
  sched_inv (sched (handle_worker_event ev w)).
Proof.
  intros Hi Ha. destruct (si_active _ Hi _ Ha) as [g Hg].
  assert (event_key ev ∉ queued (sched w)) as Hq.
  { intros (_ & Hn & _)%(si_queued _ Hi). rewrite Hn in Ha. by destruct Ha. }
  destruct ev as [k off tot|k tot p|k e tot|k tot]; cbn [handle_worker_event event_key] in *.
  - by apply on_progress_inv.
  - erewrite on_completed_sched by done. by apply purge_inv.
  - erewrite on_failed_sched by done. by apply purge_inv.
  - erewrite on_canceled_sched by done.
    destruct (bool_decide (k ∈ paused_set _)) eqn:Ep; simpl; [|by apply purge_inv].
    case_match; [|by apply purge_inv]. apply retire_inv; [done|]. by apply bool_decide_eq_true in Ep.
Qed.

Lemma release_snapshot_sched ev w : sched (release_snapshot_handle ev w) = sched w.
Proof. unfold release_snapshot_handle. by repeat case_match. Qed.

Lemma abort_quiescent_sched ev w : sched (abort_quiescent_upload ev w) = sched w.
Proof. unfold abort_quiescent_upload. by repeat case_match. Qed.

Lemma handle_quiescent_inv ev w :
  sched_inv (sched w) → is_Some (active (sched w) !! event_key ev) →
  sched_inv (sched (handle_quiescent_worker_event ev w)).
Proof.
  intros Hi Ha. unfold handle_quiescent_worker_event. apply handle_worker_event_inv;
    by rewrite abort_quiescent_sched, release_snapshot_sched.
Qed.

(** ** Control of a group *)

Lemma sched_begin_pause t w : sched (snd (begin_terminal_pause t w)) = sched w.
Proof. unfold begin_terminal_pause. by destruct (begin_pause _). Qed.
Lemma sched_begin_cancel t w : sched (snd (begin_terminal_cancel t w)) = sched w.
Proof. unfold begin_terminal_cancel. by destruct (begin_cancel _). Qed.
Lemma sched_cancel_token k w : sched (cancel_worker_token k w) = sched w.
Proof. unfold cancel_worker_token. by case_match. Qed.

(** The group leaves the queue and becomes paused. *)
Lemma pause_inv k s :
  sched_inv s → is_Some (groups s !! k) → k ∉ canceling_set s →
  sched_inv (set_paused ({[k]} ∪ paused_set s) (drop_queue k s)).
Proof.
  intros Hi Hg Hc. destruct (drop_queue_mirror k s Hi) as [Hnd Hmir].
  constructor; simpl; try first [done | apply Hi].
  - intros k' [Hne Hq]%elem_of_drop_queue. destruct (si_queued _ Hi k' Hq) as (H1 & H2 & H3).
    split_and!; [done|done|set_solver].
  - intros k' [->%elem_of_singleton|Hp]%elem_of_union; [done|by apply (si_paused _ Hi)].
  - intros k' Hc'. destruct (si_canceling _ Hi k' Hc') as [H1 H2]. split; [done|set_solver].
  - intros k' Hs. rewrite elem_of_drop_queue.
    destruct (decide (k' = k)) as [->|Hne]; [right; right; set_solver|].
    destruct (si_live _ Hi k' Hs) as [?|[?|?]]; [by left|by right; left|right; right; set_solver].
Qed.

Lemma pause_group_sched k w :
  sched (snd (pause_group k w)) = set_paused ({[k]} ∪ paused_set (sched w)) (drop_queue k (sched w)).
Proof.
  unfold pause_group.
  destruct (if bool_decide (is_Some (active (sched w) !! k)) then _ else _) as [d w1] eqn:E1.
  assert (sched w1 = sched w) as Hw1.
  { repeat case_match; simplify_eq; try done.
    pose proof (sched_begin_pause (leader_inner g) w) as Hs. by rewrite E1 in Hs. }
  set (w2 := match d with InterruptNow => _ | _ => _ end).
  assert (sched w2 = sched w) as Hw2 by (unfold w2; destruct d; by rewrite ?sched_cancel_token).
  simpl. repeat case_match; rewrite ?sched_emit_status; simpl; by rewrite Hw2.
Qed.

(** The group is back in the queue. *)
Lemma resume_inv k s :
  sched_inv s → is_Some (groups s !! k) → active s !! k = None → k ∈ paused_set s →
  sched_inv (push_queue k (set_paused (paused_set s ∖ {[k]}) s)).
Proof.
  intros Hi Hg Ha Hp. assert (k ∉ queued s) as Hq by (intros ?%(si_queued _ Hi); tauto).
  constructor; simpl; try apply Hi.
  - apply NoDup_app. split_and!; [apply Hi|set_solver|apply NoDup_singleton].
  - rewrite (si_mirror _ Hi), list_to_set_app_L; simpl. apply leibniz_equiv. set_solver.
  - intros k' [Hq'| ->%list_elem_of_singleton]%elem_of_app.
    + destruct (si_queued _ Hi k' Hq') as (H1 & H2 & H3). split_and!; [done|done|set_solver].
    + split_and!; [done|done|set_solver].
  - intros k' Hp'. apply (si_paused _ Hi). set_solver.
  - intros k' Hc. destruct (si_canceling _ Hi k' Hc) as [H1 H2]. split; [done|set_solver].
  - intros k' Hs. rewrite elem_of_app, list_elem_of_singleton.
    destruct (decide (k' = k)) as [->|Hne]; [by left; right|].
    destruct (si_live _ Hi k' Hs) as [?|[?|?]]; [by left; left|by right; left|right; right; set_solver].
Qed.

Lemma resume_group_cases k w :
  sched_inv (sched w) →
  ((k ∉ paused_set (sched w)) ∧ resume_group k w = (Err (invalid_state "resume target is not paused"), w))
  ∨ (k ∈ paused_set (sched w) ∧ is_Some (active (sched w) !! k)
     ∧ resume_group k w = (Err (invalid_state "resume target is still stopping, retry later"), w))
  ∨ (k ∈ paused_set (sched w) ∧ active (sched w) !! k = None
     ∧ ∃ g w1, groups (sched w) !! k = Some g ∧ resume_group k w = (Ok tt, upd (push_queue k) w1)
         ∧ w1 = emit_status (entry g) Pending (current_offset (sched w) k)
                  (effective_total (sched w) k (inner (entry g))) (unpause k w)).
Proof.
  intros Hi. unfold resume_group.
  case_bool_decide as Hp; simpl; [|by left]. right.
  case_bool_decide as Ha; simpl; [by left|]. right.
  apply eq_None_not_Some in Ha. split_and!; [done|done|].
  destruct (si_paused _ Hi k Hp) as [g Hg]. rewrite Hg. exists g. eexists. split; [done|].
  rewrite sched_emit_status. simpl. rewrite Ha.
  rewrite (bool_decide_eq_false_2 (is_Some None)) by (by intros [? ?]).
  rewrite bool_decide_eq_false_2; [by split|].
  rewrite (si_mirror _ Hi), elem_of_list_to_set. intros ?%(si_queued _ Hi). tauto.
Qed.

(** A running group becomes canceling; its task id is forgotten at once. *)
Lemma cancel_active_inv k g s :
  sched_inv s → groups s !! k = Some g → is_Some (active s !! k) →
  sched_inv (set_task_ids (delete (task_id (leader_inner g)) (task_id_to_dedupe s))
    (set_canceling ({[k]} ∪ canceling_set s) (set_paused (paused_set s ∖ {[k]}) (drop_queue k s)))).
Proof.
  intros Hi Hg Ha. destruct (drop_queue_mirror k s Hi) as [Hnd Hmir].
  constructor; simpl; try first [done | apply Hi].
  - intros k' [Hne Hq]%elem_of_drop_queue. destruct (si_queued _ Hi k' Hq) as (H1 & H2 & H3).
    split_and!; [done|done|set_solver].
  - intros k' [Hp _]%elem_of_difference. by apply (si_paused _ Hi).
  - intros k' [->%elem_of_singleton|Hc]%elem_of_union; [split; [done|set_solver]|].
    destruct (si_canceling _ Hi k' Hc). split; [done|set_solver].
  - intros tid k'. rewrite lookup_delete_Some, (si_ids _ Hi). split.
    + intros (Hne & g' & Hg' & <- & Hc). exists g'. assert (k' ≠ k) by (intros ->; simplify_eq).
      split_and!; [done|done|set_solver].
    + intros (g' & Hg' & <- & Hc). split; [|exists g'; split_and!; [done|done|set_solver]].
      intros He. assert (k = k') as -> by (by eapply (si_inj _ Hi)). set_solver.
  - intros k' Hs. rewrite elem_of_drop_queue.
    destruct (decide (k' = k)) as [->|Hne]; [by right; left|].
    destruct (si_live _ Hi k' Hs) as [?|[?|?]]; [by left|by right; left|right; right; set_solver].
Qed.

Lemma cancel_group_sched k w g :
  sched_inv (sched w) → groups (sched w) !! k = Some g →
  fst (cancel_group k w) = Ok tt
  ∧ sched (snd (cancel_group k w))
    = if bool_decide (is_Some (active (sched w) !! k)) then
        set_task_ids (delete (task_id (leader_inner g)) (task_id_to_dedupe (sched w)))
          (set_canceling ({[k]} ∪ canceling_set (sched w))
            (set_paused (paused_set (sched w) ∖ {[k]}) (drop_queue k (sched w))))
      else purge k (task_id (leader_inner g)) (sched w).
Proof.
  intros Hi Hg. unfold cancel_group. rewrite Hg. case_bool_decide as Ha.
  - destruct (begin_terminal_cancel (leader_inner g) w) as [d w1] eqn:Eb.
    assert (sched w1 = sched w) as Hw1.
    { pose proof (sched_begin_cancel (leader_inner g) w) as Hs. by rewrite Eb in Hs. }
    set (w2 := match d with InterruptNow => _ | _ => _ end).
    assert (sched w2 = sched w) as Hw2 by (unfold w2; destruct d; by rewrite ?sched_cancel_token).
    simpl. rewrite Hw2, Hg. simpl. by rewrite Hw2.
  - apply eq_None_not_Some in Ha. simpl. rewrite Hg. simpl.
    rewrite sched_emit_status. simpl. rewrite sched_begin_cancel. simpl. split; [done|].
    unfold purge, remove_active; simpl. rewrite Ha. unfold sat_sub.
    pose proof (si_up _ Hi). pose proof (si_down _ Hi).
    pose proof (dir_count_nonneg Upload (active (sched w))).
    pose proof (dir_count_nonneg Download (active (sched w))).
    rewrite (delete_id (active (sched w)) k) by done.
    destruct (k.1); unfold forget_progress, set_canceling, set_offsets_totals; simpl;
      (f_equal; lia).
Qed.

(** ** Registration *)

Definition registered (t : InnerTask) (cbs : TaskCallbacks) (s : SchedulerState) : SchedulerState :=
  set_groups (<[dedupe_key t := mkGroupState t (mkRecordEntry t cbs)]> (groups s))
    (set_task_ids (<[task_id t := dedupe_key t]> (task_id_to_dedupe s)) s).

(** No live group has the task id. *)
Definition id_fresh (tid : TaskId) (s : SchedulerState) : Prop :=
  ∀ k g, groups s !! k = Some g → task_id (leader_inner g) ≠ tid.

Lemma dead_key s k :
  sched_inv s → groups s !! k = None →
  active s !! k = None ∧ (k ∉ queued s) ∧ (k ∉ paused_set s) ∧ k ∉ canceling_set s.
Proof.
  intros Hi Hg. assert (active s !! k = None) as Ha.
  { apply eq_None_not_Some. intros ?%(si_active _ Hi). rewrite Hg in *. by destruct H. }
  split_and!; [done| | |].
  - intros [[? Hs] _]%(si_queued _ Hi). by simplify_eq.
  - intros [? Hs]%(si_paused _ Hi). by simplify_eq.
  - intros [[? Hs] _]%(si_canceling _ Hi). by simplify_eq.
Qed.

Lemma registered_ids t cbs s :
  sched_inv s → groups s !! dedupe_key t = None → id_fresh (task_id t) s →
  ∀ tid k, task_id_to_dedupe (registered t cbs s) !! tid = Some k ↔
    ∃ g, groups (registered t cbs s) !! k = Some g ∧ task_id (leader_inner g) = tid
         ∧ k ∉ canceling_set s.
Proof.
  intros Hi Hg Hf tid k. destruct (dead_key _ _ Hi Hg) as (_ & _ & _ & Hc). simpl.
  destruct (decide (k = dedupe_key t)) as [->|Hne].
  - rewrite (lookup_insert_eq (groups s)). destruct (decide (tid = task_id t)) as [->|Hnt].
    + rewrite lookup_insert_eq. split; [|done]. intros _. by eexists.
    + rewrite lookup_insert_ne by done. rewrite (si_ids _ Hi), Hg. naive_solver.
  - rewrite (lookup_insert_ne (groups s)) by done.
    destruct (decide (tid = task_id t)) as [->|Hnt].
    + rewrite lookup_insert_eq. split; [naive_solver|]. intros (g & Hk & Ht & _). by destruct (Hf k g).
    + rewrite lookup_insert_ne by done. apply (si_ids _ Hi).
Qed.

(** A new key is put at the end of the queue, or in the paused set. *)
Lemma queue_or_pause (k : UniqueId) (l q : list UniqueId) (ls qs ps p : gset UniqueId) :
  NoDup l → ls = list_to_set l → (∀ k', k' ∈ l → k' ∉ ps) → k ∉ l → k ∉ ps →
  (q = l ++ [k] ∧ qs = {[k]} ∪ ls ∧ p = ps ∨ q = l ∧ qs = ls ∧ p = {[k]} ∪ ps) →
  NoDup q ∧ qs = list_to_set q ∧ (∀ k', k' ∈ q → k' ∈ l ∨ k' = k ∧ k ∉ p)
  ∧ (∀ k', k' ∈ p → k' ∈ ps ∨ k' = k) ∧ (k ∈ q ∨ k ∈ p)
  ∧ (∀ k', k' ∈ l → k' ∈ q) ∧ (∀ k', k' ∈ ps → k' ∈ p) ∧ (∀ k', k' ∈ l → k' ∉ p).
Proof.
  intros Hnd -> Hd Hl Hp [(-> & -> & ->)|(-> & -> & ->)].
  - split_and!; try set_solver.
    apply NoDup_app. split_and!; [done|set_solver|apply NoDup_singleton].
  - split_and!; set_solver.
Qed.

(** A registered group that is put in the queue or in the paused set. *)
Lemma register_inv t cbs s q qs p :
  sched_inv s → groups s !! dedupe_key t = None → id_fresh (task_id t) s →
  (q = queued s ++ [dedupe_key t] ∧ qs = {[dedupe_key t]} ∪ queued_set s ∧ p = paused_set s
   ∨ q = queued s ∧ qs = queued_set s ∧ p = {[dedupe_key t]} ∪ paused_set s) →
  sched_inv (set_paused p (set_queue q qs (registered t cbs s))).
Proof.
  intros Hi Hg Hf Hqp. set (k := dedupe_key t) in *.
  destruct (dead_key _ _ Hi Hg) as (Ha & Hq & Hp & Hc).
  assert (∀ k', is_Some (groups s !! k') → is_Some (groups (registered t cbs s) !! k')) as Hmono.
  { intros k' Hs. apply lookup_insert_is_Some'. by right. }
  assert (NoDup q ∧ qs = list_to_set q ∧ (∀ k', k' ∈ q → k' ∈ queued s ∨ k' = k ∧ k ∉ p)
          ∧ (∀ k', k' ∈ p → k' ∈ paused_set s ∨ k' = k) ∧ (k ∈ q ∨ k ∈ p)
          ∧ (∀ k', k' ∈ queued s → k' ∈ q) ∧ (∀ k', k' ∈ paused_set s → k' ∈ p)
          ∧ (∀ k', k' ∈ queued s → k' ∉ p))
    as (H1 & H2 & H3 & H4 & H5 & H6 & H7 & H8).
  { pose proof (si_nodup _ Hi) as Hnd. pose proof (si_mirror _ Hi) as Hm.
    assert (∀ k', k' ∈ queued s → k' ∉ paused_set s) as Hqp' by (intros k' ?%(si_queued _ Hi); tauto).
    clear -Hnd Hm Hqp' Hq Hp Hqp. by apply (queue_or_pause k (queued s) q (queued_set s) qs (paused_set s) p). }
  constructor; simpl; try first [done | apply Hi].
  - intros k' Hs. by apply Hmono, (si_active _ Hi).
  - intros k' [Hq'|[-> Hnp]]%H3.
    + destruct (si_queued _ Hi k' Hq') as (? & ? & ?). split_and!; [by apply Hmono|done|by apply H8].
    + split_and!; [|done|done]. rewrite lookup_insert_eq. by eexists.
  - intros k' [Hp'| ->]%H4; [by apply Hmono, (si_paused _ Hi)|]. rewrite lookup_insert_eq. by eexists.
  - intros k' Hc'. destruct (si_canceling _ Hi k' Hc') as [? Hnp]. split; [done|].
    intros [?| ->]%H4; done.
  - by apply registered_ids.
  - intros k1 k2 g1 g2.
    rewrite !lookup_insert_Some. intros [[<- <-]|[_ Hg1]] [[<- <-]|[_ Hg2]]; simpl; try done.
    + intros He. by destruct (Hf k2 g2).
    + intros He. by destruct (Hf k1 g1).
    + by apply (si_inj _ Hi).
  - intros k' Hs. by apply Hmono, (si_offsets _ Hi).
  - intros k' Hs. by apply Hmono, (si_totals _ Hi).
  - intros k' g'. rewrite lookup_insert_Some. intros [[<- <-]|[_ Hg']]; [done|by apply (si_entry _ Hi)].
  - intros k' [<-|[Hne Hs]]%lookup_insert_is_Some; [tauto|].
    destruct (si_live _ Hi k' Hs) as [?|[?|?]]; auto.
Qed.

(** ** Starting groups *)

(** Keys of the workers spawned and statuses reported by a list of effects. *)
Definition spawned_keys (es : list Effect) : list UniqueId :=
  omap (λ e, match e with SpawnWorker k _ _ _ => Some k | _ => None end) es.
Definition statuses (es : list Effect) : list (TaskId * TransferStatus) :=
  omap (λ e, match e with StatusLine tid st _ _ => Some (tid, st) | _ => None end) es.

Lemma spawned_keys_app es1 es2 : spawned_keys (es1 ++ es2) = spawned_keys es1 ++ spawned_keys es2.
Proof. apply omap_app. Qed.
Lemma statuses_app es1 es2 : statuses (es1 ++ es2) = statuses es1 ++ statuses es2.
Proof. apply omap_app. Qed.

Lemma submits_quiet es : submits es → spawned_keys es = [] ∧ statuses es = [].
Proof. induction 1 as [|e es [job ->] _ IH]; [done|]. done. Qed.

(** How an operation extends the trace. *)
Definition extends (w w' : World) (ks : list UniqueId) (sts : list (TaskId * TransferStatus)) : Prop :=
  ∃ es, trace w' = trace w ++ es ∧ spawned_keys es = ks ∧ statuses es = sts.

Lemma extends_refl w w' : trace w' = trace w → extends w w' [] [].
Proof. intros H. exists []. by rewrite app_nil_r. Qed.

Lemma extends_trans w1 w2 w3 ks1 ks2 sts1 sts2 :
  extends w1 w2 ks1 sts1 → extends w2 w3 ks2 sts2 → extends w1 w3 (ks1 ++ ks2) (sts1 ++ sts2).
Proof.
  intros (es1 & H1 & <- & <-) (es2 & H2 & <- & <-). exists (es1 ++ es2).
  by rewrite H2, H1, app_assoc, spawned_keys_app, statuses_app.
Qed.

Lemma emit_status_extends e st tr tot w :
  extends w (emit_status e st tr tot w) [] [(task_id (inner e), st)].
Proof.
  destruct (emit_status_effect e st tr tot w) as (es & -> & Hs).
  destruct (submits_quiet es Hs) as [H1 H2].
  eexists. split; [reflexivity|]. simpl. rewrite H1, H2. done.
Qed.

Lemma start_group_spec k g w :
  sched (start_group k g w) = insert_active k (next_token w) (sched w)
  ∧ lifecycles (start_group k g w) = lifecycles w
  ∧ ∃ sts, extends w (start_group k g w) [k] sts
      ∧ (sts = [] ∨ sts = [(task_id (inner (entry g)), Transmission)]).
Proof.
  unfold start_group. destruct (_ && _); simpl.
  - split_and!; [done|done|]. exists []. split; [|by left]. eexists. split; [reflexivity|]. done.
  - destruct (emit_status_only (entry g) Transmission (current_offset (sched w) k)
      (effective_total (sched w) k (inner (entry g))) w) as (H1 & H2 & _ & H4).
    destruct (emit_status_extends (entry g) Transmission (current_offset (sched w) k)
      (effective_total (sched w) k (inner (entry g))) w) as (es & He & H5 & H6).
    rewrite H1, H2, H4. split_and!; [done|done|]. eexists. split; [|by right].
    eexists. simpl. rewrite He, <- app_assoc. split; [reflexivity|].
    by rewrite spawned_keys_app, statuses_app, H5, H6.
Qed.

(** The front key of the queue is started or goes to the back. *)
Lemma start_one_cases w k rest :
  sched_inv (sched w) → queued (sched w) = k :: rest →
  ∃ g, groups (sched w) !! k = Some g ∧
  ((can_start_direction (sched w) k.1 = true
    ∧ snd (start_one w) = [k]
    ∧ sched (fst (start_one w))
      = insert_active k (next_token w) (set_queue rest (queued_set (sched w) ∖ {[k]}) (sched w))
    ∧ lifecycles (fst (start_one w)) = lifecycles w
    ∧ ∃ sts, extends w (fst (start_one w)) [k] sts
        ∧ (sts = [] ∨ sts = [(task_id (inner (entry g)), Transmission)]))
   ∨ (can_start_direction (sched w) k.1 = false
      ∧ start_one w
        = (upd (set_queue (rest ++ [k]) ({[k]} ∪ (queued_set (sched w) ∖ {[k]}))) w, []))).
Proof.
  intros Hi Hq. destruct (si_queued _ Hi k) as ([g Hg] & Ha & Hp); [rewrite Hq; set_solver|].
  exists g. split; [done|]. unfold start_one. rewrite Hq. simpl.
  rewrite (bool_decide_eq_false_2 (k ∈ _)) by done. rewrite Ha, Hg.
  rewrite (bool_decide_eq_false_2 (is_Some None)) by (by intros [? ?]).
  assert (∀ s q qs d, can_start_direction (set_queue q qs s) d = can_start_direction s d) as Hcs
    by (by intros ? ? ? []).
  rewrite Hcs. destruct (can_start_direction (sched w) k.1) eqn:Ec; simpl; [left|by right].
  destruct (start_group_spec k g (upd (set_queue rest (queued_set (sched w) ∖ {[k]})) w))
    as (H1 & H2 & H3). by split_and!.
Qed.

(** Moving the front key to the back, and starting it. *)
Lemma requeue_inv k rest s :
  sched_inv s → queued s = k :: rest →
  sched_inv (set_queue (rest ++ [k]) ({[k]} ∪ (queued_set s ∖ {[k]})) s).
Proof.
  intros Hi Hq. pose proof (si_nodup _ Hi) as Hnd. rewrite Hq in Hnd.
  apply NoDup_cons in Hnd as [Hk Hnd].
  assert (∀ k', k' ∈ rest ++ [k] ↔ k' ∈ queued s) as Hel
    by (intros k'; rewrite Hq, elem_of_app, list_elem_of_singleton, elem_of_cons; tauto).
  constructor; simpl; try apply Hi.
  - apply NoDup_app. split_and!; [done|set_solver|apply NoDup_singleton].
  - rewrite (si_mirror _ Hi), Hq. clear -Hk. apply leibniz_equiv. intros x.
    rewrite elem_of_union, elem_of_difference, !elem_of_list_to_set, elem_of_app, elem_of_cons,
      list_elem_of_singleton, elem_of_singleton. destruct (decide (x = k)); set_solver.
  - intros k' Hk'%Hel. by apply (si_queued _ Hi).
  - intros k' Hs. rewrite Hel. by apply (si_live _ Hi).
Qed.

Lemma start_inv k tok rest s :
  sched_inv s → queued s = k :: rest → can_start_direction s k.1 = true →
  sched_inv (insert_active k tok (set_queue rest (queued_set s ∖ {[k]}) s)).
Proof.
  intros Hi Hq Hc. destruct (si_queued _ Hi k) as (Hg & Ha & Hp); [rewrite Hq; set_solver|].
  pose proof (si_nodup _ Hi) as Hnd. rewrite Hq in Hnd. apply NoDup_cons in Hnd as [Hk Hnd].
  assert (∀ k', k' ∈ rest → k' ∈ queued s ∧ k' ≠ k) as Hel by (rewrite Hq; set_solver).
  pose proof (si_up _ Hi) as Hu. pose proof (si_down _ Hi) as Hd.
  pose proof (si_max_up _ Hi) as Hmu. pose proof (si_max_down _ Hi) as Hmd.
  pose proof (dir_count_insert Upload (active s) k tok Ha) as Hcu.
  pose proof (dir_count_insert Download (active s) k tok Ha) as Hcd.
  unfold insert_active; simpl. rewrite Ha. unfold can_start_direction, active_direction_count in Hc.
  destruct k as [d n]; destruct d; simpl in *; zbool;
  (constructor; simpl; try first [done | lia | apply Hi];
   [ rewrite (si_mirror _ Hi), Hq; clear -Hk; apply leibniz_equiv; intros x;
     rewrite elem_of_difference, !elem_of_list_to_set, elem_of_cons, elem_of_singleton; set_solver
   | intros k' [<-|[_ Hs]]%lookup_insert_is_Some; [done|by apply (si_active _ Hi)]
   | intros k' [Hq' Hne]%Hel; destruct (si_queued _ Hi k' Hq') as (? & ? & ?);
     rewrite lookup_insert_ne by congruence; done
   | intros k' Hc'; destruct (si_canceling _ Hi k' Hc') as [? ?]; split; [|done];
     apply lookup_insert_is_Some'; by right
   | intros k' Hs; destruct (si_live _ Hi k' Hs) as [Hq'|[?|?]];
     [ rewrite Hq in Hq'; apply elem_of_cons in Hq' as [->|?];
       [right; left; rewrite lookup_insert_eq; by eexists|by left]
     | right; left; apply lookup_insert_is_Some'; by right | by right; right ] ]).
Qed.

Lemma start_one_inv w : sched_inv (sched w) → sched_inv (sched (fst (start_one w))).
Proof.
  intros Hi. destruct (queued (sched w)) as [|k rest] eqn:Hq; [unfold start_one; by rewrite Hq|].
  destruct (start_one_cases w k rest Hi Hq) as (g & Hg & [(Hc & _ & Hs & _)|(Hc & Hs)]).
  - rewrite Hs. by apply start_inv.
  - rewrite Hs. simpl. by apply requeue_inv.
Qed.

(** Induction over the groups started by a call of [try_start_next]. *)
Section StartInduction.
Context (P : World → list UniqueId → Prop).
Context (Hstep : ∀ w ks, sched_inv (sched w) → P w ks → P (fst (start_one w)) (ks ++ snd (start_one w))).

Lemma start_round_ind n w ks :
  sched_inv (sched w) → P w ks →
  sched_inv (sched (fst (start_round n w))) ∧ P (fst (start_round n w)) (ks ++ snd (start_round n w)).
Proof.
  revert w ks. induction n as [|n IH]; intros w ks Hi Hp; simpl; [by rewrite app_nil_r|].
  pose proof (Hstep w ks Hi Hp) as H1. pose proof (start_one_inv w Hi) as H2.
  destruct (start_one w) as [w1 k1]; simpl in *.
  destruct (IH w1 (ks ++ k1) H2 H1) as [H3 H4]. destruct (start_round n w1) as [w2 k2]; simpl in *.
  by rewrite app_assoc.
Qed.

Lemma try_start_loop_ind fuel w ks :
  sched_inv (sched w) → P w ks →
  sched_inv (sched (fst (try_start_loop fuel w)))
  ∧ P (fst (try_start_loop fuel w)) (ks ++ snd (try_start_loop fuel w)).
Proof.
  revert w ks. induction fuel as [|fuel IH]; intros w ks Hi Hp; [by simpl; rewrite app_nil_r|].
  cbn [try_start_loop]. destruct (queued (sched w)) eqn:Eq; [by rewrite app_nil_r|].
  rewrite <- Eq. destruct (start_round_ind (length (queued (sched w))) w ks Hi Hp) as [H1 H2].
  destruct (start_round _ w) as [w1 [|k ks1]]; simpl in H1, H2; [done|].
  destruct (IH w1 _ H1 H2) as [H3 H4]. destruct (try_start_loop fuel w1) as [w2 ks2]; simpl in *.
  split; [done|]. by rewrite <- app_assoc in H4.
Qed.

Lemma try_start_next_ind w :
  sched_inv (sched w) → P w [] →
  sched_inv (sched (fst (try_start_next w))) ∧ P (fst (try_start_next w)) (snd (try_start_next w)).
Proof. apply (try_start_loop_ind _ w []). Qed.
End StartInduction.

Lemma try_start_next_inv w : sched_inv (sched w) → sched_inv (sched (fst (try_start_next w))).
Proof. intros Hi. by apply (try_start_next_ind (λ _ _, True)). Qed.

(** ** Nothing that could run is left waiting *)

Definition blocked (s : SchedulerState) : Prop :=
  ∀ k, k ∈ queued s → can_start_direction s k.1 = false.

Lemma start_one_queue w :
  sched_inv (sched w) → queued (sched w) ≠ [] →
  (length (queued (sched (fst (start_one w)))) + length (snd (start_one w)))%nat
  = length (queued (sched w)).
Proof.
  intros Hi Hne. destruct (queued (sched w)) as [|k rest] eqn:Hq; [done|].
  destruct (start_one_cases w k rest Hi Hq) as (g & Hg & [(Hc & Hk & Hs & _)|(Hc & Hs)]).
  - rewrite Hs, Hk. unfold insert_active. destruct (k.1); simpl; lia.
  - rewrite Hs. simpl. rewrite length_app. simpl. lia.
Qed.

Lemma start_round_queue n w :
  sched_inv (sched w) → (n ≤ length (queued (sched w)))%nat →
  (length (queued (sched (fst (start_round n w)))) + length (snd (start_round n w)))%nat
  = length (queued (sched w)).
Proof.
  revert w. induction n as [|n IH]; intros w Hi Hn; simpl; [lia|].
  pose proof (start_one_inv w Hi) as Hi1.
  assert (queued (sched w) ≠ []) as Hne by (intros E; rewrite E in Hn; simpl in Hn; lia).
  pose proof (start_one_queue w Hi Hne) as H1.
  assert (length (snd (start_one w)) ≤ 1)%nat as Hle.
  { destruct (queued (sched w)) as [|k rest] eqn:Hq; [done|].
    destruct (start_one_cases w k rest Hi Hq) as (g & Hg & [(_ & Hk & _)|(_ & Hs)]);
      [rewrite Hk|rewrite Hs]; simpl; lia. }
  destruct (start_one w) as [w1 k1]; simpl in *.
  specialize (IH w1 Hi1 ltac:(lia)). destruct (start_round n w1) as [w2 k2]; simpl in *.
  rewrite length_app. lia.
Qed.

(** A round that starts nothing turns the queue round once and finds every key blocked. *)
Lemma start_round_none n w :
  sched_inv (sched w) → (n ≤ length (queued (sched w)))%nat → snd (start_round n w) = [] →
  ∃ q qs, fst (start_round n w) = upd (set_queue q qs) w
    ∧ q = drop n (queued (sched w)) ++ take n (queued (sched w))
    ∧ ∀ k, k ∈ take n (queued (sched w)) → can_start_direction (sched w) k.1 = false.
Proof.
  revert w. induction n as [|n IH]; intros w Hi Hn Hs; simpl in *.
  - exists (queued (sched w)), (queued_set (sched w)). rewrite drop_0, app_nil_r.
    split_and!; [by destruct w as [[] ? ? ? ?]|done|set_solver].
  - destruct (queued (sched w)) as [|k rest] eqn:Hq; [simpl in Hn; lia|].
    pose proof (start_one_inv w Hi) as Hi1.
    destruct (start_one_cases w k rest Hi Hq) as (g & Hg & [(_ & Hk & _)|(Hc & Ho)]).
    { destruct (start_one w) as [w1 k1]; destruct (start_round n w1) as [w2 k2]; simpl in *.
      by subst k1. }
    rewrite Ho in *. simpl in Hi1. set (w1 := upd _ w) in *.
    destruct (start_round n w1) as [w2 k2] eqn:Er; simpl in *. subst k2.
    destruct (IH w1) as (q & qs & H1 & H2 & H3); [done|simpl; rewrite length_app; simpl; lia|by rewrite Er|].
    rewrite Er in H1. simpl in *. exists q, qs. rewrite H1.
    assert (take n (rest ++ [k]) = take n rest) as Ht by (apply take_app_le; lia).
    rewrite Ht in *. split_and!.
    + done.
    + rewrite H2, drop_app_le by lia. by rewrite <- app_assoc.
    + intros k' [->|Hk']%elem_of_cons; [done|].
      specialize (H3 k' Hk'). unfold w1 in H3; simpl in H3. by destruct (k'.1).
Qed.

Lemma try_start_loop_blocked fuel w :
  sched_inv (sched w) → (length (queued (sched w)) < fuel)%nat →
  blocked (sched (fst (try_start_loop fuel w))).
Proof.
  revert w. induction fuel as [|fuel IH]; intros w Hi Hf; [lia|].
  cbn [try_start_loop]. destruct (queued (sched w)) as [|k rest] eqn:Eq.
  { intros k Hk. simpl in Hk. rewrite Eq in Hk. set_solver. }
  rewrite <- Eq.
  pose proof (start_round_queue (length (queued (sched w))) w Hi (le_n _)) as Hlen.
  pose proof (start_round_none (length (queued (sched w))) w Hi (le_n _)) as Hnone.
  pose proof (start_round_ind (λ _ _, True) ltac:(done) (length (queued (sched w))) w [] Hi I) as [Hi1 _].
  rewrite <- Eq in Hf.
  destruct (start_round _ w) as [w1 [|k1 ks1]]; simpl in *.
  - destruct (Hnone eq_refl) as (q & qs & -> & Hq & Hb). intros k' Hk'. simpl in *.
    rewrite drop_all, firstn_all in Hq. simpl in Hq. subst q.
    specialize (Hb k'). rewrite firstn_all in Hb. specialize (Hb Hk'). by destruct (k'.1).
  - specialize (IH w1 Hi1 ltac:(lia)). destruct (try_start_loop fuel w1) as [w2 ks2]. done.
Qed.

(** The fuel of [try_start_next] is enough for its loop to end by itself. *)
Lemma try_start_next_blocked w : sched_inv (sched w) → blocked (sched (fst (try_start_next w))).
Proof. intros Hi. apply try_start_loop_blocked; [done|lia]. Qed.
