(* ===== verification/SchedulerSys.v ===== *)
(** * The scheduler with its workers

    The worker loop of [src/inner/executor.rs] as a step relation on [Sys]: commands arrive,
    workers send events through the worker channel, events are delivered in order, and the
    client is closed. A running worker may send any number of progress events and then one
    terminal event, after which it no longer runs: that is what [RunGroupProps.v] proves of
    [run_group]. The invariant [sys_inv] ties the scheduler's maps to the workers that really
    run and to the statuses reported to the callbacks. *)
From S2P Require Import Prelude Errors Lifecycle Records Scheduler SchedulerInv.
#[local] Open Scope Z_scope.

Inductive Phase := PhaseOpen | PhaseClosing | PhaseClosed.

Record Sys := mkSys {
  world : World;
  (** groups whose worker runs, one entry per worker *)
  running : list UniqueId;
  (** the worker channel, oldest event first *)
  chan : list WorkerEvent;
  phase : Phase;
  (** task ids of the tasks accepted so far *)
  used_ids : gset TaskId;
}.

(** Workers spawned by an operation. *)
Definition new_workers (w w' : World) : list UniqueId :=
  drop (length (spawned_keys (trace w))) (spawned_keys (trace w')).

Definition sys_op (w' : World) (ch : list WorkerEvent) (ph : Phase) (y : Sys) : Sys :=
  mkSys w' (running y ++ new_workers (world y) w') ch ph (used_ids y).

(** The ids after the task [t] was submitted: a duplicate is not accepted. *)
Definition accept_id (t : InnerTask) (y : Sys) : gset TaskId :=
  match groups (sched (world y)) !! dedupe_key t with
  | Some _ => used_ids y
  | None => {[task_id t]} ∪ used_ids y
  end.

Definition with_ids (ids : gset TaskId) (y : Sys) : Sys :=
  mkSys (world y) (running y) (chan y) (phase y) ids.

Definition cmd_task (c : TransferCmd) : option InnerTask :=
  match c with CmdEnqueue t _ | CmdEnqueuePaused t _ => Some t | _ => None end.

(** A lifecycle operation by the worker that runs the group [k]. *)
Definition worker_lifecycle (tid : TaskId) (o : lc_op) (w : World) : World :=
  put_lifecycle tid (apply_op o (lifecycle_of w tid)) w.

(** Registration or removal of a global listener by the client. *)
Definition set_listeners (ls : option (list Z)) (w : World) : World :=
  upd (λ s, mkScheduler (max_upload_concurrency s) (max_download_concurrency s) ls (groups s)
    (task_id_to_dedupe s) (queued s) (queued_set s) (paused_set s) (active s) (canceling_set s)
    (active_uploads s) (active_downloads s) (offsets s) (known_totals s) (cb_submit s)) w.

Inductive sys_step : Sys → Sys → Prop :=
| sys_enqueue c t y :
    phase y = PhaseOpen → cmd_task c = Some t → task_id t ∉ used_ids y →
    sys_step y (with_ids (accept_id t y) (sys_op (handle_cmd c (world y)) (chan y) PhaseOpen y))
| sys_control c y :
    phase y = PhaseOpen → cmd_task c = None →
    sys_step y (sys_op (handle_cmd c (world y)) (chan y) PhaseOpen y)
| sys_progress k off tot y :
    k ∈ running y →
    sys_step y (mkSys (world y) (running y) (chan y ++ [EvProgress k off tot]) (phase y) (used_ids y))
| sys_terminal ev i y :
    may_change_scheduler_readiness ev = true → running y !! i = Some (event_key ev) →
    sys_step y (mkSys (world y) (delete i (running y)) (chan y ++ [ev]) (phase y) (used_ids y))
| sys_worker_lifecycle tid o y :
    sys_step y (sys_op (worker_lifecycle tid o (world y)) (chan y) (phase y) y)
| sys_set_listeners ls y :
    sys_step y (sys_op (set_listeners ls (world y)) (chan y) (phase y) y)
| sys_deliver ev rest y :
    phase y = PhaseOpen → chan y = ev :: rest →
    sys_step y (sys_op (deliver_event ev (world y)) rest PhaseOpen y)
| sys_close_begin y :
    phase y = PhaseOpen →
    sys_step y (sys_op (close_begin (world y)) (chan y) PhaseClosing y)
| sys_close_drain ev rest y :
    phase y = PhaseClosing → active (sched (world y)) ≠ ∅ → chan y = ev :: rest →
    sys_step y (sys_op (handle_quiescent_worker_event ev (world y)) rest PhaseClosing y)
| sys_close_finish y :
    phase y = PhaseClosing → active (sched (world y)) = ∅ →
    sys_step y (sys_op (close_finish (world y)) (chan y) PhaseClosed y).

Definition sys_init (up down : Z) (ls : option (list Z)) : Sys :=
  mkSys (mkWorld (scheduler_new up down ls) ∅ ∅ 0 []) [] [] PhaseOpen ∅.

(** ** Statuses reported for a task *)

Definition is_final (st : TransferStatus) : bool :=
  match st with Complete | StatusFailed _ | Canceled => true | _ => false end.

Definition history (tid : TaskId) (sts : list (TaskId * TransferStatus)) : list TransferStatus :=
  (filter (λ p, p.1 = tid) sts).*2.

Definition live (G : gmap UniqueId GroupState) (tid : TaskId) : Prop :=
  ∃ k g, G !! k = Some g ∧ task_id (leader_inner g) = tid.

(** Reported statuses, live groups and task ids fit together. *)
Record hist_inv (G : gmap UniqueId GroupState) (used : gset TaskId)
    (sts : list (TaskId * TransferStatus)) : Prop := {
  hi_used : ∀ tid, live G tid → tid ∈ used;
  hi_live : ∀ tid, live G tid → Forall (λ st, is_final st = false) (history tid sts);
  hi_done : ∀ tid, tid ∈ used → ¬ live G tid →
    ∃ pre st, history tid sts = pre ++ [st] ∧ is_final st = true
              ∧ Forall (λ st, is_final st = false) pre;
  hi_fresh : ∀ tid, tid ∉ used → history tid sts = [];
}.

Lemma history_app tid l1 l2 : history tid (l1 ++ l2) = history tid l1 ++ history tid l2.
Proof. unfold history. by rewrite filter_app, fmap_app. Qed.

Lemma history_one tid tid' st :
  history tid [(tid', st)] = if bool_decide (tid' = tid) then [st] else [].
Proof. unfold history. case_bool_decide; [rewrite filter_cons_True|rewrite filter_cons_False]; done. Qed.

(** A non-final status of a live task. *)
Lemma hist_status G used sts tid st :
  hist_inv G used sts → live G tid → is_final st = false → hist_inv G used (sts ++ [(tid, st)]).
Proof.
  intros [Hu Hl Hd Hf] Hlive Hst.
  assert (∀ tid', tid' ≠ tid → history tid' (sts ++ [(tid, st)]) = history tid' sts) as Hne.
  { intros tid' Hne. rewrite history_app, history_one, bool_decide_eq_false_2 by done. apply app_nil_r. }
  constructor; intros tid'; [apply Hu| | |].
  - intros H'. destruct (decide (tid' = tid)) as [->|]; [|rewrite Hne by done; by apply Hl].
    rewrite history_app, history_one, bool_decide_eq_true_2 by done.
    apply Forall_app; split; [by apply Hl|by constructor].
  - intros H1 H2. rewrite Hne; [by apply Hd|by intros ->].
  - intros H1. rewrite Hne; [by apply Hf|]. intros ->. by apply H1, Hu.
Qed.

(** The final status of a task whose group is removed. *)
Lemma hist_final G used sts k g st :
  hist_inv G used sts → G !! k = Some g → is_final st = true →
  (∀ k1 k2 g1 g2, G !! k1 = Some g1 → G !! k2 = Some g2 →
     task_id (leader_inner g1) = task_id (leader_inner g2) → k1 = k2) →
  hist_inv (delete k G) used (sts ++ [(task_id (leader_inner g), st)]).
Proof.
  intros [Hu Hl Hd Hf] Hg Hst Hinj. set (tid := task_id (leader_inner g)).
  assert (∀ tid', tid' ≠ tid → history tid' (sts ++ [(tid, st)]) = history tid' sts) as Hne.
  { intros tid' Hne. rewrite history_app, history_one, bool_decide_eq_false_2 by done. apply app_nil_r. }
  assert (∀ tid', live (delete k G) tid' ↔ live G tid' ∧ tid' ≠ tid) as Hlive.
  { intros tid'. split.
    - intros (k' & g' & [Hkk Hg']%lookup_delete_Some & <-). split; [by exists k', g'|].
      intros He. apply Hkk. symmetry. by apply (Hinj k' k g' g).
    - intros [(k' & g' & Hg' & <-) Hn]. exists k', g'. split; [|done].
      apply lookup_delete_Some. split; [|done]. intros <-. by simplify_eq. }
  constructor; intros tid'.
  - intros [H' _]%Hlive. by apply Hu.
  - intros [H' Hn]%Hlive. rewrite Hne by done. by apply Hl.
  - intros H1 H2. destruct (decide (tid' = tid)) as [->|Hn].
    + exists (history tid sts), st. rewrite history_app, history_one, bool_decide_eq_true_2 by done.
      split_and!; [done|done|]. apply Hl. by exists k, g.
    + rewrite Hne by done. apply Hd; [done|]. intros H'. apply H2, Hlive. done.
  - intros H1. rewrite Hne; [by apply Hf|]. intros ->. apply H1, Hu. by exists k, g.
Qed.

(** A new group with a new task id. *)
Lemma hist_register G used sts k g st :
  hist_inv G used sts → G !! k = None → task_id (leader_inner g) ∉ used → is_final st = false →
  hist_inv (<[k := g]> G) ({[task_id (leader_inner g)]} ∪ used)
    (sts ++ [(task_id (leader_inner g), st)]).
Proof.
  intros [Hu Hl Hd Hf] Hk Hn Hst. set (tid := task_id (leader_inner g)) in *.
  assert (∀ tid', live (<[k := g]> G) tid' ↔ tid' = tid ∨ live G tid') as Hlive.
  { intros tid'. split.
    - intros (k' & g' & [[<- <-]|[_ Hg']]%lookup_insert_Some & <-); [by left|right; by exists k', g'].
    - intros [->|(k' & g' & Hg' & <-)]; [exists k, g; by rewrite lookup_insert_eq|].
      exists k', g'. split; [|done]. rewrite lookup_insert_ne; [done|]. intros <-. by simplify_eq. }
  apply hist_status; [|apply Hlive; by left|done]. constructor; intros tid'.
  - intros [->|H']%Hlive; [set_solver|]. apply elem_of_union_r. by apply Hu.
  - intros [->|H']%Hlive; [|by apply Hl]. by rewrite Hf.
  - intros H1 H2. apply Hd; [|intros H'; apply H2, Hlive; by right].
    apply elem_of_union in H1 as [->%elem_of_singleton|H1]; [|done]. destruct H2. apply Hlive. by left.
  - intros H1. apply Hf. set_solver.
Qed.

(** ** Operations on the world *)

Definition world_inv (used : gset TaskId) (w : World) : Prop :=
  sched_inv (sched w) ∧ hist_inv (groups (sched w)) used (statuses (trace w)).

(** An operation that neither spawns a worker nor changes the running groups. *)
Definition quiet (w w' : World) : Prop :=
  spawned_keys (trace w') = spawned_keys (trace w) ∧ active (sched w') = active (sched w).

(** An operation that makes some groups run, each with a new worker. *)
Definition starts (w w' : World) : Prop :=
  ∃ ks, spawned_keys (trace w') = spawned_keys (trace w) ++ ks ∧ NoDup ks
    ∧ (∀ k, k ∈ ks → active (sched w) !! k = None)
    ∧ (∀ k, is_Some (active (sched w') !! k) ↔ is_Some (active (sched w) !! k) ∨ k ∈ ks).

#[export] Instance quiet_preorder : PreOrder quiet.
Proof. split; [done|]. intros w1 w2 w3 [? ?] [? ?]. split; congruence. Qed.

Lemma quiet_starts w1 w2 w3 : quiet w1 w2 → starts w2 w3 → starts w1 w3.
Proof.
  intros [H1 H2] (ks & H3 & H4 & H5 & H6). exists ks. rewrite <- H1, <- H2. done.
Qed.

Lemma quiet_is_starts w w' : quiet w w' → starts w w'.
Proof.
  intros [H1 H2]. exists []. rewrite app_nil_r, H2. split_and!; [done|constructor|set_solver|].
  intros k. set_solver.
Qed.

Lemma extends_statuses w w' ks sts :
  extends w w' ks sts → statuses (trace w') = statuses (trace w) ++ sts
                        ∧ spawned_keys (trace w') = spawned_keys (trace w) ++ ks.
Proof. intros (es & -> & <- & <-). by rewrite statuses_app, spawned_keys_app. Qed.

Lemma emit_status_quiet e st tr tot w : quiet w (emit_status e st tr tot w).
Proof.
  destruct (extends_statuses _ _ _ _ (emit_status_extends e st tr tot w)) as [_ H].
  split; [by rewrite H, app_nil_r|by rewrite sched_emit_status].
Qed.

Lemma emit_status_statuses e st tr tot w :
  statuses (trace (emit_status e st tr tot w)) = statuses (trace w) ++ [(task_id (inner e), st)].
Proof. apply (extends_statuses _ _ _ _ (emit_status_extends e st tr tot w)). Qed.

(** A non-final status of a live group. *)
Lemma emit_status_world used k g st tr tot w :
  world_inv used w → groups (sched w) !! k = Some g → is_final st = false →
  world_inv used (emit_status (entry g) st tr tot w).
Proof.
  intros [Hi Hh] Hg Hst. split; [by rewrite sched_emit_status|].
  rewrite sched_emit_status, emit_status_statuses. apply hist_status; [done| |done].
  exists k, g. split; [done|]. by destruct (si_entry _ Hi k g Hg) as [-> _].
Qed.

Lemma insert_active_active k tok s : active (insert_active k tok s) = <[k := tok]> (active s).
Proof. unfold insert_active. by destruct (k.1). Qed.
Lemma insert_active_groups k tok s : groups (insert_active k tok s) = groups s.
Proof. unfold insert_active. by destruct (k.1). Qed.

Lemma start_one_world used w :
  world_inv used w → world_inv used (fst (start_one w)).
Proof.
  intros [Hi Hh]. split; [by apply start_one_inv|].
  destruct (queued (sched w)) as [|k rest] eqn:Hq; [unfold start_one; by rewrite Hq|].
  destruct (start_one_cases w k rest Hi Hq)
    as (g & Hg & [(Hc & _ & Hs & _ & sts & He & Hst)|(Hc & Hs)]); [|rewrite Hs; done].
  rewrite Hs, insert_active_groups. simpl.
  destruct (extends_statuses _ _ _ _ He) as [-> _].
  destruct Hst as [->| ->]; [by rewrite app_nil_r|]. apply hist_status; [done| |done].
  exists k, g. split; [done|]. by destruct (si_entry _ Hi k g Hg) as [-> _].
Qed.

Lemma try_start_next_world used w :
  world_inv used w → world_inv used (fst (try_start_next w)).
Proof.
  intros Hw. destruct (try_start_next_ind (λ w _, world_inv used w)) with w as [_ H]; try done.
  - intros w' ks _. apply start_one_world.
  - apply Hw.
Qed.

Lemma try_start_next_starts w : sched_inv (sched w) → starts w (fst (try_start_next w)).
Proof.
  intros Hi. destruct (try_start_next_ind (λ w' ks,
    spawned_keys (trace w') = spawned_keys (trace w) ++ ks ∧ NoDup ks
    ∧ (∀ k, k ∈ ks → active (sched w) !! k = None)
    ∧ (∀ k, is_Some (active (sched w') !! k) ↔ is_Some (active (sched w) !! k) ∨ k ∈ ks)))
    with w as [_ H].
  - intros w1 ks Hi1 (H1 & H2 & H3 & H4).
    destruct (queued (sched w1)) as [|k rest] eqn:Hq.
    { unfold start_one. rewrite Hq. simpl. by rewrite app_nil_r. }
    destruct (start_one_cases w1 k rest Hi1 Hq)
      as (g & Hg & [(Hc & Hk & Hs & _ & sts & He & _)|(Hc & Hs)]);
      [|rewrite Hs; simpl; by rewrite app_nil_r].
    destruct (si_queued _ Hi1 k) as (_ & Ha & _); [rewrite Hq; set_solver|].
    assert (¬ (is_Some (active (sched w) !! k) ∨ k ∈ ks)) as Hnew
      by (intros Hx%H4; rewrite Ha in Hx; by destruct Hx).
    destruct (extends_statuses _ _ _ _ He) as [_ ->]. rewrite Hk, Hs, insert_active_active, H1. simpl.
    split_and!; [by rewrite app_assoc| | |].
    + apply NoDup_app. split_and!; [done| |apply NoDup_singleton].
      intros x Hx ->%list_elem_of_singleton. tauto.
    + intros k' [Hk'|Hk']%elem_of_app; [by apply H3|]. apply list_elem_of_singleton in Hk' as ->.
      apply eq_None_not_Some. tauto.
    + intros k'. rewrite lookup_insert_is_Some, elem_of_app, list_elem_of_singleton, H4.
      destruct (decide (k = k')); naive_solver.
  - done.
  - rewrite app_nil_r. split_and!; [done|constructor|set_solver|]. intros k. set_solver.
  - by exists (snd (try_start_next w)).
Qed.

(** ** Worker events *)

Lemma purge_fields k tid s :
  groups (purge k tid s) = delete k (groups s) ∧ active (purge k tid s) = delete k (active s).
Proof. unfold purge, remove_active. simpl. by destruct (k.1). Qed.

Lemma release_snapshot_quiet ev w :
  quiet w (release_snapshot_handle ev w)
  ∧ statuses (trace (release_snapshot_handle ev w)) = statuses (trace w).
Proof.
  unfold release_snapshot_handle, quiet. repeat case_match; simpl;
    rewrite ?spawned_keys_app, ?statuses_app, ?app_nil_r; done.
Qed.

Lemma abort_quiescent_quiet ev w :
  quiet w (abort_quiescent_upload ev w)
  ∧ statuses (trace (abort_quiescent_upload ev w)) = statuses (trace w).
Proof.
  unfold abort_quiescent_upload, quiet. repeat case_match; simpl;
    rewrite ?spawned_keys_app, ?statuses_app, ?app_nil_r; done.
Qed.

(** The status a terminal event ends with, and whether the group survives it. *)
Definition event_status (ev : WorkerEvent) (kept : bool) : TransferStatus :=
  match ev with
  | EvCompleted _ _ _ => Complete
  | EvFailed _ e _ => StatusFailed e
  | EvCanceled _ _ => if kept then Paused else Canceled
  | EvProgress _ _ _ => Transmission
  end.

Definition survives (ev : WorkerEvent) (s : SchedulerState) : bool :=
  match ev with
  | EvCanceled k _ => bool_decide (k ∈ paused_set s) && negb (bool_decide (k ∈ canceling_set s))
  | _ => false
  end.

Lemma invoke_complete_extends cb tid p w : extends w (invoke_complete_cb cb tid p w) [] [].
Proof.
  unfold invoke_complete_cb. case_match; [|by apply extends_refl].
  eexists. split; [reflexivity|]. done.
Qed.

Lemma handle_terminal_trace ev w g :
  may_change_scheduler_readiness ev = true → groups (sched w) !! event_key ev = Some g →
  extends w (handle_worker_event ev w) []
    [(task_id (inner (entry g)), event_status ev (survives ev (sched w)))].
Proof.
  intros Ht Hg. destruct ev as [k off tot|k tot p|k e tot|k tot]; [done|..];
    cbn [handle_worker_event event_key event_status survives] in *.
  - unfold on_completed.
    assert (∀ w', groups (sched (upd (λ s, set_offsets_totals (<[k := tot]> (offsets s)) (known_totals s) s) w'))
      = groups (sched w')) as Hu by done.
    rewrite Hu, retire_groups, Hg.
    match goal with |- extends _ (upd _ (match _ with Some _ => invoke_complete_cb _ _ _ (emit_status ?e ?st ?a ?b ?w0) | _ => _ end)) _ _ =>
      pose proof (emit_status_extends e st a b w0) as He; set (w1 := emit_status e st a b w0) in * end.
    destruct (complete_cb _) as [cb|].
    + destruct (invoke_complete_extends cb (task_id (inner (entry g))) p w1) as (es & H1 & H2 & H3).
      destruct He as (es0 & H4 & H5 & H6). exists (es0 ++ es). simpl. rewrite H1, H4. simpl.
      by rewrite app_assoc, spawned_keys_app, statuses_app, H2, H3, H5, H6.
    + exact He.
  - unfold on_failed. rewrite retire_groups, Hg.
    match goal with |- extends _ (upd _ (emit_status ?e ?st ?a ?b ?w0)) _ _ =>
      exact (emit_status_extends e st a b w0) end.
  - unfold on_canceled.
    assert (paused_set (sched (retire k w)) = paused_set (sched w)) as ->
      by (unfold retire, remove_active; simpl; by destruct (k.1)).
    assert (groups (sched (retire k w)) !! k = Some g) as Hg'
      by (unfold retire, remove_active; simpl; by destruct (k.1)).
    destruct (bool_decide (k ∈ paused_set _) && _).
    + rewrite Hg'. match goal with |- extends _ (emit_status ?e ?st ?a ?b ?w0) _ _ =>
        exact (emit_status_extends e st a b w0) end.
    + rewrite retire_groups, Hg. match goal with |- extends _ (upd _ (emit_status ?e ?st ?a ?b ?w0)) _ _ =>
        exact (emit_status_extends e st a b w0) end.
Qed.

Lemma handle_terminal_sched ev w g :
  sched_inv (sched w) → may_change_scheduler_readiness ev = true →
  is_Some (active (sched w) !! event_key ev) → groups (sched w) !! event_key ev = Some g →
  groups (sched (handle_worker_event ev w))
  = (if survives ev (sched w) then groups (sched w) else delete (event_key ev) (groups (sched w)))
  ∧ active (sched (handle_worker_event ev w)) = delete (event_key ev) (active (sched w)).
Proof.
  intros Hi Ht Ha Hg.
  assert (event_key ev ∉ queued (sched w)) as Hq.
  { intros (_ & Hn & _)%(si_queued _ Hi). rewrite Hn in Ha. by destruct Ha. }
  destruct ev as [k off tot|k tot p|k e tot|k tot]; [done|..];
    cbn [handle_worker_event event_key survives] in *.
  - erewrite on_completed_sched by done. apply purge_fields.
  - erewrite on_failed_sched by done. apply purge_fields.
  - erewrite on_canceled_sched by done. destruct (_ && _); [|apply purge_fields].
    unfold remove_active; simpl. by destruct (k.1).
Qed.

Lemma on_progress_world used k off tot w :
  world_inv used w → world_inv used (on_progress k off tot w) ∧ quiet w (on_progress k off tot w).
Proof.
  intros [Hi Hh]. pose proof (on_progress_inv k off tot w Hi) as Hi'. unfold on_progress in *.
  destruct (groups (sched w) !! k) as [g|] eqn:Hg; [|done].
  set (w1 := upd _ w) in *. destruct (bool_decide _); [done|].
  split; [|exact (emit_status_quiet _ _ _ _ w1)]. split; [exact Hi'|].
  rewrite sched_emit_status, emit_status_statuses. apply hist_status; [done| |done].
  exists k, g. split; [done|]. by destruct (si_entry _ Hi k g Hg) as [-> _].
Qed.

(** Delivery of a terminal event of a running group. *)
Lemma handle_terminal_world used ev w :
  world_inv used w → may_change_scheduler_readiness ev = true →
  is_Some (active (sched w) !! event_key ev) →
  world_inv used (handle_quiescent_worker_event ev w)
  ∧ spawned_keys (trace (handle_quiescent_worker_event ev w)) = spawned_keys (trace w)
  ∧ active (sched (handle_quiescent_worker_event ev w)) = delete (event_key ev) (active (sched w)).
Proof.
  intros [Hi Hh] Ht Ha. destruct (si_active _ Hi _ Ha) as [g Hg].
  destruct (release_snapshot_quiet ev w) as [[Q1 _] S1].
  destruct (abort_quiescent_quiet ev (release_snapshot_handle ev w)) as [[Q2 _] S2].
  pose proof (release_snapshot_sched ev w) as E1.
  pose proof (abort_quiescent_sched ev (release_snapshot_handle ev w)) as E2.
  pose proof (handle_quiescent_inv ev w Hi Ha) as Hi'.
  unfold handle_quiescent_worker_event in *. set (w1 := abort_quiescent_upload _ _) in *.
  assert (sched w1 = sched w) as E by congruence.
  destruct (handle_terminal_sched ev w1 g) as [Hgr Hac]; [by rewrite ?E..|].
  destruct (extends_statuses _ _ _ _ (handle_terminal_trace ev w1 g Ht ltac:(by rewrite E))) as [Hst Hsp].
  destruct (si_entry _ Hi _ _ Hg) as [Hent _].
  split_and!.
  - split; [done|]. rewrite Hgr, Hst, S2, S1, E, Hent.
    destruct (survives ev (sched w)) eqn:Es.
    + apply hist_status; [done|by exists (event_key ev), g|]. destruct ev; done.
    + apply hist_final; [done|done| |apply Hi]. by destruct ev.
  - rewrite Hsp, app_nil_r. congruence.
  - by rewrite Hac, E.
Qed.

Lemma handle_progress_world used k off tot w :
  world_inv used w →
  world_inv used (handle_quiescent_worker_event (EvProgress k off tot) w)
  ∧ quiet w (handle_quiescent_worker_event (EvProgress k off tot) w).
Proof. intros Hw. by apply on_progress_world. Qed.

(** ** Control operations *)

(** An operation on a group that is live and not canceling. *)
Definition controllable (k : UniqueId) (s : SchedulerState) : Prop :=
  is_Some (groups s !! k) ∧ k ∉ canceling_set s.

Lemma pause_group_trace k w :
  quiet w (snd (pause_group k w))
  ∧ statuses (trace (snd (pause_group k w)))
    = statuses (trace w) ++
      match active (sched w) !! k, groups (sched w) !! k with
      | None, Some g => [(task_id (inner (entry g)), Paused)]
      | _, _ => []
      end.
Proof.
  pose proof (pause_group_sched k w) as Hsched. unfold pause_group in *.
  destruct (if bool_decide (is_Some (active (sched w) !! k)) then _ else _) as [d w1] eqn:E1.
  assert (sched w1 = sched w ∧ trace w1 = trace w) as [Hw1 Ht1].
  { unfold begin_terminal_pause in E1. repeat case_match; by simplify_eq. }
  set (w2 := match d with InterruptNow => _ | _ => _ end) in *.
  assert (sched w2 = sched w ∧ trace w2 = trace w) as [Hw2 Ht2].
  { unfold w2, cancel_worker_token. destruct d; [|done]. rewrite Hw1. by destruct (active _ !! k). }
  unfold quiet. rewrite Hsched. simpl. clear Hsched E1.
  destruct (active (sched w) !! k) as [tok|].
  - rewrite bool_decide_eq_true_2 by (by eexists). simpl. by rewrite Ht2, app_nil_r.
  - rewrite bool_decide_eq_false_2 by (by intros [? ?]). rewrite Hw2. simpl.
    destruct (groups (sched w) !! k) as [g|]; [|simpl; by rewrite Ht2, app_nil_r].
    match goal with |- context [emit_status ?e ?st ?a ?b ?w0] =>
      destruct (extends_statuses _ _ _ _ (emit_status_extends e st a b w0)) as [H1 H2];
      rewrite H1, H2 end.
    simpl. by rewrite Ht2, app_nil_r.
Qed.

Lemma pause_group_world used k w :
  world_inv used w → controllable k (sched w) →
  world_inv used (snd (pause_group k w)) ∧ quiet w (snd (pause_group k w)).
Proof.
  intros [Hi Hh] [[g Hg] Hc]. destruct (pause_group_trace k w) as [Hq Hst].
  split; [|done]. split; [rewrite pause_group_sched; apply pause_inv; [done|by eexists|done]|].
  rewrite pause_group_sched, Hst, Hg. simpl.
  destruct (active (sched w) !! k); [by rewrite app_nil_r|].
  apply hist_status; [done| |done]. exists k, g. split; [done|].
  by destruct (si_entry _ Hi k g Hg) as [-> _].
Qed.

Lemma resume_group_world used k w :
  world_inv used w →
  world_inv used (snd (resume_group k w)) ∧ quiet w (snd (resume_group k w)).
Proof.
  intros [Hi Hh].
  destruct (resume_group_cases k w Hi)
    as [(_ & ->)|[(_ & _ & ->)|(Hp & Ha & g & w1 & Hg & -> & Hw1)]]; [done..|]. cbn [snd].
  assert (sched w1 = set_paused (paused_set (sched w) ∖ {[k]}) (sched w)) as Hs1
    by (by rewrite Hw1, sched_emit_status).
  destruct (extends_statuses _ _ _ _ (emit_status_extends (entry g) Pending
    (current_offset (sched w) k) (effective_total (sched w) k (inner (entry g))) (unpause k w)))
    as [Hst Hsp].
  rewrite <- Hw1 in Hst, Hsp. simpl in Hst, Hsp.
  split; [split|split]; cbn [sched upd trace].
  - rewrite Hs1. apply resume_inv; [done|by eexists|done|done].
  - rewrite Hs1, Hst. simpl. apply hist_status; [done| |done]. exists k, g. split; [done|].
    by destruct (si_entry _ Hi k g Hg) as [-> _].
  - by rewrite Hsp, app_nil_r.
  - by rewrite Hs1.
Qed.

Lemma cancel_group_trace k w g :
  groups (sched w) !! k = Some g →
  spawned_keys (trace (snd (cancel_group k w))) = spawned_keys (trace w)
  ∧ statuses (trace (snd (cancel_group k w)))
    = statuses (trace w) ++
      match active (sched w) !! k with
      | None => [(task_id (inner (entry g)), Canceled)]
      | Some _ => []
      end.
Proof.
  intros Hg. unfold cancel_group. rewrite Hg. destruct (active (sched w) !! k) as [tok|] eqn:Ha.
  - rewrite bool_decide_eq_true_2 by (by eexists).
    destruct (begin_terminal_cancel (leader_inner g) w) as [d w1] eqn:Eb.
    assert (sched w1 = sched w ∧ trace w1 = trace w) as [Hw1 Ht1].
    { unfold begin_terminal_cancel in Eb. case_match; by simplify_eq. }
    set (w2 := match d with InterruptNow => _ | _ => _ end).
    assert (sched w2 = sched w ∧ trace w2 = trace w) as [Hw2 Ht2].
    { unfold w2, cancel_worker_token. destruct d; [|done]. rewrite Hw1. by destruct (active _ !! k). }
    simpl. rewrite Hw2, Hg. simpl. by rewrite Ht2, app_nil_r.
  - rewrite bool_decide_eq_false_2 by (by intros [? ?]). simpl. rewrite Hg. simpl.
    match goal with |- context [emit_status ?e ?st ?a ?b ?w0] =>
      destruct (extends_statuses _ _ _ _ (emit_status_extends e st a b w0)) as [H1 H2];
      rewrite H1, H2 end.
    simpl. rewrite spawned_keys_app, statuses_app. simpl. rewrite !app_nil_r.
    unfold begin_terminal_cancel. by destruct (begin_cancel _).
Qed.

Lemma cancel_group_world used k w :
  world_inv used w → controllable k (sched w) →
  world_inv used (snd (cancel_group k w)) ∧ quiet w (snd (cancel_group k w)).
Proof.
  intros [Hi Hh] [[g Hg] Hc]. destruct (cancel_group_sched k w g Hi Hg) as [_ Hs].
  destruct (cancel_group_trace k w g Hg) as [Hsp Hst].
  destruct (si_entry _ Hi k g Hg) as [Hent _]. rewrite Hent in Hst.
  unfold world_inv, quiet. rewrite Hs, Hst. destruct (active (sched w) !! k) as [tok|] eqn:Ha.
  - rewrite bool_decide_eq_true_2 by (by eexists). simpl. rewrite app_nil_r.
    split; [split; [apply cancel_active_inv; [done|done|rewrite Ha; by eexists]|done]|done].
  - rewrite bool_decide_eq_false_2 by (by intros [? ?]).
    destruct (purge_fields k (task_id (leader_inner g)) (sched w)) as [-> ->].
    rewrite (delete_id (active (sched w))) by done.
    split; [split; [by apply purge_inv|apply hist_final; [done|done|done|apply Hi]]|done].
Qed.

(** ** Commands *)

Lemma respond_world used w r : world_inv used w → world_inv used (effect [Respond r] w) ∧ quiet w (effect [Respond r] w).
Proof.
  intros [Hi Hh]. unfold world_inv, quiet. simpl. rewrite statuses_app, spawned_keys_app. simpl.
  by rewrite !app_nil_r.
Qed.

Lemma control_cmd_world used op tid w :
  (∀ k w, world_inv used w → controllable k (sched w) →
     world_inv used (snd (op k w)) ∧ quiet w (snd (op k w))) →
  world_inv used w →
  world_inv used (control_cmd op tid w) ∧ starts w (control_cmd op tid w)
  ∧ blocked (sched (control_cmd op tid w)).
Proof.
  intros Hop Hw. unfold control_cmd.
  set (w1 := match task_id_to_dedupe (sched w) !! tid with Some _ => _ | None => _ end).
  assert (world_inv used w1 ∧ quiet w w1) as [Hw1 Hq1].
  { unfold w1. destruct (task_id_to_dedupe (sched w) !! tid) as [k|] eqn:Ht;
      [|by apply respond_world].
    destruct Hw as [Hi Hh]. destruct (proj1 (si_ids _ Hi tid k) Ht) as (g & Hg & _ & Hc).
    destruct (Hop k w) as [H1 H2]; [done|by split; [eexists|]|].
    destruct (op k w) as [r w']. simpl in *. destruct (respond_world used w' r H1) as [H3 H4].
    split; [done|by etrans]. }
  split_and!.
  - by apply try_start_next_world.
  - eapply quiet_starts; [done|]. apply try_start_next_starts, Hw1.
  - apply try_start_next_blocked, Hw1.
Qed.

Lemma reject_world used g cbs w :
  world_inv used w → world_inv used (reject_duplicate g cbs w) ∧ quiet w (reject_duplicate g cbs w).
Proof.
  intros [Hi Hh]. destruct (reject_duplicate_effect g cbs w) as (es & -> & Hs).
  destruct (submits_quiet es Hs) as [H1 H2]. unfold world_inv, quiet. simpl.
  rewrite statuses_app, spawned_keys_app, H1, H2, !app_nil_r. done.
Qed.


(** The registration of a new task, with its first status. *)
Lemma register_world used t cbs st tr tot q qs p w w1 :
  world_inv used w → groups (sched w) !! dedupe_key t = None → task_id t ∉ used → is_final st = false →
  (q = queued (sched w) ++ [dedupe_key t] ∧ qs = {[dedupe_key t]} ∪ queued_set (sched w)
     ∧ p = paused_set (sched w)
   ∨ q = queued (sched w) ∧ qs = queued_set (sched w) ∧ p = {[dedupe_key t]} ∪ paused_set (sched w)) →
  sched w1 = set_paused p (set_queue q qs (registered t cbs (sched w))) →
  trace w1 = trace (emit_status (mkRecordEntry t cbs) st tr tot w) →
  world_inv ({[task_id t]} ∪ used) w1 ∧ quiet w w1.
Proof.
  intros [Hi Hh] Hg Hu Hst Hq Hs Ht. unfold world_inv, quiet. rewrite Hs, Ht.
  rewrite emit_status_statuses. split; [split|split].
  - apply register_inv; [done|done| |done].
    intros k g Hg' He. apply Hu. rewrite <- He. apply (hi_used _ _ _ Hh). by exists k, g.
  - simpl. by apply (hist_register _ _ _ (dedupe_key t) (mkGroupState t (mkRecordEntry t cbs))).
  - apply emit_status_quiet.
  - done.
Qed.

Lemma emit_status_trace_sched e st tr tot w w' :
  trace w' = trace w → cb_submit (sched w') = cb_submit (sched w) →
  global_progress_listener (sched w') = global_progress_listener (sched w) →
  trace (emit_status e st tr tot w') = trace (emit_status e st tr tot w).
Proof.
  intros Ht Hc Hl. unfold emit_status. set (dto := to_record_inner _ _ _ _).
  assert (∀ cb v v', trace v' = trace v → cb_submit (sched v') = cb_submit (sched v) →
    trace (invoke_progress_cb cb dto v') = trace (invoke_progress_cb cb dto v)
    ∧ sched (invoke_progress_cb cb dto v') = sched v'
    ∧ sched (invoke_progress_cb cb dto v) = sched v) as Hinv.
  { intros cb v v' H1 H2. unfold invoke_progress_cb. rewrite H2. case_match; simpl; by rewrite ?H1. }
  assert (∀ v v', trace v' = trace v → cb_submit (sched v') = cb_submit (sched v) →
    global_progress_listener (sched v') = global_progress_listener (sched v) →
    trace (emit_global_progress dto v') = trace (emit_global_progress dto v)) as Hglob.
  { intros v v' H1 H2 H3. unfold emit_global_progress. rewrite H3.
    destruct (global_progress_listener (sched v)) as [ls|]; [|done]. clear H3.
    revert v v' H1 H2. induction ls as [|cb ls IH]; intros v v' H1 H2; simpl; [done|].
    destruct (Hinv cb v v' H1 H2) as (E1 & E2 & E3). apply IH; [done|]. by rewrite E2, E3. }
  destruct (progress_cb (callbacks e)) as [cb|]; apply Hglob; simpl; rewrite ?Ht; try done.
  - apply Hinv; simpl; [by rewrite Ht|done].
  - destruct (Hinv cb (effect [StatusLine (task_id (inner e)) st tr tot] w)
      (effect [StatusLine (task_id (inner e)) st tr tot] w')) as (_ & E2 & E3);
      [simpl; by rewrite Ht|done|]. by rewrite E2, E3.
  - destruct (Hinv cb (effect [StatusLine (task_id (inner e)) st tr tot] w)
      (effect [StatusLine (task_id (inner e)) st tr tot] w')) as (_ & E2 & E3);
      [simpl; by rewrite Ht|done|]. by rewrite E2, E3.
Qed.

Lemma cmd_enqueue_paused_world used t cbs w :
  world_inv used w → groups (sched w) !! dedupe_key t = None → task_id t ∉ used →
  world_inv ({[task_id t]} ∪ used) (cmd_enqueue_paused t cbs w) ∧ quiet w (cmd_enqueue_paused t cbs w).
Proof.
  intros Hw Hg Hu. unfold cmd_enqueue_paused. rewrite Hg. set (w0 := upd _ _).
  eapply (register_world used t cbs Paused (current_offset (sched w0) (dedupe_key t))
    (effective_total (sched w0) (dedupe_key t) t) (queued (sched w)) (queued_set (sched w))
    ({[dedupe_key t]} ∪ paused_set (sched w)) w); try done.
  - by right.
  - rewrite sched_emit_status. done.
  - by apply emit_status_trace_sched.
Qed.

Lemma cmd_enqueue_world used t cbs w :
  world_inv used w → groups (sched w) !! dedupe_key t = None → task_id t ∉ used →
  world_inv ({[task_id t]} ∪ used) (cmd_enqueue t cbs w) ∧ starts w (cmd_enqueue t cbs w)
  ∧ blocked (sched (cmd_enqueue t cbs w)).
Proof.
  intros Hw Hg Hu. destruct (dead_key _ _ (proj1 Hw) Hg) as (Ha & Hq & _ & _).
  unfold cmd_enqueue. rewrite Hg, Ha. rewrite (bool_decide_eq_false_2 (is_Some None)) by (by intros [? ?]).
  rewrite sched_emit_status. set (w0 := register_group t cbs w).
  assert (active (sched w0) !! dedupe_key t = None) as -> by done.
  rewrite (bool_decide_eq_false_2 (is_Some None)) by (by intros [? ?]).
  rewrite (bool_decide_eq_false_2 (_ ∈ queued_set (sched w0)))
    by (simpl; by rewrite (si_mirror _ (proj1 Hw)), elem_of_list_to_set).
  cbn [negb andb]. set (w1 := upd _ _).
  assert (world_inv ({[task_id t]} ∪ used) w1 ∧ quiet w w1) as [Hw1 Hq1].
  { eapply (register_world used t cbs Pending (current_offset (sched w0) (dedupe_key t))
      (effective_total (sched w0) (dedupe_key t) t) (queued (sched w) ++ [dedupe_key t])
      ({[dedupe_key t]} ∪ queued_set (sched w)) (paused_set (sched w)) w); try done.
    - by left.
    - unfold w1. simpl. rewrite sched_emit_status. done.
    - unfold w1. simpl. by apply emit_status_trace_sched. }
  split_and!.
  - by apply try_start_next_world.
  - eapply quiet_starts; [done|]. apply try_start_next_starts, Hw1.
  - apply try_start_next_blocked, Hw1.
Qed.

(** ** Close *)

Lemma close_stop_sched k w :
  groups (sched (close_stop k w)) = groups (sched w)
  ∧ active (sched (close_stop k w)) = active (sched w)
  ∧ trace (close_stop k w) = trace w
  ∧ canceling_set (sched (close_stop k w)) = canceling_set (sched w)
  ∧ sched (close_stop k w)
    = if bool_decide (k ∈ canceling_set (sched w)) then sched w
      else set_paused ({[k]} ∪ paused_set (sched w)) (sched w).
Proof.
  unfold close_stop. case_bool_decide.
  - unfold cancel_worker_token. by case_match.
  - destruct (match groups (sched w) !! k with Some _ => _ | None => _ end) as [d w1] eqn:E1.
    assert (sched w1 = sched w ∧ trace w1 = trace w) as [Hw1 Ht1].
    { unfold begin_terminal_pause in E1. repeat case_match; by simplify_eq. }
    destruct d; unfold cancel_worker_token; simpl; rewrite ?Hw1; [|by split_and!].
    destruct (active (sched w) !! k); simpl; rewrite ?Hw1; by split_and!.
Qed.

Lemma close_stop_world used k w :
  world_inv used w → is_Some (active (sched w) !! k) →
  world_inv used (close_stop k w) ∧ quiet w (close_stop k w).
Proof.
  intros [Hi Hh] Ha. destruct (close_stop_sched k w) as (Hg & Hac & Ht & _ & Hs).
  unfold world_inv, quiet. rewrite Hg, Hac, Ht. split; [|done]. split; [|done]. rewrite Hs.
  case_bool_decide as Hc; [done|].
  assert (k ∉ queued (sched w)) as Hq.
  { intros (_ & Hn & _)%(si_queued _ Hi). rewrite Hn in Ha. by destruct Ha. }
  rewrite <- (drop_queue_id k (sched w) Hi Hq) at 2. apply pause_inv; [done| |done].
  by apply (si_active _ Hi).
Qed.

Lemma close_stops_world used ks w :
  world_inv used w → (∀ k, k ∈ ks → is_Some (active (sched w) !! k)) →
  world_inv used (fold_left (λ w k, close_stop k w) ks w)
  ∧ quiet w (fold_left (λ w k, close_stop k w) ks w)
  ∧ groups (sched (fold_left (λ w k, close_stop k w) ks w)) = groups (sched w).
Proof.
  revert w. induction ks as [|k ks IH]; intros w Hw Hks; simpl; [done|].
  destruct (close_stop_world used k w Hw) as [Hw1 Hq1]; [apply Hks; set_solver|].
  destruct (close_stop_sched k w) as (Hg & Hac & _).
  destruct (IH (close_stop k w) Hw1) as (H1 & H2 & H3).
  - intros k' Hk'. rewrite Hac. apply Hks. set_solver.
  - split_and!; [done|by etrans|congruence].
Qed.

(** A group without a running worker has been reported paused. *)
Definition reported_paused (k : UniqueId) (w : World) : Prop :=
  ∀ g, groups (sched w) !! k = Some g →
    last (history (task_id (leader_inner g)) (statuses (trace w))) = Some Paused.

Lemma history_last_other tid tid' st sts :
  tid' ≠ tid → history tid (sts ++ [(tid', st)]) = history tid sts.
Proof. intros H. rewrite history_app, history_one, bool_decide_eq_false_2 by done. apply app_nil_r. Qed.

Lemma history_last_same tid st sts : last (history tid (sts ++ [(tid, st)])) = Some st.
Proof. rewrite history_app, history_one, bool_decide_eq_true_2 by done. apply last_snoc. Qed.

Lemma close_pause_world used k w :
  world_inv used w →
  world_inv used (close_pause_inactive k w) ∧ quiet w (close_pause_inactive k w)
  ∧ sched (close_pause_inactive k w) = sched w
  ∧ reported_paused k (close_pause_inactive k w)
  ∧ (∀ k', reported_paused k' w → reported_paused k' (close_pause_inactive k w)).
Proof.
  intros Hw. unfold close_pause_inactive, reported_paused.
  destruct (groups (sched w) !! k) as [g|] eqn:Hg; [|split_and!; try done; by rewrite Hg].
  destruct (si_entry _ (proj1 Hw) k g Hg) as [Hent _].
  rewrite sched_emit_status, emit_status_statuses, Hent. split_and!.
  - by eapply emit_status_world.
  - apply emit_status_quiet.
  - done.
  - intros g' Hg'. simplify_eq. apply history_last_same.
  - intros k' Hp g' Hg'. destruct (decide (k' = k)) as [->|Hne]; [simplify_eq; apply history_last_same|].
    rewrite history_last_other; [by apply Hp|]. intros He. apply Hne. symmetry.
    by eapply (si_inj _ (proj1 Hw)).
Qed.

Lemma close_pauses_world used ks w :
  world_inv used w →
  world_inv used (fold_left (λ w k, close_pause_inactive k w) ks w)
  ∧ quiet w (fold_left (λ w k, close_pause_inactive k w) ks w)
  ∧ sched (fold_left (λ w k, close_pause_inactive k w) ks w) = sched w
  ∧ (∀ k, k ∈ ks ∨ reported_paused k w →
       reported_paused k (fold_left (λ w k, close_pause_inactive k w) ks w)).
Proof.
  revert w. induction ks as [|k ks IH]; intros w Hw; simpl; [set_solver|].
  destruct (close_pause_world used k w Hw) as (Hw1 & Hq1 & Hs1 & Hr1 & Hk1).
  destruct (IH _ Hw1) as (H1 & H2 & H3 & H4). split_and!; [done|by etrans|congruence|].
  intros k' [[->|Hk']%elem_of_cons|Hp]; apply H4; auto.
Qed.

Definition closing_inv (w : World) : Prop :=
  ∀ k, active (sched w) !! k = None → reported_paused k w.

Lemma close_begin_world used w :
  world_inv used w →
  world_inv used (close_begin w) ∧ quiet w (close_begin w) ∧ closing_inv (close_begin w).
Proof.
  intros Hw. unfold close_begin. set (ks := (map_to_list (active (sched w))).*1).
  destruct (close_stops_world used ks w Hw) as (H1 & H2 & H3).
  { intros k [[k' tok] [-> Hin]]%list_elem_of_fmap. apply elem_of_map_to_list in Hin. by eexists. }
  set (w1 := fold_left (λ w k, close_stop k w) ks w) in *.
  set (inact := filter _ _). destruct (close_pauses_world used inact w1 H1) as (H4 & H5 & H6 & H7).
  split_and!; [done|by etrans|].
  intros k Ha. destruct (groups (sched w1) !! k) as [g|] eqn:Hg.
  - apply H7. left. unfold inact. apply list_elem_of_filter. rewrite H6 in Ha. split; [done|].
    apply list_elem_of_fmap. exists (k, g). split; [done|]. by apply elem_of_map_to_list.
  - intros g' Hg'. rewrite H6 in Hg'. by simplify_eq.
Qed.

(** ** The channel and the running workers *)

(** The running groups left after the events of the channel are handled; every event must
    belong to a group that is running when its turn comes. *)
Fixpoint chan_drain (A : gset UniqueId) (ch : list WorkerEvent) : option (gset UniqueId) :=
  match ch with
  | [] => Some A
  | ev :: ch =>
      if bool_decide (event_key ev ∈ A) then
        chan_drain (if may_change_scheduler_readiness ev then A ∖ {[event_key ev]} else A) ch
      else None
  end.

Lemma chan_drain_app A ch ev R :
  chan_drain A ch = Some R → event_key ev ∈ R →
  chan_drain A (ch ++ [ev])
  = Some (if may_change_scheduler_readiness ev then R ∖ {[event_key ev]} else R).
Proof.
  revert A. induction ch as [|e ch IH]; intros A Hd Hk; simpl in *.
  - simplify_eq. by rewrite bool_decide_eq_true_2.
  - case_bool_decide; [|done]. by apply IH.
Qed.

Lemma chan_drain_union A K ch R :
  K ## A → chan_drain A ch = Some R → chan_drain (A ∪ K) ch = Some (R ∪ K).
Proof.
  revert A. induction ch as [|e ch IH]; intros A Hdis Hd; simpl in *; [by simplify_eq|].
  case_bool_decide as Hin; [|done]. rewrite bool_decide_eq_true_2 by set_solver.
  destruct (may_change_scheduler_readiness e); [|by apply IH].
  replace ((A ∪ K) ∖ {[event_key e]}) with (A ∖ {[event_key e]} ∪ K); [apply IH; [set_solver|done]|].
  apply leibniz_equiv. set_solver.
Qed.

Lemma chan_drain_subset A ch R : chan_drain A ch = Some R → R ⊆ A.
Proof.
  revert A. induction ch as [|e ch IH]; intros A Hd; simpl in *; [by simplify_eq|].
  case_bool_decide; [|done]. apply IH in Hd. destruct (may_change_scheduler_readiness e); set_solver.
Qed.

(** ** The invariant of the system *)

Definition closed_hist (y : Sys) : Prop :=
  ∀ tid, tid ∈ used_ids y → ∃ pre st,
    history tid (statuses (trace (world y))) = pre ++ [st]
    ∧ Forall (λ st, is_final st = false) pre ∧ (is_final st = true ∨ st = Paused).

Record sys_inv (y : Sys) : Prop := {
  sy_sched : sched_inv (sched (world y));
  sy_nodup : NoDup (running y);
  sy_chan : chan_drain (dom (active (sched (world y)))) (chan y) = Some (list_to_set (running y));
  sy_hist : phase y ≠ PhaseClosed →
    hist_inv (groups (sched (world y))) (used_ids y) (statuses (trace (world y)));
  sy_blocked : phase y = PhaseOpen → blocked (sched (world y));
  sy_closing : phase y = PhaseClosing → closing_inv (world y);
  sy_closed : phase y = PhaseClosed → groups (sched (world y)) = ∅ ∧ closed_hist y;
}.

(** An operation that starts workers keeps the channel accounted for. *)
Lemma starts_chan A ch R w w' :
  dom (active (sched w)) = A → chan_drain A ch = Some (list_to_set R) → NoDup R → starts w w' →
  NoDup (R ++ new_workers w w')
  ∧ chan_drain (dom (active (sched w'))) ch = Some (list_to_set (R ++ new_workers w w')).
Proof.
  intros <- Hd Hnd (ks & Hsp & Hks & Hfresh & Hact). unfold new_workers.
  rewrite Hsp, drop_app_length, list_to_set_app_L.
  assert (dom (active (sched w')) = dom (active (sched w)) ∪ list_to_set ks) as ->.
  { apply leibniz_equiv. intros k. rewrite elem_of_union, elem_of_list_to_set, !elem_of_dom. apply Hact. }
  assert (∀ k, k ∈ ks → k ∉ dom (active (sched w))) as Hnk.
  { intros k Hk%Hfresh. by rewrite elem_of_dom, Hk; intros [? ?]. }
  pose proof (chan_drain_subset _ _ _ Hd) as Hsub.
  split; [apply NoDup_app; split_and!; [done| |done]|apply chan_drain_union; [|done]].
  - intros k Hk Hk'. apply (Hnk k Hk'), Hsub. by apply elem_of_list_to_set.
  - intros k Hk%elem_of_list_to_set. by apply Hnk.
Qed.

Lemma sys_op_inv w' ch ph y A ids :
  NoDup (running y) → chan_drain A ch = Some (list_to_set (running y)) →
  (∃ w1, dom (active (sched w1)) = A ∧ spawned_keys (trace w1) = spawned_keys (trace (world y))
         ∧ starts w1 w') →
  sched_inv (sched w') →
  (ph ≠ PhaseClosed → hist_inv (groups (sched w')) ids (statuses (trace w'))) →
  (ph = PhaseOpen → blocked (sched w')) →
  (ph = PhaseClosing → closing_inv w') →
  ph ≠ PhaseClosed →
  sys_inv (with_ids ids (sys_op w' ch ph y)).
Proof.
  intros Hnd Hd (w1 & HA & Hsp & Hst) Hi Hh Hb Hc Hph.
  destruct (starts_chan A ch (running y) w1 w' HA Hd Hnd Hst) as [H1 H2].
  unfold new_workers in *. rewrite Hsp in H1, H2.
  constructor; simpl; auto; done.
Qed.

Lemma sys_op_ids w' ch ph y : with_ids (used_ids y) (sys_op w' ch ph y) = sys_op w' ch ph y.
Proof. done. Qed.

Lemma on_progress_blocked k off tot w :
  blocked (sched w) → blocked (sched (on_progress k off tot w)).
Proof.
  intros Hb. unfold on_progress. destruct (groups (sched w) !! k); [|done].
  destruct (bool_decide _); rewrite ?sched_emit_status; exact Hb.
Qed.

Lemma sys_init_inv up down ls : 0 ≤ up → 0 ≤ down → sys_inv (sys_init up down ls).
Proof.
  intros Hu Hd. constructor; simpl; try done.
  - by apply scheduler_new_inv.
  - constructor.
  - intros _. constructor; try done; intros tid (k & g & Hg & _); by rewrite lookup_empty in Hg.
  - intros _ k Hk. simpl in Hk. set_solver.
Qed.

Lemma open_world y : sys_inv y → phase y ≠ PhaseClosed → world_inv (used_ids y) (world y).
Proof. intros Hy Hp. split; [apply Hy|by apply (sy_hist _ Hy)]. Qed.

(** An operation of the open client that starts from the current world. *)
Lemma sys_open_op w' y ids :
  sys_inv y → phase y = PhaseOpen →
  world_inv ids w' → starts (world y) w' → blocked (sched w') →
  sys_inv (with_ids ids (sys_op w' (chan y) PhaseOpen y)).
Proof.
  intros Hy Hp Hw Hst Hb. eapply sys_op_inv; try done.
  - apply Hy.
  - apply (sy_chan _ Hy).
  - exists (world y). done.
  - apply Hw.
  - intros _. apply Hw.
Qed.

Lemma sys_control_inv c y :
  sys_inv y → phase y = PhaseOpen → cmd_task c = None →
  sys_inv (sys_op (handle_cmd c (world y)) (chan y) PhaseOpen y).
Proof.
  intros Hy Hp Hc. rewrite <- sys_op_ids.
  pose proof (open_world y Hy ltac:(by rewrite Hp)) as Hw.
  destruct c as [| |tid|tid|tid|]; try done; cbn [handle_cmd].
  - destruct (control_cmd_world (used_ids y) pause_group tid (world y)) as (? & ? & ?); [|done|].
    { intros k w. apply pause_group_world. } by apply sys_open_op.
  - destruct (control_cmd_world (used_ids y) resume_group tid (world y)) as (? & ? & ?); [|done|].
    { intros k w H _. by apply resume_group_world. } by apply sys_open_op.
  - destruct (control_cmd_world (used_ids y) cancel_group tid (world y)) as (? & ? & ?); [|done|].
    { intros k w. apply cancel_group_world. } by apply sys_open_op.
  - apply sys_open_op; [done|done| | |].
    + destruct Hw as [Hi Hh]. split; [done|]. simpl. by rewrite statuses_app, app_nil_r.
    + apply quiet_is_starts. split; [simpl; by rewrite spawned_keys_app, app_nil_r|done].
    + by apply (sy_blocked _ Hy).
Qed.

Lemma sys_enqueue_inv c t y :
  sys_inv y → phase y = PhaseOpen → cmd_task c = Some t → task_id t ∉ used_ids y →
  sys_inv (with_ids (accept_id t y) (sys_op (handle_cmd c (world y)) (chan y) PhaseOpen y)).
Proof.
  intros Hy Hp Hc Hu. pose proof (open_world y Hy ltac:(by rewrite Hp)) as Hw.
  pose proof (sy_blocked _ Hy Hp) as Hb. unfold accept_id.
  destruct c as [t' cbs|t' cbs| | | |]; simpl in Hc; simplify_eq; cbn [handle_cmd];
    destruct (groups (sched (world y)) !! dedupe_key t) as [g|] eqn:Hg.
  1,3: unfold cmd_enqueue, cmd_enqueue_paused; rewrite Hg;
    destruct (reject_world (used_ids y) g cbs (world y) Hw) as [H1 H2];
    apply sys_open_op; [done|done|done|by apply quiet_is_starts|];
    destruct (reject_duplicate_effect g cbs (world y)) as (es & -> & _); exact Hb.
  - destruct (cmd_enqueue_world (used_ids y) t cbs (world y)) as (H1 & H2 & H3); [done..|].
    by apply sys_open_op.
  - destruct (cmd_enqueue_paused_world (used_ids y) t cbs (world y)) as (H1 & H2); [done..|].
    apply sys_open_op; [done|done|done|by apply quiet_is_starts|].
    unfold cmd_enqueue_paused. rewrite Hg, sched_emit_status. exact Hb.
Qed.

Lemma chan_head y ev rest :
  sys_inv y → chan y = ev :: rest →
  is_Some (active (sched (world y)) !! event_key ev)
  ∧ chan_drain (if may_change_scheduler_readiness ev
                then dom (active (sched (world y))) ∖ {[event_key ev]}
                else dom (active (sched (world y)))) rest = Some (list_to_set (running y)).
Proof.
  intros Hy Hch. pose proof (sy_chan _ Hy) as Hd. rewrite Hch in Hd. simpl in Hd.
  case_bool_decide as Hin; [|done]. split; [by apply elem_of_dom|done].
Qed.

(** Handling an event, in the open and in the closing client. *)
Lemma handle_event_world y ev rest :
  sys_inv y → phase y ≠ PhaseClosed → chan y = ev :: rest →
  let w1 := handle_quiescent_worker_event ev (world y) in
  world_inv (used_ids y) w1 ∧ spawned_keys (trace w1) = spawned_keys (trace (world y))
  ∧ chan_drain (dom (active (sched w1))) rest = Some (list_to_set (running y))
  ∧ (may_change_scheduler_readiness ev = false → blocked (sched (world y)) → blocked (sched w1)).
Proof.
  intros Hy Hp Hch w1. destruct (chan_head y ev rest Hy Hch) as [Ha Hd].
  pose proof (open_world y Hy Hp) as Hw.
  destruct (may_change_scheduler_readiness ev) eqn:Et.
  - destruct (handle_terminal_world (used_ids y) ev (world y) Hw Et Ha) as (H1 & H2 & H3).
    fold w1 in H1, H2, H3. split_and!; [done|done| |done]. by rewrite H3, dom_delete_L.
  - destruct ev as [k off tot| | |]; try done.
    destruct (handle_progress_world (used_ids y) k off tot (world y) Hw) as [H1 [H2 H3]].
    fold w1 in H1, H2, H3. split_and!; [done|done|by rewrite H3|].
    intros _ Hb. by apply on_progress_blocked.
Qed.

Lemma sys_deliver_inv ev rest y :
  sys_inv y → phase y = PhaseOpen → chan y = ev :: rest →
  sys_inv (sys_op (deliver_event ev (world y)) rest PhaseOpen y).
Proof.
  intros Hy Hp Hch. rewrite <- sys_op_ids.
  destruct (handle_event_world y ev rest Hy ltac:(by rewrite Hp) Hch) as (H1 & H2 & H3 & H4).
  unfold deliver_event. set (w1 := handle_quiescent_worker_event ev (world y)) in *.
  destruct (may_change_scheduler_readiness ev) eqn:Et.
  - pose proof (try_start_next_world _ _ H1) as Hw. eapply sys_op_inv; try done.
    + apply Hy.
    + exists w1. split_and!; [done|done|]. apply try_start_next_starts, H1.
    + apply Hw.
    + intros _. apply Hw.
    + intros _. apply try_start_next_blocked, H1.
  - eapply sys_op_inv; try done.
    + apply Hy.
    + exists w1. split_and!; [done|done|]. by apply quiet_is_starts.
    + apply H1.
    + intros _. apply H1.
    + intros _. apply H4; [done|]. by apply (sy_blocked _ Hy).
Qed.

Lemma sys_close_begin_inv y :
  sys_inv y → phase y = PhaseOpen →
  sys_inv (sys_op (close_begin (world y)) (chan y) PhaseClosing y).
Proof.
  intros Hy Hp. rewrite <- sys_op_ids.
  destruct (close_begin_world (used_ids y) (world y)) as (H1 & H2 & H3).
  { apply open_world; [done|by rewrite Hp]. }
  eapply sys_op_inv; try done.
  - apply Hy.
  - apply (sy_chan _ Hy).
  - exists (world y). split_and!; [done|done|]. by apply quiet_is_starts.
  - apply H1.
  - intros _. apply H1.
Qed.

(** While closing, the groups without a worker stay reported paused. *)
Lemma closing_terminal ev w :
  sched_inv (sched w) → closing_inv w → may_change_scheduler_readiness ev = true →
  is_Some (active (sched w) !! event_key ev) →
  closing_inv (handle_quiescent_worker_event ev w).
Proof.
  intros Hi Hc Ht Ha. destruct (si_active _ Hi _ Ha) as [g Hg].
  unfold handle_quiescent_worker_event.
  destruct (release_snapshot_quiet ev w) as [_ S1].
  destruct (abort_quiescent_quiet ev (release_snapshot_handle ev w)) as [_ S2].
  pose proof (release_snapshot_sched ev w) as E1.
  pose proof (abort_quiescent_sched ev (release_snapshot_handle ev w)) as E2.
  set (w1 := abort_quiescent_upload _ _) in *. assert (sched w1 = sched w) as E by congruence.
  destruct (handle_terminal_sched ev w1 g) as [Hgr Hac]; [by rewrite ?E..|].
  destruct (extends_statuses _ _ _ _ (handle_terminal_trace ev w1 g Ht ltac:(by rewrite E))) as [Hst _].
  destruct (si_entry _ Hi _ _ Hg) as [Hent _].
  intros k Hk g' Hg'. rewrite Hac, E in Hk. rewrite Hgr, E in Hg'. rewrite Hst, S2, S1, E, Hent.
  destruct (decide (k = event_key ev)) as [->|Hne].
  - revert Hg'. destruct (survives ev (sched w)) eqn:Es; [|by rewrite lookup_delete_eq].
    intros Hg'. simplify_eq. destruct ev; try done. apply history_last_same.
  - assert (groups (sched w) !! k = Some g') as Hgw.
    { revert Hg'. destruct (survives ev (sched w)); [done|]. by rewrite lookup_delete_ne. }
    rewrite lookup_delete_ne in Hk by done.
    rewrite history_last_other; [by apply (Hc k)|].
    intros He. apply Hne. by apply (si_inj _ Hi k (event_key ev) g' g).
Qed.

Lemma closing_progress k off tot w :
  sched_inv (sched w) → closing_inv w → is_Some (active (sched w) !! k) →
  closing_inv (handle_quiescent_worker_event (EvProgress k off tot) w).
Proof.
  intros Hi Hc Ha. destruct (si_active _ Hi _ Ha) as [g Hg].
  destruct (si_entry _ Hi _ _ Hg) as [Hent _].
  change (handle_quiescent_worker_event (EvProgress k off tot) w) with (on_progress k off tot w).
  unfold on_progress. rewrite Hg. set (w1 := upd _ w).
  assert (closing_inv w1) as Hc1 by exact Hc.
  destruct (bool_decide _); [done|].
  intros k' Hk' g' Hg'. rewrite sched_emit_status in Hk', Hg'. rewrite emit_status_statuses, Hent.
  rewrite history_last_other; [by apply (Hc1 k')|].
  intros He. assert (k' = k) as -> by (by eapply (si_inj _ Hi)).
  simpl in Hk'. rewrite Hk' in Ha. by destruct Ha.
Qed.

Lemma sys_close_drain_inv ev rest y :
  sys_inv y → phase y = PhaseClosing → chan y = ev :: rest →
  sys_inv (sys_op (handle_quiescent_worker_event ev (world y)) rest PhaseClosing y).
Proof.
  intros Hy Hp Hch. rewrite <- sys_op_ids.
  destruct (handle_event_world y ev rest Hy ltac:(by rewrite Hp) Hch) as (H1 & H2 & H3 & _).
  destruct (chan_head y ev rest Hy Hch) as [Ha _].
  eapply sys_op_inv; try done.
  - apply Hy.
  - exists (handle_quiescent_worker_event ev (world y)). split_and!; [done|done|]. by apply quiet_is_starts.
  - apply H1.
  - intros _. apply H1.
  - intros _. pose proof (sy_closing _ Hy Hp) as Hc.
    destruct (may_change_scheduler_readiness ev) eqn:Et.
    + apply closing_terminal; [apply Hy|done..].
    + destruct ev as [k off tot| | |]; try done. apply closing_progress; [apply Hy|done..].
Qed.

Lemma chan_drain_empty ch R : chan_drain ∅ ch = Some R → ch = [] ∧ R = ∅.
Proof. destruct ch; simpl; [naive_solver|]. rewrite bool_decide_eq_false_2; set_solver. Qed.

Lemma last_app_inv (l : list TransferStatus) x : last l = Some x → ∃ pre, l = pre ++ [x].
Proof. intros H. by apply last_Some. Qed.

Lemma sys_close_finish_inv y :
  sys_inv y → phase y = PhaseClosing → active (sched (world y)) = ∅ →
  sys_inv (sys_op (close_finish (world y)) (chan y) PhaseClosed y).
Proof.
  intros Hy Hp Ha. pose proof (sy_chan _ Hy) as Hd. rewrite Ha, dom_empty_L in Hd.
  apply chan_drain_empty in Hd as [Hch Hr]. pose proof (sy_closing _ Hy Hp) as Hc.
  assert (running y = []) as Hrun.
  { destruct (running y) as [|k ks]; [done|]. simpl in Hr. set_solver. }
  assert (new_workers (world y) (close_finish (world y)) = []) as Hnew.
  { unfold new_workers, close_finish. simpl. rewrite !spawned_keys_app. simpl. rewrite !app_nil_r.
    apply drop_all. }
  assert (statuses (trace (close_finish (world y))) = statuses (trace (world y))) as Hst.
  { unfold close_finish. simpl. rewrite !statuses_app. simpl. by rewrite !app_nil_r. }
  constructor; try done; cbn [world running chan phase used_ids sys_op with_ids].
  - pose proof (si_max_up _ (sy_sched _ Hy)) as Hu. pose proof (si_max_down _ (sy_sched _ Hy)) as Hdn.
    rewrite (si_up _ (sy_sched _ Hy)) in Hu. rewrite (si_down _ (sy_sched _ Hy)) in Hdn.
    pose proof (dir_count_nonneg Upload (active (sched (world y)))).
    pose proof (dir_count_nonneg Download (active (sched (world y)))).
    pose proof (scheduler_new_inv (max_upload_concurrency (sched (world y)))
      (max_download_concurrency (sched (world y))) None ltac:(lia) ltac:(lia)) as [].
    by constructor.
  - rewrite Hrun, Hnew. constructor.
  - rewrite Hrun, Hnew, Hch. simpl. done.
  - intros _. split; [done|]. intros tid Ht. simpl in Ht. cbn [world sys_op]. rewrite Hst.
    destruct (sy_hist _ Hy ltac:(by rewrite Hp)) as [_ Hl Hdone _].
    destruct (decide (Exists (λ kg : UniqueId * GroupState, task_id (leader_inner kg.2) = tid)
      (map_to_list (groups (sched (world y)))))) as [Hex|Hnex].
    + apply Exists_exists in Hex.
      destruct Hex as ([k g] & Hin & <-). apply elem_of_map_to_list in Hin. simpl.
      assert (live (groups (sched (world y))) (task_id (leader_inner g))) as Hlive by (by exists k, g).
      destruct (last_app_inv _ _ (Hc k ltac:(by rewrite Ha) g Hin)) as [pre Hpre].
      exists pre, Paused. split_and!; [done| |by right].
      apply Hl in Hlive. rewrite Hpre in Hlive. by apply Forall_app in Hlive as [? _].
    + destruct (Hdone tid Ht) as (pre & st & H1 & H2 & H3).
      { intros (k & g & Hg & He). apply Hnex, Exists_exists. exists (k, g).
        split; [by apply elem_of_map_to_list|done]. }
      exists pre, st. auto.
Qed.

Lemma sys_frame_inv w' y :
  sys_inv y → sched_inv (sched w') → trace w' = trace (world y) →
  groups (sched w') = groups (sched (world y)) → active (sched w') = active (sched (world y)) →
  (blocked (sched (world y)) → blocked (sched w')) →
  sys_inv (sys_op w' (chan y) (phase y) y).
Proof.
  intros Hy Hi Ht Hg Ha Hb.
  assert (new_workers (world y) w' = []) as Hn by (unfold new_workers; rewrite Ht; apply drop_all).
  constructor; simpl; rewrite ?Hn, ?app_nil_r, ?Ht, ?Hg, ?Ha; try apply Hy; try done.
  - intros Hp. by apply Hb, (sy_blocked _ Hy).
  - intros Hp k. unfold closing_inv, reported_paused. rewrite Ht, Hg, Ha. by apply (sy_closing _ Hy).
  - intros Hp. destruct (sy_closed _ Hy Hp) as [H1 H2]. split; [done|].
    unfold closed_hist in *. simpl. rewrite Ht. done.
Qed.

Lemma running_remove (l : list UniqueId) i k :
  NoDup l → l !! i = Some k →
  NoDup (delete i l) ∧ (list_to_set l ∖ {[k]} : gset UniqueId) = list_to_set (delete i l) ∧ k ∈ l.
Proof.
  intros Hnd Hi. pose proof (delete_Permutation _ _ _ Hi) as Hp.
  assert (∀ x, x ∈ l ↔ x = k ∨ x ∈ delete i l) as Hel.
  { intros x. rewrite Hp at 1. apply elem_of_cons. }
  rewrite Hp in Hnd. apply NoDup_cons in Hnd as [Hni Hnd]. split_and!; [done| |apply Hel; by left].
  apply leibniz_equiv. intros x.
  rewrite elem_of_difference, !elem_of_list_to_set, elem_of_singleton, Hel.
  destruct (decide (x = k)) as [->|]; naive_solver.
Qed.

Lemma sys_step_inv y y' : sys_inv y → sys_step y y' → sys_inv y'.
Proof.
  intros Hy Hs. destruct Hs.
  - by apply sys_enqueue_inv.
  - by apply sys_control_inv.
  - destruct Hy. constructor; simpl; try done.
    by rewrite (chan_drain_app _ _ (EvProgress k off tot) _ sy_chan0) by (simpl; set_solver).
  - destruct Hy. destruct (running_remove _ _ _ sy_nodup0 H0) as (Hnd & Heq & Hin).
    constructor; simpl; try done.
    rewrite (chan_drain_app _ _ ev _ sy_chan0), H by (by apply elem_of_list_to_set). by rewrite Heq.
  - apply sys_frame_inv; try done. apply Hy.
  - apply sys_frame_inv; try done. destruct (sy_sched _ Hy). by constructor.
  - by apply sys_deliver_inv.
  - by apply sys_close_begin_inv.
  - by apply sys_close_drain_inv.
  - by apply sys_close_finish_inv.
Qed.

Lemma sys_reachable_inv up down ls y :
  0 ≤ up → 0 ≤ down → rtc sys_step (sys_init up down ls) y → sys_inv y.
Proof.
  intros Hu Hd. apply rtc_invariant; [intros ? ?; apply sys_step_inv|by apply sys_init_inv].
Qed.

(** ** Pending terminal events *)

(** Terminal events of [k] waiting in the channel. *)
Definition pending_terminals (k : UniqueId) (ch : list WorkerEvent) : nat :=
  length (filter (λ ev, may_change_scheduler_readiness ev = true ∧ event_key ev = k) ch).

Lemma chan_drain_pending A ch R k :
  chan_drain A ch = Some R →
  (k ∈ R → k ∈ A) ∧ (k ∈ A ↔ k ∈ R ∨ pending_terminals k ch = 1%nat)
  ∧ (k ∈ R → pending_terminals k ch = 0%nat)
  ∧ (k ∉ A → Forall (λ ev, event_key ev ≠ k) ch).
Proof.
  unfold pending_terminals. revert A. induction ch as [|ev ch IH]; intros A Hd; simpl in Hd.
  { simplify_eq. split_and!; [done|split; [by left|by intros [?|?]]|done|constructor]. }
  case_bool_decide as Hin; [|done].
  destruct (may_change_scheduler_readiness ev) eqn:Et.
  - destruct (IH _ Hd) as (H1 & H2 & H3 & H4).
    destruct (decide (event_key ev = k)) as [<-|Hne].
    + rewrite filter_cons_True by done.
      assert (event_key ev ∉ R) as HnR by (intros ?%H1; set_solver).
      assert (length (filter (λ ev0, may_change_scheduler_readiness ev0 = true ∧ event_key ev0 = event_key ev) ch) = 0)%nat as Hz.
      { assert (Forall (λ ev0, event_key ev0 ≠ event_key ev) ch) as Hall by (apply H4; set_solver).
        clear -Hall. induction Hall; [done|]. rewrite filter_cons_False by tauto. done. }
      simpl. rewrite Hz. split_and!; [done|split; [by right|done]|done|set_solver].
    + rewrite filter_cons_False by tauto.
      split_and!; [set_solver|set_solver|done|]. intros Hk. constructor; [done|apply H4; set_solver].
  - rewrite filter_cons_False by (by rewrite Et; intros [? ?]). destruct (IH _ Hd) as (H1 & H2 & H3 & H4).
    split_and!; [done|done|done|]. intros Hk. constructor; [by intros <-|by apply H4].
Qed.

(** ** Demonstration *)

Definition demo_cbs : TaskCallbacks := mkTaskCallbacks (Some 1) (Some 2).
Definition demo_download (tid : TaskId) (u : string) : InnerTask :=
  mkInnerTask tid "" u u None Download 0 10 u 2 0 1.

Definition sys_enqueue_of (t : InnerTask) (y : Sys) : Sys :=
  with_ids (accept_id t y) (sys_op (handle_cmd (CmdEnqueue t demo_cbs) (world y)) (chan y) PhaseOpen y).

(** One download runs, a second one waits for the only slot. *)
Definition demo_y0 : Sys := sys_init 1 1 (Some []).
Definition demo_y1 : Sys := sys_enqueue_of (demo_download 7 "a"%string) demo_y0.
Definition demo_y2 : Sys := sys_enqueue_of (demo_download 8 "b"%string) demo_y1.

Lemma demo_y2_reachable : rtc sys_step demo_y0 demo_y2.
Proof.
  eapply rtc_l; [eapply (sys_enqueue (CmdEnqueue (demo_download 7 "a"%string) demo_cbs)); [done|done|set_solver]|].
  eapply rtc_l; [eapply (sys_enqueue (CmdEnqueue (demo_download 8 "b"%string) demo_cbs) (demo_download 8 "b"%string) demo_y1)|].
  - done.
  - done.
  - by vm_compute.
  - apply rtc_refl.
Qed.

(** ** Properties *)

(** C3: after any sequence of commands, worker events and lifecycle changes the scheduler's
    maps are consistent: the queue has no duplicates and equals its mirror, the counters are the
    numbers of running uploads and downloads and respect the concurrency limits, queued groups
    are neither running nor paused, canceling groups run, the task ids that can be controlled
    are exactly those of the live groups not being canceled, no offset outlives its group, and
    every live group is queued, running or paused, so none is forgotten. *)
Theorem scheduler_state_consistent up down ls y :
  0 ≤ up → 0 ≤ down → rtc sys_step (sys_init up down ls) y → sched_inv (sched (world y)).
Proof. intros Hu Hd Hr. apply (sy_sched y). exact (sys_reachable_inv up down ls y Hu Hd Hr). Qed.

Lemma scheduler_state_consistent_witness :
  sched_inv (sched (world demo_y2)) ∧ queued (sched (world demo_y2)) = [(Download, "b"%string)].
Proof.
  split; [|by vm_compute].
  apply (scheduler_state_consistent 1 1 (Some []) demo_y2); [lia|lia|exact demo_y2_reachable].
Defined.

(** C21: while the client is open no slot is wasted: a group waits in the queue only when as
    many groups of its direction run as the limit allows. *)
Theorem work_conserving up down ls y k :
  0 ≤ up → 0 ≤ down → rtc sys_step (sys_init up down ls) y →
  phase y = PhaseOpen → k ∈ queued (sched (world y)) →
  dir_count k.1 (active (sched (world y)))
  = match k.1 with
    | Upload => max_upload_concurrency (sched (world y))
    | Download => max_download_concurrency (sched (world y))
    end.
Proof.
  intros Hu Hd Hr Hp Hk. pose proof (sys_reachable_inv up down ls y Hu Hd Hr) as Hy.
  pose proof (sy_blocked _ Hy Hp k Hk) as Hb. pose proof (sy_sched _ Hy) as Hi.
  pose proof (si_up _ Hi). pose proof (si_down _ Hi).
  pose proof (si_max_up _ Hi). pose proof (si_max_down _ Hi).
  unfold can_start_direction, active_direction_count in Hb. destruct (k.1); zbool; lia.
Qed.

Lemma work_conserving_witness :
  dir_count Download (active (sched (world demo_y2)))
  = max_download_concurrency (sched (world demo_y2)).
Proof.
  apply (work_conserving 1 1 (Some []) demo_y2 (Download, "b"%string));
    [lia|lia|exact demo_y2_reachable|done|].
  assert (queued (sched (world demo_y2)) = [(Download, "b"%string)]) as -> by (by vm_compute).
  apply list_elem_of_singleton. reflexivity.
Defined.

(** A group never has two workers: the running workers belong to distinct groups, and a
    group counts as running exactly while its worker runs or its single terminal event waits in
    the channel; so a target is never written by two workers and no slot leaks. *)
Theorem one_worker_per_group up down ls y k :
  0 ≤ up → 0 ≤ down → rtc sys_step (sys_init up down ls) y →
  NoDup (running y)
  ∧ (is_Some (active (sched (world y)) !! k) ↔
     k ∈ running y ∨ pending_terminals k (chan y) = 1%nat)
  ∧ (k ∈ running y → pending_terminals k (chan y) = 0%nat).
Proof.
  intros Hu Hd Hr. pose proof (sys_reachable_inv up down ls y Hu Hd Hr) as Hy.
  destruct (chan_drain_pending _ _ _ k (sy_chan _ Hy)) as (_ & H2 & H3 & _).
  rewrite elem_of_list_to_set in H2, H3. rewrite elem_of_dom in H2.
  split_and!; [apply Hy|done|done].
Qed.

Lemma one_worker_per_group_witness :
  running demo_y2 = [(Download, "a"%string)]
  ∧ pending_terminals (Download, "a"%string) (chan demo_y2) = 0%nat.
Proof.
  assert (running demo_y2 = [(Download, "a"%string)]) as Hrun by (by vm_compute).
  split; [done|].
  apply (one_worker_per_group 1 1 (Some []) demo_y2 (Download, "a"%string));
    [lia|lia|exact demo_y2_reachable|].
  rewrite Hrun. apply list_elem_of_singleton. reflexivity.
Defined.

(** Each accepted task is given exactly one final status, as the last one, when its group is
    removed, and none while its group is live. *)
Lemma status_history up down ls y tid :
  0 ≤ up → 0 ≤ down → rtc sys_step (sys_init up down ls) y →
  phase y ≠ PhaseClosed → tid ∈ used_ids y →
  let h := history tid (statuses (trace (world y))) in
  (live (groups (sched (world y))) tid ∧ Forall (λ st, is_final st = false) h)
  ∨ (¬ live (groups (sched (world y))) tid
     ∧ ∃ pre st, h = pre ++ [st] ∧ is_final st = true ∧ Forall (λ st, is_final st = false) pre).
Proof.
  intros Hu Hd Hr Hp Ht h. pose proof (sys_reachable_inv up down ls y Hu Hd Hr) as Hy.
  destruct (sy_hist _ Hy Hp) as [_ Hl Hdn _].
  destruct (decide (Exists (λ kg : UniqueId * GroupState, task_id (leader_inner kg.2) = tid)
    (map_to_list (groups (sched (world y)))))) as [Hex|Hnex].
  - left. apply Exists_exists in Hex as ([k g] & Hin%elem_of_map_to_list & <-).
    assert (live (groups (sched (world y))) (task_id (leader_inner g))) by (by exists k, g).
    split; [done|by apply Hl].
  - assert (¬ live (groups (sched (world y))) tid) as Hn.
    { intros (k & g & Hg & He). apply Hnex, Exists_exists. exists (k, g).
      split; [by apply elem_of_map_to_list|done]. }
    right. split; [done|]. by apply Hdn.
Qed.

(** The running download of the demo fails, which starts the other one. *)
Definition demo_fail : WorkerEvent :=
  EvFailed (Download, "a"%string) (from_code_str HttpError "reset"%string) 0.
Definition demo_y3 : Sys :=
  mkSys (world demo_y2) (delete 0%nat (running demo_y2)) (chan demo_y2 ++ [demo_fail]) (phase demo_y2) (used_ids demo_y2).
Definition demo_y4 : Sys := sys_op (deliver_event demo_fail (world demo_y3)) [] PhaseOpen demo_y3.

Lemma demo_y4_reachable : rtc sys_step demo_y0 demo_y4.
Proof.
  etrans; [exact demo_y2_reachable|].
  eapply rtc_l; [apply (sys_terminal demo_fail 0); [done|by vm_compute]|].
  eapply rtc_l; [|apply rtc_refl]. apply (sys_deliver demo_fail [] demo_y3); [done|by vm_compute].
Qed.

(** A closing client is never stuck. *)
Lemma closing_not_stuck y :
  sys_inv y → active (sched (world y)) = ∅ ∨ running y ≠ [] ∨ chan y ≠ [].
Proof.
  intros Hy. pose proof (sy_chan _ Hy) as Hc.
  destruct (chan y) as [|ev ch]; [|by right; right].
  destruct (running y) as [|k ks]; [|by right; left].
  left. simpl in Hc. simplify_eq. by apply dom_empty_inv_L.
Qed.

(** Handling an event while closing starts no worker. *)
Lemma close_drain_running ev rest y :
  sys_inv y → phase y = PhaseClosing → chan y = ev :: rest →
  running (sys_op (handle_quiescent_worker_event ev (world y)) rest PhaseClosing y) = running y.
Proof.
  intros Hy Hp Hch.
  destruct (handle_event_world y ev rest Hy ltac:(by rewrite Hp) Hch) as (_ & Hs & _).
  simpl. unfold new_workers. by rewrite Hs, drop_all, app_nil_r.
Qed.

Lemma closing_can_finish n y :
  sys_inv y → phase y = PhaseClosing → (2 * length (running y) + length (chan y) ≤ n)%nat →
  ∃ y', rtc sys_step y y' ∧ phase y' = PhaseClosed.
Proof.
  revert y. induction n as [|n IH]; intros y Hy Hp Hn;
    (destruct (decide (active (sched (world y)) = ∅)) as [Ha|Ha];
     [eexists; split; [by apply rtc_once, sys_close_finish|done]|]);
    destruct (chan y) as [|ev rest] eqn:Hch.
  - destruct (running y) eqn:Hrun; [|simpl in Hn; lia].
    by destruct (closing_not_stuck y Hy) as [?|[?|?]].
  - simpl in Hn. lia.
  - destruct (running y) as [|k ks] eqn:Hrun;
      [by destruct (closing_not_stuck y Hy) as [?|[?|?]]|].
    assert (sys_step y (mkSys (world y) (delete 0%nat (running y)) (chan y ++ [EvCanceled k 0])
      (phase y) (used_ids y))) as Hstep by (apply sys_terminal; [done|by rewrite Hrun]).
    edestruct IH as (y' & Hr & Hp'); [exact (sys_step_inv _ _ Hy Hstep)|done| |].
    { simpl. rewrite Hrun, Hch. simpl in *. lia. }
    exists y'. split; [by eapply rtc_l|done].
  - assert (sys_step y (sys_op (handle_quiescent_worker_event ev (world y)) rest PhaseClosing y))
      as Hstep by (by apply sys_close_drain).
    edestruct IH as (y' & Hr & Hp'); [exact (sys_step_inv _ _ Hy Hstep)|done| |].
    { rewrite close_drain_running by done. simpl in *. lia. }
    exists y'. split; [by eapply rtc_l|done].
Qed.

(** C22: closing the client cannot get stuck and loses no task: while it is closing, either
    nothing is active any more and it can finish, or a worker still runs or has sent an event to
    handle, and from there the close can reach its end; and once it is closed no group, worker
    or event is left and the last status reported for every accepted task is final or paused. *)
Theorem close_reports_every_task up down ls y :
  0 ≤ up → 0 ≤ down → rtc sys_step (sys_init up down ls) y →
  (phase y = PhaseClosing →
     (active (sched (world y)) = ∅ ∨ running y ≠ [] ∨ chan y ≠ [])
     ∧ ∃ y', rtc sys_step y y' ∧ phase y' = PhaseClosed)
  ∧ (phase y = PhaseClosed →
     groups (sched (world y)) = ∅ ∧ active (sched (world y)) = ∅ ∧ running y = [] ∧ chan y = []
     ∧ closed_hist y).
Proof.
  intros Hu Hd Hr. pose proof (sys_reachable_inv up down ls y Hu Hd Hr) as Hy.
  pose proof (sy_chan _ Hy) as Hc. split.
  - intros Hp. split; [by apply closing_not_stuck|]. by eapply closing_can_finish.
  - intros Hp. destruct (sy_closed _ Hy Hp) as [Hg Hh].
    assert (active (sched (world y)) = ∅) as Ha.
    { apply map_eq. intros k. rewrite lookup_empty. apply eq_None_not_Some.
      intros [g Hgk]%(si_active _ (sy_sched _ Hy)). by rewrite Hg in Hgk. }
    rewrite Ha, dom_empty_L in Hc. apply chan_drain_empty in Hc as [Hch Hrun].
    split_and!; try done. destruct (running y) as [|k ks]; [done|]. simpl in Hrun. set_solver.
Qed.

(** The demo client is closed after its first download failed. *)
Definition demo_y5 : Sys := sys_op (close_begin (world demo_y4)) (chan demo_y4) PhaseClosing demo_y4.
Definition demo_stopped : WorkerEvent := EvCanceled (Download, "b"%string) 0.
Definition demo_y6 : Sys :=
  mkSys (world demo_y5) (delete 0%nat (running demo_y5)) (chan demo_y5 ++ [demo_stopped]) (phase demo_y5) (used_ids demo_y5).
Definition demo_y7 : Sys :=
  sys_op (handle_quiescent_worker_event demo_stopped (world demo_y6)) [] PhaseClosing demo_y6.
Definition demo_y8 : Sys := sys_op (close_finish (world demo_y7)) (chan demo_y7) PhaseClosed demo_y7.

Lemma demo_y8_reachable : rtc sys_step demo_y0 demo_y8.
Proof.
  etrans; [exact demo_y4_reachable|].
  eapply rtc_l; [by apply sys_close_begin|].
  eapply rtc_l; [apply (sys_terminal demo_stopped 0); [done|by vm_compute]|].
  eapply rtc_l; [apply (sys_close_drain demo_stopped [] demo_y6); [done|by vm_compute|by vm_compute]|].
  eapply rtc_l; [|apply rtc_refl]. apply (sys_close_finish demo_y7); [done|by vm_compute].
Qed.

Lemma close_reports_every_task_witness :
  history 8 (statuses (trace (world demo_y8))) = [Pending; Paused]
  ∧ groups (sched (world demo_y8)) = ∅ ∧ closed_hist demo_y8.
Proof.
  split; [by vm_compute|].
  destruct (close_reports_every_task 1 1 (Some []) demo_y8) as [_ H];
    [lia|lia|exact demo_y8_reachable|].
  destruct (H eq_refl) as (H1 & _ & _ & _ & H5). by split.
Defined.

(** ** Pause and resume *)

Lemma begin_then_reset_pause lc :
  terminal lc = TRANSFER_OPEN → reset_pause (snd (begin_pause lc)) = lc ∧ fst (begin_pause lc) = InterruptNow.
Proof. intros H. lc_cases lc. Qed.

Lemma pause_active_lifecycle k g w tok :
  groups (sched w) !! k = Some g → active (sched w) !! k = Some tok →
  terminal (lifecycle_of w (task_id (leader_inner g))) = TRANSFER_OPEN →
  let w1 := snd (pause_group k w) in
  lifecycle_of w1 (task_id (leader_inner g))
  = snd (begin_pause (lifecycle_of w (task_id (leader_inner g))))
  ∧ tok ∈ cancelled_tokens w1.
Proof.
  intros Hg Ha Ho. unfold pause_group. rewrite Ha, Hg.
  rewrite bool_decide_eq_true_2 by (by eexists). unfold begin_terminal_pause.
  destruct (begin_then_reset_pause _ Ho) as [_ Hd].
  destruct (begin_pause _) as [d lc] eqn:Eb. simpl in Hd. subst d.
  unfold cancel_worker_token; simpl. rewrite Ha. simpl. unfold lifecycle_of. simpl.
  rewrite lookup_insert_eq. split; [done|set_solver].
Qed.

Lemma on_canceled_paused_lifecycle k tot g w tid :
  groups (sched w) !! k = Some g → k ∈ paused_set (sched w) → k ∉ canceling_set (sched w) →
  lifecycle_of (on_canceled k tot w) tid
  = if bool_decide (tid = task_id (leader_inner g))
    then reset_pause (lifecycle_of w (task_id (leader_inner g))) else lifecycle_of w tid.
Proof.
  intros Hg Hp Hc. unfold on_canceled.
  assert (paused_set (sched (retire k w)) = paused_set (sched w)) as ->
    by (unfold retire, remove_active; simpl; by destruct (k.1)).
  assert (groups (sched (retire k w)) !! k = Some g) as Hg'
    by (unfold retire, remove_active; simpl; by destruct (k.1)).
  rewrite bool_decide_eq_true_2 by done. rewrite bool_decide_eq_false_2 by done. cbn [negb andb]. rewrite Hg'.
  unfold lifecycle_of at 1.
  match goal with |- context [emit_status ?e ?st ?a ?b ?w0] =>
    destruct (emit_status_only e st a b w0) as (_ & -> & _ & _) end. simpl.
  case_bool_decide as Ht; [subst; by rewrite lookup_insert_eq|by rewrite lookup_insert_ne].
Qed.

(** The state after a running group was paused and its worker has stopped. *)
Definition stopped_by_pause (k : UniqueId) (tot : Z) (w : World) : World :=
  handle_quiescent_worker_event (EvCanceled k tot) (snd (pause_group k w)).

Lemma quiescent_lifecycle ev w tid :
  lifecycle_of (handle_quiescent_worker_event ev w) tid = lifecycle_of (handle_worker_event ev
    (mkWorld (sched w) (lifecycles w) (cancelled_tokens w) (next_token w)
       (trace (abort_quiescent_upload ev (release_snapshot_handle ev w))))) tid.
Proof.
  unfold handle_quiescent_worker_event. set (w1 := abort_quiescent_upload _ _).
  assert (sched w1 = sched w ∧ lifecycles w1 = lifecycles w ∧ cancelled_tokens w1 = cancelled_tokens w
    ∧ next_token w1 = next_token w) as (H1 & H2 & H3 & H4).
  { unfold w1, abort_quiescent_upload, release_snapshot_handle. by repeat case_match. }
  rewrite <- H1, <- H2, <- H3, <- H4. by destruct w1.
Qed.

Lemma stopped_by_pause_state k tot w g tok :
  sched_inv (sched w) → groups (sched w) !! k = Some g → active (sched w) !! k = Some tok →
  k ∉ canceling_set (sched w) →
  sched (stopped_by_pause k tot w)
  = remove_active k (set_canceling (canceling_set (sched w) ∖ {[k]})
      (set_paused ({[k]} ∪ paused_set (sched w)) (sched w))).
Proof.
  intros Hi Hg Ha Hc. unfold stopped_by_pause, handle_quiescent_worker_event.
  assert (k ∉ queued (sched w)) as Hq by (intros (_ & Hn & _)%(si_queued _ Hi); by simplify_eq).
  set (w1 := abort_quiescent_upload _ _).
  assert (sched w1 = set_paused ({[k]} ∪ paused_set (sched w)) (sched w)) as Hs1.
  { unfold w1. by rewrite abort_quiescent_sched, release_snapshot_sched, pause_group_sched, drop_queue_id. }
  assert (sched_inv (sched w1)) as Hi1.
  { rewrite Hs1. rewrite <- (drop_queue_id k (sched w) Hi Hq) at 2.
    apply pause_inv; [done|by eexists|done]. }
  cbn [handle_worker_event]. rewrite (on_canceled_sched k tot w1 g); [|done|by rewrite Hs1..].
  rewrite bool_decide_eq_true_2 by (rewrite Hs1; simpl; set_solver).
  rewrite bool_decide_eq_false_2 by (by rewrite Hs1). by rewrite Hs1.
Qed.

(** Pausing a running task and resuming it after its worker has stopped takes it back
    where it was: both commands succeed, the worker's token was cancelled, and the task is
    queued with its group, task id, saved offset and known total unchanged and its lifecycle
    open again; before the worker has stopped the resume is refused. *)
Theorem pause_resume_restores k tot w g tok :
  sched_inv (sched w) → groups (sched w) !! k = Some g → active (sched w) !! k = Some tok →
  k ∉ canceling_set (sched w) → k ∉ paused_set (sched w) →
  terminal (lifecycle_of w (task_id (leader_inner g))) = TRANSFER_OPEN →
  let w1 := snd (pause_group k w) in
  let w2 := stopped_by_pause k tot w in
  let w3 := snd (resume_group k w2) in
  fst (pause_group k w) = Ok tt ∧ tok ∈ cancelled_tokens w1
  ∧ fst (resume_group k w1) = Err (invalid_state "resume target is still stopping, retry later")
  ∧ fst (resume_group k w2) = Ok tt
  ∧ queued (sched w3) = queued (sched w) ++ [k]
  ∧ paused_set (sched w3) = paused_set (sched w)
  ∧ groups (sched w3) = groups (sched w)
  ∧ task_id_to_dedupe (sched w3) = task_id_to_dedupe (sched w)
  ∧ offsets (sched w3) = offsets (sched w) ∧ known_totals (sched w3) = known_totals (sched w)
  ∧ lifecycle_of w3 (task_id (leader_inner g)) = lifecycle_of w (task_id (leader_inner g)).
Proof.
  intros Hi Hg Ha Hc Hnp Ho w1 w2 w3.
  destruct (pause_active_lifecycle k g w tok Hg Ha Ho) as [Hlc Htok].
  pose proof (stopped_by_pause_state k tot w g tok Hi Hg Ha Hc) as Hs2. fold w2 in Hs2.
  destruct (remove_active_fields k (set_canceling (canceling_set (sched w) ∖ {[k]})
    (set_paused ({[k]} ∪ paused_set (sched w)) (sched w))))
    as (Fa & Fg & Fq & Fqs & Fp & Fc & Ft & Fo & Fk & _ & _).
  rewrite <- Hs2 in Fa, Fg, Fq, Fqs, Fp, Fc, Ft, Fo, Fk. simpl in *.
  assert (sched_inv (sched w2)) as Hi2.
  { apply handle_quiescent_inv; rewrite pause_group_sched; [|simpl; by rewrite Ha; eexists].
    apply pause_inv; [done|by eexists|done]. }
  assert (lifecycle_of w2 (task_id (leader_inner g)) = lifecycle_of w (task_id (leader_inner g))) as Hl2.
  { unfold w2, stopped_by_pause. rewrite quiescent_lifecycle. cbn [handle_worker_event].
    rewrite (on_canceled_paused_lifecycle k tot g); cbn [sched].
    - rewrite bool_decide_eq_true_2 by done.
      transitivity (reset_pause (lifecycle_of w1 (task_id (leader_inner g)))); [done|].
      unfold w1. rewrite Hlc. by apply begin_then_reset_pause.
    - by rewrite pause_group_sched.
    - rewrite pause_group_sched. simpl. set_solver.
    - by rewrite pause_group_sched. }
  assert (fst (resume_group k w1) = Err (invalid_state "resume target is still stopping, retry later")) as Hr1.
  { unfold resume_group, w1. rewrite pause_group_sched. simpl.
    rewrite bool_decide_eq_true_2 by set_solver. simpl. rewrite Ha.
    by rewrite bool_decide_eq_true_2 by (by eexists). }
  destruct (resume_group_cases k w2 Hi2)
    as [(Hn & _)|[(_ & Hn & _)|(_ & _ & g' & w' & Hg' & Hr & Hw')]].
  { rewrite Fp in Hn. exfalso. by apply Hn, elem_of_union_l, elem_of_singleton. }
  { rewrite Fa, lookup_delete_eq in Hn. by destruct Hn. }
  assert (sched w' = set_paused (paused_set (sched w2) ∖ {[k]}) (sched w2)) as Hs'
    by (by rewrite Hw', sched_emit_status).
  unfold w3. rewrite Hr. cbn [fst snd sched upd]. simpl. rewrite Hs'. simpl. rewrite Fq, Fg, Ft, Fo, Fk.
  split_and!; try done.
  - unfold pause_group. by case_match.
  - rewrite Fp. apply leibniz_equiv. clear -Hnp. set_solver.
  - unfold lifecycle_of at 1. simpl. rewrite Hw'.
    match goal with |- context [emit_status ?e ?st ?a ?b ?w0] =>
      destruct (emit_status_only e st a b w0) as (_ & -> & _ & _) end. exact Hl2.
Qed.

Lemma pause_resume_restores_witness :
  let k := (Download, "a"%string) in
  let w := world demo_y2 in
  let w3 := snd (resume_group k (stopped_by_pause k 0 w)) in
  ∃ g tok, groups (sched w) !! k = Some g ∧ active (sched w) !! k = Some tok
    ∧ queued (sched w3) = queued (sched w) ++ [k].
Proof.
  intros k w w3.
  assert (is_Some (groups (sched w) !! k)) as [g Hg] by (apply (bool_decide_eq_true _); by vm_compute).
  assert (is_Some (active (sched w) !! k)) as [tok Ha] by (apply (bool_decide_eq_true _); by vm_compute).
  exists g, tok. split_and!; [done|done|].
  assert (sched_inv (sched w)) as Hi.
  { apply (sy_sched demo_y2), (sys_reachable_inv 1 1 (Some [])); [lia|lia|exact demo_y2_reachable]. }
  apply (pause_resume_restores k 0 w g tok Hi Hg Ha).
  - apply (bool_decide_eq_false _). by vm_compute.
  - apply (bool_decide_eq_false _). by vm_compute.
  - unfold lifecycle_of. by replace (lifecycles w) with (∅ : gmap TaskId TransferLifecycle) by (by vm_compute).
Defined.
