(* ===== verification/StatusReports.v ===== *)
(** * What the callbacks are told

    The records that the scheduler of [SchedulerSys] submits to its callbacks: every record for a
    task has the status the scheduler last reported for it, apart from the refusals of duplicate
    tasks, which carry the id of the task that stays. With the history of statuses that gives the
    one final status of a task as its callbacks and the global listeners see it. *)
From S2P Require Import Prelude Errors Lifecycle Records Scheduler SchedulerInv SchedulerSys.
#[local] Open Scope Z_scope.

(** The record of [reject_duplicate]. *)
Definition duplicate_status : TransferStatus := StatusFailed (from_code1 DuplicateTaskError).

(** Every progress record follows the status it reports; [last] is the latest status so far. *)
Fixpoint from_lines (last : option (TaskId * TransferStatus)) (es : list Effect) : Prop :=
  match es with
  | [] => True
  | StatusLine tid st _ _ :: es => from_lines (Some (tid, st)) es
  | Submit (ProgressJob _ dto) :: es =>
      (last = Some (rec_task_id dto, rec_status dto) ∨ rec_status dto = duplicate_status) ∧ from_lines last es
  | _ :: es => from_lines last es
  end.

Lemma from_lines_weaken last es : from_lines None es → from_lines last es.
Proof.
  revert last. induction es as [|e es IH]; intros last; [done|].
  destruct e as [| [cb dto|] | | | | | |]; cbn; try done; try (by apply IH). intros [[?|?] ?]; [done|]. split; [by right|by apply IH].
Qed.
Lemma from_lines_app last es1 es2 : from_lines last es1 → from_lines None es2 → from_lines last (es1 ++ es2).
Proof.
  revert last. induction es1 as [|e es1 IH]; intros last; cbn; [intros _; apply from_lines_weaken|].
  destruct e as [| [cb dto|] | | | | | |]; cbn; try (by apply IH). intros [? ?] ?. split; [done|by apply IH].
Qed.

(** The records of one status. *)
Definition of_record (dto : FileTransferRecord) (es : list Effect) : Prop :=
  Forall (λ e, ∃ cb, e = Submit (ProgressJob cb dto)) es.
Lemma invoke_progress_record cb dto w : ∃ es, invoke_progress_cb cb dto w = effect es w ∧ of_record dto es.
Proof.
  unfold invoke_progress_cb. destruct (cb_submit (sched w)); [|exists []; rewrite effect_nil; split; [done|constructor]].
  exists [Submit (ProgressJob cb dto)]. split; [done|]. constructor; [by exists cb|constructor].
Qed.
Lemma global_record dto w : ∃ es, emit_global_progress dto w = effect es w ∧ of_record dto es.
Proof.
  unfold emit_global_progress. destruct (global_progress_listener (sched w)) as [ls|]; [|exists []; rewrite effect_nil; split; [done|constructor]].
  revert w. induction ls as [|cb ls IH]; intros w; cbn; [exists []; rewrite effect_nil; split; [done|constructor]|].
  destruct (invoke_progress_record cb dto w) as (es1 & -> & H1). destruct (IH (effect es1 w)) as (es2 & -> & H2).
  exists (es1 ++ es2). rewrite effect_effect. split; [done|by apply Forall_app].
Qed.
Lemma from_record last dto es :
  of_record dto es → last = Some (rec_task_id dto, rec_status dto) ∨ rec_status dto = duplicate_status → from_lines last es.
Proof. intros H Hl. induction H as [|e es [cb ->] _ IH]; by cbn. Qed.

Definition lined (w : World) : Prop := from_lines None (trace w).

Lemma lined_effect es w : from_lines None es → lined w → lined (effect es w).
Proof. intros He Hw. by apply from_lines_app. Qed.
Lemma lined_status e st tr tot w : lined w → lined (emit_status e st tr tot w).
Proof.
  intros Hw. unfold emit_status. set (dto := to_record_inner _ _ _ _). set (line := StatusLine _ _ _ _).
  assert (∃ es, match progress_cb (callbacks e) with Some cb => invoke_progress_cb cb dto (effect [line] w) | None => effect [line] w end
    = effect es (effect [line] w) ∧ of_record dto es) as (es1 & -> & H1).
  { destruct (progress_cb (callbacks e)); [apply invoke_progress_record|]. exists []. by rewrite effect_nil; split; [|constructor]. }
  destruct (global_record dto (effect es1 (effect [line] w))) as (es2 & -> & H2). rewrite !effect_effect. apply lined_effect; [|done].
  cbn. apply (from_record _ dto); [by apply Forall_app|by left].
Qed.
Lemma lined_duplicate g cbs w : lined w → lined (reject_duplicate g cbs w).
Proof.
  intros Hw. unfold reject_duplicate. set (dto := to_record_inner _ _ _ _).
  assert (∃ es, match progress_cb cbs with Some cb => invoke_progress_cb cb dto w | None => w end = effect es w ∧ of_record dto es) as (es1 & -> & H1).
  { destruct (progress_cb cbs); [apply invoke_progress_record|]. exists []. by rewrite effect_nil; split; [|constructor]. }
  destruct (global_record dto (effect es1 w)) as (es2 & -> & H2). rewrite effect_effect. apply lined_effect; [|done].
  apply (from_record _ dto); [by apply Forall_app|by right].
Qed.
Lemma lined_complete cb tid payload w : lined w → lined (invoke_complete_cb cb tid payload w).
Proof. intros Hw. unfold invoke_complete_cb. case_match; [by apply lined_effect|done]. Qed.
Lemma lined_pause t w : lined w → lined (begin_terminal_pause t w).2.
Proof. intros Hw. unfold begin_terminal_pause. by destruct (begin_pause _). Qed.
Lemma lined_cancel t w : lined w → lined (begin_terminal_cancel t w).2.
Proof. intros Hw. unfold begin_terminal_cancel. by destruct (begin_cancel _). Qed.
Lemma lined_token k w : lined w → lined (cancel_worker_token k w).
Proof. intros Hw. unfold cancel_worker_token. by case_match. Qed.
Lemma lined_upd f w : lined w → lined (upd f w).
Proof. done. Qed.

Lemma lined_start_one w : lined w → lined (start_one w).1.
Proof.
  intros Hw. unfold start_one. destruct (queued (sched w)) as [|k rest]; [done|]. repeat case_match; try done. cbn [fst].
  unfold start_group. apply lined_effect; [done|]. case_match; [done|]. by apply (lined_status _ _ _ _ _).
Qed.
Lemma lined_start_round n w : lined w → lined (start_round n w).1.
Proof.
  revert w. induction n as [|n IH]; intros w Hw; [done|]. cbn. pose proof (lined_start_one w Hw) as H1.
  destruct (start_one w) as [w1 l1]. specialize (IH w1 H1). by destruct (start_round n w1).
Qed.
Lemma lined_try_start w : lined w → lined (try_start_next w).1.
Proof.
  unfold try_start_next. generalize (S (length (queued (sched w)))). intros fuel. revert w. induction fuel as [|fuel IH]; intros w Hw; [done|].
  cbn [try_start_loop]. destruct (queued (sched w)); [done|]. set (n := length _). pose proof (lined_start_round n w Hw) as H1.
  destruct (start_round n w) as [w1 [|k ks]]; [done|]. specialize (IH w1 H1). by destruct (try_start_loop fuel w1).
Qed.

Lemma lined_handle ev w : lined w → lined (handle_worker_event ev w).
Proof.
  intros Hw. destruct ev as [k off tot|k tot payload|k e tot|k tot]; cbn [handle_worker_event].
  - unfold on_progress. repeat case_match; try done; by apply lined_status.
  - unfold on_completed. apply lined_upd. destruct (groups _ !! k); [|done]. case_match; [apply lined_complete|]; by apply lined_status.
  - unfold on_failed. apply lined_upd. case_match; [|done]. by apply lined_status.
  - unfold on_canceled. case_match; [case_match; [by apply lined_status|done]|]. apply lined_upd. case_match; [by apply lined_status|done].
Qed.
Lemma lined_quiescent ev w : lined w → lined (handle_quiescent_worker_event ev w).
Proof.
  intros Hw. apply lined_handle. assert (lined (release_snapshot_handle ev w)) as H1 by (unfold release_snapshot_handle; repeat case_match; try done; by apply lined_effect).
  unfold abort_quiescent_upload. repeat case_match; try done; by apply lined_effect.
Qed.

Lemma lined_stop (b : bool) k w : lined w →
  lined (if b then match groups (sched w) !! k with Some g => begin_terminal_pause (leader_inner g) w | None => (InterruptNow, w) end else (InterruptNow, w)).2.
Proof. intros Hw. destruct b; [|done]. case_match; [by apply lined_pause|done]. Qed.
Lemma lined_pause_group k w : lined w → lined (pause_group k w).2.
Proof.
  intros Hw. unfold pause_group. pose proof (lined_stop (bool_decide (is_Some (active (sched w) !! k))) k w Hw) as H1.
  destruct (if bool_decide _ then _ else _) as [d w1]. cbn [snd] in H1 |- *. set (w2 := match d with InterruptNow => _ | _ => _ end).
  assert (lined w2) as H2 by (unfold w2; destruct d; [by apply lined_token|done]). clearbody w2.
  case_match; [done|]. case_match; [by apply lined_status|done].
Qed.
Lemma lined_resume_group k w : lined w → lined (resume_group k w).2.
Proof. intros Hw. unfold resume_group. repeat case_match; try done; cbn [snd]; apply lined_status; done. Qed.
Lemma lined_cancel_group k w : lined w → lined (cancel_group k w).2.
Proof.
  intros Hw. unfold cancel_group. set (w1 := if bool_decide (is_Some (active (sched w) !! k)) then _ else w). assert (lined w1) as H1.
  { unfold w1. case_bool_decide; [|done].
    assert (lined (match groups (sched w) !! k with Some g => begin_terminal_cancel (leader_inner g) w | None => (InterruptNow, w) end).2) as Hd
      by (case_match; [by apply lined_cancel|done]).
    destruct (match groups (sched w) !! k with Some _ => _ | None => _ end) as [d w']. destruct d; [by apply lined_token|done]. }
  clearbody w1. case_bool_decide; cbn [snd]; [by case_match|]. apply lined_upd. case_match; [|done]. apply lined_upd, lined_status, lined_upd.
  apply lined_effect; [done|]. by apply lined_cancel.
Qed.
Lemma lined_control op id w : (∀ k w, lined w → lined (op k w).2) → lined w → lined (control_cmd op id w).
Proof.
  intros Hop Hw. unfold control_cmd. apply lined_try_start. destruct (task_id_to_dedupe (sched w) !! id) as [k|]; [|by apply lined_effect].
  pose proof (Hop k w Hw) as H1. destruct (op k w) as [r w1]. by apply lined_effect.
Qed.
Lemma lined_cmd c w : lined w → lined (handle_cmd c w).
Proof.
  intros Hw. destruct c as [t cbs|t cbs|id|id|id|]; cbn [handle_cmd].
  - unfold cmd_enqueue. case_match; [by apply lined_duplicate|]. apply lined_try_start.
    assert (∀ w f (b : bool), lined w → lined (if b then upd f w else w)) as Hif by (by intros ? ? []). apply Hif.
    case_match; repeat apply lined_status; done.
  - unfold cmd_enqueue_paused. case_match; [by apply lined_duplicate|]. by apply lined_status.
  - by apply lined_control; [apply lined_pause_group|].
  - by apply lined_control; [apply lined_resume_group|].
  - by apply lined_control; [apply lined_cancel_group|].
  - by apply lined_effect.
Qed.

Lemma lined_close_stop k w : lined w → lined (close_stop k w).
Proof.
  intros Hw. unfold close_stop. case_bool_decide; [by apply lined_token|]. pose proof (lined_stop true k w Hw) as H1. cbn in H1.
  destruct (match groups (sched w) !! k with Some _ => _ | None => _ end) as [d w1]. destruct d; [by apply lined_token|done].
Qed.
Lemma lined_fold (f : World → UniqueId → World) ks w : (∀ w k, lined w → lined (f w k)) → lined w → lined (fold_left f ks w).
Proof. intros Hf. revert w. induction ks as [|k ks IH]; intros w Hw; [done|]. cbn. by apply IH, Hf. Qed.
Lemma lined_close_begin w : lined w → lined (close_begin w).
Proof.
  intros Hw. unfold close_begin. apply lined_fold.
  - intros w' k Hw'. unfold close_pause_inactive. case_match; [by apply lined_status|done].
  - apply lined_fold; [|done]. intros w' k Hw'. by apply lined_close_stop.
Qed.

Lemma lined_step y y' : lined (world y) → sys_step y y' → lined (world y').
Proof.
  intros Hw. destruct 1; try done; cbn.
  - by apply lined_cmd.
  - by apply lined_cmd.
  - unfold deliver_event. pose proof (lined_quiescent ev (world y) Hw). case_match; [by apply lined_try_start|done].
  - by apply lined_close_begin.
  - by apply lined_quiescent.
  - by repeat (apply from_lines_app; [|done]).
Qed.
Lemma lined_reachable up down ls y : rtc sys_step (sys_init up down ls) y → lined (world y).
Proof. apply (rtc_invariant _ (λ y, lined (world y))); [apply lined_step|done]. Qed.

(** A record somewhere in the trace. *)
Lemma from_lines_middle last tr1 cb dto tr2 :
  from_lines last (tr1 ++ Submit (ProgressJob cb dto) :: tr2) →
  rec_status dto = duplicate_status
  ∨ (statuses tr1 = [] ∧ last = Some (rec_task_id dto, rec_status dto)) ∨ ∃ pre, statuses tr1 = pre ++ [(rec_task_id dto, rec_status dto)].
Proof.
  revert last. induction tr1 as [|e tr1 IH]; intros last; [cbn; tauto|].
  destruct e as [tid st| [cb' dto'|] | | | | | |]; cbn [from_lines app]; try (by apply IH); [|intros [_ H]; by apply IH in H].
  rename transferred into tr, total into tot.
  assert (statuses (StatusLine tid st tr tot :: tr1) = (tid, st) :: statuses tr1) as -> by done.
  intros [?|[[-> [= -> ->]]|[pre ->]]]%IH; [by left|right; right; by exists []|].
  right; right. by exists ((tid, st) :: pre).
Qed.

(** C7: until a close has finished, each accepted task is given exactly one final status (complete,
    failed or canceled), as its last one, when its group is removed, and none while its group is
    live; and every progress record that any callback or global listener is sent with the task's
    id has the status the scheduler gave that task last, with one exception: the refusal of another
    task with the same key is a failed record with the id of the task that stays. *)
Theorem one_final_status up down ls y tid :
  0 ≤ up → 0 ≤ down → rtc sys_step (sys_init up down ls) y →
  phase y ≠ PhaseClosed → tid ∈ used_ids y →
  let tr := trace (world y) in
  let h := history tid (statuses tr) in
  ((live (groups (sched (world y))) tid ∧ Forall (λ st, is_final st = false) h)
   ∨ (¬ live (groups (sched (world y))) tid
      ∧ ∃ pre st, h = pre ++ [st] ∧ is_final st = true ∧ Forall (λ st, is_final st = false) pre))
  ∧ ∀ tr1 cb dto tr2, tr = tr1 ++ Submit (ProgressJob cb dto) :: tr2 → rec_task_id dto = tid →
      (∃ pre, history tid (statuses tr1) = pre ++ [rec_status dto]) ∨ rec_status dto = duplicate_status.
Proof.
  intros Hu Hd Hr Hp Ht tr h. split; [exact (status_history up down ls y tid Hu Hd Hr Hp Ht)|]. intros tr1 cb dto tr2 Htr Hid.
  pose proof (lined_reachable _ _ _ _ Hr) as Hl. unfold lined in Hl. fold tr in Hl. rewrite Htr in Hl.
  apply from_lines_middle in Hl as [?|[[_ ?]|[pre E]]]; [by right|done|]. left. exists (history tid pre).
  by rewrite E, history_app, history_one, Hid, bool_decide_eq_true_2.
Qed.

(** The running download of the demo fails and is reported so to the listener. *)
Lemma one_final_status_witness :
  history 7 (statuses (trace (world demo_y4)))
  = [Pending; StatusFailed (from_code_str HttpError "reset"%string)]
  ∧ ((live (groups (sched (world demo_y4))) 7
      ∧ Forall (λ st, is_final st = false) (history 7 (statuses (trace (world demo_y4)))))
     ∨ (¬ live (groups (sched (world demo_y4))) 7
        ∧ ∃ pre st, history 7 (statuses (trace (world demo_y4))) = pre ++ [st]
            ∧ is_final st = true ∧ Forall (λ st, is_final st = false) pre)).
Proof.
  split; [by vm_compute|].
  apply (one_final_status 1 1 (Some []) demo_y4 7); [lia|lia|exact demo_y4_reachable|done|].
  assert (bool_decide (7 ∈ used_ids demo_y4) = true) as Hb by (by vm_compute).
  by apply bool_decide_eq_true in Hb.
Defined.
