(* ===== verification/Dispatcher.v ===== *)
(** * The callback dispatcher

    [src/inner/cb_dispatcher.rs]: the thread that runs the user's callbacks, fed through a
    bounded queue. The scheduler submits its jobs in the order of its trace and never runs user
    code itself; a progress frame of a transfer in progress is dropped when the queue is full,
    every other job waits for room. At shutdown the scheduler drops its sender and joins the
    thread ([shutdown_callback_dispatcher] of [executor.rs]).

    The queue is the standard library's [sync_channel]: [try_send] and [send] fail when the
    receiver is gone, and on a full queue the first fails and the second blocks. *)
From S2P Require Import Prelude Errors Lifecycle Records Scheduler SchedulerInv SchedulerSys.
#[local] Open Scope Z_scope.

Definition CALLBACK_QUEUE_CAPACITY : nat := 2048.

(** ** State *)

Record Dispatcher := mkDispatcher {
  (** jobs the scheduler has still to submit, in order *)
  todo : list CbJob;
  (** whether the scheduler still holds its sender *)
  sender : bool;
  queue : list CbJob;
  (** whether the thread runs, and its owner mark ([CALLBACK_DISPATCHER_OWNER]) *)
  thread : bool;
  marker : option Z;
  (** the callbacks called so far, each with the mark seen by the user code *)
  called : list (CbJob * option Z);
  (** calls that panicked, caught by the thread *)
  caught : list CbJob;
  (** frames dropped because the queue was full *)
  dropped : list CbJob;
  (** whether [join] has returned *)
  joined : bool;
}.

Definition set_todo (js : list CbJob) (d : Dispatcher) : Dispatcher :=
  mkDispatcher js (sender d) (queue d) (thread d) (marker d) (called d) (caught d) (dropped d) (joined d).
Definition push_job (j : CbJob) (d : Dispatcher) : Dispatcher :=
  mkDispatcher (todo d) (sender d) (queue d ++ [j]) (thread d) (marker d) (called d) (caught d)
    (dropped d) (joined d).
Definition drop_job (j : CbJob) (d : Dispatcher) : Dispatcher :=
  mkDispatcher (todo d) (sender d) (queue d) (thread d) (marker d) (called d) (caught d)
    (dropped d ++ [j]) (joined d).

(** ** Operations *)

Definition is_callback_dispatcher_thread_for (owner : Z) (mark : option Z) : bool :=
  bool_decide (mark = Some owner).

(** The new thread enters its mark before it receives the first job. *)
Definition start_for (owner : Z) (jobs : list CbJob) : Dispatcher :=
  mkDispatcher jobs true [] true (Some owner) [] [] [] false.

Inductive TrySend := Sent (d : Dispatcher) | Full | Disconnected.

Definition try_send (j : CbJob) (d : Dispatcher) : TrySend :=
  if negb (thread d) then Disconnected
  else if (length (queue d) <? CALLBACK_QUEUE_CAPACITY)%nat then Sent (push_job j d)
  else Full.

(** [None] while the call blocks. *)
Definition send (j : CbJob) (d : Dispatcher) : option Dispatcher :=
  match try_send j d with
  | Sent d' => Some d'
  | Disconnected => Some (drop_job j d)
  | Full => None
  end.

Definition is_sampling_frame (dto : FileTransferRecord) : bool :=
  match rec_status dto with Transmission => true | _ => false end.

Definition submit_progress (cb : Z) (dto : FileTransferRecord) (d : Dispatcher) : option Dispatcher :=
  if is_sampling_frame dto then
    match try_send (ProgressJob cb dto) d with
    | Sent d' => Some d'
    | Full | Disconnected => Some (drop_job (ProgressJob cb dto) d)
    end
  else send (ProgressJob cb dto) d.

Definition submit_complete (cb : Z) (tid : TaskId) (payload : option string) (d : Dispatcher)
    : option Dispatcher := send (CompleteJob cb tid payload) d.

Definition submit (j : CbJob) (d : Dispatcher) : option Dispatcher :=
  match j with
  | ProgressJob cb dto => submit_progress cb dto d
  | CompleteJob cb tid payload => submit_complete cb tid payload d
  end.

Definition drop_sender (d : Dispatcher) : Dispatcher :=
  mkDispatcher (todo d) false (queue d) (thread d) (marker d) (called d) (caught d) (dropped d) (joined d).

Section Dispatch.
(** Whether a call of the user's callback panics. *)
Context (panics : CbJob → bool).

(** One turn of the thread's loop: it runs the oldest job, exits (clearing its mark) when the
    queue is empty and the sender gone, or waits ([None]). *)
Definition dispatch_one (d : Dispatcher) : option Dispatcher :=
  if negb (thread d) then None
  else
    match queue d with
    | j :: q =>
        Some (mkDispatcher (todo d) (sender d) q true (marker d) (called d ++ [(j, marker d)])
                (if panics j then caught d ++ [j] else caught d) (dropped d) (joined d))
    | [] =>
        if sender d then None
        else Some (mkDispatcher (todo d) false [] false None (called d) (caught d) (dropped d) (joined d))
    end.

(** [join] blocks while the thread runs. *)
Definition join (d : Dispatcher) : option Dispatcher :=
  if thread d then None
  else Some (mkDispatcher (todo d) (sender d) (queue d) false (marker d) (called d) (caught d)
               (dropped d) true).

(** The scheduler and the thread take turns in any order; the scheduler drops its sender after
    its last job and then joins. *)
Inductive disp_step : Dispatcher → Dispatcher → Prop :=
| disp_submit j js d d' :
    todo d = j :: js → submit j (set_todo js d) = Some d' → disp_step d d'
| disp_dispatch d d' : dispatch_one d = Some d' → disp_step d d'
| disp_drop_sender d : todo d = [] → sender d = true → disp_step d (drop_sender d)
| disp_join d d' : sender d = false → joined d = false → join d = Some d' → disp_step d d'.

(** ** Invariant *)

(** The jobs that are never dropped. *)
Definition is_lossy (j : CbJob) : bool :=
  match j with ProgressJob _ dto => is_sampling_frame dto | CompleteJob _ _ _ => false end.
Definition lossless (js : list CbJob) : list CbJob := filter (λ j, is_lossy j = false) js.

Record disp_inv (owner : Z) (jobs : list CbJob) (d : Dispatcher) : Prop := {
  di_order : sublist (map fst (called d) ++ queue d ++ todo d) jobs;
  di_lossless : lossless (map fst (called d) ++ queue d ++ todo d) = lossless jobs;
  di_count : map fst (called d) ++ queue d ++ todo d ++ dropped d ≡ₚ jobs;
  di_dropped : Forall (λ j, is_lossy j = true) (dropped d);
  di_room : (length (queue d) ≤ CALLBACK_QUEUE_CAPACITY)%nat;
  di_marks : Forall (λ c, snd c = Some owner) (called d);
  di_marker : marker d = if thread d then Some owner else None;
  di_sender : sender d = false → todo d = [];
  di_thread : thread d = false → sender d = false ∧ queue d = [];
  di_joined : joined d = true → thread d = false;
}.

Lemma dispatcher_start_inv owner jobs : disp_inv owner jobs (start_for owner jobs).
Proof. split; simpl; rewrite ?app_nil_r; try done; lia. Qed.

Lemma lossless_app js1 js2 : lossless (js1 ++ js2) = lossless js1 ++ lossless js2.
Proof. apply filter_app. Qed.

(** What a submission does: it queues the job when there is room, and drops it only when the
    queue is full and the job is a frame of a transfer in progress. *)
Lemma submit_cases j d d' :
  thread d = true → submit j d = Some d' →
  ((length (queue d) < CALLBACK_QUEUE_CAPACITY)%nat ∧ d' = push_job j d)
  ∨ ((CALLBACK_QUEUE_CAPACITY ≤ length (queue d))%nat ∧ is_lossy j = true ∧ d' = drop_job j d).
Proof.
  intros Ht. unfold submit, submit_progress, submit_complete, send, try_send. rewrite Ht. simpl.
  destruct (Nat.ltb_spec (length (queue d)) CALLBACK_QUEUE_CAPACITY) as [Hl|Hl].
  - intros H. left. split; [done|]. destruct j; simpl in H; [case_match|]; congruence.
  - intros H. right. destruct j as [cb dto|]; simpl in *; [|done].
    destruct (is_sampling_frame dto); [|done]. by simplify_eq.
Qed.

Lemma submit_inv owner jobs j js d d' :
  disp_inv owner jobs d → todo d = j :: js → submit j (set_todo js d) = Some d' → disp_inv owner jobs d'.
Proof.
  intros [Ho Hl Hc Hd Hr Hm Hk Hs Ht Hj] Htd Hsub. rewrite Htd in *.
  assert (thread d = true) as Hrun.
  { destruct (thread d); [done|]. destruct (Ht eq_refl) as [Hsd _]. by specialize (Hs Hsd). }
  apply submit_cases in Hsub as [[Hroom ->]|(Hfull & Hlossy & ->)]; [| |done];
    split; simpl in *; try done.
  - by rewrite <- app_assoc.
  - by rewrite <- app_assoc.
  - by rewrite <- app_assoc.
  - rewrite length_app. simpl. lia.
  - by intros ?%Hs.
  - intros [?%Hs ?]%Ht. done.
  - etrans; [|exact Ho]. apply sublist_app; [done|]. apply sublist_app; [done|]. by constructor.
  - rewrite <- Hl, !lossless_app. do 2 f_equal. unfold lossless. rewrite filter_cons_False; [done|].
    by rewrite Hlossy.
  - rewrite <- Hc. do 2 f_equiv. rewrite app_assoc. symmetry. apply Permutation_cons_append.
  - apply Forall_app. by split; [|constructor].
  - by intros ?%Hs.
Qed.

Lemma dispatch_inv owner jobs d d' :
  disp_inv owner jobs d → dispatch_one d = Some d' → disp_inv owner jobs d'.
Proof.
  intros [Ho Hl Hc Hd Hr Hm Hk Hs Ht Hj] Hstep. unfold dispatch_one in Hstep.
  destruct (thread d) eqn:Hrun; [|done]. simpl in Hstep.
  destruct (queue d) as [|j q] eqn:Hq; [destruct (sender d) eqn:Hsd; [done|]|]; simplify_eq;
    split; simpl in *; try done; rewrite ?map_app; simpl; rewrite <- ?app_assoc; try done.
  - lia.
  - apply Forall_app. split; [done|]. by constructor.
Qed.

Lemma disp_step_inv owner jobs d d' : disp_inv owner jobs d → disp_step d d' → disp_inv owner jobs d'.
Proof.
  intros Hi Hs. destruct Hs as [j js d d' H1 H2|d d' H|d H1 H2|d d' H1 H2 H3].
  - by eapply submit_inv.
  - by eapply dispatch_inv.
  - destruct Hi as [Ho Hl Hc Hd Hr Hm Hk Hs Ht Hj]. split; simpl; try done.
    intros [? ?]%Ht. done.
  - unfold join in H3. destruct (thread d) eqn:Hrun; [done|]. simplify_eq.
    destruct Hi as [Ho Hl Hc Hd Hr Hm Hk Hs Ht Hj]. rewrite Hrun in *. by split; simpl.
Qed.

Lemma disp_reachable_inv owner jobs d : rtc disp_step (start_for owner jobs) d → disp_inv owner jobs d.
Proof. apply rtc_invariant; [apply disp_step_inv|apply dispatcher_start_inv]. Qed.

(** ** Progress *)

Definition disp_measure (d : Dispatcher) : nat :=
  2 * length (todo d) + length (queue d) + Nat.b2n (sender d) + Nat.b2n (thread d)
  + Nat.b2n (negb (joined d)).

Lemma disp_step_measure owner jobs d d' :
  disp_inv owner jobs d → disp_step d d' → (disp_measure d' < disp_measure d)%nat.
Proof.
  intros Hi Hs. unfold disp_measure. destruct Hs as [j js d d' H1 H2|d d' H|d H1 H2|d d' H1 H2 H3].
  - assert (thread d = true) as Hrun.
    { destruct (thread d) eqn:Ht; [done|]. destruct (di_thread _ _ _ Hi Ht) as [Hsd _].
      by rewrite (di_sender _ _ _ Hi Hsd) in H1. }
    apply submit_cases in H2 as [[_ ->]|(_ & _ & ->)]; [| |done];
      simpl; rewrite H1; simpl; rewrite ?length_app; simpl; lia.
  - unfold dispatch_one in H. destruct (thread d) eqn:Ht; [|done]. simpl in H.
    destruct (queue d) as [|j q] eqn:Hq; [destruct (sender d) eqn:Hsd; [done|]|]; simplify_eq;
      simpl; lia.
  - rewrite H2. simpl. lia.
  - unfold join in H3. destruct (thread d) eqn:Ht; [done|]. simplify_eq. simpl. rewrite H2. simpl. lia.
Qed.

Lemma disp_run_measure owner jobs n d d' :
  disp_inv owner jobs d → nsteps disp_step n d d' →
  disp_inv owner jobs d' ∧ (n + disp_measure d' ≤ disp_measure d)%nat.
Proof.
  intros Hi Hs. induction Hs as [d|n d1 d2 d3 H12 H23 IH]; [by split; [|lia]|].
  pose proof (disp_step_measure _ _ _ _ Hi H12). pose proof (disp_step_inv _ _ _ _ Hi H12) as Hi2.
  destruct (IH Hi2) as [Hi3 Hn]. split; [done|lia].
Qed.

(** A full queue is not empty, so the thread can always free a place. *)
Lemma disp_not_stuck owner jobs d : disp_inv owner jobs d → joined d = true ∨ ∃ d', disp_step d d'.
Proof.
  intros Hi. destruct (joined d) eqn:Hj; [by left|right].
  destruct (thread d) eqn:Ht.
  - destruct (queue d) as [|j q] eqn:Hq.
    + destruct (sender d) eqn:Hsd.
      * destruct (todo d) as [|j js] eqn:Htd; [by eexists; apply disp_drop_sender|].
        exists (push_job j (set_todo js d)). eapply disp_submit; [done|].
        unfold submit, submit_progress, submit_complete, send, try_send. simpl. rewrite Ht, Hq. simpl.
        destruct j; [by case_match|done].
      * eexists. apply disp_dispatch. unfold dispatch_one. by rewrite Ht, Hq, Hsd.
    + eexists. apply disp_dispatch. unfold dispatch_one. by rewrite Ht, Hq.
  - destruct (di_thread _ _ _ Hi Ht) as [Hsd _].
    eexists. apply disp_join; [done..|]. unfold join. by rewrite Ht.
Qed.

(** C32: callbacks run in submission order and only transfer-in-progress frames can be lost:
    at any time the calls made are a subsequence of the jobs submitted, the calls of status
    changes and completions are exactly the first such jobs, every job is called, waiting or a
    dropped progress frame, the queue keeps to its capacity, and user code always runs on a
    thread marked as this client's dispatcher; once the shutdown has joined the thread every
    job that is not such a frame has been called. Panicking callbacks change none of this. *)
Theorem callbacks_in_order_and_complete owner jobs d :
  rtc disp_step (start_for owner jobs) d →
  let calls := map fst (called d) in
  sublist calls jobs
  ∧ lossless calls `prefix_of` lossless jobs
  ∧ calls ++ queue d ++ todo d ++ dropped d ≡ₚ jobs
  ∧ Forall (λ j, is_lossy j = true) (dropped d)
  ∧ (length (queue d) ≤ CALLBACK_QUEUE_CAPACITY)%nat
  ∧ Forall (λ c, is_callback_dispatcher_thread_for owner (snd c) = true) (called d)
  ∧ (joined d = true → lossless calls = lossless jobs ∧ calls ++ dropped d ≡ₚ jobs).
Proof.
  intros Hr calls. destruct (disp_reachable_inv owner jobs d Hr) as [Ho Hl Hc Hd Hq Hm Hk Hs Ht Hj].
  fold calls in Ho, Hl, Hc. split_and!; try done.
  - etrans; [|exact Ho]. by apply sublist_inserts_r.
  - rewrite <- Hl, lossless_app. by eexists.
  - eapply Forall_impl; [exact Hm|]. intros c Hcm. unfold is_callback_dispatcher_thread_for.
    by apply bool_decide_eq_true_2.
  - intros Hjd. destruct (Ht (Hj Hjd)) as [Hsd Hqe]. pose proof (Hs Hsd) as Htd.
    rewrite Hqe, Htd in Hl, Hc. simpl in *. by rewrite app_nil_r in Hl.
Qed.

(** The dispatcher always shuts down: however the scheduler and the thread interleave,
    and whatever the callbacks do as long as they return, a run has at most two steps per job
    and three more, and it can only end with the thread joined; a submission that blocks on a
    full queue is always released. *)
Theorem dispatcher_shuts_down owner jobs n d :
  nsteps disp_step n (start_for owner jobs) d →
  (n ≤ 2 * length jobs + 3)%nat ∧ (joined d = true ∨ ∃ d', disp_step d d').
Proof.
  intros Hs. destruct (disp_run_measure owner jobs n _ d (dispatcher_start_inv owner jobs) Hs) as [Hi Hn].
  split; [|by eapply disp_not_stuck]. unfold disp_measure in Hn at 2. simpl in Hn. lia.
Qed.

End Dispatch.

(** ** A run on the jobs of a scheduler's trace *)

Definition submitted (es : list Effect) : list CbJob :=
  omap (λ e, match e with Submit j => Some j | _ => None end) es.

Definition demo_task : InnerTask := demo_download 7 "a"%string.
Definition demo_jobs : list CbJob :=
  submitted (trace (cmd_enqueue_paused demo_task demo_cbs (world demo_y0))).

(** The paused import submits one frame; its callback panics. *)
Lemma demo_run :
  ∃ d, nsteps (disp_step (λ _, true)) 5 (start_for 1 demo_jobs) d
    ∧ joined d = true ∧ length (called d) = 1%nat ∧ length (caught d) = 1%nat.
Proof.
  eexists. split.
  - eapply nsteps_l; [eapply disp_submit; [by vm_compute|by vm_compute]|].
    eapply nsteps_l; [apply disp_dispatch; by vm_compute|].
    eapply nsteps_l; [by apply disp_drop_sender|].
    eapply nsteps_l; [apply disp_dispatch; by vm_compute|].
    eapply nsteps_l; [apply disp_join; by vm_compute|]. apply nsteps_O.
  - by vm_compute.
Qed.

Lemma callbacks_in_order_and_complete_witness :
  ∃ d, joined d = true ∧ lossless (map fst (called d)) = lossless demo_jobs
    ∧ length demo_jobs = 1%nat.
Proof.
  destruct demo_run as (d & Hr & Hj & _ & _). exists d. split_and!; [done| |by vm_compute].
  apply rtc_nsteps_2 in Hr.
  destruct (callbacks_in_order_and_complete (λ _, true) 1 demo_jobs d Hr)
    as (_ & _ & _ & _ & _ & _ & H). by apply H.
Defined.

Lemma dispatcher_shuts_down_witness : (5 ≤ 2 * length demo_jobs + 3)%nat.
Proof.
  destruct demo_run as (d & Hr & _).
  exact (proj1 (dispatcher_shuts_down (λ _, true) 1 demo_jobs 5 d Hr)).
Defined.
