(* ===== verification/Sidecar.v ===== *)
(** * The download sidecar

    [src/dflt/download_progress.rs], first part: the sizes and limits of a checkpoint, its state
    [DownloadProgress], the part grid and bitmap, and the encoding of a snapshot as the bytes of
    the sidecar file. The theorem [sidecar_codec] says that the decoder accepts exactly the
    encodings bound to the caller's file.

    Bytes are integers in [0, 255]; [usize] has [W] bits, a parameter of the section (32 or 64
    on the supported targets). Allocation failures ([try_reserve_exact]) are left out. *)
From S2P Require Import Prelude Errors.
#[local] Open Scope Z_scope.

(** ** Constants *)

Definition MAGIC : Z := 0x5243444C.
Definition VERSION : Z := 2.
Definition SIDECAR_HEADER_LEN : Z := 28.
Definition PART_DIGEST_LEN : nat := 32.
Definition MAX_PART_COUNT : Z := 1000000.
Definition CHECKPOINT_MEMORY_LIMIT_32_BIT : Z := 64 * 1024 * 1024.
Definition CHECKPOINT_FIXED_HEADROOM_32_BIT : Z := 8 * 1024 * 1024.
Definition CHECKPOINT_PEAK_BYTES_PER_PART_UPPER_BOUND : Z := 144.
Definition MAX_PART_COUNT_32_BIT : Z :=
  (CHECKPOINT_MEMORY_LIMIT_32_BIT - CHECKPOINT_FIXED_HEADROOM_32_BIT)
  / CHECKPOINT_PEAK_BYTES_PER_PART_UPPER_BOUND.
Definition DEFAULT_CHECKPOINT_BATCH_PARTS : nat := 8.
Definition MAX_BATCH_CHECKPOINTS : Z := 16.

(** ** Bytes *)

Definition is_byte (b : Z) : Prop := 0 ≤ b < 2 ^ 8.
Definition to_le_bytes (n : Z) (z : Z) : list Z := Z_to_little_endian n 8 z.
Definition from_le_bytes (bs : list Z) : Z := little_endian_to_Z 8 bs.
Arguments to_le_bytes : simpl never.
Arguments from_le_bytes : simpl never.

(** [Read::read_exact] on a cursor: the bytes read and the rest. *)
Definition read_exact (n : nat) (cur : list Z) : option (list Z * list Z) :=
  if (n <=? length cur)%nat then Some (take n cur, drop n cur) else None.
Arguments read_exact : simpl never.

Fixpoint read_digests (n : nat) (cur : list Z) : option (list (list Z) * list Z) :=
  match n with
  | O => Some ([], cur)
  | S n =>
      '(d, cur) ← read_exact PART_DIGEST_LEN cur;
      '(ds, cur) ← read_digests n cur;
      Some (d :: ds, cur)
  end.

(** ** The part grid *)

Definition part_count_limit_for_pointer_width (pointer_width : Z) : Z :=
  if pointer_width <=? 32 then MAX_PART_COUNT_32_BIT else MAX_PART_COUNT.

Definition checkpoint_peak_upper_bound_bytes (part_count : Z) : result Z IoError :=
  ok_or
    (bytes ← checked_mul U64_MAX part_count CHECKPOINT_PEAK_BYTES_PER_PART_UPPER_BOUND;
     checked_add U64_MAX bytes CHECKPOINT_FIXED_HEADROOM_32_BIT)
    (io_new InvalidInput "download checkpoint peak memory estimate overflow").

Definition usize_max (W : Z) : Z := 2 ^ W - 1.

Definition usize_try_from (W : Z) (z : Z) (msg : string) : result Z IoError :=
  if z <=? usize_max W then Ok z else Err (io_new InvalidInput msg).

Definition part_count_for_pointer_width (W total chunk pointer_width : Z) : result Z IoError :=
  if chunk =? 0 then
    Err (io_new InvalidInput "download chunk size must be greater than zero")
  else
    let parts := div_ceil total chunk in
    let part_limit := part_count_limit_for_pointer_width pointer_width in
    if part_limit <? parts then
      Err (io_new InvalidInput
        ("download requires " +:+ pretty parts +:+ " parts, exceeding sidecar limit "
         +:+ pretty part_limit +:+ " for " +:+ pretty pointer_width +:+ "-bit targets"))
    else
      let peak_exceeded :=
        if pointer_width <=? 32 then
          let? peak := checkpoint_peak_upper_bound_bytes parts in
          Ok (CHECKPOINT_MEMORY_LIMIT_32_BIT <? peak)
        else Ok false in
      let? exceeded := peak_exceeded in
      if (exceeded : bool) then
        Err (io_new InvalidInput
          ("download checkpoint peak exceeds the 32-bit memory budget for " +:+ pretty parts +:+ " parts"))
      else usize_try_from W parts "download part count does not fit this target architecture".

Section Sidecar.
Context (W : Z).

Definition part_count_for (total chunk : Z) : result Z IoError :=
  part_count_for_pointer_width W total chunk W.

Definition expected_v2_encoded_len (total chunk : Z) (identity : list Z) : result Z IoError :=
  if U16_MAX <? Z.of_nat (length identity) then
    Err (io_new InvalidInput "download identity is too long for the sidecar format")
  else
    let? part_count := part_count_for total chunk in
    let bitmap_len := div_ceil part_count 8 in
    let? digest_len := ok_or (checked_mul (usize_max W) part_count (Z.of_nat PART_DIGEST_LEN))
      (io_new InvalidInput "download sidecar digest length overflow") in
    ok_or
      (len ← checked_add (usize_max W) SIDECAR_HEADER_LEN (Z.of_nat (length identity));
       len ← checked_add (usize_max W) len bitmap_len;
       checked_add (usize_max W) len digest_len)
      (io_new InvalidInput "download sidecar encoded length overflow").

(** ** State *)

Record PendingPart := mkPending { pend_index : nat; pend_digest : list Z }.

Record DownloadProgress := mkProgress {
  dp_total : Z;
  dp_chunk : Z;
  dp_max_parts : Z;
  dp_identity : list Z;
  dp_part_count : nat;
  (** one bit per part, eight to a byte *)
  dp_bits : list Z;
  dp_digests : list (list Z);
  dp_expected_validator : option string;
  dp_pending : list PendingPart;
  dp_pending_bits : list Z;
  dp_checkpoint_threshold : nat;
  (** milliseconds *)
  dp_last_checkpoint : Z;
  dp_checkpoint_timer_armed : bool;
}.

Definition zeroed_bytes (len : nat) : list Z := replicate len 0.
Definition zeroed_digest : list Z := replicate PART_DIGEST_LEN 0.
Definition zeroed_digests (len : nat) : list (list Z) := replicate len zeroed_digest.

(** [now] is the time of [Instant::now()]. *)
Definition fresh (now total chunk max_parts : Z) (identity : list Z)
    : result DownloadProgress IoError :=
  if U32_MAX <? max_parts then
    Err (io_new InvalidInput "max_parts_in_flight does not fit the sidecar format")
  else if U16_MAX <? Z.of_nat (length identity) then
    Err (io_new InvalidInput "download identity is too long for the sidecar format")
  else
    let? part_count := part_count_for total chunk in
    let byte_len := Z.to_nat (div_ceil part_count 8) in
    let checkpoint_threshold :=
      Nat.max DEFAULT_CHECKPOINT_BATCH_PARTS (Z.to_nat (div_ceil part_count MAX_BATCH_CHECKPOINTS)) in
    Ok (mkProgress total chunk max_parts identity (Z.to_nat part_count) (zeroed_bytes byte_len)
          (zeroed_digests (Z.to_nat part_count)) None [] (zeroed_bytes byte_len)
          checkpoint_threshold now false).

(** [is_multiple_of], then the quotient when it is a part index. *)
Definition index_of (p : DownloadProgress) (offset : Z) : option nat :=
  if negb (offset mod dp_chunk p =? 0) then None
  else
    let idx := offset / dp_chunk p in
    if (idx <=? usize_max W) && (idx <? Z.of_nat (dp_part_count p)) then Some (Z.to_nat idx) else None.

Definition part_range (p : DownloadProgress) (index : nat) : result (Z * Z) IoError :=
  let? offset := ok_or (checked_mul U64_MAX (Z.of_nat index) (dp_chunk p))
    (io_new InvalidInput "part offset overflow") in
  let end_ := Z.min (sat_add U64_MAX offset (dp_chunk p)) (dp_total p) in
  let? len := ok_or (checked_sub end_ offset) (io_new InvalidInput "invalid download part range") in
  Ok (offset, len).

(** ** Bitmap *)

Definition bit_mask (i : nat) : Z := Z.shiftl 1 (Z.land (Z.of_nat i) 7).
Definition byte_of (i : nat) : nat := Nat.shiftr i 3.

(** [bits.get(i >> 3).map(|b| b & (1 << (i & 7)) != 0).unwrap_or(false)] *)
Definition bit_is_set (bits : list Z) (i : nat) : bool :=
  match bits !! byte_of i with
  | Some b => negb (Z.land b (bit_mask i) =? 0)
  | None => false
  end.

(** [byte |= mask], [None] when the byte is out of range. *)
Definition bit_set (bits : list Z) (i : nat) : option (list Z) :=
  match bits !! byte_of i with
  | Some b => Some (<[byte_of i := Z.lor b (bit_mask i)]> bits)
  | None => None
  end.

(** [byte &= !mask], nothing when the byte is out of range. *)
Definition bit_clear (bits : list Z) (i : nat) : list Z :=
  match bits !! byte_of i with
  | Some b => <[byte_of i := Z.land b (Z.lxor 255 (bit_mask i))]> bits
  | None => bits
  end.

(** ** Codec *)

Definition decode (raw : list Z) (total chunk max_parts : Z) (identity : list Z)
    : option (list Z * list (list Z)) :=
  '(u32b, cur) ← read_exact 4 raw;
  if negb (from_le_bytes u32b =? MAGIC) then None else
  '(u16b, cur) ← read_exact 2 cur;
  if negb (from_le_bytes u16b =? VERSION) then None else
  '(u64b, cur) ← read_exact 8 cur;
  if negb (from_le_bytes u64b =? total) then None else
  '(u64b, cur) ← read_exact 8 cur;
  if negb (from_le_bytes u64b =? chunk) then None else
  '(u32b, cur) ← read_exact 4 cur;
  let encoded_max_parts := from_le_bytes u32b in
  '(u16b, cur) ← read_exact 2 cur;
  let id_len := from_le_bytes u16b in
  if negb (id_len =? Z.of_nat (length identity)) then None else
  '(id, cur) ← read_exact (Z.to_nat id_len) cur;
  if negb (bool_decide (id = identity)) then None else
  match part_count_for total chunk with
  | Err _ => None
  | Ok part_count =>
      let byte_len := div_ceil part_count 8 in
      digest_bytes ← checked_mul (usize_max W) part_count (Z.of_nat PART_DIGEST_LEN);
      body_len ← checked_add (usize_max W) byte_len digest_bytes;
      if negb (Z.of_nat (length cur) =? body_len) then None else
      '(bits, cur) ← read_exact (Z.to_nat byte_len) cur;
      '(digests, cur) ← read_digests (Z.to_nat part_count) cur;
      Some (bits, digests)
  end.

Definition encode_snapshot (p : DownloadProgress) (bits : list Z) (digests : list (list Z))
    : result (list Z) IoError :=
  let id := dp_identity p in
  let capacity :=
    len ← checked_add (usize_max W) SIDECAR_HEADER_LEN (Z.of_nat (length id));
    len ← checked_add (usize_max W) len (Z.of_nat (length bits));
    digest_len ← checked_mul (usize_max W) (Z.of_nat (length digests)) (Z.of_nat PART_DIGEST_LEN);
    checked_add (usize_max W) len digest_len in
  let? capacity := ok_or capacity (io_new InvalidInput "sidecar length overflow") in
  Ok (to_le_bytes 4 MAGIC ++ to_le_bytes 2 VERSION ++ to_le_bytes 8 (dp_total p)
      ++ to_le_bytes 8 (dp_chunk p) ++ to_le_bytes 4 (dp_max_parts p mod 2 ^ 32)
      ++ to_le_bytes 2 (Z.of_nat (length id) mod 2 ^ 16) ++ id ++ bits ++ concat digests).

(** ** Reading *)

Lemma read_exact_Some n cur a b : read_exact n cur = Some (a, b) ↔ cur = a ++ b ∧ length a = n.
Proof.
  unfold read_exact. destruct (Nat.leb_spec n (length cur)) as [Hle|Hlt]; split.
  - intros [= <- <-]. rewrite take_drop, length_take. split; [done|lia].
  - intros [-> <-]. by rewrite take_app_length, drop_app_length.
  - done.
  - intros [-> <-]. rewrite length_app in Hlt. lia.
Qed.

Lemma read_exact_app a b : read_exact (length a) (a ++ b) = Some (a, b).
Proof. by apply read_exact_Some. Qed.

Lemma read_digests_Some n cur ds rest :
  read_digests n cur = Some (ds, rest) ↔
  cur = concat ds ++ rest ∧ length ds = n ∧ Forall (λ d, length d = PART_DIGEST_LEN) ds.
Proof.
  revert cur ds rest. induction n as [|n IH]; intros cur ds rest; simpl.
  - split; [intros [= <- <-]; by split_and!|].
    intros (-> & Hl & _). by destruct ds.
  - split.
    + intros ([d cur'] & [-> Hd]%read_exact_Some & H)%bind_Some.
      apply bind_Some in H as ([ds' r] & (-> & Hl & Hf)%IH & [= <- <-]).
      simpl. rewrite <- app_assoc. split_and!; [done|lia|by constructor].
    + intros (-> & Hl & Hf). destruct ds as [|d ds]; [done|]. apply Forall_cons in Hf as [Hd Hf].
      simpl. rewrite <- app_assoc, <- Hd, read_exact_app. simpl.
      rewrite (proj2 (IH (concat ds ++ rest) ds rest)); [done|]. split_and!; [done| |done]. simpl in Hl. lia.
Qed.

Lemma length_concat_digests ds :
  Forall (λ d : list Z, length d = PART_DIGEST_LEN) ds → length (concat ds) = (32 * length ds)%nat.
Proof. induction 1 as [|d ds Hd Hf IH]; [done|]. simpl. rewrite length_app, Hd, IH. unfold PART_DIGEST_LEN. lia. Qed.

Lemma length_to_le_bytes n z : 0 ≤ n → length (to_le_bytes n z) = Z.to_nat n.
Proof. intros Hn. pose proof (length_Z_to_little_endian n 8 z Hn). unfold to_le_bytes. lia. Qed.

(** A field that holds the value [v] is the encoding of [v], and conversely. *)
Lemma le_field n v bs :
  0 ≤ n → 0 ≤ v < 2 ^ (n * 8) → Forall is_byte bs → length bs = Z.to_nat n →
  from_le_bytes bs = v ↔ bs = to_le_bytes n v.
Proof.
  intros Hn Hv Hb Hl. split.
  - intros <-. symmetry. apply Z_to_little_endian_to_Z; [lia|lia|done].
  - intros ->. unfold from_le_bytes, to_le_bytes.
    rewrite little_endian_to_Z_to_little_endian by lia. by apply Z.mod_small.
Qed.

Lemma le_value n v : 0 ≤ n → 0 ≤ v < 2 ^ (n * 8) → from_le_bytes (to_le_bytes n v) = v.
Proof.
  intros Hn Hv. apply (le_field n v); [done|done| |by apply length_to_le_bytes|done].
  apply Z_to_little_endian_bound; lia.
Qed.

(** Decoding of a numeric field at the head of the cursor. *)
Lemma read_field n v rest :
  0 ≤ n → read_exact (Z.to_nat n) (to_le_bytes n v ++ rest) = Some (to_le_bytes n v, rest).
Proof. intros Hn. rewrite <- (length_to_le_bytes n v Hn). apply read_exact_app. Qed.

(** ** Part counts *)

Lemma part_count_for_Ok total chunk n :
  32 ≤ W → 0 ≤ total → 0 ≤ chunk → part_count_for total chunk = Ok n →
  0 < chunk ∧ n = div_ceil total chunk ∧ 0 ≤ n ≤ MAX_PART_COUNT.
Proof.
  unfold part_count_for, part_count_for_pointer_width. intros HW Ht Hc H.
  destruct (chunk =? 0) eqn:E1; [done|]. zbool.
  destruct (_ <? div_ceil _ _) eqn:E2; [done|]. zbool.
  assert (n = div_ceil total chunk) as ->.
  { unfold usize_try_from in H. repeat case_in_hyp H; simplify_eq; done. }
  pose proof (div_ceil_nonneg total chunk Ht ltac:(lia)).
  split_and!; [lia|done|done|].
  unfold part_count_limit_for_pointer_width, MAX_PART_COUNT_32_BIT, MAX_PART_COUNT in *.
  destruct (W <=? 32); [|lia]. etrans; [exact E2|by vm_compute].
Qed.

(** Every length of a sidecar fits [usize]. *)
Lemma sidecar_len_fits n idlen :
  32 ≤ W → 0 ≤ n ≤ MAX_PART_COUNT → 0 ≤ idlen ≤ U16_MAX →
  SIDECAR_HEADER_LEN + idlen + div_ceil n 8 + n * 32 ≤ usize_max W ∧ 0 ≤ div_ceil n 8.
Proof.
  intros HW Hn Hi. pose proof (div_ceil_spec n 8 ltac:(lia) ltac:(lia)).
  assert (2 ^ 32 ≤ 2 ^ W) by (apply Z.pow_le_mono_r; lia).
  unfold usize_max, SIDECAR_HEADER_LEN, MAX_PART_COUNT, U16_MAX in *. lia.
Qed.

(** ** The codec *)

(** A bitmap and digest table of the right size for the grid. *)
Definition table_ok (total chunk : Z) (bits : list Z) (digests : list (list Z)) : Prop :=
  ∃ n, part_count_for total chunk = Ok n ∧ Z.of_nat (length bits) = div_ceil n 8
    ∧ Z.of_nat (length digests) = n ∧ Forall (λ d : list Z, length d = PART_DIGEST_LEN) digests.

(** The layout of a sidecar file. *)
Definition sidecar_layout (total chunk max_parts : Z) (identity bits : list Z)
    (digests : list (list Z)) : list Z :=
  to_le_bytes 4 MAGIC ++ to_le_bytes 2 VERSION ++ to_le_bytes 8 total ++ to_le_bytes 8 chunk
  ++ to_le_bytes 4 max_parts ++ to_le_bytes 2 (Z.of_nat (length identity)) ++ identity ++ bits
  ++ concat digests.

Definition id_ok (identity : list Z) : Prop := Z.of_nat (length identity) ≤ U16_MAX.

Lemma encode_layout p bits digests :
  32 ≤ W → fits U64_MAX (dp_total p) → fits U64_MAX (dp_chunk p) → fits U32_MAX (dp_max_parts p) →
  id_ok (dp_identity p) → table_ok (dp_total p) (dp_chunk p) bits digests →
  encode_snapshot p bits digests
  = Ok (sidecar_layout (dp_total p) (dp_chunk p) (dp_max_parts p) (dp_identity p) bits digests).
Proof.
  intros HW Ht Hc Hm Hid (n & Hn & Hb & Hd & _). unfold fits, id_ok in *.
  destruct (part_count_for_Ok _ _ _ HW (proj1 Ht) (proj1 Hc) Hn) as (_ & _ & Hr).
  destruct (sidecar_len_fits n (Z.of_nat (length (dp_identity p))) HW Hr ltac:(lia)) as [Hfit ?].
  unfold encode_snapshot, sidecar_layout. change (Z.of_nat PART_DIGEST_LEN) with 32.
  rewrite (proj2 (checked_add_Some _ _ _ _)) by (split; [reflexivity|lia]). simpl.
  rewrite (proj2 (checked_add_Some _ _ _ _)) by (split; [reflexivity|lia]). simpl.
  rewrite (proj2 (checked_mul_Some _ _ _ _)) by (split; [reflexivity|unfold SIDECAR_HEADER_LEN in *; lia]). simpl.
  rewrite (proj2 (checked_add_Some _ _ _ _)) by (split; [reflexivity|lia]). simpl.
  unfold U32_MAX, U16_MAX in *.
  by rewrite (Z.mod_small (dp_max_parts p)), (Z.mod_small (Z.of_nat _)) by lia.
Qed.

Ltac dsimpl := cbn [mbind option_bind negb].

Lemma decode_layout total chunk mp mp' identity bits digests :
  32 ≤ W → fits U64_MAX total → fits U64_MAX chunk → fits U32_MAX mp → id_ok identity →
  table_ok total chunk bits digests →
  decode (sidecar_layout total chunk mp identity bits digests) total chunk mp' identity
  = Some (bits, digests).
Proof.
  intros HW Ht Hc Hm Hid (n & Hn & Hb & Hd & Hf). unfold fits, id_ok, U64_MAX, U32_MAX, U16_MAX in *.
  destruct (part_count_for_Ok _ _ _ HW (proj1 Ht) (proj1 Hc) Hn) as (_ & _ & Hr).
  destruct (sidecar_len_fits n 0 HW Hr ltac:(unfold U16_MAX; lia)) as [Hfit ?].
  unfold SIDECAR_HEADER_LEN in *.
  unfold decode, sidecar_layout.
  rewrite (read_field 4 MAGIC) by lia; dsimpl. rewrite le_value, Z.eqb_refl by (unfold MAGIC, VERSION; lia); dsimpl.
  rewrite (read_field 2 VERSION) by lia; dsimpl. rewrite le_value, Z.eqb_refl by (unfold MAGIC, VERSION; lia); dsimpl.
  rewrite (read_field 8 total) by lia; dsimpl. rewrite le_value, Z.eqb_refl by lia; dsimpl.
  rewrite (read_field 8 chunk) by lia; dsimpl. rewrite le_value, Z.eqb_refl by lia; dsimpl.
  rewrite (read_field 4 mp) by lia; dsimpl.
  rewrite (read_field 2 (Z.of_nat (length identity))) by lia; dsimpl.
  rewrite le_value, Z.eqb_refl by lia; dsimpl. rewrite Nat2Z.id, read_exact_app. dsimpl.
  rewrite bool_decide_eq_true_2 by done. dsimpl. rewrite Hn. change (Z.of_nat PART_DIGEST_LEN) with 32.
  rewrite (proj2 (checked_mul_Some _ _ _ _)) by (split; [reflexivity|lia]). dsimpl.
  rewrite (proj2 (checked_add_Some _ _ _ _)) by (split; [reflexivity|lia]). dsimpl.
  rewrite length_app, length_concat_digests by done.
  replace (_ =? _) with true by (symmetry; apply Z.eqb_eq; lia). dsimpl.
  rewrite <- Hb, Nat2Z.id, read_exact_app. dsimpl.
  rewrite (proj2 (read_digests_Some _ (concat digests) digests [])); [done|].
  rewrite app_nil_r. split_and!; [done|lia|done].
Qed.

Ltac decode_step H :=
  match type of H with
  | context [read_exact ?n ?c ≫= _] =>
      let a := fresh "bs" in let b := fresh "cur" in let E := fresh "E" in let L := fresh "L" in
      apply bind_Some in H as ([a b] & [E L]%read_exact_Some & H); cbn [mbind option_bind negb] in H
  | (if negb ?b then None else _) = _ => destruct b eqn:?; cbn [mbind option_bind negb] in H; [|done]
  end.

Lemma decode_inv raw total chunk mp identity bits digests :
  32 ≤ W → fits U64_MAX total → fits U64_MAX chunk → id_ok identity → Forall is_byte raw →
  decode raw total chunk mp identity = Some (bits, digests) →
  ∃ mp', fits U32_MAX mp' ∧ table_ok total chunk bits digests
    ∧ raw = sidecar_layout total chunk mp' identity bits digests.
Proof.
  intros HW Ht Hc Hid Hraw H. unfold fits, id_ok, U64_MAX, U32_MAX, U16_MAX in *.
  unfold decode in H. repeat decode_step H.
  destruct (part_count_for total chunk) as [n|] eqn:Hn; [|done].
  destruct (part_count_for_Ok _ _ _ HW (proj1 Ht) (proj1 Hc) Hn) as (_ & _ & Hr).
  destruct (sidecar_len_fits n 0 HW Hr ltac:(unfold U16_MAX; lia)) as [Hfit ?].
  apply bind_Some in H as (db & [-> _]%checked_mul_Some & H).
  apply bind_Some in H as (bl & [-> _]%checked_add_Some & H). cbn [mbind option_bind negb] in H.
  decode_step H. decode_step H.
  apply bind_Some in H as ([ds rest] & (-> & Hdl & Hdf)%read_digests_Some & [= <- <-]).
  subst. rewrite ?Forall_app in Hraw. destruct_and!. zbool. apply bool_decide_eq_true in Heqb4 as ->.
  assert (rest = []) as ->.
  { rewrite !length_app, length_concat_digests in * by done. apply length_zero_iff_nil.
    change (Z.of_nat PART_DIGEST_LEN) with 32 in *. lia. }
  assert (0 ≤ from_le_bytes bs3 < 2 ^ (4 * 8)) as Hmp.
  { pose proof (little_endian_to_Z_bound 8 bs3 ltac:(lia) ltac:(done)) as Hb. by rewrite L3 in Hb. }
  exists (from_le_bytes bs3). split; [lia|split].
  - exists n. split_and!; [done| |lia|done]. lia.
  - unfold sidecar_layout. rewrite app_nil_r.
    rewrite <- (proj1 (le_field 4 MAGIC bs ltac:(lia) ltac:(unfold MAGIC; lia) ltac:(done) L) Heqb).
    rewrite <- (proj1 (le_field 2 VERSION bs0 ltac:(lia) ltac:(unfold VERSION; lia) ltac:(done) L0) Heqb0).
    rewrite <- (proj1 (le_field 8 total bs1 ltac:(lia) ltac:(lia) ltac:(done) L1) Heqb1).
    rewrite <- (proj1 (le_field 8 chunk bs2 ltac:(lia) ltac:(lia) ltac:(done) L2) Heqb2).
    rewrite <- (proj1 (le_field 4 _ bs3 ltac:(lia) Hmp ltac:(done) L3) eq_refl).
    by rewrite <- (proj1 (le_field 2 (Z.of_nat (length identity)) bs4 ltac:(lia) ltac:(lia) ltac:(done) L4) Heqb3).
Qed.

(** The size of a sidecar that decodes, for any input. *)
Lemma decode_shape raw total chunk mp identity bits digests :
  32 ≤ W → fits U64_MAX total → fits U64_MAX chunk →
  decode raw total chunk mp identity = Some (bits, digests) →
  table_ok total chunk bits digests
  ∧ Z.of_nat (length raw) = SIDECAR_HEADER_LEN + Z.of_nat (length identity)
      + Z.of_nat (length bits) + 32 * Z.of_nat (length digests).
Proof.
  intros HW Ht Hc H. unfold fits in *. unfold decode in H. repeat decode_step H.
  destruct (part_count_for total chunk) as [n|] eqn:Hn; [|done].
  destruct (part_count_for_Ok _ _ _ HW (proj1 Ht) (proj1 Hc) Hn) as (_ & _ & Hr).
  pose proof (div_ceil_nonneg n 8 ltac:(lia) ltac:(lia)).
  apply bind_Some in H as (db & [-> _]%checked_mul_Some & H).
  apply bind_Some in H as (bl & [-> _]%checked_add_Some & H). cbn [mbind option_bind] in H.
  decode_step H. decode_step H.
  apply bind_Some in H as ([ds rest] & (-> & Hdl & Hdf)%read_digests_Some & [= <- <-]).
  subst. zbool. apply bool_decide_eq_true in Heqb4 as ->.
  change (Z.of_nat PART_DIGEST_LEN) with 32 in *.
  split; [exists n; split_and!; [done|lia|lia|done]|].
  rewrite !length_app, length_concat_digests in * by done. unfold SIDECAR_HEADER_LEN. lia.
Qed.

(** ** Bitmap lemmas *)

Definition bit_pos (i : nat) : Z := Z.land (Z.of_nat i) 7.

Lemma bit_pos_range i : 0 ≤ bit_pos i ≤ 7.
Proof.
  unfold bit_pos. change 7 with (Z.ones 3) at 1 2. rewrite Z.land_ones by lia.
  pose proof (Z.mod_pos_bound (Z.of_nat i) (2 ^ 3)). lia.
Qed.

(** An index is determined by its byte and its position in the byte. *)
Lemma bit_index_inj i j : byte_of i = byte_of j → bit_pos i = bit_pos j → i = j.
Proof.
  unfold byte_of, bit_pos. change 7 with (Z.ones 3). rewrite !Z.land_ones by lia.
  rewrite !Nat.shiftr_div_pow2. intros H1 H2.
  pose proof (Nat.div_mod_eq i (2 ^ 3)). pose proof (Nat.div_mod_eq j (2 ^ 3)).
  assert (i mod 2 ^ 3 = j mod 2 ^ 3)%nat.
  { apply Nat2Z.inj. by rewrite !Nat2Z.inj_mod. }
  congruence.
Qed.

Lemma testbit_mask b i k : 0 ≤ k → Z.testbit (Z.land b (bit_mask i)) k = Z.testbit b k && (k =? bit_pos i).
Proof.
  intros Hk. pose proof (bit_pos_range i). unfold bit_mask. fold (bit_pos i).
  rewrite Z.land_spec. f_equal. rewrite Z.shiftl_1_l, Z.pow2_bits_eqb by lia. apply Z.eqb_sym.
Qed.

Lemma mask_nonzero b i : negb (Z.land b (bit_mask i) =? 0) = Z.testbit b (bit_pos i).
Proof.
  pose proof (bit_pos_range i). destruct (Z.testbit b (bit_pos i)) eqn:Hb.
  - apply negb_true_iff, Z.eqb_neq. intros E.
    pose proof (testbit_mask b i (bit_pos i) ltac:(lia)) as Ht.
    rewrite E, Z.bits_0, Hb, Z.eqb_refl in Ht. done.
  - apply negb_false_iff, Z.eqb_eq. apply Z.bits_inj_iff'. intros k Hk.
    rewrite testbit_mask, Z.bits_0 by done.
    destruct (Z.eqb_spec k (bit_pos i)) as [->|]; [by rewrite Hb|by rewrite andb_false_r].
Qed.

Lemma bit_is_set_testbit bits i :
  bit_is_set bits i = match bits !! byte_of i with Some b => Z.testbit b (bit_pos i) | None => false end.
Proof. unfold bit_is_set. case_match; [apply mask_nonzero|done]. Qed.

Lemma bit_set_spec bits i bits' :
  bit_set bits i = Some bits' →
  length bits' = length bits ∧ ∀ j, bit_is_set bits' j = bool_decide (j = i) || bit_is_set bits j.
Proof.
  unfold bit_set. destruct (bits !! byte_of i) as [b|] eqn:Hi; intros [= <-].
  split; [apply length_insert|]. intros j. rewrite !bit_is_set_testbit.
  destruct (decide (byte_of j = byte_of i)) as [E|E].
  - rewrite E, list_lookup_insert_eq, Hi by (by eapply lookup_lt_Some).
    pose proof (bit_pos_range i). pose proof (bit_pos_range j).
    rewrite Z.lor_spec, orb_comm. f_equal. unfold bit_mask. fold (bit_pos i).
    rewrite Z.shiftl_1_l, Z.pow2_bits_eqb by lia.
    case_bool_decide as Hj; [subst; apply Z.eqb_refl|].
    apply Z.eqb_neq. intros Hp. by apply Hj, bit_index_inj.
  - rewrite list_lookup_insert_ne by done. by rewrite bool_decide_eq_false_2 by (by intros ->).
Qed.

Lemma bit_set_is_Some bits i : (byte_of i < length bits)%nat → is_Some (bit_set bits i).
Proof. intros [b Hb]%lookup_lt_is_Some. unfold bit_set. rewrite Hb. by eexists. Qed.

Lemma bit_clear_spec bits i :
  length (bit_clear bits i) = length bits
  ∧ ∀ j, bit_is_set (bit_clear bits i) j = negb (bool_decide (j = i)) && bit_is_set bits j.
Proof.
  unfold bit_clear. destruct (bits !! byte_of i) as [b|] eqn:Hi; (split; [by rewrite ?length_insert|]);
    intros j; rewrite !bit_is_set_testbit.
  - destruct (decide (byte_of j = byte_of i)) as [E|E].
    + rewrite E, list_lookup_insert_eq, Hi by (by eapply lookup_lt_Some).
      pose proof (bit_pos_range i). pose proof (bit_pos_range j).
      rewrite Z.land_spec, Z.lxor_spec, andb_comm. f_equal. unfold bit_mask. fold (bit_pos i).
      rewrite Z.shiftl_1_l, Z.pow2_bits_eqb by lia. change 255 with (Z.ones 8).
      rewrite Z.ones_spec_low by lia.
      case_bool_decide as Hj; [subst; by rewrite Z.eqb_refl|].
      destruct (Z.eqb_spec (bit_pos i) (bit_pos j)) as [Hp|]; [|done].
      exfalso. by apply Hj, bit_index_inj.
    + rewrite list_lookup_insert_ne by done. by rewrite bool_decide_eq_false_2 by (by intros ->).
  - destruct (decide (j = i)) as [->|Hn]; [by rewrite Hi, andb_false_r|].
    by rewrite bool_decide_eq_false_2.
Qed.

Lemma zeroed_not_set len i : bit_is_set (zeroed_bytes len) i = false.
Proof.
  rewrite bit_is_set_testbit. unfold zeroed_bytes.
  destruct (replicate _ _ !! _) as [b|] eqn:H; [|done].
  apply lookup_replicate in H as [-> _]. apply Z.bits_0.
Qed.

(** The bitmap of [n] parts has a byte for each of them. *)
Lemma byte_of_lt i n len : (i < n)%nat → Z.of_nat len = div_ceil (Z.of_nat n) 8 → (byte_of i < len)%nat.
Proof.
  intros Hi Hl. pose proof (div_ceil_spec (Z.of_nat n) 8 ltac:(lia) ltac:(lia)).
  unfold byte_of. rewrite Nat.shiftr_div_pow2. apply Nat.Div0.div_lt_upper_bound. simpl. lia.
Qed.

End Sidecar.

(** C25: the sidecar decoder accepts exactly what the encoder writes for the same download: a
    byte string decodes to a bitmap and digests for a given size, chunk and identity if and only
    if it is the snapshot of a checkpoint with that size, chunk and identity (whatever its
    window), with tables of the size of the part grid; so nothing is lost by a round trip, and
    truncated, extended or foreign sidecars are refused. *)
Theorem sidecar_codec W raw total chunk max_parts identity bits digests :
  32 ≤ W → fits U64_MAX total → fits U64_MAX chunk → id_ok identity → Forall is_byte raw →
  decode W raw total chunk max_parts identity = Some (bits, digests) ↔
  ∃ p, dp_total p = total ∧ dp_chunk p = chunk ∧ dp_identity p = identity
    ∧ fits U32_MAX (dp_max_parts p) ∧ table_ok W total chunk bits digests
    ∧ encode_snapshot W p bits digests = Ok raw.
Proof.
  intros HW Ht Hc Hid Hraw. split.
  - intros (mp' & Hmp & Htab & ->)%decode_inv; [|done..].
    exists (mkProgress total chunk mp' identity 0 bits digests None [] [] 0 0 false).
    split_and!; try done; by apply encode_layout.
  - intros (p & <- & <- & <- & Hmp & Htab & He).
    rewrite encode_layout in He by done. injection He as <-. by apply decode_layout.
Qed.

(** A file of 20 bytes in chunks of 8 has three parts. *)
Definition demo_digest (b : Z) : list Z := replicate 32 b.
Definition demo_snapshot : DownloadProgress :=
  mkProgress 20 8 4 [105; 100] 3 [5] [demo_digest 7; zeroed_digest; demo_digest 9] None [] [0] 8 0 false.

Definition demo_raw : list Z :=
  Eval vm_compute in
    match encode_snapshot 64 demo_snapshot (dp_bits demo_snapshot) (dp_digests demo_snapshot) with
    | Ok raw => raw
    | Err _ => []
    end.

Lemma sidecar_codec_witness :
  encode_snapshot 64 demo_snapshot (dp_bits demo_snapshot) (dp_digests demo_snapshot) = Ok demo_raw
  ∧ decode 64 demo_raw 20 8 1 [105; 100] = Some (dp_bits demo_snapshot, dp_digests demo_snapshot).
Proof.
  assert (encode_snapshot 64 demo_snapshot (dp_bits demo_snapshot) (dp_digests demo_snapshot)
    = Ok demo_raw) as He by (vm_compute; reflexivity).
  split; [exact He|].
  apply (proj2 (sidecar_codec 64 demo_raw 20 8 1 [105; 100] (dp_bits demo_snapshot)
    (dp_digests demo_snapshot) ltac:(lia) ltac:(vm_compute; split; discriminate)
    ltac:(vm_compute; split; discriminate) ltac:(vm_compute; discriminate)
    ltac:(repeat constructor; vm_compute; try discriminate))).
  exists demo_snapshot. split_and!; [reflexivity..|vm_compute; split; discriminate| |exact He].
  exists 3. split_and!; [by vm_compute..|]. repeat constructor.
Defined.
