(* ===== verification/Checkpoint.v ===== *)
(** * Download checkpoints

    [src/dflt/download_progress.rs], second part: loading a checkpoint and verifying the parts it
    claims, staging completed parts, committing them after a data sync, compacting to a prefix,
    and the validation before a download completes.

    The file system is a [Disk]: the target file, the sidecar file and whether the adjacent
    namespace is owned. A commit can fail before or after the sidecar is replaced
    ([PersistFault]); other I/O errors, temporary files and symbolic-link checks are left out.
    The hash is a parameter. *)
From S2P Require Import Prelude Errors Sidecar.
#[local] Open Scope Z_scope.

Record Disk := mkDisk {
  target_file : option (list Z);
  sidecar_file : option (list Z);
  namespace_owned : bool;
}.

Definition CHECKPOINT_TIMER_MAX_PART_COUNT : nat := 4096.
Definition DEFAULT_CHECKPOINT_INTERVAL : Z := 250.

(** [File::set_len] *)
Definition resize (f : list Z) (len : nat) : list Z := take len f ++ replicate (len - length f) 0.

(** ** Field updates *)

Definition set_table (bits : list Z) (digests : list (list Z)) (p : DownloadProgress) : DownloadProgress :=
  mkProgress (dp_total p) (dp_chunk p) (dp_max_parts p) (dp_identity p) (dp_part_count p) bits digests
    (dp_expected_validator p) (dp_pending p) (dp_pending_bits p) (dp_checkpoint_threshold p)
    (dp_last_checkpoint p) (dp_checkpoint_timer_armed p).
Definition set_pending (ps : list PendingPart) (pbits : list Z) (p : DownloadProgress) : DownloadProgress :=
  mkProgress (dp_total p) (dp_chunk p) (dp_max_parts p) (dp_identity p) (dp_part_count p) (dp_bits p)
    (dp_digests p) (dp_expected_validator p) ps pbits (dp_checkpoint_threshold p)
    (dp_last_checkpoint p) (dp_checkpoint_timer_armed p).
Definition set_timer (armed : bool) (p : DownloadProgress) : DownloadProgress :=
  mkProgress (dp_total p) (dp_chunk p) (dp_max_parts p) (dp_identity p) (dp_part_count p) (dp_bits p)
    (dp_digests p) (dp_expected_validator p) (dp_pending p) (dp_pending_bits p)
    (dp_checkpoint_threshold p) (dp_last_checkpoint p) armed.
Definition set_last_checkpoint (now : Z) (p : DownloadProgress) : DownloadProgress :=
  mkProgress (dp_total p) (dp_chunk p) (dp_max_parts p) (dp_identity p) (dp_part_count p) (dp_bits p)
    (dp_digests p) (dp_expected_validator p) (dp_pending p) (dp_pending_bits p)
    (dp_checkpoint_threshold p) now (dp_checkpoint_timer_armed p).
Definition set_expected_validator (v : string) (p : DownloadProgress) : DownloadProgress :=
  mkProgress (dp_total p) (dp_chunk p) (dp_max_parts p) (dp_identity p) (dp_part_count p) (dp_bits p)
    (dp_digests p) (Some v) (dp_pending p) (dp_pending_bits p) (dp_checkpoint_threshold p)
    (dp_last_checkpoint p) (dp_checkpoint_timer_armed p).

(** [clear_part] *)
Definition clear_part (index : nat) (p : DownloadProgress) : DownloadProgress :=
  set_table (bit_clear (dp_bits p) index) (<[index := zeroed_digest]> (dp_digests p)) p.

Section Checkpoint.
Context (W : Z) (sha256 : list Z → list Z).

(** ** Verification and loading *)

Definition file_range (f : list Z) (offset len : Z) : list Z :=
  take (Z.to_nat len) (drop (Z.to_nat offset) f).

(** The digest of a range, read in blocks; an early end of file is an error. *)
Definition digest_open_file_range (f : list Z) (offset len : Z) : result (list Z) IoError :=
  let bytes := file_range f offset len in
  if Z.of_nat (length bytes) =? len then Ok (sha256 bytes)
  else Err (io_new UnexpectedEof "download target ended while hashing a completed part").

Definition open_target (d : Disk) : result (list Z) IoError :=
  ok_or (target_file d) (io_new NotFound "open download target").

(** One turn of the loop of [verify_completed_parts_through]. *)
Definition verify_part (d : Disk) (target_len : Z) (index : nat) (p : DownloadProgress)
    : result DownloadProgress IoError :=
  let? (offset, len) := part_range p index in
  let? end_ := ok_or (checked_add U64_MAX offset len) (io_new InvalidInput "download part end overflow") in
  if target_len <? end_ then Ok (clear_part index p)
  else if negb (bit_is_set (dp_bits p) index) then Ok p
  else
    let? f := open_target d in
    let? actual := digest_open_file_range f offset len in
    if bool_decide (dp_digests p !! index = Some actual) then Ok p else Ok (clear_part index p).

Fixpoint verify_parts (d : Disk) (target_len : Z) (indices : list nat) (p : DownloadProgress)
    : result DownloadProgress IoError :=
  match indices with
  | [] => Ok p
  | i :: rest => let? p := verify_part d target_len i p in verify_parts d target_len rest p
  end.

Definition verify_completed_parts_through (d : Disk) (target_len : Z) (p : DownloadProgress)
    : result DownloadProgress IoError :=
  verify_parts d target_len (seq 0 (dp_part_count p)) p.

Definition verify_completed_parts (d : Disk) (p : DownloadProgress) : result DownloadProgress IoError :=
  verify_completed_parts_through d (dp_total p) p.

Definition read_sidecar_bounded (d : Disk) (expected_len : Z) : result (option (list Z)) IoError :=
  match sidecar_file d with
  | None => Ok None
  | Some raw =>
      if negb (Z.of_nat (length raw) =? expected_len) then Ok None
      else
        let? _ := ok_or (checked_add (usize_max W) expected_len 1)
          (io_new InvalidInput "download sidecar read limit overflow") in
        Ok (Some raw)
  end.

Definition target_len (d : Disk) : Z :=
  match target_file d with Some f => Z.of_nat (length f) | None => 0 end.

Definition load_or_create (now : Z) (d : Disk) (total chunk max_parts : Z) (identity : list Z)
    : result DownloadProgress IoError :=
  let? p := fresh W now total chunk max_parts identity in
  if negb (target_len d =? total) then Ok p
  else if negb (namespace_owned d) then Ok p
  else
    let? expected_len := expected_v2_encoded_len W total chunk identity in
    let? raw := read_sidecar_bounded d expected_len in
    match raw with
    | None => Ok p
    | Some raw =>
        match decode W raw total chunk max_parts identity with
        | Some (bits, digests) => verify_completed_parts d (set_table bits digests p)
        | None => Ok p
        end
    end.

Definition load_or_create_serial (now : Z) (d : Disk) (total chunk max_parts : Z) (identity : list Z)
    : result DownloadProgress IoError :=
  let? p := fresh W now total chunk max_parts identity in
  if total <? target_len d then Ok p
  else if negb (namespace_owned d) then Ok p
  else
    let? expected_len := expected_v2_encoded_len W total chunk identity in
    let? raw := read_sidecar_bounded d expected_len in
    match raw with
    | None => Ok p
    | Some raw =>
        match decode W raw total chunk max_parts identity with
        | Some (bits, digests) =>
            verify_completed_parts_through d (target_len d) (set_table bits digests p)
        | None => Ok p
        end
    end.

Definition create_unverified (now total chunk max_parts : Z) : result DownloadProgress IoError :=
  fresh W now total chunk max_parts [117; 110; 118; 101; 114; 105; 102; 105; 101; 100].

(** ** Staging *)

Definition is_done (p : DownloadProgress) (offset : Z) : bool :=
  match index_of W p offset with
  | Some i => bit_is_set (dp_bits p) i
  | None => false
  end.

Record StageDoneOutcome := mkOutcome { checkpoint_due : bool; arm_timer : bool }.

Definition stage_done_with_digest_deferred (now : Z) (offset : Z) (digest : list Z)
    (p : DownloadProgress) : DownloadProgress * result StageDoneOutcome IoError :=
  match index_of W p offset with
  | None =>
      (p, Err (io_new InvalidInput
            ("unaligned or out-of-range download part offset: " +:+ pretty offset)))
  | Some i =>
      if is_done p offset then (p, Ok (mkOutcome false false))
      else if bit_is_set (dp_pending_bits p) i then (p, Ok (mkOutcome true false))
      else
        let pending := dp_pending p ++ [mkPending i digest] in
        match bit_set (dp_pending_bits p) i with
        | None =>
            (set_pending pending (dp_pending_bits p) p,
             Err (io_new InvalidData "pending part bitmap index overflow"))
        | Some pbits =>
            let p := set_pending pending pbits p in
            let timer_enabled := (dp_part_count p <=? CHECKPOINT_TIMER_MAX_PART_COUNT)%nat in
            let should_checkpoint :=
              (Nat.max (dp_checkpoint_threshold p) 1 <=? length (dp_pending p))%nat
              || (timer_enabled && (DEFAULT_CHECKPOINT_INTERVAL <=? now - dp_last_checkpoint p)) in
            if should_checkpoint then (p, Ok (mkOutcome true false))
            else
              let arm := timer_enabled && negb (dp_checkpoint_timer_armed p) in
              (if timer_enabled then set_timer true p else p, Ok (mkOutcome false arm))
        end
  end.

Definition begin_external_checkpoint (p : DownloadProgress) : DownloadProgress * bool :=
  let p := set_timer false p in
  (p, match dp_pending p with [] => false | _ => true end).

Definition begin_timer_checkpoint (p : DownloadProgress) : DownloadProgress * bool :=
  if negb (dp_checkpoint_timer_armed p) then (p, false)
  else begin_external_checkpoint (set_timer false p).

(** ** Committing *)

(** Where the replacement of the sidecar fails: when its namespace is claimed, before the
    atomic rename (creating, writing or syncing the temporary file, or the rename), or after it
    (syncing the directory). The single file operations are the programs of [SidecarFs]. *)
Inductive PersistFault := NoFault | FaultNamespace | FaultBeforeRename | FaultAfterRename.

Definition persist_fault : IoError := io_other "persist download sidecar".

Definition persist_snapshot_atomic (fault : PersistFault) (p : DownloadProgress) (bits : list Z)
    (digests : list (list Z)) (d : Disk) : Disk * result unit IoError :=
  match encode_snapshot W p bits digests with
  | Err e => (d, Err e)
  | Ok bytes =>
      match fault with
      | FaultNamespace => (d, Err persist_fault)
      | FaultBeforeRename => (mkDisk (target_file d) (sidecar_file d) true, Err persist_fault)
      | FaultAfterRename => (mkDisk (target_file d) (Some bytes) true, Err persist_fault)
      | NoFault => (mkDisk (target_file d) (Some bytes) true, Ok tt)
      end
  end.

(** The loop of [commit_checkpoint_after_data_sync] over the pending parts. *)
Fixpoint apply_pending (ps : list PendingPart) (bits : list Z) (digests : list (list Z))
    : result (list Z * list (list Z)) IoError :=
  match ps with
  | [] => Ok (bits, digests)
  | part :: ps =>
      let? bits := ok_or (bit_set bits (pend_index part))
        (io_new InvalidData "pending part bitmap index overflow") in
      match digests !! pend_index part with
      | None => Err (io_new InvalidData "pending part digest index overflow")
      | Some _ => apply_pending ps bits (<[pend_index part := pend_digest part]> digests)
      end
  end.

(** The epoch is closed: the tables replaced, nothing pending. *)
Definition publish (now : Z) (bits : list Z) (digests : list (list Z)) (p : DownloadProgress)
    : DownloadProgress :=
  set_last_checkpoint now
    (set_pending [] (zeroed_bytes (length (dp_pending_bits p))) (set_table bits digests p)).

Definition commit_checkpoint_after_data_sync (now : Z) (fault : PersistFault) (p : DownloadProgress)
    (d : Disk) : DownloadProgress * Disk * result unit IoError :=
  match dp_pending p with
  | [] => (p, d, Ok tt)
  | _ =>
      match apply_pending (dp_pending p) (dp_bits p) (dp_digests p) with
      | Err e => (p, d, Err e)
      | Ok (next_bits, next_digests) =>
          match persist_snapshot_atomic fault p next_bits next_digests d with
          | (d, Err e) => (p, d, Err e)
          | (d, Ok _) => (publish now next_bits next_digests p, d, Ok tt)
          end
      end
  end.

(** ** Prefix, completeness and validation *)

Fixpoint watermark_loop (p : DownloadProgress) (indices : list nat) (wm : Z) : Z :=
  match indices with
  | [] => wm
  | i :: rest =>
      if negb (bit_is_set (dp_bits p) i) then wm
      else watermark_loop p rest (Z.min (sat_add U64_MAX wm (dp_chunk p)) (dp_total p))
  end.

Definition contiguous_watermark (p : DownloadProgress) : Z :=
  watermark_loop p (seq 0 (dp_part_count p)) 0.

Definition all_done (p : DownloadProgress) : bool :=
  forallb (bit_is_set (dp_bits p)) (seq 0 (dp_part_count p)).

(** Clearing of the bits and digests from an index on. *)
Fixpoint clear_parts (indices : list nat) (bits : list Z) (digests : list (list Z))
    : result (list Z * list (list Z)) IoError :=
  match indices with
  | [] => Ok (bits, digests)
  | i :: rest =>
      match bits !! byte_of i with
      | None => Err (io_new InvalidData "serial prefix bitmap overflow")
      | Some _ => clear_parts rest (bit_clear bits i) (<[i := zeroed_digest]> digests)
      end
  end.

Definition retain_contiguous_prefix_after_data_sync (now : Z) (fault : PersistFault)
    (p : DownloadProgress) (d : Disk) : DownloadProgress * Disk * result Z IoError :=
  let watermark := contiguous_watermark p in
  let retained :=
    if watermark =? dp_total p then Ok (Z.of_nat (dp_part_count p))
    else usize_try_from W (watermark / dp_chunk p)
           "serial prefix part count does not fit this architecture" in
  match retained with
  | Err e => (p, d, Err e)
  | Ok retained_parts =>
      let k := Z.to_nat retained_parts in
      match clear_parts (seq k (length (dp_digests p) - k)) (dp_bits p) (dp_digests p) with
      | Err e => (p, d, Err e)
      | Ok (next_bits, next_digests) =>
          match persist_snapshot_atomic fault p next_bits next_digests d with
          | (d, Err e) => (p, d, Err e)
          | (d, Ok _) => (set_timer false (publish now next_bits next_digests p), d, Ok watermark)
          end
      end
  end.

Fixpoint validate_parts (f : list Z) (p : DownloadProgress) (indices : list nat) : result unit IoError :=
  match indices with
  | [] => Ok tt
  | i :: rest =>
      if negb (bit_is_set (dp_bits p) i) then validate_parts f p rest
      else
        let? (offset, len) := part_range p i in
        let? actual := digest_open_file_range f offset len in
        if bool_decide (dp_digests p !! i = Some actual) then validate_parts f p rest
        else Err (io_new InvalidData
               ("download target content changed in committed part " +:+ pretty (Z.of_nat i)))
  end.

Definition validate_committed_content (p : DownloadProgress) (d : Disk) : result unit IoError :=
  let? f := open_target d in
  let actual_len := Z.of_nat (length f) in
  if negb (actual_len =? dp_total p) then
    Err (io_new UnexpectedEof
      ("download target length changed: expected " +:+ pretty (dp_total p) +:+ ", found "
       +:+ pretty actual_len))
  else validate_parts f p (seq 0 (dp_part_count p)).

Definition delete_sidecar (d : Disk) : Disk :=
  if negb (namespace_owned d) then d else mkDisk (target_file d) None (namespace_owned d).

End Checkpoint.
