(* ===== verification/CheckpointProps.v ===== *)
(** * Download checkpoints: what a resume can trust

    The part grid, the verification on load, and what loading gives: exactly the parts the
    sidecar claims and the target file confirms. *)
From S2P Require Import Prelude Errors Sidecar Checkpoint.
#[local] Open Scope Z_scope.

(** ** The grid *)

Definition part_offset (p : DownloadProgress) (i : nat) : Z := Z.of_nat i * dp_chunk p.
Definition part_end (p : DownloadProgress) (i : nat) : Z :=
  Z.min (part_offset p i + dp_chunk p) (dp_total p).
Definition part_len (p : DownloadProgress) (i : nat) : Z := part_end p i - part_offset p i.
Definition part_bytes (p : DownloadProgress) (i : nat) (f : list Z) : list Z :=
  file_range f (part_offset p i) (part_len p i).
Definition has (p : DownloadProgress) (i : nat) : Prop := bit_is_set (dp_bits p) i = true.

Section Props.
Context (W : Z) (sha256 : list Z → list Z).
Hypothesis HW : 32 ≤ W.
Hypothesis sha256_len : ∀ bs, length (sha256 bs) = PART_DIGEST_LEN.

Record grid_ok (p : DownloadProgress) : Prop := {
  g_total : fits U64_MAX (dp_total p);
  g_chunk : fits U64_MAX (dp_chunk p);
  g_mp : fits U32_MAX (dp_max_parts p);
  g_id : id_ok (dp_identity p);
  g_count : part_count_for W (dp_total p) (dp_chunk p) = Ok (Z.of_nat (dp_part_count p));
  g_table : table_ok W (dp_total p) (dp_chunk p) (dp_bits p) (dp_digests p);
}.

(** [p'] is [p] up to its tables. *)
Definition same_grid (p p' : DownloadProgress) : Prop := p' = set_table (dp_bits p') (dp_digests p') p.

Lemma same_grid_fields p p' :
  same_grid p p' →
  dp_total p' = dp_total p ∧ dp_chunk p' = dp_chunk p ∧ dp_max_parts p' = dp_max_parts p
  ∧ dp_identity p' = dp_identity p ∧ dp_part_count p' = dp_part_count p.
Proof. intros ->. done. Qed.

Lemma same_grid_trans p p' p'' : same_grid p p' → same_grid p' p'' → same_grid p p''.
Proof. unfold same_grid. intros H1 H2. rewrite H2 at 1. by rewrite H1. Qed.

Lemma grid_count p :
  grid_ok p → 0 < dp_chunk p ∧ Z.of_nat (dp_part_count p) = div_ceil (dp_total p) (dp_chunk p)
    ∧ Z.of_nat (dp_part_count p) ≤ MAX_PART_COUNT.
Proof.
  intros Hg. destruct (g_total _ Hg), (g_chunk _ Hg).
  destruct (part_count_for_Ok W (dp_total p) (dp_chunk p) _ HW ltac:(done) ltac:(done) (g_count _ Hg)) as (? & ? & ? & ?). done.
Qed.

Lemma part_bounds p i :
  grid_ok p → (i < dp_part_count p)%nat →
  0 ≤ part_offset p i < part_end p i ∧ part_end p i ≤ dp_total p ∧ dp_total p ≤ U64_MAX.
Proof.
  intros Hg Hi. destruct (grid_count p Hg) as (Hc & Hn & _). destruct (g_total _ Hg).
  pose proof (div_ceil_spec (dp_total p) (dp_chunk p) ltac:(lia) Hc) as [Hlo _].
  rewrite <- Hn in Hlo. unfold part_end, part_offset. nia.
Qed.

Lemma part_range_eq p i :
  grid_ok p → (i < dp_part_count p)%nat → part_range p i = Ok (part_offset p i, part_len p i).
Proof.
  intros Hg Hi. pose proof (part_bounds p i Hg Hi). destruct (grid_count p Hg) as (Hc & _).
  unfold part_range. rewrite (proj2 (checked_mul_Some _ _ _ _)) by (split; [reflexivity|]; unfold part_offset in *; lia).
  simpl. fold (part_offset p i).
  assert (Z.min (sat_add U64_MAX (part_offset p i) (dp_chunk p)) (dp_total p) = part_end p i) as ->.
  { unfold sat_add, part_end. lia. }
  rewrite (proj2 (checked_sub_Some _ _ _)) by (split; [reflexivity|lia]). done.
Qed.

Lemma index_of_part p i :
  grid_ok p → (i < dp_part_count p)%nat → index_of W p (part_offset p i) = Some i.
Proof.
  intros Hg Hi. destruct (grid_count p Hg) as (Hc & Hn & Hmax).
  unfold index_of, part_offset. rewrite Z.mod_mul, Z.div_mul by lia. simpl.
  assert (2 ^ 32 ≤ 2 ^ W) by (apply Z.pow_le_mono_r; lia).
  unfold usize_max, MAX_PART_COUNT in *.
  rewrite (proj2 (Z.leb_le _ _)), (proj2 (Z.ltb_lt _ _)) by lia. simpl. by rewrite Nat2Z.id.
Qed.

Lemma index_of_Some p off i :
  grid_ok p → 0 ≤ off → index_of W p off = Some i → (i < dp_part_count p)%nat ∧ off = part_offset p i.
Proof.
  intros Hg Ho H. destruct (grid_count p Hg) as (Hc & _). unfold index_of in H.
  destruct (off mod dp_chunk p =? 0) eqn:Em; [|done]. simpl in H.
  destruct (_ && _) eqn:Eb; [|done]. simplify_eq. zbool.
  pose proof (Z.div_mod off (dp_chunk p) ltac:(lia)). pose proof (Z.div_pos off (dp_chunk p) Ho Hc).
  unfold part_offset. split; [lia|]. rewrite Z2Nat.id by lia. lia.
Qed.

Lemma table_lengths p :
  grid_ok p → Z.of_nat (length (dp_bits p)) = div_ceil (Z.of_nat (dp_part_count p)) 8
    ∧ length (dp_digests p) = dp_part_count p
    ∧ Forall (λ d : list Z, length d = PART_DIGEST_LEN) (dp_digests p).
Proof.
  intros Hg. destruct (g_table _ Hg) as (n & Hn & Hb & Hd & Hf). rewrite (g_count _ Hg) in Hn.
  injection Hn as Hn. split_and!; [congruence|lia|done].
Qed.

Lemma grid_set_table p bits digests :
  grid_ok p → table_ok W (dp_total p) (dp_chunk p) bits digests → grid_ok (set_table bits digests p).
Proof. intros [] Ht. by split. Qed.

Lemma same_grid_geometry p p' i :
  same_grid p p' →
  part_offset p' i = part_offset p i ∧ part_len p' i = part_len p i ∧ part_end p' i = part_end p i
  ∧ ∀ f, part_bytes p' i f = part_bytes p i f.
Proof.
  intros (Ht & Hc & _)%same_grid_fields. unfold part_bytes, part_len, part_end, part_offset. by rewrite Ht, Hc.
Qed.

(** ** Reading parts of a file *)

Lemma file_range_lookup f o l j :
  0 ≤ o → 0 ≤ l →
  file_range f o l !! j = if decide (Z.of_nat j < l) then f !! (Z.to_nat o + j)%nat else None.
Proof.
  intros Ho Hl. unfold file_range. case_decide.
  - by rewrite lookup_take_lt, lookup_drop by lia.
  - apply lookup_take_ge. lia.
Qed.

Lemma length_part_bytes p i f :
  grid_ok p → (i < dp_part_count p)%nat →
  Z.of_nat (length (part_bytes p i f)) = part_len p i ↔ part_end p i ≤ Z.of_nat (length f).
Proof.
  intros Hg Hi. pose proof (part_bounds p i Hg Hi). unfold part_bytes, file_range.
  rewrite length_take, length_drop. unfold part_len. lia.
Qed.

Lemma digest_range_eq p i f :
  grid_ok p → (i < dp_part_count p)%nat → part_end p i ≤ Z.of_nat (length f) →
  digest_open_file_range sha256 f (part_offset p i) (part_len p i) = Ok (sha256 (part_bytes p i f)).
Proof.
  intros Hg Hi Hf. unfold digest_open_file_range. fold (part_bytes p i f).
  by rewrite (proj2 (Z.eqb_eq _ _)) by (by apply length_part_bytes).
Qed.

(** ** Verification *)

(** A part whose recorded digest is the digest of what the file holds. *)
Definition verified (d : Disk) (p : DownloadProgress) (i : nat) : Prop :=
  ∃ f, target_file d = Some f ∧ part_end p i ≤ Z.of_nat (length f)
    ∧ dp_digests p !! i = Some (sha256 (part_bytes p i f)).

Definition trusted (d : Disk) (tl : Z) (p : DownloadProgress) (i : nat) : Prop :=
  has p i ∧ part_end p i ≤ tl ∧ verified d p i.

Lemma clear_part_ok i p :
  grid_ok p → same_grid p (clear_part i p) ∧ grid_ok (clear_part i p)
  ∧ ∀ j, (has (clear_part i p) j ↔ has p j ∧ j ≠ i)
         ∧ (j ≠ i → dp_digests (clear_part i p) !! j = dp_digests p !! j).
Proof.
  intros Hg. destruct (bit_clear_spec (dp_bits p) i) as [Hl Hb]. split; [done|]. split.
  - apply grid_set_table; [done|]. destruct (g_table _ Hg) as (n & Hn & Hbl & Hd & Hf).
    exists n. rewrite Hl, length_insert. split_and!; try done.
    apply Forall_insert; [done|]. apply length_replicate.
  - intros j. unfold has. simpl. rewrite Hb. split.
    + case_bool_decide; simpl; naive_solver.
    + intros Hj. by rewrite list_lookup_insert_ne.
Qed.

Lemma verify_part_ok d tl i p :
  grid_ok p → (i < dp_part_count p)%nat → tl ≤ target_len d →
  ∃ p', verify_part sha256 d tl i p = Ok p'
    ∧ (p' = p ∧ (has p i → trusted d tl p i) ∨ p' = clear_part i p ∧ ¬ trusted d tl p i).
Proof.
  intros Hg Hi Htl. pose proof (part_bounds p i Hg Hi). unfold verify_part.
  rewrite part_range_eq by done.
  rewrite (proj2 (checked_add_Some _ _ _ _)) by (split; [reflexivity|unfold part_len; lia]). simpl.
  replace (part_offset p i + part_len p i) with (part_end p i) by (unfold part_len; lia).
  destruct (tl <? part_end p i) eqn:E1; zbool.
  { eexists. split; [done|right]. split; [done|]. intros (_ & ? & _). lia. }
  destruct (bit_is_set (dp_bits p) i) eqn:E2; simpl.
  2:{ eexists. split; [done|left]. split; [done|]. unfold has. by rewrite E2. }
  unfold target_len in Htl. unfold open_target. destruct (target_file d) as [f|] eqn:Hf; [|lia]. simpl.
  rewrite digest_range_eq by (try done; lia).
  case_bool_decide as Hd; eexists; (split; [done|]).
  - left. split; [done|]. intros _. split_and!; [done|done|]. exists f. split_and!; [done|lia|done].
  - right. split; [done|]. intros (_ & _ & f' & Hf' & _ & Hd'). congruence.
Qed.

(** The loop keeps exactly the trusted parts among those it visits. *)
Lemma verify_parts_ok d tl is_ p :
  grid_ok p → Forall (λ i, (i < dp_part_count p)%nat) is_ → tl ≤ target_len d →
  ∃ p', verify_parts sha256 d tl is_ p = Ok p' ∧ same_grid p p' ∧ grid_ok p'
    ∧ ∀ j, (has p' j ↔ if decide (j ∈ is_) then trusted d tl p j else has p j)
           ∧ (has p' j → dp_digests p' !! j = dp_digests p !! j).
Proof.
  revert p. induction is_ as [|i is_ IH]; intros p Hg Hf Htl; simpl.
  { exists p. split_and!; try done. by destruct p. }
  apply Forall_cons in Hf as [Hi Hf].
  destruct (verify_part_ok d tl i p Hg Hi Htl) as (p1 & -> & Hp1).
  assert (same_grid p p1 ∧ grid_ok p1 ∧ ∀ j, (has p1 j ↔ has p j ∧ (j = i → trusted d tl p i))
    ∧ (has p1 j → dp_digests p1 !! j = dp_digests p !! j)) as (Hs1 & Hg1 & H1).
  { destruct Hp1 as [[-> Ht]|[-> Hn]].
    - split; [by destruct p|]. split; [done|]. intros j. split; [|done]. split; [|tauto].
      intros Hj. split; [done|]. by intros ->; auto.
    - destruct (clear_part_ok i p Hg) as (Hs & Hg' & Hh). split_and!; [done..|]. intros j.
      destruct (Hh j) as [H1 H2]. rewrite H1. split; [|by intros [_ ?]; auto]. naive_solver. }
  destruct (same_grid_fields _ _ Hs1) as (_ & _ & _ & _ & E5).
  destruct (IH p1 Hg1 ltac:(by rewrite E5) Htl) as (p2 & -> & Hs2 & Hg2 & H2).
  exists p2. split; [done|]. split; [by eapply same_grid_trans|split; [done|]].
  intros j. destruct (H1 j) as [Ha1 Ha2], (H2 j) as [Hb1 Hb2]. split.
  2:{ intros Hj. rewrite (Hb2 Hj). apply Ha2. apply Hb1 in Hj. case_decide; [apply Hj|done]. }
  assert (has p1 j → trusted d tl p1 j ↔ trusted d tl p j) as Htr.
  { intros Hj. destruct (same_grid_geometry p p1 j Hs1) as (_ & _ & G1 & G2).
    unfold trusted, verified. rewrite G1, (Ha2 Hj). setoid_rewrite G2. naive_solver. }
  rewrite Hb1. clear Hb1 Hb2 IH H1 H2. destruct (decide (j ∈ is_)), (decide (j ∈ i :: is_)) as [Hin|Hin].
  - split; [intros Ht; apply Htr; [apply Ht|done]|]. intros Ht.
    assert (has p1 j) by (apply Ha1; split; [apply Ht|by intros ->]). by apply Htr.
  - set_solver.
  - assert (j = i) as -> by set_solver. rewrite Ha1. split; [naive_solver|]. intros Ht. split; [apply Ht|done].
  - rewrite Ha1. set_solver.
Qed.

(** ** Loading *)

Lemma fresh_inv now total chunk mp identity p :
  fits U64_MAX total → fits U64_MAX chunk → 0 ≤ mp → fresh W now total chunk mp identity = Ok p →
  grid_ok p ∧ dp_total p = total ∧ dp_chunk p = chunk ∧ dp_max_parts p = mp ∧ dp_identity p = identity
  ∧ dp_pending p = [] ∧ dp_pending_bits p = zeroed_bytes (length (dp_bits p)) ∧ ∀ i, ¬ has p i.
Proof.
  intros Ht Hc Hm. unfold fresh.
  destruct (U32_MAX <? mp) eqn:E1; [done|]. destruct (U16_MAX <? _) eqn:E2; [done|]. zbool.
  destruct (part_count_for W total chunk) as [n|] eqn:Hn; [|done]. intros [= <-].
  destruct (part_count_for_Ok W total chunk n HW (proj1 Ht) (proj1 Hc) Hn) as (_ & _ & Hr).
  pose proof (div_ceil_nonneg n 8 ltac:(lia) ltac:(lia)).
  split_and!; try done; simpl.
  - split; simpl; try done; try (by rewrite Z2Nat.id by lia).
    exists n. unfold zeroed_bytes, zeroed_digests. rewrite !length_replicate.
    split_and!; [done|lia|lia|]. apply Forall_replicate, length_replicate.
  - unfold zeroed_bytes. by rewrite length_replicate.
  - intros i. unfold has. simpl. by rewrite zeroed_not_set.
Qed.

Lemma layout_length total chunk mp identity bits digests :
  Forall (λ d : list Z, length d = PART_DIGEST_LEN) digests →
  Z.of_nat (length (sidecar_layout total chunk mp identity bits digests))
  = SIDECAR_HEADER_LEN + Z.of_nat (length identity) + Z.of_nat (length bits) + 32 * Z.of_nat (length digests).
Proof.
  intros Hf. unfold sidecar_layout, SIDECAR_HEADER_LEN.
  rewrite !length_app, !length_to_le_bytes, length_concat_digests by (done || lia). lia.
Qed.

(** The sidecar of a matching snapshot has the expected length. *)
Lemma expected_len_ok total chunk mp identity bits digests :
  fits U64_MAX total → fits U64_MAX chunk → id_ok identity → table_ok W total chunk bits digests →
  expected_v2_encoded_len W total chunk identity
  = Ok (Z.of_nat (length (sidecar_layout total chunk mp identity bits digests)))
  ∧ Z.of_nat (length (sidecar_layout total chunk mp identity bits digests)) + 1 ≤ usize_max W.
Proof.
  intros Ht Hc Hid (n & Hn & Hb & Hd & Hf). rewrite layout_length by done. unfold id_ok in Hid.
  destruct (part_count_for_Ok W total chunk n HW (proj1 Ht) (proj1 Hc) Hn) as (_ & _ & Hr).
  pose proof (div_ceil_spec n 8 ltac:(lia) ltac:(lia)).
  assert (2 ^ 32 ≤ 2 ^ W) by (apply Z.pow_le_mono_r; lia).
  unfold usize_max, MAX_PART_COUNT, U16_MAX, SIDECAR_HEADER_LEN in *.
  unfold expected_v2_encoded_len, U16_MAX, SIDECAR_HEADER_LEN, usize_max.
  destruct (_ <? _) eqn:E; zbool; [lia|]. rewrite Hn. change (Z.of_nat PART_DIGEST_LEN) with 32.
  rewrite (proj2 (checked_mul_Some _ _ _ _)) by (split; [reflexivity|lia]). cbn [ok_or].
  rewrite (proj2 (checked_add_Some _ _ _ _)) by (split; [reflexivity|lia]). cbn [mbind option_bind].
  rewrite (proj2 (checked_add_Some _ _ _ _)) by (split; [reflexivity|lia]). cbn [mbind option_bind].
  rewrite (proj2 (checked_add_Some _ _ _ _)) by (split; [reflexivity|lia]). cbn [ok_or].
  split; [f_equal; lia|lia].
Qed.

(** What a sidecar file claims for the download of [p0]. *)
Definition sidecar_claims (d : Disk) (p0 p1 : DownloadProgress) : Prop :=
  namespace_owned d = true ∧ ∃ raw bits digests,
    sidecar_file d = Some raw
    ∧ decode W raw (dp_total p0) (dp_chunk p0) (dp_max_parts p0) (dp_identity p0) = Some (bits, digests)
    ∧ p1 = set_table bits digests p0.

Lemma claims_shape d p0 p1 :
  grid_ok p0 → sidecar_claims d p0 p1 →
  p1 = set_table (dp_bits p1) (dp_digests p1) p0 ∧ grid_ok p1.
Proof.
  intros Hg (_ & raw & bits & digests & Hs & Hdec & ->). split; [done|].
  apply grid_set_table; [done|]. by eapply decode_shape; [done|apply Hg..|].
Qed.

(** Reading and decoding the sidecar: either it claims something, or the loader starts over. *)
Definition read_claims (d : Disk) (p0 : DownloadProgress)
    (verify : DownloadProgress → result DownloadProgress IoError) : result DownloadProgress IoError :=
  if negb (namespace_owned d) then Ok p0
  else
    let? expected_len := expected_v2_encoded_len W (dp_total p0) (dp_chunk p0) (dp_identity p0) in
    let? raw := read_sidecar_bounded W d expected_len in
    match raw with
    | None => Ok p0
    | Some raw =>
        match decode W raw (dp_total p0) (dp_chunk p0) (dp_max_parts p0) (dp_identity p0) with
        | Some (bits, digests) => verify (set_table bits digests p0)
        | None => Ok p0
        end
    end.

Lemma read_claims_cases d p0 verify :
  grid_ok p0 →
  (∃ p1, sidecar_claims d p0 p1 ∧ read_claims d p0 verify = verify p1)
  ∨ ((¬ ∃ p1, sidecar_claims d p0 p1) ∧ read_claims d p0 verify = Ok p0).
Proof.
  intros Hg. unfold read_claims. destruct (namespace_owned d) eqn:Hown; simpl.
  2:{ right. split; [|done]. intros (p1 & Ho & _). congruence. }
  destruct (expected_len_ok (dp_total p0) (dp_chunk p0) 0 (dp_identity p0) (dp_bits p0) (dp_digests p0)
    (g_total _ Hg) (g_chunk _ Hg) (g_id _ Hg) (g_table _ Hg)) as [He Hus].
  destruct (g_table _ Hg) as (n & Hn & Hb & Hd & Hf).
  unfold read_sidecar_bounded. destruct (sidecar_file d) as [raw|] eqn:Hsc.
  2:{ right. split; [|by rewrite He]. intros (p1 & _ & raw & ? & ? & ? & _). congruence. }
  destruct (decode W raw (dp_total p0) (dp_chunk p0) (dp_max_parts p0) (dp_identity p0))
    as [[bits digests]|] eqn:Hdec.
  - left. exists (set_table bits digests p0).
    assert (sidecar_claims d p0 (set_table bits digests p0)) as Hcl
      by (split; [done|]; by exists raw, bits, digests).
    split; [done|].
    destruct (decode_shape W raw _ _ _ _ _ _ HW (g_total _ Hg) (g_chunk _ Hg) Hdec) as [Htab Hlen].
    destruct (expected_len_ok (dp_total p0) (dp_chunk p0) 0 (dp_identity p0) bits digests
      (g_total _ Hg) (g_chunk _ Hg) (g_id _ Hg) Htab) as [-> Hus'].
    cbv beta iota. destruct Htab as (n' & _ & _ & _ & Hf').
    rewrite layout_length in Hus' |- * by done. rewrite Hlen, Z.eqb_refl. cbn [negb].
    rewrite (proj2 (checked_add_Some _ _ _ _)) by (split; [reflexivity|lia]).
    cbn [ok_or]. by rewrite Hdec.
  - right. split; [intros (p1 & _ & raw' & ? & ? & ? & ? & _); congruence|].
    rewrite He. cbv beta iota. destruct (_ =? _) eqn:El; cbn [negb]; [|done].
    rewrite (proj2 (checked_add_Some _ _ _ _)) by (split; [reflexivity|lia]). cbn [ok_or].
    by rewrite Hdec.
Qed.

(** What loading gives: exactly the claimed parts that the target file confirms. *)
Lemma read_claims_verified d tl p0 :
  grid_ok p0 → (∀ i, ¬ has p0 i) → tl ≤ target_len d →
  ∃ p, read_claims d p0 (verify_completed_parts_through sha256 d tl) = Ok p
    ∧ same_grid p0 p ∧ grid_ok p
    ∧ ∀ i, (i < dp_part_count p0)%nat →
        (has p i ↔ ∃ p1, sidecar_claims d p0 p1 ∧ trusted d tl p1 i)
        ∧ (has p i → verified d p i ∧ part_end p i ≤ tl).
Proof.
  intros Hg Hno Htl.
  destruct (read_claims_cases d p0 (verify_completed_parts_through sha256 d tl) Hg)
    as [(p1 & Hcl & ->)|[Hn ->]].
  - destruct (claims_shape _ _ _ Hg Hcl) as [Hp1 Hg1].
    assert (dp_part_count p1 = dp_part_count p0) as Hc by (by rewrite Hp1).
    destruct (verify_parts_ok d tl (seq 0 (dp_part_count p1)) p1 Hg1) as (p & Hv & Hs & Hgp & Hh); [|done|].
    { apply Forall_forall. intros i [_ Hi]%elem_of_seq. done. }
    exists p. split; [exact Hv|]. split; [eapply same_grid_trans; [exact Hp1|exact Hs]|]. split; [done|].
    intros i Hi. destruct (Hh i) as [H1 H2].
    rewrite decide_True in H1 by (apply elem_of_seq; lia). split.
    + rewrite H1. split; [by intros Ht; exists p1|]. intros (p1' & Hcl' & Ht).
      destruct Hcl as (_ & raw & b & dg & Hs1 & Hd1 & ->), Hcl' as (_ & raw' & b' & dg' & Hs2 & Hd2 & ->).
      by simplify_eq.
    + intros Hi'. destruct (same_grid_geometry p1 p i Hs) as (_ & _ & G1 & G2).
      pose proof (H2 Hi') as Hdg. apply H1 in Hi' as (_ & He & f & Hf & Hl & Hd).
      rewrite G1. split; [|done]. exists f. by rewrite G1, G2, Hdg.
  - exists p0. split; [done|]. split; [by destruct p0|]. split; [done|]. intros i _. split.
    + split; [by intros ?%Hno|]. intros (p1 & ? & _). destruct Hn. by exists p1.
    + by intros ?%Hno.
Qed.

Lemma load_eq now d total chunk mp identity p0 :
  fits U64_MAX total → fits U64_MAX chunk → 0 ≤ mp → fresh W now total chunk mp identity = Ok p0 →
  load_or_create W sha256 now d total chunk mp identity
  = (if negb (target_len d =? total) then Ok p0
     else read_claims d p0 (verify_completed_parts_through sha256 d total))
  ∧ load_or_create_serial W sha256 now d total chunk mp identity
  = (if total <? target_len d then Ok p0
     else read_claims d p0 (verify_completed_parts_through sha256 d (target_len d))).
Proof.
  intros Ht Hc Hm Hf. destruct (fresh_inv _ _ _ _ _ _ Ht Hc Hm Hf) as (_ & <- & <- & <- & <- & _).
  unfold load_or_create, load_or_create_serial. by rewrite Hf.
Qed.

(** Resuming never trusts a checkpoint beyond what the target file confirms: whatever the
    sidecar and the target contain, loading succeeds, and a part counts as done only if the file
    has its bytes and they have the recorded digest (for a parallel download the file must have
    the full size, for a serial one the part must lie in the file); a part the sidecar claims
    and the file confirms is kept. *)
Theorem resume_trusts_only_verified now d total chunk mp identity p0 :
  fits U64_MAX total → fits U64_MAX chunk → 0 ≤ mp → fresh W now total chunk mp identity = Ok p0 →
  (∃ p, load_or_create W sha256 now d total chunk mp identity = Ok p
    ∧ ∀ i, (i < dp_part_count p)%nat →
        (has p i → target_len d = total ∧ verified d p i)
        ∧ (∀ p1, target_len d = total → sidecar_claims d p0 p1 → has p1 i → verified d p1 i → has p i))
  ∧ (∃ p, load_or_create_serial W sha256 now d total chunk mp identity = Ok p
    ∧ ∀ i, (i < dp_part_count p)%nat → has p i → part_end p i ≤ target_len d ∧ verified d p i).
Proof.
  intros Ht Hc Hm Hf. destruct (load_eq now d _ _ _ _ _ Ht Hc Hm Hf) as [-> ->].
  destruct (fresh_inv _ _ _ _ _ _ Ht Hc Hm Hf) as (Hg & Htot & _ & _ & _ & _ & _ & Hno). split.
  - destruct (target_len d =? total) eqn:E; simpl; zbool.
    + destruct (read_claims_verified d total p0 Hg Hno ltac:(lia)) as (p & -> & Hs & Hgp & Hh).
      exists p. split; [done|]. destruct (same_grid_fields _ _ Hs) as (_ & _ & _ & _ & Hn).
      intros i Hi. rewrite Hn in Hi. destruct (Hh i Hi) as [H1 H2]. split.
      * intros Hhi. split; [done|]. by apply H2.
      * intros p1 _ Hcl Hh1 Hv1. apply H1. exists p1. split; [done|]. split_and!; [done| |done].
        destruct (claims_shape _ _ _ Hg Hcl) as [Hp1 Hg1].
        destruct (same_grid_fields _ _ Hp1) as (E1 & _ & _ & _ & E5).
        destruct (part_bounds p1 i Hg1) as (_ & ? & _); [lia|]. lia.
    + exists p0. split; [done|]. intros i _. split; [by intros ?%Hno|done].
  - destruct (total <? target_len d) eqn:E; simpl.
    + exists p0. split; [done|]. by intros i _ ?%Hno.
    + destruct (read_claims_verified d (target_len d) p0 Hg Hno ltac:(lia)) as (p & -> & Hs & Hgp & Hh).
      exists p. split; [done|]. destruct (same_grid_fields _ _ Hs) as (_ & _ & _ & _ & Hn).
      intros i Hi Hhi. rewrite Hn in Hi. destruct (Hh i Hi) as [_ H2]. by destruct (H2 Hhi).
Qed.

End Props.

(** ** A concrete resume *)

(** A stand-in for the hash: the sum of the bytes, repeated. *)
Definition demo_sha (bs : list Z) : list Z := replicate PART_DIGEST_LEN (foldr Z.add 0 bs mod 256).
Definition demo_remote : list Z := [1; 2; 3; 4; 5; 6; 7; 8; 9; 10; 11; 12; 13; 14; 15; 16; 17; 18; 19; 20].
Definition demo_fresh : DownloadProgress :=
  mkProgress 20 8 4 [105; 100] 3 [0] (zeroed_digests 3) None [] [0] 8 0 false.

(** The sidecar claims parts 0 and 2; the last byte of the file was lost. *)
Definition demo_digests : list (list Z) :=
  [demo_sha (take 8 demo_remote); zeroed_digest; demo_sha (drop 16 demo_remote)].
Definition demo_disk : Disk :=
  mkDisk (Some (take 19 demo_remote ++ [0]))
    (Some (sidecar_layout 20 8 4 [105; 100] [5] demo_digests)) true.

Lemma resume_trusts_only_verified_witness :
  ∃ p, load_or_create 64 demo_sha 0 demo_disk 20 8 4 [105; 100] = Ok p ∧ has p 0 ∧ ¬ has p 2.
Proof.
  assert (fresh 64 0 20 8 4 [105; 100] = Ok demo_fresh) as Hf by (vm_compute; reflexivity).
  destruct (resume_trusts_only_verified 64 demo_sha ltac:(lia) (λ _, length_replicate _ _) 0 demo_disk 20 8 4 [105; 100] demo_fresh
    ltac:(vm_compute; split; discriminate) ltac:(vm_compute; split; discriminate) ltac:(lia) Hf)
    as [(p & Hl & Hp) _].
  exists p. split; [exact Hl|].
  assert (load_or_create 64 demo_sha 0 demo_disk 20 8 4 [105; 100]
    = Ok (set_table [1] [demo_sha (take 8 demo_remote); zeroed_digest; zeroed_digest] demo_fresh))
    as Hl' by (vm_compute; reflexivity).
  rewrite Hl in Hl'. injection Hl' as ->. split; [|by vm_compute].
  destruct (Hp 0%nat) as [_ Hk]; [vm_compute; lia|].
  apply (Hk (set_table [5] demo_digests demo_fresh)).
  - reflexivity.
  - split; [reflexivity|]. eexists _, [5], demo_digests.
    split; [reflexivity|]. split; [vm_compute; reflexivity|reflexivity].
  - reflexivity.
  - exists (take 19 demo_remote ++ [0]). split; [reflexivity|]. split; [vm_compute; discriminate|].
    vm_compute. reflexivity.
Defined.
