(* ===== verification/CheckpointCrash.v ===== *)
(** * Download checkpoints across crashes

    A parallel download of a fixed remote representation [remote] (pinned by its strong
    validator) into a target file of the full size. Steps are those of
    [write_and_stage_download_part], [checkpoint_locked_download_target] and the checkpoint timer
    of [src/transfer_task.rs], at the granularity of the checkpoint barrier: writes reach the
    file at any time, a part is staged only after its bytes were written, and a checkpoint goes
    through begin, data sync and commit, each of which can fail. The process can crash at any
    step; each byte of the file is then either the last synced one or the last written one, and
    the sidecar is the last durable one or the last renamed one. *)
From S2P Require Import Prelude Errors Sidecar Checkpoint CheckpointProps.
#[local] Open Scope Z_scope.

Inductive CkPhase := CkIdle | CkBegun | CkSynced.

Record CkState := mkCk {
  ck_prog : DownloadProgress;
  (** the files as the process sees them *)
  ck_target : list Z;
  ck_sidecar : option (list Z);
  ck_owned : bool;
  (** what a crash cannot take back *)
  ck_dur_target : list Z;
  ck_dur_sidecar : option (list Z);
  ck_phase : CkPhase;
}.

Definition ck_disk (s : CkState) : Disk := mkDisk (Some (ck_target s)) (ck_sidecar s) (ck_owned s).
Definition ck_with_prog (p : DownloadProgress) (ph : CkPhase) (s : CkState) : CkState :=
  mkCk p (ck_target s) (ck_sidecar s) (ck_owned s) (ck_dur_target s) (ck_dur_sidecar s) ph.

(** Positioned write of [bs] at [a]. *)
Definition overwrite (f : list Z) (a : nat) (bs : list Z) : list Z :=
  take a f ++ bs ++ drop (a + length bs) f.

(** The sidecar a crash cannot take back after a commit: publishing it ends with the sync of its
    directory. That a publication which returned leaves nothing else to a crash, and one that did
    not return the old or the new sidecar, is proved of the file operations in [SidecarDurable]. *)
Definition durable_after (p : DownloadProgress) (r : result unit IoError) (sc dur : option (list Z))
    : option (list Z) :=
  match r, dp_pending p with
  | Ok _, _ :: _ => sc
  | _, _ => dur
  end.

(** What the target can hold after a crash. *)
Definition crash_target (s : CkState) (c : list Z) : Prop :=
  length c = length (ck_dur_target s)
  ∧ ∀ j, c !! j = ck_dur_target s !! j ∨ c !! j = ck_target s !! j.

Section Crash.
Context (W : Z) (sha256 : list Z → list Z) (remote : list Z) (chunk : Z) (identity : list Z).
#[local] Abbreviation total := (Z.of_nat (length remote)).
#[local] Abbreviation stage := (stage_done_with_digest_deferred W).

Inductive ck_step : CkState → CkState → Prop :=
| ck_write a n s :
    (a + n ≤ length remote)%nat →
    ck_step s (mkCk (ck_prog s) (overwrite (ck_target s) a (take n (drop a remote))) (ck_sidecar s)
      (ck_owned s) (ck_dur_target s) (ck_dur_sidecar s) (ck_phase s))
| ck_stage now i s :
    ck_phase s = CkIdle → (i < dp_part_count (ck_prog s))%nat →
    part_bytes (ck_prog s) i (ck_target s) = part_bytes (ck_prog s) i remote →
    ck_step s (ck_with_prog (fst (stage now (part_offset (ck_prog s) i)
      (sha256 (part_bytes (ck_prog s) i remote)) (ck_prog s))) CkIdle s)
| ck_begin p due s :
    ck_phase s = CkIdle → begin_external_checkpoint (ck_prog s) = (p, due) →
    ck_step s (ck_with_prog p (if due then CkBegun else CkIdle) s)
| ck_begin_timer p due s :
    ck_phase s = CkIdle → begin_timer_checkpoint (ck_prog s) = (p, due) →
    ck_step s (ck_with_prog p (if due then CkBegun else CkIdle) s)
| ck_sync s :
    ck_phase s = CkBegun →
    ck_step s (mkCk (ck_prog s) (ck_target s) (ck_sidecar s) (ck_owned s) (ck_target s)
      (ck_dur_sidecar s) CkSynced)
| ck_sync_failed s : ck_phase s = CkBegun → ck_step s (ck_with_prog (ck_prog s) CkIdle s)
| ck_commit now fault p d r s :
    ck_phase s = CkSynced →
    commit_checkpoint_after_data_sync W now fault (ck_prog s) (ck_disk s) = (p, d, r) →
    ck_step s (mkCk p (ck_target s) (sidecar_file d) (namespace_owned d) (ck_dur_target s)
      (durable_after (ck_prog s) r (sidecar_file d) (ck_dur_sidecar s)) CkIdle)
| ck_latch v s :
    ck_step s (ck_with_prog (set_expected_validator v (ck_prog s)) (ck_phase s) s)
| ck_crash now mp c sc p s :
    fits U32_MAX mp → crash_target s c → sc = ck_sidecar s ∨ sc = ck_dur_sidecar s →
    load_or_create W sha256 now (mkDisk (Some c) sc (ck_owned s)) total chunk mp identity = Ok p →
    ck_step s (mkCk p c sc (ck_owned s) c sc CkIdle).

(** No sidecar, or one that does not belong to this download. *)
Definition blank (sc : option (list Z)) : Prop :=
  ∀ raw mp, sc = Some raw → decode W raw total chunk mp identity = None.

(** The first start: the checkpoint is loaded, then the target is given the full size and synced
    (the parallel branch of [download_prepare_finish]). *)
Definition ck_init (s : CkState) : Prop :=
  ∃ now mp d p, blank (sidecar_file d) ∧ fits U32_MAX mp
    ∧ load_or_create W sha256 now d total chunk mp identity = Ok p
    ∧ let f := resize (default [] (target_file d)) (length remote) in
      s = mkCk p f (sidecar_file d) (namespace_owned d) f (sidecar_file d) CkIdle.

Hypothesis HW : 32 ≤ W.
Hypothesis sha256_len : ∀ bs, length (sha256 bs) = PART_DIGEST_LEN.
Hypothesis total_fits : fits U64_MAX total.
Hypothesis chunk_fits : fits U64_MAX chunk.

(** ** Parts of a file *)

(** The part [i] of [f] is that of the remote. *)
Definition part_in (p : DownloadProgress) (f : list Z) (i : nat) : Prop :=
  part_bytes p i f = part_bytes p i remote.

Lemma part_in_lookup p f i :
  grid_ok W p → (i < dp_part_count p)%nat →
  part_in p f i ↔ ∀ j, (part_offset p i ≤ Z.of_nat j < part_end p i) → f !! j = remote !! j.
Proof.
  intros Hg Hi. pose proof (part_bounds W HW p i Hg Hi) as Hb. unfold part_in, part_bytes. split.
  - intros H j Hj. apply (f_equal (λ l, l !! (j - Z.to_nat (part_offset p i))%nat)) in H.
    rewrite !file_range_lookup in H by (unfold part_len; lia).
    rewrite !decide_True in H by (unfold part_len; lia).
    by replace (Z.to_nat (part_offset p i) + (j - Z.to_nat (part_offset p i)))%nat with j in H by lia.
  - intros H. apply list_eq. intros j. rewrite !file_range_lookup by (unfold part_len; lia).
    case_decide as Hj; [|done]. apply H. unfold part_len in Hj. lia.
Qed.

Lemma overwrite_lookup f a bs j :
  (a + length bs ≤ length f)%nat →
  overwrite f a bs !! j = if decide (a ≤ j < a + length bs)%nat then bs !! (j - a)%nat else f !! j.
Proof.
  intros Hl. unfold overwrite. case_decide as Hj.
  - rewrite lookup_app_r by (rewrite length_take; lia). rewrite length_take.
    rewrite lookup_app_l by lia. f_equal. lia.
  - destruct (decide (j < a)%nat).
    + rewrite lookup_app_l by (rewrite length_take; lia). by rewrite lookup_take_lt.
    + rewrite lookup_app_r by (rewrite length_take; lia). rewrite length_take.
      rewrite lookup_app_r by lia. rewrite lookup_drop. f_equal. lia.
Qed.

Lemma length_overwrite f a bs : (a + length bs ≤ length f)%nat → length (overwrite f a bs) = length f.
Proof. intros H. unfold overwrite. rewrite !length_app, length_take, length_drop. lia. Qed.

(** Writing bytes of the remote keeps the parts that are already right. *)
Lemma write_part_in p f a n i :
  grid_ok W p → (i < dp_part_count p)%nat → length f = length remote → (a + n ≤ length remote)%nat →
  part_in p f i → part_in p (overwrite f a (take n (drop a remote))) i.
Proof.
  intros Hg Hi Hf Han. rewrite !part_in_lookup by done. intros H j Hj.
  assert (length (take n (drop a remote)) = n) as Hn by (rewrite length_take, length_drop; lia).
  rewrite overwrite_lookup by lia. rewrite Hn. case_decide as Hd; [|by apply H].
  rewrite lookup_take_lt, lookup_drop by lia. f_equal. lia.
Qed.

(** A crash keeps the parts that are right both on disk and in memory. *)
Lemma crash_part_in s c p i :
  grid_ok W p → (i < dp_part_count p)%nat → crash_target s c →
  part_in p (ck_dur_target s) i → part_in p (ck_target s) i → part_in p c i.
Proof.
  intros Hg Hi [_ Hc]. rewrite !part_in_lookup by done. intros H1 H2 j Hj.
  destruct (Hc j) as [->| ->]; auto.
Qed.

(** ** Invariant *)

(** A table whose done parts are right on disk, in memory and in their digest. *)
Definition good_table (s : CkState) (bits : list Z) (digests : list (list Z)) : Prop :=
  ∀ i, (i < dp_part_count (ck_prog s))%nat → bit_is_set bits i = true →
    digests !! i = Some (sha256 (part_bytes (ck_prog s) i remote))
    ∧ part_in (ck_prog s) (ck_dur_target s) i ∧ part_in (ck_prog s) (ck_target s) i.

(** Nothing is committed. *)
Definition uncommitted (s : CkState) : Prop :=
  ∀ i, (i < dp_part_count (ck_prog s))%nat → ¬ has (ck_prog s) i.

(** A sidecar that holds at least the committed parts, all of them right. *)
Definition sidecar_ok (s : CkState) (sc : option (list Z)) : Prop :=
  (blank sc ∧ uncommitted s)
  ∨ ck_owned s = true ∧ ∃ mp bits digests,
      fits U32_MAX mp ∧ table_ok W total chunk bits digests
      ∧ sc = Some (sidecar_layout total chunk mp identity bits digests)
      ∧ good_table s bits digests
      ∧ ∀ i, (i < dp_part_count (ck_prog s))%nat → has (ck_prog s) i → bit_is_set bits i = true.

Definition pending_ok (s : CkState) (q : PendingPart) : Prop :=
  (pend_index q < dp_part_count (ck_prog s))%nat
  ∧ pend_digest q = sha256 (part_bytes (ck_prog s) (pend_index q) remote)
  ∧ part_in (ck_prog s) (ck_target s) (pend_index q)
  ∧ (ck_phase s = CkSynced → part_in (ck_prog s) (ck_dur_target s) (pend_index q)).

Record ck_inv (s : CkState) : Prop := {
  ci_grid : grid_ok W (ck_prog s);
  ci_total : dp_total (ck_prog s) = total;
  ci_chunk : dp_chunk (ck_prog s) = chunk;
  ci_id : dp_identity (ck_prog s) = identity;
  ci_target : length (ck_target s) = length remote;
  ci_dur : length (ck_dur_target s) = length remote;
  ci_pbits : length (dp_pending_bits (ck_prog s)) = length (dp_bits (ck_prog s));
  ci_pending : Forall (pending_ok s) (dp_pending (ck_prog s));
  ci_staged : ∀ i, bit_is_set (dp_pending_bits (ck_prog s)) i = true ↔
    i ∈ map pend_index (dp_pending (ck_prog s));
  ci_mem : good_table s (dp_bits (ck_prog s)) (dp_digests (ck_prog s));
  ci_sidecar : sidecar_ok s (ck_sidecar s);
  ci_dur_sidecar : sidecar_ok s (ck_dur_sidecar s);
}.

(** Two progress records of the same download have the same grid. *)
Lemma same_download p p' :
  grid_ok W p → grid_ok W p' → dp_total p' = dp_total p → dp_chunk p' = dp_chunk p →
  dp_part_count p' = dp_part_count p ∧ (∀ i f, part_bytes p' i f = part_bytes p i f)
  ∧ (∀ i, part_end p' i = part_end p i) ∧ (∀ i, part_offset p' i = part_offset p i).
Proof.
  intros Hg Hg' Ht Hc. pose proof (g_count _ _ Hg) as H1. pose proof (g_count _ _ Hg') as H2.
  rewrite Ht, Hc, H1 in H2. injection H2 as H2. apply Nat2Z.inj in H2.
  unfold part_bytes, part_len, part_end, part_offset. rewrite Ht, Hc. by split_and!.
Qed.

Lemma fresh_Ok now mp p :
  grid_ok W p → dp_total p = total → dp_chunk p = chunk → dp_identity p = identity →
  fits U32_MAX mp → ∃ p0, fresh W now total chunk mp identity = Ok p0.
Proof.
  intros Hg Ht Hc Hid [? Hmp]. unfold fresh. pose proof (g_id _ _ Hg) as Hi. rewrite Hid in Hi. unfold id_ok in Hi.
  destruct (U32_MAX <? mp) eqn:E1; zbool; [lia|]. destruct (U16_MAX <? _) eqn:E2; zbool; [lia|].
  pose proof (g_count _ _ Hg) as Hn. rewrite Ht, Hc in Hn. rewrite Hn. by eexists.
Qed.

(** ** Recovery *)

(** What a restart finds: only right parts, all of them in the sidecar. *)
Record recovered (c : list Z) (sc : option (list Z)) (p : DownloadProgress) : Prop := {
  rc_grid : grid_ok W p;
  rc_total : dp_total p = total;
  rc_chunk : dp_chunk p = chunk;
  rc_id : dp_identity p = identity;
  rc_pending : dp_pending p = [];
  rc_pbits : dp_pending_bits p = zeroed_bytes (length (dp_bits p));
  rc_right : ∀ i, (i < dp_part_count p)%nat → has p i →
    dp_digests p !! i = Some (sha256 (part_bytes p i remote)) ∧ part_in p c i;
  rc_sidecar : ∀ i, (i < dp_part_count p)%nat → has p i → ∃ raw bits digests,
    sc = Some raw ∧ decode W raw total chunk (dp_max_parts p) identity = Some (bits, digests)
    ∧ bit_is_set bits i = true;
}.

Lemma sidecar_claims_of s sc c owned p0 :
  ck_inv s → grid_ok W p0 → dp_total p0 = total → dp_chunk p0 = chunk → dp_identity p0 = identity →
  owned = ck_owned s → sidecar_ok s sc →
  ∀ i, (i < dp_part_count p0)%nat →
  (has (ck_prog s) i → ∃ p1, sidecar_claims W (mkDisk (Some c) sc owned) p0 p1 ∧ has p1 i)
  ∧ (∀ p1, sidecar_claims W (mkDisk (Some c) sc owned) p0 p1 → has p1 i →
       dp_digests p1 !! i = Some (sha256 (part_bytes p0 i remote))
       ∧ part_in p0 (ck_dur_target s) i ∧ part_in p0 (ck_target s) i).
Proof.
  intros Hs Hg0 Ht Hc Hid -> Hok i Hi.
  destruct (same_download (ck_prog s) p0 (ci_grid _ Hs) Hg0) as (Hn & Hpb & _).
  { by rewrite (ci_total _ Hs). } { by rewrite (ci_chunk _ Hs). }
  rewrite Hn in Hi. destruct Hok as [[Hbl Hno]|Hok].
  { split; [intros Hh; by destruct (Hno i Hi)|]. intros p1 (_ & raw & b & dg & Hraw & Hdec & _).
    rewrite Ht, Hc, Hid in Hdec. by rewrite (Hbl raw _ Hraw) in Hdec. }
  destruct Hok as (Hown & mp & bits & digests & Hmp & Htab & -> & Hgood & Hsub).
  pose proof (g_id _ _ Hg0) as Hido. rewrite Hid in Hido.
  assert (decode W (sidecar_layout total chunk mp identity bits digests) (dp_total p0) (dp_chunk p0)
    (dp_max_parts p0) (dp_identity p0) = Some (bits, digests)) as Hdec.
  { rewrite Ht, Hc, Hid. by apply decode_layout. }
  split.
  - intros Hh. exists (set_table bits digests p0). split; [|by apply Hsub].
    split; [done|]. by exists (sidecar_layout total chunk mp identity bits digests), bits, digests.
  - intros p1 (_ & raw & b & dg & [= <-] & Hd & ->). rewrite Hdec in Hd. injection Hd as <- <-.
    intros Hh. destruct (Hgood i Hi Hh) as (H1 & H2 & H3). unfold part_in in *. by rewrite !Hpb.
Qed.

Lemma load_recovers s c sc now mp :
  ck_inv s → crash_target s c → sc = ck_sidecar s ∨ sc = ck_dur_sidecar s → fits U32_MAX mp →
  ∃ p, load_or_create W sha256 now (mkDisk (Some c) sc (ck_owned s)) total chunk mp identity = Ok p
    ∧ recovered c sc p ∧ ∀ i, (i < dp_part_count p)%nat → has (ck_prog s) i → has p i.
Proof.
  intros Hs Hcr Hsc Hmp.
  assert (sidecar_ok s sc) as Hok by (destruct Hsc as [->| ->]; apply Hs).
  destruct (fresh_Ok now mp (ck_prog s) (ci_grid _ Hs) (ci_total _ Hs) (ci_chunk _ Hs) (ci_id _ Hs) Hmp)
    as [p0 Hf].
  destruct (fresh_inv W HW now total chunk mp identity p0 total_fits chunk_fits (proj1 Hmp) Hf)
    as (Hg0 & Ht & Hc & _ & Hid & Hpe & Hpb & Hno).
  set (d := mkDisk (Some c) sc (ck_owned s)).
  pose proof (sidecar_claims_of s sc c (ck_owned s) p0 Hs Hg0 Ht Hc Hid eq_refl Hok) as Hcl. fold d in Hcl.
  assert (target_len d = total) as Hlen.
  { change (Z.of_nat (length c) = total). destruct Hcr as [Hl _]. by rewrite Hl, (ci_dur _ Hs). }
  destruct (load_eq W sha256 HW now d total chunk mp identity p0) as [-> _]; try done; [apply Hmp|].
  rewrite Hlen, Z.eqb_refl. simpl negb. cbv iota.
  destruct (read_claims_verified W sha256 HW sha256_len d total p0 Hg0 Hno) as (p & -> & Hsg & Hg & Hh).
  { by rewrite Hlen. }
  destruct (same_grid_fields _ _ Hsg) as (E1 & E2 & E3 & E4 & E5).
  destruct (same_download p0 p Hg0 Hg E1 E2) as (_ & Hpb' & _).
  exists p. split; [done|]. split; [split; try done|].
  - by rewrite E1.
  - by rewrite E2.
  - by rewrite E4.
  - unfold same_grid in Hsg. by rewrite Hsg.
  - assert (dp_pending_bits p = dp_pending_bits p0) as -> by (unfold same_grid in Hsg; by rewrite Hsg).
    rewrite Hpb. f_equal.
    destruct (table_lengths _ _ Hg) as [Hl1 _], (table_lengths _ _ Hg0) as [Hl2 _]. rewrite E5 in Hl1. lia.
  - intros i Hi Hhp. rewrite E5 in Hi. destruct (Hh i Hi) as [H1 H2]. destruct (Hcl i Hi) as [_ H3].
    apply H1 in Hhp as Hx. destruct Hx as (p1 & Hc1 & Ht1 & _). destruct (H3 p1 Hc1 Ht1) as (D1 & D2 & D3).
    pose proof (crash_part_in s c p0 i Hg0 Hi Hcr D2 D3) as Hin.
    destruct (H2 Hhp) as [(f & [= <-] & _ & Hd) _]. unfold part_in in *.
    rewrite !Hpb' in *. by rewrite Hd, Hin.
  - intros i Hi Hhp. rewrite E5 in Hi. destruct (Hh i Hi) as [H1 _].
    apply H1 in Hhp as (p1 & (_ & raw & bits & digests & Hraw & Hdec & ->) & Hb & _).
    exists raw, bits, digests. rewrite E3. rewrite Ht, Hc, Hid in Hdec. done.
  - intros i Hi Hhs. rewrite E5 in Hi. destruct (Hcl i Hi) as [H1 H2]. destruct (H1 Hhs) as (p1 & Hc1 & Hh1).
    apply (Hh i Hi). exists p1. split; [done|].
    destruct (claims_shape W HW _ _ _ Hg0 Hc1) as [Hp1 Hg1].
    destruct (same_grid_geometry p0 p1 i Hp1) as (_ & _ & G1 & G2).
    destruct (H2 p1 Hc1 Hh1) as (D1 & D2 & D3).
    pose proof (crash_part_in s c p0 i Hg0 Hi Hcr D2 D3) as Hin.
    destruct (part_bounds W HW p0 i Hg0 Hi) as (_ & Hend & _). rewrite Ht in Hend.
    split_and!; [done|by rewrite G1|]. exists c. rewrite G1, G2. split_and!; [done| |].
    + destruct Hcr as [Hl _]. by rewrite Hl, (ci_dur _ Hs).
    + by rewrite D1, Hin.
Qed.

(** ** Preservation *)

(** What a step may do to the files. *)
Record evolves (s s' : CkState) : Prop := {
  ev_grid : grid_ok W (ck_prog s');
  ev_total : dp_total (ck_prog s') = dp_total (ck_prog s);
  ev_chunk : dp_chunk (ck_prog s') = dp_chunk (ck_prog s);
  ev_id : dp_identity (ck_prog s') = dp_identity (ck_prog s);
  ev_owned : ck_owned s = true → ck_owned s' = true;
  ev_files : ∀ i, (i < dp_part_count (ck_prog s))%nat →
    part_in (ck_prog s) (ck_dur_target s) i → part_in (ck_prog s) (ck_target s) i →
    part_in (ck_prog s) (ck_dur_target s') i ∧ part_in (ck_prog s) (ck_target s') i;
}.

Lemma good_table_mono s s' bits digests :
  ck_inv s → evolves s s' → good_table s bits digests → good_table s' bits digests.
Proof.
  intros Hs [Hg Ht Hc _ _ Hf] Hgood i Hi Hb.
  destruct (same_download (ck_prog s) (ck_prog s') (ci_grid _ Hs) Hg Ht Hc) as (Hn & Hpb & _).
  rewrite Hn in Hi. destruct (Hgood i Hi Hb) as (H1 & H2 & H3).
  destruct (Hf i Hi H2 H3) as [H4 H5]. unfold part_in in *. by rewrite !Hpb.
Qed.

Lemma sidecar_ok_mono s s' sc :
  ck_inv s → evolves s s' → (∀ i, has (ck_prog s') i → has (ck_prog s) i) →
  sidecar_ok s sc → sidecar_ok s' sc.
Proof.
  intros Hs Hev Hsub. pose proof (good_table_mono s s') as Hgm.
  destruct (same_download (ck_prog s) (ck_prog s') (ci_grid _ Hs) (ev_grid _ _ Hev) (ev_total _ _ Hev)
    (ev_chunk _ _ Hev)) as (Hn & _).
  intros [[Hbl Hno]|(Hown & mp & bits & digests & H1 & H2 & H3 & H4 & H5)].
  { left. split; [done|]. intros i. rewrite Hn. intros Hi Hh. by apply (Hno i Hi), Hsub. }
  right. split; [by apply Hev|]. rewrite Hn.
  exists mp, bits, digests. split_and!; auto.
Qed.

(** Steps that keep the committed parts: the files may gain parts, the pending epoch changes. *)
Lemma evolves_inv s s' :
  ck_inv s → evolves s s' →
  dp_bits (ck_prog s') = dp_bits (ck_prog s) → dp_digests (ck_prog s') = dp_digests (ck_prog s) →
  length (ck_target s') = length remote → length (ck_dur_target s') = length remote →
  length (dp_pending_bits (ck_prog s')) = length (dp_bits (ck_prog s)) →
  Forall (pending_ok s') (dp_pending (ck_prog s')) →
  (∀ i, bit_is_set (dp_pending_bits (ck_prog s')) i = true ↔ i ∈ map pend_index (dp_pending (ck_prog s'))) →
  sidecar_ok s' (ck_sidecar s') → sidecar_ok s' (ck_dur_sidecar s') → ck_inv s'.
Proof.
  intros Hs Hev Hb Hd Hlt Hld Hpl Hpe Hpb Hs1 Hs2. split; try done.
  - apply Hev.
  - rewrite (ev_total _ _ Hev). apply Hs.
  - rewrite (ev_chunk _ _ Hev). apply Hs.
  - rewrite (ev_id _ _ Hev). apply Hs.
  - by rewrite Hb.
  - rewrite Hb, Hd. by apply (good_table_mono s s'); [..|apply Hs].
Qed.

Lemma ck_write_inv s a n :
  ck_inv s → (a + n ≤ length remote)%nat →
  ck_inv (mkCk (ck_prog s) (overwrite (ck_target s) a (take n (drop a remote))) (ck_sidecar s)
    (ck_owned s) (ck_dur_target s) (ck_dur_sidecar s) (ck_phase s)).
Proof.
  intros Hs Han. set (s' := mkCk _ _ _ _ _ _ _).
  assert (∀ i, (i < dp_part_count (ck_prog s))%nat → part_in (ck_prog s) (ck_target s) i →
    part_in (ck_prog s) (ck_target s') i) as Hw.
  { intros i Hi. apply write_part_in; try done; apply Hs. }
  assert (evolves s s') as Hev by (split; try done; [apply Hs|auto]).
  apply (evolves_inv s s'); try done; try apply Hs.
  - simpl. rewrite length_overwrite; [apply Hs|]. rewrite length_take, length_drop, (ci_target _ Hs). lia.
  - eapply Forall_impl; [apply (ci_pending _ Hs)|]. intros q (H1 & H2 & H3 & H4). by split_and!; auto.
  - by apply (sidecar_ok_mono s s'); [..|apply Hs].
  - by apply (sidecar_ok_mono s s'); [..|apply Hs].
Qed.

(** Steps of the checkpoint state alone. *)
Lemma ck_prog_inv s p ph :
  ck_inv s → grid_ok W p → dp_total p = dp_total (ck_prog s) → dp_chunk p = dp_chunk (ck_prog s) →
  dp_identity p = dp_identity (ck_prog s) → dp_bits p = dp_bits (ck_prog s) →
  dp_digests p = dp_digests (ck_prog s) → length (dp_pending_bits p) = length (dp_bits (ck_prog s)) →
  Forall (pending_ok (ck_with_prog p ph s)) (dp_pending p) →
  (∀ i, bit_is_set (dp_pending_bits p) i = true ↔ i ∈ map pend_index (dp_pending p)) →
  ck_inv (ck_with_prog p ph s).
Proof.
  intros Hs Hg Ht Hc Hid Hb Hd Hpl Hpe Hpb.
  assert (evolves s (ck_with_prog p ph s)) as Hev by (by split).
  apply (evolves_inv s); try done; try apply Hs; simpl; unfold has; simpl; try rewrite Hb; try done.
  - apply (sidecar_ok_mono s); [done..| |apply Hs]. unfold has. simpl. by rewrite Hb.
  - apply (sidecar_ok_mono s); [done..| |apply Hs]. unfold has. simpl. by rewrite Hb.
Qed.

Lemma pending_ok_timer s armed ph :
  ph ≠ CkSynced → ck_inv s →
  Forall (pending_ok (ck_with_prog (set_timer armed (ck_prog s)) ph s)) (dp_pending (ck_prog s)).
Proof.
  intros Hph Hs. eapply Forall_impl; [apply (ci_pending _ Hs)|]. intros q (H1 & H2 & H3 & _).
  by split_and!.
Qed.

Lemma ck_timer_inv s armed ph :
  ck_inv s → ph ≠ CkSynced → ck_inv (ck_with_prog (set_timer armed (ck_prog s)) ph s).
Proof.
  intros Hs Hph. apply ck_prog_inv; try done; try apply Hs; [|by apply pending_ok_timer].
  destruct (ci_grid _ Hs). by split.
Qed.

(** The bitmap has room for every part. *)
Lemma pending_bit_room p i :
  grid_ok W p → length (dp_pending_bits p) = length (dp_bits p) → (i < dp_part_count p)%nat →
  is_Some (bit_set (dp_pending_bits p) i) ∧ is_Some (bit_set (dp_bits p) i).
Proof.
  intros Hg Hl Hi. destruct (table_lengths _ _ Hg) as [Hb _].
  split; apply bit_set_is_Some, (byte_of_lt i (dp_part_count p)); by rewrite ?Hl.
Qed.

(** Staging a part: it is done, pending, or newly pending. *)
Lemma stage_cases now i dg p :
  grid_ok W p → length (dp_pending_bits p) = length (dp_bits p) → (i < dp_part_count p)%nat →
  let p' := fst (stage now (part_offset p i) dg p) in
  (p' = p ∧ (has p i ∨ bit_is_set (dp_pending_bits p) i = true))
  ∨ ∃ pbits armed, bit_set (dp_pending_bits p) i = Some pbits
      ∧ p' = set_timer armed (set_pending (dp_pending p ++ [mkPending i dg]) pbits p).
Proof.
  intros Hg Hl Hi. simpl. unfold stage_done_with_digest_deferred, is_done.
  rewrite (index_of_part W HW p i Hg Hi).
  destruct (bit_is_set (dp_bits p) i) eqn:E1; [by left; split; [|left]|].
  destruct (bit_is_set (dp_pending_bits p) i) eqn:E2; [by left; split; [|right]|].
  destruct (pending_bit_room p i Hg Hl Hi) as [[pbits Hpb] _]. rewrite Hpb. right.
  exists pbits. repeat case_match; simpl.
  - by exists (dp_checkpoint_timer_armed p).
  - by exists true.
  - by exists (dp_checkpoint_timer_armed p).
Qed.

Lemma ck_stage_inv now i s :
  ck_inv s → ck_phase s = CkIdle → (i < dp_part_count (ck_prog s))%nat → part_in (ck_prog s) (ck_target s) i →
  ck_inv (ck_with_prog (fst (stage now (part_offset (ck_prog s) i)
    (sha256 (part_bytes (ck_prog s) i remote)) (ck_prog s))) CkIdle s).
Proof.
  intros Hs Hph Hi Hin.
  destruct (stage_cases now i (sha256 (part_bytes (ck_prog s) i remote)) (ck_prog s)
    (ci_grid _ Hs) (ci_pbits _ Hs) Hi) as [[-> _]|(pbits & armed & Hpb & ->)].
  { unfold ck_with_prog. rewrite <- Hph. by destruct s. }
  destruct (bit_set_spec _ _ _ Hpb) as [Hl Hbits].
  apply ck_prog_inv; try done; simpl.
  - destruct (ci_grid _ Hs). by split.
  - rewrite Hl. apply Hs.
  - apply Forall_app. split; [|by constructor; [split_and!|]].
    eapply Forall_impl; [apply (ci_pending _ Hs)|]. intros q (H1 & H2 & H3 & _). by split_and!.
  - intros j. rewrite map_app, elem_of_app, Hbits, orb_true_iff, (ci_staged _ Hs). simpl.
    rewrite list_elem_of_singleton, bool_decide_eq_true. tauto.
Qed.

Lemma ck_begin_inv s p due :
  ck_inv s →
  begin_external_checkpoint (ck_prog s) = (p, due) ∨ begin_timer_checkpoint (ck_prog s) = (p, due) →
  ck_inv (ck_with_prog p (if due then CkBegun else CkIdle) s).
Proof.
  intros Hs Hb. assert (∃ armed, p = set_timer armed (ck_prog s)) as [armed ->].
  { unfold begin_timer_checkpoint, begin_external_checkpoint in Hb.
    destruct Hb as [Hb|Hb]; [|case_match]; simplify_eq; [by exists false| |by exists false].
    exists (dp_checkpoint_timer_armed (ck_prog s)). by destruct (ck_prog s). }
  apply ck_timer_inv; [done|]. by destruct due.
Qed.

Lemma ck_sync_inv s :
  ck_inv s →
  ck_inv (mkCk (ck_prog s) (ck_target s) (ck_sidecar s) (ck_owned s) (ck_target s) (ck_dur_sidecar s) CkSynced).
Proof.
  intros Hs. set (s' := mkCk _ _ _ _ _ _ _).
  assert (evolves s s') as Hev by (split; try done; apply Hs).
  apply (evolves_inv s s'); try done; try apply Hs.
  - eapply Forall_impl; [apply (ci_pending _ Hs)|]. intros q (H1 & H2 & H3 & _). by split_and!.
  - by apply (sidecar_ok_mono s s'); [..|apply Hs].
  - by apply (sidecar_ok_mono s s'); [..|apply Hs].
Qed.

(** ** Committing *)

(** The tables of a commit: the pending parts are added. *)
Lemma apply_pending_ok n F ps bits digests :
  Z.of_nat (length bits) = div_ceil (Z.of_nat n) 8 → length digests = n →
  Forall (λ d : list Z, length d = PART_DIGEST_LEN) digests → (∀ i, length (F i) = PART_DIGEST_LEN) →
  Forall (λ q, (pend_index q < n)%nat ∧ pend_digest q = F (pend_index q)) ps →
  ∃ bits' digests', apply_pending ps bits digests = Ok (bits', digests')
    ∧ length bits' = length bits ∧ length digests' = n
    ∧ Forall (λ d : list Z, length d = PART_DIGEST_LEN) digests'
    ∧ ∀ j, (bit_is_set bits' j = true ↔ bit_is_set bits j = true ∨ j ∈ map pend_index ps)
         ∧ (j ∈ map pend_index ps → digests' !! j = Some (F j))
         ∧ (j ∉ map pend_index ps → digests' !! j = digests !! j).
Proof.
  intros Hb Hd Hf HF. revert bits digests Hb Hd Hf.
  induction ps as [|q ps IH]; intros bits digests Hb Hd Hf Hps.
  { exists bits, digests. split_and!; try done. intros j. simpl. split_and!; [|set_solver|done]. set_solver. }
  apply Forall_cons in Hps as [[Hq Hqd] Hps]. simpl.
  destruct (bit_set_is_Some bits (pend_index q)) as [b1 Hb1]; [by apply (byte_of_lt _ n)|].
  rewrite Hb1. simpl. destruct (bit_set_spec _ _ _ Hb1) as [Hl1 Hs1].
  assert (is_Some (digests !! pend_index q)) as [dq Hdq] by (apply lookup_lt_is_Some; lia). rewrite Hdq.
  destruct (IH b1 (<[pend_index q := pend_digest q]> digests)) as (b2 & d2 & -> & Hl2 & Hl3 & Hf2 & Hj).
  - by rewrite Hl1.
  - by rewrite length_insert.
  - apply Forall_insert; [done|]. by rewrite Hqd.
  - done.
  - exists b2, d2. split_and!; [done|by rewrite Hl2|done|done|]. intros j.
    destruct (Hj j) as (H1 & H2 & H3). rewrite H1, Hs1, orb_true_iff, bool_decide_eq_true, elem_of_cons.
    split_and!; [tauto| |].
    + intros Hin. destruct (decide (j ∈ map pend_index ps)) as [Hp|Hp]; [auto|].
      destruct Hin as [->|]; [|done]. rewrite H3, list_lookup_insert_eq by (done || lia). by rewrite Hqd.
    + intros Hn. rewrite H3 by tauto. apply list_lookup_insert_ne. intros He. by apply Hn; left.
Qed.

Lemma commit_tables s :
  ck_inv s → ck_phase s = CkSynced →
  ∃ bits digests,
    apply_pending (dp_pending (ck_prog s)) (dp_bits (ck_prog s)) (dp_digests (ck_prog s)) = Ok (bits, digests)
    ∧ length bits = length (dp_bits (ck_prog s))
    ∧ table_ok W (dp_total (ck_prog s)) (dp_chunk (ck_prog s)) bits digests
    ∧ good_table s bits digests
    ∧ ∀ j, bit_is_set bits j = true ↔ has (ck_prog s) j ∨ j ∈ map pend_index (dp_pending (ck_prog s)).
Proof.
  intros Hs Hph. destruct (table_lengths _ _ (ci_grid _ Hs)) as (Hb & Hd & Hf).
  destruct (apply_pending_ok (dp_part_count (ck_prog s)) (λ i, sha256 (part_bytes (ck_prog s) i remote))
    (dp_pending (ck_prog s)) (dp_bits (ck_prog s)) (dp_digests (ck_prog s)) Hb Hd Hf)
    as (bits & digests & Ha & Hlb & Hld & Hf' & Hj); [done| |].
  { eapply Forall_impl; [apply (ci_pending _ Hs)|]. by intros q (H1 & H2 & _). }
  exists bits, digests. split_and!; [done|done| | |intros j; apply Hj].
  - exists (Z.of_nat (dp_part_count (ck_prog s))). rewrite Hlb, Hld.
    split_and!; [apply (ci_grid _ Hs)|done..].
  - intros i Hi Hbi. destruct (Hj i) as (H1 & H2 & H3). apply H1 in Hbi.
    destruct (decide (i ∈ map pend_index (dp_pending (ck_prog s)))) as [Hp|Hp].
    + split; [by apply H2|]. apply list_elem_of_fmap in Hp as (q & -> & Hq).
      destruct (proj1 (Forall_forall _ _) (ci_pending _ Hs) q Hq) as (_ & _ & H4 & H5). auto.
    + destruct Hbi as [Hbi|]; [|done]. rewrite (H3 Hp). by apply (ci_mem _ Hs).
Qed.

Definition commit_state (s : CkState) (p : DownloadProgress) (d : Disk) (r : result unit IoError) : CkState :=
  mkCk p (ck_target s) (sidecar_file d) (namespace_owned d) (ck_dur_target s)
    (durable_after (ck_prog s) r (sidecar_file d) (ck_dur_sidecar s)) CkIdle.

(** A commit that fails leaves the state in memory as it was, and the sidecar either as it was
    or replaced; a commit that succeeds publishes the new tables in both. *)
Lemma commit_cases now fault s p d r :
  ck_inv s → ck_phase s = CkSynced →
  commit_checkpoint_after_data_sync W now fault (ck_prog s) (ck_disk s) = (p, d, r) →
  (dp_pending (ck_prog s) = [] ∧ p = ck_prog s ∧ d = ck_disk s ∧ r = Ok tt)
  ∨ ∃ bits digests,
      length bits = length (dp_bits (ck_prog s))
      ∧ table_ok W total chunk bits digests ∧ good_table s bits digests
      ∧ (∀ j, bit_is_set bits j = true ↔ has (ck_prog s) j ∨ j ∈ map pend_index (dp_pending (ck_prog s)))
      ∧ let raw := sidecar_layout total chunk (dp_max_parts (ck_prog s)) identity bits digests in
        (p = ck_prog s ∧ (∃ e, r = Err e)
          ∧ (d = ck_disk s ∨ d = mkDisk (Some (ck_target s)) (ck_sidecar s) true
             ∨ d = mkDisk (Some (ck_target s)) (Some raw) true))
        ∨ (dp_pending (ck_prog s) ≠ [] ∧ p = publish now bits digests (ck_prog s) ∧ r = Ok tt
           ∧ d = mkDisk (Some (ck_target s)) (Some raw) true).
Proof.
  intros Hs Hph H. unfold commit_checkpoint_after_data_sync in H.
  destruct (commit_tables s Hs Hph) as (bits & digests & Ha & Hl & Htab & Hgood & Hbits).
  destruct (dp_pending (ck_prog s)) as [|q ps] eqn:Hpe; [by left; simplify_eq|right].
  rewrite Ha in H. pose proof (ci_grid _ Hs) as [? ? ? ? ? ?].
  exists bits, digests. rewrite <- (ci_total _ Hs), <- (ci_chunk _ Hs), <- (ci_id _ Hs).
  split_and!; try done. cbv zeta.
  unfold persist_snapshot_atomic in H. rewrite (encode_layout W (ck_prog s) bits digests) in H by done.
  cbn [ck_disk target_file sidecar_file] in H.
  destruct fault; simplify_eq; [right; by split_and!|left..]; (split; [done|]); (split; [by eexists|]); auto.
Qed.

Lemma sidecar_ok_new s s' mp bits digests :
  ck_inv s → evolves s s' → ck_owned s' = true → fits U32_MAX mp → table_ok W total chunk bits digests →
  good_table s bits digests → (∀ i, has (ck_prog s') i → bit_is_set bits i = true) →
  sidecar_ok s' (Some (sidecar_layout total chunk mp identity bits digests)).
Proof.
  intros Hs Hev Hown Hmp Htab Hgood Hsub. right. split; [done|]. exists mp, bits, digests.
  split_and!; auto. by apply (good_table_mono s s').
Qed.

Lemma ck_commit_err_inv s d e bits digests :
  ck_inv s → table_ok W total chunk bits digests → good_table s bits digests →
  (∀ j, has (ck_prog s) j → bit_is_set bits j = true) →
  d = ck_disk s ∨ d = mkDisk (Some (ck_target s)) (ck_sidecar s) true
    ∨ d = mkDisk (Some (ck_target s))
            (Some (sidecar_layout total chunk (dp_max_parts (ck_prog s)) identity bits digests)) true →
  ck_inv (commit_state s (ck_prog s) d (Err e)).
Proof.
  intros Hs Htab Hgood Hsub Hd. set (s' := commit_state _ _ _ _).
  assert (evolves s s') as Hev.
  { split; try done; [apply Hs|]. destruct Hd as [->|[->| ->]]; done. }
  apply (evolves_inv s s'); try done; try apply Hs.
  - eapply Forall_impl; [apply (ci_pending _ Hs)|]. intros q (H1 & H2 & H3 & _). by split_and!.
  - destruct Hd as [->|[->| ->]]; simpl.
    + by apply (sidecar_ok_mono s s'); [..|apply Hs].
    + by apply (sidecar_ok_mono s s'); [..|apply Hs].
    + apply (sidecar_ok_new s s'); try done. apply (ci_grid _ Hs).
  - by apply (sidecar_ok_mono s s'); [..|apply Hs].
Qed.

Lemma ck_publish_inv now s bits digests :
  ck_inv s → dp_pending (ck_prog s) ≠ [] → length bits = length (dp_bits (ck_prog s)) →
  table_ok W total chunk bits digests → good_table s bits digests →
  ck_inv (commit_state s (publish now bits digests (ck_prog s))
    (mkDisk (Some (ck_target s))
      (Some (sidecar_layout total chunk (dp_max_parts (ck_prog s)) identity bits digests)) true) (Ok tt)).
Proof.
  intros Hs Hpe Hl Htab Hgood. set (s' := commit_state _ _ _ _).
  assert (grid_ok W (ck_prog s')) as Hg'.
  { destruct (ci_grid _ Hs). split; try done. simpl. by rewrite (ci_total _ Hs), (ci_chunk _ Hs). }
  assert (evolves s s') as Hev by (by split).
  assert (sidecar_ok s' (Some (sidecar_layout total chunk (dp_max_parts (ck_prog s)) identity bits digests))) as Hsc.
  { apply (sidecar_ok_new s s'); try done. apply (ci_grid _ Hs). }
  split; try done; try apply Hs; simpl.
  - unfold zeroed_bytes. rewrite length_replicate, (ci_pbits _ Hs). done.
  - intros i. rewrite zeroed_not_set. set_solver.
  - destruct (dp_pending (ck_prog s)) eqn:E; [done|exact Hsc].
Qed.

Lemma ck_commit_inv now fault s p d r :
  ck_inv s → ck_phase s = CkSynced →
  commit_checkpoint_after_data_sync W now fault (ck_prog s) (ck_disk s) = (p, d, r) →
  ck_inv (commit_state s p d r).
Proof.
  intros Hs Hph H. destruct (commit_cases now fault s p d r Hs Hph H)
    as [(Hpe & -> & -> & ->)|(bits & digests & Hl & Htab & Hgood & Hbits & Hr)].
  - replace (commit_state s (ck_prog s) (ck_disk s) (Ok tt)) with (ck_with_prog (ck_prog s) CkIdle s).
    2:{ unfold commit_state, durable_after. by rewrite Hpe. }
    apply ck_prog_inv; try done; try apply Hs. rewrite Hpe. constructor.
  - destruct Hr as [(-> & (e & ->) & Hd)|(Hpe & -> & -> & ->)].
    + apply (ck_commit_err_inv s d e bits digests); try done. intros j Hj. apply Hbits. by left.
    + by apply ck_publish_inv.
Qed.

(** ** Crashes and the first start *)

Lemma ck_crash_inv s c sc p :
  ck_inv s → crash_target s c → sc = ck_sidecar s ∨ sc = ck_dur_sidecar s → recovered c sc p →
  ck_inv (mkCk p c sc (ck_owned s) c sc CkIdle).
Proof.
  intros Hs Hcr Hsc [Hg Ht Hc Hid Hpe Hpb Hr Hrs]. set (s' := mkCk _ _ _ _ _ _ _).
  assert (length c = length remote) as Hlc by (destruct Hcr as [-> _]; apply Hs).
  assert (sidecar_ok s sc) as Hok by (destruct Hsc as [->| ->]; apply Hs).
  assert (sidecar_ok s' sc) as Hok'.
  { assert (evolves s s') as Hev.
    { split; try done; try (by rewrite ?(ci_total _ Hs), ?(ci_chunk _ Hs), ?(ci_id _ Hs)).
      intros i Hi H1 H2. pose proof (crash_part_in s c (ck_prog s) i (ci_grid _ Hs) Hi Hcr H1 H2). done. }
    destruct Hok as [[Hbl _]|(Hown & mp & bits & digests & Hmp & Htab & -> & Hgood & _)].
    { left. split; [done|]. intros i Hi Hh. destruct (Hrs i Hi Hh) as (raw & b & dg & Hraw & Hdec & _).
      by rewrite (Hbl raw _ Hraw) in Hdec. }
    right. split; [done|].
    exists mp, bits, digests. split_and!; try done; [by apply (good_table_mono s s')|].
    intros i Hi Hh. destruct (Hrs i Hi Hh) as (raw & b & dg & [= <-] & Hdec & Hb).
    rewrite decode_layout in Hdec; try done; [by simplify_eq|]. rewrite <- Hid. apply Hg. }
  split; try done; simpl.
  - rewrite Hpb. unfold zeroed_bytes. by rewrite length_replicate.
  - rewrite Hpe. constructor.
  - intros i. rewrite Hpb, Hpe, zeroed_not_set. set_solver.
  - intros i Hi Hh. destruct (Hr i Hi Hh) as [H1 H2]. done.
Qed.

Lemma length_resize (f : list Z) n : length (resize f n) = n.
Proof. unfold resize. rewrite length_app, length_take, length_replicate. lia. Qed.

(** Without a sidecar of its own a download starts with nothing done. *)
Lemma load_blank now d mp p :
  blank (sidecar_file d) → 0 ≤ mp → load_or_create W sha256 now d total chunk mp identity = Ok p →
  fresh W now total chunk mp identity = Ok p.
Proof.
  intros Hbl Hmp Hl. destruct (fresh W now total chunk mp identity) as [p0|e] eqn:Hfr.
  2:{ unfold load_or_create in Hl. by rewrite Hfr in Hl. }
  destruct (fresh_inv W HW now total chunk mp identity p0 total_fits chunk_fits Hmp Hfr)
    as (Hg0 & Ht & Hc & _ & Hid & _).
  destruct (load_eq W sha256 HW now d total chunk mp identity p0) as [Hle _]; try done.
  rewrite Hle in Hl. destruct (negb _); [by simplify_eq|].
  destruct (read_claims_cases W HW d p0 (verify_completed_parts_through sha256 d total) Hg0)
    as [(p1 & (_ & raw & b & dg & Hraw & Hdec & _) & _)|[_ Hrc]].
  - rewrite Ht, Hc, Hid in Hdec. by rewrite (Hbl raw _ Hraw) in Hdec.
  - rewrite Hrc in Hl. by simplify_eq.
Qed.

(** A fresh download satisfies the invariant, whatever the remote's bytes are. *)
Lemma fresh_ck_inv now mp p f sc owned :
  fits U32_MAX mp → fresh W now total chunk mp identity = Ok p → length f = length remote → blank sc →
  ck_inv (mkCk p f sc owned f sc CkIdle).
Proof.
  intros Hmp Hfr Hf Hbl.
  destruct (fresh_inv W HW now total chunk mp identity p total_fits chunk_fits (proj1 Hmp) Hfr)
    as (Hg0 & Ht & Hc & _ & Hid & Hpe & Hpb & Hno).
  assert (sidecar_ok (mkCk p f sc owned f sc CkIdle) sc) as Hsc.
  { left. split; [done|]. intros i _. apply Hno. }
  split; try done; simpl.
  - rewrite Hpb. unfold zeroed_bytes. by rewrite length_replicate.
  - rewrite Hpe. constructor.
  - intros i. rewrite Hpb, Hpe, zeroed_not_set. set_solver.
  - intros i _ Hh. by destruct (Hno i).
Qed.

Lemma ck_init_inv s : ck_init s → ck_inv s.
Proof.
  intros (now & mp & d & p & Hbl & Hmp & Hl & ->).
  apply (fresh_ck_inv now mp); [done| |apply length_resize|done].
  apply (load_blank now d); [done|apply Hmp|done].
Qed.

Lemma ck_step_inv s s' : ck_inv s → ck_step s s' → ck_inv s'.
Proof.
  intros Hs Hst.
  destruct Hst as [a n s Han|now i s Hph Hi Hin|p due s Hph Hb|p due s Hph Hb|s Hph|s Hph
    |now fault p d r s Hph Hc|v s|now mp c sc p s Hmp Hcr Hsc Hl].
  - by apply ck_write_inv.
  - by apply ck_stage_inv.
  - apply ck_begin_inv; auto.
  - apply ck_begin_inv; auto.
  - by apply ck_sync_inv.
  - apply ck_prog_inv; try done; try apply Hs.
    eapply Forall_impl; [apply (ci_pending _ Hs)|]. intros q (H1 & H2 & H3 & _). by split_and!.
  - by apply (ck_commit_inv now fault).
  - apply ck_prog_inv; try done; try apply Hs. by destruct (ci_grid _ Hs).
  - destruct (load_recovers s c sc now mp Hs Hcr Hsc Hmp) as (p' & Hl' & Hrec & _).
    rewrite Hl in Hl'. injection Hl' as <-. by apply ck_crash_inv.
Qed.

Lemma ck_steps_inv s s' : ck_inv s → rtc ck_step s s' → ck_inv s'.
Proof. apply rtc_invariant, ck_step_inv. Qed.

Lemma ck_reachable_inv s0 s : ck_init s0 → rtc ck_step s0 s → ck_inv s.
Proof. intros H0. apply ck_steps_inv. by apply ck_init_inv. Qed.


(** The outcome of a commit after a data sync. *)
Lemma commit_outcome s now fault p d r :
  ck_inv s → ck_phase s = CkSynced →
  commit_checkpoint_after_data_sync W now fault (ck_prog s) (ck_disk s) = (p, d, r) →
  (fault = NoFault → r = Ok tt)
  ∧ (r = Ok tt → dp_pending p = []
       ∧ (∀ i, has p i ↔ has (ck_prog s) i ∨ bit_is_set (dp_pending_bits (ck_prog s)) i = true)
       ∧ (dp_pending (ck_prog s) ≠ [] →
            sidecar_file d = Some (sidecar_layout total chunk (dp_max_parts p) identity (dp_bits p) (dp_digests p))))
  ∧ ((∃ e, r = Err e) → p = ck_prog s).
Proof.
  intros Hs Hph H. split.
  { intros ->. unfold commit_checkpoint_after_data_sync in H.
    destruct (commit_tables s Hs Hph) as (bits & digests & Ha & _ & Htab & _).
    destruct (dp_pending (ck_prog s)); [by simplify_eq|]. rewrite Ha in H.
    pose proof (ci_grid _ Hs) as [? ? ? ? ? ?]. unfold persist_snapshot_atomic in H.
    rewrite (encode_layout W (ck_prog s) bits digests) in H by done. by simplify_eq. }
  destruct (commit_cases now fault s p d r Hs Hph H)
    as [(Hpe & -> & -> & ->)|(bits & digests & Hl & Htab & Hgood & Hbits & Hres)].
  - split; [|done]. intros _. split_and!; try done. intros i. rewrite (ci_staged _ Hs), Hpe. set_solver.
  - destruct Hres as [(-> & (e & ->) & _)|(Hpe & -> & -> & ->)]; [done|].
    split; [|by intros []]. intros _. split_and!; try done.
    intros i. rewrite (ci_staged _ Hs). apply Hbits.
Qed.

Lemma validate_parts_ok s is_ :
  ck_inv s → Forall (λ i, (i < dp_part_count (ck_prog s))%nat) is_ →
  validate_parts sha256 (ck_target s) (ck_prog s) is_ = Ok tt.
Proof.
  intros Hs Hf. induction Hf as [|i is_ Hi Hf IH]; [done|]. simpl.
  destruct (bit_is_set (dp_bits (ck_prog s)) i) eqn:Hb; simpl; [|done].
  rewrite (part_range_eq W HW (ck_prog s) i (ci_grid _ Hs) Hi).
  destruct (part_bounds W HW (ck_prog s) i (ci_grid _ Hs) Hi) as (_ & He & _). rewrite (ci_total _ Hs) in He.
  rewrite (digest_range_eq W sha256 HW (ck_prog s) i _ (ci_grid _ Hs) Hi) by (by rewrite (ci_target _ Hs)).
  destruct (ci_mem _ Hs i Hi Hb) as (Hd & _ & Hv).
  rewrite bool_decide_eq_true_2; [done|]. by rewrite Hd, Hv.
Qed.

Lemma all_parts_cover p f :
  grid_ok W p → dp_total p = total → length f = length remote →
  (∀ i, (i < dp_part_count p)%nat → part_in p f i) → f = remote.
Proof.
  intros Hg Ht Hf Hall. apply list_eq. intros j.
  destruct (decide (j < length remote)%nat) as [Hj|Hj]; [|rewrite !lookup_ge_None_2 by lia; done].
  destruct (grid_count W HW p Hg) as (Hc & Hn & _).
  set (i := Z.to_nat (Z.of_nat j / dp_chunk p)).
  pose proof (Z.div_mod (Z.of_nat j) (dp_chunk p) ltac:(lia)) as Hdm.
  pose proof (Z.mod_pos_bound (Z.of_nat j) (dp_chunk p) Hc) as Hmb.
  pose proof (Z.div_pos (Z.of_nat j) (dp_chunk p) ltac:(lia) Hc) as Hdp.
  assert (i < dp_part_count p)%nat as Hi.
  { pose proof (div_ceil_spec (dp_total p) (dp_chunk p) ltac:(lia) Hc) as [_ Hup]. rewrite <- Hn in Hup.
    assert (Z.of_nat j / dp_chunk p < Z.of_nat (dp_part_count p)); [nia|]. unfold i. lia. }
  apply (part_in_lookup p f i Hg Hi); [by apply Hall|].
  unfold part_end, part_offset, i. rewrite Z2Nat.id by lia. nia.
Qed.

Lemma all_done_remote s :
  ck_inv s → all_done (ck_prog s) = true →
  ck_target s = remote ∧ ck_dur_target s = remote
  ∧ validate_committed_content sha256 (ck_prog s) (ck_disk s) = Ok tt.
Proof.
  intros Hs Hall.
  assert (∀ i, (i < dp_part_count (ck_prog s))%nat → has (ck_prog s) i) as Hh.
  { intros i Hi. unfold all_done in Hall. rewrite forallb_forall in Hall. apply Hall, in_seq. lia. }
  split_and!.
  - apply (all_parts_cover (ck_prog s)); try apply Hs. intros i Hi. by apply (ci_mem _ Hs i Hi (Hh i Hi)).
  - apply (all_parts_cover (ck_prog s)); try apply Hs. intros i Hi. by apply (ci_mem _ Hs i Hi (Hh i Hi)).
  - unfold validate_committed_content. simpl. rewrite (ci_total _ Hs), (ci_target _ Hs), Z.eqb_refl. simpl.
    apply validate_parts_ok; [done|]. apply Forall_forall. intros i [_ Hi]%elem_of_seq. done.
Qed.

(** when every part is recorded done the download is complete: the target file is the
    remote's content, on disk as well as in memory, and the validation before the completion
    event accepts it. *)
Theorem all_done_is_remote_content s0 s :
  ck_init s0 → rtc ck_step s0 s → all_done (ck_prog s) = true →
  ck_target s = remote ∧ ck_dur_target s = remote
  ∧ validate_committed_content sha256 (ck_prog s) (ck_disk s) = Ok tt.
Proof. intros H0 Hr. apply all_done_remote. by apply (ck_reachable_inv s0). Qed.

End Crash.

(** ** A concrete download *)

(** The three parts of [demo_remote] are written and staged, then committed. *)
Definition demo_s0 : CkState := mkCk demo_fresh (replicate 20 0) None false (replicate 20 0) None CkIdle.
Definition demo_written : CkState :=
  mkCk demo_fresh (overwrite (ck_target demo_s0) 0 (take 20 (drop 0 demo_remote))) None false
    (replicate 20 0) None CkIdle.
Definition demo_stage (i : nat) (s : CkState) : CkState :=
  ck_with_prog (fst (stage_done_with_digest_deferred 64 0 (part_offset (ck_prog s) i)
    (demo_sha (part_bytes (ck_prog s) i demo_remote)) (ck_prog s))) CkIdle s.
Definition demo_staged : CkState := demo_stage 2 (demo_stage 1 (demo_stage 0 demo_written)).
Definition demo_begun : CkState :=
  ck_with_prog (fst (begin_external_checkpoint (ck_prog demo_staged))) CkBegun demo_staged.
Definition demo_synced : CkState :=
  mkCk (ck_prog demo_begun) (ck_target demo_begun) (ck_sidecar demo_begun) (ck_owned demo_begun)
    (ck_target demo_begun) (ck_dur_sidecar demo_begun) CkSynced.
Definition demo_commit := commit_checkpoint_after_data_sync 64 0 NoFault (ck_prog demo_synced) (ck_disk demo_synced).
Definition demo_committed : CkState :=
  mkCk (fst (fst demo_commit)) (ck_target demo_synced) (sidecar_file (snd (fst demo_commit)))
    (namespace_owned (snd (fst demo_commit))) (ck_dur_target demo_synced)
    (durable_after (ck_prog demo_synced) (snd demo_commit) (sidecar_file (snd (fst demo_commit)))
      (ck_dur_sidecar demo_synced)) CkIdle.

#[local] Abbreviation demo_steps := (rtc (ck_step 64 demo_sha demo_remote 8 [105; 100])).

Lemma demo_s0_init : ck_init 64 demo_sha demo_remote 8 [105; 100] demo_s0.
Proof.
  exists 0, 4, (mkDisk None None false), demo_fresh.
  split; [by intros raw mp [=]|]. split; [vm_compute; split; discriminate|].
  split; [vm_compute; reflexivity|reflexivity].
Qed.

Lemma demo_staged_reachable : demo_steps demo_s0 demo_staged.
Proof.
  eapply rtc_l; [apply (ck_write _ _ _ _ _ 0 20 demo_s0); vm_compute; lia|].
  eapply rtc_l; [apply (ck_stage _ _ _ _ _ 0 0 demo_written); [reflexivity|vm_compute; lia|vm_compute; reflexivity]|].
  eapply rtc_l; [apply (ck_stage _ _ _ _ _ 0 1 (demo_stage 0 demo_written));
    [reflexivity|vm_compute; lia|vm_compute; reflexivity]|].
  eapply rtc_l; [apply (ck_stage _ _ _ _ _ 0 2 (demo_stage 1 (demo_stage 0 demo_written)));
    [reflexivity|vm_compute; lia|vm_compute; reflexivity]|].
  apply rtc_refl.
Qed.

Lemma demo_synced_reachable : demo_steps demo_s0 demo_synced.
Proof.
  etrans; [exact demo_staged_reachable|].
  eapply rtc_l; [apply (ck_begin _ _ _ _ _ (ck_prog demo_begun) true demo_staged);
    [reflexivity|vm_compute; reflexivity]|].
  eapply rtc_l; [apply (ck_sync _ _ _ _ _ demo_begun); reflexivity|]. apply rtc_refl.
Qed.

Lemma demo_commit_eq :
  demo_commit = (fst (fst demo_commit), snd (fst demo_commit), snd demo_commit).
Proof. by destruct demo_commit as [[? ?] ?]. Qed.

Lemma demo_committed_reachable : demo_steps demo_s0 demo_committed.
Proof.
  etrans; [exact demo_synced_reachable|]. apply rtc_once.
  apply (ck_commit _ _ _ _ _ 0 NoFault (fst (fst demo_commit)) (snd (fst demo_commit)) (snd demo_commit)
    demo_synced); [reflexivity|exact demo_commit_eq].
Qed.

Lemma demo_sha_len bs : length (demo_sha bs) = PART_DIGEST_LEN.
Proof. apply length_replicate. Qed.


Lemma all_done_is_remote_content_witness :
  all_done (ck_prog demo_committed) = true ∧ ck_dur_target demo_committed = demo_remote.
Proof.
  assert (all_done (ck_prog demo_committed) = true) as Hall by (vm_compute; reflexivity).
  split; [exact Hall|].
  apply (all_done_is_remote_content 64 demo_sha demo_remote 8 [105; 100] ltac:(lia) demo_sha_len
    ltac:(vm_compute; split; discriminate) ltac:(vm_compute; split; discriminate)
    demo_s0 demo_committed demo_s0_init demo_committed_reachable Hall).
Defined.
