(* ===== verification/HttpHeaders.v ===== *)
(** * HTTP headers of downloads

    [src/dflt/mod.rs]: the checks on request and response headers that decide which bytes a
    download may trust. A header map is what [HeaderMap::get_all] shows of it: for each name the
    list of its values, in order; values are byte strings. [HeaderValue::to_str] succeeds on
    visible ASCII and tabs, as documented by the [http] crate. *)
From stdpp Require Import gmap.
From S2P Require Import Prelude Errors.
#[local] Open Scope Z_scope.

(** ** Bytes and text *)

Fixpoint bs (s : string) : list Z :=
  match s with
  | EmptyString => []
  | String c s => Z.of_nat (Ascii.nat_of_ascii c) :: bs s
  end.

Fixpoint str_of (l : list Z) : string :=
  match l with
  | [] => EmptyString
  | b :: l => String (Ascii.ascii_of_nat (Z.to_nat b)) (str_of l)
  end.

Lemma bs_app s1 s2 : bs (s1 +:+ s2) = bs s1 ++ bs s2.
Proof. induction s1 as [|c s1 IH]; simpl; [done|]. by rewrite IH. Qed.

Lemma bs_inj s s' : bs s = bs s' → s = s'.
Proof.
  revert s'. induction s as [|c s IH]; intros [|c' s']; cbn [bs]; try done. intros [= H1 H2].
  apply Nat2Z.inj in H1. apply (f_equal Ascii.ascii_of_nat) in H1. rewrite !Ascii.ascii_nat_embedding in H1.
  by rewrite H1, (IH s' H2).
Qed.

Definition to_ascii_lowercase (b : Z) : Z := if (65 <=? b) && (b <=? 90) then b + 32 else b.
Definition eq_ignore_ascii_case (a b : list Z) : bool :=
  bool_decide (map to_ascii_lowercase a = map to_ascii_lowercase b).

(** [str::trim] on ASCII text, [<[u8]>::trim_ascii]. *)
Definition is_whitespace (b : Z) : bool := ((9 <=? b) && (b <=? 13)) || (b =? 32).
Definition is_ascii_whitespace (b : Z) : bool :=
  (b =? 32) || (b =? 9) || (b =? 10) || (b =? 12) || (b =? 13).

Fixpoint trim_start_by (ws : Z → bool) (l : list Z) : list Z :=
  match l with
  | [] => []
  | b :: r => if ws b then trim_start_by ws r else l
  end.
Definition trim_by (ws : Z → bool) (l : list Z) : list Z :=
  reverse (trim_start_by ws (reverse (trim_start_by ws l))).
Definition trim : list Z → list Z := trim_by is_whitespace.
Definition trim_ascii : list Z → list Z := trim_by is_ascii_whitespace.

Fixpoint strip_prefix (p l : list Z) : option (list Z) :=
  match p, l with
  | [], _ => Some l
  | _, [] => None
  | a :: p, b :: l => if a =? b then strip_prefix p l else None
  end.
Definition strip_suffix (p l : list Z) : option (list Z) :=
  option_map (@reverse Z) (strip_prefix (reverse p) (reverse l)).

(** [str::split_once] at a character. *)
Fixpoint split_once (c : Z) (l : list Z) : option (list Z * list Z) :=
  match l with
  | [] => None
  | b :: r =>
      if b =? c then Some ([], r)
      else match split_once c r with Some (x, y) => Some (b :: x, y) | None => None end
  end.

(** [str::parse::<u64>]: an optional plus sign and at least one digit, within 64 bits. *)
Definition is_ascii_digit (b : Z) : bool := (48 <=? b) && (b <=? 57).
Fixpoint parse_digits (acc : Z) (l : list Z) : option Z :=
  match l with
  | [] => Some acc
  | b :: r =>
      if is_ascii_digit b then
        let acc := acc * 10 + (b - 48) in
        if acc <=? U64_MAX then parse_digits acc r else None
      else None
  end.
Definition parse_u64 (l : list Z) : option Z :=
  let l := match l with b :: r => if b =? 43 then r else l | [] => l end in
  match l with [] => None | _ => parse_digits 0 l end.

(** ** Header maps *)

Abbreviation HeaderMap := (gmap string (list (list Z))).

Definition get_all (h : HeaderMap) (name : string) : list (list Z) := default [] (h !! name).
Definition get (h : HeaderMap) (name : string) : option (list Z) := head (get_all h name).
(** [HeaderMap::insert] replaces every value of the name. *)
Definition insert_header (name : string) (v : list Z) (h : HeaderMap) : HeaderMap := <[name := [v]]> h.

Definition is_visible_ascii (b : Z) : bool := ((32 <=? b) && (b <? 127)) || (b =? 9).
Definition to_str (v : list Z) : option (list Z) := if forallb is_visible_ascii v then Some v else None.

Definition ACCEPT_ENCODING : string := "accept-encoding".
Definition CONTENT_ENCODING : string := "content-encoding".
Definition CONTENT_LENGTH : string := "content-length".
Definition CONTENT_RANGE : string := "content-range".
Definition ETAG : string := "etag".
Definition IF_MATCH : string := "if-match".

Definition invalid_range (m : string) : MeowError := from_code InvalidRange m.

Definition require_single_header (h : HeaderMap) (name context : string)
    : result (option (list Z)) MeowError :=
  match get_all h name with
  | [] => Ok None
  | [v] =>
      match to_str v with
      | Some s => Ok (Some s)
      | None => Err (invalid_range (context +:+ " contains an invalid " +:+ name +:+ " header"))
      end
  | _ => Err (invalid_range (context +:+ " contains multiple " +:+ name +:+ " headers"))
  end.

(** Whether a comma occurs outside the quotes. *)
Fixpoint comma_outside_quotes (quoted : bool) (l : list Z) : bool :=
  match l with
  | [] => false
  | b :: r =>
      if b =? 34 then comma_outside_quotes (negb quoted) r
      else if (b =? 44) && negb quoted then true
      else comma_outside_quotes quoted r
  end.

(** [b'!' | b'#'..=b'~' | 0x80..=0xff] *)
Definition is_etag_byte (b : Z) : bool :=
  (b =? 33) || ((35 <=? b) && (b <=? 126)) || ((128 <=? b) && (b <=? 255)).

Definition require_unambiguous_etag (h : HeaderMap) (context : string)
    : result (option (list Z)) MeowError :=
  match get_all h ETAG with
  | [] => Ok None
  | [v] =>
      if comma_outside_quotes false v then
        Err (invalid_range (context +:+ " contains an ambiguous comma-combined ETag header"))
      else
        match to_str v with
        | Some s => Ok (Some s)
        | None =>
            let bytes := trim_ascii v in
            let bytes := match strip_prefix (bs "W/") bytes with Some strong => strong | None => bytes end in
            let opaque :=
              match strip_prefix [34] bytes with Some tag => strip_suffix [34] tag | None => None end in
            match opaque with
            | Some tag =>
                if forallb is_etag_byte tag then Ok None
                else Err (invalid_range (context +:+ " contains an invalid etag header"))
            | None => Err (invalid_range (context +:+ " contains an invalid etag header"))
            end
        end
  | _ => Err (invalid_range (context +:+ " contains multiple etag headers"))
  end.

Definition set_accept_encoding_identity (h : HeaderMap) : HeaderMap :=
  insert_header ACCEPT_ENCODING (bs "identity") h.

Definition ensure_accept_encoding_identity (h : HeaderMap) (context : string) : result unit MeowError :=
  let? v := require_single_header h ACCEPT_ENCODING context in
  match v with
  | Some value =>
      if eq_ignore_ascii_case value (bs "identity") then Ok tt
      else Err (invalid_range (context +:+ " must preserve Accept-Encoding: identity"))
  | None => Err (invalid_range (context +:+ " removed Accept-Encoding: identity"))
  end.

Definition ensure_response_identity_encoding (h : HeaderMap) (context : string) : result unit MeowError :=
  let? v := require_single_header h CONTENT_ENCODING context in
  match v with
  | None => Ok tt
  | Some value =>
      if eq_ignore_ascii_case value (bs "identity") then Ok tt
      else Err (invalid_range (context +:+ " used content-encoding " +:+ str_of value))
  end.

Definition is_ascii_hexdigit (b : Z) : bool :=
  is_ascii_digit b || ((65 <=? b) && (b <=? 70)) || ((97 <=? b) && (b <=? 102)).

(** The weak-validator test: [etag.get(..2)] is [W/], case-insensitively. *)
Definition is_weak (etag : list Z) : bool :=
  (2 <=? length etag)%nat && eq_ignore_ascii_case (take 2 etag) (bs "W/").
Definition is_quoted (etag : list Z) : bool :=
  (2 <=? length etag)%nat && bool_decide (head etag = Some 34) && bool_decide (last etag = Some 34).
Definition is_azure_token (etag : list Z) : bool :=
  let hex := match strip_prefix (bs "0x") etag with
             | Some hex => Some hex
             | None => strip_prefix (bs "0X") etag
             end in
  match hex with
  | Some hex => (8 <=? length hex)%nat && forallb is_ascii_hexdigit hex
  | None => false
  end.
Definition is_azure_blob_response (h : HeaderMap) : bool :=
  match get h "x-ms-blob-type" with
  | Some v =>
      match to_str v with
      | Some s => eq_ignore_ascii_case (trim s) (bs "BlockBlob")
      | None => false
      end
  | None => false
  end
  && bool_decide (is_Some (get h "x-ms-version")) && bool_decide (is_Some (get h "x-ms-request-id")).

Definition download_generation_validator (h : HeaderMap) : option (list Z) :=
  match require_unambiguous_etag h "download response" with
  | Ok (Some v) =>
      let etag := trim v in
      if is_weak etag then None
      else if is_quoted etag || (is_azure_token etag && is_azure_blob_response h) then Some etag
      else None
  | _ => None
  end.

(** ** Lemmas *)

(** A validator comes from the single, unambiguous ETag of the response, and is not weak. *)
Lemma validator_from_single_etag h v :
  download_generation_validator h = Some v →
  ∃ e, get_all h ETAG = [e] ∧ v = trim e ∧ is_weak v = false ∧ comma_outside_quotes false e = false.
Proof.
  unfold download_generation_validator, require_unambiguous_etag.
  destruct (get_all h ETAG) as [|e [|]]; [done| |done].
  destruct (comma_outside_quotes false e) eqn:Hc; [done|]. unfold to_str.
  destruct (forallb is_visible_ascii e).
  - destruct (is_weak (trim e)) eqn:Hw; [done|]. case_match; [|done]. intros [= <-]. by exists e.
  - intros H. by repeat case_match.
Qed.

Lemma lookup_insert_header h name v : get_all (insert_header name v h) name = [v].
Proof. unfold get_all, insert_header. by rewrite lookup_insert_eq. Qed.

Lemma lookup_insert_header_ne h name name' v :
  name ≠ name' → get_all (insert_header name v h) name' = get_all h name'.
Proof. intros Hn. unfold get_all, insert_header. by rewrite lookup_insert_ne. Qed.

(** ** Decimal text *)

(** Digits that denote [n] after the accumulator. *)
Lemma parse_digits_app acc l1 l2 :
  parse_digits acc (l1 ++ l2) = match parse_digits acc l1 with Some a => parse_digits a l2 | None => None end.
Proof.
  revert acc. induction l1 as [|b l1 IH]; intros acc; simpl; [done|].
  destruct (is_ascii_digit b); [|done]. destruct (_ <=? _); [apply IH|done].
Qed.

Lemma pretty_N_char_digit x :
  (x < 10)%N → Z.of_nat (Ascii.nat_of_ascii (pretty_N_char x)) = 48 + Z.of_N x.
Proof.
  intros Hx. destruct x as [|p]; [done|]. do 4 (destruct p as [p|p|]; try done); lia.
Qed.

Lemma digit_step b acc r :
  is_ascii_digit b = true → acc * 10 + (b - 48) ≤ U64_MAX →
  parse_digits acc (b :: r) = parse_digits (acc * 10 + (b - 48)) r.
Proof. intros Hb Ha. simpl. rewrite Hb. by rewrite (proj2 (Z.leb_le _ _)). Qed.

Lemma pretty_go_digits x s :
  Z.of_N x ≤ U64_MAX →
  parse_digits 0 (bs (pretty_N_go x s)) = parse_digits (Z.of_N x) (bs s)
  ∧ (forallb is_ascii_digit (bs s) = true → forallb is_ascii_digit (bs (pretty_N_go x s)) = true)
  ∧ (length (bs s) ≤ length (bs (pretty_N_go x s)))%nat.
Proof.
  revert s. induction (N.lt_wf_0 x) as [x _ IH]; intros s Hx.
  destruct (decide (0 < x)%N) as [Hp|Hp].
  2:{ assert (x = 0%N) as -> by lia. by rewrite pretty_N_go_0. }
  rewrite pretty_N_go_step by done.
  pose proof (N.div_mod x 10 ltac:(lia)) as Hdm. pose proof (N.mod_lt x 10 ltac:(lia)) as Hm.
  assert (Z.of_N (x `div` 10)%N * 10 + Z.of_N (x `mod` 10)%N = Z.of_N x) as Hz by lia.
  pose proof (N2Z.is_nonneg (x `div` 10)) as Hq0. pose proof (N2Z.is_nonneg (x `mod` 10)) as Hr0.
  destruct (IH (x `div` 10)%N ltac:(by apply N.div_lt) (String (pretty_N_char (x `mod` 10)) s)) as (H1 & H2 & H3).
  { lia. }
  assert (Z.of_nat (Ascii.nat_of_ascii (pretty_N_char (x `mod` 10))) = 48 + Z.of_N (x `mod` 10)%N) as Hc
    by (by apply pretty_N_char_digit).
  assert (is_ascii_digit (Z.of_nat (Ascii.nat_of_ascii (pretty_N_char (x `mod` 10)))) = true) as Hdig.
  { rewrite Hc. unfold is_ascii_digit. apply andb_true_iff. split; apply Z.leb_le; lia. }
  cbn [bs length forallb] in H1, H2, H3. split_and!.
  - rewrite H1, digit_step by (done || (rewrite Hc; lia)). f_equal. rewrite Hc. lia.
  - intros Hs. apply H2. by rewrite Hdig, Hs.
  - lia.
Qed.

(** Decimal printing and [parse::<u64>] are inverse. *)
Lemma parse_pretty n :
  fits U64_MAX n →
  parse_digits 0 (bs (pretty n)) = Some n ∧ forallb is_ascii_digit (bs (pretty n)) = true
  ∧ bs (pretty n) ≠ [].
Proof.
  intros [H0 Hn]. destruct n as [|q|q]; [done| |lia].
  change (pretty (Z.pos q)) with (pretty_N_go (N.pos q) "").
  rewrite pretty_N_go_step by done.
  pose proof (N.div_mod (N.pos q) 10 ltac:(lia)) as Hdm.
  pose proof (N.mod_lt (N.pos q) 10 ltac:(lia)) as Hm.
  pose proof (N2Z.is_nonneg (N.pos q `div` 10)) as Hq0. pose proof (N2Z.is_nonneg (N.pos q `mod` 10)) as Hr0.
  set (c := pretty_N_char _).
  destruct (pretty_go_digits (N.pos q `div` 10) (String c "")) as (H1 & H2 & H3); [lia|].
  assert (Z.of_nat (Ascii.nat_of_ascii c) = 48 + Z.of_N (N.pos q `mod` 10)%N) as Hc
    by (by apply pretty_N_char_digit).
  assert (is_ascii_digit (Z.of_nat (Ascii.nat_of_ascii c)) = true) as Hdig.
  { rewrite Hc. unfold is_ascii_digit. apply andb_true_iff. split; apply Z.leb_le; lia. }
  cbn [bs length forallb] in H1, H2, H3. split_and!.
  - rewrite H1, digit_step by (done || (rewrite Hc; lia)). simpl. f_equal. rewrite Hc. lia.
  - apply H2. by rewrite Hdig.
  - destruct (bs _); [simpl in H3; lia|done].
Qed.

(** ** Text without blanks or separators *)

Lemma trim_start_id ws l : match l with b :: _ => ws b = false | [] => True end → trim_start_by ws l = l.
Proof. destruct l; simpl; [done|]. by intros ->. Qed.

(** Text whose ends are not blank is not trimmed. *)
Lemma trim_id ws l :
  match l with b :: _ => ws b = false | [] => True end →
  match reverse l with b :: _ => ws b = false | [] => True end → trim_by ws l = l.
Proof.
  intros H1 H2. unfold trim_by. rewrite (trim_start_id ws l H1), (trim_start_id ws (reverse l) H2).
  apply reverse_involutive.
Qed.

Lemma trim_nonblank ws l : Forall (λ b, ws b = false) l → trim_by ws l = l.
Proof.
  intros H. apply trim_id.
  - destruct l; [done|]. by apply Forall_cons in H as [? _].
  - assert (Forall (λ b, ws b = false) (reverse l)) as H' by (by apply Forall_reverse).
    destruct (reverse l); [done|]. by apply Forall_cons in H' as [? _].
Qed.

Lemma trim_between ws x m y :
  Forall (λ b, ws b = false) x → x ≠ [] → Forall (λ b, ws b = false) y → y ≠ [] →
  trim_by ws (x ++ m ++ y) = x ++ m ++ y.
Proof.
  intros Hx Hxn Hy Hyn. apply trim_id.
  - destruct x; [done|]. by apply Forall_cons in Hx as [? _].
  - rewrite !reverse_app. assert (Forall (λ b, ws b = false) (reverse y)) as Hr by (by apply Forall_reverse).
    destruct (reverse y) eqn:E; [|by apply Forall_cons in Hr as [? _]].
    apply (f_equal reverse) in E. by rewrite reverse_involutive in E.
Qed.

Lemma split_once_spec c l r : Forall (λ b, b ≠ c) l → split_once c (l ++ c :: r) = Some (l, r).
Proof.
  induction 1 as [|b l Hb Hf IH]; simpl; [by rewrite Z.eqb_refl|].
  by rewrite (proj2 (Z.eqb_neq _ _) Hb), IH.
Qed.

Lemma split_once_inv c l x y : split_once c l = Some (x, y) → l = x ++ c :: y ∧ Forall (λ b, b ≠ c) x.
Proof.
  revert x. induction l as [|b l IH]; intros x; simpl; [done|].
  destruct (Z.eqb_spec b c) as [->|Hn]; [intros [= <- <-]; by split; [|constructor]|].
  destruct (split_once c l) as [[x' y']|]; [|done]. intros [= <- ->].
  destruct (IH x' eq_refl) as [-> Hf]. by split; [|constructor].
Qed.

Lemma digits_Forall (P : Z → Prop) l :
  (∀ b, 48 ≤ b ≤ 57 → P b) → forallb is_ascii_digit l = true → Forall P l.
Proof.
  intros HP Hl. apply Forall_forall. intros b Hb. apply HP.
  rewrite forallb_forall in Hl. specialize (Hl b (proj1 (list_elem_of_In _ _) Hb)).
  unfold is_ascii_digit in Hl. zbool. lia.
Qed.

Lemma parse_u64_pretty n : fits U64_MAX n → parse_u64 (bs (pretty n)) = Some n.
Proof.
  intros Hn. destruct (parse_pretty n Hn) as (Hp & Hd & Hne). unfold parse_u64.
  destruct (bs (pretty n)) as [|b l]; [done|]. simpl in Hd. apply andb_true_iff in Hd as [Hb _].
  replace (b =? 43) with false; [done|]. symmetry. apply Z.eqb_neq. intros ->. done.
Qed.

(** The digits of a number, as they occur between separators. *)
Lemma pretty_text n :
  fits U64_MAX n →
  bs (pretty n) ≠ [] ∧ Forall (λ b, is_whitespace b = false) (bs (pretty n))
  ∧ (∀ c, ¬ (48 ≤ c ≤ 57) → Forall (λ b, b ≠ c) (bs (pretty n))).
Proof.
  intros Hn. destruct (parse_pretty n Hn) as (_ & Hd & Hne). split_and!; [done| |].
  - apply (digits_Forall _ _); [|done]. intros b Hb. unfold is_whitespace.
    apply orb_false_iff. split; [apply andb_false_iff; right; apply Z.leb_gt; lia|apply Z.eqb_neq; lia].
  - intros c Hc. apply (digits_Forall _ _); [|done]. lia.
Qed.

Lemma parse_digits_range acc l n : 0 ≤ acc → parse_digits acc l = Some n → acc ≤ n ∧ (l ≠ [] → n ≤ U64_MAX).
Proof.
  revert acc. induction l as [|b l IH]; intros acc H0; simpl; [intros [= <-]; by split|].
  destruct (is_ascii_digit b) eqn:Hb; [|done]. unfold is_ascii_digit in Hb. zbool.
  destruct (_ <=? U64_MAX) eqn:Hm; [|done]. zbool. intros Hp.
  destruct (IH (acc * 10 + (b - 48)) ltac:(lia) Hp) as [Hlo Hhi]. split; [lia|]. intros _.
  destruct l; [simpl in Hp; simplify_eq; lia|by apply Hhi].
Qed.

(** A parsed number fits its type. *)
Lemma parse_u64_fits l n : parse_u64 l = Some n → fits U64_MAX n.
Proof.
  unfold parse_u64. set (l' := match l with b :: r => _ | [] => _ end). destruct l' as [|b r] eqn:E; [done|].
  intros H. destruct (parse_digits_range 0 (b :: r) n) as [H1 H2]; [lia|done|]. split; [done|by apply H2].
Qed.
