(* ===== verification/DownloadIdentity.v ===== *)
(** * Checkpoint identity of a download

    [download_identity] of [src/dflt/default_http_transfer.rs]: the digest that ties a persisted
    checkpoint to the resource, the generation (strong validator), the protocol context and the
    principal it was made for. The URL parser is a parameter: a parsed URL is what the function
    asks of it. Text is kept as bytes. *)
From stdpp Require Import sorting.
From S2P Require Import Prelude Errors Sidecar HttpHeaders.
#[local] Open Scope Z_scope.

(** ** Query keys *)

Definition key_in (keys : list string) (key : list Z) : bool :=
  bool_decide (map to_ascii_lowercase key ∈ map bs keys).

Definition is_legacy_presigned_auth_key : list Z → bool :=
  key_in ["signature"; "awsaccesskeyid"; "ossaccesskeyid"; "googleaccessid"; "expires"].
Definition is_aws_v4_auth_key : list Z → bool :=
  key_in ["x-amz-algorithm"; "x-amz-credential"; "x-amz-date"; "x-amz-expires"; "x-amz-signedheaders";
          "x-amz-signature"; "x-amz-security-token"; "x-amz-region-set"].
Definition is_google_v4_auth_key : list Z → bool :=
  key_in ["x-goog-algorithm"; "x-goog-credential"; "x-goog-date"; "x-goog-expires"; "x-goog-signedheaders";
          "x-goog-signature"].
Definition is_oss_v4_auth_key : list Z → bool :=
  key_in ["x-oss-signature-version"; "x-oss-credential"; "x-oss-date"; "x-oss-expires";
          "x-oss-additional-headers"; "x-oss-signature"; "x-oss-security-token"].
Definition is_presigned_principal_key : list Z → bool :=
  key_in ["x-amz-credential"; "x-goog-credential"; "x-oss-credential"; "awsaccesskeyid"; "ossaccesskeyid";
          "googleaccessid"; "skoid"; "sktid"; "si"].
Definition is_azure_sas_auth_key : list Z → bool :=
  key_in ["sig"; "sv"; "ss"; "srt"; "sp"; "se"; "st"; "spr"; "sip"; "si"; "skoid"; "sktid"; "skt"; "ske";
          "sks"; "skv"; "sr"].

Definition has_ambiguous_raw_query_spelling (segment : list Z) : bool :=
  negb (bool_decide (61 ∈ segment)) || bool_decide (43 ∈ segment) || bool_decide (37 ∈ segment).

(** ** Length-prefixed fields *)

Definition to_be_bytes (n : Z) (z : Z) : list Z := reverse (to_le_bytes n z).
Arguments to_be_bytes : simpl never.

Definition identity_field (value : list Z) : list Z := to_be_bytes 8 (Z.of_nat (length value)) ++ value.
Arguments identity_field : simpl never.
Definition append_identity_field (output value : list Z) : list Z := output ++ identity_field value.

(** ** Parsed URLs *)

Record ParsedUrl := mkUrl {
  url_username : list Z;
  url_password : option (list Z);
  (** decoded key-value pairs *)
  url_pairs : list (list Z * list Z);
  url_query : list Z;
  (** the URL without user information, query and fragment, and with pairs appended *)
  url_base : list Z;
  url_with_pairs : list (list Z * list Z) → list Z;
}.

(** [str::split] at a character. *)
Fixpoint split_at (c : Z) (l : list Z) : list (list Z) :=
  match l with
  | [] => [[]]
  | b :: r =>
      if b =? c then [] :: split_at c r
      else match split_at c r with
           | s :: rest => (b :: s) :: rest
           | [] => [[b]]
           end
  end.

Definition has_key (pairs : list (list Z * list Z)) (wanted : string) : bool :=
  existsb (λ kv : list Z * list Z, eq_ignore_ascii_case kv.1 (bs wanted)) pairs.

Definition is_auth_key (pairs : list (list Z * list Z)) (key : list Z) : bool :=
  let aws_v4 := has_key pairs "X-Amz-Signature" in
  let google_v4 := has_key pairs "X-Goog-Signature" in
  let oss_v4 := has_key pairs "x-oss-signature" in
  let legacy := has_key pairs "Signature"
    && (has_key pairs "AWSAccessKeyId" || has_key pairs "OSSAccessKeyId" || has_key pairs "GoogleAccessId") in
  let azure_sas := has_key pairs "sig"
    && (has_key pairs "sv" || has_key pairs "se" || has_key pairs "sp" || has_key pairs "sr") in
  (aws_v4 && is_aws_v4_auth_key key) || (google_v4 && is_google_v4_auth_key key)
  || (oss_v4 && is_oss_v4_auth_key key) || (legacy && is_legacy_presigned_auth_key key)
  || (azure_sas && is_azure_sas_auth_key key).

(** The principals, in the order they are pushed. *)
Definition auth_context_of (u : ParsedUrl) : list (list Z * list Z) :=
  (match url_username u, url_password u with
   | _ :: _, _ => [(bs "url-username", url_username u)]
   | [], Some password => [(bs "url-password-without-username", password)]
   | [], None => []
   end)
  ++ map (λ kv : list Z * list Z, (bs "query:" ++ map to_ascii_lowercase kv.1, kv.2))
       (List.filter (λ kv : list Z * list Z, is_presigned_principal_key kv.1) (url_pairs u)).

Definition resource_of (u : ParsedUrl) : list Z :=
  let pairs := url_pairs u in
  let raw_query := url_query u in
  let raw_segments := match raw_query with [] => [] | _ => split_at 38 raw_query end in
  let query_segment_count_mismatch := negb (length raw_segments =? length pairs)%nat in
  let raw_semantic_segments :=
    if negb query_segment_count_mismatch then
      map fst (List.filter (λ rk : list Z * (list Z * list Z), negb (is_auth_key pairs rk.2.1))
                 (zip raw_segments pairs))
    else [raw_query] in
  let preserve_raw_semantics :=
    query_segment_count_mismatch || existsb has_ambiguous_raw_query_spelling raw_semantic_segments in
  let semantic_pairs := List.filter (λ kv : list Z * list Z, negb (is_auth_key pairs kv.1)) pairs in
  if preserve_raw_semantics then
    let resource := bs "rusty-cat/raw-semantic-query/v1" ++ [0] in
    let resource := append_identity_field resource (url_base u) in
    let resource := resource ++ to_be_bytes 8 (Z.of_nat (length raw_semantic_segments)) in
    foldl append_identity_field resource raw_semantic_segments
  else
    match semantic_pairs with
    | [] => url_base u
    | _ => url_with_pairs u semantic_pairs
    end.

(** ** The identity *)

(** Lexicographic order on pairs of byte strings, as [Vec::sort] uses it. *)
Fixpoint bytes_leb (a b : list Z) : bool :=
  match a, b with
  | [], _ => true
  | _ :: _, [] => false
  | x :: a, y :: b => if x =? y then bytes_leb a b else x <? y
  end.
Definition pair_leb (a b : list Z * list Z) : bool :=
  if bool_decide (a.1 = b.1) then bytes_leb a.2 b.2 else bytes_leb a.1 b.1.
Definition pair_le (a b : list Z * list Z) : Prop := pair_leb a b = true.
#[export] Instance pair_le_dec : RelDecision pair_le.
Proof. intros a b. unfold pair_le. apply _. Defined.
Definition sort_auth (l : list (list Z * list Z)) : list (list Z * list Z) := merge_sort pair_le l.

Definition hex_digit (d : Z) : Z := if d <? 10 then 48 + d else 87 + d.
Definition hex_byte (b : Z) : list Z := [hex_digit (b / 16); hex_digit (b mod 16)].

Section Identity.
Context (sha256 : list Z → list Z) (parse_url : list Z → option ParsedUrl).

(** What the digest is taken of. *)
Definition identity_preimage (resource validator resume_context : list Z) (auth : list (list Z * list Z)) : list Z :=
  bs "rusty-cat/download-identity/v2" ++ [0]
  ++ identity_field resource ++ identity_field validator ++ identity_field resume_context
  ++ concat (map (λ kv : list Z * list Z, identity_field kv.1 ++ identity_field kv.2) auth).

Definition identity_resource (url : list Z) : list Z :=
  match parse_url url with
  | Some u => resource_of u
  | None => match split_at 35 url with s :: _ => s | [] => url end
  end.
Definition identity_auth (url : list Z) : list (list Z * list Z) :=
  match parse_url url with Some u => sort_auth (auth_context_of u) | None => [] end.

Definition download_identity (url validator resume_context : list Z) : list Z :=
  bs "download-identity-v2-sha256="
  ++ concat (map hex_byte (sha256 (identity_preimage (identity_resource url) validator resume_context (identity_auth url)))).

(** ** Injectivity *)

Definition field_ok (l : list Z) : Prop := Z.of_nat (length l) < 2 ^ 64.

Lemma identity_field_inj a b r r' :
  field_ok a → field_ok b → identity_field a ++ r = identity_field b ++ r' → a = b ∧ r = r'.
Proof.
  unfold identity_field, field_ok, to_be_bytes. intros Ha Hb H. rewrite <- !(assoc_L (++)) in H.
  apply app_inj_1 in H as [H1 H2]; [|rewrite !length_reverse, !length_to_le_bytes; lia].
  apply (f_equal reverse) in H1. rewrite !reverse_involutive in H1.
  apply (f_equal from_le_bytes) in H1. rewrite !le_value in H1 by lia.
  apply app_inj_1 in H2; [done|lia].
Qed.

Lemma length_identity_field l : length (identity_field l) = (8 + length l)%nat.
Proof.
  unfold identity_field, to_be_bytes. rewrite length_app, length_reverse, length_to_le_bytes by lia. lia.
Qed.

Lemma auth_fields_inj l l' :
  Forall (λ kv, field_ok kv.1 ∧ field_ok kv.2) l → Forall (λ kv, field_ok kv.1 ∧ field_ok kv.2) l' →
  concat (map (λ kv : list Z * list Z, identity_field kv.1 ++ identity_field kv.2) l)
  = concat (map (λ kv : list Z * list Z, identity_field kv.1 ++ identity_field kv.2) l') → l = l'.
Proof.
  intros Hl. revert l'. induction Hl as [|[k v] l [Hk Hv] Hl IH]; intros [|[k' v'] l'] Hl' H; cbn [map concat fst snd] in *.
  - done.
  - apply (f_equal length) in H. rewrite !length_app, !length_identity_field in H. simpl in H. lia.
  - apply (f_equal length) in H. rewrite !length_app, !length_identity_field in H. simpl in H. lia.
  - apply Forall_cons in Hl' as [[Hk' Hv'] Hl']. cbn [fst snd] in *. rewrite <- !(assoc_L (++)) in H.
    apply identity_field_inj in H as [-> H]; [|done..]. apply identity_field_inj in H as [-> H]; [|done..].
    by rewrite (IH l' Hl' H).
Qed.

Lemma preimage_inj r v c a r' v' c' a' :
  field_ok r → field_ok v → field_ok c → Forall (λ kv, field_ok kv.1 ∧ field_ok kv.2) a →
  field_ok r' → field_ok v' → field_ok c' → Forall (λ kv, field_ok kv.1 ∧ field_ok kv.2) a' →
  identity_preimage r v c a = identity_preimage r' v' c' a' → r = r' ∧ v = v' ∧ c = c' ∧ a = a'.
Proof.
  intros ???????? H. unfold identity_preimage in H. apply app_inv_head in H. apply app_inv_head in H.
  apply identity_field_inj in H as [-> H]; [|done..]. apply identity_field_inj in H as [-> H]; [|done..].
  apply identity_field_inj in H as [-> H]; [|done..]. by apply auth_fields_inj in H as ->.
Qed.

Lemma hex_digit_inj x y : 0 ≤ x < 16 → 0 ≤ y < 16 → hex_digit x = hex_digit y → x = y.
Proof. intros Hx Hy. unfold hex_digit. destruct (x <? 10) eqn:E1, (y <? 10) eqn:E2; zbool; lia. Qed.

Lemma hex_inj l l' :
  Forall (λ b, 0 ≤ b < 256) l → Forall (λ b, 0 ≤ b < 256) l' →
  concat (map hex_byte l) = concat (map hex_byte l') → l = l'.
Proof.
  intros Hl. revert l'. induction Hl as [|x l Hx Hl IH]; intros [|y l'] Hl' H; simpl in *; try done.
  apply Forall_cons in Hl' as [Hy Hl']. injection H as H1 H2 H3.
  apply hex_digit_inj in H1; [|split; [apply Z.div_pos|apply Z.div_lt_upper_bound]; lia..].
  apply hex_digit_inj in H2; [|apply Z.mod_pos_bound; lia..].
  rewrite (Z.div_mod x 16), (Z.div_mod y 16), H1, H2 by lia. by rewrite (IH l' Hl' H3).
Qed.

Definition url_ok (url : list Z) : Prop :=
  field_ok (identity_resource url) ∧ Forall (λ kv, field_ok kv.1 ∧ field_ok kv.2) (identity_auth url).

Hypothesis sha256_bytes : ∀ x, Forall (λ b, 0 ≤ b < 256) (sha256 x).

(** C28: a checkpoint identity stands for one generation of one resource: two downloads have the
    same identity only if they agree on the resource, the strong validator, the protocol context
    and the principals, or SHA-256 has a collision. So a checkpoint written for another
    generation is never taken for this one. *)
Theorem identity_binds_generation url v c url' v' c' :
  url_ok url → field_ok v → field_ok c → url_ok url' → field_ok v' → field_ok c' →
  download_identity url v c = download_identity url' v' c' →
  (identity_resource url = identity_resource url' ∧ v = v' ∧ c = c' ∧ identity_auth url = identity_auth url')
  ∨ ∃ x y, x ≠ y ∧ sha256 x = sha256 y.
Proof.
  intros [Hr Ha] Hv Hc [Hr' Ha'] Hv' Hc' H. unfold download_identity in H.
  apply app_inv_head in H. apply hex_inj in H; [|apply sha256_bytes..].
  destruct (decide (identity_preimage (identity_resource url) v c (identity_auth url)
    = identity_preimage (identity_resource url') v' c' (identity_auth url'))) as [Heq|Hne].
  - left. by apply preimage_inj in Heq.
  - right. eauto.
Qed.

End Identity.

Lemma identity_binds_generation_witness :
  let sha x := [Z.of_nat (length x) mod 256; foldr Z.add 0 x mod 256] in
  let parse u := Some (mkUrl [] None [(bs "X-Amz-Signature", u); (bs "id", bs "7")] (bs "X-Amz-Signature=s&id=7") (bs "http://h/f")
                   (λ ps, bs "http://h/f?" ++ concat (map (λ kv : list Z * list Z, kv.1 ++ [61] ++ kv.2) ps))) in
  download_identity sha parse (bs "a") (bs "v") (bs "c") = download_identity sha parse (bs "b") (bs "v") (bs "c")
  ∧ (identity_resource parse (bs "a") = identity_resource parse (bs "b") ∨ ∃ x y, x ≠ y ∧ sha x = sha y).
Proof.
  intros sha parse.
  assert (download_identity sha parse (bs "a") (bs "v") (bs "c") = download_identity sha parse (bs "b") (bs "v") (bs "c")) as H
    by (vm_compute; reflexivity).
  split; [exact H|].
  destruct (identity_binds_generation sha parse) with (url := bs "a") (v := bs "v") (c := bs "c")
    (url' := bs "b") (v' := bs "v") (c' := bs "c") as [(Hr & _)|Hc].
  - intros x. unfold sha. constructor; [apply Z.mod_pos_bound; lia|]. constructor; [apply Z.mod_pos_bound; lia|constructor].
  - split; [apply Z.ltb_lt; vm_compute; reflexivity|].
    replace (identity_auth parse (bs "a")) with (@nil (list Z * list Z)) by (vm_compute; reflexivity). constructor.
  - apply Z.ltb_lt. vm_compute. reflexivity.
  - apply Z.ltb_lt. vm_compute. reflexivity.
  - split; [apply Z.ltb_lt; vm_compute; reflexivity|].
    replace (identity_auth parse (bs "b")) with (@nil (list Z * list Z)) by (vm_compute; reflexivity). constructor.
  - apply Z.ltb_lt. vm_compute. reflexivity.
  - apply Z.ltb_lt. vm_compute. reflexivity.
  - exact H.
  - left. exact Hr.
  - right. exact Hc.
Defined.
