(* ===== verification/DownloadTask.v ===== *)
(** * Download state of a task

    The operations of [src/transfer_task.rs] on the shared state of a download: the checkpoint,
    the locked target handle and the path lease. A task clone shares all of it, so an operation
    is a function on one [DlTask]; the checkpoint barrier makes each of them atomic with respect
    to the others. The outcome of every file operation is an input ([IoEnv]); poisoned locks and
    failures of the blocking pool are left out. *)
From S2P Require Import Prelude Errors Sidecar Checkpoint CheckpointProps CheckpointCrash.
#[local] Open Scope Z_scope.

(** ** State *)

(** The files of a download: as visible, and as a crash would leave them. *)
Record Files := mkFiles {
  f_target : list Z;
  f_sidecar : option (list Z);
  f_owned : bool;
  f_dur_target : list Z;
  f_dur_sidecar : option (list Z);
}.

Record DlTask := mkDl {
  dl_progress : option DownloadProgress;
  (** the slot of the locked target handle is filled *)
  dl_locked : bool;
  dl_lease : bool;
  dl_files : Files;
}.

Definition set_progress (p : option DownloadProgress) (t : DlTask) : DlTask :=
  mkDl p (dl_locked t) (dl_lease t) (dl_files t).
Definition set_files (f : Files) (t : DlTask) : DlTask := mkDl (dl_progress t) (dl_locked t) (dl_lease t) f.
Definition set_target (c : list Z) (f : Files) : Files :=
  mkFiles c (f_sidecar f) (f_owned f) (f_dur_target f) (f_dur_sidecar f).
Definition sync_target (f : Files) : Files :=
  mkFiles (f_target f) (f_sidecar f) (f_owned f) (f_target f) (f_dur_sidecar f).
Definition disk_of (f : Files) : Disk := mkDisk (Some (f_target f)) (f_sidecar f) (f_owned f).
Definition set_sidecar (d : Disk) (dur : option (list Z)) (f : Files) : Files :=
  mkFiles (f_target f) (sidecar_file d) (namespace_owned d) (f_dur_target f) dur.

(** What the file system answers during one call. *)
Record IoEnv := mkIo {
  e_now : Z;
  e_stat : option IoError;
  e_seek : option IoError;
  (** the write fails after that many bytes *)
  e_write : option (nat * IoError);
  e_flush : option IoError;
  e_set_len : option IoError;
  e_sync : option IoError;
  e_fault : PersistFault;
  e_delete : option IoError;
  e_release_sync : option IoError;
  e_unlock : option IoError;
}.

Definition io_ok (now : Z) : IoEnv := mkIo now None None None None None None NoFault None None None.

Section DownloadTask.
Context (W : Z) (sha256 : list Z → list Z) (platform : Platform).

Definition invalid_task_state (m : string) : MeowError := from_code InvalidTaskState m.

(** A file operation that may fail, with the message of [MeowError::from_io]. *)
Definition io_step {A} (o : option IoError) (m : string) (k : A) (err : MeowError → A) : A :=
  match o with Some e => err (from_io platform m e) | None => k end.

(** ** Checkpoints *)

Definition checkpoint_locked_download_target (env : IoEnv) (t : DlTask) : DlTask * result unit MeowError :=
  match dl_progress t with
  | None => (t, Ok tt)
  | Some p =>
      let '(p, due) := begin_external_checkpoint p in
      let t := set_progress (Some p) t in
      if negb due then (t, Ok tt)
      else if negb (dl_locked t) then
        (t, Err (invalid_task_state "locked download target missing during checkpoint"))
      else
        io_step (e_sync env) "sync download checkpoint data failed"
          (let t := set_files (sync_target (dl_files t)) t in
           let '(p', d, r) :=
             commit_checkpoint_after_data_sync W (e_now env) (e_fault env) p (disk_of (dl_files t)) in
           let dur := durable_after p r (sidecar_file d) (f_dur_sidecar (dl_files t)) in
           (set_files (set_sidecar d dur (dl_files t)) (set_progress (Some p') t),
            match r with Ok _ => Ok tt | Err e => Err (from_io platform "commit .rcdl checkpoint failed" e) end))
          (λ e, (t, Err e))
  end.

Definition force_download_checkpoint := checkpoint_locked_download_target.

(** The result also says whether the caller arms the checkpoint timer. *)
Definition stage_download_part_digest_locked (env : IoEnv) (offset : Z) (digest : list Z) (t : DlTask)
    : DlTask * result bool MeowError :=
  match dl_progress t with
  | None => (t, Err (invalid_task_state "download checkpoint state missing"))
  | Some p =>
      let '(p, r) := stage_done_with_digest_deferred W (e_now env) offset digest p in
      let t := set_progress (Some p) t in
      match r with
      | Err e => (t, Err (from_io platform "stage .rcdl checkpoint failed" e))
      | Ok outcome =>
          if checkpoint_due outcome then
            let '(t, r) := checkpoint_locked_download_target env t in
            (t, match r with Ok _ => Ok false | Err e => Err e end)
          else (t, Ok (arm_timer outcome))
      end
  end.

(** The one-shot timer: a stale wake-up does nothing, an error is only logged. *)
Definition checkpoint_timer_fired (env : IoEnv) (t : DlTask) : DlTask :=
  match dl_progress t with
  | None => t
  | Some p =>
      let '(p, due) := begin_timer_checkpoint p in
      let t := set_progress (Some p) t in
      if negb due || negb (dl_locked t) then t
      else
        match e_sync env with
        | Some _ => t
        | None =>
            let t := set_files (sync_target (dl_files t)) t in
            let '(p', d, r) :=
              commit_checkpoint_after_data_sync W (e_now env) (e_fault env) p (disk_of (dl_files t)) in
            let dur := durable_after p r (sidecar_file d) (f_dur_sidecar (dl_files t)) in
            set_files (set_sidecar d dur (dl_files t)) (set_progress (Some p') t)
        end
  end.

(** ** Writing parts *)

Definition local_file_removed (m : string) : MeowError := from_code LocalFileRemoved m.

Definition write_and_stage_download_part (env : IoEnv) (offset : Z) (body digest : list Z) (t : DlTask)
    : DlTask * result bool MeowError :=
  match checked_add U64_MAX offset (Z.of_nat (length body)) with
  | None => (t, Err (from_code_str InvalidRange "parallel download part end overflow"))
  | Some part_end =>
      if negb (dl_locked t) then
        (t, Err (invalid_task_state "locked download target missing during positioned write"))
      else
        io_step (e_stat env) "stat locked download target failed"
          (let file_len := Z.of_nat (length (f_target (dl_files t))) in
           if file_len <? part_end then
             (t, Err (local_file_removed ("download target was truncated before positioned write: len="
                   +:+ pretty file_len +:+ " need>=" +:+ pretty part_end)))
           else
             io_step (e_seek env) ("seek locked download target failed: offset=" +:+ pretty offset)
               (let a := Z.to_nat offset in
                match e_write env with
                | Some (n, e) =>
                    let t := set_files (set_target (overwrite (f_target (dl_files t)) a (take n body)) (dl_files t)) t in
                    (t, Err (from_io platform ("write locked download target failed: offset=" +:+ pretty offset) e))
                | None =>
                    let t := set_files (set_target (overwrite (f_target (dl_files t)) a body) (dl_files t)) t in
                    io_step (e_flush env) ("flush locked download target failed: offset=" +:+ pretty offset)
                      (stage_download_part_digest_locked env offset digest t) (λ e, (t, Err e))
                end)
               (λ e, (t, Err e)))
          (λ e, (t, Err e))
  end.

Definition stage_serial_download_part := stage_download_part_digest_locked.

(** ** Serial layout *)

Definition retain_serial_download_contiguous_progress (env : IoEnv) (t : DlTask)
    : DlTask * result Z MeowError :=
  match dl_progress t with
  | None => (t, Err (invalid_task_state "download checkpoint state missing during serial compaction"))
  | Some p =>
      let watermark := contiguous_watermark p in
      if negb (dl_locked t) then
        (t, Err (invalid_task_state "locked download target missing during serial compaction"))
      else
        io_step (e_set_len env) "truncate serial download to verified prefix failed"
          (let t := set_files (set_target (resize (f_target (dl_files t)) (Z.to_nat watermark)) (dl_files t)) t in
           io_step (e_sync env) "sync serial verified prefix failed"
             (let t := set_files (sync_target (dl_files t)) t in
              let '(p', d, r) :=
                retain_contiguous_prefix_after_data_sync W (e_now env) (e_fault env) p (disk_of (dl_files t)) in
              let dur := match r with Ok _ => sidecar_file d | Err _ => f_dur_sidecar (dl_files t) end in
              let t := set_files (set_sidecar d dur (dl_files t)) (set_progress (Some p') t) in
              match r with
              | Err e => (t, Err (from_io platform "persist compacted serial checkpoint failed" e))
              | Ok persisted =>
                  if negb (persisted =? watermark) then
                    (t, Err (invalid_task_state
                      ("serial checkpoint watermark changed during compaction: expected="
                       +:+ pretty watermark +:+ " actual=" +:+ pretty persisted)))
                  else (t, Ok watermark)
              end)
             (λ e, (t, Err e)))
          (λ e, (t, Err e))
  end.

(** ** Finalization *)

Definition map_download_validation_error (e : IoError) : MeowError :=
  match io_kind e with
  | NotFound | UnexpectedEof =>
      from_source LocalFileRemoved "completed download disappeared or was truncated" e
  | InvalidData => from_source ChecksumMismatch "validate completed download content failed" e
  | _ => from_io platform "read completed download for validation failed" e
  end.

Definition take_download_progress_after_checkpoint (t : DlTask)
    : DlTask * result (option DownloadProgress) MeowError :=
  match dl_progress t with
  | None => (t, Ok None)
  | Some p =>
      match validate_committed_content sha256 p (disk_of (dl_files t)) with
      | Err e => (t, Err (map_download_validation_error e))
      | Ok _ => (set_progress None t, Ok (Some p))
      end
  end.

(** The body of [finalize_download_content], before the locks are released. *)
Definition finalization (env : IoEnv) (expected_total : Z) (t : DlTask) : DlTask * result unit MeowError :=
  let '(t, r) := checkpoint_locked_download_target env t in
  match r with
  | Err e => (t, Err e)
  | Ok _ =>
      io_step (e_stat env) "stat completed download failed"
        (let visible_len := Z.of_nat (length (f_target (dl_files t))) in
         if negb (visible_len =? expected_total) then
           (t, Err (local_file_removed ("download length changed before complete: expected="
                 +:+ pretty expected_total +:+ " actual=" +:+ pretty visible_len)))
         else
           let '(t, r) := take_download_progress_after_checkpoint t in
           match r with
           | Err e => (t, Err e)
           | Ok None => (t, Err (invalid_task_state "download progress missing during final validation"))
           | Ok (Some p) =>
               if negb (dp_total p =? expected_total) then
                 (t, Err (from_code InvalidRange ("download progress total mismatch: expected="
                       +:+ pretty expected_total +:+ " progress=" +:+ pretty (dp_total p))))
               else if negb (all_done p) then
                 (t, Err (from_code_str InvalidRange "download complete called before all parts recorded done"))
               else
                 let f := dl_files t in
                 let t := match e_delete env with
                          | Some _ => t
                          | None => set_files (set_sidecar (delete_sidecar (disk_of f))
                                      (f_dur_sidecar f) f) t
                          end in
                 (t, Ok tt)
           end)
        (λ e, (t, Err e))
  end.

(** Closing the handle empties the slot even when the final sync or unlock fails. *)
Definition release_download_target_file_lock (env : IoEnv) (t : DlTask) : DlTask * result unit MeowError :=
  if negb (dl_locked t) then (t, Ok tt)
  else
    let t := mkDl (dl_progress t) false (dl_lease t) (dl_files t) in
    io_step (e_release_sync env) "sync locked download target failed"
      (io_step (e_unlock env) "unlock download target failed"
        (set_files (sync_target (dl_files t)) t, Ok tt)
        (λ e, (set_files (sync_target (dl_files t)) t, Err e)))
      (λ e, (t, Err e)).

Definition release_download_target_lease (t : DlTask) : DlTask :=
  mkDl (dl_progress t) (dl_locked t) false (dl_files t).

Definition finalize_download_content (env : IoEnv) (expected_total : Z) (t : DlTask)
    : DlTask * result unit MeowError :=
  let '(t, fin) := finalization env expected_total t in
  let '(t, file_release) := release_download_target_file_lock env t in
  let t := release_download_target_lease t in
  (t, match fin, file_release with
      | Err e, _ => Err e
      | Ok _, Err e => Err e
      | Ok _, Ok _ => Ok tt
      end).

(** ** Refinement of the checkpoint protocol *)

(** The checkpoint state of a task between its operations. *)
Definition ck_of (p : DownloadProgress) (ph : CkPhase) (f : Files) : CkState :=
  mkCk p (f_target f) (f_sidecar f) (f_owned f) (f_dur_target f) (f_dur_sidecar f) ph.

Context (remote : list Z) (chunk : Z) (identity : list Z).
#[local] Abbreviation steps := (rtc (ck_step W sha256 remote chunk identity)).

(** [t'] is reached from [t] by steps of the checkpoint protocol. *)
Definition ck_refines (t t' : DlTask) : Prop :=
  ∀ p, dl_progress t = Some p →
    ∃ p', dl_progress t' = Some p' ∧ steps (ck_of p CkIdle (dl_files t)) (ck_of p' CkIdle (dl_files t')).

Lemma ck_refines_refl t : ck_refines t t.
Proof. intros p Hp. by exists p. Qed.

Lemma ck_refines_trans t1 t2 t3 : ck_refines t1 t2 → ck_refines t2 t3 → ck_refines t1 t3.
Proof.
  intros H1 H2 p Hp. destruct (H1 p Hp) as (p2 & Hp2 & Hs1). destruct (H2 p2 Hp2) as (p3 & Hp3 & Hs2).
  exists p3. split; [done|]. by etrans.
Qed.

(** From a begun checkpoint: sync, then commit. *)
Lemma sync_commit_steps now fault p f p' d r :
  commit_checkpoint_after_data_sync W now fault p (disk_of (sync_target f)) = (p', d, r) →
  steps (ck_of p CkBegun f)
    (ck_of p' CkIdle (set_sidecar d (durable_after p r (sidecar_file d) (f_dur_sidecar (sync_target f))) (sync_target f))).
Proof.
  intros H. eapply rtc_l; [by apply ck_sync|]. apply rtc_once.
  eapply (ck_commit _ _ _ _ _ now fault p' d r (ck_of p CkSynced (sync_target f))); [done|]. exact H.
Qed.

Lemma checkpoint_refines env t : ck_refines t (fst (checkpoint_locked_download_target env t)).
Proof.
  intros p Hp. unfold checkpoint_locked_download_target. rewrite Hp.
  destruct (begin_external_checkpoint p) as [p1 due] eqn:Hb.
  assert (steps (ck_of p CkIdle (dl_files t)) (ck_of p1 (if due then CkBegun else CkIdle) (dl_files t))) as H1.
  { apply rtc_once. by apply (ck_begin _ _ _ _ _ p1 due (ck_of p CkIdle (dl_files t))). }
  assert (steps (ck_of p1 CkBegun (dl_files t)) (ck_of p1 CkIdle (dl_files t))) as H2.
  { apply rtc_once. by apply (ck_sync_failed _ _ _ _ _ (ck_of p1 CkBegun (dl_files t))). }
  destruct due; simpl; [|by exists p1]. destruct (dl_locked t); simpl.
  2:{ exists p1. split; [done|]. by etrans. }
  unfold io_step. destruct (e_sync env); simpl.
  { exists p1. split; [done|]. by etrans. }
  destruct (commit_checkpoint_after_data_sync _ _ _ _ _) as [[p2 d] r] eqn:Hc. simpl.
  exists p2. split; [done|]. etrans; [exact H1|]. by apply (sync_commit_steps (e_now env) (e_fault env)).
Qed.

Lemma timer_refines env t : ck_refines t (checkpoint_timer_fired env t).
Proof.
  intros p Hp. unfold checkpoint_timer_fired. rewrite Hp.
  destruct (begin_timer_checkpoint p) as [p1 due] eqn:Hb.
  assert (steps (ck_of p CkIdle (dl_files t)) (ck_of p1 (if due then CkBegun else CkIdle) (dl_files t))) as H1.
  { apply rtc_once. by apply (ck_begin_timer _ _ _ _ _ p1 due (ck_of p CkIdle (dl_files t))). }
  assert (steps (ck_of p1 CkBegun (dl_files t)) (ck_of p1 CkIdle (dl_files t))) as H2.
  { apply rtc_once. by apply (ck_sync_failed _ _ _ _ _ (ck_of p1 CkBegun (dl_files t))). }
  destruct due; simpl; [|by exists p1]. destruct (dl_locked t); simpl.
  2:{ exists p1. split; [done|]. by etrans. }
  destruct (e_sync env); simpl.
  { exists p1. split; [done|]. by etrans. }
  destruct (commit_checkpoint_after_data_sync _ _ _ _ _) as [[p2 d] r] eqn:Hc. simpl.
  exists p2. split; [done|]. etrans; [exact H1|]. by apply (sync_commit_steps (e_now env) (e_fault env)).
Qed.

(** Staging a part whose bytes are in the file, with the checkpoint it may trigger. *)
Lemma stage_refines env t p i :
  dl_progress t = Some p → (i < dp_part_count p)%nat →
  part_bytes p i (f_target (dl_files t)) = part_bytes p i remote →
  ck_refines t (fst (stage_download_part_digest_locked env (part_offset p i) (sha256 (part_bytes p i remote)) t)).
Proof.
  intros Hp Hi Hin q Hq. assert (q = p) as -> by congruence. unfold stage_download_part_digest_locked. rewrite Hp.
  pose proof (ck_stage W sha256 remote chunk identity (e_now env) i (ck_of p CkIdle (dl_files t)) eq_refl Hi Hin) as H1.
  cbn [ck_of ck_prog ck_with_prog ck_target ck_sidecar ck_owned ck_dur_target ck_dur_sidecar] in H1.
  destruct (stage_done_with_digest_deferred _ _ _ _ _) as [p1 r]. cbn [fst] in H1.
  set (t1 := set_progress (Some p1) t).
  assert (∀ t2, ck_refines t1 t2 →
    ∃ p', dl_progress t2 = Some p' ∧ steps (ck_of p CkIdle (dl_files t)) (ck_of p' CkIdle (dl_files t2))) as Hend.
  { intros t2 H2. destruct (H2 p1 eq_refl) as (p2 & Hp2 & Hs). exists p2. split; [done|].
    eapply rtc_l; [exact H1|exact Hs]. }
  destruct r as [o|e]; [|apply Hend, ck_refines_refl].
  destruct (checkpoint_due o); [|apply Hend, ck_refines_refl].
  apply Hend. pose proof (checkpoint_refines env t1) as H2.
  by destruct (checkpoint_locked_download_target env t1).
Qed.

(** A positioned write of bytes of the remote. *)
Lemma write_refines t p a n :
  dl_progress t = Some p → (a + n ≤ length remote)%nat →
  ck_refines t (set_files (set_target (overwrite (f_target (dl_files t)) a (take n (drop a remote))) (dl_files t)) t).
Proof.
  intros Hp Hn q Hq. exists q. split; [done|]. apply rtc_once.
  exact (ck_write W sha256 remote chunk identity a n (ck_of q CkIdle (dl_files t)) Hn).
Qed.

Hypothesis HW : 32 ≤ W.
Hypothesis sha256_len : ∀ bs, length (sha256 bs) = PART_DIGEST_LEN.
#[local] Abbreviation total := (Z.of_nat (length remote)).
Hypothesis total_fits : fits U64_MAX total.
Hypothesis chunk_fits : fits U64_MAX chunk.
#[local] Abbreviation inv p f := (ck_inv W sha256 remote chunk identity (ck_of p CkIdle f)).

(** A task whose checkpoint state satisfies the invariant of the protocol. *)
Definition task_inv (t : DlTask) : Prop := ∃ p, dl_progress t = Some p ∧ inv p (dl_files t).

Lemma refines_inv t t' : ck_refines t t' → task_inv t → task_inv t'.
Proof.
  intros Hr (p & Hp & Hi). destruct (Hr p Hp) as (p' & Hp' & Hs). exists p'. split; [done|].
  by apply (ck_steps_inv W sha256 remote chunk identity HW sha256_len total_fits chunk_fits (ck_of p CkIdle (dl_files t))).
Qed.

Lemma write_and_stage_refines env t p i :
  dl_progress t = Some p → inv p (dl_files t) → (i < dp_part_count p)%nat →
  ck_refines t (fst (write_and_stage_download_part env (part_offset p i) (part_bytes p i remote)
    (sha256 (part_bytes p i remote)) t)).
Proof.
  intros Hp Hinv Hi. pose proof (ci_grid _ _ _ _ _ _ Hinv) as Hg. simpl in Hg.
  pose proof (part_bounds W HW p i Hg Hi) as (Ho & He & Hmax).
  pose proof (ci_total _ _ _ _ _ _ Hinv) as Ht. simpl in Ht.
  pose proof (ci_target _ _ _ _ _ _ Hinv) as Hl. simpl in Hl.
  assert (Z.of_nat (length (part_bytes p i remote)) = part_len p i) as Hlen
    by (apply (length_part_bytes W HW); [done..|lia]).
  unfold write_and_stage_download_part. rewrite Hlen.
  rewrite (proj2 (checked_add_Some _ _ _ _)) by (split; [reflexivity|unfold part_len; lia]).
  destruct (dl_locked t); [|apply ck_refines_refl]. cbn [negb]. unfold io_step.
  destruct (e_stat env); [apply ck_refines_refl|].
  rewrite Hl, (proj2 (Z.ltb_ge _ _)) by (unfold part_len; lia).
  destruct (e_seek env); [apply ck_refines_refl|].
  set (a := Z.to_nat (part_offset p i)). set (n := Z.to_nat (part_len p i)).
  assert (a + n ≤ length remote)%nat as Han by (unfold a, n, part_len; lia).
  destruct (e_write env) as [[k e]|].
  { cbn [fst]. unfold part_bytes, file_range. fold a n. rewrite take_take.
    apply (write_refines t p); [done|lia]. }
  set (t1 := set_files _ t). assert (ck_refines t t1) as H1.
  { apply (write_refines t p a n); done. }
  destruct (e_flush env); [done|]. eapply ck_refines_trans; [exact H1|].
  apply stage_refines; [done..|]. simpl.
  change (part_in remote p (overwrite (f_target (dl_files t)) a (part_bytes p i remote)) i).
  apply (part_in_lookup W remote HW); [done..|]. intros j Hj.
  rewrite overwrite_lookup by lia.
  destruct (decide _) as [Hd|Hd]; [|unfold a, part_len in *; lia].
  unfold part_bytes. rewrite file_range_lookup by (unfold part_len; lia).
  rewrite decide_True by lia. f_equal. unfold a. lia.
Qed.

(** A checkpoint with nothing failing leaves every staged part done. *)
Lemma checkpoint_commits now t p :
  dl_progress t = Some p → inv p (dl_files t) → dl_locked t = true →
  ∃ p' f', checkpoint_locked_download_target (io_ok now) t = (mkDl (Some p') true (dl_lease t) f', Ok tt)
    ∧ ∀ i, has p' i ↔ has p i ∨ bit_is_set (dp_pending_bits p) i = true.
Proof.
  intros Hp Hi Hl. unfold checkpoint_locked_download_target. rewrite Hp.
  destruct (begin_external_checkpoint p) as [p1 due] eqn:Hb. unfold begin_external_checkpoint in Hb.
  assert (∀ ph, ph ≠ CkSynced → ck_inv W sha256 remote chunk identity (ck_of p1 ph (dl_files t))) as Hi1.
  { intros ph Hph. assert (p1 = set_timer false p) as -> by congruence.
    apply (ck_timer_inv W sha256 remote chunk identity (ck_of p CkIdle (dl_files t))); done. }
  destruct due.
  - simpl. rewrite Hl. simpl.
    destruct (commit_checkpoint_after_data_sync _ _ _ _ _) as [[p2 d] r] eqn:Hc.
    destruct (commit_outcome W sha256 remote chunk identity HW sha256_len total_fits chunk_fits (ck_of p1 CkSynced (sync_target (dl_files t)))
      now NoFault p2 d r) as (H1 & H2 & _); [|done|exact Hc|].
    { apply (ck_step_inv W sha256 remote chunk identity HW sha256_len total_fits chunk_fits (ck_of p1 CkBegun (dl_files t)));
        [by apply Hi1|]. by apply ck_sync. }
    rewrite H1 by done. destruct (H2 (H1 eq_refl)) as (_ & H3 & _).
    eexists _, _. split; [by unfold set_files, set_progress; simpl; rewrite ?Hl|].
    intros i. rewrite H3. simpl. by simplify_eq.
  - exists p1, (dl_files t). split.
    { simpl. unfold set_progress. by rewrite Hl. }
    intros i. assert (p1 = set_timer false p) as -> by congruence.
    assert (dp_pending p = []) as Hpe by (simpl in Hb; by destruct (dp_pending p)).
    pose proof (ci_staged _ _ _ _ _ _ Hi i) as Hst. simpl in Hst. rewrite Hst, Hpe. set_solver.
Qed.

(** What [finalization] accepted. *)
Lemma finalization_Ok env expected t t' :
  task_inv t → finalization env expected t = (t', Ok tt) →
  f_target (dl_files t') = remote ∧ f_dur_target (dl_files t') = remote ∧ expected = total
  ∧ dl_progress t' = None.
Proof.
  intros Hi H. unfold finalization in H. pose proof (checkpoint_refines env t) as Href.
  destruct (checkpoint_locked_download_target env t) as [t1 [[]|]]; [|done].
  destruct (refines_inv t t1 Href Hi) as (p & Hp & Hinv). unfold io_step in H.
  destruct (e_stat env); [done|].
  destruct (negb _); [done|]. unfold take_download_progress_after_checkpoint in H. rewrite Hp in H.
  destruct (validate_committed_content _ _ _); [|done].
  destruct (_ =? _) eqn:Et; [|done]. cbn [negb] in H. apply Z.eqb_eq in Et.
  destruct (all_done p) eqn:Hall; [|done]. cbn [negb] in H. injection H as <-.
  destruct (all_done_remote W sha256 remote chunk identity HW (ck_of p CkIdle (dl_files t1)) Hinv Hall) as (H1 & H2 & _).
  pose proof (ci_total _ _ _ _ _ _ Hinv) as H3. simpl in H1, H2, H3.
  split_and!; [| |congruence|]; by destruct (e_delete env).
Qed.

(** Nothing failing, a download whose parts are all done or staged is accepted. *)
Lemma finalization_accepts now t p :
  dl_progress t = Some p → inv p (dl_files t) → dl_locked t = true →
  (∀ i, (i < dp_part_count p)%nat → has p i ∨ bit_is_set (dp_pending_bits p) i = true) →
  ∃ t', finalization (io_ok now) total t = (t', Ok tt).
Proof.
  intros Hp Hi Hl Hall. unfold finalization.
  destruct (checkpoint_commits now t p Hp Hi Hl) as (p' & f' & Hc & Hh).
  pose proof (checkpoint_refines (io_ok now) t p Hp) as Href. rewrite Hc in Href |- *.
  destruct Href as (q & [= <-] & Hs). cbn [fst dl_files] in Hs.
  pose proof (ck_steps_inv W sha256 remote chunk identity HW sha256_len total_fits chunk_fits _ _ Hi Hs) as Hinv.
  destruct (same_download W p p') as (Hn & _); try apply Hi; try apply Hinv.
  { pose proof (ci_total _ _ _ _ _ _ Hinv) as E1. pose proof (ci_total _ _ _ _ _ _ Hi) as E2. simpl in *. congruence. }
  { pose proof (ci_chunk _ _ _ _ _ _ Hinv) as E1. pose proof (ci_chunk _ _ _ _ _ _ Hi) as E2. simpl in *. congruence. }
  assert (all_done p' = true) as Hd.
  { apply forallb_forall. intros i Hin%in_seq. apply Hh, Hall. lia. }
  destruct (all_done_remote W sha256 remote chunk identity HW (ck_of p' CkIdle f') Hinv Hd) as (H1 & _ & H3).
  pose proof (ci_total _ _ _ _ _ _ Hinv) as Ht. simpl in H1, H3, Ht.
  unfold io_step. simpl e_stat. cbv iota. simpl dl_files. rewrite H1, Z.eqb_refl. cbn [negb].
  unfold take_download_progress_after_checkpoint. simpl dl_progress.
  change (validate_committed_content sha256 p' (disk_of f') = Ok tt) in H3. cbn [dl_files]. rewrite H3.
  cbv iota. rewrite Ht, Z.eqb_refl, Hd. simpl. by eexists.
Qed.

(** Releasing the lock empties the slot; it can only fail when syncing or unlocking does. *)
Lemma release_lock_spec env t t' r :
  release_download_target_file_lock env t = (t', r) →
  dl_locked t' = false ∧ dl_progress t' = dl_progress t ∧ f_target (dl_files t') = f_target (dl_files t)
  ∧ (f_dur_target (dl_files t') = f_target (dl_files t) ∨ f_dur_target (dl_files t') = f_dur_target (dl_files t))
  ∧ (r = Ok tt ∨ is_Some (e_release_sync env) ∨ is_Some (e_unlock env)).
Proof.
  unfold release_download_target_file_lock, io_step.
  destruct (dl_locked t) eqn:El; simpl; [|intros [= <- <-]; by auto 10].
  destruct (e_release_sync env), (e_unlock env); intros [= <- <-]; simpl; split_and!; eauto.
Qed.

(** What a successful finalization means, for any task of the protocol. *)
Lemma finalize_Ok env expected t t' :
  task_inv t → finalize_download_content env expected t = (t', Ok tt) →
  f_target (dl_files t') = remote ∧ f_dur_target (dl_files t') = remote ∧ expected = total.
Proof.
  intros Hi H. unfold finalize_download_content in H.
  destruct (finalization env expected t) as [t1 fin] eqn:Hf.
  destruct (release_download_target_file_lock env t1) as [t2 rel] eqn:Hrel.
  destruct (release_lock_spec env t1 t2 rel Hrel) as (_ & _ & R3 & R4 & _).
  destruct fin as [[]|]; [|done]. injection H as <- _.
  destruct (finalization_Ok env expected t t1 Hi Hf) as (H1 & H2 & H3 & _). simpl.
  rewrite R3. split_and!; [done| |done]. by destruct R4 as [->| ->].
Qed.

(** Finalization of a download: whatever fails, the target lock and the path lease are
    released; it succeeds only when the target file is exactly the remote's content, on stable
    storage too, and the checkpoint is retired; and it does succeed, when no file operation
    fails, on a download all of whose parts were done or staged. *)
Theorem finalize_validates_and_releases s0 env expected t p t' r :
  ck_init W sha256 remote chunk identity s0 → dl_progress t = Some p →
  steps s0 (ck_of p CkIdle (dl_files t)) →
  finalize_download_content env expected t = (t', r) →
  dl_locked t' = false ∧ dl_lease t' = false
  ∧ (r = Ok tt → f_target (dl_files t') = remote ∧ f_dur_target (dl_files t') = remote
       ∧ expected = total ∧ dl_progress t' = None)
  ∧ (env = io_ok (e_now env) → expected = total → dl_locked t = true →
     (∀ i, (i < dp_part_count p)%nat → has p i ∨ bit_is_set (dp_pending_bits p) i = true) → r = Ok tt).
Proof.
  intros H0 Hp Hs H.
  pose proof (ck_reachable_inv W sha256 remote chunk identity HW sha256_len total_fits chunk_fits _ _ H0 Hs) as Hinv.
  unfold finalize_download_content in H.
  pose proof (finalization_Ok env expected t) as HOk. pose proof (finalization_accepts (e_now env) t p Hp Hinv) as Hacc.
  destruct (finalization env expected t) as [t1 fin] eqn:Hf.
  destruct (release_download_target_file_lock env t1) as [t2 rel] eqn:Hrel.
  destruct (release_lock_spec env t1 t2 rel Hrel) as (R1 & R2 & R3 & R4 & R5).
  injection H as <- <-. simpl. split_and!; [done|done| |].
  - destruct fin as [[]|]; [|done]. intros _.
    destruct (HOk t1) as (H1 & H2 & H3 & H4); [by exists p|done|]. rewrite R3, R2. split_and!; try done.
    by destruct R4 as [->| ->].
  - intros He -> Hl Hall. destruct (Hacc Hl Hall) as (t3 & Ht3). rewrite <- He, Hf in Ht3. simplify_eq.
    destruct R5 as [R5|R5]; [by rewrite R5|]. rewrite He in R5. by destruct R5 as [[? [=]]|[? [=]]].
Qed.

End DownloadTask.

(** ** A concrete download *)

Definition demo_files (s : CkState) : Files :=
  mkFiles (ck_target s) (ck_sidecar s) (ck_owned s) (ck_dur_target s) (ck_dur_sidecar s).
Definition demo_task : DlTask := mkDl (Some (ck_prog demo_staged)) true true (demo_files demo_staged).

(** Three staged parts are committed, validated and the file released. *)
Lemma finalize_validates_and_releases_witness :
  snd (finalize_download_content 64 demo_sha Unix (io_ok 7) 20 demo_task) = Ok tt
  ∧ f_dur_target (dl_files (fst (finalize_download_content 64 demo_sha Unix (io_ok 7) 20 demo_task))) = demo_remote.
Proof.
  destruct (finalize_download_content 64 demo_sha Unix (io_ok 7) 20 demo_task) as [t' r] eqn:Hf.
  destruct (finalize_validates_and_releases 64 demo_sha Unix demo_remote 8 [105; 100] ltac:(lia) demo_sha_len
    ltac:(vm_compute; split; discriminate) ltac:(vm_compute; split; discriminate)
    demo_s0 (io_ok 7) 20 demo_task (ck_prog demo_staged) t' r demo_s0_init eq_refl demo_staged_reachable Hf)
    as (_ & _ & H1 & H2).
  assert (r = Ok tt) as Hr.
  { apply H2; [done|done|done|]. intros i Hi. right.
    change (dp_part_count (ck_prog demo_staged)) with 3%nat in Hi.
    destruct i as [|[|[|i]]]; [vm_compute; reflexivity..|lia]. }
  split; [exact Hr|]. by apply H1.
Defined.
