(* ===== verification/RangeDownload.v ===== *)
(** * Range requests of a download

    [src/dflt/default_http_transfer_chunks.rs], download side: the Range request, the checks on
    the response's headers, the single validator of a download, and the transfer of one part,
    serial (streamed into the target and rolled back on failure) and positioned (collected in
    memory, then written and staged).

    A response is its status, headers and the sequence of results of [Response::chunk]. The
    download protocol (a trait object) is the hook [merge_range_get_headers] and the URL it
    returns; the body digest is the hash of the bytes fed to it. The text conversions of error
    bodies are parameters: they only reach error messages. Paths in messages are left out. *)
From S2P Require Import Prelude Errors Retry Sidecar Checkpoint CheckpointProps CheckpointCrash.
From S2P Require Import HttpHeaders DownloadTask.
#[local] Open Scope Z_scope.

(** ** Range headers *)

Definition range_spec (start chunk_size total : Z) : string :=
  if total =? 0 then "bytes=" +:+ pretty start +:+ "-"
  else
    let end_ := Z.min (sat_add U64_MAX start (sat_sub chunk_size 1)) (sat_sub total 1) in
    "bytes=" +:+ pretty start +:+ "-" +:+ pretty end_.

Definition range_err (m : string) (value : list Z) : MeowError :=
  invalid_range ("invalid content-range" +:+ m +:+ ": " +:+ str_of value).

(** [s.splitn(2, ' ')]: the text before the first blank and the rest, if any. *)
Definition splitn2 (s : list Z) : list Z * list Z :=
  match split_once 32 s with Some (a, b) => (a, b) | None => (s, []) end.

Definition parse_content_range (value : list Z) : result (Z * Z * option Z) MeowError :=
  let s := trim value in
  let '(unit, rest) := splitn2 s in
  let unit := trim unit in
  let range_and_total := trim rest in
  if bool_decide (unit ≠ bs "bytes") || bool_decide (range_and_total = []) then Err (range_err "" value)
  else
    let? (range_part, total_part) := ok_or (split_once 47 range_and_total) (range_err "" value) in
    let? (start_s, end_s) := ok_or (split_once 45 (trim range_part)) (range_err " range" value) in
    let? start := ok_or (parse_u64 (trim start_s)) (range_err " start" value) in
    let? end_ := ok_or (parse_u64 (trim end_s)) (range_err " end" value) in
    if end_ <? start then Err (range_err " order" value)
    else if bool_decide (trim total_part = bs "*") then Ok (start, end_, None)
    else
      let? total := ok_or (parse_u64 (trim total_part)) (range_err " total" value) in
      Ok (start, end_, Some total).

Definition require_content_range (h : HeaderMap) (mode : string) : result (list Z) MeowError :=
  let? v := require_single_header h CONTENT_RANGE mode in
  ok_or v (invalid_range (mode +:+ " response missing content-range")).

Definition validate_known_content_range_total (range_total : option Z) (expected_total : Z)
    (mode : string) : result unit MeowError :=
  match range_total with
  | Some actual =>
      if actual =? expected_total then Ok tt
      else Err (invalid_range (mode +:+ " content-range total mismatch: expected "
             +:+ pretty expected_total +:+ ", got " +:+ pretty actual))
  | None => Err (invalid_range (mode +:+ " content-range used wildcard total after total "
             +:+ pretty expected_total +:+ " was known"))
  end.

Definition validate_optional_content_length (h : HeaderMap) (expected_len : Z) (mode : string)
    : result unit MeowError :=
  let? v := require_single_header h CONTENT_LENGTH mode in
  match v with
  | None => Ok tt
  | Some value =>
      let? actual := ok_or (parse_u64 value)
        (invalid_range (mode +:+ " response contains an invalid content-length")) in
      if negb (actual =? expected_len) then
        Err (invalid_range (mode +:+ " content-length mismatch: expected "
          +:+ pretty expected_len +:+ ", got " +:+ pretty actual))
      else Ok tt
  end.

Definition validate_range_safety_headers (h : HeaderMap) (mode : string) : result unit MeowError :=
  let? _ := ensure_response_identity_encoding h mode in
  let? _ := require_unambiguous_etag h mode in
  Ok tt.

(** ** Content-Range text *)

(** The text a server sends for a range. *)
Definition content_range_text (start end_ : Z) (total : option Z) : string :=
  "bytes " +:+ pretty start +:+ "-" +:+ pretty end_ +:+ "/" +:+
  match total with Some t => pretty t | None => "*" end.

Lemma parse_content_range_text start end_ total :
  fits U64_MAX start → fits U64_MAX end_ → (∀ t, total = Some t → fits U64_MAX t) →
  parse_content_range (bs (content_range_text start end_ total))
  = if end_ <? start then Err (range_err " order" (bs (content_range_text start end_ total)))
    else Ok (start, end_, total).
Proof.
  intros Hs He Ht.
  set (T := match total with Some t => pretty t | None => "*" end).
  assert (bs T ≠ [] ∧ Forall (λ b, is_whitespace b = false) (bs T)) as [HTn HTw].
  { destruct total as [t|]; [by destruct (pretty_text t (Ht t eq_refl)) as (? & ? & _)|]. split; [done|]. by repeat constructor. }
  destruct (pretty_text start Hs) as (Hsn & Hsw & Hsc), (pretty_text end_ He) as (Hen & Hew & Hec).
  assert (bs (content_range_text start end_ total)
    = bs "bytes" ++ 32 :: bs (pretty start) ++ (45 :: bs (pretty end_) ++ [47]) ++ bs T) as Htext.
  { unfold content_range_text. fold T. rewrite !bs_app. simpl. by rewrite <- !(assoc_L (++)). }
  unfold parse_content_range. set (value := bs (content_range_text start end_ total)) in *.
  assert (trim value = value) as ->.
  { rewrite Htext. set (m := 45 :: bs (pretty end_) ++ [47]).
    change (32 :: ?x) with ([32] ++ x). rewrite (assoc_L (++) (bs (pretty start))), (assoc_L (++) [32]).
    apply (trim_between is_whitespace (bs "bytes")); [by repeat constructor|done|done|done]. }
  unfold splitn2. rewrite Htext at 1. rewrite split_once_spec by (by repeat constructor).
  change (trim (bs "bytes")) with (bs "bytes").
  assert (∀ x m y, Forall (λ b, is_whitespace b = false) x → x ≠ [] → Forall (λ b, is_whitespace b = false) y →
    y ≠ [] → trim (x ++ m ++ y) = x ++ m ++ y) as Htb by (intros; by apply trim_between).
  rewrite (Htb (bs (pretty start)) _ (bs T)) by done.
  rewrite bool_decide_eq_false_2 by auto. rewrite bool_decide_eq_false_2 by (by destruct (bs (pretty start))).
  cbn [orb].
  replace (bs (pretty start) ++ (45 :: bs (pretty end_) ++ [47]) ++ bs T)
    with ((bs (pretty start) ++ 45 :: bs (pretty end_)) ++ 47 :: bs T)
    by (rewrite <- (assoc_L (++)); simpl; by rewrite <- (assoc_L (++))).
  rewrite split_once_spec.
  2:{ apply Forall_app. split; [apply Hsc; lia|]. constructor; [done|apply Hec; lia]. }
  cbn [ok_or]. change (45 :: bs (pretty end_)) with ([45] ++ bs (pretty end_)).
  rewrite Htb by done. simpl ([45] ++ _).
  rewrite split_once_spec by (apply Hsc; lia). cbn [ok_or]. unfold trim.
  rewrite !(trim_nonblank is_whitespace) by done.
  rewrite !parse_u64_pretty by done. cbn [ok_or]. destruct (end_ <? start); [done|].
  destruct total as [t|]; subst T; cbv iota beta.
  - rewrite bool_decide_eq_false_2; [by rewrite parse_u64_pretty by (by apply Ht)|].
    intros Hx. destruct (pretty_text t (Ht t eq_refl)) as (_ & _ & Hc). specialize (Hc 42 ltac:(lia)).
    rewrite Hx in Hc. by apply Forall_cons in Hc as [? _].
  - by rewrite bool_decide_eq_true_2.
Qed.

(** What any accepted text denotes. *)
Lemma parse_content_range_sound value start end_ total :
  parse_content_range value = Ok (start, end_, total) →
  fits U64_MAX start ∧ fits U64_MAX end_ ∧ start ≤ end_ ∧ (∀ t, total = Some t → fits U64_MAX t).
Proof.
  unfold parse_content_range. destruct (splitn2 (trim value)) as [u r]. destruct (_ || _); [done|].
  destruct (split_once 47 _) as [[rp tp]|]; cbn [ok_or]; [|done].
  destruct (split_once 45 _) as [[ss es]|]; cbn [ok_or]; [|done].
  destruct (parse_u64 (trim ss)) as [a|] eqn:Ha; cbn [ok_or]; [|done].
  destruct (parse_u64 (trim es)) as [b|] eqn:Hb; cbn [ok_or]; [|done].
  apply parse_u64_fits in Ha, Hb. destruct (b <? a) eqn:E; [done|]. zbool.
  case_bool_decide; [intros [= <- <- <-]; by split_and!|].
  destruct (parse_u64 (trim tp)) as [c|] eqn:Hc; cbn [ok_or]; [|done]. apply parse_u64_fits in Hc.
  intros [= <- <- <-]. split_and!; try done. by intros t [= <-].
Qed.

(** reading a Content-Range inverts writing it: the text of any range with a known or
    unknown total parses to exactly its start, end and total, a reversed range is an error, and
    whatever text is accepted denotes 64-bit numbers in order. *)
Theorem content_range_roundtrip :
  (∀ start end_ total, fits U64_MAX start → fits U64_MAX end_ → (∀ t, total = Some t → fits U64_MAX t) →
     parse_content_range (bs (content_range_text start end_ total))
     = if end_ <? start then Err (range_err " order" (bs (content_range_text start end_ total)))
       else Ok (start, end_, total))
  ∧ (∀ value start end_ total, parse_content_range value = Ok (start, end_, total) →
       fits U64_MAX start ∧ fits U64_MAX end_ ∧ start ≤ end_ ∧ (∀ t, total = Some t → fits U64_MAX t)).
Proof. split; [exact parse_content_range_text|exact parse_content_range_sound]. Qed.

Lemma content_range_roundtrip_witness :
  parse_content_range (bs "bytes 16-19/20") = Ok (16, 19, Some 20)
  ∧ parse_content_range (bs "bytes 0-18446744073709551615/*") = Ok (0, U64_MAX, None)
  ∧ is_ok (parse_content_range (bs "bytes 7-3/20")) = false.
Proof.
  destruct content_range_roundtrip as [H _]. split_and!.
  - exact (H 16 19 (Some 20) ltac:(vm_compute; split; discriminate) ltac:(vm_compute; split; discriminate)
      ltac:(intros t [= <-]; vm_compute; split; discriminate)).
  - exact (H 0 U64_MAX None ltac:(vm_compute; split; discriminate) ltac:(vm_compute; split; discriminate)
      ltac:(intros t [=])).
  - assert (bs "bytes 7-3/20" = bs (content_range_text 7 3 (Some 20))) as -> by reflexivity.
    rewrite (H 7 3 (Some 20)); [reflexivity|vm_compute; split; discriminate..|].
    intros t [= <-]. vm_compute. split; discriminate.
Defined.

(** ** One validator per download *)

Definition validate_or_latch_range_validator (actual : option string) (validator_required : bool)
    (mode : string) (t : DlTask) : DlTask * result unit MeowError :=
  match dl_progress t with
  | None => (t, Err (invalid_task_state (mode +:+ " download progress missing while validating generation")))
  | Some p =>
      match dp_expected_validator p, actual with
      | Some expected, Some actual =>
          if bool_decide (expected = actual) then (t, Ok tt)
          else (t, Err (invalid_range (mode +:+ " range response generation mismatch: expected ETag "
                 +:+ expected +:+ ", got " +:+ actual)))
      | Some _, None =>
          (t, Err (invalid_range (mode +:+ " range response must include the prepared strong ETag")))
      | None, Some actual => (set_progress (Some (set_expected_validator actual p)) t, Ok tt)
      | None, None =>
          if validator_required then
            (t, Err (invalid_range (mode +:+ " multi-range download requires a strong ETag")))
          else (t, Ok tt)
      end
  end.

(** [HeaderValue::from_str] *)
Definition header_value_from_str (s : string) : option (list Z) :=
  if forallb (λ b, ((32 <=? b) && negb (b =? 127)) || (b =? 9)) (bs s) then Some (bs s) else None.

Definition expected_if_match_header (t : DlTask) : result (option (list Z)) MeowError :=
  match dl_progress t with
  | None => Ok None
  | Some p =>
      match dp_expected_validator p with
      | None => Ok None
      | Some v =>
          match header_value_from_str v with
          | Some h => Ok (Some h)
          | None => Err (invalid_range "invalid stored download validator: failed to parse header value")
          end
      end
  end.

Definition ensure_expected_if_match_preserved (h : HeaderMap) (expected : list Z) : result unit MeowError :=
  let values := get_all h IF_MATCH in
  if bool_decide (head values = Some expected) && negb (bool_decide (is_Some (head (tail values)))) then Ok tt
  else Err (from_code_str InvalidRange
         "download protocol must preserve the executor-owned If-Match header exactly").

(** The download protocol, as far as a Range request uses it. *)
Record RangeProtocol := mkRangeProtocol {
  merge_range_get_headers : DlTask → string → HeaderMap → result HeaderMap MeowError;
  range_url : DlTask → string;
}.

Definition build_download_range_request (download : RangeProtocol) (range_value : string)
    (base : HeaderMap) (t : DlTask) : result (string * HeaderMap) MeowError :=
  let? expected_if_match := expected_if_match_header t in
  let headers := set_accept_encoding_identity base in
  let headers :=
    match expected_if_match with Some v => insert_header IF_MATCH v headers | None => headers end in
  let? headers := merge_range_get_headers download t range_value headers in
  let range_url := range_url download t in
  let? _ :=
    match expected_if_match with
    | Some expected => ensure_expected_if_match_preserved headers expected
    | None => Ok tt
    end in
  let? _ := ensure_accept_encoding_identity headers "download Range request" in
  Ok (range_url, headers).

(** ** Responses *)

Inductive BodyItem := BodyChunk (bytes : list Z) | BodyError (text : string).

Record HttpResponse := mkResponse {
  resp_status : Z;
  resp_headers : HeaderMap;
  resp_body : list BodyItem;
}.

(** A transport error is its text. *)
Definition map_reqwest (text : string) : MeowError := from_source HttpError text (io_other text).

(** [read_error_body_preview], up to the conversion to text. *)
Fixpoint read_error_body_preview (max_bytes : nat) (items : list BodyItem) (out : list Z) : list Z :=
  if (max_bytes <=? length out)%nat then out
  else
    match items with
    | [] | BodyError _ :: _ => out
    | BodyChunk [] :: rest => read_error_body_preview max_bytes rest out
    | BodyChunk chunk :: rest =>
        let remain := (max_bytes - length out)%nat in
        if (length chunk <=? remain)%nat then read_error_body_preview max_bytes rest (out ++ chunk)
        else out ++ take remain chunk
    end.

Definition MAX_ERROR_BODY_PREVIEW_BYTES : nat := 4096.

(** ** Writing the serial target *)

(** Writing at a cursor past the end leaves a hole of zeros. *)
Definition write_at (f : list Z) (a : nat) (bytes : list Z) : list Z :=
  overwrite (if (a <=? length f)%nat then f else resize f a) a bytes.

(** What the network and the file system answer during one part. *)
Record NetEnv := mkNet {
  n_send : string → HeaderMap → result HttpResponse string;
  n_alloc : option string;
  n_seek : option IoError;
  (** the n-th write fails after that many bytes *)
  n_write : nat → option (nat * IoError);
  n_rollback : option IoError;
  n_flush : option IoError;
  n_stat : option IoError;
  (** the visible path, when it no longer names the locked file *)
  n_visible : option (result Z IoError);
  n_io : IoEnv;
  n_final : IoEnv;
}.

Definition rollback_download_file (env : NetEnv) (offset : Z) (t : DlTask) : DlTask :=
  match n_rollback env with
  | Some _ => t
  | None =>
      set_files (set_target (resize (f_target (dl_files t)) (Z.to_nat offset)) (dl_files t)) t
  end.

Section RangeDownload.
Context (W : Z) (sha256 : list Z → list Z) (platform : Platform).
Context (redact_secrets : string → string) (from_utf8_lossy : list Z → string) (status_text : Z → string).

Definition ensure_download_file_present (env : NetEnv) (expected_min_len : Z) (t : DlTask)
    : result unit MeowError :=
  match n_stat env with
  | Some e => Err (from_io platform "stat opened download file failed" e)
  | None =>
      let handle_len := Z.of_nat (length (f_target (dl_files t))) in
      match default (Ok handle_len) (n_visible env) with
      | Ok visible_len =>
          if (expected_min_len <=? visible_len) && (expected_min_len <=? handle_len) then Ok tt
          else Err (local_file_removed ("download file truncated during transfer: expected_len>="
                 +:+ pretty expected_min_len +:+ " visible_len=" +:+ pretty visible_len
                 +:+ " handle_len=" +:+ pretty handle_len))
      | Err e => Err (from_io platform "download file missing during transfer" e)
      end
  end.

(** The checks between the status line and the body, shared by both paths up to wording. *)
Definition check_range_response (mode latch_mode prefix : string) (offset chunk_size total : Z)
    (h : HeaderMap) (t : DlTask) : DlTask * result Z MeowError :=
  let checked :=
    let? _ := validate_range_safety_headers h mode in
    let? content_range := require_content_range h mode in
    let? (range_start, range_end, range_total) := parse_content_range content_range in
    if negb (range_start =? offset) then
      Err (invalid_range (prefix +:+ "content-range start mismatch: expected " +:+ pretty offset
        +:+ ", got " +:+ pretty range_start))
    else
      let requested_end := Z.min (sat_add U64_MAX offset (sat_sub chunk_size 1)) (sat_sub total 1) in
      if negb (range_end =? requested_end) then
        Err (invalid_range (prefix +:+ "content-range end mismatch: expected " +:+ pretty requested_end
          +:+ ", got " +:+ pretty range_end))
      else
        let? _ := validate_known_content_range_total range_total total mode in
        let? expected_len :=
          ok_or (match checked_sub range_end range_start with
                 | Some len => checked_add U64_MAX len 1
                 | None => None
                 end)
            (from_code_str InvalidRange "content-range length overflow") in
        let? _ := validate_optional_content_length h expected_len mode in
        Ok expected_len in
  match checked with
  | Err e => (t, Err e)
  | Ok expected_len =>
      let '(t, r) := validate_or_latch_range_validator (option_map str_of (download_generation_validator h))
        (chunk_size <? total) latch_mode t in
      (t, match r with Ok _ => Ok expected_len | Err e => Err e end)
  end.

Definition not_partial (prefix : string) (resp : HttpResponse) : MeowError :=
  let body := read_error_body_preview MAX_ERROR_BODY_PREVIEW_BYTES (resp_body resp) [] in
  let safe_body := redact_secrets (from_utf8_lossy body) in
  invalid_range (prefix +:+ status_text (resp_status resp) +:+ ": " +:+ safe_body).

(** ** Positioned part *)

(** The loop that collects the body. *)
Fixpoint collect_body (expected_len : Z) (items : list BodyItem) (body : list Z) (written_len : Z)
    : result (list Z * Z) MeowError :=
  match items with
  | [] => Ok (body, written_len)
  | BodyError e :: _ => Err (map_reqwest e)
  | BodyChunk [] :: rest => collect_body expected_len rest body written_len
  | BodyChunk chunk :: rest =>
      let? next_written := ok_or (checked_add U64_MAX written_len (Z.of_nat (length chunk)))
        (from_code_str InvalidRange "range body length overflow") in
      if expected_len <? next_written then
        Err (invalid_range ("range body too long: expected " +:+ pretty expected_len +:+ ", got >= "
          +:+ pretty next_written))
      else collect_body expected_len rest (body ++ chunk) next_written
  end.

(** The body of an accepted response, with the end of the part. *)
Definition receive_part (env : NetEnv) (offset expected_len : Z) (resp : HttpResponse)
    : result (list Z * Z) MeowError :=
  let? part_end := ok_or (checked_add U64_MAX offset expected_len)
    (from_code_str InvalidRange "download part end overflow") in
  let? _ := ok_or (if expected_len <=? usize_max W then Some tt else None)
    (from_code_str InvalidRange "parallel download part does not fit this architecture") in
  let? _ :=
    match n_alloc env with
    | Some e => Err (from_code IoErrorCode ("cannot allocate parallel download part: " +:+ e))
    | None => Ok tt
    end in
  let? (body, written_len) := collect_body expected_len (resp_body resp) [] 0 in
  if negb (written_len =? expected_len) then
    Err (invalid_range ("range body short: expected " +:+ pretty expected_len
      +:+ ", got " +:+ pretty written_len))
  else Ok (body, part_end).

(** From the response to the received body: everything before the positioned write. *)
Definition accept_part (env : NetEnv) (offset chunk_size total : Z) (resp : HttpResponse) (t : DlTask)
    : DlTask * result (list Z * Z) MeowError :=
  if resp_status resp =? 200 then
    (t, Err (invalid_range ("server returned 200 OK to a Range request (Range not honored); "
          +:+ "concurrent download requires 206 Partial Content")))
  else if negb (resp_status resp =? 206) then
    (t, Err (not_partial "range GET requires 206, got " resp))
  else
    let '(t, r) := check_range_response "parallel range" "parallel" "" offset chunk_size total
      (resp_headers resp) t in
    (t, let? expected_len := r in receive_part env offset expected_len resp).

Definition download_one_chunk_part_positioned (env : NetEnv) (download : RangeProtocol)
    (base : HeaderMap) (offset chunk_size remote_total_size : Z) (t : DlTask)
    : DlTask * result ChunkOutcome MeowError :=
  let total := remote_total_size in
  if total <=? offset then (t, Ok (mkChunkOutcome offset total true None))
  else
    match build_download_range_request download (range_spec offset chunk_size total) base t with
    | Err e => (t, Err e)
    | Ok (url, headers) =>
        match n_send env url headers with
        | Err e => (t, Err (map_reqwest e))
        | Ok resp =>
            let '(t, received) := accept_part env offset chunk_size total resp t in
            match received with
            | Err e => (t, Err e)
            | Ok (body, part_end) =>
                let '(t, r) := write_and_stage_download_part W platform (n_io env) offset body (sha256 body) t in
                (t, match r with
                    | Err e => Err e
                    | Ok _ => Ok (mkChunkOutcome (Z.min part_end total) total (total <=? part_end) None)
                    end)
            end
        end
    end.

(** ** Serial part *)

(** The loop that streams the body into the target; it returns the bytes it hashed. *)
Fixpoint stream_body (env : NetEnv) (offset expected_len : Z) (items : list BodyItem) (nth : nat)
    (hashed : list Z) (written_len : Z) (t : DlTask) : DlTask * result (list Z * Z) MeowError :=
  match items with
  | [] => (t, Ok (hashed, written_len))
  | BodyError e :: _ =>
      (if 0 <? written_len then rollback_download_file env offset t else t, Err (map_reqwest e))
  | BodyChunk [] :: rest => stream_body env offset expected_len rest nth hashed written_len t
  | BodyChunk chunk :: rest =>
      match checked_add U64_MAX written_len (Z.of_nat (length chunk)) with
      | None => (t, Err (from_code_str InvalidRange "range body length overflow"))
      | Some next_written =>
          if expected_len <? next_written then
            (rollback_download_file env offset t,
             Err (invalid_range ("download body length mismatch: expected " +:+ pretty expected_len
               +:+ ", got at least " +:+ pretty next_written)))
          else
            let write bytes :=
              set_files (set_target (write_at (f_target (dl_files t))
                (Z.to_nat (offset + written_len)) bytes) (dl_files t)) t in
            match n_write env nth with
            | Some (k, e) =>
                (rollback_download_file env offset (write (take k chunk)),
                 Err (from_io platform "write download file failed" e))
            | None =>
                stream_body env offset expected_len rest (S nth) (hashed ++ chunk) next_written (write chunk)
            end
      end
  end.

Definition serial_download_chunk_finish (env : NetEnv) (next total : Z) (t : DlTask)
    : DlTask * result ChunkOutcome MeowError :=
  if total <=? next then
    let '(t, r) := finalize_download_content W sha256 platform (n_final env) total t in
    (t, match r with Err e => Err e | Ok _ => Ok (mkChunkOutcome next total true None) end)
  else (t, Ok (mkChunkOutcome next total false None)).

(** The part after the response was accepted: write, flush, check and stage. *)
Definition receive_serial_part (env : NetEnv) (offset expected_len total : Z) (items : list BodyItem)
    (t : DlTask) : DlTask * result ChunkOutcome MeowError :=
  if negb (dl_locked t) then
    (t, Err (from_code_str InvalidTaskState "locked download target missing during serial write"))
  else
    match n_seek env with
    | Some e => (t, Err (from_io platform ("seek download file failed: offset=" +:+ pretty offset) e))
    | None =>
        let '(t, r) := stream_body env offset expected_len items 0 [] 0 t in
        match r with
        | Err e => (t, Err e)
        | Ok (hashed, written_len) =>
            if written_len =? 0 then
              (t, Err (from_code_str InvalidRange "download chunk empty body"))
            else if negb (written_len =? expected_len) then
              (rollback_download_file env offset t,
               Err (invalid_range ("download body length mismatch: expected " +:+ pretty expected_len
                 +:+ ", got " +:+ pretty written_len)))
            else
              match checked_add U64_MAX offset written_len with
              | None => (t, Err (from_code_str InvalidRange "download offset overflow"))
              | Some next =>
                  match n_flush env with
                  | Some e =>
                      (rollback_download_file env offset t, Err (from_io platform "flush download file failed" e))
                  | None =>
                      match ensure_download_file_present env next t with
                      | Err e => (t, Err e)
                      | Ok _ =>
                          let '(t, r) := stage_serial_download_part W platform (n_io env) offset (sha256 hashed) t in
                          match r with
                          | Err e => (t, Err e)
                          | Ok _ => serial_download_chunk_finish env next total t
                          end
                      end
                  end
              end
        end
    end.

Definition download_one_chunk (env : NetEnv) (download : RangeProtocol) (base : HeaderMap)
    (offset chunk_size remote_total_size : Z) (t : DlTask) : DlTask * result ChunkOutcome MeowError :=
  let total := remote_total_size in
  if total <=? offset then
    let '(t, r) := finalize_download_content W sha256 platform (n_final env) total t in
    (t, match r with Err e => Err e | Ok _ => Ok (mkChunkOutcome offset total true None) end)
  else
    let already_done :=
      match dl_progress t with Some p => is_done W p offset | None => false end in
    if already_done then
      let next := Z.min (sat_add U64_MAX offset chunk_size) total in
      serial_download_chunk_finish env next total t
    else
      match build_download_range_request download (range_spec offset chunk_size total) base t with
      | Err e => (t, Err e)
      | Ok (url, headers) =>
          match n_send env url headers with
          | Err e => (t, Err (map_reqwest e))
          | Ok resp =>
              if negb (resp_status resp =? 206) then
                (t, Err (not_partial "download GET requires 206 Partial Content, got " resp))
              else
                let '(t, r) := check_range_response "serial range" "serial" "download " offset chunk_size total
                  (resp_headers resp) t in
                match r with
                | Err e => (t, Err e)
                | Ok expected_len => receive_serial_part env offset expected_len total (resp_body resp) t
                end
          end
      end.

(** ** Headers of an accepted response *)

Lemma require_single_Some h name ctx v :
  require_single_header h name ctx = Ok (Some v) → get_all h name = [v].
Proof.
  unfold require_single_header. destruct (get_all h name) as [|x [|]]; [done| |done].
  unfold to_str. destruct (forallb _ _); [|done]. by intros [= <-].
Qed.

(** Why the header checks accept: one Content-Range that is exactly the requested one. *)
Lemma check_range_Ok mode lmode prefix offset chunk_size total h t t' len :
  check_range_response mode lmode prefix offset chunk_size total h t = (t', Ok len) →
  ∃ cr end_, get_all h CONTENT_RANGE = [cr] ∧ parse_content_range cr = Ok (offset, end_, Some total)
    ∧ end_ = Z.min (sat_add U64_MAX offset (sat_sub chunk_size 1)) (sat_sub total 1)
    ∧ len = end_ - offset + 1 ∧ offset ≤ end_
    ∧ validate_or_latch_range_validator (option_map str_of (download_generation_validator h))
        (chunk_size <? total) lmode t = (t', Ok tt).
Proof.
  unfold check_range_response, require_content_range, validate_known_content_range_total.
  destruct (validate_range_safety_headers h mode) as [[]|]; [|done].
  destruct (require_single_header h CONTENT_RANGE mode) as [[cr|]|] eqn:Hcr; cbn [ok_or]; [|done..].
  destruct (parse_content_range cr) as [[[a b] T]|] eqn:Hp; [|done].
  destruct (Z.eqb_spec a offset) as [->|]; cbn [negb]; [|done].
  destruct (Z.eqb_spec b (Z.min (sat_add U64_MAX offset (sat_sub chunk_size 1)) (sat_sub total 1)))
    as [Hb|]; cbn [negb]; [|done].
  destruct T as [T|]; [|done]. destruct (Z.eqb_spec T total) as [->|]; [|done].
  destruct (checked_sub b offset) as [l|] eqn:Hs; cbn [ok_or]; [|done].
  destruct (checked_add U64_MAX l 1) as [l'|] eqn:Ha; cbn [ok_or]; [|done].
  apply checked_sub_Some in Hs as [-> Hle]. apply checked_add_Some in Ha as [-> _].
  destruct (validate_optional_content_length h _ mode) as [[]|]; [|done].
  destruct (validate_or_latch_range_validator _ _ _ _) as [t1 [[]|]] eqn:Hv; [|done].
  intros [= <- <-]. exists cr, b. split_and!; try done. by apply (require_single_Some _ _ _ _ Hcr).
Qed.

(** The checks touch nothing but the validator, and that only once. *)
Lemma check_range_task mode lmode prefix offset chunk_size total h t t' r :
  check_range_response mode lmode prefix offset chunk_size total h t = (t', r) →
  t' = t ∨ ∃ p w, dl_progress t = Some p ∧ dp_expected_validator p = None
    ∧ download_generation_validator h = Some w
    ∧ t' = set_progress (Some (set_expected_validator (str_of w) p)) t ∧ is_ok r = true.
Proof.
  unfold check_range_response.
  match goal with |- context [match ?x with Ok _ => _ | Err _ => _ end] => destruct x as [len|] end.
  2:{ intros [= <- <-]. by left. }
  unfold validate_or_latch_range_validator. destruct (dl_progress t) as [p|]; [|intros [= <- <-]; by left].
  destruct (download_generation_validator h) as [w|]; simpl;
    destruct (dp_expected_validator p) as [v|] eqn:Hv.
  - case_bool_decide; intros [= <- <-]; by left.
  - intros [= <- <-]. right. by exists p, w.
  - intros [= <- <-]; by left.
  - destruct (chunk_size <? total); intros [= <- <-]; by left.
Qed.

(** ** Bodies *)

(** The bytes received before a transport error. *)
Fixpoint body_bytes (items : list BodyItem) : list Z :=
  match items with
  | BodyChunk c :: rest => c ++ body_bytes rest
  | _ => []
  end.

Lemma collect_body_Ok expected_len items body written body' written' :
  written = Z.of_nat (length body) →
  collect_body expected_len items body written = Ok (body', written') →
  body' = body ++ body_bytes items ∧ written' = Z.of_nat (length body').
Proof.
  revert body written. induction items as [|[chunk|e] items IH]; intros body written Hw; simpl; [|destruct chunk|done].
  - intros [= <- <-]. by rewrite app_nil_r.
  - apply IH, Hw.
  - destruct (checked_add _ _ _) as [n|] eqn:Ha; cbn [ok_or]; [|done]. apply checked_add_Some in Ha as [-> _].
    destruct (expected_len <? _); [done|]. intros H. 
    change (z :: chunk ++ body_bytes items) with ((z :: chunk) ++ body_bytes items).
    rewrite (assoc_L (++)). apply (IH _ _) in H; [done|].
    rewrite length_app. simpl in *. lia.
Qed.

Lemma receive_part_Ok env offset len resp body part_end :
  receive_part env offset len resp = Ok (body, part_end) →
  body = body_bytes (resp_body resp) ∧ Z.of_nat (length body) = len ∧ part_end = offset + len.
Proof.
  unfold receive_part. destruct (checked_add _ _ _) as [pe|] eqn:Ha; cbn [ok_or]; [|done].
  apply checked_add_Some in Ha as [-> _]. destruct (len <=? usize_max W); cbn [ok_or]; [|done].
  destruct (n_alloc env); [done|].
  destruct (collect_body len (resp_body resp) [] 0) as [[b w]|] eqn:Hc; [|done].
  destruct (collect_body_Ok _ _ _ _ _ _ eq_refl Hc) as [-> ->].
  simpl (_ ++ _). destruct (Z.eqb_spec (Z.of_nat (length (body_bytes (resp_body resp)))) len); cbn [negb]; [|done].
  by intros [= <- <-].
Qed.

End RangeDownload.
