(* ===== verification/DownloadSystem.v ===== *)
(** * A parallel download as a whole

    The composition of the Range checks ([RangeDownload]), the shared download state
    ([DownloadTask]) and the checkpoint protocol ([CheckpointCrash]): any number of parts in
    flight, each of which receives its response, writes and stages at any time; checkpoint
    timers; forced checkpoints; and crashes followed by a restart on the same generation.

    The server is a parameter: [rep v] is the representation that carries the strong validator
    [v]. What is assumed of it ([honest]) is what RFC 9110 says of strong validators and of 206
    responses: the total of the Content-Range is the length of the representation and the bytes
    received are bytes of the range it names (the body may be cut short or fail at any point).
    Nothing is assumed of responses that carry no strong validator, nor of other statuses. *)
From S2P Require Import Prelude Errors Retry Sidecar Checkpoint CheckpointProps CheckpointCrash.
From S2P Require Import HttpHeaders DownloadTask RangeDownload.
#[local] Open Scope Z_scope.

(** ** Operations that keep the validator *)

Definition validator_of (t : DlTask) : option string :=
  match dl_progress t with Some p => dp_expected_validator p | None => None end.

Section Keeps.
Context (W : Z) (platform : Platform).

Lemma stage_validator now offset digest p :
  dp_expected_validator (fst (stage_done_with_digest_deferred W now offset digest p)) = dp_expected_validator p.
Proof.
  unfold stage_done_with_digest_deferred. destruct (index_of W p offset); [|done].
  destruct (is_done W p offset); [done|]. destruct (bit_is_set _ _); [done|].
  destruct (bit_set _ _); [|done]. destruct (_ || _); [done|]. by destruct (_ <=? _)%nat.
Qed.

Lemma commit_validator now fault p d p' d' r :
  commit_checkpoint_after_data_sync W now fault p d = (p', d', r) →
  dp_expected_validator p' = dp_expected_validator p.
Proof.
  unfold commit_checkpoint_after_data_sync. destruct (dp_pending p); [by intros [= <- <- <-]|].
  destruct (apply_pending _ _ _) as [[bits digests]|]; [|by intros [= <- <- <-]].
  destruct (persist_snapshot_atomic _ _ _ _ _ _) as [d1 [[]|]]; by intros [= <- <- <-].
Qed.

Lemma begin_validator p p' due :
  begin_external_checkpoint p = (p', due) ∨ begin_timer_checkpoint p = (p', due) →
  dp_expected_validator p' = dp_expected_validator p.
Proof.
  unfold begin_timer_checkpoint, begin_external_checkpoint. intros [[= <- <-]|H]; [done|].
  destruct (negb _); by simplify_eq.
Qed.

Lemma checkpoint_validator env t :
  validator_of (fst (checkpoint_locked_download_target W platform env t)) = validator_of t.
Proof.
  unfold checkpoint_locked_download_target, validator_of. destruct (dl_progress t) as [p|] eqn:Hp; [|by simpl; rewrite Hp].
  destruct (begin_external_checkpoint p) as [p1 due] eqn:Hb.
  pose proof (begin_validator p p1 due (or_introl Hb)) as H1.
  destruct due; [|done]. simpl. destruct (dl_locked t); [|done]. simpl. unfold io_step.
  destruct (e_sync env); [done|].
  destruct (commit_checkpoint_after_data_sync _ _ _ _ _) as [[p2 d] r] eqn:Hc. simpl.
  by rewrite (commit_validator _ _ _ _ _ _ _ Hc).
Qed.

Lemma timer_validator env t : validator_of (checkpoint_timer_fired W env t) = validator_of t.
Proof.
  unfold checkpoint_timer_fired, validator_of. destruct (dl_progress t) as [p|] eqn:Hp; [|by rewrite Hp].
  destruct (begin_timer_checkpoint p) as [p1 due] eqn:Hb.
  pose proof (begin_validator p p1 due (or_intror Hb)) as H1.
  destruct (negb due || _); [done|]. destruct (e_sync env); [done|].
  destruct (commit_checkpoint_after_data_sync _ _ _ _ _) as [[p2 d] r] eqn:Hc. simpl.
  by rewrite (commit_validator _ _ _ _ _ _ _ Hc).
Qed.

Lemma stage_locked_validator env offset digest t :
  validator_of (fst (stage_download_part_digest_locked W platform env offset digest t)) = validator_of t.
Proof.
  unfold stage_download_part_digest_locked. destruct (dl_progress t) as [p|] eqn:Hp; [|done].
  pose proof (stage_validator (e_now env) offset digest p) as H1.
  destruct (stage_done_with_digest_deferred _ _ _ _ _) as [p1 r]. simpl in H1.
  assert (validator_of (set_progress (Some p1) t) = validator_of t) as H2.
  { unfold validator_of. simpl. by rewrite Hp. }
  destruct r as [o|e]; [|done]. destruct (checkpoint_due o); [|done].
  pose proof (checkpoint_validator env (set_progress (Some p1) t)) as H3.
  destruct (checkpoint_locked_download_target _ _ _ _) as [t2 r]. simpl in *. congruence.
Qed.

Lemma write_validator env offset body digest t :
  validator_of (fst (write_and_stage_download_part W platform env offset body digest t)) = validator_of t.
Proof.
  unfold write_and_stage_download_part, io_step. destruct (checked_add _ _ _); [|done].
  destruct (dl_locked t); [|done]. cbn [negb]. destruct (e_stat env); [done|].
  destruct (_ <? _); [done|]. destruct (e_seek env); [done|]. destruct (e_write env) as [[]|]; [done|].
  destruct (e_flush env); [done|]. by rewrite stage_locked_validator.
Qed.

End Keeps.

(** ** The system *)

(** A task and the bodies its parts in flight have received and not yet written. *)
Record DlSys := mkSys {
  sys_task : DlTask;
  sys_received : list (Z * list Z);
}.

Section System.
Context (W : Z) (sha256 : list Z → list Z) (platform : Platform).
Context (redact_secrets : string → string) (from_utf8_lossy : list Z → string) (status_text : Z → string).
Context (rep : string → list Z) (total chunk : Z) (identity : list Z).

Definition honest (resp : HttpResponse) : Prop :=
  ∀ w cr a b T, resp_status resp = 206 →
    download_generation_validator (resp_headers resp) = Some w →
    get_all (resp_headers resp) CONTENT_RANGE = [cr] → parse_content_range cr = Ok (a, b, Some T) →
    T = Z.of_nat (length (rep (str_of w)))
    ∧ ∃ rest, body_bytes (resp_body resp) ++ rest = file_range (rep (str_of w)) a (b - a + 1).

#[local] Abbreviation accept := (accept_part W redact_secrets from_utf8_lossy status_text).

(** The resumption over what a crash left: any mixture of synced and unsynced bytes of the target,
    and either the sidecar written last or the one that was made durable last. *)
Inductive dl_resume : DlSys → DlSys → Prop :=
| dl_resumed now mp c sc p p' v locked s :
    dl_progress (sys_task s) = Some p → dp_expected_validator p = Some v → fits U32_MAX mp →
    crash_target (ck_of p CkIdle (dl_files (sys_task s))) c →
    sc = f_sidecar (dl_files (sys_task s)) ∨ sc = f_dur_sidecar (dl_files (sys_task s)) →
    load_or_create W sha256 now (mkDisk (Some c) sc (f_owned (dl_files (sys_task s)))) total chunk mp identity = Ok p' →
    dl_resume s (mkSys (mkDl (Some (set_expected_validator v p')) locked true
                    (mkFiles c sc (f_owned (dl_files (sys_task s))) c sc)) []).

Inductive dl_step : DlSys → DlSys → Prop :=
| ds_accept env i p resp t' r s :
    honest resp → dl_progress (sys_task s) = Some p → (i < dp_part_count p)%nat →
    accept env (part_offset p i) chunk total resp (sys_task s) = (t', r) →
    dl_step s (mkSys t' (match r with
                         | Ok (body, _) => (part_offset p i, body) :: sys_received s
                         | Err _ => sys_received s
                         end))
| ds_write env offset body l1 l2 s :
    sys_received s = l1 ++ (offset, body) :: l2 →
    dl_step s (mkSys (fst (write_and_stage_download_part W platform env offset body (sha256 body) (sys_task s)))
                (l1 ++ l2))
| ds_timer env s : dl_step s (mkSys (checkpoint_timer_fired W env (sys_task s)) (sys_received s))
| ds_checkpoint env s :
    dl_step s (mkSys (fst (force_download_checkpoint W platform env (sys_task s))) (sys_received s))
| ds_crash s s' : dl_resume s s' → dl_step s s'.

(** After the prepare step: the checkpoint was loaded (finding nothing of this download), the
    target given its full size, and a validator is known or not. *)
Definition dl_init (s : DlSys) : Prop :=
  ∃ now mp d p v locked,
    (∀ raw mp, sidecar_file d = Some raw → decode W raw total chunk mp identity = None) ∧ fits U32_MAX mp
    ∧ load_or_create W sha256 now d total chunk mp identity = Ok p
    ∧ (∀ v', v = Some v' → Z.of_nat (length (rep v')) = total)
    ∧ let f := resize (default [] (target_file d)) (Z.to_nat total) in
      let p := match v with Some v => set_expected_validator v p | None => p end in
      s = mkSys (mkDl (Some p) locked true (mkFiles f (sidecar_file d) (namespace_owned d) f (sidecar_file d))) [].

Hypothesis HW : 32 ≤ W.
Hypothesis sha256_len : ∀ bs, length (sha256 bs) = PART_DIGEST_LEN.
Hypothesis total_fits : fits U64_MAX total.
Hypothesis chunk_fits : fits U64_MAX chunk.

#[local] Abbreviation inv remote p f := (ck_inv W sha256 remote chunk identity (ck_of p CkIdle f)).

(** A received body is the part of the representation it belongs to. *)
Definition received_ok (remote : list Z) (p : DownloadProgress) (ob : Z * list Z) : Prop :=
  ∃ i, (i < dp_part_count p)%nat ∧ ob.1 = part_offset p i ∧ ob.2 = part_bytes p i remote.

Definition sys_inv (s : DlSys) : Prop :=
  ∃ p, dl_progress (sys_task s) = Some p ∧
    match dp_expected_validator p with
    | Some v => Z.of_nat (length (rep v)) = total ∧ inv (rep v) p (dl_files (sys_task s))
        ∧ Forall (received_ok (rep v) p) (sys_received s)
    | None => (chunk < total ∧ sys_received s = [])
        ∧ ∀ remote, Z.of_nat (length remote) = total → inv remote p (dl_files (sys_task s))
    end.

(** An operation that refines the checkpoint protocol and keeps the validator. *)
Lemma refines_sys_inv t t' rcv rcv' :
  (∀ p remote, dl_progress t = Some p → Z.of_nat (length remote) = total → inv remote p (dl_files t) →
     dp_expected_validator p = None ∨ (∃ v, dp_expected_validator p = Some v ∧ remote = rep v) →
     ck_refines W sha256 remote chunk identity t t') →
  validator_of t' = validator_of t → (∀ x, x ∈ rcv' → x ∈ rcv) →
  sys_inv (mkSys t rcv) → sys_inv (mkSys t' rcv').
Proof.
  intros Href Hval Hsub (p & Hp & Hinv). cbn [sys_task sys_received] in *.
  assert (∀ remote, Z.of_nat (length remote) = total → inv remote p (dl_files t) →
    dp_expected_validator p = None ∨ (∃ v, dp_expected_validator p = Some v ∧ remote = rep v) →
    ∃ p', dl_progress t' = Some p' ∧ inv remote p' (dl_files t')) as Hstep.
  { intros remote Hr Hi Hv. destruct (Href p remote Hp Hr Hi Hv p Hp) as (p' & Hp' & Hs).
    exists p'. split; [done|]. eapply (ck_steps_inv W sha256 remote chunk identity); rewrite ?Hr; eauto. }
  assert (∀ p', dl_progress t' = Some p' → dp_expected_validator p' = dp_expected_validator p) as Hveq.
  { intros p' Hp'. unfold validator_of in Hval. by rewrite Hp, Hp' in Hval. }
  destruct (dp_expected_validator p) as [v|] eqn:Hv.
  - destruct Hinv as (Hlen & Hi & Hf). destruct (Hstep (rep v) Hlen Hi) as (p' & Hp' & Hi'); [by right; exists v|].
    exists p'. split; [done|]. rewrite (Hveq p' Hp'). split_and!; [done|done|].
    apply Forall_forall. intros x Hx. rewrite Forall_forall in Hf. destruct (Hf x (Hsub x Hx)) as (i & Hli & H1 & H2).
    destruct (same_download W p p') as (Hn & Hpb & _ & Hpo); try apply Hi; try apply Hi'.
    { pose proof (ci_total _ _ _ _ _ _ Hi). pose proof (ci_total _ _ _ _ _ _ Hi'). simpl in *. congruence. }
    { pose proof (ci_chunk _ _ _ _ _ _ Hi). pose proof (ci_chunk _ _ _ _ _ _ Hi'). simpl in *. congruence. }
    exists i. cbn [sys_task]. rewrite Hn, Hpb, Hpo. done.
  - destruct Hinv as ([Hmul Hr] & Hi).
    destruct (Hstep (replicate (Z.to_nat total) 0)) as (p' & Hp' & _).
    { rewrite length_replicate. destruct total_fits; lia. }
    { apply Hi. rewrite length_replicate. destruct total_fits; lia. }
    { by left. }
    exists p'. split; [done|]. rewrite (Hveq p' Hp'). split.
    + split; [done|]. cbn [sys_received]. destruct rcv' as [|x rcv']; [done|]. rewrite Hr in Hsub.
      specialize (Hsub x). set_solver.
    + intros remote Hlen. destruct (Hstep remote Hlen (Hi remote Hlen) (or_introl eq_refl)) as (q & Hq & Hiq).
      by rewrite Hp' in Hq; simplify_eq.
Qed.

(** The part a response was accepted for. *)
Lemma requested_part p i end_ :
  grid_ok W p → (i < dp_part_count p)%nat →
  end_ = Z.min (sat_add U64_MAX (part_offset p i) (sat_sub (dp_chunk p) 1)) (sat_sub (dp_total p) 1) →
  end_ - part_offset p i + 1 = part_len p i.
Proof.
  intros Hg Hi ->. pose proof (part_bounds W HW p i Hg Hi) as (Ho & He & Hm).
  destruct (grid_count W HW p Hg) as (Hc & _). unfold part_len, part_end, sat_add, sat_sub in *. lia.
Qed.

(** The bytes of an honest response that has the full length of the part. *)
Lemma honest_body remote p i resp w cr end_ :
  remote = rep (str_of w) → Z.of_nat (length remote) = total →
  grid_ok W p → dp_total p = total → dp_chunk p = chunk → (i < dp_part_count p)%nat →
  honest resp → resp_status resp = 206 → download_generation_validator (resp_headers resp) = Some w →
  get_all (resp_headers resp) CONTENT_RANGE = [cr] →
  parse_content_range cr = Ok (part_offset p i, end_, Some total) →
  end_ = Z.min (sat_add U64_MAX (part_offset p i) (sat_sub chunk 1)) (sat_sub total 1) →
  Z.of_nat (length (body_bytes (resp_body resp))) = end_ - part_offset p i + 1 →
  body_bytes (resp_body resp) = part_bytes p i remote.
Proof.
  intros -> Hlen Hg Ht Hc Hi Hh Hst Hv Hcr Hp He Hl.
  destruct (Hh w cr _ _ _ Hst Hv Hcr Hp) as (_ & rest & Hb).
  rewrite <- Ht, <- Hc in He. pose proof (requested_part p i end_ Hg Hi He) as Hpl. rewrite Hpl in *.
  fold (part_bytes p i (rep (str_of w))) in Hb.
  pose proof (part_bounds W HW p i Hg Hi) as (Ho & Hend & _).
  assert (Z.of_nat (length (part_bytes p i (rep (str_of w)))) = part_len p i) as Hlp
    by (apply (length_part_bytes W HW); [done..|lia]).
  apply (f_equal length) in Hb as Hbl. rewrite length_app in Hbl.
  assert (rest = []) as -> by (apply nil_length_inv; lia). by rewrite app_nil_r in Hb.
Qed.

Lemma received_exact remote p i resp w cr end_ env body part_end :
  remote = rep (str_of w) → Z.of_nat (length remote) = total →
  grid_ok W p → dp_total p = total → dp_chunk p = chunk → (i < dp_part_count p)%nat →
  honest resp → resp_status resp = 206 → download_generation_validator (resp_headers resp) = Some w →
  get_all (resp_headers resp) CONTENT_RANGE = [cr] →
  parse_content_range cr = Ok (part_offset p i, end_, Some total) →
  end_ = Z.min (sat_add U64_MAX (part_offset p i) (sat_sub chunk 1)) (sat_sub total 1) →
  receive_part W env (part_offset p i) (end_ - part_offset p i + 1) resp = Ok (body, part_end) →
  body = part_bytes p i remote.
Proof.
  intros. destruct (receive_part_Ok W env _ _ _ _ _ ltac:(eassumption)) as (-> & Hl & _).
  by eapply honest_body.
Qed.

Lemma accept_sys_inv env i p resp t t' r rcv :
  honest resp → dl_progress t = Some p → (i < dp_part_count p)%nat →
  accept env (part_offset p i) chunk total resp t = (t', r) → sys_inv (mkSys t rcv) →
  sys_inv (mkSys t' (match r with Ok (body, _) => (part_offset p i, body) :: rcv | Err _ => rcv end)).
Proof.
  intros Hh Hp Hi Ha Hinv. unfold accept_part in Ha.
  destruct (resp_status resp =? 200); [by simplify_eq|].
  destruct (Z.eqb_spec (resp_status resp) 206) as [Hst|]; cbn [negb] in Ha; [|by simplify_eq].
  destruct (check_range_response _ _ _ _ _ _ _ _) as [t1 r1] eqn:Hck. injection Ha as <- <-.
  destruct r1 as [len|e].
  2:{ apply check_range_task in Hck as [->|(? & ? & ? & ? & ? & ? & [=])]. done. }
  destruct (check_range_Ok _ _ _ _ _ _ _ _ _ _ Hck) as (cr & end_ & Hcr & Hpc & He & -> & Hle & Hval).
  destruct Hinv as (q & Hq & Hinv). cbn [sys_task sys_received] in *. assert (q = p) as -> by congruence.
  unfold validate_or_latch_range_validator in Hval. rewrite Hp in Hval.
  assert (∀ w remote p', remote = rep (str_of w) → Z.of_nat (length remote) = total → inv remote p (dl_files t) →
    download_generation_validator (resp_headers resp) = Some w →
    p' = p ∨ p' = set_expected_validator (str_of w) p → Forall (received_ok remote p') rcv →
    Forall (received_ok remote p') (match receive_part W env (part_offset p i) (end_ - part_offset p i + 1) resp with
      | Ok (body, _) => (part_offset p i, body) :: rcv | Err _ => rcv end)) as Hrcv.
  { intros w remote p' Hrep Hlen Hi' Hw Hp' Hf. destruct (receive_part _ _ _ _ _) as [[body pe]|] eqn:Hrp; [|done].
    constructor; [|done]. exists i. pose proof (ci_total _ _ _ _ _ _ Hi') as Et. pose proof (ci_chunk _ _ _ _ _ _ Hi') as Ec.
    simpl in Et, Ec. rewrite Hlen in Et.
    pose proof (received_exact remote p i resp w cr end_ env body pe Hrep Hlen (ci_grid _ _ _ _ _ _ Hi') Et Ec
      Hi Hh Hst Hw Hcr Hpc He Hrp) as ->. by destruct Hp' as [->| ->]. }
  destruct (dp_expected_validator p) as [v|] eqn:Hv, (download_generation_validator (resp_headers resp)) as [w|] eqn:Hw;
    simpl in Hval; try done.
  - case_bool_decide as Hvw; [|done]. injection Hval as <-. destruct Hinv as (Hlen & Hi' & Hf).
    exists p. split; [done|]. rewrite Hv. split_and!; [done|done|]. subst v. apply (Hrcv w); auto.
  - injection Hval as <-. destruct Hinv as ([_ ->] & Hall).
    destruct (Hh w cr _ _ _ Hst Hw Hcr Hpc) as (Hlen & _).
    pose proof (Hall (rep (str_of w)) (eq_sym Hlen)) as Hi'.
    exists (set_expected_validator (str_of w) p). split; [done|]. split_and!; [done| |].
    + eapply (ck_step_inv W sha256 (rep (str_of w)) chunk identity); rewrite <- ?Hlen; eauto.
      apply (ck_latch _ _ _ _ _ (str_of w) (ck_of p CkIdle (dl_files t))).
    + apply (Hrcv w); auto.
  - destruct Hinv as [[Hmul _] _]. by rewrite (proj2 (Z.ltb_lt _ _) Hmul) in Hval.
Qed.

Lemma write_sys_inv env offset body l1 l2 t :
  sys_inv (mkSys t (l1 ++ (offset, body) :: l2)) →
  sys_inv (mkSys (fst (write_and_stage_download_part W platform env offset body (sha256 body) t)) (l1 ++ l2)).
Proof.
  intros Hs. pose proof Hs as (p & Hp & Hinv). cbn [sys_task sys_received] in *.
  destruct (dp_expected_validator p) as [v|] eqn:Hv.
  2:{ destruct Hinv as [[_ Hnil] _]. by destruct l1. }
  destruct Hinv as (Hlen & Hi & Hf). apply Forall_app in Hf as [_ [Hob _]%Forall_cons].
  destruct Hob as (i & Hlt & Ho & Hb). simpl in Ho, Hb. subst offset body.
  apply (refines_sys_inv t _ (l1 ++ (part_offset p i, part_bytes p i (rep v)) :: l2)); [|by rewrite write_validator|set_solver|done].
  intros q remote Hq Hl Hiq Hvq. assert (q = p) as -> by congruence.
  destruct Hvq as [|(v' & Hv' & ->)]; [congruence|]. assert (v' = v) as -> by congruence.
  apply write_and_stage_refines; rewrite ?Hl; try done.
Qed.

Lemma crash_sys_inv now mp c sc p p' v locked s :
  dl_progress (sys_task s) = Some p → dp_expected_validator p = Some v → fits U32_MAX mp →
  crash_target (ck_of p CkIdle (dl_files (sys_task s))) c →
  sc = f_sidecar (dl_files (sys_task s)) ∨ sc = f_dur_sidecar (dl_files (sys_task s)) →
  load_or_create W sha256 now (mkDisk (Some c) sc (f_owned (dl_files (sys_task s)))) total chunk mp identity = Ok p' →
  sys_inv s →
  sys_inv (mkSys (mkDl (Some (set_expected_validator v p')) locked true
    (mkFiles c sc (f_owned (dl_files (sys_task s))) c sc)) []).
Proof.
  intros Hp Hv Hmp Hcr Hsc Hl (q & Hq & Hinv). assert (q = p) as -> by congruence. rewrite Hv in Hinv.
  destruct Hinv as (Hlen & Hi & _). exists (set_expected_validator v p'). split; [done|]. cbn.
  split_and!; [done| |constructor].
  eapply (ck_steps_inv W sha256 (rep v) chunk identity HW sha256_len); rewrite ?Hlen; try done.
  eapply rtc_l; [eapply (ck_crash _ _ _ _ _ now mp c sc p'); rewrite ?Hlen; done|].
  apply rtc_once. apply (ck_latch _ _ _ _ _ v (mkCk p' c sc (f_owned (dl_files (sys_task s))) c sc CkIdle)).
Qed.

Lemma dl_step_inv s s' : sys_inv s → dl_step s s' → sys_inv s'.
Proof.
  intros Hs Hst. destruct Hst as [env i p resp t' r [t rcv] Hh Hp Hi Ha|env offset body l1 l2 [t rcv] Hr|env [t rcv]
    |env [t rcv]|s s' [now mp c sc p p' v locked s1 Hp Hv Hmp Hcr Hsc Hl]]; cbn [sys_task sys_received] in *.
  - by apply (accept_sys_inv env i p resp t).
  - subst rcv. by apply write_sys_inv.
  - apply (refines_sys_inv t _ rcv); [|by rewrite timer_validator|done|done].
    intros. apply timer_refines.
  - apply (refines_sys_inv t _ rcv); [|by apply checkpoint_validator|done|done].
    intros. apply checkpoint_refines.
  - by apply (crash_sys_inv now mp c sc p p' v).
Qed.

(** A validator is pinned or will be required: the code asks for one when there is more than one
    part. *)
Definition validated (t : DlTask) : Prop := chunk < total ∨ is_Some (validator_of t).

Lemma dl_init_inv s : dl_init s → validated (sys_task s) → sys_inv s.
Proof.
  intros (now & mp & d & p & v & locked & Hbl & Hmp & Hl & Hv & ->) Hmul.
  assert (∀ remote, Z.of_nat (length remote) = total →
    let f := resize (default [] (target_file d)) (Z.to_nat total) in
    inv remote p (mkFiles f (sidecar_file d) (namespace_owned d) f (sidecar_file d))) as Hi.
  { intros remote Hr f. apply (ck_init_inv W sha256 remote chunk identity HW); rewrite ?Hr; try done.
    exists now, mp, d, p. rewrite Hr. split_and!; [by intros raw mp' H; rewrite Hr; apply Hbl|done|done|].
    unfold f, ck_of. simpl. by replace (length remote) with (Z.to_nat total) by lia. }
  assert (dp_expected_validator p = None) as Hnone.
  { assert (Z.of_nat (length (replicate (Z.to_nat total) 0)) = total) as Hz
      by (rewrite length_replicate; destruct total_fits; lia).
    pose proof (load_blank W sha256 (replicate (Z.to_nat total) 0) chunk identity HW) as Hlb.
    unfold blank in Hlb. rewrite Hz in Hlb. apply Hlb in Hl; [|done..|naive_solver|apply Hmp].
    unfold fresh in Hl. repeat case_match; by simplify_eq. }
  destruct v as [v|].
  - exists (set_expected_validator v p). split; [done|]. cbn. split_and!; [by apply Hv| |constructor].
    eapply (ck_step_inv W sha256 (rep v) chunk identity HW sha256_len); rewrite ?Hv; try done; [by apply Hi, Hv|].
    eapply (ck_latch W sha256 (rep v) chunk identity v (ck_of p CkIdle (mkFiles _ _ _ _ _))).
  - exists p. split; [done|]. rewrite Hnone. split; [|done]. split; [|done]. destruct Hmul as [?|[v Hv']]; [done|].
    unfold validator_of in Hv'. cbn in Hv'. congruence.
Qed.

Lemma dl_reachable_inv s0 s : dl_init s0 → validated (sys_task s0) → rtc dl_step s0 s → sys_inv s.
Proof. intros H0 Hm. apply rtc_invariant; [apply dl_step_inv|by apply dl_init_inv]. Qed.

(** The transfer of one part is made of steps of the system. *)
Lemma positioned_part_steps env download base p i t rcv :
  dl_progress t = Some p → (i < dp_part_count p)%nat →
  (∀ url h resp, n_send env url h = Ok resp → honest resp) →
  rtc dl_step (mkSys t rcv)
    (mkSys (fst (download_one_chunk_part_positioned W sha256 platform redact_secrets from_utf8_lossy status_text
       env download base (part_offset p i) chunk total t)) rcv).
Proof.
  intros Hp Hi Hh. unfold download_one_chunk_part_positioned.
  destruct (_ <=? _); [done|]. destruct (build_download_range_request _ _ _ _) as [[url h]|]; [|done].
  destruct (n_send env url h) as [resp|] eqn:Hs; [|done].
  destruct (accept env (part_offset p i) chunk total resp t) as [t1 r] eqn:Ha.
  pose proof (ds_accept env i p resp t1 r (mkSys t rcv) (Hh _ _ _ Hs) Hp Hi Ha) as H1.
  destruct r as [[body pe]|e]; [|by apply rtc_once].
  eapply rtc_l; [exact H1|]. cbn [sys_received].
  pose proof (ds_write (n_io env) (part_offset p i) body [] rcv (mkSys t1 ((part_offset p i, body) :: rcv)) eq_refl) as H2.
  destruct (write_and_stage_download_part _ _ _ _ _ _ _) as [t2 r2]. by apply rtc_once.
Qed.

Lemma finalized_is_one_generation s0 s env expected t' :
  dl_init s0 → validated (sys_task s0) → rtc dl_step s0 s →
  finalize_download_content W sha256 platform env expected (sys_task s) = (t', Ok tt) →
  ∃ v, validator_of (sys_task s) = Some v ∧ f_target (dl_files t') = rep v
    ∧ f_dur_target (dl_files t') = rep v ∧ expected = total.
Proof.
  intros H0 Hm Hr Hf. destruct (dl_reachable_inv s0 s H0 Hm Hr) as (p & Hp & Hinv).
  unfold validator_of. rewrite Hp.
  assert (∀ remote, Z.of_nat (length remote) = total → inv remote p (dl_files (sys_task s)) →
    f_target (dl_files t') = remote ∧ f_dur_target (dl_files t') = remote ∧ expected = total) as Hfin.
  { intros remote Hl Hi. rewrite <- Hl.
    apply (finalize_Ok W sha256 platform remote chunk identity HW sha256_len ltac:(by rewrite Hl) chunk_fits env expected
      (sys_task s)); [by exists p|done]. }
  destruct (dp_expected_validator p) as [v|].
  - exists v. split; [done|]. destruct Hinv as (Hl & Hi & _). by apply Hfin.
  - exfalso. destruct Hinv as [[Hmul _] Hall]. destruct total_fits as [Ht0 _], chunk_fits as [Hc0 _].
    destruct (Hfin (replicate (Z.to_nat total) 0)) as (H1 & _); [rewrite length_replicate; lia|apply Hall; rewrite length_replicate; lia|].
    destruct (Hfin (replicate (Z.to_nat total) 1)) as (H2 & _); [rewrite length_replicate; lia|apply Hall; rewrite length_replicate; lia|].
    rewrite H1 in H2. destruct (Z.to_nat total) eqn:E; [lia|]. done.
Qed.

(** Once a validator is pinned it stays, crashes included. *)
Lemma dl_step_validator v s s' :
  dl_step s s' → validator_of (sys_task s) = Some v → validator_of (sys_task s') = Some v.
Proof.
  intros Hst Hv. destruct Hst as [env i p resp t' r s Hh Hp Hi Ha|env offset body l1 l2 s Hrcv|env s|env s
    |s s' [now mp c sc p p' v' locked s1 Hp Hv' Hmp Hcr Hsc Hl]]; cbn [sys_task].
  - unfold accept_part in Ha. destruct (_ =? 200); [by simplify_eq|]. destruct (negb _); [by simplify_eq|].
    destruct (check_range_response _ _ _ _ _ _ _ _) as [t1 r1] eqn:Hc. injection Ha as <- _.
    destruct (check_range_task _ _ _ _ _ _ _ _ _ _ Hc) as [->|(p1 & w & Hp1 & Hn & _)]; [done|].
    unfold validator_of in Hv. rewrite Hp1, Hn in Hv. done.
  - by rewrite write_validator.
  - by rewrite timer_validator.
  - unfold force_download_checkpoint. by rewrite checkpoint_validator.
  - unfold validator_of in *. rewrite Hp, Hv' in Hv. simpl. exact Hv.
Qed.

Lemma dl_steps_validator v s s' :
  rtc dl_step s s' → validator_of (sys_task s) = Some v → validator_of (sys_task s') = Some v.
Proof. intros H Hv. by apply (rtc_invariant dl_step (λ s, validator_of (sys_task s) = Some v) s s'); [intros a b Ha Hab; by apply (dl_step_validator v a b)| |]. Qed.

(** C2: a parallel download delivers one generation of the remote. The server is honest about the
    bytes it labels with a strong validator, nobody else writes the target, and the download has
    more than one part or was started with a validator (a single part without one is accepted by
    the code as it comes). Then with any number of parts in flight in any order, responses of any
    generation, cut-short bodies, file errors, timers and crashes with resume, a finalization that
    succeeds leaves exactly the representation of one strong validator in the file and on stable
    storage, with the announced size. *)
Theorem download_delivers_one_generation s0 s env expected t' :
  dl_init s0 → validated (sys_task s0) → rtc dl_step s0 s →
  finalize_download_content W sha256 platform env expected (sys_task s) = (t', Ok tt) →
  ∃ v, validator_of (sys_task s) = Some v ∧ f_target (dl_files t') = rep v
    ∧ f_dur_target (dl_files t') = rep v ∧ expected = total.
Proof. apply finalized_is_one_generation. Qed.

End System.

(** ** A concrete download *)

(** Three parts, the last one shorter, received out of order. *)
Definition demo_response (a b : Z) : HttpResponse :=
  mkResponse 206
    (insert_header CONTENT_RANGE (bs ("bytes " +:+ pretty a +:+ "-" +:+ pretty b +:+ "/20"))
      (insert_header ETAG ([34] ++ bs "g1" ++ [34]) ∅))
    [BodyChunk (take 3 (file_range demo_remote a (b - a + 1))); BodyChunk [];
     BodyChunk (drop 3 (file_range demo_remote a (b - a + 1)))].

Definition demo_net (a b : Z) : NetEnv :=
  mkNet (λ _ _, Ok (demo_response a b)) None None (λ _, None) None None None None (io_ok 0) (io_ok 0).
Definition demo_protocol : RangeProtocol := mkRangeProtocol (λ _ _ h, Ok h) (λ _, "http://host/file").
Definition demo_status (s : Z) : string := pretty s.
Definition demo_part (a b : Z) (t : DlTask) : DlTask :=
  fst (download_one_chunk_part_positioned 64 demo_sha Unix id str_of demo_status (demo_net a b) demo_protocol ∅
    a 8 20 t).
Definition demo_sys0 : DlTask :=
  mkDl (Some demo_fresh) true true (mkFiles (replicate 20 0) None false (replicate 20 0) None).
Definition demo_sys1 : DlTask := demo_part 16 19 demo_sys0.
Definition demo_sys2 : DlTask := demo_part 0 7 demo_sys1.
Definition demo_sys3 : DlTask := demo_part 8 15 demo_sys2.

Lemma demo_honest a b :
  (a, b) ∈ [(0, 7); (8, 15); (16, 19)] → honest (λ _, demo_remote) (demo_response a b).
Proof.
  intros Hab w cr a' b' T _ _ Hcr Hp.
  assert (parse_content_range (bs ("bytes " +:+ pretty a +:+ "-" +:+ pretty b +:+ "/20")) = Ok (a, b, Some 20)
    ∧ body_bytes (resp_body (demo_response a b)) = file_range demo_remote a (b - a + 1)) as [H1 H2].
  { repeat (apply elem_of_cons in Hab as [Hab|Hab]; [injection Hab as -> ->; split; vm_compute; reflexivity|]).
    by apply elem_of_nil in Hab. }
  unfold demo_response in Hcr. cbn [resp_headers] in Hcr. rewrite lookup_insert_header in Hcr.
  assert (cr = bs ("bytes " +:+ pretty a +:+ "-" +:+ pretty b +:+ "/20")) as -> by congruence.
  rewrite H1 in Hp. injection Hp as <- <- <-. split; [reflexivity|]. exists []. by rewrite app_nil_r.
Qed.

Lemma demo_part_steps ident a b i t p :
  (a, b) ∈ [(0, 7); (8, 15); (16, 19)] → dl_progress t = Some p → (i < dp_part_count p)%nat → a = part_offset p i →
  rtc (dl_step 64 demo_sha Unix id str_of demo_status (λ _, demo_remote) 20 8 ident) (mkSys t [])
    (mkSys (demo_part a b t) []).
Proof.
  intros Hab Hp Hi ->. unfold demo_part. apply positioned_part_steps; [done..|].
  intros url h resp [= <-]. by apply demo_honest.
Qed.

Lemma demo_sys_reachable :
  rtc (dl_step 64 demo_sha Unix id str_of demo_status (λ _, demo_remote) 20 8 [105; 100]) (mkSys demo_sys0 [])
    (mkSys demo_sys3 []).
Proof.
  assert (∀ t i, match dl_progress t with
     | Some p => (i <? dp_part_count p)%nat && (8 * Z.of_nat i =? part_offset p i) | None => false end = true →
     ∃ p, dl_progress t = Some p ∧ (i < dp_part_count p)%nat ∧ 8 * Z.of_nat i = part_offset p i) as Hx.
  { intros t i H. destruct (dl_progress t) as [p|]; [|done]. apply andb_true_iff in H as [H1 H2].
    exists p. split; [done|]. split; [by apply Nat.ltb_lt|by apply Z.eqb_eq]. }
  destruct (Hx demo_sys0 2%nat ltac:(vm_compute; reflexivity)) as (p0 & H0 & L0 & O0).
  destruct (Hx demo_sys1 0%nat ltac:(vm_compute; reflexivity)) as (p1 & H1 & L1 & O1).
  destruct (Hx demo_sys2 1%nat ltac:(vm_compute; reflexivity)) as (p2 & H2 & L2 & O2).
  etrans; [exact (demo_part_steps [105; 100] 16 19 2 demo_sys0 p0 ltac:(repeat constructor) H0 L0 O0)|].
  etrans; [exact (demo_part_steps [105; 100] 0 7 0 demo_sys1 p1 ltac:(repeat constructor) H1 L1 O1)|].
  exact (demo_part_steps [105; 100] 8 15 1 demo_sys2 p2 ltac:(repeat constructor) H2 L2 O2).
Qed.

Lemma download_delivers_one_generation_witness :
  ∃ v, validator_of demo_sys3 = Some v
    ∧ f_dur_target (dl_files (fst (finalize_download_content 64 demo_sha Unix (io_ok 9) 20 demo_sys3))) = demo_remote.
Proof.
  destruct (finalize_download_content 64 demo_sha Unix (io_ok 9) 20 demo_sys3) as [t' r] eqn:Hf.
  assert (snd (finalize_download_content 64 demo_sha Unix (io_ok 9) 20 demo_sys3) = Ok tt) as Hr
    by (vm_compute; reflexivity).
  rewrite Hf in Hr. simpl in Hr. subst r.
  destruct (download_delivers_one_generation 64 demo_sha Unix id str_of demo_status (λ _, demo_remote) 20 8 [105; 100]
    ltac:(lia) demo_sha_len ltac:(vm_compute; split; discriminate) ltac:(vm_compute; split; discriminate)
    (mkSys demo_sys0 []) (mkSys demo_sys3 []) (io_ok 9) 20 t') as (v & H1 & _ & H2 & _).
  - exists 0, 4, (mkDisk None None false), demo_fresh, None, true.
    split; [by intros raw mp [=]|]. split; [vm_compute; split; discriminate|].
    split; [vm_compute; reflexivity|]. split; [by intros v' [=]|reflexivity].
  - left. lia.
  - exact demo_sys_reachable.
  - cbn [sys_task]. exact Hf.
  - exists v. split; [exact H1|exact H2].
Defined.
