(* ===== verification/SerialDownload.v ===== *)
(** * Serial downloads, and targets that others write to

    A serial download streams each part into the target and records the hash of what it received.
    The invariant kept here is about the recorded digests only: it does not depend on what the
    target file holds, so the target may be changed by anyone at any time ([sd_tamper]), the
    process may restart and resume from whatever is on disk ([sd_resume]), and roll-backs may
    fail. What a completed download holds then follows from the final validation. *)
From S2P Require Import Prelude Errors Retry Sidecar Checkpoint CheckpointProps CheckpointCrash.
From S2P Require Import HttpHeaders DownloadTask RangeDownload DownloadSystem.
#[local] Open Scope Z_scope.

Section Virtual.
Context (W : Z) (sha256 : list Z → list Z) (platform : Platform) (remote : list Z).

(** The task with a target that holds the remote's content. *)
Definition virtual_files (f : Files) : Files :=
  mkFiles remote (f_sidecar f) (f_owned f) remote (f_dur_sidecar f).
Definition virtual (t : DlTask) : DlTask := set_files (virtual_files (dl_files t)) t.

(** A commit does not look at the target. *)
Lemma commit_any_target now fault p tg tg' sc owned p' d r :
  commit_checkpoint_after_data_sync W now fault p (mkDisk tg sc owned) = (p', d, r) →
  commit_checkpoint_after_data_sync W now fault p (mkDisk tg' sc owned)
  = (p', mkDisk tg' (sidecar_file d) (namespace_owned d), r).
Proof.
  unfold commit_checkpoint_after_data_sync. destruct (dp_pending p); [by intros [= <- <- <-]|].
  destruct (apply_pending _ _ _) as [[bits digests]|]; [|by intros [= <- <- <-]].
  unfold persist_snapshot_atomic. destruct (encode_snapshot W p bits digests); [|by intros [= <- <- <-]].
  destruct fault; by intros [= <- <- <-].
Qed.

Lemma checkpoint_virtual env t :
  checkpoint_locked_download_target W platform env (virtual t)
  = let '(t', r) := checkpoint_locked_download_target W platform env t in (virtual t', r).
Proof.
  unfold checkpoint_locked_download_target. simpl dl_progress. destruct (dl_progress t) as [p|]; [|done].
  destruct (begin_external_checkpoint p) as [p1 due]. destruct due; [|done]. simpl.
  destruct (dl_locked t); [|done]. simpl. unfold io_step. destruct (e_sync env); [done|].
  destruct (commit_checkpoint_after_data_sync W (e_now env) (e_fault env) p1 (disk_of (sync_target (dl_files t))))
    as [[p2 d] r] eqn:Hc.
  apply (commit_any_target _ _ _ _ (Some remote)) in Hc. unfold disk_of in *. simpl in *. by rewrite Hc.
Qed.

Lemma timer_virtual env t :
  checkpoint_timer_fired W env (virtual t) = virtual (checkpoint_timer_fired W env t).
Proof.
  unfold checkpoint_timer_fired. simpl dl_progress. destruct (dl_progress t) as [p|]; [|done].
  destruct (begin_timer_checkpoint p) as [p1 due]. simpl. destruct (negb due || _); [done|].
  destruct (e_sync env); [done|].
  destruct (commit_checkpoint_after_data_sync W (e_now env) (e_fault env) p1 (disk_of (sync_target (dl_files t))))
    as [[p2 d] r] eqn:Hc.
  apply (commit_any_target _ _ _ _ (Some remote)) in Hc. unfold disk_of in *. simpl in *. by rewrite Hc.
Qed.

Lemma stage_virtual env offset digest t :
  stage_download_part_digest_locked W platform env offset digest (virtual t)
  = let '(t', r) := stage_download_part_digest_locked W platform env offset digest t in (virtual t', r).
Proof.
  unfold stage_download_part_digest_locked. simpl dl_progress. destruct (dl_progress t) as [p|]; [|done].
  destruct (stage_done_with_digest_deferred _ _ _ _ _) as [p1 [o|e]]; [|done].
  destruct (checkpoint_due o); [|done].
  change (set_progress (Some p1) (virtual t)) with (virtual (set_progress (Some p1) t)).
  rewrite checkpoint_virtual. by destruct (checkpoint_locked_download_target _ _ _ _).
Qed.

(** Operations that write the target only. *)
Lemma virtual_target t t' :
  virtual t' = virtual t → dl_progress t' = dl_progress t ∧ dl_locked t' = dl_locked t.
Proof. unfold virtual, set_files. by intros [= -> -> _ _]. Qed.

Lemma rollback_virtual env offset t : virtual (rollback_download_file env offset t) = virtual t.
Proof. unfold rollback_download_file. by destruct (n_rollback env). Qed.

Lemma stream_body_virtual env offset expected_len items n hashed written t t' r :
  stream_body platform env offset expected_len items n hashed written t = (t', r) → virtual t' = virtual t.
Proof.
  revert n hashed written t. induction items as [|[chunk|e] items IH]; intros n hashed written t; simpl.
  - by intros [= <- <-].
  - destruct chunk as [|x chunk]; [apply IH|]. destruct (checked_add _ _ _) as [nw|]; [|by intros [= <- <-]].
    destruct (expected_len <? nw); [intros [= <- <-]; apply rollback_virtual|].
    destruct (n_write env n) as [[k e]|]; [intros [= <- <-]; by rewrite rollback_virtual|].
    intros H. apply IH in H. by rewrite H.
  - destruct (0 <? written); intros [= <- <-]; [apply rollback_virtual|done].
Qed.

(** What a stream that ends normally has hashed. *)
Lemma stream_body_Ok env offset expected_len items n hashed written t t' h w :
  written = Z.of_nat (length hashed) →
  stream_body platform env offset expected_len items n hashed written t = (t', Ok (h, w)) →
  h = hashed ++ body_bytes items ∧ w = Z.of_nat (length h).
Proof.
  revert n hashed written t. induction items as [|[chunk|e] items IH]; intros n hashed written t Hw; simpl; [| |done].
  - intros [= <- <- <-]. by rewrite app_nil_r.
  - destruct chunk as [|x chunk]; [by apply IH|]. destruct (checked_add _ _ _) as [nw|] eqn:Ha; [|done].
    apply checked_add_Some in Ha as [-> _]. destruct (expected_len <? _); [done|].
    destruct (n_write env n) as [[]|]; [done|]. intros H. apply IH in H as [-> ->]; [|rewrite length_app; simpl in *; lia].
    by rewrite <- (assoc_L (++)).
Qed.

End Virtual.

Section Serial.
Context (W : Z) (sha256 : list Z → list Z) (platform : Platform).
Context (redact_secrets : string → string) (from_utf8_lossy : list Z → string) (status_text : Z → string).
Context (rep : string → list Z) (total chunk : Z) (identity : list Z).
Hypothesis HW : 32 ≤ W.
Hypothesis sha256_len : ∀ bs, length (sha256 bs) = PART_DIGEST_LEN.
Hypothesis total_fits : fits U64_MAX total.
Hypothesis chunk_fits : fits U64_MAX chunk.
#[local] Abbreviation collision := (hash_collision sha256).
#[local] Abbreviation vinv remote p f :=
  (ck_inv W sha256 remote chunk identity (ck_of p CkIdle (virtual_files remote f))).

(** ** The final validation *)

Lemma validate_parts_digest f p indices i :
  validate_parts sha256 f p indices = Ok tt → i ∈ indices → has p i →
  grid_ok W p → (i < dp_part_count p)%nat →
  dp_digests p !! i = Some (sha256 (part_bytes p i f)) ∧ part_end p i ≤ Z.of_nat (length f).
Proof.
  intros H Hin Hh Hg Hi. induction indices as [|j indices IH]; [by apply elem_of_nil in Hin|]. simpl in H.
  apply elem_of_cons in Hin as [->|Hin].
  - unfold has in Hh. rewrite Hh in H. simpl in H. rewrite (part_range_eq W HW p j Hg Hi) in H.
    unfold digest_open_file_range in H. fold (part_bytes p j f) in H.
    destruct (Z.of_nat _ =? _) eqn:E; [|done]. case_bool_decide as Hd; [|done]. split; [done|].
    apply (length_part_bytes W HW p j f Hg Hi). by apply Z.eqb_eq in E.
  - destruct (bit_is_set (dp_bits p) j); simpl in H; [|by apply IH].
    destruct (part_range p j) as [[o l]|]; [|done]. destruct (digest_open_file_range _ _ _ _); [|done].
    case_bool_decide; [by apply IH|done].
Qed.

(** A validated file whose parts are all recorded with the remote's digests is the remote. *)
Lemma validated_is_remote remote p f d :
  Z.of_nat (length remote) = total → vinv remote p f → all_done p = true →
  validate_committed_content sha256 p d = Ok tt → ∀ tg, target_file d = Some tg → tg = remote ∨ collision.
Proof.
  intros Hlen Hi Hall Hv tg Htg. unfold validate_committed_content, open_target in Hv. rewrite Htg in Hv. cbn [ok_or] in Hv.
  destruct (Z.eqb_spec (Z.of_nat (length tg)) (dp_total p)) as [Hl|]; [|done]. cbn [negb] in Hv.
  pose proof (ci_grid _ _ _ _ _ _ Hi) as Hg. pose proof (ci_total _ _ _ _ _ _ Hi) as Ht. simpl in Hg, Ht.
  destruct (decide (Forall (λ i, part_bytes p i tg = part_bytes p i remote) (seq 0 (dp_part_count p)))) as [Hf|Hf].
  - left. apply (all_parts_cover W remote HW p); [done|congruence|lia|].
    intros i Hi'. rewrite Forall_forall in Hf. apply Hf, elem_of_seq. lia.
  - right. apply not_Forall_Exists in Hf; [|apply _]. apply Exists_exists in Hf as (i & Hin & Hne).
    apply elem_of_seq in Hin as Hin'. assert (i < dp_part_count p)%nat as Hi' by lia.
    assert (has p i) as Hh. { unfold all_done in Hall. rewrite forallb_forall in Hall. apply Hall, in_seq. lia. }
    destruct (validate_parts_digest tg p _ i Hv Hin Hh Hg Hi') as [Hd He].
    destruct (ci_mem _ _ _ _ _ _ Hi i Hi' Hh) as (Hd' & _ & _). simpl in Hd'.
    exists (part_bytes p i tg), (part_bytes p i remote). split_and!; [done| |congruence].
    apply Nat2Z.inj. pose proof (part_bounds W HW p i Hg Hi') as (_ & Hb & _).
    rewrite (proj2 (length_part_bytes W HW p i tg Hg Hi') He).
    symmetry. apply (length_part_bytes W HW p i remote Hg Hi'). lia.
Qed.

(** ** The invariant *)

Definition serial_inv (t : DlTask) : Prop :=
  match dl_progress t with
  | None => True
  | Some p =>
      match dp_expected_validator p with
      | Some v => Z.of_nat (length (rep v)) = total ∧ vinv (rep v) p (dl_files t)
      | None => chunk < total ∧ ∀ remote, Z.of_nat (length remote) = total → vinv remote p (dl_files t)
      end
  end.

(** The remotes an invariant speaks about. *)
Definition candidate (v : option string) (remote : list Z) : Prop :=
  Z.of_nat (length remote) = total ∧ match v with Some v => remote = rep v | None => True end.

Lemma serial_inv_spec t p :
  dl_progress t = Some p →
  serial_inv t ↔ ((dp_expected_validator p = None → chunk < total)
                  ∧ ∀ v, dp_expected_validator p = Some v → Z.of_nat (length (rep v)) = total)
                 ∧ ∀ remote, candidate (dp_expected_validator p) remote → vinv remote p (dl_files t).
Proof.
  intros Hp. unfold serial_inv, candidate. rewrite Hp. destruct (dp_expected_validator p) as [v|].
  - split.
    + intros [H1 H2]. split; [split; [done|by intros ? [= <-]]|by intros ? [_ ->]].
    + intros [[_ H1] H2]. split; [by apply H1|]. apply H2. split; [by apply H1|done].
  - split.
    + intros [Hm H]. split; [by split|by intros ? [? _]; apply H].
    + intros [[Hm _] H]. split; [by apply Hm|]. intros remote Hr. by apply H.
Qed.

(** Operations that refine the protocol on every candidate and keep the validator. *)
Lemma refines_serial_inv t t' :
  (∀ p remote, dl_progress t = Some p → candidate (dp_expected_validator p) remote → vinv remote p (dl_files t) →
     ck_refines W sha256 remote chunk identity (virtual remote t) (virtual remote t')) →
  is_Some (dl_progress t) → validator_of t' = validator_of t → serial_inv t → serial_inv t' ∧ is_Some (dl_progress t').
Proof.
  intros Href [p Hp] Hval Hinv. apply (serial_inv_spec t p Hp) in Hinv as [[Hmul Hlen] Hinv].
  assert (∃ remote, candidate (dp_expected_validator p) remote) as [r0 Hr0].
  { destruct (dp_expected_validator p) as [v|]; [exists (rep v); split; [by apply Hlen|done]|].
    exists (replicate (Z.to_nat total) 0). split; [|done]. rewrite length_replicate. destruct total_fits; lia. }
  destruct (Href p r0 Hp Hr0 (Hinv r0 Hr0) p Hp) as (p' & Hp' & _).
  assert (dp_expected_validator p' = dp_expected_validator p) as Hv.
  { unfold validator_of in Hval. simpl in Hp'. by rewrite Hp, Hp' in Hval. }
  split; [|by exists p']. apply (serial_inv_spec t' p' Hp'). rewrite Hv. split; [done|].
  intros remote Hr. destruct (Href p remote Hp Hr (Hinv remote Hr) p Hp) as (q & Hq & Hs).
  assert (q = p') as -> by (simpl in Hq, Hp'; congruence). pose proof (proj1 Hr) as Hl.
  eapply (ck_steps_inv W sha256 remote chunk identity HW sha256_len); rewrite ?Hl; [done|done| |exact Hs].
  by apply Hinv.
Qed.

Lemma serial_inv_same t t' :
  dl_progress t' = dl_progress t → (∀ remote, virtual_files remote (dl_files t') = virtual_files remote (dl_files t)) →
  serial_inv t → serial_inv t'.
Proof.
  intros Hp Hv. unfold serial_inv. rewrite Hp. destruct (dl_progress t) as [p|]; [|done].
  destruct (dp_expected_validator p) as [v|]; [by rewrite Hv|]. intros [Hm H]. split; [done|]. intros remote Hr. rewrite Hv. by apply H.
Qed.

Lemma checkpoint_serial env t t' r :
  checkpoint_locked_download_target W platform env t = (t', r) → is_Some (dl_progress t) → serial_inv t →
  serial_inv t' ∧ is_Some (dl_progress t') ∧ validator_of t' = validator_of t.
Proof.
  intros H Hp Hi. pose proof (checkpoint_validator W platform env t) as Hv. rewrite H in Hv.
  destruct (refines_serial_inv t t') as [H1 H2]; try done. intros p remote _ _ _.
  pose proof (checkpoint_refines W sha256 platform remote chunk identity env (virtual remote t)) as Hr.
  rewrite checkpoint_virtual, H in Hr. exact Hr.
Qed.

Lemma timer_serial env t :
  is_Some (dl_progress t) → serial_inv t →
  serial_inv (checkpoint_timer_fired W env t) ∧ is_Some (dl_progress (checkpoint_timer_fired W env t)).
Proof.
  intros Hp Hi. apply (refines_serial_inv t); [|done|apply timer_validator|done]. intros p remote _ _ _.
  pose proof (timer_refines W sha256 remote chunk identity env (virtual remote t)) as Hr.
  by rewrite timer_virtual in Hr.
Qed.

Lemma stage_serial env t t' r p i v :
  dl_progress t = Some p → (i < dp_part_count p)%nat → dp_expected_validator p = Some v →
  stage_download_part_digest_locked W platform env (part_offset p i) (sha256 (part_bytes p i (rep v))) t = (t', r) →
  serial_inv t → serial_inv t' ∧ is_Some (dl_progress t') ∧ validator_of t' = validator_of t.
Proof.
  intros Hp Hi Hv H Hinv. pose proof (stage_locked_validator W platform env (part_offset p i)
    (sha256 (part_bytes p i (rep v))) t) as Hval. rewrite H in Hval.
  destruct (refines_serial_inv t t') as [H1 H2]; try done. intros q remote Hq [Hl Hr] _.
  assert (q = p) as -> by congruence. rewrite Hv in Hr. subst remote.
  pose proof (stage_refines W sha256 platform (rep v) chunk identity env (virtual (rep v) t) p i Hp Hi eq_refl) as Hs.
  rewrite stage_virtual, H in Hs. exact Hs.
Qed.

(** With no validator nothing is recorded, unless the hash has a collision. *)
Lemma unlatched_nothing_done p f :
  chunk < total → (∀ remote, Z.of_nat (length remote) = total → vinv remote p f) → all_done p = true → collision.
Proof.
  intros Hmul Hi Hall. destruct total_fits as [H0 _], chunk_fits as [Hc0 _].
  pose proof (Hi (replicate (Z.to_nat total) 0) ltac:(rewrite length_replicate; lia)) as Ha.
  pose proof (Hi (replicate (Z.to_nat total) 1) ltac:(rewrite length_replicate; lia)) as Hb.
  pose proof (ci_grid _ _ _ _ _ _ Ha) as Hg. pose proof (ci_total _ _ _ _ _ _ Ha) as Ht. simpl in Hg, Ht.
  rewrite length_replicate in Ht.
  destruct (grid_count W HW p Hg) as (Hcp & Hn & _).
  pose proof (div_ceil_spec (dp_total p) (dp_chunk p) ltac:(lia) Hcp) as [_ Hup].
  assert (0 < dp_part_count p)%nat as Hpos by nia.
  assert (has p 0) as Hh. { unfold all_done in Hall. rewrite forallb_forall in Hall. apply Hall, in_seq. lia. }
  destruct (ci_mem _ _ _ _ _ _ Ha 0%nat Hpos Hh) as (Hd1 & _). destruct (ci_mem _ _ _ _ _ _ Hb 0%nat Hpos Hh) as (Hd2 & _).
  simpl in Hd1, Hd2. rewrite Hd1 in Hd2. injection Hd2 as Hd2.
  pose proof (part_bounds W HW p 0 Hg Hpos) as (Ho & He & _).
  exists (part_bytes p 0 (replicate (Z.to_nat total) 0)), (part_bytes p 0 (replicate (Z.to_nat total) 1)).
  split_and!; [| |done].
  - intros Heq. apply (f_equal (λ l, l !! 0%nat)) in Heq. unfold part_bytes in Heq.
    rewrite !file_range_lookup in Heq by (unfold part_len; lia).
    rewrite !decide_True in Heq by (unfold part_len; lia). rewrite !lookup_replicate_2 in Heq by lia. done.
  - apply Nat2Z.inj. rewrite !(proj2 (length_part_bytes W HW p 0 _ Hg Hpos)); [done|rewrite length_replicate; lia..].
Qed.

Lemma finalize_serial env expected t t' r :
  finalize_download_content W sha256 platform env expected t = (t', r) → serial_inv t →
  serial_inv t' ∧ (r = Ok tt → (∃ v, validator_of t = Some v ∧ f_target (dl_files t') = rep v) ∨ collision).
Proof.
  intros H Hi. unfold finalize_download_content in H.
  destruct (finalization W sha256 platform env expected t) as [t1 fin] eqn:Hf.
  destruct (release_download_target_file_lock platform env t1) as [t2 rel] eqn:Hrel.
  destruct (release_lock_spec platform env t1 t2 rel Hrel) as (_ & R2 & R3 & _).
  assert (∀ remote, virtual_files remote (dl_files t2) = virtual_files remote (dl_files t1)) as Hvf.
  { intros remote. unfold release_download_target_file_lock, io_step in Hrel. destruct (dl_locked t1); cbn [negb] in Hrel; [|by injection Hrel as <- _]. destruct (e_release_sync env), (e_unlock env); injection Hrel as <- _; done. }
  assert (serial_inv t1 ∧ (fin = Ok tt → (∃ v, validator_of t = Some v ∧ f_target (dl_files t1) = rep v) ∨ collision)) as [H1 H2].
  { clear H Hrel R2 R3 Hvf t2 rel. unfold finalization in Hf.
    destruct (dl_progress t) as [p|] eqn:Hp.
    2:{ unfold checkpoint_locked_download_target in Hf. rewrite Hp in Hf. unfold io_step in Hf.
        destruct (e_stat env); [by simplify_eq|]. destruct (negb _); [by simplify_eq|].
        unfold take_download_progress_after_checkpoint in Hf. rewrite Hp in Hf. by simplify_eq. }
    destruct (checkpoint_locked_download_target W platform env t) as [t0 r0] eqn:Hck.
    destruct (checkpoint_serial env t t0 r0 Hck ltac:(by exists p) Hi) as (Hi0 & [p0 Hp0] & Hv0).
    destruct r0 as [[]|]; [|injection Hf as <- <-; by split]. unfold io_step in Hf.
    destruct (e_stat env); [injection Hf as <- <-; by split|].
    destruct (negb _); [injection Hf as <- <-; by split|].
    unfold take_download_progress_after_checkpoint in Hf. rewrite Hp0 in Hf.
    destruct (validate_committed_content sha256 p0 (disk_of (dl_files t0))) as [[]|] eqn:Hval;
      [|injection Hf as <- <-; by split].
    destruct (negb (dp_total p0 =? expected)); [injection Hf as <- <-; by split|].
    destruct (all_done p0) eqn:Hall; cbn [negb] in Hf; [|injection Hf as <- <-; by split].
    injection Hf as <- <-. split; [by destruct (e_delete env)|]. intros _.
    apply (serial_inv_spec t0 p0 Hp0) in Hi0 as [[Hmul Hlen] Hi0].
    match goal with |- context [f_target (dl_files ?x)] =>
      assert (f_target (dl_files x) = f_target (dl_files t0)) as -> by (by destruct (e_delete env)) end.
    rewrite <- Hv0. unfold validator_of. rewrite Hp0. destruct (dp_expected_validator p0) as [v|] eqn:Hv.
    - destruct (validated_is_remote (rep v) p0 (dl_files t0) (disk_of (dl_files t0))
        (Hlen v eq_refl) (Hi0 (rep v) (conj (Hlen v eq_refl) eq_refl)) Hall Hval _ eq_refl) as [->|?]; [left; by exists v|by right].
    - right. apply (unlatched_nothing_done p0 (dl_files t0)); [by apply Hmul| |done]. intros remote Hr. by apply Hi0. }
  injection H as <- Hr. split.
  - apply (serial_inv_same t1); [done|done|done].
  - intros ->. destruct fin as [[]|]; [|done]. destruct (H2 eq_refl) as [(v & Hv & Hx)|?]; [|by right].
    left. exists v. split; [done|]. simpl. congruence.
Qed.

(** ** One part *)

#[local] Abbreviation honest := (honest rep).
#[local] Abbreviation delivered t t' :=
  ((∃ v, (validator_of t = None ∨ validator_of t = Some v) ∧ f_target (dl_files t') = rep v) ∨ collision).

Lemma finish_serial env next t t' r :
  serial_download_chunk_finish W sha256 platform env next total t = (t', r) → serial_inv t →
  serial_inv t' ∧ (∀ o, r = Ok o → done o = true → delivered t t').
Proof.
  unfold serial_download_chunk_finish. intros H Hi. destruct (total <=? next).
  - destruct (finalize_download_content _ _ _ _ _ t) as [t1 r1] eqn:Hf.
    destruct (finalize_serial _ _ _ _ _ Hf Hi) as [H1 H2]. injection H as <- <-. split; [done|].
    intros o Ho _. destruct r1 as [[]|]; [|done]. destruct (H2 eq_refl) as [(v & Hv & Hx)|?]; [|by right].
    left. exists v. auto.
  - injection H as <- <-. split; [done|]. by intros o [= <-].
Qed.

(** The header checks: they fix the validator, and then the response is about that generation. *)
Lemma check_serial mode lmode prefix offset resp t p t1 r :
  check_range_response mode lmode prefix offset chunk total (resp_headers resp) t = (t1, r) →
  honest resp → resp_status resp = 206 → dl_progress t = Some p → serial_inv t →
  serial_inv t1 ∧ (is_ok r = false → t1 = t)
  ∧ (∀ len, r = Ok len → ∃ p1 w, dl_progress t1 = Some p1 ∧ dp_expected_validator p1 = Some (str_of w)
       ∧ download_generation_validator (resp_headers resp) = Some w
       ∧ (p1 = p ∨ p1 = set_expected_validator (str_of w) p)
       ∧ (validator_of t = None ∨ validator_of t = Some (str_of w))).
Proof.
  intros Hck Hh Hst Hp Hi. unfold validator_of. rewrite Hp.
  pose proof (check_range_task _ _ _ _ _ _ _ _ _ _ Hck) as Htask.
  destruct r as [len|e].
  2:{ destruct Htask as [->|(? & ? & ? & ? & ? & ? & [=])]. by split_and!. }
  destruct (check_range_Ok _ _ _ _ _ _ _ _ _ _ Hck) as (cr & end_ & Hcr & Hpc & He & -> & Hle & Hval).
  unfold validate_or_latch_range_validator in Hval. rewrite Hp in Hval.
  destruct (dp_expected_validator p) as [v|] eqn:Hv, (download_generation_validator (resp_headers resp)) as [w|] eqn:Hw;
    simpl in Hval; try done.
  - case_bool_decide as Hvw; [|done]. injection Hval as <-. subst v. split_and!; [done|done|].
    intros _ _. exists p, w. auto 10.
  - injection Hval as <-. split_and!; [|done|intros _ _; eexists _, w; simpl; by auto 10].
    destruct (Hh w cr _ _ _ Hst Hw Hcr Hpc) as (Hlen & _).
    apply (serial_inv_spec t p Hp) in Hi as [_ Hi]. rewrite Hv in Hi.
    unfold serial_inv. simpl. split; [done|].
    pose proof (Hi (rep (str_of w)) (conj (eq_sym Hlen) I)) as Hi'.
    eapply (ck_step_inv W sha256 (rep (str_of w)) chunk identity HW sha256_len); rewrite <- ?Hlen; [done|done|exact Hi'|].
    apply (ck_latch _ _ _ _ _ (str_of w) (ck_of p CkIdle (virtual_files (rep (str_of w)) (dl_files t)))).
  - apply (serial_inv_spec t p Hp) in Hi as [[Hmul _] _]. by rewrite (proj2 (Z.ltb_lt _ _) (Hmul Hv)) in Hval.
Qed.

Lemma receive_serial env offset expected_len items t t' r p i v :
  receive_serial_part W sha256 platform env offset expected_len total items t = (t', r) →
  dl_progress t = Some p → dp_expected_validator p = Some v → (i < dp_part_count p)%nat → offset = part_offset p i →
  (Z.of_nat (length (body_bytes items)) = expected_len → body_bytes items = part_bytes p i (rep v)) →
  serial_inv t → serial_inv t' ∧ (∀ o, r = Ok o → done o = true → delivered t t').
Proof.
  unfold receive_serial_part. intros H Hp Hv Hlt -> Hbody Hi.
  destruct (dl_locked t); [|injection H as <- <-; by split]. cbn [negb] in H.
  destruct (n_seek env); [injection H as <- <-; by split|].
  destruct (stream_body platform env (part_offset p i) expected_len items 0 [] 0 t) as [t1 r1] eqn:Hsb.
  assert (∀ remote, virtual remote t1 = virtual remote t) as Hvt by (intros; by eapply stream_body_virtual).
  assert (∀ t2, (∀ remote, virtual remote t2 = virtual remote t) → serial_inv t2 ∧ dl_progress t2 = Some p) as Hsame.
  { intros t2 Ht2. split.
    - apply (serial_inv_same t); [by apply (virtual_target [] _ _ (Ht2 []))| |done].
      intros remote. specialize (Ht2 remote). exact (f_equal dl_files Ht2).
    - rewrite <- Hp. by apply (virtual_target [] _ _ (Ht2 [])). }
  destruct (Hsame t1 Hvt) as [Hi1 Hp1].
  assert (∀ t2, (∀ remote, virtual remote t2 = virtual remote t1) → serial_inv t2) as Hsame1.
  { intros t2 Ht2. apply Hsame. intros remote. by rewrite Ht2. }
  destruct r1 as [[h w]|e]; [|injection H as <- <-; by split].
  destruct (stream_body_Ok platform env _ _ _ _ _ _ _ _ _ _ eq_refl Hsb) as [-> ->]. simpl app in H.
  destruct (_ =? 0); [injection H as <- <-; by split|].
  destruct (Z.eqb_spec (Z.of_nat (length (body_bytes items))) expected_len) as [Hl|]; cbn [negb] in H.
  2:{ injection H as <- <-. split; [apply Hsame1; intros; apply rollback_virtual|done]. }
  destruct (checked_add _ _ _) as [next|]; [|injection H as <- <-; by split].
  destruct (n_flush env).
  { injection H as <- <-. split; [apply Hsame1; intros; apply rollback_virtual|done]. }
  destruct (ensure_download_file_present _ _ _ _) as [[]|]; [|injection H as <- <-; by split].
  rewrite (Hbody Hl) in H.
  destruct (stage_serial_download_part W platform (n_io env) _ _ t1) as [t2 r2] eqn:Hs.
  destruct (stage_serial (n_io env) t1 t2 r2 p i v Hp1 Hlt Hv Hs Hi1) as (Hi2 & _ & Hv2).
  destruct r2; [|injection H as <- <-; by split].
  apply finish_serial in H as [H1 H2]; [|done]. split; [done|].
  intros o Ho Hd. destruct (H2 o Ho Hd) as [(v' & Hv' & Hx)|?]; [|by right]. left. exists v'. split; [|done].
  rewrite Hv2 in Hv'. unfold validator_of in *. by rewrite Hp1 in Hv'; rewrite Hp.
Qed.

Lemma chunk_serial env download base t p offset t' r :
  dl_progress t = Some p → serial_inv t →
  total ≤ offset ∨ (∃ i, (i < dp_part_count p)%nat ∧ offset = part_offset p i) →
  (∀ url h resp, n_send env url h = Ok resp → honest resp) →
  download_one_chunk W sha256 platform redact_secrets from_utf8_lossy status_text env download base offset chunk total t
    = (t', r) →
  serial_inv t' ∧ (∀ o, r = Ok o → done o = true → delivered t t').
Proof.
  intros Hp Hi Hoff Hh H. unfold download_one_chunk in H. destruct (total <=? offset) eqn:Eo; zbool.
  { destruct (finalize_download_content _ _ _ _ _ t) as [t1 r1] eqn:Hf.
    destruct (finalize_serial _ _ _ _ _ Hf Hi) as [H1 H2]. injection H as <- <-. split; [done|].
    intros o Ho _. destruct r1 as [[]|]; [|done]. destruct (H2 eq_refl) as [(v & Hv & Hx)|?]; [|by right].
    left. exists v. auto. }
  destruct Hoff as [?|(i & Hlt & ->)]; [lia|]. rewrite Hp in H.
  destruct (is_done W p (part_offset p i)); [by apply finish_serial in H|].
  destruct (build_download_range_request _ _ _ _) as [[url h]|]; [|injection H as <- <-; by split].
  destruct (n_send env url h) as [resp|] eqn:Hs; [|injection H as <- <-; by split]. apply Hh in Hs.
  destruct (Z.eqb_spec (resp_status resp) 206) as [Hst|]; cbn [negb] in H; [|injection H as <- <-; by split].
  destruct (check_range_response _ _ _ _ _ _ _ t) as [t1 r1] eqn:Hck.
  destruct (check_serial _ _ _ _ _ _ _ _ _ Hck Hs Hst Hp Hi) as (Hi1 & Herr & Hok).
  destruct r1 as [len|e]; [|injection H as <- <-; by split].
  destruct (Hok len eq_refl) as (p1 & w & Hp1 & Hv1 & Hw & Hp1p & Hvt).
  destruct (check_range_Ok _ _ _ _ _ _ _ _ _ _ Hck) as (cr & end_ & Hcr & Hpc & He & -> & _ & _).
  assert (part_offset p1 i = part_offset p i ∧ dp_part_count p1 = dp_part_count p) as [Ho Hn] by (by destruct Hp1p as [->| ->]).
  pose proof Hi1 as Hi1'. apply (serial_inv_spec t1 p1 Hp1) in Hi1' as [[_ Hlen] Hall]. rewrite Hv1 in Hlen, Hall.
  pose proof (Hall (rep (str_of w)) (conj (Hlen _ eq_refl) eq_refl)) as Hv.
  pose proof (ci_grid _ _ _ _ _ _ Hv) as Hg. pose proof (ci_total _ _ _ _ _ _ Hv) as Ht.
  pose proof (ci_chunk _ _ _ _ _ _ Hv) as Hc. simpl in Hg, Ht, Hc. rewrite (Hlen _ eq_refl) in Ht.
  eapply (receive_serial env _ _ _ _ _ _ p1 i (str_of w)) in H as [H1 H2]; [|done|done|by rewrite Hn|done| |done].
  2:{ rewrite <- Ho. intros Hl. apply (honest_body W rep total chunk HW (rep (str_of w)) p1 i resp w cr end_); try done.
      - by apply Hlen.
      - by rewrite Hn.
      - by rewrite Ho.
      - by rewrite Ho. }
  split; [done|]. intros o Hoo Hd. destruct (H2 o Hoo Hd) as [(v & Hv' & Hx)|?]; [|by right]. left. exists v.
  split; [|done]. unfold validator_of in Hv'. rewrite Hp1, Hv1 in Hv'. destruct Hv' as [|[= <-]]; [done|]. done.
Qed.

(** ** Resuming and compacting *)

(** Loading over any target keeps only parts with the remote's digests. *)
Lemma load_virtual remote p f tg sc now mp p' :
  Z.of_nat (length remote) = total → vinv remote p f → fits U32_MAX mp →
  sc = f_sidecar f ∨ sc = f_dur_sidecar f →
  load_or_create_serial W sha256 now (mkDisk tg sc (f_owned f)) total chunk mp identity = Ok p' →
  vinv remote p' (mkFiles [] sc (f_owned f) [] sc).
Proof.
  intros Hlen Hs Hmp Hsc Hl. set (s := ck_of p CkIdle (virtual_files remote f)) in *.
  eapply (ck_crash_inv W sha256 remote chunk identity HW sha256_len) with (s := s) (c := remote) (sc := sc) (p := p'); rewrite ?Hlen; try done.
  { split; [done|]. intros j. by left. }
  destruct (fresh_Ok W remote chunk identity now mp p) as [p0 Hf]; try apply Hs; try done.
  rewrite Hlen in Hf. destruct (fresh_inv W HW now total chunk mp identity p0 total_fits chunk_fits (proj1 Hmp) Hf)
    as (Hg0 & Ht & Hc & _ & Hid & Hpe & Hpb & Hno).
  set (d := mkDisk tg sc (f_owned f)) in *.
  destruct (load_eq W sha256 HW now d total chunk mp identity p0) as [_ Hle]; try done; [apply Hmp|].
  rewrite Hle in Hl. destruct (total <? target_len d).
  { injection Hl as <-. split; try done; [by rewrite Hlen|by intros i _ Hh%Hno|by intros i _ Hh%Hno]. }
  destruct (read_claims_verified W sha256 HW sha256_len d (target_len d) p0 Hg0 Hno ltac:(lia)) as (q & Hq & Hsg & Hg & Hh).
  rewrite Hq in Hl. injection Hl as ->.
  destruct (same_grid_fields _ _ Hsg) as (E1 & E2 & E3 & E4 & E5).
  destruct (same_download W p0 p' Hg0 Hg E1 E2) as (_ & Hpb' & _).
  assert (sidecar_ok W sha256 remote chunk identity s sc) as Hok by (destruct Hsc as [->| ->]; apply Hs).
  assert (∀ i, (i < dp_part_count p0)%nat → ∀ p1, sidecar_claims W d p0 p1 → has p1 i →
    dp_digests p1 !! i = Some (sha256 (part_bytes p0 i remote))) as Hcl.
  { intros i Hi p1 H1 H2.
    destruct (sidecar_claims_of W sha256 remote chunk identity HW ltac:(by rewrite Hlen) chunk_fits s sc [] (f_owned f) p0
      Hs Hg0 ltac:(by rewrite Hlen) Hc Hid eq_refl Hok i Hi) as [_ H3]. by apply (H3 p1). }
  split; rewrite ?Hlen; try done; try congruence.
  - by rewrite Hsg.
  - assert (dp_pending_bits p' = dp_pending_bits p0) as -> by (by rewrite Hsg).
    rewrite Hpb. f_equal.
    destruct (table_lengths W p' Hg) as [Hl1 _], (table_lengths W p0 Hg0) as [Hl2 _]. rewrite E5 in Hl1. lia.
  - intros i Hi Hhp. rewrite E5 in Hi. split; [|done]. destruct (Hh i Hi) as [H1 H2].
    destruct (H2 Hhp) as [(c & Hc1 & _ & Hd) _].
    apply H1 in Hhp as (p1 & Hc2 & Ht1 & _ & (c' & Hc' & _ & Hd1)).
    pose proof (Hcl i Hi p1 Hc2 Ht1) as Hd2. assert (c' = c) as -> by congruence.
    destruct (claims_shape W HW _ _ _ Hg0 Hc2) as [Hp1 _].
    destruct (same_grid_geometry p0 p1 i Hp1) as (_ & _ & _ & G2). rewrite G2 in Hd1.
    rewrite Hd, !Hpb'. congruence.
  - intros i Hi Hhp. rewrite E5 in Hi. destruct (Hh i Hi) as [H1 _].
    apply H1 in Hhp as (p1 & (_ & raw & bits & digests & Hraw & Hdec & ->) & Hb & _).
    exists raw, bits, digests. rewrite E3. rewrite Ht, Hc, Hid in Hdec. done.
Qed.

Lemma clear_parts_spec ix bits digests b' d' :
  clear_parts ix bits digests = Ok (b', d') →
  Forall (λ d : list Z, length d = PART_DIGEST_LEN) digests →
  length b' = length bits ∧ length d' = length digests ∧ Forall (λ d : list Z, length d = PART_DIGEST_LEN) d'
  ∧ ∀ j, bit_is_set b' j = true → bit_is_set bits j = true ∧ d' !! j = digests !! j.
Proof.
  revert bits digests. induction ix as [|i ix IH]; intros bits digests; simpl; [by intros [= <- <-]|].
  destruct (bits !! byte_of i) eqn:Hb; [|done]. intros H Hf.
  destruct (bit_clear_spec bits i) as [Hl Hbc].
  apply IH in H as (H1 & H2 & H3 & H4); [|apply Forall_insert; [done|apply length_replicate]].
  rewrite H1, H2, Hl, length_insert. split_and!; try done. intros j Hj. destruct (H4 j Hj) as [H5 H6].
  rewrite Hbc in H5. apply andb_true_iff in H5 as [H5 H7]. split; [done|]. rewrite H6.
  rewrite list_lookup_insert_ne; [done|]. intros ->. by rewrite bool_decide_eq_true_2 in H5.
Qed.

(** A successful compaction: fewer parts, all of them right, and a sidecar that says so. *)
Lemma retain_virtual remote p f now fault tg p' d wm :
  Z.of_nat (length remote) = total → vinv remote p f →
  retain_contiguous_prefix_after_data_sync W now fault p (mkDisk tg (f_sidecar f) (f_owned f)) = (p', d, Ok wm) →
  vinv remote p' (mkFiles [] (sidecar_file d) (namespace_owned d) [] (sidecar_file d)).
Proof.
  intros Hlen Hi H. unfold retain_contiguous_prefix_after_data_sync in H.
  destruct (if contiguous_watermark p =? dp_total p then Ok _ else usize_try_from W _ _) as [k|]; [|done].
  destruct (clear_parts _ _ _) as [[b' d']|] eqn:Hc; [|done].
  pose proof (ci_grid _ _ _ _ _ _ Hi) as Hg. simpl in Hg. destruct (g_table _ _ Hg) as (n & Hn & Hbl & Hdl & Hf).
  destruct (clear_parts_spec _ _ _ _ _ Hc Hf) as (C1 & C2 & C3 & C4).
  assert (table_ok W (dp_total p) (dp_chunk p) b' d') as Htab by (exists n; rewrite C1, C2; by split_and!).
  pose proof (ci_total _ _ _ _ _ _ Hi) as Ht. pose proof (ci_chunk _ _ _ _ _ _ Hi) as Hch.
  pose proof (ci_id _ _ _ _ _ _ Hi) as Hid. simpl in Ht, Hch, Hid.
  unfold persist_snapshot_atomic in H. rewrite (encode_layout W p b' d') in H; try apply Hg; try done.
  destruct fault; try done. injection H as <- <- _. simpl.
  set (q := set_timer false (publish now b' d' p)).
  set (s' := ck_of q CkIdle _).
  assert (good_table sha256 remote s' b' d') as Hgt.
  { intros i Hi' Hb. destruct (C4 i Hb) as [Hb0 Hd0].
    destruct (ci_mem _ _ _ _ _ _ Hi i Hi' Hb0) as (Hm & _ & _). simpl in Hm. split; [by rewrite Hd0|done]. }
  assert (sidecar_ok W sha256 remote chunk identity s'
    (Some (sidecar_layout (dp_total p) (dp_chunk p) (dp_max_parts p) (dp_identity p) b' d'))) as Hsc.
  { right. split; [done|]. exists (dp_max_parts p), b', d'. rewrite <- Ht, <- Hch, <- Hid. split_and!; try done. apply Hg. }
  split; try done.
  - destruct Hg. by split.
  - simpl. unfold zeroed_bytes. rewrite length_replicate, C1. apply (ci_pbits _ _ _ _ _ _ Hi).
  - simpl. intros i. rewrite zeroed_not_set. set_solver.
Qed.

(** ** The system *)

#[local] Abbreviation chunk_op :=
  (download_one_chunk W sha256 platform redact_secrets from_utf8_lossy status_text).

(** The resumption over the sidecar a crash left and whatever is in the target: [tg] when the
    checkpoint is loaded, [locked_target] once the file is locked. *)
Inductive sd_resumes : DlTask → DlTask → Prop :=
| sd_resumed now mp tg sc p p' v locked locked_target dur_target t :
    dl_progress t = Some p → dp_expected_validator p = Some v → fits U32_MAX mp →
    sc = f_sidecar (dl_files t) ∨ sc = f_dur_sidecar (dl_files t) →
    load_or_create_serial W sha256 now (mkDisk tg sc (f_owned (dl_files t))) total chunk mp identity = Ok p' →
    sd_resumes t (mkDl (Some (set_expected_validator v p')) locked true
                    (mkFiles locked_target sc (f_owned (dl_files t)) dur_target sc)).

Inductive sd_step : DlTask → DlTask → Prop :=
| sd_chunk env download base p offset t :
    dl_progress t = Some p →
    total ≤ offset ∨ (∃ i, (i < dp_part_count p)%nat ∧ offset = part_offset p i) →
    (∀ url h resp, n_send env url h = Ok resp → honest resp) →
    sd_step t (fst (chunk_op env download base offset chunk total t))
| sd_timer env t : sd_step t (checkpoint_timer_fired W env t)
| sd_checkpoint env t : sd_step t (fst (force_download_checkpoint W platform env t))
| sd_tamper target dur_target t :
    sd_step t (set_files (mkFiles target (f_sidecar (dl_files t)) (f_owned (dl_files t)) dur_target
                 (f_dur_sidecar (dl_files t))) t)
| sd_resume t t' : sd_resumes t t' → sd_step t t'
| sd_compact env t t' wm :
    retain_serial_download_contiguous_progress W platform env t = (t', Ok wm) → sd_step t t'.

(** After the first prepare step: nothing of this download is on disk, and a validator is known
    or not. *)
Definition sd_init (t : DlTask) : Prop :=
  ∃ now mp d p v locked dur_target,
    (∀ raw mp, sidecar_file d = Some raw → decode W raw total chunk mp identity = None) ∧ fits U32_MAX mp
    ∧ load_or_create_serial W sha256 now d total chunk mp identity = Ok p
    ∧ (∀ v', v = Some v' → Z.of_nat (length (rep v')) = total)
    ∧ let f := default [] (target_file d) in
      let p := match v with Some v => set_expected_validator v p | None => p end in
      t = mkDl (Some p) locked true (mkFiles f (sidecar_file d) (namespace_owned d) dur_target (sidecar_file d)).

Lemma latch_vinv v p f :
  Z.of_nat (length (rep v)) = total → vinv (rep v) p f → vinv (rep v) (set_expected_validator v p) f.
Proof.
  intros Hl Hi. eapply (ck_step_inv W sha256 (rep v) chunk identity HW sha256_len); rewrite ?Hl; [done|done|exact Hi|].
  apply (ck_latch _ _ _ _ _ v (ck_of p CkIdle (virtual_files (rep v) f))).
Qed.

Lemma compact_serial env t t' wm :
  retain_serial_download_contiguous_progress W platform env t = (t', Ok wm) → serial_inv t → serial_inv t'.
Proof.
  intros H Hi. unfold retain_serial_download_contiguous_progress in H.
  destruct (dl_progress t) as [p|] eqn:Hp; [|done]. destruct (negb _); [done|]. unfold io_step in H.
  destruct (e_set_len env); [done|]. destruct (e_sync env); [done|].
  destruct (retain_contiguous_prefix_after_data_sync _ _ _ _ _) as [[p' d] r] eqn:Hr.
  destruct r as [wm'|]; [|done]. destruct (negb _); [done|]. injection H as <- _.
  apply (serial_inv_spec t p Hp) in Hi as [[Hmul Hlen] Hi].
  assert (dp_expected_validator p' = dp_expected_validator p) as Hv.
  { unfold retain_contiguous_prefix_after_data_sync in Hr. repeat case_match; by simplify_eq. }
  eapply serial_inv_spec; [reflexivity|]. rewrite Hv. split; [done|]. intros remote Hc.
  apply (retain_virtual remote p (dl_files t) _ _ _ _ _ _ (proj1 Hc) (Hi remote Hc)) in Hr. exact Hr.
Qed.

Lemma sd_step_inv t t' : serial_inv t → sd_step t t' → serial_inv t'.
Proof.
  intros Hi Hst. destruct Hst as [env download base p offset t Hp Hoff Hh|env t|env t|target dt t
    |t t' [now mp tg sc p p' v locked lt dt t1 Hp Hv Hmp Hsc Hl]|env t t' wm H].
  - destruct (chunk_op env download base offset chunk total t) as [t1 r] eqn:H.
    by eapply chunk_serial in H as [? _].
  - destruct (dl_progress t) eqn:Hp; [by apply timer_serial|]. unfold checkpoint_timer_fired. by rewrite Hp.
  - unfold force_download_checkpoint. destruct (dl_progress t) eqn:Hp.
    + destruct (checkpoint_locked_download_target W platform env t) as [t1 r] eqn:H.
      by eapply checkpoint_serial in H as [? _].
    + unfold checkpoint_locked_download_target. by rewrite Hp.
  - by apply (serial_inv_same t).
  - apply (serial_inv_spec t1 p Hp) in Hi as [[_ Hlen] Hi]. rewrite Hv in Hi. specialize (Hlen v Hv).
    unfold serial_inv. simpl. split; [done|]. apply latch_vinv; [done|].
    exact (load_virtual (rep v) p (dl_files t1) tg sc now mp p' Hlen (Hi (rep v) (conj Hlen eq_refl)) Hmp Hsc Hl).
  - by eapply compact_serial.
Qed.

Lemma sd_init_inv t : sd_init t → validated total chunk t → serial_inv t.
Proof.
  intros (now & mp & d & p & v & locked & dt & Hbl & Hmp & Hl & Hv & ->) Hmul.
  destruct (fresh W now total chunk mp identity) as [p0|] eqn:Hfr.
  2:{ unfold load_or_create_serial in Hl. by rewrite Hfr in Hl. }
  destruct (fresh_inv W HW now total chunk mp identity p0 total_fits chunk_fits (proj1 Hmp) Hfr)
    as (Hg0 & Ht & Hc & _ & Hid & _).
  assert (p = p0) as ->.
  { destruct (load_eq W sha256 HW now d total chunk mp identity p0) as [_ Hle]; try done; [apply Hmp|].
    rewrite Hle in Hl. destruct (total <? target_len d); [by simplify_eq|].
    destruct (read_claims_cases W HW d p0 (verify_completed_parts_through sha256 d (target_len d)) Hg0)
      as [(p1 & (_ & raw & b & dg & Hraw & Hdec & _) & _)|[_ Hrc]]; [|rewrite Hrc in Hl; by simplify_eq].
    rewrite Ht, Hc, Hid in Hdec. by rewrite (Hbl raw _ Hraw) in Hdec. }
  assert (∀ remote, Z.of_nat (length remote) = total →
    vinv remote p0 (mkFiles [] (sidecar_file d) (namespace_owned d) [] (sidecar_file d))) as Hi.
  { intros remote Hr. eapply (fresh_ck_inv W sha256 remote chunk identity HW) with (now := now) (mp := mp);
      rewrite ?Hr; try done. intros raw mp' Hraw. rewrite Hr. by apply Hbl. }
  assert (dp_expected_validator p0 = None) as Hnone.
  { clear -Hfr. unfold fresh in Hfr. repeat case_match; by simplify_eq. }
  destruct v as [v|]; unfold serial_inv; simpl.
  - split; [by apply Hv|]. apply latch_vinv; [by apply Hv|]. apply Hi. by apply Hv.
  - rewrite Hnone. split; [|exact Hi]. destruct Hmul as [?|[v Hv']]; [done|]. unfold validator_of in Hv'. cbn in Hv'. congruence.
Qed.

(** Once a validator is pinned it stays as long as the download has a progress. *)
Definition kept (v : string) (t : DlTask) : Prop := ∀ p, dl_progress t = Some p → dp_expected_validator p = Some v.
Lemma kept_of v t : validator_of t = Some v → kept v t.
Proof. unfold validator_of. intros H p Hp. by rewrite Hp in H. Qed.
Lemma kept_same v t t' : validator_of t' = validator_of t → (dl_progress t = None → dl_progress t' = None) → kept v t → kept v t'.
Proof.
  intros Hv Hn Hk p' Hp'. destruct (dl_progress t) as [p|] eqn:Hp; [|by rewrite Hn in Hp']. specialize (Hk p Hp).
  unfold validator_of in Hv. rewrite Hp, Hp', Hk in Hv. done.
Qed.
Lemma kept_progress v t t' : dl_progress t' = dl_progress t → kept v t → kept v t'.
Proof. unfold kept. by intros ->. Qed.
Lemma checkpoint_kept v env t : kept v t → kept v (checkpoint_locked_download_target W platform env t).1.
Proof.
  apply kept_same; [apply checkpoint_validator|]. intros Hp. unfold checkpoint_locked_download_target. by rewrite Hp.
Qed.
Lemma finalize_kept v env expected t : kept v t → kept v (finalize_download_content W sha256 platform env expected t).1.
Proof.
  intros Hk. unfold finalize_download_content. destruct (finalization W sha256 platform env expected t) as [t1 fin] eqn:Hf.
  destruct (release_download_target_file_lock platform env t1) as [t2 rel] eqn:Hrel.
  destruct (release_lock_spec platform env t1 t2 rel Hrel) as (_ & R2 & R3 & _).
  assert (kept v t1) as Hk1; [|by apply (kept_progress v t1)].
  unfold finalization in Hf. pose proof (checkpoint_kept v env t Hk) as H0.
  destruct (checkpoint_locked_download_target W platform env t) as [t0 [[]|]]; [|by simplify_eq]. cbn [fst] in H0. unfold io_step in Hf.
  destruct (e_stat env); [by simplify_eq|]. destruct (negb _); [by simplify_eq|].
  assert (kept v (take_download_progress_after_checkpoint sha256 platform t0).1) as H1
    by (unfold take_download_progress_after_checkpoint; repeat case_match; try done; by intros p [=]).
  destruct (take_download_progress_after_checkpoint sha256 platform t0) as [t3 [[p|]|]]; try by simplify_eq.
  destruct (negb _); [by simplify_eq|]. destruct (negb _); [by simplify_eq|]. injection Hf as <- _. by destruct (e_delete env).
Qed.
Lemma finish_kept v env next t : kept v t → kept v (serial_download_chunk_finish W sha256 platform env next total t).1.
Proof.
  intros Hk. unfold serial_download_chunk_finish. destruct (total <=? next); [|done].
  pose proof (finalize_kept v (n_final env) total t Hk). by destruct (finalize_download_content _ _ _ _ _ t).
Qed.
Lemma receive_kept v env offset len items t : kept v t → kept v (receive_serial_part W sha256 platform env offset len total items t).1.
Proof.
  intros Hk. unfold receive_serial_part. destruct (negb _); [done|]. destruct (n_seek env); [done|].
  destruct (stream_body platform env offset len items 0 [] 0 t) as [t1 r1] eqn:Hsb.
  assert (∀ t2, virtual [] t2 = virtual [] t → kept v t2) as Hsame.
  { intros t2 Ht2. apply (kept_progress v t); [|done]. by apply (virtual_target [] _ _ Ht2). }
  pose proof (stream_body_virtual platform [] env _ _ _ _ _ _ _ _ _ Hsb) as Hv1.
  assert (kept v (rollback_download_file env offset t1)) as Hrb by (apply Hsame; by rewrite rollback_virtual).
  assert (kept v t1) as Hk1 by (by apply Hsame).
  destruct r1 as [[h w]|]; [|done]. destruct (w =? 0); [done|]. destruct (negb _); [done|].
  destruct (checked_add _ _ _); [|done]. destruct (n_flush env); [done|]. destruct (ensure_download_file_present _ _ _ _); [|done].
  assert (kept v (stage_serial_download_part W platform (n_io env) offset (sha256 h) t1).1) as Hk2.
  { eapply kept_same; [apply stage_locked_validator| |exact Hk1]. intros E. unfold stage_serial_download_part, stage_download_part_digest_locked. by rewrite E. }
  destruct (stage_serial_download_part W platform (n_io env) offset (sha256 h) t1) as [t2 [|]]; [by apply finish_kept|done].
Qed.
Lemma chunk_kept v env download base offset t : kept v t → kept v (chunk_op env download base offset chunk total t).1.
Proof.
  intros Hk. unfold download_one_chunk. destruct (total <=? offset).
  { pose proof (finalize_kept v (n_final env) total t Hk). by destruct (finalize_download_content _ _ _ _ _ t). }
  destruct (match dl_progress t with Some p => is_done W p offset | None => false end); [by apply finish_kept|].
  destruct (build_download_range_request _ _ _ _) as [[url h]|]; [|done]. destruct (n_send env url h) as [resp|]; [|done].
  destruct (negb _); [done|]. destruct (check_range_response _ _ _ _ _ _ _ t) as [t1 r1] eqn:Hck.
  assert (kept v t1) as Hk1.
  { destruct (check_range_task _ _ _ _ _ _ _ _ _ _ Hck) as [->|(p1 & w & Hp1 & Hn & _)]; [done|]. specialize (Hk p1 Hp1). congruence. }
  destruct r1; [by apply receive_kept|done].
Qed.
Lemma compact_kept v env t t' wm : retain_serial_download_contiguous_progress W platform env t = (t', Ok wm) → kept v t → kept v t'.
Proof.
  intros H Hk. unfold retain_serial_download_contiguous_progress in H.
  destruct (dl_progress t) as [p|] eqn:Hp; [|done]. destruct (negb _); [done|]. unfold io_step in H.
  destruct (e_set_len env); [done|]. destruct (e_sync env); [done|].
  destruct (retain_contiguous_prefix_after_data_sync _ _ _ _ _) as [[p' d] r] eqn:Hr.
  destruct r as [wm'|]; [|done]. destruct (negb _); [done|]. injection H as <- _. intros q [= <-].
  rewrite <- (Hk p Hp). unfold retain_contiguous_prefix_after_data_sync in Hr. repeat case_match; by simplify_eq.
Qed.
Lemma sd_step_kept v t t' : kept v t → sd_step t t' → kept v t'.
Proof.
  intros Hk Hst. destruct Hst as [env download base p offset t Hp Hoff Hh|env t|env t|target dt t
    |t t' [now mp tg sc p p' v' locked lt dt t1 Hp Hv Hmp Hsc Hl]|env t t' wm H].
  - by apply chunk_kept.
  - apply (kept_same v t); [apply timer_validator| |done]. intros E. unfold checkpoint_timer_fired. by rewrite E.
  - by apply checkpoint_kept.
  - done.
  - intros q [= <-]. rewrite (Hk p Hp) in Hv. by injection Hv as <-.
  - by eapply compact_kept.
Qed.
Lemma sd_steps_kept v t t' : rtc sd_step t t' → kept v t → kept v t'.
Proof. intros H Hk. by apply (rtc_invariant sd_step (kept v) t t'); [apply sd_step_kept| |]. Qed.

Lemma completed_serial t0 t env download base p offset t' o :
  sd_init t0 → validated total chunk t0 → rtc sd_step t0 t → dl_progress t = Some p →
  total ≤ offset ∨ (∃ i, (i < dp_part_count p)%nat ∧ offset = part_offset p i) →
  (∀ url h resp, n_send env url h = Ok resp → honest resp) →
  chunk_op env download base offset chunk total t = (t', Ok o) → done o = true → delivered t t'.
Proof.
  intros H0 Hm Hr Hp Hoff Hh H Hd.
  assert (serial_inv t) as Hi by (eapply rtc_invariant; [apply sd_step_inv|by apply sd_init_inv|done]).
  by eapply chunk_serial in H as [_ H]; [apply (H o eq_refl Hd)|..].
Qed.

(** C10: a completed serial download is authentic. The server is honest about the bytes it labels
    with a strong validator, and the download has more than one part or was started with a
    validator (a single part without one is accepted by the code as it comes). Then whatever other
    processes did to the target file at any time, however often the process restarted and resumed,
    and whichever roll-backs failed, a part transfer that reports the download as done leaves
    exactly the representation of one strong validator in the target file (the one already pinned,
    if there was one), or SHA-256 has a collision. *)
Theorem completed_serial_download_is_authentic t0 t env download base p offset t' o :
  sd_init t0 → validated total chunk t0 → rtc sd_step t0 t → dl_progress t = Some p →
  total ≤ offset ∨ (∃ i, (i < dp_part_count p)%nat ∧ offset = part_offset p i) →
  (∀ url h resp, n_send env url h = Ok resp → honest resp) →
  chunk_op env download base offset chunk total t = (t', Ok o) → done o = true →
  (∃ v, (validator_of t = None ∨ validator_of t = Some v) ∧ f_target (dl_files t') = rep v) ∨ collision.
Proof. apply completed_serial. Qed.

End Serial.

(** ** A concrete download *)

Definition demo_chunk (a b : Z) (t : DlTask) : DlTask * result ChunkOutcome MeowError :=
  download_one_chunk 64 demo_sha Unix id str_of demo_status (demo_net a b) demo_protocol ∅ a 8 20 t.
Definition demo_serial0 : DlTask := mkDl (Some demo_fresh) true true (mkFiles [] None false [] None).
Definition demo_serial1 : DlTask := fst (demo_chunk 0 7 demo_serial0).
Definition demo_serial2 : DlTask := fst (demo_chunk 8 15 demo_serial1).

#[local] Abbreviation demo_sd_step := (sd_step 64 demo_sha Unix id str_of demo_status (λ _, demo_remote) 20 8 [105; 100]).

(** The progress of a task has the parts of the demo download. *)
Lemma demo_progress t (i : nat) :
  match dl_progress t with
  | Some p => (i <? dp_part_count p)%nat && (8 * Z.of_nat i =? part_offset p i) | None => false end = true →
  ∃ p, dl_progress t = Some p ∧ ∃ j, (j < dp_part_count p)%nat ∧ 8 * Z.of_nat i = part_offset p j.
Proof.
  intros H. destruct (dl_progress t) as [p|]; [|done]. apply andb_true_iff in H as [H1 H2].
  exists p. split; [done|]. exists i. split; [by apply Nat.ltb_lt|by apply Z.eqb_eq].
Qed.

Lemma demo_serial_reachable : rtc demo_sd_step demo_serial0 demo_serial2.
Proof.
  destruct (demo_progress demo_serial0 0 ltac:(vm_compute; reflexivity)) as (p0 & H0 & L0).
  destruct (demo_progress demo_serial1 1 ltac:(vm_compute; reflexivity)) as (p1 & H1 & L1).
  eapply rtc_l; [apply (sd_chunk 64 demo_sha Unix id str_of demo_status (λ _, demo_remote) 20 8 [105; 100] (demo_net 0 7)
    demo_protocol ∅ p0 0 demo_serial0 H0 (or_intror L0)); intros url h resp [= <-]; apply demo_honest; repeat constructor|].
  apply rtc_once. apply (sd_chunk 64 demo_sha Unix id str_of demo_status (λ _, demo_remote) 20 8 [105; 100] (demo_net 8 15)
    demo_protocol ∅ p1 8 demo_serial1 H1 (or_intror L1)). intros url h resp [= <-]; apply demo_honest; repeat constructor.
Qed.

(** The last part completes the download. *)
Lemma completed_serial_download_is_authentic_witness :
  f_target (dl_files (fst (demo_chunk 16 19 demo_serial2))) = demo_remote
  ∧ ((∃ v, (validator_of demo_serial2 = None ∨ validator_of demo_serial2 = Some v)
        ∧ f_target (dl_files (fst (demo_chunk 16 19 demo_serial2))) = demo_remote) ∨ hash_collision demo_sha).
Proof.
  split; [vm_compute; reflexivity|].
  destruct (demo_progress demo_serial2 2 ltac:(vm_compute; reflexivity)) as (p2 & H2 & L2).
  destruct (demo_chunk 16 19 demo_serial2) as [t' r] eqn:Hc.
  assert (snd (demo_chunk 16 19 demo_serial2) = Ok (mkChunkOutcome 20 20 true None)) as Hr by (vm_compute; reflexivity).
  rewrite Hc in Hr. cbn [snd fst] in *. subst r.
  apply (completed_serial_download_is_authentic 64 demo_sha Unix id str_of demo_status (λ _, demo_remote) 20 8 [105; 100]
    ltac:(lia) demo_sha_len ltac:(vm_compute; split; discriminate) ltac:(vm_compute; split; discriminate)
    demo_serial0 demo_serial2 (demo_net 16 19) demo_protocol ∅ p2 16 t' (mkChunkOutcome 20 20 true None)).
  - exists 0, 4, (mkDisk None None false), demo_fresh, None, true, [].
    split; [by intros raw mp [=]|]. split; [vm_compute; split; discriminate|].
    split; [vm_compute; reflexivity|]. split; [by intros v' [=]|reflexivity].
  - left. lia.
  - exact demo_serial_reachable.
  - exact H2.
  - right. exact L2.
  - intros url h resp [= <-]. apply demo_honest. repeat constructor.
  - exact Hc.
  - reflexivity.
Defined.
