(* ===== verification/DownloadPrepare.v ===== *)
(** * Preparation of a download

    The prepare step of downloads in [src/dflt/default_http_transfer.rs] with the operations of
    [src/transfer_task.rs] it calls: the path lease, the size of the remote (a hint, the builder's
    size or a HEAD request), the checkpoint of an earlier run, the lock of the target, and the
    layout of the target for a parallel or a serial download; then the arms of [transfer_chunk],
    [transfer_chunk_part] and [complete] for downloads.

    The download protocol is a trait object, here a record of its methods ([BreakpointDownload]).
    What file system, network and other processes do during one call is an input ([PrepEnv]);
    failures of the blocking pool and poisoned locks are left out, as are log lines. *)
From S2P Require Import Prelude Errors Retry Records Sidecar Checkpoint CheckpointProps CheckpointCrash.
From S2P Require Import HttpHeaders DownloadIdentity DownloadTask RangeDownload DownloadSystem SerialDownload.
#[local] Open Scope Z_scope.

(** ** State *)

Record PrepTask := mkPrep {
  pt_dl : DlTask;
  (** the target exists; its content is that of [pt_dl] *)
  pt_exists : bool;
  (** [resolved_download_total], a write-once cell *)
  pt_resolved_total : option Z;
  pt_total_size : Z;
  pt_chunk_size : Z;
  pt_max_parts_in_flight : Z;
  pt_headers : HeaderMap;
  (** the task has an HTTP client of its own *)
  pt_http_client : bool;
}.

Definition set_dl (d : DlTask) (t : PrepTask) : PrepTask :=
  mkPrep d (pt_exists t) (pt_resolved_total t) (pt_total_size t) (pt_chunk_size t)
    (pt_max_parts_in_flight t) (pt_headers t) (pt_http_client t).
Definition set_exists (b : bool) (t : PrepTask) : PrepTask :=
  mkPrep (pt_dl t) b (pt_resolved_total t) (pt_total_size t) (pt_chunk_size t)
    (pt_max_parts_in_flight t) (pt_headers t) (pt_http_client t).
Definition set_resolved_total (r : option Z) (t : PrepTask) : PrepTask :=
  mkPrep (pt_dl t) (pt_exists t) r (pt_total_size t) (pt_chunk_size t)
    (pt_max_parts_in_flight t) (pt_headers t) (pt_http_client t).

(** The files as a loader sees them: a missing target has no content. *)
Definition prep_target (t : PrepTask) : list Z := if pt_exists t then f_target (dl_files (pt_dl t)) else [].
Definition prep_disk (t : PrepTask) : Disk :=
  mkDisk (if pt_exists t then Some (f_target (dl_files (pt_dl t))) else None)
    (f_sidecar (dl_files (pt_dl t))) (f_owned (dl_files (pt_dl t))).

(** The methods of the trait [BreakpointDownload]. *)
Record BreakpointDownload := mkBreakpoint {
  bd_range : RangeProtocol;
  bd_resume_identity : PrepTask → result (option (list Z)) MeowError;
  bd_total_size_hint : PrepTask → option Z;
  bd_supports_parallel_parts : bool;
  bd_head_url : PrepTask → string;
  bd_merge_head_headers : PrepTask → HeaderMap → result HeaderMap MeowError;
  bd_total_size_from_head : HeaderMap → result Z MeowError;
}.

Record VerifiedDownloadGeneration := mkGenerationOf {
  vg_identity : option (list Z);
  vg_validator : list Z;
}.

(** What file system, network and other processes answer during one prepare. *)
Record PrepEnv := mkPrepEnv {
  (** the backend's client could not be built *)
  pe_client : option MeowError;
  pe_namespace : option IoError;
  pe_create_dir : option IoError;
  pe_lease : option IoError;
  pe_stat : option IoError;
  pe_head : string → HeaderMap → result HttpResponse string;
  (** the total another clone of the task stored since the cell was read *)
  pe_other_total : option Z;
  pe_now : Z;
  (** what the target holds when it is locked, if another process changed it after it was measured *)
  pe_race : option (list Z);
  (** opening or locking the target failed; whether the file was created *)
  pe_lock : option (bool * IoError);
  pe_locked_stat : option IoError;
  pe_set_len : option IoError;
  pe_sync : option IoError;
  (** the progress slot is contended *)
  pe_contended : bool;
  (** the compaction of a serial target *)
  pe_io : IoEnv;
}.

(** The default of [BreakpointDownload::total_size_from_head]. *)
Definition total_size_from_head (h : HeaderMap) : result Z MeowError :=
  let? v := require_single_header h CONTENT_LENGTH "download HEAD response" in
  let n := match v with Some s => parse_u64 s | None => None end in
  match n with
  | Some n =>
      if 0 <? n then Ok n
      else Err (from_code_str MissingOrInvalidContentLengthFromHead "missing or invalid content-length from HEAD")
  | None =>
      Err (from_code_str MissingOrInvalidContentLengthFromHead "missing or invalid content-length from HEAD")
  end.

Definition download_is_parallel (t : PrepTask) (download : BreakpointDownload) : bool :=
  (1 <? pt_max_parts_in_flight t) && bd_supports_parallel_parts download.

(** URL and headers of the HEAD request, both from the protocol. *)
Definition build_download_head_request (download : BreakpointDownload) (t : PrepTask)
    : result (string * HeaderMap) MeowError :=
  let head_url := bd_head_url download t in
  let? head_headers := bd_merge_head_headers download t (pt_headers t) in
  Ok (head_url, head_headers).

(** The cell is read, and set if it was empty; another clone may have set it in between. *)
Definition freeze_resolved_download_total (other : option Z) (total : Z) (t : PrepTask)
    : PrepTask * result unit MeowError :=
  let changed expected := from_code InvalidTaskState
    ("download task total_size changed: expected=" +:+ pretty expected +:+ " observed=" +:+ pretty total) in
  match pt_resolved_total t with
  | Some expected => (t, if expected =? total then Ok tt else Err (changed expected))
  | None =>
      match other with
      | None => (set_resolved_total (Some total) t, Ok tt)
      | Some expected =>
          (set_resolved_total (Some expected) t, if expected =? total then Ok tt else Err (changed expected))
      end
  end.

Section Prepare.
Context (W : Z) (sha256 : list Z → list Z) (parse_url : list Z → option ParsedUrl) (platform : Platform).
Context (redact_secrets : string → string) (from_utf8_lossy : list Z → string) (status_text : Z → string).

Definition map_download_target_lock_error (m : string) (e : IoError) : MeowError :=
  if bool_decide (io_kind e = WouldBlock) then from_source InvalidTaskState m e else from_io platform m e.

Definition ensure_download_target_lease (env : PrepEnv) (t : PrepTask) : PrepTask * result unit MeowError :=
  if dl_lease (pt_dl t) then (t, Ok tt)
  else
    match pe_lease env with
    | Some e => (t, Err (map_download_target_lock_error "acquire download target lease failed" e))
    | None =>
        (set_dl (mkDl (dl_progress (pt_dl t)) (dl_locked (pt_dl t)) true (dl_files (pt_dl t))) t, Ok tt)
    end.

(** The target is opened, and created if it is missing; its length then is what other processes
    have made of it. *)
Definition ensure_download_target_file_locked (env : PrepEnv) (t : PrepTask) : PrepTask * result Z MeowError :=
  let content := default (prep_target t) (pe_race env) in
  let files := set_target content (dl_files (pt_dl t)) in
  let len := Z.of_nat (length content) in
  if dl_locked (pt_dl t) then
    let t := set_dl (set_files files (pt_dl t)) t in
    io_step platform (pe_locked_stat env) "stat locked download target failed" (t, Ok len) (λ e, (t, Err e))
  else
    match pe_lock env with
    | Some (created, e) =>
        (set_exists (pt_exists t || created) (set_dl (set_files files (pt_dl t)) t),
         Err (map_download_target_lock_error "lock actual download target failed" e))
    | None =>
        let t := set_exists true (set_dl (set_files files (pt_dl t)) t) in
        io_step platform (pe_locked_stat env) "stat newly locked download target failed"
          (set_dl (mkDl (dl_progress (pt_dl t)) true (dl_lease (pt_dl t)) files) t, Ok len) (λ e, (t, Err e))
    end.

Definition load_download_progress_off_thread (now : Z) (d : Disk) (total chunk max_parts : Z)
    (generation : option VerifiedDownloadGeneration) (parallel : bool) : result DownloadProgress MeowError :=
  let fail m (r : result DownloadProgress IoError) :=
    match r with Ok p => Ok p | Err e => Err (from_io platform m e) end in
  match generation with
  | Some g =>
      let? progress :=
        fail (if parallel then "load .rcdl sidecar failed" else "load serial .rcdl sidecar failed")
          (match vg_identity g with
           | Some id =>
               if parallel then load_or_create W sha256 now d total chunk max_parts id
               else load_or_create_serial W sha256 now d total chunk max_parts id
           | None => create_unverified W now total chunk max_parts
           end) in
      Ok (set_expected_validator (str_of (vg_validator g)) progress)
  | None =>
      fail (if parallel then "create .rcdl sidecar failed" else "create serial .rcdl sidecar failed")
        (create_unverified W now total chunk max_parts)
  end.

Definition changed_while_locking (start locked_len : Z) : MeowError :=
  local_file_removed ("download target changed while prepare acquired its lock: expected_len="
    +:+ pretty start +:+ " actual_len=" +:+ pretty locked_len).

Definition store_progress (env : PrepEnv) (m : string) (progress : DownloadProgress) (t : PrepTask)
    : PrepTask * result unit MeowError :=
  if pe_contended env then (t, Err (invalid_task_state m))
  else (set_dl (set_progress (Some progress) (pt_dl t)) t, Ok tt).

(** Sizing the locked target of a parallel download. *)
Definition presize (env : PrepEnv) (total : Z) (t : PrepTask) : PrepTask * result unit MeowError :=
  if negb (dl_locked (pt_dl t)) then
    (t, Err (invalid_task_state "locked download target missing during presize"))
  else
    io_step platform (pe_set_len env) "presize set_len failed"
      (let files := dl_files (pt_dl t) in
       let files := set_target (resize (f_target files) (Z.to_nat total)) files in
       let t := set_dl (set_files files (pt_dl t)) t in
       io_step platform (pe_sync env) "presize sync failed"
         (set_dl (set_files (sync_target files) (pt_dl t)) t, Ok tt) (λ e, (t, Err e)))
      (λ e, (t, Err e)).

Definition download_prepare_finish (env : PrepEnv) (download : BreakpointDownload) (start total : Z)
    (generation : option VerifiedDownloadGeneration) (t : PrepTask) : PrepTask * result PrepareOutcome MeowError :=
  let parallel := download_is_parallel t download in
  let load := load_download_progress_off_thread (pe_now env) (prep_disk t) total (pt_chunk_size t)
                (pt_max_parts_in_flight t) generation parallel in
  if parallel then
    if total =? 0 then (t, Ok (mkPrepareOutcome 0 0))
    else
      match load with
      | Err e => (t, Err e)
      | Ok progress =>
          let watermark := contiguous_watermark progress in
          let '(t, r) := ensure_download_target_file_locked env t in
          match r with
          | Err e => (t, Err e)
          | Ok locked_len =>
              if negb (locked_len =? start) then (t, Err (changed_while_locking start locked_len))
              else
                let '(t, r) := presize env total t in
                match r with
                | Err e => (t, Err e)
                | Ok _ =>
                    let '(t, r) :=
                      store_progress env "download progress slot unexpectedly locked during prepare" progress t in
                    (t, let? _ := r in Ok (mkPrepareOutcome watermark total))
                end
          end
      end
  else if total <? start then
    (t, Err (from_code_str InvalidRange "local file larger than remote total size"))
  else
    match load with
    | Err e => (t, Err e)
    | Ok progress =>
        let '(t, r) := ensure_download_target_file_locked env t in
        match r with
        | Err e => (t, Err e)
        | Ok locked_len =>
            if negb (locked_len =? start) then (t, Err (changed_while_locking start locked_len))
            else
              let '(t, r) :=
                store_progress env "download progress slot unexpectedly locked during serial prepare" progress t in
              match r with
              | Err e => (t, Err e)
              | Ok _ =>
                  let '(d, r) := retain_serial_download_contiguous_progress W platform (pe_io env) (pt_dl t) in
                  (set_dl d t, let? resume_offset := r in Ok (mkPrepareOutcome resume_offset total))
              end
        end
    end.

Definition is_success (status : Z) : bool := (200 <=? status) && (status <? 300).

(** The total size and, from a HEAD response, the generation of the remote. *)
Definition resolve_generation (download : BreakpointDownload) (allow_persisted_resume_identity : bool)
    (h : HeaderMap) (t : PrepTask) : result (option VerifiedDownloadGeneration) MeowError :=
  match download_generation_validator h with
  | Some validator =>
      let? id :=
        if allow_persisted_resume_identity then
          let? context := bd_resume_identity download t in
          Ok (option_map (download_identity sha256 parse_url (bs (range_url (bd_range download) (pt_dl t))) validator)
                context)
        else Ok None in
      Ok (Some (mkGenerationOf id validator))
  | None => Ok None
  end.

Definition head_total (download : BreakpointDownload) (h : HeaderMap) (t : PrepTask) : result Z MeowError :=
  let? _ := require_single_header h CONTENT_LENGTH "download HEAD response" in
  let? _ := require_unambiguous_etag h "download HEAD response" in
  let? _ :=
    if download_is_parallel t download
    then ensure_response_identity_encoding h "parallel download HEAD response" else Ok tt in
  bd_total_size_from_head download h.

(** Without a hint: the builder's size, or a HEAD request. *)
Definition resolve_unhinted (env : PrepEnv) (download : BreakpointDownload)
    (allow_persisted_resume_identity : bool) (t : PrepTask)
    : PrepTask * result (Z * option VerifiedDownloadGeneration) MeowError :=
  if 0 <? pt_total_size t then (t, Ok (pt_total_size t, None))
  else
    match build_download_head_request download t with
    | Err e => (t, Err e)
    | Ok (head_url, head_headers) =>
        match pe_head env head_url head_headers with
        | Err e => (t, Err (map_reqwest e))
        | Ok head_resp =>
            if negb (is_success (resp_status head_resp)) then
              (t, Err (with_http_status (from_code ResponseStatusError
                    ("download_prepare HEAD failed: " +:+ status_text (resp_status head_resp)))
                    (resp_status head_resp)))
            else
              match head_total download (resp_headers head_resp) t with
              | Err e => (t, Err e)
              | Ok total =>
                  let '(t, r) := freeze_resolved_download_total (pe_other_total env) total t in
                  (t, let? _ := r in
                      let? generation :=
                        resolve_generation download allow_persisted_resume_identity (resp_headers head_resp) t in
                      Ok (total, generation))
              end
        end
    end.

Definition resolve_total (env : PrepEnv) (download : BreakpointDownload) (allow_persisted_resume_identity : bool)
    (t : PrepTask) : PrepTask * result (Z * option VerifiedDownloadGeneration) MeowError :=
  match bd_total_size_hint download t with
  | Some hinted =>
      if 0 <? hinted then (t, Ok (hinted, None)) else resolve_unhinted env download allow_persisted_resume_identity t
  | None => resolve_unhinted env download allow_persisted_resume_identity t
  end.

Definition local_len (env : PrepEnv) (t : PrepTask) : result Z MeowError :=
  let len := Z.of_nat (length (prep_target t)) in
  match pe_stat env with
  | None => Ok len
  | Some e =>
      if bool_decide (io_kind e = NotFound) then Ok 0
      else Err (from_io platform "download_prepare stat failed" e)
  end.

Definition download_prepare (env : PrepEnv) (download : BreakpointDownload) (allow_persisted_resume_identity : bool)
    (t : PrepTask) : PrepTask * result PrepareOutcome MeowError :=
  io_step platform (pe_namespace env) "validate download target namespace"
    (io_step platform (pe_create_dir env) "create download dir failed"
      (let '(t, r) := ensure_download_target_lease env t in
       match r with
       | Err e => (t, Err e)
       | Ok _ =>
           match local_len env t with
           | Err e => (t, Err e)
           | Ok start =>
               let '(t, r) := resolve_total env download allow_persisted_resume_identity t in
               match r with
               | Err e => (t, Err e)
               | Ok (total, generation) => download_prepare_finish env download start total generation t
               end
           end
       end)
      (λ e, (t, Err e)))
    (λ e, (t, Err e)).

(** ** The backend's download operations *)

Definition client_for (env : PrepEnv) (t : PrepTask) : result unit MeowError :=
  if pt_http_client t then Ok tt else match pe_client env with Some e => Err e | None => Ok tt end.

Definition prepare (env : PrepEnv) (client_defaults_are_known : bool) (download : BreakpointDownload)
    (t : PrepTask) : PrepTask * result PrepareOutcome MeowError :=
  match client_for env t with
  | Err e => (t, Err e)
  | Ok _ => download_prepare env download (client_defaults_are_known && negb (pt_http_client t)) t
  end.

Definition transfer_chunk (env : PrepEnv) (net : NetEnv) (download : BreakpointDownload)
    (offset chunk_size remote_total_size : Z) (t : PrepTask) : PrepTask * result ChunkOutcome MeowError :=
  match client_for env t with
  | Err e => (t, Err e)
  | Ok _ =>
      let '(d, r) := download_one_chunk W sha256 platform redact_secrets from_utf8_lossy status_text net
        (bd_range download) (pt_headers t) offset chunk_size remote_total_size (pt_dl t) in
      (set_dl d t, r)
  end.

(** A part that is already done needs no request. *)
Definition transfer_chunk_part (env : PrepEnv) (net : NetEnv) (download : BreakpointDownload)
    (offset chunk_size remote_total_size : Z) (t : PrepTask) : PrepTask * result ChunkOutcome MeowError :=
  match client_for env t with
  | Err e => (t, Err e)
  | Ok _ =>
      if match dl_progress (pt_dl t) with Some p => is_done W p offset | None => false end then
        let part_end := Z.min (sat_add U64_MAX offset chunk_size) remote_total_size in
        (t, Ok (mkChunkOutcome part_end remote_total_size (remote_total_size <=? part_end) None))
      else
        let '(d, r) := download_one_chunk_part_positioned W sha256 platform redact_secrets from_utf8_lossy
          status_text net (bd_range download) (pt_headers t) offset chunk_size remote_total_size (pt_dl t) in
        (set_dl d t, r)
  end.

Definition complete_download (env : IoEnv) (t : PrepTask) : PrepTask * result (option string) MeowError :=
  match dl_progress (pt_dl t) with
  | None => (t, Err (invalid_task_state "download progress missing during complete"))
  | Some p =>
      let '(d, r) := finalize_download_content W sha256 platform env (dp_total p) (pt_dl t) in
      (set_dl d t, let? _ := r in Ok None)
  end.

(** ** What a successful prepare did *)

(** The task with its path lease. *)
Definition leased (t : PrepTask) : PrepTask :=
  set_dl (mkDl (dl_progress (pt_dl t)) (dl_locked (pt_dl t)) true (dl_files (pt_dl t))) t.

(** The identity a checkpoint is written under. *)
Definition identity_of (g : option VerifiedDownloadGeneration) : list Z :=
  match g with
  | Some (mkGenerationOf (Some id) _) => id
  | _ => bs "unverified"
  end.

(** The target as the lock found it. *)
Definition locked_content (env : PrepEnv) (t : PrepTask) : list Z := default (prep_target t) (pe_race env).

Lemma lease_Ok env t t' : ensure_download_target_lease env t = (t', Ok tt) → t' = leased t.
Proof.
  unfold ensure_download_target_lease, leased. destruct t as [[pr lo le f] ex rt ts cs mp h c]. simpl.
  destruct le; [by intros [= <-]|]. destruct (pe_lease env); [done|]. by intros [= <-].
Qed.

Lemma freeze_task other total t : ∃ r, fst (freeze_resolved_download_total other total t) = set_resolved_total r t.
Proof.
  unfold freeze_resolved_download_total. destruct (pt_resolved_total t) eqn:E; simpl.
  - exists (pt_resolved_total t). by destruct t.
  - destruct other; eauto.
Qed.

Lemma resolve_task env download allow t :
  ∃ r, fst (resolve_total env download allow t) = set_resolved_total r t.
Proof.
  assert (∃ r, t = set_resolved_total r t) as Ht by (exists (pt_resolved_total t); by destruct t).
  assert (∃ r, fst (resolve_unhinted env download allow t) = set_resolved_total r t) as Hu.
  { unfold resolve_unhinted. destruct (0 <? pt_total_size t); [done|].
    destruct (build_download_head_request download t) as [[url h]|]; [|done].
    destruct (pe_head env url h) as [resp|]; [|done]. destruct (negb _); [done|].
    destruct (head_total _ _ _) as [total|]; [|done].
    pose proof (freeze_task (pe_other_total env) total t) as Hf.
    by destruct (freeze_resolved_download_total _ _ _). }
  unfold resolve_total. repeat case_match; done.
Qed.

Lemma locked_Ok env t t' len :
  ensure_download_target_file_locked env t = (t', Ok len) →
  len = Z.of_nat (length (locked_content env t))
  ∧ pt_dl t' = mkDl (dl_progress (pt_dl t)) true (dl_lease (pt_dl t))
                 (set_target (locked_content env t) (dl_files (pt_dl t)))
  ∧ pt_chunk_size t' = pt_chunk_size t ∧ pt_max_parts_in_flight t' = pt_max_parts_in_flight t.
Proof.
  unfold ensure_download_target_file_locked, io_step. fold (locked_content env t).
  destruct (dl_locked (pt_dl t)) eqn:Hl; [|destruct (pe_lock env) as [[]|]; [done|]];
    (destruct (pe_locked_stat env); [done|]); intros [= <- <-]; split_and!; try done.
  destruct t as [[] ? ? ? ? ? ? ?]. simpl in *. unfold set_files. simpl. by rewrite Hl.
Qed.

Lemma prepare_finish_parallel env download start total g t t' o :
  download_prepare_finish env download start total g t = (t', Ok o) →
  download_is_parallel t download = true → total ≠ 0 →
  ∃ p, load_download_progress_off_thread (pe_now env) (prep_disk t) total (pt_chunk_size t)
         (pt_max_parts_in_flight t) g true = Ok p
    ∧ o = mkPrepareOutcome (contiguous_watermark p) total ∧ Z.of_nat (length (locked_content env t)) = start
    ∧ let f := resize (locked_content env t) (Z.to_nat total) in
      pt_dl t' = mkDl (Some p) true (dl_lease (pt_dl t))
        (mkFiles f (f_sidecar (dl_files (pt_dl t))) (f_owned (dl_files (pt_dl t))) f (f_dur_sidecar (dl_files (pt_dl t)))).
Proof.
  intros H Hp Ht. unfold download_prepare_finish in H. rewrite Hp in H. apply Z.eqb_neq in Ht. rewrite Ht in H.
  destruct (load_download_progress_off_thread _ _ _ _ _ _ _) as [p|]; [|done].
  destruct (ensure_download_target_file_locked env t) as [t1 [len|]] eqn:Hl; [|done].
  apply locked_Ok in Hl as (-> & Hd1 & _). destruct (Z.eqb_spec (Z.of_nat (length (locked_content env t))) start); cbn [negb] in H; [|done].
  unfold presize, io_step in H. rewrite Hd1 in H. cbn [dl_locked negb] in H.
  destruct (pe_set_len env); [done|]. destruct (pe_sync env); [done|].
  unfold store_progress in H. destruct (pe_contended env); [done|]. injection H as <- <-.
  exists p. split_and!; done.
Qed.

Lemma prepare_finish_serial env download start total g t t' o :
  download_prepare_finish env download start total g t = (t', Ok o) →
  download_is_parallel t download = false →
  ∃ p, load_download_progress_off_thread (pe_now env) (prep_disk t) total (pt_chunk_size t)
         (pt_max_parts_in_flight t) g false = Ok p
    ∧ prep_total_size o = total ∧ Z.of_nat (length (locked_content env t)) = start ∧ start ≤ total
    ∧ retain_serial_download_contiguous_progress W platform (pe_io env)
        (mkDl (Some p) true (dl_lease (pt_dl t)) (set_target (locked_content env t) (dl_files (pt_dl t))))
      = (pt_dl t', Ok (prep_next_offset o)).
Proof.
  intros H Hp. unfold download_prepare_finish in H. rewrite Hp in H.
  destruct (total <? start) eqn:E; [done|]. zbool.
  destruct (load_download_progress_off_thread _ _ _ _ _ _ _) as [p|]; [|done].
  destruct (ensure_download_target_file_locked env t) as [t1 [len|]] eqn:Hl; [|done].
  apply locked_Ok in Hl as (-> & Hd1 & _). destruct (Z.eqb_spec (Z.of_nat (length (locked_content env t))) start); cbn [negb] in H; [|done].
  unfold store_progress in H. destruct (pe_contended env); [done|].
  cbn [pt_dl set_dl] in H. rewrite Hd1 in H. unfold set_progress in H. cbn [dl_locked dl_lease dl_files] in H.
  destruct (retain_serial_download_contiguous_progress _ _ _ _) as [d [off|]] eqn:Hr; [|done].
  injection H as <- <-. exists p. split_and!; done.
Qed.

Lemma prepare_cases env download allow t t' o total g :
  download_prepare env download allow t = (t', Ok o) →
  snd (resolve_total env download allow (leased t)) = Ok (total, g) →
  ∃ start t1, local_len env (leased t) = Ok start ∧ download_prepare_finish env download start total g t1 = (t', Ok o)
    ∧ pt_dl t1 = pt_dl (leased t) ∧ pt_exists t1 = pt_exists t ∧ pt_chunk_size t1 = pt_chunk_size t
    ∧ pt_max_parts_in_flight t1 = pt_max_parts_in_flight t.
Proof.
  intros H Hr. unfold download_prepare, io_step in H.
  destruct (pe_namespace env); [done|]. destruct (pe_create_dir env); [done|].
  destruct (ensure_download_target_lease env t) as [tl [[]|]] eqn:Hl; [|done]. apply lease_Ok in Hl as ->.
  destruct (local_len env (leased t)) as [start|]; [|done].
  destruct (resolve_task env download allow (leased t)) as [r Ht].
  destruct (resolve_total env download allow (leased t)) as [t1 r1] eqn:Hre. simpl in Ht, Hr. subst r1 t1.
  exists start, (set_resolved_total r (leased t)). split_and!; done.
Qed.

(** ** The prepared download is the start or the resumption of a run *)

Context (rep : string → list Z).
Hypothesis HW : 32 ≤ W.

(** A sidecar of another download is as good as none. *)
Lemma blank_loads now d total chunk mp identity p0 :
  fits U64_MAX total → fits U64_MAX chunk → 0 ≤ mp →
  (∀ raw mp, sidecar_file d = Some raw → decode W raw total chunk mp identity = None) →
  fresh W now total chunk mp identity = Ok p0 →
  load_or_create W sha256 now d total chunk mp identity = Ok p0
  ∧ load_or_create_serial W sha256 now d total chunk mp identity = Ok p0.
Proof.
  intros Ht Hc Hm Hb Hf.
  destruct (fresh_inv W HW now total chunk mp identity p0 Ht Hc Hm Hf) as (Hg & H1 & H2 & _ & H4 & _).
  destruct (load_eq W sha256 HW now d total chunk mp identity p0 Ht Hc Hm Hf) as [-> ->].
  assert (∀ verify, read_claims W d p0 verify = Ok p0) as Hrc.
  { intros verify. destruct (read_claims_cases W HW d p0 verify Hg) as [(p1 & (_ & raw & b & dg & Hraw & Hdec & _) & _)|[_ ->]]; [|done].
    rewrite H1, H2, H4 in Hdec. by rewrite (Hb raw _ Hraw) in Hdec. }
  rewrite !Hrc. by destruct (negb _), (total <? _).
Qed.

(** What was loaded: a fresh checkpoint, or the one of the identity, then the validator. *)
Lemma load_progress_Ok now d total chunk mp g parallel p :
  load_download_progress_off_thread now d total chunk mp g parallel = Ok p →
  ∃ p0, p = (match g with Some g => set_expected_validator (str_of (vg_validator g)) p0 | None => p0 end)
    ∧ match g with
      | Some (mkGenerationOf (Some id) _) =>
          (if parallel then load_or_create W sha256 now d total chunk mp id
           else load_or_create_serial W sha256 now d total chunk mp id) = Ok p0
      | _ => fresh W now total chunk mp (identity_of g) = Ok p0
      end.
Proof.
  unfold load_download_progress_off_thread, create_unverified. destruct g as [[[id|] v]|]; simpl.
  - destruct parallel; [destruct (load_or_create _ _ _ _ _ _ _ _) as [p0|]|destruct (load_or_create_serial _ _ _ _ _ _ _ _) as [p0|]];
      try done; intros [= <-]; by exists p0.
  - destruct (fresh _ _ _ _ _ _) as [p0|] eqn:E; [|done]. intros [= <-]. by exists p0.
  - destruct (fresh _ _ _ _ _ _) as [p0|] eqn:E; [|done]. intros [= <-]. by exists p0.
Qed.

(** On a blank disk the loaded checkpoint is the fresh one, whatever the target holds. *)
Lemma load_progress_blank now d c total chunk mp g parallel p :
  fits U64_MAX total → fits U64_MAX chunk → 0 ≤ mp →
  (∀ raw mp, sidecar_file d = Some raw → decode W raw total chunk mp (identity_of g) = None) →
  load_download_progress_off_thread now d total chunk mp g parallel = Ok p →
  ∃ p0, p = (match g with Some g => set_expected_validator (str_of (vg_validator g)) p0 | None => p0 end)
    ∧ let d := mkDisk c (sidecar_file d) (namespace_owned d) in
      load_or_create W sha256 now d total chunk mp (identity_of g) = Ok p0
      ∧ load_or_create_serial W sha256 now d total chunk mp (identity_of g) = Ok p0.
Proof.
  intros Ht Hc Hm Hb Hl. destruct (load_progress_Ok _ _ _ _ _ _ _ _ Hl) as (p0 & -> & Hp). exists p0. split; [done|].
  apply blank_loads; try done. destruct g as [[[id|] v]|]; try exact Hp. simpl in *.
  destruct (fresh W now total chunk mp id) as [q|] eqn:Hf.
  - destruct (blank_loads now d total chunk mp id q Ht Hc Hm Hb Hf) as [H1 H2]. destruct parallel; congruence.
  - unfold load_or_create, load_or_create_serial in Hp. rewrite Hf in Hp. by destruct parallel.
Qed.

#[local] Abbreviation dstep total chunk id :=
  (dl_step W sha256 platform redact_secrets from_utf8_lossy status_text rep total chunk id).
#[local] Abbreviation sstep total chunk id :=
  (sd_step W sha256 platform redact_secrets from_utf8_lossy status_text rep total chunk id).

#[local] Abbreviation latched g p :=
  (match g with Some g => set_expected_validator (str_of (vg_validator g)) p | None => p end).

(** The state a parallel prepare leaves. *)
Lemma prepare_parallel env download allow t t' o total g :
  let files := dl_files (pt_dl t) in
  total ≠ 0 → download_prepare env download allow t = (t', Ok o) →
  snd (resolve_total env download allow (leased t)) = Ok (total, g) → download_is_parallel t download = true →
  ∃ p start, load_download_progress_off_thread (pe_now env) (prep_disk t) total (pt_chunk_size t)
         (pt_max_parts_in_flight t) g true = Ok p
    ∧ o = mkPrepareOutcome (contiguous_watermark p) total
    ∧ local_len env t = Ok start ∧ Z.of_nat (length (locked_content env t)) = start
    ∧ let f := resize (locked_content env t) (Z.to_nat total) in
      pt_dl t' = mkDl (Some p) true true (mkFiles f (f_sidecar files) (f_owned files) f (f_dur_sidecar files)).
Proof.
  intros files Ht H Hres Hpar.
  destruct (prepare_cases _ _ _ _ _ _ _ _ H Hres) as (start & t1 & Hs & Hf & Hd1 & Hex & Hch & Hmp).
  assert (prep_disk t1 = prep_disk t ∧ locked_content env t1 = locked_content env t) as [Hdk Hlc].
  { unfold prep_disk, locked_content, prep_target. by rewrite Hex, Hd1. }
  apply prepare_finish_parallel in Hf as (p & Hl & Ho & Hst & Hd'); [|by unfold download_is_parallel in *; rewrite Hmp|done].
  rewrite Hch, Hmp, Hdk in Hl. rewrite Hlc in Hst, Hd'. rewrite Hd1 in Hd'. exists p, start. split_and!; done.
Qed.

(** The state a serial prepare leaves: that of the compaction. *)
Lemma prepare_serial env download allow t t' o total g :
  let files := dl_files (pt_dl t) in
  download_prepare env download allow t = (t', Ok o) →
  snd (resolve_total env download allow (leased t)) = Ok (total, g) → download_is_parallel t download = false →
  ∃ p start, load_download_progress_off_thread (pe_now env) (prep_disk t) total (pt_chunk_size t)
         (pt_max_parts_in_flight t) g false = Ok p
    ∧ prep_total_size o = total
    ∧ local_len env t = Ok start ∧ Z.of_nat (length (locked_content env t)) = start ∧ start ≤ total
    ∧ retain_serial_download_contiguous_progress W platform (pe_io env)
        (mkDl (Some p) true true (set_target (locked_content env t) files)) = (pt_dl t', Ok (prep_next_offset o)).
Proof.
  intros files H Hres Hpar.
  destruct (prepare_cases _ _ _ _ _ _ _ _ H Hres) as (start & t1 & Hs & Hf & Hd1 & Hex & Hch & Hmp).
  assert (prep_disk t1 = prep_disk t ∧ locked_content env t1 = locked_content env t) as [Hdk Hlc].
  { unfold prep_disk, locked_content, prep_target. by rewrite Hex, Hd1. }
  apply prepare_finish_serial in Hf as (p & Hl & Ho & Hst & Hle & Hret); [|by unfold download_is_parallel in *; rewrite Hmp].
  rewrite Hch, Hmp, Hdk in Hl. rewrite Hlc in Hst, Hret. rewrite Hd1 in Hret. exists p, start. split_and!; done.
Qed.

Section Runs.
Context (env : PrepEnv) (download : BreakpointDownload) (allow : bool) (t t' : PrepTask) (o : PrepareOutcome).
Context (total : Z) (g : option VerifiedDownloadGeneration).
#[local] Abbreviation files := (dl_files (pt_dl t)).
#[local] Abbreviation chunk := (pt_chunk_size t).
Hypothesis total_ok : fits U64_MAX total.
Hypothesis total_known : total ≠ 0.
Hypothesis chunk_ok : fits U64_MAX chunk.
Hypothesis parts_ok : fits U32_MAX (pt_max_parts_in_flight t).
(** What is on disk is on stable storage. *)
Hypothesis settled : f_dur_sidecar files = f_sidecar files.
Hypothesis prepared : download_prepare env download allow t = (t', Ok o).
Hypothesis resolved : snd (resolve_total env download allow (leased t)) = Ok (total, g).
#[local] Abbreviation nothing_recorded :=
  (∀ raw mp, f_sidecar files = Some raw → decode W raw total chunk mp (identity_of g) = None).
#[local] Abbreviation head_honest :=
  (∀ v, g = Some v → Z.of_nat (length (rep (str_of (vg_validator v)))) = total).

Lemma validator_known v' :
  head_honest → option_map (λ g, str_of (vg_validator g)) g = Some v' → Z.of_nat (length (rep v')) = total.
Proof. intros Hv Hv'. destruct g as [g'|]; [|done]. injection Hv' as <-. by apply Hv. Qed.

Lemma parallel_start :
  download_is_parallel t download = true → nothing_recorded → head_honest →
  dl_init W sha256 rep total chunk (identity_of g) (mkSys (pt_dl t') [])
  ∧ ∀ v, g = Some v → validator_of (pt_dl t') = Some (str_of (vg_validator v)).
Proof.
  intros Hpar Hb Hv. destruct (prepare_parallel _ _ _ _ _ _ _ _ total_known prepared resolved Hpar) as (p & start & Hl & _ & _ & _ & ->).
  apply (load_progress_blank _ _ (Some (locked_content env t))) in Hl as (p0 & -> & Hl & _); [|done|done|apply parts_ok|done].
  split; [|by intros v ->].
  exists (pe_now env), (pt_max_parts_in_flight t), (mkDisk (Some (locked_content env t)) (f_sidecar files) (f_owned files)),
    p0, (option_map (λ g, str_of (vg_validator g)) g), true.
  split_and!; [done|done|exact Hl|by intros v'; apply validator_known|]. rewrite settled. by destruct g.
Qed.

Lemma parallel_resume id v s p :
  download_is_parallel t download = true → g = Some (mkGenerationOf (Some id) v) →
  dl_progress (sys_task s) = Some p → dp_expected_validator p = Some (str_of v) →
  pt_exists t = true → pe_race env = None → Z.of_nat (length (f_target files)) = total →
  crash_target (ck_of p CkIdle (dl_files (sys_task s))) (f_target files) →
  f_sidecar files = f_sidecar (dl_files (sys_task s)) ∨ f_sidecar files = f_dur_sidecar (dl_files (sys_task s)) →
  f_owned files = f_owned (dl_files (sys_task s)) → dl_resume W sha256 total chunk id s (mkSys (pt_dl t') []).
Proof.
  intros Hpar Hg Hp1 Hv Hx Hrace Hlen Hcr Hsc How.
  destruct (prepare_parallel _ _ _ _ _ _ _ _ total_known prepared resolved Hpar) as (q & start & Hl & _ & _ & _ & ->).
  apply load_progress_Ok in Hl as (p0 & -> & Hl). subst g. cbn [vg_validator] in *.
  unfold prep_disk in Hl. rewrite Hx in Hl.
  assert (locked_content env t = f_target files) as ->.
  { unfold locked_content, prep_target. by rewrite Hrace, Hx. }
  assert (resize (f_target files) (Z.to_nat total) = f_target files) as ->.
  { unfold resize. rewrite take_ge by lia. replace (Z.to_nat total - length (f_target files))%nat with O by lia.
    simpl. by rewrite app_nil_r. }
  rewrite settled, How. rewrite How in Hl. by eapply dl_resumed.
Qed.

(** A serial prepare is the start or the resumption, then one compaction. *)
#[local] Abbreviation settles t0 :=
  (retain_serial_download_contiguous_progress W platform (pe_io env) t0 = (pt_dl t', Ok (prep_next_offset o))).

Lemma serial_start :
  download_is_parallel t download = false → nothing_recorded → head_honest →
  ∃ t0, sd_init W sha256 rep total chunk (identity_of g) t0
    ∧ (∀ v, g = Some v → validator_of t0 = Some (str_of (vg_validator v))) ∧ settles t0.
Proof.
  intros Hpar Hb Hv. destruct (prepare_serial _ _ _ _ _ _ _ _ prepared resolved Hpar) as (p & start & Hl & _ & _ & _ & _ & Hret).
  apply (load_progress_blank _ _ (Some (locked_content env t))) in Hl as (p0 & -> & _ & Hl); [|done|done|apply parts_ok|done].
  eexists. split; [|split; [|exact Hret]]; [|by intros v ->].
  exists (pe_now env), (pt_max_parts_in_flight t), (mkDisk (Some (locked_content env t)) (f_sidecar files) (f_owned files)),
    p0, (option_map (λ g, str_of (vg_validator g)) g), true, (f_dur_target files).
  split_and!; [done|done|exact Hl|by intros v'; apply validator_known|]. unfold set_target. rewrite settled. by destruct g.
Qed.

Lemma serial_resume id v s p :
  download_is_parallel t download = false → g = Some (mkGenerationOf (Some id) v) →
  dl_progress s = Some p → dp_expected_validator p = Some (str_of v) →
  f_sidecar files = f_sidecar (dl_files s) ∨ f_sidecar files = f_dur_sidecar (dl_files s) →
  f_owned files = f_owned (dl_files s) → ∃ t0, sd_resumes W sha256 total chunk id s t0 ∧ settles t0.
Proof.
  intros Hpar Hg Hp1 Hv Hsc How.
  destruct (prepare_serial _ _ _ _ _ _ _ _ prepared resolved Hpar) as (q & start & Hl & _ & _ & _ & _ & Hret).
  apply load_progress_Ok in Hl as (p0 & -> & Hl). subst g. cbn [vg_validator] in *.
  eexists. split; [|exact Hret]. unfold prep_disk in Hl. unfold set_target. rewrite settled, How. rewrite How in Hl. by eapply sd_resumed.
Qed.

End Runs.

(** C23: a successful prepare is the start or the resumption of a verified run, for a total that is
    known and not zero, a disk on which the sidecar is durable, and a HEAD response whose validator
    (if it has a strong one) is that of a representation of that total. On a disk with no
    checkpoint of this download a parallel prepare leaves exactly an initial state of the parallel
    run, and a serial one exactly the compaction of an initial state of the serial run, whatever
    the target held and whatever other processes did to it meanwhile. On what a crash left of an
    earlier run under the same identity and validator, a parallel prepare over a target of full
    size that nobody else changes meanwhile is exactly the resumption of that run, and a serial one
    exactly its resumption and one compaction. *)
Theorem prepare_starts_or_resumes env download allow t t' o total g :
  let files := dl_files (pt_dl t) in
  let chunk := pt_chunk_size t in
  let settles t0 := retain_serial_download_contiguous_progress W platform (pe_io env) t0 = (pt_dl t', Ok (prep_next_offset o)) in
  fits U64_MAX total → total ≠ 0 → fits U64_MAX chunk → fits U32_MAX (pt_max_parts_in_flight t) →
  f_dur_sidecar files = f_sidecar files →
  download_prepare env download allow t = (t', Ok o) →
  snd (resolve_total env download allow (leased t)) = Ok (total, g) →
  ((∀ raw mp, f_sidecar files = Some raw → decode W raw total chunk mp (identity_of g) = None) →
   (∀ v, g = Some v → Z.of_nat (length (rep (str_of (vg_validator v)))) = total) →
   if download_is_parallel t download
   then dl_init W sha256 rep total chunk (identity_of g) (mkSys (pt_dl t') [])
   else ∃ t0, sd_init W sha256 rep total chunk (identity_of g) t0 ∧ settles t0)
  ∧ (∀ id v, g = Some (mkGenerationOf (Some id) v) →
     if download_is_parallel t download
     then ∀ s p, dl_progress (sys_task s) = Some p → dp_expected_validator p = Some (str_of v) →
       pt_exists t = true → pe_race env = None → Z.of_nat (length (f_target files)) = total →
       crash_target (ck_of p CkIdle (dl_files (sys_task s))) (f_target files) →
       f_sidecar files = f_sidecar (dl_files (sys_task s)) ∨ f_sidecar files = f_dur_sidecar (dl_files (sys_task s)) →
       f_owned files = f_owned (dl_files (sys_task s)) → dl_resume W sha256 total chunk id s (mkSys (pt_dl t') [])
     else ∀ s p, dl_progress s = Some p → dp_expected_validator p = Some (str_of v) →
       f_sidecar files = f_sidecar (dl_files s) ∨ f_sidecar files = f_dur_sidecar (dl_files s) →
       f_owned files = f_owned (dl_files s) → ∃ t0, sd_resumes W sha256 total chunk id s t0 ∧ settles t0).
Proof.
  intros files chunk settles Ht Ht0 Hc Hm Hdur H Hres. split.
  - intros Hb Hv. destruct (download_is_parallel t download) eqn:Hpar; [by eapply parallel_start|].
    destruct (serial_start env download allow t t' o total g) as (t0 & Hi & _ & Hs); try done. by exists t0.
  - intros id v Hg. destruct (download_is_parallel t download) eqn:Hpar; [intros s p ????????; by eapply parallel_resume|intros s p ????; by eapply serial_resume].
Qed.

Hypothesis sha256_len : ∀ bs, length (sha256 bs) = PART_DIGEST_LEN.

(** C1: a download delivers what its HEAD request announced. The HEAD response has a strong
    validator, of a representation of the announced size that is not zero; the server is honest
    about the bytes it labels with a strong validator; the disk has no checkpoint of this download
    and the sidecar on it is durable. For a parallel download, whatever happens to the parts, the
    files and the process after the prepare, crashes included but nobody else writing the target, a
    completion that succeeds leaves exactly that representation in the target and on stable
    storage. For a serial download, whatever else happens and whatever other processes write, a
    part transfer that reports the download as done leaves exactly that representation in the
    target, or SHA-256 has a collision. *)
Theorem prepared_download_is_head_generation env download allow t t' o total v :
  let files := dl_files (pt_dl t) in
  let chunk := pt_chunk_size t in
  let id := identity_of (Some v) in
  let remote := rep (str_of (vg_validator v)) in
  fits U64_MAX total → total ≠ 0 → fits U64_MAX chunk → fits U32_MAX (pt_max_parts_in_flight t) →
  f_dur_sidecar files = f_sidecar files →
  (∀ raw mp, f_sidecar files = Some raw → decode W raw total chunk mp id = None) →
  Z.of_nat (length remote) = total →
  snd (resolve_total env download allow (leased t)) = Ok (total, Some v) →
  download_prepare env download allow t = (t', Ok o) →
  prep_total_size o = total
  ∧ if download_is_parallel t download
    then ∀ s cenv t'', rtc (dstep total chunk id) (mkSys (pt_dl t') []) s →
      complete_download cenv (set_dl (sys_task s) t') = (t'', Ok None) →
      f_target (dl_files (pt_dl t'')) = remote ∧ f_dur_target (dl_files (pt_dl t'')) = remote
    else ∀ s nenv protocol base p offset s' co, rtc (sstep total chunk id) (pt_dl t') s → dl_progress s = Some p →
      total ≤ offset ∨ (∃ i, (i < dp_part_count p)%nat ∧ offset = part_offset p i) →
      (∀ url h resp, n_send nenv url h = Ok resp → honest rep resp) →
      download_one_chunk W sha256 platform redact_secrets from_utf8_lossy status_text nenv protocol base offset chunk total s
        = (s', Ok co) → done co = true →
      f_target (dl_files s') = remote ∨ hash_collision sha256.
Proof.
  intros files chunk id remote Ht Ht0 Hc Hm Hdur Hb Hrep Hres H.
  destruct (download_is_parallel t download) eqn:Hpar.
  - destruct (prepare_parallel _ _ _ _ _ _ _ _ Ht0 H Hres Hpar) as (q & st & _ & -> & _). split; [done|]. intros s cenv t'' Hr Hcomp.
    destruct (parallel_start env download allow t t' _ total (Some v) Ht Ht0 Hc Hm Hdur H Hres Hpar Hb) as [Hi Hv];
      [by intros v' [= <-]|].
    apply (dl_steps_validator _ _ _ _ _ _ _ _ _ _ (str_of (vg_validator v)) _ s) in Hr as Hvs; [|by apply Hv].
    unfold complete_download in Hcomp. cbn [set_dl pt_dl] in Hcomp. destruct (dl_progress (sys_task s)) as [p|]; [|done].
    destruct (finalize_download_content _ _ _ _ _ _) as [d [[]|]] eqn:Hf; [|done]. injection Hcomp as <-.
    assert (validated total chunk (sys_task (mkSys (pt_dl t') []))) as Hval by (right; cbn; rewrite (Hv v eq_refl); by eexists).
    destruct (finalized_is_one_generation W sha256 platform redact_secrets from_utf8_lossy status_text rep total chunk id HW sha256_len Ht Hc
      (mkSys (pt_dl t') []) s cenv (dp_total p) d Hi Hval Hr Hf) as (v' & Hv' & H1 & H2 & _).
    rewrite Hvs in Hv'. injection Hv' as <-. by split.
  - destruct (prepare_serial _ _ _ _ _ _ _ _ H Hres Hpar) as (q & st & _ & Ho & _). split; [done|].
    intros s nenv protocol base p offset s' co Hr Hp Hoff Hh Hch Hd.
    destruct (serial_start env download allow t t' o total (Some v)) as (t0 & Hi & Hv & Hs); try done; [by intros v' [= <-]|].
    assert (rtc (sstep total chunk id) t0 s) as Hrun by (eapply rtc_l; [by eapply sd_compact|exact Hr]).
    assert (validator_of t0 = Some (str_of (vg_validator v))) as Hv0 by (by apply Hv).
    pose proof (sd_steps_kept _ _ _ _ _ _ _ _ _ _ _ _ _ Hrun (kept_of _ _ Hv0) p Hp) as Hvp.
    destruct (completed_serial W sha256 platform redact_secrets from_utf8_lossy status_text rep total chunk id HW sha256_len Ht Hc
      t0 s nenv protocol base p offset s' co) as [(v' & Hv' & ->)|?]; try done; [right; rewrite Hv0; by eexists| |by right].
    left. unfold validator_of in Hv'. rewrite Hp, Hvp in Hv'. destruct Hv' as [?|[= <-]]; done.
Qed.

(** ** What a successful prepare promises *)

Lemma loaded_trusted now d total chunk mp g parallel p :
  fits U64_MAX total → fits U64_MAX chunk → 0 ≤ mp →
  load_download_progress_off_thread now d total chunk mp g parallel = Ok p →
  grid_ok W p ∧ dp_total p = total ∧ dp_chunk p = chunk
  ∧ dp_expected_validator p = option_map (λ g, str_of (vg_validator g)) g
  ∧ (∀ i, (i < dp_part_count p)%nat → has p i →
       (∃ g', g = Some g' ∧ is_Some (vg_identity g')) ∧ verified sha256 d p i).
Proof.
  intros Ht Hc Hm Hl. apply load_progress_Ok in Hl as (p0 & -> & Hl).
  assert (∃ q, fresh W now total chunk mp (identity_of g) = Ok q) as [q Hq].
  { destruct (fresh W now total chunk mp (identity_of g)) eqn:E; [eauto|].
    destruct g as [[[id|] v]|]; simpl in *; try congruence.
    unfold load_or_create, load_or_create_serial in Hl. rewrite E in Hl. by destruct parallel. }
  destruct (fresh_inv W HW now total chunk mp _ q Ht Hc Hm Hq) as (Hg & H1 & H2 & _ & _ & _ & _ & Hno).
  assert (dp_expected_validator q = None) as Hqv.
  { clear -Hq. unfold fresh in Hq. repeat case_match; by simplify_eq. }
  assert (same_grid q p0 ∧ grid_ok W p0 ∧ (∀ i, (i < dp_part_count p0)%nat → has p0 i →
    (∃ g', g = Some g' ∧ is_Some (vg_identity g')) ∧ verified sha256 d p0 i)) as (Hs & Hg0 & Hv).
  { assert (same_grid q q) as Hqq by (by destruct q).
    destruct g as [[[id|] v]|]; simpl in Hl, Hq; [|rewrite Hq in Hl; injection Hl as <-; split_and!; try done; by intros i _ ?%Hno..].
    destruct (load_eq W sha256 HW now d total chunk mp id q Ht Hc Hm Hq) as [E1 E2].
    assert (∃ tl, tl ≤ target_len d ∧ (p0 = q ∨ read_claims W d q (verify_completed_parts_through sha256 d tl) = Ok p0)) as (tl & Htl & Hp0).
    { destruct parallel; [rewrite E1 in Hl|rewrite E2 in Hl].
      - exists (if target_len d =? total then total else target_len d).
        destruct (target_len d =? total) eqn:E; simpl in Hl; zbool; [split; [lia|by right]|split; [lia|left; congruence]].
      - exists (target_len d). split; [lia|]. destruct (total <? target_len d); [left; congruence|by right]. }
    destruct Hp0 as [->|Hrc]; [split_and!; try done; by intros i _ ?%Hno|].
    destruct (read_claims_verified W sha256 HW sha256_len d tl q Hg Hno Htl) as (q' & Hq' & Hs' & Hg' & Hh).
    rewrite Hq' in Hrc. injection Hrc as ->. split_and!; try done. intros i Hi Hhi.
    destruct (same_grid_fields _ _ Hs') as (_ & _ & _ & _ & En). rewrite En in Hi.
    split; [eexists; split; [done|simpl; eauto]|]. by apply Hh. }
  destruct (same_grid_fields _ _ Hs) as (E1 & E2 & _). rewrite H1 in E1. rewrite H2 in E2.
  assert (dp_expected_validator p0 = None) as Hv0 by (rewrite Hs; exact Hqv).
  destruct g as [g|]; split_and!; try done. destruct Hg0. by split.
Qed.

(** The watermark is the end of the longest run of done parts from the start. *)
Lemma watermark_spec p :
  grid_ok W p →
  ∃ k, (k ≤ dp_part_count p)%nat ∧ contiguous_watermark p = Z.min (Z.of_nat k * dp_chunk p) (dp_total p)
    ∧ (∀ i, (i < k)%nat → has p i) ∧ ((k < dp_part_count p)%nat → ¬ has p k).
Proof.
  intros Hg. destruct (grid_count W HW p Hg) as (Hc & _). destruct (g_total _ _ Hg) as [Ht0 Ht].
  assert (∀ n a wm, (a + n = dp_part_count p)%nat → wm = Z.min (Z.of_nat a * dp_chunk p) (dp_total p) →
    (∀ i, (i < a)%nat → has p i) →
    ∃ k, (k ≤ dp_part_count p)%nat ∧ watermark_loop p (seq a n) wm = Z.min (Z.of_nat k * dp_chunk p) (dp_total p)
      ∧ (∀ i, (i < k)%nat → has p i) ∧ ((k < dp_part_count p)%nat → ¬ has p k)) as Hloop.
  { induction n as [|n IH]; intros a wm Ha Hwm Hh; simpl.
    - exists a. split_and!; [lia|done|done|lia].
    - destruct (bit_is_set (dp_bits p) a) eqn:Hb; simpl.
      + apply IH; [lia| |].
        * subst wm. unfold sat_add. rewrite Nat2Z.inj_succ, Z.mul_succ_l.
          assert (0 ≤ Z.of_nat a * dp_chunk p) by (apply Z.mul_nonneg_nonneg; lia). lia.
        * intros i Hi. destruct (decide (i = a)) as [->|]; [exact Hb|apply Hh; lia].
      + exists a. split_and!; [lia|done|done|]. unfold has. by rewrite Hb. }
  apply (Hloop (dp_part_count p) O 0); [lia|lia|lia].
Qed.

Lemma clear_parts_exact ix bits digests b' d' j :
  clear_parts ix bits digests = Ok (b', d') →
  bit_is_set b' j = negb (bool_decide (j ∈ ix)) && bit_is_set bits j ∧ (j ∉ ix → d' !! j = digests !! j).
Proof.
  revert bits digests. induction ix as [|i ix IH]; intros bits digests; cbn [clear_parts].
  { intros [= <- <-]. rewrite bool_decide_eq_false_2 by set_solver. done. }
  destruct (bits !! byte_of i); [|done]. intros H. destruct (IH _ _ H) as [-> Hd].
  destruct (bit_clear_spec bits i) as [_ Hbc]. rewrite Hbc. split.
  - destruct (decide (j = i)) as [->|Hne].
    + rewrite (bool_decide_eq_true_2 (i ∈ i :: ix)) by set_solver.
      rewrite (bool_decide_eq_true_2 (i = i)) by done. simpl. by rewrite andb_false_r.
    + rewrite (bool_decide_eq_false_2 (j = i)) by done. cbn [negb andb]. f_equal. f_equal. apply bool_decide_ext. set_solver.
  - intros Hj. rewrite Hd by set_solver. apply list_lookup_insert_ne. set_solver.
Qed.

Lemma part_bytes_take p i f n :
  grid_ok W p → (i < dp_part_count p)%nat → part_end p i ≤ Z.of_nat n →
  part_bytes p i (take n f) = part_bytes p i f.
Proof.
  intros Hg Hi Hn. destruct (part_bounds W HW p i Hg Hi) as (Hb & _).
  unfold part_bytes, file_range, part_len. rewrite !take_drop_commute, take_take. do 2 f_equal. lia.
Qed.

(** The parts kept by a compaction: exactly those below the watermark. *)
Lemma retained_prefix now fault p d0 p' d wm k :
  grid_ok W p → retain_contiguous_prefix_after_data_sync W now fault p d0 = (p', d, Ok wm) →
  (k ≤ dp_part_count p)%nat → contiguous_watermark p = Z.min (Z.of_nat k * dp_chunk p) (dp_total p) →
  (∀ i, (i < k)%nat → has p i) → ((k < dp_part_count p)%nat → ¬ has p k) →
  grid_ok W p' ∧ wm = contiguous_watermark p' ∧ wm = contiguous_watermark p
  ∧ p' = set_timer false (publish now (dp_bits p') (dp_digests p') p)
  ∧ ∀ i, (i < dp_part_count p)%nat →
      (has p' i ↔ (i < k)%nat) ∧ ((i < k)%nat → dp_digests p' !! i = dp_digests p !! i).
Proof.
  intros Hg Hr Hk Hwm Hlow Hnext.
  destruct (grid_count W HW p Hg) as (Hc & Hn & _). destruct (g_total _ _ Hg) as [Ht0 Ht].
  pose proof (div_ceil_spec (dp_total p) (dp_chunk p) Ht0 Hc) as [Hlo1 Hhi]. rewrite <- Hn in Hlo1, Hhi.
  unfold retain_contiguous_prefix_after_data_sync in Hr.
  destruct (if contiguous_watermark p =? dp_total p then Ok _ else usize_try_from W _ _) as [z|] eqn:Hz; [|done].
  assert (z = Z.of_nat k) as ->.
  { destruct (Z.eqb_spec (contiguous_watermark p) (dp_total p)) as [He|He].
    - injection Hz as <-. rewrite Hwm in He. destruct (decide (k = dp_part_count p)) as [->|]; [done|]. nia.
    - unfold usize_try_from in Hz. destruct (_ <=? _); [|done]. injection Hz as <-.
      assert (contiguous_watermark p = Z.of_nat k * dp_chunk p) as -> by lia. apply Z.div_mul; lia. }
  rewrite Nat2Z.id in Hr. destruct (table_lengths W p Hg) as [_ Hdl].
  destruct (clear_parts _ _ _) as [[b' d']|] eqn:Hcl; [|done].
  destruct (persist_snapshot_atomic _ _ _ _ _ _) as [d1 [[]|]]; [|done]. injection Hr as <- <- <-.
  set (q := set_timer false (publish now b' d' p)).
  assert (∀ i, (i < dp_part_count p)%nat → (has q i ↔ (i < k)%nat) ∧ ((i < k)%nat → dp_digests q !! i = dp_digests p !! i)) as Hq.
  { intros i Hi. destruct (clear_parts_exact _ _ _ _ _ i Hcl) as [Hb Hd]. unfold has, q. simpl. rewrite Hb.
    rewrite elem_of_seq in Hd. split; [|intros Hik; apply Hd; lia].
    case_bool_decide as Hin; rewrite elem_of_seq in Hin; simpl; [split; [done|lia]|].
    split; [lia|]. intros Hik. by apply Hlow. }
  assert (grid_ok W q) as Hgq.
  { destruct (g_table _ _ Hg) as (n & Hn1 & Hn2 & Hn3 & Hn4). destruct (clear_parts_spec _ _ _ _ _ Hcl Hn4) as (C1 & C2 & C3 & _).
    destruct Hg. split; try done. exists n. simpl. rewrite C1, C2. by split_and!. }
  split_and!; try done.
  destruct (watermark_spec q Hgq) as (k' & Hk' & -> & Hlow' & Hnext'). rewrite Hwm. change (dp_part_count q) with (dp_part_count p) in *.
  assert (k' = k) as ->; [|done]. destruct (lt_eq_lt_dec k' k) as [[Hlt|]|Hlt]; [|done|].
  - destruct Hnext'; [lia|]. apply Hq; lia.
  - specialize (Hlow' k Hlt). apply Hq in Hlow'; lia.
Qed.

(** A compaction leaves the verified prefix and nothing else in the target. *)
Lemma compacted env t t' wm p d0 :
  dl_progress t = Some p → dl_locked t = true → grid_ok W p →
  retain_serial_download_contiguous_progress W platform env t = (t', Ok wm) →
  ∃ p', dl_progress t' = Some p' ∧ dl_locked t' = true ∧ dl_lease t' = dl_lease t ∧ wm = contiguous_watermark p'
    ∧ dp_expected_validator p' = dp_expected_validator p
    ∧ f_dur_target (dl_files t') = f_target (dl_files t') ∧ Z.of_nat (length (f_target (dl_files t'))) = wm
    ∧ (∀ i, (i < dp_part_count p')%nat → has p' i → (i < dp_part_count p)%nat ∧ has p i)
    ∧ (target_file d0 = Some (f_target (dl_files t)) →
       (∀ i, (i < dp_part_count p)%nat → has p i → verified sha256 d0 p i) →
       ∀ i, (i < dp_part_count p')%nat → has p' i → verified sha256 (disk_of (dl_files t')) p' i).
Proof.
  intros Hp Hlo Hg H. unfold retain_serial_download_contiguous_progress, io_step in H. rewrite Hp, Hlo in H. cbn [negb] in H.
  destruct (e_set_len env); [done|]. destruct (e_sync env); [done|].
  destruct (retain_contiguous_prefix_after_data_sync _ _ _ _ _) as [[q d] r] eqn:Hr.
  destruct r as [wm'|]; [|done]. destruct (negb _); [done|]. injection H as <- <-.
  destruct (watermark_spec p Hg) as (k & Hk & Hwm & Hlow & Hnext).
  destruct (retained_prefix _ _ _ _ _ _ _ k Hg Hr Hk Hwm Hlow Hnext) as (Hgq & Hwq & -> & Heq & Hq).
  destruct (g_total _ _ Hg) as [Ht0 _]. destruct (grid_count W HW p Hg) as (Hc & _).
  assert (dp_part_count q = dp_part_count p ∧ dp_expected_validator q = dp_expected_validator p) as [En Ev] by (by rewrite Heq).
  assert (∀ i f, part_end q i = part_end p i ∧ part_bytes q i f = part_bytes p i f) as Hgeo by (intros; by rewrite Heq).
  exists q. cbn [dl_progress dl_locked dl_lease dl_files set_files set_progress set_sidecar sync_target set_target f_target f_dur_target].
  split_and!; try done.
  - by rewrite length_resize, Z2Nat.id by (rewrite Hwm; nia).
  - intros i Hi Hh. rewrite En in Hi. apply Hq in Hh; [|done]. split; [done|]. by apply Hlow.
  - intros Hd0 Hver i Hi Hh. rewrite En in Hi. apply Hq in Hh as Hik; [|done].
    assert (contiguous_watermark p ≤ Z.of_nat (length (f_target (dl_files t)))) as Hfit.
    { destruct k as [|k]; [lia|]. destruct (Hver k) as (f & Hf & Hfl & _); [lia|apply Hlow; lia|].
      rewrite Hd0 in Hf. injection Hf as <-. rewrite Hwm. unfold part_end, part_offset in Hfl. nia. }
    destruct (Hver i Hi (Hlow i Hik)) as (f & Hf & Hfl & Hdg). rewrite Hd0 in Hf. injection Hf as <-.
    assert (part_end p i ≤ contiguous_watermark p) by (rewrite Hwm; unfold part_end, part_offset; nia).
    exists (resize (f_target (dl_files t)) (Z.to_nat (contiguous_watermark p))). split; [reflexivity|].
    destruct (Hgeo i (resize (f_target (dl_files t)) (Z.to_nat (contiguous_watermark p)))) as [-> ->].
    assert (resize (f_target (dl_files t)) (Z.to_nat (contiguous_watermark p))
      = take (Z.to_nat (contiguous_watermark p)) (f_target (dl_files t))) as ->.
    { unfold resize. replace (_ - _)%nat with O by lia. apply app_nil_r. }
    rewrite part_bytes_take, length_take by (try done; lia). split; [lia|]. rewrite <- Hdg. by apply Hq.
Qed.

(** Where the size came from. *)
Lemma resolved_source env download allow t total g :
  snd (resolve_total env download allow (leased t)) = Ok (total, g) →
  total = match bd_total_size_hint download (leased t) with
          | Some h => if 0 <? h then h else pt_total_size t
          | None => pt_total_size t
          end ∧ g = None
  ∨ pt_total_size t ≤ 0 ∧ (∀ x, pt_resolved_total t = Some x → x = total).
Proof.
  intros H. assert (snd (resolve_unhinted env download allow (leased t)) = Ok (total, g) →
    total = pt_total_size t ∧ g = None ∨ pt_total_size t ≤ 0 ∧ (∀ x, pt_resolved_total t = Some x → x = total)) as Hu.
  { clear H. unfold resolve_unhinted. simpl. destruct (0 <? pt_total_size t) eqn:E; zbool; [intros [= <- <-]; by left|].
    intros H. right. split; [done|]. intros x Hx.
    destruct (build_download_head_request _ _) as [[url h]|]; [|done]. destruct (pe_head _ _ _); [|done].
    destruct (negb _); [done|]. destruct (head_total _ _ _) as [n|]; [|done].
    unfold freeze_resolved_download_total in H. simpl in H. rewrite Hx in H. destruct (Z.eqb_spec x n) as [Hxn|]; [|done].
    simpl in H. destruct (resolve_generation _ _ _ _); [|done]. by simplify_eq. }
  unfold resolve_total in H. destruct (bd_total_size_hint download (leased t)) as [h|]; [|by apply Hu].
  destruct (0 <? h); [|by apply Hu]. injection H as <- <-. by left.
Qed.

(** A part verified before the target is sized is verified after. *)
Lemma verified_parallel env t p i total :
  grid_ok W p → (i < dp_part_count p)%nat → dp_total p = total → pe_race env = None →
  verified sha256 (prep_disk t) p i →
  verified sha256 (disk_of (mkFiles (resize (locked_content env t) (Z.to_nat total)) (f_sidecar (dl_files (pt_dl t)))
    (f_owned (dl_files (pt_dl t))) (resize (locked_content env t) (Z.to_nat total)) (f_dur_sidecar (dl_files (pt_dl t))))) p i.
Proof.
  intros Hg Hi Ht Hr (f & Hf & Hl & Hd). destruct (part_bounds W HW p i Hg Hi) as (Hb1 & Hb2 & _).
  assert (locked_content env t = f) as ->.
  { unfold locked_content, prep_target, prep_disk in *. rewrite Hr. simpl in *. destruct (pt_exists t); [|done].
    by injection Hf. }
  eexists. split; [reflexivity|]. simpl. rewrite length_resize. split; [lia|]. rewrite Hd. do 2 f_equal.
  unfold resize. rewrite <- (part_bytes_take p i (take _ f ++ _) (Z.to_nat (part_end p i))) by (try done; lia).
  rewrite take_app_le by (rewrite length_take; lia). rewrite take_take.
  replace (_ `min` _)%nat with (Z.to_nat (part_end p i)) by lia. symmetry. apply part_bytes_take; [done|done|lia].
Qed.

(** A prepare that succeeds leaves a download ready to run: lease and lock are held, the
    target is on stable storage with the full size (parallel) or exactly the resumable prefix
    (serial), the reported offset is the end of the parts counted done, and a part is counted
    done only if HEAD gave an identity and, when no other process touched the target meanwhile,
    the target has its bytes with the recorded digest. The size is the hint, else the builder's,
    else that of the HEAD response, which cannot change within the task. *)
Theorem prepare_leaves_ready env download allow t t' o total g :
  fits U64_MAX total → total ≠ 0 → fits U64_MAX (pt_chunk_size t) → 0 ≤ pt_max_parts_in_flight t →
  download_prepare env download allow t = (t', Ok o) →
  snd (resolve_total env download allow (leased t)) = Ok (total, g) →
  prep_total_size o = total
  ∧ (total = match bd_total_size_hint download (leased t) with
             | Some h => if 0 <? h then h else pt_total_size t
             | None => pt_total_size t
             end ∧ g = None
     ∨ pt_total_size t ≤ 0 ∧ (∀ x, pt_resolved_total t = Some x → x = total))
  ∧ ∃ p, dl_progress (pt_dl t') = Some p ∧ dl_locked (pt_dl t') = true ∧ dl_lease (pt_dl t') = true
    ∧ dp_expected_validator p = option_map (λ g, str_of (vg_validator g)) g
    ∧ prep_next_offset o = contiguous_watermark p
    ∧ f_dur_target (dl_files (pt_dl t')) = f_target (dl_files (pt_dl t'))
    ∧ Z.of_nat (length (f_target (dl_files (pt_dl t'))))
      = (if download_is_parallel t download then total else prep_next_offset o)
    ∧ ∀ i, (i < dp_part_count p)%nat → has p i →
        (∃ g', g = Some g' ∧ is_Some (vg_identity g'))
        ∧ (pe_race env = None → verified sha256 (disk_of (dl_files (pt_dl t'))) p i).
Proof.
  intros Ht Ht0 Hc Hm H Hres. destruct (download_is_parallel t download) eqn:Hpar.
  - destruct (prepare_parallel _ _ _ _ _ _ _ _ Ht0 H Hres Hpar) as (p & start & Hl & -> & _ & _ & ->).
    split; [done|]. split; [by eapply resolved_source|]. exists p.
    destruct (loaded_trusted _ _ _ _ _ _ _ _ Ht Hc Hm Hl) as (Hg & Hpt & _ & Hv & Htr).
    split_and!; try done.
    + simpl. rewrite length_resize. destruct Ht. lia.
    + intros i Hi Hh. destruct (Htr i Hi Hh) as [Hid Hver]. split; [done|]. intros Hrace.
      by eapply verified_parallel.
  - destruct (prepare_serial _ _ _ _ _ _ _ _ H Hres Hpar) as (p & start & Hl & -> & _ & _ & _ & Hret).
    split; [done|]. split; [by eapply resolved_source|].
    destruct (loaded_trusted _ _ _ _ _ _ _ _ Ht Hc Hm Hl) as (Hg & _ & _ & Hv & Htr).
    destruct (compacted (pe_io env) (mkDl (Some p) true true (set_target (locked_content env t) (dl_files (pt_dl t)))) _ _ p
      (prep_disk t) eq_refl eq_refl Hg Hret)
      as (p' & H1 & H2 & H3 & H4 & H5 & H6 & H7 & H8 & H9).
    exists p'. rewrite H5. split_and!; try done.
    intros i Hi Hh. destruct (H8 i Hi Hh) as [Hi' Hh']. split; [by apply (Htr i)|]. intros Hrace.
    apply H9; try done; [|by intros j Hj Hhj; apply Htr].
    destruct (Htr i Hi' Hh') as [_ (f & Hf & _)]. unfold prep_disk in *. simpl in *.
    unfold locked_content, prep_target. rewrite Hrace. simpl. by destruct (pt_exists t).
Qed.

End Prepare.

(** ** A concrete preparation *)

Definition demo_parse (url : list Z) : option ParsedUrl := None.
Definition demo_etag : list Z := [34] ++ bs "g1" ++ [34].
Definition demo_head : HttpResponse :=
  mkResponse 200 (insert_header CONTENT_LENGTH (bs "20") (insert_header ETAG demo_etag ∅)) [].
Definition demo_prep_env : PrepEnv :=
  mkPrepEnv None None None None None (λ _ _, Ok demo_head) None 0 None None None None None false (io_ok 0).
Definition demo_download (parallel : bool) : BreakpointDownload :=
  mkBreakpoint demo_protocol (λ _, Ok (Some [1])) (λ _, None) parallel (λ _, "http://host/file") (λ _ h, Ok h)
    total_size_from_head.
(** A task whose target has some foreign bytes and no checkpoint. *)
Definition demo_prep : PrepTask :=
  mkPrep (mkDl None false false (mkFiles [9; 9; 9] None false [9; 9; 9] None)) true None 0 8 4 ∅ false.
Definition demo_prepared (parallel : bool) : PrepTask :=
  fst (download_prepare 64 demo_sha demo_parse Unix demo_status demo_prep_env (demo_download parallel) true demo_prep).
Definition demo_head_generation : VerifiedDownloadGeneration :=
  mkGenerationOf (Some (download_identity demo_sha demo_parse (bs "http://host/file") demo_etag [1])) demo_etag.

Lemma demo_resolved parallel :
  snd (resolve_total demo_sha demo_parse demo_status demo_prep_env (demo_download parallel) true (leased demo_prep))
  = Ok (20, Some demo_head_generation).
Proof. destruct parallel; vm_compute; reflexivity. Qed.

Lemma demo_prepare_Ok parallel :
  download_prepare 64 demo_sha demo_parse Unix demo_status demo_prep_env (demo_download parallel) true demo_prep
  = (demo_prepared parallel, Ok (mkPrepareOutcome 0 20)).
Proof. destruct parallel; vm_compute; reflexivity. Qed.

Lemma prepare_starts_or_resumes_witness :
  dl_init 64 demo_sha (λ _, demo_remote) 20 8 (identity_of (Some demo_head_generation)) (mkSys (pt_dl (demo_prepared true)) [])
  ∧ ∃ t0, sd_init 64 demo_sha (λ _, demo_remote) 20 8 (identity_of (Some demo_head_generation)) t0.
Proof.
  assert (∀ parallel : bool, if parallel
    then dl_init 64 demo_sha (λ _, demo_remote) 20 8 (identity_of (Some demo_head_generation)) (mkSys (pt_dl (demo_prepared parallel)) [])
    else ∃ t0, sd_init 64 demo_sha (λ _, demo_remote) 20 8 (identity_of (Some demo_head_generation)) t0) as Hall.
  { intros parallel.
    destruct (prepare_starts_or_resumes 64 demo_sha demo_parse Unix demo_status (λ _, demo_remote) ltac:(lia)
      demo_prep_env (demo_download parallel) true demo_prep (demo_prepared parallel) (mkPrepareOutcome 0 20) 20
      (Some demo_head_generation)) as [H _].
    - vm_compute; split; discriminate.
    - lia.
    - vm_compute; split; discriminate.
    - vm_compute; split; discriminate.
    - reflexivity.
    - apply demo_prepare_Ok.
    - apply demo_resolved.
    - specialize (H ltac:(by intros raw mp [=]) ltac:(intros v _; reflexivity)).
      destruct parallel; [exact H|]. destruct H as (t0 & H & _). exists t0. exact H. }
  split; [exact (Hall true)|exact (Hall false)].
Defined.

(** The three parts, received out of order, then the completion. *)
Definition demo_run (parallel : bool) : DlTask := demo_part 8 15 (demo_part 0 7 (demo_part 16 19 (pt_dl (demo_prepared parallel)))).

Lemma demo_run_reachable :
  rtc (dl_step 64 demo_sha Unix id str_of demo_status (λ _, demo_remote) 20 8 (identity_of (Some demo_head_generation)))
    (mkSys (pt_dl (demo_prepared true)) []) (mkSys (demo_run true) []).
Proof.
  assert (∀ t i, match dl_progress t with
     | Some p => (i <? dp_part_count p)%nat && (8 * Z.of_nat i =? part_offset p i) | None => false end = true →
     ∃ p, dl_progress t = Some p ∧ (i < dp_part_count p)%nat ∧ 8 * Z.of_nat i = part_offset p i) as Hx.
  { intros t i H. destruct (dl_progress t) as [p|]; [|done]. apply andb_true_iff in H as [H1 H2].
    exists p. split; [done|]. split; [by apply Nat.ltb_lt|by apply Z.eqb_eq]. }
  set (t0 := pt_dl (demo_prepared true)). set (t1 := demo_part 16 19 t0). set (t2 := demo_part 0 7 t1).
  destruct (Hx t0 2%nat ltac:(vm_compute; reflexivity)) as (p0 & H0 & L0 & O0).
  destruct (Hx t1 0%nat ltac:(vm_compute; reflexivity)) as (p1 & H1 & L1 & O1).
  destruct (Hx t2 1%nat ltac:(vm_compute; reflexivity)) as (p2 & H2 & L2 & O2).
  etrans; [exact (demo_part_steps _ 16 19 2 t0 p0 ltac:(repeat constructor) H0 L0 O0)|].
  etrans; [exact (demo_part_steps _ 0 7 0 t1 p1 ltac:(repeat constructor) H1 L1 O1)|].
  exact (demo_part_steps _ 8 15 1 t2 p2 ltac:(repeat constructor) H2 L2 O2).
Qed.

Lemma prepared_download_is_head_generation_witness :
  f_dur_target (dl_files (pt_dl (fst (complete_download 64 demo_sha Unix (io_ok 9)
    (set_dl (demo_run true) (demo_prepared true)))))) = demo_remote.
Proof.
  destruct (complete_download 64 demo_sha Unix (io_ok 9) (set_dl (demo_run true) (demo_prepared true))) as [t'' r] eqn:Hf.
  assert (snd (complete_download 64 demo_sha Unix (io_ok 9) (set_dl (demo_run true) (demo_prepared true))) = Ok None) as Hr
    by (vm_compute; reflexivity).
  rewrite Hf in Hr. cbn [snd] in Hr. subst r.
  destruct (prepared_download_is_head_generation 64 demo_sha demo_parse Unix id str_of demo_status (λ _, demo_remote)
    ltac:(lia) demo_sha_len demo_prep_env (demo_download true) true demo_prep (demo_prepared true)
    (mkPrepareOutcome 0 20) 20 demo_head_generation) as (_ & H).
  - vm_compute; split; discriminate.
  - lia.
  - vm_compute; split; discriminate.
  - vm_compute; split; discriminate.
  - reflexivity.
  - by intros raw mp [=].
  - reflexivity.
  - exact (demo_resolved true).
  - exact (demo_prepare_Ok true).
  - exact (proj2 (H (mkSys (demo_run true) []) (io_ok 9) t'' demo_run_reachable Hf)).
Defined.

Lemma prepare_leaves_ready_witness :
  ∃ p, dl_progress (pt_dl (demo_prepared false)) = Some p ∧ contiguous_watermark p = 0
    ∧ f_target (dl_files (pt_dl (demo_prepared false))) = [].
Proof.
  destruct (prepare_leaves_ready 64 demo_sha demo_parse Unix id str_of demo_status (λ _, demo_remote) ltac:(lia) demo_sha_len
    demo_prep_env (demo_download false) true demo_prep (demo_prepared false) (mkPrepareOutcome 0 20) 20
    (Some demo_head_generation)) as (_ & _ & p & H1 & _ & _ & _ & H2 & _ & H3 & _).
  - vm_compute; split; discriminate.
  - lia.
  - vm_compute; split; discriminate.
  - vm_compute. discriminate.
  - exact (demo_prepare_Ok false).
  - exact (demo_resolved false).
  - exists p. split; [exact H1|]. split; [symmetry; exact H2|].
    destruct (f_target (dl_files (pt_dl (demo_prepared false)))) as [|x l]; [reflexivity|discriminate H3].
Defined.

(** ** A target longer than the remote *)

(** The serial path refuses a target longer than the remote; the parallel path cuts it, although
    the comment beside the call says that existing bytes are never truncated. *)
Definition demo_long : PrepTask :=
  mkPrep (mkDl None false false (mkFiles (replicate 25 7) None false (replicate 25 7) None)) true None 0 8 4 ∅ false.

Lemma parallel_prepare_truncates :
  let run parallel := download_prepare 64 demo_sha demo_parse Unix demo_status demo_prep_env (demo_download parallel) true demo_long in
  is_ok (snd (run true)) = true ∧ length (f_target (dl_files (pt_dl (fst (run true))))) = 20%nat
  ∧ is_ok (snd (run false)) = false ∧ length (f_target (dl_files (pt_dl (fst (run false))))) = 25%nat.
Proof. vm_compute. auto. Qed.
