(* ===== verification/TargetLease.v ===== *)
(** * Leases on download targets

    [src/target_lease.rs]: the exclusive ownership of a download target across tasks and
    processes. A lease is a set of locked files, one per key of the target and of its sidecar;
    the locks are tried one after the other, in the order of the keys, while other processes do
    the same.

    Advisory locks, path resolution and file metadata belong to the operating system: the lock
    table is the state, resolution and metadata are parameters ([Fs]), I/O errors are inputs. A
    lock is held by an open file, so it is released when the files are dropped. *)
From stdpp Require Import sorting.
From S2P Require Import Prelude Errors HttpHeaders DownloadIdentity.
#[local] Open Scope Z_scope.

(** ** Keys of a target *)

(** A path: absolute or not, and its components without [.]. *)
Record Path := mkPathOf { path_abs : bool; path_comps : list string }.

#[export] Instance Path_eq_dec : EqDecision Path.
Proof. solve_decision. Defined.

Inductive TargetOs := OsLinux | OsMacos | OsWindows | OsOther.

Record Fs := mkFs {
  fs_canonicalize : Path → result Path IoError;
  (** device and inode *)
  fs_metadata : Path → option (Z * Z);
}.

(** [Path::file_name]: the last component unless it is [..] *)
Definition file_name_of (last : string) : option string := if String.eqb last ".." then None else Some last.

Definition path_push (p : Path) (name : string) : Path := mkPathOf (path_abs p) (path_comps p ++ [name]).

(** The loop, over the components from the last one; a parent without components is the root or
    the current directory, which have no file name. *)
Fixpoint normalize_loop (fs : Fs) (abs : bool) (rev_comps missing : list string) : result Path IoError :=
  match fs_canonicalize fs (mkPathOf abs (rev rev_comps)) with
  | Ok canonical => Ok (foldl path_push canonical (rev missing))
  | Err e =>
      if bool_decide (io_kind e = NotFound) then
        match rev_comps with
        | [] => Err e
        | last :: parent =>
            match file_name_of last with
            | Some name => normalize_loop fs abs parent (missing ++ [name])
            | None => Err e
            end
        end
      else Err e
  end.

Definition normalize_lease_path (fs : Fs) (p : Path) : result Path IoError :=
  normalize_loop fs (path_abs p) (rev (path_comps p)) [].

Fixpoint join_comps (comps : list string) : string :=
  match comps with
  | [] => ""
  | [c] => c
  | c :: rest => c +:+ "/" +:+ join_comps rest
  end.
Definition path_text (p : Path) : string := (if path_abs p then "/" else "") +:+ join_comps (path_comps p).

Section Keys.
(** Unicode lower-casing of the standard library. *)
Context (os : TargetOs) (to_lowercase : string → string).

Definition path_key (p : Path) : list Z :=
  match os with
  | OsWindows => bs ("path:" +:+ to_lowercase (path_text p))
  | _ => bs ("path:" +:+ path_text p)
  end.

Definition lease_keys (fs : Fs) (target : Path) : result (list (list Z)) IoError :=
  let? canonical := normalize_lease_path fs target in
  let keys := [path_key canonical] in
  let keys :=
    match os with
    | OsMacos => keys ++ [bs ("path-casefold:" +:+ to_lowercase (path_text canonical))]
    | _ => keys
    end in
  Ok (match os, fs_metadata fs target with
      | (OsLinux | OsMacos), Some (dev, ino) =>
          keys ++ [bs ("inode:" +:+ pretty dev +:+ ":" +:+ pretty ino)]
      | _, _ => keys
      end).

Definition bytes_le (a b : list Z) : Prop := bytes_leb a b = true.
#[export] Instance bytes_le_dec : RelDecision bytes_le.
Proof. intros a b. unfold bytes_le. apply _. Defined.

(** [Vec::dedup] removes repetitions that follow each other. *)
Fixpoint dedup (l : list (list Z)) : list (list Z) :=
  match l with
  | x :: (y :: _) as r => if bool_decide (x = y) then dedup r else x :: dedup r
  | _ => l
  end.

(** The keys of the target and of its sidecar, sorted, without repetitions. *)
Definition acquire_keys (fs : Fs) (sidecar_path : Path → Path) (target : Path) : result (list (list Z)) IoError :=
  let? keys := lease_keys fs target in
  let? sidecar_keys := lease_keys fs (sidecar_path target) in
  Ok (dedup (merge_sort bytes_le (keys ++ sidecar_keys))).

End Keys.

(** ** The order of keys *)

Definition bytes_lt (a b : list Z) : Prop := bytes_le a b ∧ a ≠ b.

Lemma bytes_leb_total a b : bytes_leb a b = true ∨ bytes_leb b a = true.
Proof.
  revert b. induction a as [|x a IH]; intros [|y b]; simpl; auto.
  destruct (Z.eqb_spec x y) as [->|Hne]; [rewrite Z.eqb_refl; apply IH|].
  destruct (Z.eqb_spec y x) as [->|]; [done|]. destruct (Z.ltb_spec x y), (Z.ltb_spec y x); auto; lia.
Qed.

Lemma bytes_leb_antisym a b : bytes_leb a b = true → bytes_leb b a = true → a = b.
Proof.
  revert b. induction a as [|x a IH]; intros [|y b]; simpl; try done.
  destruct (Z.eqb_spec x y) as [->|Hne]; [rewrite Z.eqb_refl; intros; f_equal; auto|].
  destruct (Z.eqb_spec y x) as [->|]; [done|]. intros ?%Z.ltb_lt ?%Z.ltb_lt. lia.
Qed.

Lemma bytes_leb_trans a b c : bytes_leb a b = true → bytes_leb b c = true → bytes_leb a c = true.
Proof.
  revert b c. induction a as [|x a IH]; intros [|y b] [|z c]; simpl; try done.
  destruct (Z.eqb_spec x y) as [->|Hxy].
  - destruct (y =? z); [apply IH|done].
  - intros Hlt%Z.ltb_lt. destruct (Z.eqb_spec y z) as [<-|Hyz].
    + intros _. destruct (Z.eqb_spec x y); [done|]. by apply Z.ltb_lt.
    + intros Hlt'%Z.ltb_lt. destruct (Z.eqb_spec x z); [lia|]. apply Z.ltb_lt. lia.
Qed.

#[local] Instance bytes_le_total : Total bytes_le.
Proof. intros a b. apply bytes_leb_total. Qed.
#[local] Instance bytes_le_trans : Transitive bytes_le.
Proof. intros a b c. apply bytes_leb_trans. Qed.

Lemma bytes_lt_irrefl a : ¬ bytes_lt a a.
Proof. by intros [_ ?]. Qed.
Lemma bytes_lt_trans a b c : bytes_lt a b → bytes_lt b c → bytes_lt a c.
Proof.
  intros [H1 N1] [H2 N2]. split; [by eapply bytes_leb_trans|]. intros <-. by apply N1, bytes_leb_antisym.
Qed.
#[local] Instance bytes_lt_flip_trans : Transitive (flip bytes_lt).
Proof. intros a b c H1 H2. simpl in *. by eapply bytes_lt_trans. Qed.
#[local] Instance bytes_lt_flip_dec : RelDecision (flip bytes_lt).
Proof. intros a b. unfold flip, bytes_lt. apply _. Defined.

Lemma elem_of_dedup l x : x ∈ dedup l ↔ x ∈ l.
Proof.
  induction l as [|a [|b l] IH]; [done..|]. cbn [dedup]. case_bool_decide as Hab.
  - subst b. rewrite IH. set_solver.
  - rewrite !(elem_of_cons _ x a), IH. done.
Qed.

Lemma dedup_sorted l : StronglySorted bytes_le l → StronglySorted bytes_lt (dedup l).
Proof.
  induction l as [|a [|b l] IH]; intros Hs; [constructor|by repeat constructor|].
  apply StronglySorted_cons in Hs as [Ha Hs]. specialize (IH Hs). cbn [dedup]. case_bool_decide as Hab; [done|].
  constructor; [done|]. apply Forall_forall. intros x Hx. apply (elem_of_dedup (b :: l)) in Hx. rewrite Forall_forall in Ha.
  split; [by apply Ha|]. intros <-. apply StronglySorted_cons in Hs as [Hb _].
  assert (bytes_le a b) as Hab1 by (apply Ha; by left). apply Hab. apply elem_of_cons in Hx as [->|Hx]; [done|].
  rewrite Forall_forall in Hb. by apply bytes_leb_antisym; [|apply Hb].
Qed.

(** The keys of an acquisition: in strict order, those of the target and of its sidecar. *)
Lemma acquire_keys_spec os lower fs side target keys :
  acquire_keys os lower fs side target = Ok keys →
  StronglySorted bytes_lt keys
  ∧ ∃ k1 k2, lease_keys os lower fs target = Ok k1 ∧ lease_keys os lower fs (side target) = Ok k2
    ∧ ∀ k, k ∈ keys ↔ k ∈ k1 ∨ k ∈ k2.
Proof.
  unfold acquire_keys. destruct (lease_keys os lower fs target) as [k1|]; [|done].
  destruct (lease_keys os lower fs (side target)) as [k2|]; [|done]. intros [= <-]. split.
  - apply dedup_sorted, StronglySorted_merge_sort; apply _.
  - exists k1, k2. split_and!; [done|done|]. intros k. rewrite elem_of_dedup, merge_sort_Permutation. apply elem_of_app.
Qed.

Lemma path_key_in os lower fs side target keys c :
  acquire_keys os lower fs side target = Ok keys →
  normalize_lease_path fs target = Ok c ∨ normalize_lease_path fs (side target) = Ok c →
  path_key os lower c ∈ keys.
Proof.
  intros Hk Hc. apply acquire_keys_spec in Hk as (_ & k1 & k2 & H1 & H2 & Hk). apply Hk.
  assert (∀ t ks, lease_keys os lower fs t = Ok ks → normalize_lease_path fs t = Ok c → path_key os lower c ∈ ks) as Hin.
  { intros t ks Ht Hn. unfold lease_keys in Ht. rewrite Hn in Ht. injection Ht as <-. repeat case_match; set_solver. }
  destruct Hc as [Hc|Hc]; [left|right]; by eapply Hin.
Qed.

Lemma inode_key_in os lower fs side target keys dev ino :
  acquire_keys os lower fs side target = Ok keys → os = OsLinux ∨ os = OsMacos →
  fs_metadata fs target = Some (dev, ino) ∨ fs_metadata fs (side target) = Some (dev, ino) →
  bs ("inode:" +:+ pretty dev +:+ ":" +:+ pretty ino) ∈ keys.
Proof.
  intros Hk Hos Hm. apply acquire_keys_spec in Hk as (_ & k1 & k2 & H1 & H2 & Hk). apply Hk.
  assert (∀ t ks, lease_keys os lower fs t = Ok ks → fs_metadata fs t = Some (dev, ino) →
    bs ("inode:" +:+ pretty dev +:+ ":" +:+ pretty ino) ∈ ks) as Hin.
  { intros t ks Ht Hmt. unfold lease_keys in Ht. destruct (normalize_lease_path fs t); [|done]. rewrite Hmt in Ht.
    destruct Hos as [-> | ->]; injection Ht as <-; set_solver. }
  destruct Hm as [Hm|Hm]; [left|right]; by eapply Hin.
Qed.

(** ** Acquisition *)

Inductive LeasePhase :=
| Acquiring (held remaining : list (list Z))
| Leased (held : list (list Z))
(** a lock was held by another owner, at that key *)
| Contended (key : list Z)
| LeaseFailed (e : IoError)
| Released.

Record Leases := mkLeases {
  lock_table : gmap (list Z) nat;
  owners : gmap nat LeasePhase;
}.

Section Lease.
Context (sha256 : list Z → list Z).

(** The lock file of a key. *)
Definition lock_name (key : list Z) : list Z := concat (map hex_byte (sha256 key)) ++ bs ".lock".

(** Dropping the files releases their locks. *)
Definition drop_locks (held : list (list Z)) (table : gmap (list Z) nat) : gmap (list Z) nat :=
  foldr (λ k table, delete (lock_name k) table) table held.

Definition set_owner (o : nat) (ph : LeasePhase) (table : gmap (list Z) nat) (s : Leases) : Leases :=
  mkLeases table (<[o := ph]> (owners s)).

(** One turn of the loop of [TargetLease::acquire] by owner [o], or its end with the second
    namespace check. *)
Definition acquire_turn (io : option IoError) (o : nat) (held remaining : list (list Z)) (s : Leases) : Leases :=
  let failed ph := set_owner o ph (drop_locks held (lock_table s)) s in
  match io with
  | Some e => failed (LeaseFailed e)
  | None =>
      match remaining with
      | [] => set_owner o (Leased held) (lock_table s) s
      | key :: rest =>
          match lock_table s !! lock_name key with
          | Some _ => failed (Contended key)
          | None => set_owner o (Acquiring (held ++ [key]) rest) (<[lock_name key := o]> (lock_table s)) s
          end
      end
  end.

(** What the outside of the module sees of a refusal. *)
Definition refusal (ph : LeasePhase) : option IoError :=
  match ph with
  | Contended _ => Some (io_new WouldBlock "download target is already owned by another task")
  | LeaseFailed e => Some e
  | _ => None
  end.

Inductive lease_step (keys_of : nat → list (list Z)) (errors releases : bool) : Leases → Leases → Prop :=
| lease_begin o s :
    owners s !! o = None → lease_step keys_of errors releases s (set_owner o (Acquiring [] (keys_of o)) (lock_table s) s)
| lease_turn o io held remaining s :
    owners s !! o = Some (Acquiring held remaining) → io = None ∨ errors = true →
    lease_step keys_of errors releases s (acquire_turn io o held remaining s)
| lease_release o held s :
    owners s !! o = Some (Leased held) → releases = true →
    lease_step keys_of errors releases s (set_owner o Released (drop_locks held (lock_table s)) s).

Definition no_leases : Leases := mkLeases ∅ ∅.

(** ** Who holds which lock *)

Definition held_of (ph : LeasePhase) : list (list Z) :=
  match ph with Acquiring held _ | Leased held => held | _ => [] end.

Definition phase_ok (keys : list (list Z)) (ph : LeasePhase) : Prop :=
  match ph with Acquiring held remaining => held ++ remaining = keys | Leased held => held = keys | _ => True end.

Record leases_ok (keys_of : nat → list (list Z)) (s : Leases) : Prop := {
  lo_table n o : lock_table s !! n = Some o ↔
    ∃ ph k, owners s !! o = Some ph ∧ k ∈ held_of ph ∧ n = lock_name k;
  lo_phase o ph : owners s !! o = Some ph → phase_ok (keys_of o) ph;
}.

Lemma drop_locks_lookup held table n :
  drop_locks held table !! n = if decide (n ∈ map lock_name held) then None else table !! n.
Proof.
  induction held as [|k held IH].
  - by rewrite decide_False by set_solver.
  - change (drop_locks (k :: held) table) with (delete (lock_name k) (drop_locks held table)).
    destruct (decide (n = lock_name k)) as [->|Hne].
    + rewrite lookup_delete_eq. by rewrite decide_True by set_solver.
    + rewrite lookup_delete_ne by done. rewrite IH. apply decide_ext. cbn [map]. set_solver.
Qed.

(** One owner moves on: the locks of the others stay as they are. *)
Lemma move_ok keys_of o ph' table' s :
  leases_ok keys_of s → phase_ok (keys_of o) ph' →
  (∀ n q, table' !! n = Some q ↔
     (q ≠ o ∧ lock_table s !! n = Some q) ∨ (q = o ∧ ∃ k, k ∈ held_of ph' ∧ n = lock_name k)) →
  leases_ok keys_of (set_owner o ph' table' s).
Proof.
  intros Hs Hph Ht. split; cbn [lock_table owners set_owner].
  - intros n q. rewrite Ht. destruct (decide (q = o)) as [->|Hne].
    + rewrite lookup_insert_eq. naive_solver.
    + rewrite lookup_insert_ne by done. rewrite (lo_table _ _ Hs). naive_solver.
  - intros q ph Hq. destruct (decide (q = o)) as [->|Hne].
    + rewrite lookup_insert_eq in Hq. injection Hq as <-. exact Hph.
    + rewrite lookup_insert_ne in Hq by done. by apply (lo_phase _ _ Hs q ph).
Qed.

(** The locks of one owner. *)
Lemma owner_locks keys_of s o ph n :
  leases_ok keys_of s → owners s !! o = Some ph →
  lock_table s !! n = Some o ↔ ∃ k, k ∈ held_of ph ∧ n = lock_name k.
Proof. intros Hs Ho. rewrite (lo_table _ _ Hs). naive_solver. Qed.

Lemma stop_ok keys_of o ph ph' s :
  leases_ok keys_of s → owners s !! o = Some ph → held_of ph' = [] → phase_ok (keys_of o) ph' →
  leases_ok keys_of (set_owner o ph' (drop_locks (held_of ph) (lock_table s)) s).
Proof.
  intros Hs Ho Hh Hph. apply move_ok; [done|done|]. intros n q. rewrite drop_locks_lookup, Hh.
  pose proof (owner_locks _ _ _ _ n Hs Ho) as Hn.
  destruct (decide (n ∈ map lock_name (held_of ph))) as [Hin|Hin]; rewrite list_elem_of_fmap in Hin.
  - assert (lock_table s !! n = Some o) as Hno by naive_solver. split; [done|].
    intros [[Hne Hq]|(_ & k & Hk & _)]; [congruence|by apply not_elem_of_nil in Hk].
  - split.
    + intros Hq. left. split; [|done]. intros ->. naive_solver.
    + intros [[_ ?]|(_ & k & Hk & _)]; [done|by apply not_elem_of_nil in Hk].
Qed.

Lemma lease_step_ok keys_of e r s s' : leases_ok keys_of s → lease_step keys_of e r s s' → leases_ok keys_of s'.
Proof.
  intros Hs Hst. destruct Hst as [o s Ho|o io held remaining s Ho Hio|o held s Ho Hr].
  - apply move_ok; [done|done|]. intros n q. split.
    + intros Hq. left. split; [|done]. intros ->. apply (lo_table _ _ Hs) in Hq as (ph & k & Hph & _). congruence.
    + intros [[_ ?]|(_ & k & Hk & _)]; [done|by apply not_elem_of_nil in Hk].
  - unfold acquire_turn. destruct io as [e1|]; [by apply (stop_ok keys_of o (Acquiring held remaining))|].
    pose proof (lo_phase _ _ Hs o _ Ho) as Hk0. cbn [phase_ok] in Hk0. destruct remaining as [|key rest].
    + apply move_ok; [done|by rewrite app_nil_r in Hk0|]. intros n q.
      pose proof (owner_locks _ _ _ _ n Hs Ho) as Hn. cbn [held_of] in *. destruct (decide (q = o)) as [->|]; naive_solver.
    + destruct (lock_table s !! lock_name key) eqn:Hl; [by apply (stop_ok keys_of o (Acquiring held (key :: rest)))|].
      apply move_ok; [done|by unfold phase_ok; rewrite <- (assoc_L (++))|]. intros n q.
      pose proof (owner_locks _ _ _ _ n Hs Ho) as Hn. cbn [held_of] in *.
      setoid_rewrite elem_of_app. setoid_rewrite list_elem_of_singleton.
      destruct (decide (n = lock_name key)) as [->|Hne].
      * rewrite lookup_insert_eq. naive_solver.
      * rewrite lookup_insert_ne by done. destruct (decide (q = o)) as [->|]; naive_solver.
  - by apply (stop_ok keys_of o (Leased held)).
Qed.

Lemma leases_reachable keys_of e r s : rtc (lease_step keys_of e r) no_leases s → leases_ok keys_of s.
Proof.
  intros H. eapply rtc_invariant; [intros a b; apply lease_step_ok| |exact H]. split; simpl.
  - intros n o. rewrite lookup_empty. split; [done|]. intros (ph & k & Ho & _). by rewrite lookup_empty in Ho.
  - intros o ph Ho. by rewrite lookup_empty in Ho.
Qed.

(** ** Exclusive ownership *)

Section Exclusive.
Context (os : TargetOs) (to_lowercase : string → string) (sidecar_path : Path → Path).
(** Each owner's target, and the file system when it derived the keys. *)
Context (target_of : nat → Path) (fs_of : nat → Fs) (keys_of : nat → list (list Z)).
Hypothesis keys_eq : ∀ o, acquire_keys os to_lowercase (fs_of o) sidecar_path (target_of o) = Ok (keys_of o).

(** The canonical paths of an owner's target and sidecar, and their files, as they were when the
    keys were derived. *)
Definition path_of (o : nat) (c : Path) : Prop :=
  normalize_lease_path (fs_of o) (target_of o) = Ok c ∨ normalize_lease_path (fs_of o) (sidecar_path (target_of o)) = Ok c.
Definition file_of (o : nat) (f : Z * Z) : Prop :=
  fs_metadata (fs_of o) (target_of o) = Some f ∨ fs_metadata (fs_of o) (sidecar_path (target_of o)) = Some f.

(** C29: a leased target has one owner. Whatever other tasks and processes do and whatever fails, a lock
    is only ever held by an owner that is acquiring with it or holds a lease with it, so that an
    attempt that failed or a lease that was released has none; an owner that holds a lease holds
    the locks of all its keys; and of two owners that hold leases at the same time neither the
    targets nor the sidecars have a canonical path in common, nor, on Linux and macOS, a file that
    both found existing when they derived their keys. *)
Theorem lease_exclusive s errors releases :
  rtc (lease_step keys_of errors releases) no_leases s →
  (∀ n o, lock_table s !! n = Some o →
     ∃ held, n ∈ map lock_name held ∧ (owners s !! o = Some (Leased held) ∨ ∃ rest, owners s !! o = Some (Acquiring held rest)))
  ∧ (∀ o held k, owners s !! o = Some (Leased held) → k ∈ keys_of o → lock_table s !! lock_name k = Some o)
  ∧ (∀ o1 o2 h1 h2, owners s !! o1 = Some (Leased h1) → owners s !! o2 = Some (Leased h2) → o1 ≠ o2 →
       (∀ c, path_of o1 c → path_of o2 c → False)
       ∧ (os = OsLinux ∨ os = OsMacos → ∀ f, file_of o1 f → file_of o2 f → False)).
Proof.
  intros Hr. pose proof (leases_reachable _ _ _ _ Hr) as Hs.
  assert (∀ o held k, owners s !! o = Some (Leased held) → k ∈ keys_of o → lock_table s !! lock_name k = Some o) as Hall.
  { intros o held k Ho Hk. rewrite <- (lo_phase _ _ Hs _ _ Ho) in Hk. apply Hs. by exists (Leased held), k. }
  split; [|split; [done|]].
  - intros n o Hn. apply Hs in Hn as (ph & k & Ho & Hk & ->).
    destruct ph as [held rest|held| | |]; try (by apply not_elem_of_nil in Hk);
      exists held; (split; [by apply list_elem_of_fmap_2|]); eauto.
  - intros o1 o2 h1 h2 H1 H2 Hne.
    assert (∀ k, k ∈ keys_of o1 → k ∈ keys_of o2 → False) as Hdis.
    { intros k K1 K2. pose proof (Hall _ _ _ H1 K1). pose proof (Hall _ _ _ H2 K2). congruence. }
    split.
    + intros c Hc1 Hc2. by apply (Hdis (path_key os to_lowercase c)); eapply path_key_in.
    + intros Hos [dev ino] Hf1 Hf2.
      by apply (Hdis (bs ("inode:" +:+ pretty dev +:+ ":" +:+ pretty ino))); eapply inode_key_in.
Qed.

End Exclusive.

(** ** Contention *)

Section Contention.
Context (keys_of : nat → list (list Z)).
Hypothesis sorted : ∀ o, StronglySorted bytes_lt (keys_of o).
(** No two of the keys have the same lock file. *)
Hypothesis names_distinct : ∀ o q k k', k ∈ keys_of o → k' ∈ keys_of q → lock_name k = lock_name k' → k = k'.

(** Somebody holds the key, or was refused at a later one. *)
Definition passed (om : gmap nat LeasePhase) (k : list Z) : Prop :=
  (∃ q ph, om !! q = Some ph ∧ k ∈ held_of ph) ∨ ∃ q k', om !! q = Some (Contended k') ∧ bytes_lt k k'.
Definition overtaken (s : Leases) : Prop := ∀ o k, owners s !! o = Some (Contended k) → passed (owners s) k.

(** Moving on keeps a key passed if what the owner held it still holds or is below its refusal. *)
Lemma passed_move om q ph ph' k :
  om !! q = Some ph → (∀ k', ph ≠ Contended k') →
  (∀ k, k ∈ held_of ph → k ∈ held_of ph' ∨ ∃ k', ph' = Contended k' ∧ bytes_lt k k') →
  passed om k → passed (<[q := ph']> om) k.
Proof.
  intros Hq Hnc Hkeep [(x & ph1 & Hx & Hk)|(x & k' & Hx & Hlt)].
  - destruct (decide (x = q)) as [->|Hne]; [|left; exists x, ph1; by rewrite lookup_insert_ne].
    rewrite Hq in Hx. injection Hx as <-. destruct (Hkeep k Hk) as [Hk'|(k' & -> & Hlt)].
    + left. exists q, ph'. by rewrite lookup_insert_eq.
    + right. exists q, k'. by rewrite lookup_insert_eq.
  - right. exists x, k'. rewrite lookup_insert_ne; [done|]. intros <-. rewrite Hq in Hx. injection Hx as ->. by eapply Hnc.
Qed.

Lemma overtaken_move q ph ph' table s :
  owners s !! q = Some ph → (∀ k', ph ≠ Contended k') → overtaken s →
  (∀ k, k ∈ held_of ph → k ∈ held_of ph' ∨ ∃ k', ph' = Contended k' ∧ bytes_lt k k') →
  (∀ k, ph' = Contended k → passed (<[q := ph']> (owners s)) k) →
  overtaken (set_owner q ph' table s).
Proof.
  intros Hq Hnc Hov Hkeep Hnew o k Ho. cbn [owners set_owner] in *. destruct (decide (o = q)) as [->|Hne].
  - rewrite lookup_insert_eq in Ho. injection Ho as ->. by apply Hnew.
  - rewrite lookup_insert_ne in Ho by done. eapply passed_move; eauto.
Qed.

Lemma overtaken_step s s' :
  leases_ok keys_of s → overtaken s → lease_step keys_of false false s s' → overtaken s'.
Proof.
  intros Hs Hov Hst. destruct Hst as [q s Hq|q io held remaining s Hq [->|Hx]|q held s Hq Hx]; [| |done..].
  - intros o k Ho. cbn [owners set_owner] in *. destruct (decide (o = q)) as [->|Hne]; [by rewrite lookup_insert_eq in Ho|].
    rewrite lookup_insert_ne in Ho by done.
    assert (∀ x ph, owners s !! x = Some ph → <[q := Acquiring [] (keys_of q)]> (owners s) !! x = Some ph) as Hmono.
    { intros x ph Hx. rewrite lookup_insert_ne; [done|]. intros <-. congruence. }
    destruct (Hov o k Ho) as [(x & ph & Hx & Hk)|(x & k' & Hx & Hk)]; [left|right]; eauto.
  - pose proof (lo_phase _ _ Hs q _ Hq) as Hkeys. cbn [phase_ok] in Hkeys.
    unfold acquire_turn. destruct remaining as [|key rest].
    { eapply overtaken_move; [done|done|done| |done]. intros k Hk. by left. }
    destruct (lock_table s !! lock_name key) as [x|] eqn:Hl.
    2:{ eapply overtaken_move; [done|done|done| |done]. intros k Hk. left. apply elem_of_app. by left. }
    assert (∀ k, k ∈ held → bytes_lt k key) as Hlt.
    { intros k Hk. pose proof (sorted q) as Hso. rewrite <- Hkeys in Hso.
      apply StronglySorted_app in Hso as (Hlt & _). apply Hlt; [done|by left]. }
    apply Hs in Hl as (ph & k' & Hx & Hk' & Hn).
    assert (key = k') as <-.
    { apply (names_distinct q x); [rewrite <- Hkeys; set_solver| |done].
      pose proof (lo_phase _ _ Hs x _ Hx) as Hph. destruct ph; simpl in *;
        [rewrite <- Hph; apply elem_of_app; by left|by rewrite <- Hph|by apply not_elem_of_nil in Hk'..]. }
    assert (x ≠ q) as Hne. { intros ->. rewrite Hq in Hx. injection Hx as <-. by destruct (Hlt key Hk'). }
    eapply overtaken_move; [done|done|done| |].
    + intros k Hk. right. eauto.
    + intros k [= <-]. left. exists x, ph. by rewrite lookup_insert_ne.
Qed.

(** Without errors and releases an owner is acquiring, holds its lease or was refused. *)
Lemma phases_step s s' :
  (∀ o ph, owners s !! o = Some ph → ph ≠ Released ∧ ∀ e, ph ≠ LeaseFailed e) →
  lease_step keys_of false false s s' → ∀ o ph, owners s' !! o = Some ph → ph ≠ Released ∧ ∀ e, ph ≠ LeaseFailed e.
Proof.
  intros Hp Hst. destruct Hst as [q s Hq|q io held remaining s Hq [->|Hx]|q held s Hq Hx]; [| |done..];
    intros o ph Ho; unfold acquire_turn in Ho; repeat case_match; cbn [owners set_owner] in Ho;
    (destruct (decide (o = q)) as [->|]; [rewrite lookup_insert_eq in Ho; by injection Ho as <-|]);
    rewrite lookup_insert_ne in Ho by done; by apply (Hp o).
Qed.

Lemma contended_keys (om : gmap nat LeasePhase) k :
  k ∈ list_to_set (C := gset (list Z)) (omap (λ x, match x.2 with Contended k => Some k | _ => None end) (map_to_list om))
  ↔ ∃ o, om !! o = Some (Contended k).
Proof.
  rewrite elem_of_list_to_set, list_elem_of_omap. split.
  - intros ((o & ph) & Ho%elem_of_map_to_list & Hk). simpl in Hk. destruct ph; simplify_eq. eauto.
  - intros [o Ho]. exists (o, Contended k). split; [by apply elem_of_map_to_list|done].
Qed.

Definition is_leased (ph : LeasePhase) : bool := match ph with Leased _ => true | _ => false end.

Lemma sorted_has_winner s :
  rtc (lease_step keys_of false false) no_leases s → owners s ≠ ∅ →
  (∀ o ph, owners s !! o = Some ph → ∀ h r, ph ≠ Acquiring h r) →
  ∃ o h, owners s !! o = Some (Leased h).
Proof.
  intros Hr Hne Hdone.
  assert (leases_ok keys_of s ∧ overtaken s ∧ ∀ o ph, owners s !! o = Some ph → ph ≠ Released ∧ ∀ e, ph ≠ LeaseFailed e) as (Hs & Hov & Hph).
  { eapply (rtc_invariant _ (λ s, leases_ok keys_of s ∧ overtaken s
      ∧ ∀ o ph, owners s !! o = Some ph → ph ≠ Released ∧ ∀ e, ph ≠ LeaseFailed e)); [| |exact Hr].
    - intros a b (Ha & Hoa & Hpa) Hab. split; [by eapply lease_step_ok|]. split; [by eapply overtaken_step|].
      by eapply phases_step.
    - split; [by eapply (leases_reachable keys_of false false)|]. split; intros o k Ho; cbn [no_leases owners] in Ho; by rewrite lookup_empty in Ho. }
  destruct (decide (map_Exists (λ _ ph, is_leased ph = true) (owners s))) as [(o & ph & Ho & Hl)|Hno].
  { destruct ph; try done. eauto. }
  assert (∀ o ph, owners s !! o = Some ph → ∃ k, ph = Contended k) as Hall.
  { intros o ph Ho. destruct (Hph o ph Ho) as [H1 H2]. specialize (Hdone o ph Ho).
    destruct ph as [h r|h|k|e|]; [by destruct (Hdone h r)| |eauto|by destruct (H2 e)|done].
    destruct Hno. by exists o, (Leased h). }
  set (X := list_to_set (C := gset (list Z)) (omap (λ x, match x.2 with Contended k => Some k | _ => None end) (map_to_list (owners s)))).
  assert (∀ k, k ∈ X ↔ ∃ o, owners s !! o = Some (Contended k)) as HX by apply contended_keys.
  apply map_choose in Hne as (o & ph & Ho). destruct (Hall o ph Ho) as [k ->].
  assert (k ∈ X) as HkX by (apply HX; eauto).
  destruct (minimal_exists_elem_of (flip bytes_lt) X) as (m & Hm & Hmin); [intros HE; by apply (HE k) in HkX|].
  apply HX in Hm as [q Hq]. destruct (Hov q m Hq) as [(x & ph & Hx & Hk)|(x & k' & Hx & Hlt)].
  - destruct (Hall x ph Hx) as [k' ->]. by apply not_elem_of_nil in Hk.
  - assert (k' ∈ X) as Hk' by (apply HX; eauto). specialize (Hmin k' Hk' Hlt). simpl in Hmin.
    exfalso. by apply (bytes_lt_irrefl m), (bytes_lt_trans m k' m).
Qed.

End Contention.

(** Contention never starves everybody: because every owner tries its locks in the same
    order, when some owners have tried to get leases and all of them are done, at least one of
    them got its lease, however their attempts interleaved (no two keys having one lock file). *)
Theorem contention_has_winner os lower sidecar_path target_of fs_of keys_of s :
  (∀ o, acquire_keys os lower (fs_of o) sidecar_path (target_of o) = Ok (keys_of o)) →
  (∀ o q k k', k ∈ keys_of o → k' ∈ keys_of q → lock_name k = lock_name k' → k = k') →
  rtc (lease_step keys_of false false) no_leases s → owners s ≠ ∅ →
  (∀ o ph, owners s !! o = Some ph → ∀ h r, ph ≠ Acquiring h r) →
  ∃ o h, owners s !! o = Some (Leased h).
Proof.
  intros Hk Hn. apply sorted_has_winner; [|exact Hn]. intros o. exact (proj1 (acquire_keys_spec _ _ _ _ _ _ (Hk o))).
Qed.

End Lease.

(** ** Two targets and a contender *)

(** Owners 0 and 1 have different targets, owner 2 has a hard link to the one of owner 0. *)
Definition demo_target (o : nat) : Path := mkPathOf true (match o with O => ["a"] | S O => ["b"] | _ => ["link"] end).
Definition demo_sidecar (p : Path) : Path := mkPathOf true (".rusty-cat" :: path_comps p).
Definition demo_fs (o : nat) : Fs :=
  let file p := match path_comps p with
                | ["a"] | ["link"] => Some (1, 7)
                | ["b"] => Some (1, 8)
                | _ => None
                end in
  mkFs (λ p, match path_comps p, file p with
             | [], _ | _, Some _ => Ok p
             | _, None => Err (io_new NotFound "missing")
             end) file.
Definition demo_keys (o : nat) : list (list Z) :=
  match acquire_keys OsLinux id (demo_fs o) demo_sidecar (demo_target o) with Ok ks => ks | Err _ => [] end.
Definition demo_lock (key : list Z) : list Z := key.

Lemma demo_keys_eq o : acquire_keys OsLinux id (demo_fs o) demo_sidecar (demo_target o) = Ok (demo_keys o).
Proof. destruct o as [|[|o]]; vm_compute; reflexivity. Qed.

Definition demo_turn (o : nat) (s : Leases) : Leases :=
  match owners s !! o with
  | None => set_owner o (Acquiring [] (demo_keys o)) (lock_table s) s
  | Some (Acquiring held remaining) => acquire_turn demo_lock None o held remaining s
  | Some _ => s
  end.
Definition demo_leases : Leases := foldl (λ s o, demo_turn o s) no_leases [2; 0; 2; 0; 1; 2; 1; 1; 2; 1; 2; 1]%nat.

Lemma demo_turns_reachable os s :
  rtc (lease_step demo_lock demo_keys false false) no_leases s →
  rtc (lease_step demo_lock demo_keys false false) no_leases (foldl (λ s o, demo_turn o s) s os).
Proof.
  revert s. induction os as [|o os IH]; intros s H; [done|]. apply IH. etrans; [exact H|]. unfold demo_turn.
  destruct (owners s !! o) as [[held rem| | | |]|] eqn:Ho; try reflexivity; apply rtc_once.
  - by apply lease_turn; [|left].
  - by apply lease_begin.
Qed.

Lemma demo_leases_reachable : rtc (lease_step demo_lock demo_keys false false) no_leases demo_leases.
Proof. apply demo_turns_reachable. reflexivity. Qed.

(** Owner 0 was refused and holds no lock; the files of owners 1 and 2 are different. *)
Lemma lease_exclusive_witness :
  owners demo_leases !! 0%nat = Some (Contended (bs "inode:1:7"))
  ∧ (∀ n, lock_table demo_leases !! n ≠ Some 0%nat)
  ∧ file_of demo_sidecar demo_target demo_fs 2 (1, 7) ∧ ¬ file_of demo_sidecar demo_target demo_fs 1 (1, 7).
Proof.
  assert (owners demo_leases !! 0%nat = Some (Contended (bs "inode:1:7"))) as H0 by (vm_compute; reflexivity).
  destruct (lease_exclusive demo_lock OsLinux id demo_sidecar demo_target demo_fs demo_keys demo_keys_eq demo_leases false false
    demo_leases_reachable) as (Hl & _ & Hx).
  split; [exact H0|]. split; [|split].
  - intros n Hn. destruct (Hl n 0%nat Hn) as (held & _ & [H|[rest H]]); rewrite H0 in H; discriminate H.
  - left. vm_compute. reflexivity.
  - intros H1. destruct (Hx 2%nat 1%nat (demo_keys 2) (demo_keys 1)) as [_ Hf].
    + vm_compute. reflexivity.
    + vm_compute. reflexivity.
    + lia.
    + apply (Hf (or_introl eq_refl) (1, 7)); [left; vm_compute; reflexivity|exact H1].
Defined.

Lemma demo_names_distinct o q k k' :
  k ∈ demo_keys o → k' ∈ demo_keys q → lock_name demo_lock k = lock_name demo_lock k' → k = k'.
Proof.
  assert (∀ o, forallb (forallb (λ b, (0 <=? b) && (b <? 256))) (demo_keys o) = true) as Hb
    by (intros [|[|x]]; vm_compute; reflexivity).
  assert (∀ o k, k ∈ demo_keys o → Forall (λ b, 0 ≤ b < 256) k) as Hbytes.
  { intros x y Hy. specialize (Hb x). rewrite forallb_forall in Hb. apply list_elem_of_In in Hy. specialize (Hb y Hy).
    rewrite forallb_forall in Hb. apply Forall_forall. intros b Hbb%list_elem_of_In%Hb. zbool. lia. }
  intros Hk Hk' H. unfold lock_name, demo_lock in H. apply app_inv_tail in H. apply hex_inj in H; eauto.
Qed.

Lemma contention_has_winner_witness : ∃ o h, owners demo_leases !! o = Some (Leased h).
Proof.
  apply (contention_has_winner demo_lock OsLinux id demo_sidecar demo_target demo_fs demo_keys).
  - exact demo_keys_eq.
  - exact demo_names_distinct.
  - exact demo_leases_reachable.
  - intros H. assert (owners demo_leases !! 0%nat = Some (Contended (bs "inode:1:7"))) as H0 by (vm_compute; reflexivity).
    rewrite H in H0. discriminate H0.
  - intros o ph Ho h r ->. apply elem_of_map_to_list, list_elem_of_In in Ho.
    assert (forallb (λ x : nat * LeasePhase, match x.2 with Acquiring _ _ => false | _ => true end)
      (map_to_list (owners demo_leases)) = true) as Hall by (vm_compute; reflexivity).
    rewrite forallb_forall in Hall. specialize (Hall _ Ho). discriminate Hall.
Defined.
