(* ===== verification/UploadFile.v ===== *)
(** * Upload sources

    [src/upload_file.rs]: the snapshot of an upload file. When a task is enqueued the file is read
    once and hashed, as a whole and in blocks; everything later read from it is checked against
    these digests.

    The file is not trusted: during every call each [stat], [open] and positioned read answers
    whatever the environment says ([FileView]), also different bytes for the same range. A
    positioned read is one operation that fills its buffer or fails; the loop over short and
    interrupted reads, the blocking pool and poisoned locks are left out. MD5 and SHA-256 are
    parameters, applied to the bytes fed to the hasher. *)
From S2P Require Import Prelude Errors Sidecar.
#[local] Open Scope Z_scope.

Definition HASH_BUFFER_BYTES : Z := 1024 * 1024.
Definition MAX_UPLOAD_DIGEST_BLOCKS : Z := 1000000.

(** ** Files *)

Record FileGeneration := mkGeneration {
  gen_len : Z;
  gen_readonly : bool;
  gen_modified : option Z;
  gen_created : option Z;
  (** device, inode, mtime_nsec, ctime and ctime_nsec on Unix *)
  gen_unix : option (Z * Z * Z * Z * Z);
}.
#[export] Instance FileGeneration_eq_dec : EqDecision FileGeneration.
Proof. solve_decision. Defined.

Record Metadata := mkMetadata { md_generation : FileGeneration; md_is_file : bool }.

(** How an open file answers during one call: each [stat] (numbered by its place in the code), and
    each positioned read of a number of bytes at an offset (numbered by the loop and the turn it
    is made in; fewer bytes mean the end of the file). *)
Record FileView := mkView {
  fv_stat : nat → result Metadata IoError;
  fv_read : nat → nat → Z → nat → result (list Z) IoError;
}.

Definition read_exact_at (f : FileView) (tag n : nat) (offset : Z) (want : nat) : result (list Z) IoError :=
  match fv_read f tag n offset want with
  | Err e => Err e
  | Ok bytes =>
      if (length bytes <? want)%nat then
        Err (io_new UnexpectedEof "upload source ended during positioned read")
      else Ok (take want bytes)
  end.

Record ContentScan := mkScan {
  scan_md5 : list Z;
  scan_sha256 : list Z;
  scan_blocks : list (list Z);
}.

Record ContentIdentity := mkIdentity {
  id_sha256 : list Z;
  id_block_bytes : Z;
  id_blocks : list (list Z);
}.

Definition identity_matches (c : ContentIdentity) (scan : ContentScan) : bool :=
  bool_decide (id_sha256 c = scan_sha256 scan) && bool_decide (id_blocks c = scan_blocks scan).

(** The mutable state: whether the stable handle is open, and the generations accepted so far. *)
Record UploadFileState := mkUploadState {
  us_open : bool;
  us_handle_generation : option FileGeneration;
  us_path_generation : option FileGeneration;
}.
Definition upload_state_default : UploadFileState := mkUploadState false None None.

Record UploadFileSnapshot := mkUploadSnapshot {
  sn_path : string;
  sn_generation : FileGeneration;
  sn_sign : string;
  sn_content : ContentIdentity;
}.

Section UploadFile.
Context (W : Z) (sha256 md5 : list Z → list Z) (hex : list Z → string) (platform : Platform).

Definition source_changed_error (path detail : string) : MeowError :=
  from_code LocalFileRemoved ("upload source changed: path=" +:+ path +:+ " (" +:+ detail +:+ ")").
Definition content_changed_error (path detail : string) : MeowError :=
  from_code ChecksumMismatch ("upload source content changed: path=" +:+ path +:+ " (" +:+ detail +:+ ")").
Definition map_source_io_error (path context : string) (e : IoError) : MeowError :=
  match io_kind e with
  | UnexpectedEof => source_changed_error path ("source truncated during I/O: " +:+ context)
  | _ => from_io platform context e
  end.

(** [.map_err] *)
Definition map_err {A E F} (f : E → F) (r : result A E) : result A F :=
  match r with Ok a => Ok a | Err e => Err (f e) end.

(** ** Scanning *)

(** The inner loop: the bytes of one buffer are cut at the block boundaries. *)
Fixpoint feed_blocks (fuel vbb : nat) (chunk block : list Z) (digests : list (list Z))
    : list Z * list (list Z) :=
  match fuel, chunk with
  | S fuel, _ :: _ =>
      let k := Nat.min (vbb - length block) (length chunk) in
      let block := block ++ take k chunk in
      if (length block =? vbb)%nat then feed_blocks fuel vbb (drop k chunk) [] (digests ++ [sha256 block])
      else feed_blocks fuel vbb (drop k chunk) block digests
  | _, _ => (block, digests)
  end.

(** The outer loop, one buffer per turn. *)
Fixpoint scan_loop (fuel : nat) (f : FileView) (tag n : nat) (len : Z) (vbb : nat) (offset : Z)
    (hashed block : list Z) (digests : list (list Z))
    : result (list Z * list Z * list (list Z)) IoError :=
  match fuel with
  | O => Ok (hashed, block, digests)
  | S fuel =>
      if len <=? offset then Ok (hashed, block, digests)
      else
        let want := Z.to_nat (Z.min (len - offset) HASH_BUFFER_BYTES) in
        let? buffer := read_exact_at f tag n offset want in
        let '(block, digests) := feed_blocks (length buffer) vbb buffer block digests in
        let? offset := ok_or (checked_add U64_MAX offset (Z.of_nat want))
          (io_new InvalidInput "upload hash offset overflow") in
        scan_loop fuel f tag (S n) len vbb offset (hashed ++ buffer) block digests
  end.

Definition scan_fuel (len : Z) : nat := Z.to_nat (div_ceil len HASH_BUFFER_BYTES).

Definition scan_file_at (f : FileView) (tag : nat) (len verification_block_bytes : Z) : result ContentScan IoError :=
  if (verification_block_bytes =? 0) || (HASH_BUFFER_BYTES <? verification_block_bytes) then
    Err (io_new InvalidInput "upload verification block size is outside the supported range")
  else
    let block_count := div_ceil len verification_block_bytes in
    if MAX_UPLOAD_DIGEST_BLOCKS <? block_count then
      Err (io_new InvalidInput ("upload requires " +:+ pretty block_count
        +:+ " digest blocks, exceeding limit " +:+ pretty MAX_UPLOAD_DIGEST_BLOCKS))
    else
      let? _ := ok_or (if block_count <=? usize_max W then Some tt else None)
        (io_other "upload digest block count does not fit in memory") in
      let? (hashed, block, digests) :=
        scan_loop (scan_fuel len) f tag 0 len (Z.to_nat verification_block_bytes) 0 [] [] [] in
      let digests := match block with [] => digests | _ => digests ++ [sha256 block] end in
      Ok (mkScan (md5 hashed) (sha256 hashed) digests).

Definition scan_file_stably (f : FileView) (len verification_block_bytes : Z) (path description : string)
    : result ContentScan MeowError :=
  let? before := map_err (from_io platform ("stat " +:+ description +:+ " upload source failed: " +:+ path))
    (fv_stat f 0) in
  if negb (gen_len (md_generation before) =? len) then
    Err (source_changed_error path (description +:+ " source length changed before content validation"))
  else
    let? scan := map_err (map_source_io_error path ("hash " +:+ description +:+ " upload source failed: " +:+ path))
      (scan_file_at f 1 len verification_block_bytes) in
    let? after := map_err (from_io platform ("re-stat " +:+ description +:+ " upload source failed: " +:+ path))
      (fv_stat f 1) in
    if bool_decide (md_generation after ≠ md_generation before) then
      Err (source_changed_error path (description +:+ " source metadata changed while validating content"))
    else Ok scan.

(** The path as the process sees it during a call. *)
Record PathView := mkPath {
  pv_open : result FileView IoError;
  pv_stat : result Metadata IoError;
}.

Definition open_error (not_found other : InnerErrorCode) (context path : string) (e : IoError) : MeowError :=
  from_source (match io_kind e with NotFound => not_found | _ => other end) (context +:+ path) e.

Definition verify_visible_path_content (path : string) (pv : PathView) (expected_len : Z)
    (content : ContentIdentity) (initial_scan : bool) : result unit MeowError :=
  let? file := map_err (open_error (if initial_scan then FileNotFound else LocalFileRemoved) IoErrorCode
                 "open visible upload source failed: " path) (pv_open pv) in
  let? metadata := map_err (from_io platform ("stat visible upload source failed: " +:+ path)) (fv_stat file 2) in
  if negb (md_is_file metadata) then
    Err (source_changed_error path "visible upload source is not a regular file")
  else if negb (gen_len (md_generation metadata) =? expected_len) then
    Err (source_changed_error path ("visible upload source length changed: expected=" +:+ pretty expected_len
      +:+ " actual=" +:+ pretty (gen_len (md_generation metadata))))
  else
    let? scan := scan_file_stably file expected_len (id_block_bytes content) path "visible" in
    if negb (identity_matches content scan) then
      Err (content_changed_error path "visible upload source has different content")
    else Ok tt.

(** ** Hashing at enqueue *)

Definition clamp_block_bytes (verification_block_bytes : Z) : Z :=
  Z.max 1 (Z.min verification_block_bytes HASH_BUFFER_BYTES).

(** The path is looked at once for opening it and once more at the end ([pv']). *)
Definition open_and_hash_blocking (path : string) (pv pv' : PathView) (verification_block_bytes : Z)
    : result UploadFileSnapshot MeowError :=
  let? file := map_err (open_error FileNotFound IoErrorCode "open upload source failed: " path) (pv_open pv) in
  let? before := map_err (from_io platform ("stat upload source failed: " +:+ path)) (fv_stat file 0) in
  if negb (md_is_file before) then
    Err (from_code IoErrorCode ("upload source is not a regular file: " +:+ path))
  else
    let generation := md_generation before in
    let? scan := map_err (map_source_io_error path ("calculate upload source signature failed: " +:+ path))
      (scan_file_at file 0 (gen_len generation) verification_block_bytes) in
    let? after := map_err (from_io platform ("re-stat upload source failed: " +:+ path)) (fv_stat file 1) in
    if bool_decide (md_generation after ≠ generation) then
      Err (source_changed_error path "metadata changed while calculating signature")
    else
      let sign := hex (scan_md5 scan) in
      let content := mkIdentity (scan_sha256 scan) verification_block_bytes (scan_blocks scan) in
      let? path_metadata := map_err (from_io platform ("stat upload source path failed: " +:+ path)) (pv_stat pv') in
      let? _ :=
        if bool_decide (md_generation path_metadata ≠ generation) then
          verify_visible_path_content path pv' (gen_len generation) content true
        else Ok tt in
      Ok (mkUploadSnapshot path generation sign content).

Definition open_and_hash_with_verification_block_bytes (path : string) (pv pv' : PathView)
    (verification_block_bytes : Z) : result UploadFileSnapshot MeowError :=
  open_and_hash_blocking path pv pv' (clamp_block_bytes verification_block_bytes).

(** ** Later reads *)

Definition validate_total_size (sn : UploadFileSnapshot) (expected_len : Z) : result unit MeowError :=
  if expected_len <? gen_len (sn_generation sn) then
    Err (source_changed_error (sn_path sn) ("source grew since task construction: expected="
      +:+ pretty expected_len +:+ " actual=" +:+ pretty (gen_len (sn_generation sn))))
  else Ok tt.

Definition validate_chunk_size (chunk_size : Z) : result Z MeowError :=
  if chunk_size <=? usize_max W then Ok chunk_size
  else Err (from_code_str IoErrorCode "upload chunk size does not fit this target architecture").

Definition release_handle (st : UploadFileState) : UploadFileState := upload_state_default.

(** The stable handle: [handle] is how it answers when it is already open. *)
Definition opened_file_blocking (sn : UploadFileSnapshot) (handle : FileView) (pv : PathView)
    (st : UploadFileState) : UploadFileState * result FileView MeowError :=
  if us_open st then (st, Ok handle)
  else
    let path := sn_path sn in
    let r :=
      let? file := map_err (open_error LocalFileRemoved IoErrorCode "reopen upload source failed: " path) (pv_open pv) in
      let? opened := map_err (from_io platform ("stat reopened upload source failed: " +:+ path)) (fv_stat file 3) in
      if negb (md_is_file opened) || negb (gen_len (md_generation opened) =? gen_len (sn_generation sn)) then
        Err (source_changed_error path "reopened source length or type changed")
      else
        let opened_generation := md_generation opened in
        let? scan := map_err (map_source_io_error path ("re-hash reopened upload source failed: " +:+ path))
          (scan_file_at file 2 (gen_len (sn_generation sn)) (id_block_bytes (sn_content sn))) in
        let? after := map_err (from_io platform ("re-stat reopened upload source failed: " +:+ path)) (fv_stat file 4) in
        if bool_decide (md_generation after ≠ opened_generation) then
          Err (source_changed_error path "metadata changed while re-hashing the reopened source")
        else if negb (identity_matches (sn_content sn) scan) then
          Err (content_changed_error path "reopened source content no longer matches its SHA-256 identity")
        else Ok (file, opened_generation) in
    match r with
    | Err e => (st, Err e)
    | Ok (file, g) => (mkUploadState true (Some g) (Some g), Ok file)
    end.

(** One turn of the loop over the digest blocks of a range. *)
Definition read_block (sn : UploadFileSnapshot) (file : FileView) (offset len : Z) (block_index : nat)
    : result (list Z) MeowError :=
  let path := sn_path sn in
  let bb := id_block_bytes (sn_content sn) in
  let? block_start := ok_or (checked_mul U64_MAX (Z.of_nat block_index) bb)
    (from_code_str InvalidRange "upload digest block offset overflow") in
  let block_len := Z.min (gen_len (sn_generation sn) - block_start) bb in
  let? scratch := map_err (map_source_io_error path ("positioned upload read failed: path=" +:+ path
                    +:+ " offset=" +:+ pretty offset +:+ " len=" +:+ pretty len))
    (read_exact_at file 3 block_index block_start (Z.to_nat block_len)) in
  let? expected := ok_or (id_blocks (sn_content sn) !! block_index)
    (from_code_str InvalidTaskState "upload content identity is missing a digest block") in
  if bool_decide (sha256 scratch ≠ expected) then
    Err (content_changed_error path ("positioned read no longer matches digest block " +:+ pretty (Z.of_nat block_index)))
  else
    let copy_start := Z.max offset block_start - block_start in
    let block_end := block_start + block_len in
    let copy_end := Z.min (offset + len) block_end - block_start in
    Ok (take (Z.to_nat (copy_end - copy_start)) (drop (Z.to_nat copy_start) scratch)).

Fixpoint read_blocks (sn : UploadFileSnapshot) (file : FileView) (offset len : Z) (indices : list nat)
    (output : list Z) : result (list Z) MeowError :=
  match indices with
  | [] => Ok output
  | i :: rest =>
      let? piece := read_block sn file offset len i in
      read_blocks sn file offset len rest (output ++ piece)
  end.

Definition read_verified_range_blocking (sn : UploadFileSnapshot) (file : FileView) (offset len : Z)
    (alloc : option string) : result (list Z) MeowError :=
  match alloc with
  | Some e => Err (from_code IoErrorCode ("cannot allocate upload part buffer: " +:+ e))
  | None =>
      if len =? 0 then Ok []
      else
        let? end_ := ok_or (checked_add U64_MAX offset len)
          (from_code_str InvalidRange "upload read range overflow") in
        let bb := id_block_bytes (sn_content sn) in
        let first_block := offset / bb in
        let last_block := (end_ - 1) / bb in
        read_blocks sn file offset len
          (seq (Z.to_nat first_block) (Z.to_nat (last_block - first_block + 1))) []
  end.

(** What the environment answers during one call on a snapshot. *)
Record SnapshotIo := mkSnapshotIo {
  si_handle : FileView;
  si_path : PathView;
  si_alloc : option string;
}.

Definition read_snapshot_at (sn : UploadFileSnapshot) (io : SnapshotIo) (offset len : Z) (st : UploadFileState)
    : UploadFileState * result (list Z) MeowError :=
  match checked_add U64_MAX offset len with
  | None => (st, Err (from_code_str InvalidRange "upload read range overflow"))
  | Some end_ =>
      if gen_len (sn_generation sn) <? end_ then
        (st, Err (source_changed_error (sn_path sn)
          ("upload read exceeds hashed source generation: offset=" +:+ pretty offset +:+ " len=" +:+ pretty len
           +:+ " total=" +:+ pretty (gen_len (sn_generation sn)))))
      else if usize_max W <? len then
        (st, Err (from_code_str IoErrorCode "upload read length does not fit this target architecture"))
      else
        let '(st, r) := opened_file_blocking sn (si_handle io) (si_path io) st in
        (st, let? file := r in read_verified_range_blocking sn file offset len (si_alloc io))
  end.

Definition visible_path_requires_hash (verify_content : bool) (path_generation handle_generation : FileGeneration)
    (accepted_path : option FileGeneration) : bool :=
  verify_content
  || (bool_decide (path_generation ≠ handle_generation) && bool_decide (accepted_path ≠ Some path_generation)).

Definition accept_handle_generation (g : FileGeneration) (st : UploadFileState) : UploadFileState :=
  mkUploadState (us_open st) (Some g) (us_path_generation st).
Definition accept_path_generation (g : FileGeneration) (st : UploadFileState) : UploadFileState :=
  mkUploadState (us_open st) (us_handle_generation st) (Some g).

Definition validate_generation_blocking (sn : UploadFileSnapshot) (io : SnapshotIo) (verify_content : bool)
    (st : UploadFileState) : UploadFileState * result unit MeowError :=
  let path := sn_path sn in
  let '(st, r) := opened_file_blocking sn (si_handle io) (si_path io) st in
  match r with
  | Err e => (st, Err e)
  | Ok file =>
      match fv_stat file 5 with
      | Err e => (st, Err (from_io platform ("stat opened upload source failed: " +:+ path) e))
      | Ok handle_md =>
          match pv_stat (si_path io) with
          | Err e => (st, Err (from_source LocalFileRemoved ("upload source path disappeared: " +:+ path) e))
          | Ok path_md =>
              let handle_generation := md_generation handle_md in
              let path_generation := md_generation path_md in
              let accepted_handle := us_handle_generation st in
              let accepted_path := us_path_generation st in
              let '(st, checked) :=
                if verify_content || bool_decide (accepted_handle ≠ Some handle_generation) then
                  match scan_file_stably file (gen_len (sn_generation sn)) (id_block_bytes (sn_content sn)) path "opened" with
                  | Err e => (st, Err e)
                  | Ok current =>
                      if negb (identity_matches (sn_content sn) current) then
                        (st, Err (content_changed_error path
                          (if verify_content then "upload source content changed before completion"
                           else "opened source content changed after its metadata changed")))
                      else (accept_handle_generation handle_generation st, Ok tt)
                  end
                else (st, Ok tt) in
              match checked with
              | Err e => (st, Err e)
              | Ok _ =>
                  if visible_path_requires_hash verify_content path_generation handle_generation accepted_path then
                    match verify_visible_path_content path (si_path io) (gen_len (sn_generation sn)) (sn_content sn) false with
                    | Err e => (st, Err e)
                    | Ok _ => (accept_path_generation path_generation st, Ok tt)
                    end
                  else if bool_decide (path_generation = handle_generation)
                          && bool_decide (accepted_path ≠ Some path_generation) then
                    (accept_path_generation path_generation st, Ok tt)
                  else (st, Ok tt)
              end
          end
      end
  end.

(** ** What a scan computes *)

Lemma read_exact_length f tag n offset want bytes :
  read_exact_at f tag n offset want = Ok bytes → length bytes = want.
Proof.
  unfold read_exact_at. destruct (fv_read f tag n offset want) as [l|]; [|done].
  destruct (length l <? want)%nat eqn:E; [done|]. intros [= <-]. apply Nat.ltb_ge in E.
  rewrite length_take. lia.
Qed.

(** Reference: the content cut into blocks. *)
Definition block_at (vbb : nat) (c : list Z) (i : nat) : list Z := take vbb (drop (i * vbb) c).
Definition blocks_of (vbb : nat) (c : list Z) : list (list Z) :=
  map (block_at vbb c) (seq 0 (Z.to_nat (div_ceil (Z.of_nat (length c)) (Z.of_nat vbb)))).

(** [c] is what was fed so far: complete blocks, hashed, and a partial one. *)
Definition fed (vbb : nat) (c block : list Z) (digests : list (list Z)) : Prop :=
  (length block < vbb)%nat ∧ ∃ full, c = concat full ++ block
    ∧ Forall (λ b, length b = vbb) full ∧ digests = map sha256 full.

Lemma feed_blocks_fed fuel vbb chunk c block digests block' digests' :
  (length chunk ≤ fuel)%nat → fed vbb c block digests →
  feed_blocks fuel vbb chunk block digests = (block', digests') → fed vbb (c ++ chunk) block' digests'.
Proof.
  revert chunk c block digests. induction fuel as [|fuel IH]; intros chunk c block digests Hl Hf H.
  { destruct chunk; simpl in *; [|lia]. injection H as <- <-. by rewrite app_nil_r. }
  destruct chunk as [|x chunk]; cbn [feed_blocks] in H; [injection H as <- <-; by rewrite app_nil_r|].
  set (ch := x :: chunk) in *. set (k := Nat.min (vbb - length block) (length ch)) in *.
  destruct Hf as (Hb & full & -> & Hfull & ->).
  assert (0 < length ch)%nat by (simpl; lia).
  assert ((concat full ++ block) ++ ch = (concat full ++ (block ++ take k ch)) ++ drop k ch) as ->.
  { rewrite <- !(assoc_L (++)). by rewrite take_drop. }
  destruct (length (block ++ take k ch) =? vbb)%nat eqn:E.
  - apply Nat.eqb_eq in E. apply (IH _ (concat full ++ (block ++ take k ch))) in H; [done|rewrite length_drop; lia|].
    split; [simpl; lia|]. exists (full ++ [block ++ take k ch]).
    rewrite concat_app, map_app. simpl. rewrite !app_nil_r. split_and!; [done| |done].
    apply Forall_app. by split; [|constructor].
  - apply Nat.eqb_neq in E. rewrite length_app, length_take in E.
    apply (IH _ (concat full ++ (block ++ take k ch))) in H; [done|rewrite length_drop; lia|].
    split; [rewrite length_app, length_take; lia|]. by exists full.
Qed.

Lemma scan_loop_fed fuel f tag n len vbb offset hashed block digests h' b' d' :
  scan_loop fuel f tag n len vbb offset hashed block digests = Ok (h', b', d') →
  fed vbb hashed block digests → offset = Z.of_nat (length hashed) → offset ≤ len →
  len - offset ≤ Z.of_nat fuel * HASH_BUFFER_BYTES →
  fed vbb h' b' d' ∧ Z.of_nat (length h') = len
  ∧ (∀ c, (∀ n o w, fv_read f tag n o w = Ok (take w (drop (Z.to_nat o) c))) →
       hashed = take (length hashed) c → h' = take (length h') c).
Proof.
  revert n offset hashed block digests. induction fuel as [|fuel IH]; intros n offset hashed block digests H Hf Ho Hle Hfuel.
  { simpl in H. injection H as <- <- <-. split; [done|]. split; [lia|by intros c _ Hh]. }
  cbn [scan_loop] in H. destruct (len <=? offset) eqn:E; zbool.
  { injection H as <- <- <-. split; [done|]. split; [lia|by intros c _ Hh]. }
  set (want := Z.to_nat (Z.min (len - offset) HASH_BUFFER_BYTES)) in *.
  assert (0 < HASH_BUFFER_BYTES) by done.
  destruct (read_exact_at f tag n offset want) as [buffer|] eqn:Hr; [|done].
  pose proof (read_exact_length _ _ _ _ _ _ Hr) as Hlen.
  destruct (feed_blocks (length buffer) vbb buffer block digests) as [b1 d1] eqn:Hfb.
  apply (feed_blocks_fed _ _ _ hashed) in Hfb; [|done|done].
  destruct (checked_add U64_MAX offset (Z.of_nat want)) as [o1|] eqn:Ha; cbn [ok_or] in H; [|done].
  apply checked_add_Some in Ha as [-> _].
  apply IH in H as (H1 & H2 & H3); [|exact Hfb|rewrite length_app; lia|lia|unfold want in *; nia].
  split_and!; [done|done|]. intros c Hc Hh. apply (H3 c Hc).
  unfold read_exact_at in Hr. rewrite Hc in Hr. destruct (_ <? want)%nat; [done|].
  injection Hr as Hr. rewrite take_take, Nat.min_id in Hr.
  rewrite length_app, <- take_take_drop, <- Hh, Hlen, <- Hr. f_equal. f_equal. f_equal. lia.
Qed.

Lemma blocks_of_cons vbb b c :
  (0 < vbb)%nat → length b = vbb → blocks_of vbb (b ++ c) = b :: blocks_of vbb c.
Proof.
  intros Hv Hb. unfold blocks_of.
  assert (div_ceil (Z.of_nat (length (b ++ c))) (Z.of_nat vbb) = 1 + div_ceil (Z.of_nat (length c)) (Z.of_nat vbb)) as ->.
  { rewrite length_app, Hb, Nat2Z.inj_add. unfold div_ceil.
    replace (Z.of_nat vbb + Z.of_nat (length c)) with (Z.of_nat (length c) + 1 * Z.of_nat vbb) by lia.
    rewrite Z_mod_plus_full, Z.div_add by lia. destruct (_ =? 0); lia. }
  rewrite Z2Nat.inj_add by (pose proof (div_ceil_nonneg (Z.of_nat (length c)) (Z.of_nat vbb)); lia).
  change (Z.to_nat 1) with 1%nat. simpl. f_equal.
  - unfold block_at. simpl. rewrite drop_0. by rewrite take_app_length'.
  - rewrite <- seq_shift, map_map. apply map_ext. intros i. unfold block_at. f_equal.
    simpl. by rewrite <- drop_drop, drop_app_length'.
Qed.

Lemma blocks_of_short vbb c : (0 < length c < vbb)%nat → blocks_of vbb c = [c].
Proof.
  intros Hc. unfold blocks_of. assert (div_ceil (Z.of_nat (length c)) (Z.of_nat vbb) = 1) as ->.
  { unfold div_ceil. rewrite Z.mod_small, Z.div_small by lia. destruct (_ =? 0) eqn:E; zbool; lia. }
  simpl. unfold block_at. simpl. by rewrite drop_0, take_ge by lia.
Qed.

Lemma fed_blocks vbb c block digests :
  fed vbb c block digests →
  match block with [] => digests | _ => digests ++ [sha256 block] end = map sha256 (blocks_of vbb c).
Proof.
  intros (Hb & full & -> & Hfull & ->). induction Hfull as [|b full Hlb Hfull IH]; simpl.
  - destruct block as [|x block]; [done|]. rewrite blocks_of_short by (simpl in *; lia). done.
  - rewrite <- (assoc_L (++)), blocks_of_cons by (done || lia). simpl. rewrite <- IH. by destruct block.
Qed.

(** A scan hashes one byte sequence of the requested length, whole and block by block: the
    bytes it read, which are the file's when the file does not change. *)
Lemma scan_file_spec f tag len vbb scan :
  0 ≤ len → 0 ≤ vbb → scan_file_at f tag len vbb = Ok scan →
  ∃ c, Z.of_nat (length c) = len ∧ 0 < vbb
    ∧ scan = mkScan (md5 c) (sha256 c) (map sha256 (blocks_of (Z.to_nat vbb) c))
    ∧ (∀ content, (∀ n o w, fv_read f tag n o w = Ok (take w (drop (Z.to_nat o) content))) →
         c = take (Z.to_nat len) content).
Proof.
  intros Hlen Hv. unfold scan_file_at. destruct (_ || _) eqn:E; [done|]. zbool.
  destruct (_ <? _); [done|]. destruct (_ <=? usize_max W); cbn [ok_or]; [|done].
  destruct (scan_loop _ _ _ _ _ _ _ _ _ _) as [[[h b] d]|] eqn:Hs; [|done]. intros [= <-].
  apply scan_loop_fed in Hs as (Hf & Hl & Hst); [|split; [simpl; lia|]; exists []; by split_and!|done|lia|].
  2:{ unfold scan_fuel. pose proof (div_ceil_spec len HASH_BUFFER_BYTES Hlen ltac:(done)) as [_ Hup].
      rewrite Z2Nat.id by (apply div_ceil_nonneg; done). lia. }
  exists h. split_and!; [done|lia|by rewrite <- (fed_blocks _ _ _ _ Hf)|].
  intros content Hc. replace (Z.to_nat len) with (length h) by lia. by apply Hst.
Qed.

(** ** What a later read returns *)

(** The bytes of [c] from [a] to [b]. *)
Definition slice (c : list Z) (a b : Z) : list Z := take (Z.to_nat (b - a)) (drop (Z.to_nat a) c).

Lemma slice_app c a b d : 0 ≤ a → a ≤ b ≤ d → slice c a b ++ slice c b d = slice c a d.
Proof.
  intros Ha Hb. unfold slice.
  replace (Z.to_nat (d - a)) with (Z.to_nat (b - a) + Z.to_nat (d - b))%nat by lia.
  rewrite <- take_take_drop, drop_drop. do 3 f_equal. lia.
Qed.

Lemma slice_nil c a : slice c a a = [].
Proof. unfold slice. by rewrite Z.sub_diag. Qed.

Lemma slice_slice c s l a b :
  0 ≤ s → 0 ≤ a → a ≤ b ≤ l → slice (slice c s (s + l)) a b = slice c (s + a) (s + b).
Proof.
  intros Hs Ha Hb. unfold slice.
  replace (Z.to_nat (s + l - s)) with (Z.to_nat a + Z.to_nat (l - a))%nat by lia.
  rewrite <- take_drop_commute, take_take, drop_drop. f_equal; [lia|]. f_equal. lia.
Qed.

(** A file with the content [c]. *)
Definition reads_content (f : FileView) (c : list Z) : Prop :=
  ∀ tag n o w, fv_read f tag n o w = Ok (take w (drop (Z.to_nat o) c)).

(** The snapshot was taken of the content [c]. *)
Definition hashed_as (sn : UploadFileSnapshot) (c : list Z) : Prop :=
  Z.of_nat (length c) = gen_len (sn_generation sn) ∧ 0 < id_block_bytes (sn_content sn)
  ∧ id_sha256 (sn_content sn) = sha256 c
  ∧ id_blocks (sn_content sn) = map sha256 (blocks_of (Z.to_nat (id_block_bytes (sn_content sn))) c)
  ∧ sn_sign sn = hex (md5 c).

#[local] Abbreviation collision := (hash_collision sha256).

Lemma open_and_hash_content path pv pv' vbb sn :
  0 ≤ vbb → open_and_hash_blocking path pv pv' vbb = Ok sn → 0 ≤ gen_len (sn_generation sn) →
  ∃ c, hashed_as sn c ∧ ∀ file content, pv_open pv = Ok file → reads_content file content →
    c = take (Z.to_nat (gen_len (sn_generation sn))) content.
Proof.
  intros Hv. unfold open_and_hash_blocking, map_err.
  destruct (pv_open pv) as [file|]; [|done]. destruct (fv_stat file 0) as [before|]; [|done].
  destruct (negb _); [done|].
  destruct (scan_file_at file 0 (gen_len (md_generation before)) vbb) as [scan|] eqn:Hs; [|done].
  destruct (fv_stat file 1) as [after|]; [|done]. case_bool_decide; [done|].
  destruct (pv_stat pv') as [pm|]; [|done].
  destruct (if bool_decide _ then _ else _) as [[]|]; [|done]. intros [= <-]. simpl. intros Hl.
  destruct (scan_file_spec _ _ _ _ _ Hl Hv Hs) as (c & H1 & H2 & -> & H3). exists c. split; [done|].
  intros ? content [= <-] Hr. apply H3. intros. apply Hr.
Qed.

Lemma block_at_length vbb c i :
  length (block_at vbb c i) = Nat.min vbb (length c - i * vbb).
Proof. unfold block_at. by rewrite length_take, length_drop. Qed.

Lemma blocks_of_lookup vbb c i d :
  (0 < vbb)%nat → map sha256 (blocks_of vbb c) !! i = Some d → d = sha256 (block_at vbb c i).
Proof.
  intros Hv H. apply list_lookup_fmap_Some in H as (b & -> & H). unfold blocks_of in H.
  apply list_lookup_fmap_Some in H as (j & -> & H). apply lookup_seq in H as [-> _]. done.
Qed.

Lemma read_block_slice sn c file offset len i piece :
  hashed_as sn c → 0 ≤ offset → 0 < len → offset + len ≤ gen_len (sn_generation sn) →
  Z.of_nat i * id_block_bytes (sn_content sn) < offset + len →
  offset < (Z.of_nat i + 1) * id_block_bytes (sn_content sn) →
  read_block sn file offset len i = Ok piece →
  piece = slice c (Z.max offset (Z.of_nat i * id_block_bytes (sn_content sn)))
            (Z.min (offset + len) ((Z.of_nat i + 1) * id_block_bytes (sn_content sn))) ∨ collision.
Proof.
  intros (Hc & Hbb & _ & Hbl & _) Ho Hl He Hi1 Hi2. unfold read_block.
  set (bb := id_block_bytes (sn_content sn)) in *. set (L := gen_len (sn_generation sn)) in *.
  destruct (checked_mul U64_MAX (Z.of_nat i) bb) as [st|] eqn:Hm; cbn [ok_or]; [|done].
  apply checked_mul_Some in Hm as [-> _]. unfold map_err.
  destruct (read_exact_at _ _ _ _ _) as [scratch|] eqn:Hr; [|done]. apply read_exact_length in Hr.
  destruct (id_blocks (sn_content sn) !! i) as [d|] eqn:Hd; cbn [ok_or]; [|done].
  rewrite Hbl in Hd. apply blocks_of_lookup in Hd; [|lia]. subst d.
  case_bool_decide as Hsha; [done|]. intros [= <-].
  destruct (decide (scratch = block_at (Z.to_nat bb) c i)) as [->|Hne].
  2:{ right. exists scratch, (block_at (Z.to_nat bb) c i). split_and!; [done| |done].
      rewrite Hr, block_at_length. unfold L in *. nia. }
  left. set (s := Z.of_nat i * bb) in *.
  assert (block_at (Z.to_nat bb) c i = slice c s (s + bb)) as ->.
  { unfold block_at, slice. replace (s + bb - s) with bb by lia. do 2 f_equal. unfold s. nia. }
  set (a := Z.max offset s - s). set (e := Z.min (offset + len) (s + Z.min (L - s) bb) - s).
  fold (slice (slice c s (s + bb)) a e). rewrite slice_slice by (unfold a, e, s in *; nia).
  f_equal; unfold a, e, s in *; nia.
Qed.

Lemma read_blocks_slice sn c file offset len i n out :
  hashed_as sn c → 0 ≤ offset → 0 < len → offset + len ≤ gen_len (sn_generation sn) →
  (n = 0%nat ∨ (Z.of_nat (i + n) - 1) * id_block_bytes (sn_content sn) < offset + len) →
  offset < (Z.of_nat i + 1) * id_block_bytes (sn_content sn) →
  let hi k := Z.max offset (Z.min (offset + len) (Z.of_nat k * id_block_bytes (sn_content sn))) in
  read_blocks sn file offset len (seq i n) (slice c offset (hi i)) = Ok out →
  out = slice c offset (hi (i + n)%nat) ∨ collision.
Proof.
  intros Hh Ho Hl He. pose proof Hh as (_ & Hbb & _). revert i.
  induction n as [|n IH]; intros i Hn Hi hi; simpl seq; cbn [read_blocks].
  { intros [= <-]. rewrite Nat.add_0_r. by left. }
  destruct (read_block sn file offset len i) as [piece|] eqn:Hb; [|done].
  destruct Hn as [?|Hn]; [lia|].
  apply (read_block_slice sn c) in Hb as [-> | ?]; [|by right|done|done|done|done|nia|done].
  replace (slice c offset (hi i) ++ _) with (slice c offset (hi (S i))).
  2:{ rewrite <- (slice_app c offset (hi i) (hi (S i))) by (unfold hi; nia). do 2 f_equal; unfold hi; nia. }
  intros H. replace (i + S n)%nat with (S i + n)%nat by lia. apply IH in H; [done| |nia].
  right. nia.
Qed.

(** A verified read returns the hashed content. *)
Lemma read_verified_slice sn c file offset len alloc out :
  hashed_as sn c → 0 ≤ offset → 0 ≤ len → offset + len ≤ gen_len (sn_generation sn) →
  read_verified_range_blocking sn file offset len alloc = Ok out →
  out = slice c offset (offset + len) ∨ collision.
Proof.
  intros Hh Ho Hl He. pose proof Hh as (_ & Hbb & _). unfold read_verified_range_blocking.
  destruct alloc; [done|]. destruct (Z.eqb_spec len 0) as [->|].
  { intros [= <-]. left. by rewrite Z.add_0_r, slice_nil. }
  destruct (checked_add U64_MAX offset len) as [e|] eqn:Ha; cbn [ok_or]; [|done].
  apply checked_add_Some in Ha as [-> _]. set (bb := id_block_bytes (sn_content sn)) in *.
  pose proof (Z.div_mod offset bb ltac:(lia)). pose proof (Z.mod_pos_bound offset bb Hbb).
  pose proof (Z.div_mod (offset + len - 1) bb ltac:(lia)). pose proof (Z.mod_pos_bound (offset + len - 1) bb Hbb).
  assert (0 ≤ offset / bb) by (apply Z.div_pos; lia).
  assert (offset / bb ≤ (offset + len - 1) / bb) by (apply Z.div_le_mono; lia).
  generalize dependent (offset / bb). generalize dependent ((offset + len - 1) / bb).
  intros lb Hlb fb Hfb Hfb0 Hfl H'.
  pose proof (read_blocks_slice sn c file offset len (Z.to_nat fb) (Z.to_nat (lb - fb + 1)) out Hh Ho ltac:(lia) He) as Hrb.
  cbv zeta in Hrb. fold bb in Hrb. destruct Hrb as [-> | ?]; [right; nia|nia| | |by right].
  - rewrite <- H'. f_equal.
    replace (Z.max offset _) with offset by nia. by rewrite slice_nil.
  - left. f_equal. nia.
Qed.

Lemma read_block_ok sn c file offset len i :
  hashed_as sn c → fits U64_MAX (gen_len (sn_generation sn)) → reads_content file c →
  Z.of_nat i * id_block_bytes (sn_content sn) < gen_len (sn_generation sn) →
  is_ok (read_block sn file offset len i) = true.
Proof.
  intros (Hc & Hbb & _ & Hbl & _) [_ Hmax] Hr Hi. unfold read_block.
  set (bb := id_block_bytes (sn_content sn)) in *. set (L := gen_len (sn_generation sn)) in *.
  rewrite (proj2 (checked_mul_Some _ _ _ _)) by (split; [reflexivity|lia]). cbn [ok_or].
  assert (read_exact_at file 3 i (Z.of_nat i * bb) (Z.to_nat (Z.min (L - Z.of_nat i * bb) bb))
    = Ok (block_at (Z.to_nat bb) c i)) as ->.
  { unfold read_exact_at. rewrite Hr. rewrite length_take, length_drop.
    destruct (_ <? _)%nat eqn:E; [apply Nat.ltb_lt in E; nia|]. f_equal. rewrite take_take, Nat.min_id.
    unfold block_at. replace (Z.to_nat (Z.of_nat i * bb)) with (i * Z.to_nat bb)%nat by nia.
    destruct (decide (bb ≤ L - Z.of_nat i * bb)).
    - by rewrite Z.min_r by lia.
    - rewrite Z.min_l by lia. rewrite !take_ge; [done|rewrite length_drop; nia..]. }
  unfold map_err. rewrite Hbl, list_lookup_fmap.
  assert (blocks_of (Z.to_nat bb) c !! i = Some (block_at (Z.to_nat bb) c i)) as ->.
  { unfold blocks_of. rewrite list_lookup_fmap, lookup_seq_lt; [done|].
    pose proof (div_ceil_spec (Z.of_nat (length c)) bb ltac:(lia) Hbb) as [_ Hup].
    rewrite Z2Nat.id by lia. assert (Z.of_nat i < div_ceil (Z.of_nat (length c)) bb) by nia. lia. }
  cbn [fmap option_fmap option_map ok_or]. by rewrite bool_decide_eq_false_2 by auto.
Qed.

Lemma read_blocks_ok sn c file offset len indices out :
  hashed_as sn c → fits U64_MAX (gen_len (sn_generation sn)) → reads_content file c →
  Forall (λ i, Z.of_nat i * id_block_bytes (sn_content sn) < gen_len (sn_generation sn)) indices →
  is_ok (read_blocks sn file offset len indices out) = true.
Proof.
  intros Hh Hf Hr Hi. revert out. induction Hi as [|i ix Hi Hix IH]; intros out; simpl; [done|].
  pose proof (read_block_ok sn c file offset len i Hh Hf Hr Hi) as Hb.
  destruct (read_block sn file offset len i); [apply IH|done].
Qed.

(** Scanning a file that has the content succeeds, if some scan of that length did. *)
Lemma scan_loop_total fuel f tag n len vbb offset hashed block digests c :
  reads_content f c → Z.of_nat (length c) = len → fits U64_MAX len → 0 ≤ offset →
  ∃ r, scan_loop fuel f tag n len vbb offset hashed block digests = Ok r.
Proof.
  intros Hr Hc [_ Hmax]. revert n offset hashed block digests. induction fuel as [|fuel IH]; intros n offset hashed block digests Ho; [by eexists|].
  cbn [scan_loop]. destruct (len <=? offset) eqn:E; [by eexists|]. zbool.
  set (want := Z.to_nat (Z.min (len - offset) HASH_BUFFER_BYTES)).
  assert (Z.of_nat want ≤ len - offset) as Hw by (unfold want; unfold HASH_BUFFER_BYTES; lia).
  unfold read_exact_at. rewrite Hr. rewrite length_take, length_drop. destruct (_ <? want)%nat eqn:El; [apply Nat.ltb_lt in El; lia|].
  destruct (feed_blocks _ _ _ _ _) as [block' digests']. rewrite (proj2 (checked_add_Some _ _ _ _)) by (split; [reflexivity|lia]).
  cbn [ok_or]. apply IH. lia.
Qed.
Lemma scan_file_total f tag f' tag' len vbb scan c :
  scan_file_at f tag len vbb = Ok scan → reads_content f' c → Z.of_nat (length c) = len → fits U64_MAX len → 0 ≤ vbb →
  scan_file_at f' tag' len vbb = Ok (mkScan (md5 c) (sha256 c) (map sha256 (blocks_of (Z.to_nat vbb) c))).
Proof.
  intros Hs Hr Hc Hf Hv. assert (∃ scan', scan_file_at f' tag' len vbb = Ok scan') as [scan' Hs'].
  { unfold scan_file_at in *. destruct (_ || _); [done|]. destruct (_ <? _); [done|]. destruct (_ <=? usize_max W); [|done]. cbn [ok_or] in *.
    destruct (scan_loop_total (scan_fuel len) f' tag' 0 len (Z.to_nat vbb) 0 [] [] [] c Hr Hc Hf ltac:(lia)) as [[[h b] d] ->]. by eexists. }
  rewrite Hs'. destruct (scan_file_spec f' tag' len vbb scan' (proj1 Hf) Hv Hs') as (c' & Hl & _ & -> & Hst).
  rewrite (Hst c) by (intros; apply Hr). by rewrite take_ge by lia.
Qed.

(** The source still has the content: through the open handle, or, when that was released or not
    opened yet, as a regular file of the path that does not change while it is hashed again. *)
Definition source_has (sn : UploadFileSnapshot) (c : list Z) (io : SnapshotIo) (st : UploadFileState) : Prop :=
  if us_open st then reads_content (si_handle io) c
  else ∃ file opened after, pv_open (si_path io) = Ok file ∧ reads_content file c
    ∧ fv_stat file 3 = Ok opened ∧ fv_stat file 4 = Ok after ∧ md_is_file opened = true
    ∧ gen_len (md_generation opened) = gen_len (sn_generation sn) ∧ md_generation after = md_generation opened.
(** The length and block size are within what a scan accepts. *)
Definition scannable (sn : UploadFileSnapshot) : Prop :=
  ∃ f tag scan, scan_file_at f tag (gen_len (sn_generation sn)) (id_block_bytes (sn_content sn)) = Ok scan.

Lemma opened_file_ok sn c io st :
  hashed_as sn c → scannable sn → fits U64_MAX (gen_len (sn_generation sn)) → source_has sn c io st →
  ∃ st' file, opened_file_blocking sn (si_handle io) (si_path io) st = (st', Ok file) ∧ us_open st' = true ∧ reads_content file c.
Proof.
  intros (Hc & Hbb & Hsha & Hbl & _) (f0 & tag0 & scan0 & Hs0) Hf Hhas. unfold opened_file_blocking, source_has in *.
  destruct (us_open st) eqn:Hop; [by exists st, (si_handle io)|].
  destruct Hhas as (file & opened & after & E1 & Hr & E2 & E3 & Hreg & Hlen & Hgen). rewrite E1. cbn [map_err]. rewrite E2, E3. cbn [map_err].
  rewrite Hreg, Hlen, Z.eqb_refl. cbn [negb orb].
  rewrite (scan_file_total f0 tag0 file 2 _ _ scan0 c Hs0 Hr Hc Hf (Z.lt_le_incl _ _ Hbb)). cbn [map_err].
  rewrite (bool_decide_eq_false_2 (md_generation after ≠ _)) by (intros Hn; by apply Hn).
  assert (identity_matches (sn_content sn) (mkScan (md5 c) (sha256 c)
    (map sha256 (blocks_of (Z.to_nat (id_block_bytes (sn_content sn))) c))) = true) as ->.
  { unfold identity_matches. cbn. by rewrite !bool_decide_eq_true_2. }
  cbn [negb]. by eexists _, file.
Qed.

Lemma read_snapshot_ok sn c io offset len st :
  hashed_as sn c → scannable sn → fits U64_MAX (gen_len (sn_generation sn)) → source_has sn c io st →
  si_alloc io = None → 0 ≤ offset → 0 ≤ len ≤ usize_max W → offset + len ≤ gen_len (sn_generation sn) →
  is_ok (snd (read_snapshot_at sn io offset len st)) = true.
Proof.
  intros Hh Hsc Hf Hhas Hal Ho [Hl Hu] He. pose proof Hh as (_ & Hbb & _).
  destruct (opened_file_ok sn c io st Hh Hsc Hf Hhas) as (st' & file & Hop & _ & Hr). destruct Hf as [H0 Hmax] eqn:E; clear E.
  unfold read_snapshot_at.
  rewrite (proj2 (checked_add_Some _ _ _ _)) by (split; [reflexivity|lia]).
  rewrite (proj2 (Z.ltb_ge _ _)) by lia. rewrite (proj2 (Z.ltb_ge _ _)) by lia. rewrite Hop. simpl.
  unfold read_verified_range_blocking. rewrite Hal. destruct (len =? 0) eqn:El; [done|]. zbool.
  rewrite (proj2 (checked_add_Some _ _ _ _)) by (split; [reflexivity|lia]). cbn [ok_or].
  apply (read_blocks_ok sn c); [done|done|done|]. apply Forall_forall. intros i Hi%elem_of_seq.
  set (bb := id_block_bytes (sn_content sn)) in *.
  pose proof (Z.div_mod (offset + len - 1) bb ltac:(lia)). pose proof (Z.mod_pos_bound (offset + len - 1) bb Hbb).
  assert (0 ≤ offset / bb) by (apply Z.div_pos; lia).
  assert (offset / bb ≤ (offset + len - 1) / bb) by (apply Z.div_le_mono; lia).
  assert (Z.of_nat i ≤ (offset + len - 1) / bb) by lia. nia.
Qed.

Lemma open_and_hash_scannable path pv pv' vbb sn : open_and_hash_blocking path pv pv' vbb = Ok sn → scannable sn.
Proof.
  unfold open_and_hash_blocking. destruct (pv_open pv) as [file|]; [|done]. cbn [map_err]. destruct (fv_stat file 0) as [before|]; [|done].
  cbn [map_err]. destruct (negb _); [done|]. destruct (scan_file_at file 0 _ _) as [scan|] eqn:Hs; [|done]. cbn [map_err].
  destruct (fv_stat file 1); [|done]. cbn [map_err]. destruct (bool_decide _); [done|]. destruct (pv_stat pv'); [|done]. cbn [map_err].
  destruct (if bool_decide _ then _ else _); [|done]. intros [= <-]. by exists file, 0%nat, scan.
Qed.

Lemma read_snapshot_slice sn c io offset len st st' bytes :
  hashed_as sn c → 0 ≤ offset → 0 ≤ len → read_snapshot_at sn io offset len st = (st', Ok bytes) →
  bytes = slice c offset (offset + len) ∨ collision.
Proof.
  intros Hh Ho Hl. unfold read_snapshot_at. destruct (checked_add _ _ _) as [e|] eqn:Ha; [|done].
  apply checked_add_Some in Ha as [-> _]. destruct (_ <? offset + len) eqn:E; [done|]. zbool.
  destruct (_ <? len); [done|]. destruct (opened_file_blocking _ _ _ _) as [st1 [file|]]; [|done].
  intros [= <- Hr]. by apply (read_verified_slice sn c) in Hr.
Qed.

Lemma read_snapshot_bounds sn io offset len st st' bytes :
  read_snapshot_at sn io offset len st = (st', Ok bytes) → offset + len ≤ gen_len (sn_generation sn).
Proof.
  unfold read_snapshot_at. destruct (checked_add _ _ _) as [e|] eqn:Ha; [|done].
  apply checked_add_Some in Ha as [-> _]. destruct (_ <? offset + len) eqn:E; [done|]. by zbool.
Qed.

(** A scan that matches the identity read the hashed content. *)
Lemma matching_scan sn c f tag scan content :
  hashed_as sn c → scan_file_at f tag (gen_len (sn_generation sn)) (id_block_bytes (sn_content sn)) = Ok scan →
  identity_matches (sn_content sn) scan = true → reads_content f content →
  take (Z.to_nat (gen_len (sn_generation sn))) content = c ∨ collision.
Proof.
  intros (Hc & Hbb & Hs & _) Hscan Hm Hr. unfold identity_matches in Hm. apply andb_true_iff in Hm as [Hm _].
  apply bool_decide_eq_true in Hm.
  assert (0 ≤ gen_len (sn_generation sn)) as H0 by lia.
  destruct (scan_file_spec f tag _ _ scan H0 (Z.lt_le_incl _ _ Hbb) Hscan) as (c' & Hc' & _ & -> & Hst).
  rewrite <- (Hst content) by (intros; apply Hr). cbn [scan_sha256] in Hm.
  destruct (decide (c' = c)) as [->|Hne]; [by left|].
  right. exists c', c. split_and!; [done|apply Nat2Z.inj; congruence|congruence].
Qed.

(** The validation before completion accepts a file only with the hashed content. *)
Lemma validate_generation_content sn c io st st' file content :
  hashed_as sn c → validate_generation_blocking sn io true st = (st', Ok tt) →
  pv_open (si_path io) = Ok file → reads_content file content →
  take (Z.to_nat (gen_len (sn_generation sn))) content = c ∨ collision.
Proof.
  intros Hh Hv Hop Hr. unfold validate_generation_blocking in Hv.
  destruct (opened_file_blocking _ _ _ _) as [st1 [f|]]; [|done].
  destruct (fv_stat f 5); [|done]. destruct (pv_stat (si_path io)); [|done]. cbn [orb] in Hv.
  destruct (scan_file_stably f _ _ _ _); [|done]. destruct (negb _); [done|].
  cbn [visible_path_requires_hash orb] in Hv.
  destruct (verify_visible_path_content _ _ _ _ _) as [[]|] eqn:Hvis; [|done].
  unfold verify_visible_path_content in Hvis. rewrite Hop in Hvis. cbn [map_err] in Hvis.
  destruct (fv_stat file 2); [|done]. cbn [map_err] in Hvis.
  destruct (negb (md_is_file _)); [done|]. destruct (negb (_ =? _)); [done|].
  destruct (scan_file_stably file _ _ _ _) as [scan|] eqn:Hs; [|done].
  destruct (identity_matches (sn_content sn) scan) eqn:Hm; [|done].
  unfold scan_file_stably, map_err in Hs. destruct (fv_stat file 0); [|done]. destruct (negb _); [done|].
  destruct (scan_file_at file 1 _ _) eqn:Hsc; [|done]. destruct (fv_stat file 1); [|done].
  case_bool_decide; [done|]. injection Hs as ->. by apply (matching_scan sn c file 1 scan).
Qed.

(** C12: an upload sends the file it signed: whatever happens to the file after the task was
    enqueued, there is one byte sequence that the signature and the digests were computed from
    (the file's content, if it did not change meanwhile), and every range that a later read
    returns is exactly that range of it, or SHA-256 has a collision; the validation before
    completion accepts a visible file only with that content; and a source that still has that
    content is read without error, both through the open handle and when the handle has to be
    opened again, as on the first read and after every release: then the path must lead to a
    regular file of that length and content whose metadata stay the same while it is hashed. *)
Theorem upload_reads_are_hashed_content path pv pv' vbb sn :
  0 ≤ vbb → open_and_hash_blocking path pv pv' vbb = Ok sn → fits U64_MAX (gen_len (sn_generation sn)) →
  ∃ c, sn_sign sn = hex (md5 c) ∧ Z.of_nat (length c) = gen_len (sn_generation sn)
    ∧ (∀ file content, pv_open pv = Ok file → reads_content file content →
         c = take (Z.to_nat (gen_len (sn_generation sn))) content)
    ∧ (∀ io offset len st st' bytes, 0 ≤ offset → 0 ≤ len →
         read_snapshot_at sn io offset len st = (st', Ok bytes) → bytes = slice c offset (offset + len) ∨ collision)
    ∧ (∀ io st st' file content, validate_generation_blocking sn io true st = (st', Ok tt) →
         pv_open (si_path io) = Ok file → reads_content file content →
         take (Z.to_nat (gen_len (sn_generation sn))) content = c ∨ collision)
    ∧ (∀ io offset len st, source_has sn c io st → si_alloc io = None →
         0 ≤ offset → 0 ≤ len ≤ usize_max W → offset + len ≤ gen_len (sn_generation sn) →
         is_ok (snd (read_snapshot_at sn io offset len st)) = true).
Proof.
  intros Hv Hop Hf. destruct (open_and_hash_content path pv pv' vbb sn Hv Hop (proj1 Hf)) as (c & Hh & Hcont).
  pose proof (open_and_hash_scannable path pv pv' vbb sn Hop) as Hsc.
  pose proof Hh as (Hc & _ & _ & _ & Hs). exists c. split_and!; [done|done|done| | |].
  - intros. by eapply (read_snapshot_slice sn c).
  - intros. by eapply (validate_generation_content sn c).
  - intros. by apply (read_snapshot_ok sn c).
Qed.

End UploadFile.

(** ** A concrete upload source *)

Definition demo_generation : FileGeneration := mkGeneration 7 false (Some 1) None None.
Definition demo_view (c : list Z) : FileView :=
  mkView (λ _, Ok (mkMetadata demo_generation true)) (λ _ _ o w, Ok (take w (drop (Z.to_nat o) c))).
Definition demo_path (c : list Z) : PathView := mkPath (Ok (demo_view c)) (Ok (mkMetadata demo_generation true)).
Definition demo_digest (bs : list Z) : list Z := bs.
Definition demo_hex (bs : list Z) : string := pretty (foldr Z.add 0 bs).

(** The first read opens the file again; after the file was changed a read of the changed block
    fails, one of another block does not. *)
Lemma upload_reads_are_hashed_content_witness :
  ∃ sn, open_and_hash_blocking 64 demo_digest demo_digest demo_hex Unix "f" (demo_path [1; 2; 3; 4; 5; 6; 7])
          (demo_path [1; 2; 3; 4; 5; 6; 7]) 3 = Ok sn
    ∧ (∀ st' bytes, read_snapshot_at 64 demo_digest demo_digest Unix sn
          (mkSnapshotIo (demo_view [1; 2; 3; 4; 9; 6; 7]) (demo_path [1; 2; 3; 4; 9; 6; 7]) None) 1 2
          (mkUploadState true None None) = (st', Ok bytes) → bytes = [2; 3] ∨ hash_collision demo_digest)
    ∧ is_ok (snd (read_snapshot_at 64 demo_digest demo_digest Unix sn
          (mkSnapshotIo (demo_view [1; 2; 3; 4; 9; 6; 7]) (demo_path [1; 2; 3; 4; 9; 6; 7]) None) 2 3
          (mkUploadState true None None))) = false
    ∧ is_ok (snd (read_snapshot_at 64 demo_digest demo_digest Unix sn
          (mkSnapshotIo (demo_view []) (demo_path [1; 2; 3; 4; 5; 6; 7]) None) 1 2 upload_state_default)) = true.
Proof.
  destruct (open_and_hash_blocking 64 demo_digest demo_digest demo_hex Unix "f" (demo_path [1; 2; 3; 4; 5; 6; 7])
    (demo_path [1; 2; 3; 4; 5; 6; 7]) 3) as [sn|] eqn:Hop; [|vm_compute in Hop; discriminate].
  assert (gen_len (sn_generation sn) = 7 ∧ id_blocks (sn_content sn) = [[1; 2; 3]; [4; 5; 6]; [7]]) as [Hlen Hbl]
    by (vm_compute in Hop; injection Hop as <-; split; reflexivity).
  destruct (upload_reads_are_hashed_content 64 demo_digest demo_digest demo_hex Unix "f" _ _ 3 sn ltac:(lia) Hop
    ltac:(rewrite Hlen; vm_compute; split; discriminate)) as (c & _ & _ & H0 & H1 & _ & H2).
  exists sn. split; [reflexivity|]. split_and!.
  - intros st' bytes Hr. destruct (H1 _ 1 2 _ st' bytes ltac:(lia) ltac:(lia) Hr) as [->|?]; [|by right]. left.
    vm_compute in Hop. injection Hop as <-. vm_compute in Hr. injection Hr as _ Hr. by rewrite Hr.
  - vm_compute in Hop. injection Hop as <-. vm_compute. reflexivity.
  - apply H2; [|reflexivity|lia|vm_compute; split; discriminate|rewrite Hlen; lia].
    rewrite (H0 (demo_view [1; 2; 3; 4; 5; 6; 7]) [1; 2; 3; 4; 5; 6; 7] eq_refl ltac:(intros ????; reflexivity)), Hlen.
    eexists _, _, _. split; [reflexivity|]. split; [intros ????; reflexivity|]. by rewrite Hlen.
Defined.
