(* ===== verification/UploadChunks.v ===== *)
(** * Upload of one chunk

    [src/dflt/default_http_transfer_chunks.rs], upload side, with the prepare and complete steps of
    uploads in [src/dflt/default_http_transfer.rs]: reading the chunk from the source, sending it
    through the upload protocol, checking the server's cursor, and completing.

    The upload protocol is a trait object: its answers are inputs, and what is sent to it is the
    list of [UpEvent]s. The outcome of every file operation of the snapshot is an input too. *)
From S2P Require Import Prelude Errors Lifecycle Retry Records Sidecar UploadFile.
#[local] Open Scope Z_scope.

Inductive UploadSource := SourceFile (path : string) | SourceBytes (bytes : list Z).

Record UploadResumeInfo := mkResumeInfo {
  completed_file_id : option string;
  next_byte : option Z;
  provider_upload_id : option string;
}.

Record UpTask := mkUpTask {
  up_total : Z;
  up_source : option UploadSource;
  up_snapshot : option UploadFileSnapshot;
  (** the state shared by every view of the task *)
  up_file : UploadFileState;
  up_lifecycle : TransferLifecycle;
}.

Definition set_up_file (st : UploadFileState) (t : UpTask) : UpTask :=
  mkUpTask (up_total t) (up_source t) (up_snapshot t) st (up_lifecycle t).
Definition require_upload_abort (t : UpTask) : UpTask :=
  mkUpTask (up_total t) (up_source t) (up_snapshot t) (up_file t) (require_abort (up_lifecycle t)).
Definition defer_upload_abort_until_worker_quiescence : UpTask → UpTask := require_upload_abort.

(** What the protocol is asked to do. *)
Inductive UpEvent := SentChunk (offset : Z) (bytes : list Z) | CompleteUpload | AbortUpload.

(** What protocol and files answer during one call. *)
Record UpEnv := mkUpEnv {
  (** the generation check before a read, the read, the check before the last part, the check
      after a terminal answer *)
  ue_check : SnapshotIo;
  ue_read : SnapshotIo;
  ue_before_last : SnapshotIo;
  ue_after : SnapshotIo;
  ue_chunk : Z → list Z → result UploadResumeInfo MeowError;
  ue_complete : result (option string) MeowError;
  ue_abort : result unit MeowError;
}.

Section UploadChunks.
Context (W : Z) (sha256 md5 : list Z → list Z) (platform : Platform).

Definition validate_generation (io : SnapshotIo) (verify_content : bool) (sn : UploadFileSnapshot) (t : UpTask)
    : UpTask * result unit MeowError :=
  let '(st, r) := validate_generation_blocking W sha256 md5 platform sn io verify_content (up_file t) in
  (set_up_file st t, r).

(** ** Reading a chunk *)

Definition read_upload_chunk (env : UpEnv) (offset chunk_size : Z) (t : UpTask)
    : UpTask * result (option (list Z * Z)) MeowError :=
  let total := up_total t in
  if total <=? offset then (t, Ok None)
  else
    let read_len := Z.min chunk_size (total - offset) in
    if read_len =? 0 then (t, Ok None)
    else if usize_max W <? read_len then
      (t, Err (from_code_str IoErrorCode "upload chunk length does not fit this target architecture"))
    else
      match up_source t with
      | Some (SourceFile _) =>
          match up_snapshot t with
          | None => (t, Err (from_code_str InvalidTaskState "upload file snapshot missing for file source"))
          | Some sn =>
              let '(t, r) := validate_generation (ue_check env) false sn t in
              match r with
              | Err e => (t, Err e)
              | Ok _ =>
                  let '(st, r) := read_snapshot_at W sha256 md5 platform sn (ue_read env) offset read_len (up_file t) in
                  (set_up_file st t, let? chunk := r in Ok (Some (chunk, Z.of_nat (length chunk))))
              end
          end
      | Some (SourceBytes bytes) =>
          if usize_max W <? offset then
            (t, Err (from_code_str InvalidRange "upload bytes offset does not fit this target architecture"))
          else
            match checked_add (usize_max W) offset read_len with
            | None => (t, Err (from_code_str InvalidRange "upload bytes range overflow"))
            | Some end_ =>
                if Z.of_nat (length bytes) <? end_ then
                  (t, Err (from_code InvalidRange ("upload bytes source out of range: start=" +:+ pretty offset
                        +:+ " end=" +:+ pretty end_ +:+ " len=" +:+ pretty (Z.of_nat (length bytes)))))
                else
                  let chunk := slice bytes offset end_ in
                  (t, Ok (Some (chunk, Z.of_nat (length chunk))))
            end
      | None => (t, Err (from_code_str ParameterEmpty "upload task missing upload source"))
      end.

(** ** Checks around a chunk *)

Definition validate_serial_upload_ack (offset uploaded_end total : Z) (next_byte : option Z)
    : result Z MeowError :=
  let next := default uploaded_end next_byte in
  if total <? next then
    Err (from_code InvalidRange ("upload next offset exceeds total: next=" +:+ pretty next +:+ " total=" +:+ pretty total))
  else if next <=? offset then
    Err (from_code InvalidRange ("upload next offset did not advance: offset=" +:+ pretty offset
      +:+ " next=" +:+ pretty next))
  else if uploaded_end <? next then
    Err (from_code InvalidRange ("upload next offset exceeds sent chunk: next=" +:+ pretty next
      +:+ " uploaded_end=" +:+ pretty uploaded_end))
  else Ok next.

(** The full check of the source, requiring an abort when it fails. *)
Definition validate_source (io : SnapshotIo) (t : UpTask) : UpTask * result unit MeowError :=
  match up_snapshot t with
  | None => (t, Ok tt)
  | Some sn =>
      let '(t, r) := validate_generation io true sn t in
      match r with
      | Err e => (defer_upload_abort_until_worker_quiescence t, Err e)
      | Ok _ => (t, Ok tt)
      end
  end.

Definition validate_serial_upload_before_last_part (env : UpEnv) (offset len : Z) (t : UpTask)
    : UpTask * result unit MeowError :=
  match checked_add U64_MAX offset len with
  | None => (t, Err (from_code_str InvalidRange "upload part end overflow"))
  | Some end_ =>
      if negb (up_total t <=? end_) then (t, Ok tt) else validate_source (ue_before_last env) t
  end.

(** ** Parallel part *)

Definition upload_one_chunk_part (env : UpEnv) (offset chunk_size : Z) (t : UpTask)
    : UpTask * list UpEvent * result ChunkOutcome MeowError :=
  let total := up_total t in
  let '(t, read) := read_upload_chunk env offset chunk_size t in
  match read with
  | Err e => (defer_upload_abort_until_worker_quiescence t, [], Err e)
  | Ok None => (t, [], Ok (mkChunkOutcome offset total true None))
  | Ok (Some (chunk_bytes, uploaded_chunk_len)) =>
      match checked_add U64_MAX offset uploaded_chunk_len with
      | None => (t, [], Err (from_code_str InvalidRange "upload part end overflow"))
      | Some uploaded_end =>
          match ue_chunk env offset chunk_bytes with
          | Err e => (t, [SentChunk offset chunk_bytes], Err e)
          | Ok info =>
              let next := Z.min (default uploaded_end (next_byte info)) total in
              (t, [SentChunk offset chunk_bytes], Ok (mkChunkOutcome next total (total <=? next) None))
          end
      end
  end.

(** ** Serial chunk *)

Definition upload_one_chunk (env : UpEnv) (offset chunk_size : Z) (t : UpTask)
    : UpTask * list UpEvent * result ChunkOutcome MeowError :=
  let total := up_total t in
  let '(t, read) := read_upload_chunk env offset chunk_size t in
  match read with
  | Err e => (defer_upload_abort_until_worker_quiescence t, [], Err e)
  | Ok None =>
      let '(t, r) := validate_source (ue_after env) t in
      (t, [], let? _ := r in Ok (mkChunkOutcome offset total true None))
  | Ok (Some (chunk_bytes, uploaded_chunk_len)) =>
      let '(t, r) := validate_serial_upload_before_last_part env offset uploaded_chunk_len t in
      match r with
      | Err e => (t, [], Err e)
      | Ok _ =>
          match checked_add U64_MAX offset uploaded_chunk_len with
          | None => (t, [], Err (from_code_str InvalidRange "upload chunk end overflow"))
          | Some uploaded_end =>
              let sent := [SentChunk offset chunk_bytes] in
              match ue_chunk env offset chunk_bytes with
              | Err e => (t, sent, Err e)
              | Ok info =>
                  let completed := bool_decide (is_Some (completed_file_id info)) in
                  let next :=
                    if completed then Ok total
                    else validate_serial_upload_ack offset uploaded_end total (next_byte info) in
                  match next with
                  | Err e => (defer_upload_abort_until_worker_quiescence t, sent, Err e)
                  | Ok next =>
                      let '(t, r) :=
                        if completed || (total <=? next) then validate_source (ue_after env) t else (t, Ok tt) in
                      match r with
                      | Err e => (t, sent, Err e)
                      | Ok _ =>
                          if completed then
                            (t, sent, Ok (mkChunkOutcome total total true (completed_file_id info)))
                          else if total <=? next then
                            (t, sent ++ [CompleteUpload],
                             let? payload := ue_complete env in Ok (mkChunkOutcome next total true payload))
                          else (t, sent, Ok (mkChunkOutcome next total false None))
                      end
                  end
              end
          end
      end
  end.

(** ** Prepare, complete and cancel *)

Definition upload_prepare_once (check : SnapshotIo) (prepare : result UploadResumeInfo MeowError)
    (local_offset : Z) (t : UpTask) : UpTask * result PrepareOutcome MeowError :=
  let '(t, checked) :=
    match up_snapshot t with
    | None => (t, Ok tt)
    | Some sn =>
        match validate_total_size sn (up_total t) with
        | Err e => (require_upload_abort t, Err e)
        | Ok _ =>
            let '(t, r) := validate_generation check false sn t in
            match r with
            | Err e => (require_upload_abort t, Err e)
            | Ok _ => (t, Ok tt)
            end
        end
    end in
  match checked with
  | Err e => (t, Err e)
  | Ok _ =>
      match prepare with
      | Err e => (t, Err e)
      | Ok info =>
          let total := up_total t in
          if bool_decide (is_Some (completed_file_id info)) then (t, Ok (mkPrepareOutcome total total))
          else
            let server_off := default 0 (next_byte info) in
            if total <? server_off then
              (require_upload_abort t,
               Err (from_code InvalidRange ("upload prepare next offset exceeds total: next=" +:+ pretty server_off
                 +:+ " total=" +:+ pretty total)))
            else (t, Ok (mkPrepareOutcome (Z.min (Z.max local_offset server_off) total) total))
      end
  end.

Definition up_begin_abort (t : UpTask) : bool * UpTask :=
  let '(started, lc) := begin_abort (up_lifecycle t) in
  (started, mkUpTask (up_total t) (up_source t) (up_snapshot t) (up_file t) lc).

(** The upload branch of [complete]: the abort after a failed check runs at most once. *)
Definition complete_upload_task (env : UpEnv) (t : UpTask) : UpTask * list UpEvent * result (option string) MeowError :=
  let '(t, r) :=
    match up_snapshot t with
    | None => (t, Ok tt)
    | Some sn => validate_generation (ue_after env) true sn t
    end in
  match r with
  | Err e =>
      let '(started, t) := up_begin_abort t in
      (t, if started then [AbortUpload] else [], Err e)
  | Ok _ => (t, [CompleteUpload], ue_complete env)
  end.

(** The upload branch of [cancel]. *)
Definition cancel_upload_task (env : UpEnv) (t : UpTask) : UpTask * list UpEvent * result unit MeowError :=
  let '(started, t) := up_begin_abort t in
  if started then (t, [AbortUpload], ue_abort env) else (t, [], Ok tt).

(** ** What a serial upload sends *)

Context (hex : list Z → string) (c : list Z) (chunk_size start : Z).
#[local] Abbreviation collision := (hash_collision sha256).

(** The task uploads the content [c]: its file was hashed as [c], or it is in memory. *)
Definition uploads_content (t : UpTask) : Prop :=
  (∃ path sn, up_source t = Some (SourceFile path) ∧ up_snapshot t = Some sn ∧ hashed_as sha256 md5 hex sn c)
  ∨ (up_source t = Some (SourceBytes c) ∧ up_snapshot t = None).

(** Two views of a task that differ in file state and lifecycle only. *)
Definition same_upload (t t' : UpTask) : Prop :=
  up_total t' = up_total t ∧ up_source t' = up_source t ∧ up_snapshot t' = up_snapshot t.

Lemma same_upload_content t t' : same_upload t t' → uploads_content t → uploads_content t'.
Proof. intros (_ & H1 & H2). unfold uploads_content. by rewrite H1, H2. Qed.

Lemma validate_generation_same io b sn t t' r : validate_generation io b sn t = (t', r) → same_upload t t'.
Proof.
  unfold validate_generation. destruct (validate_generation_blocking _ _ _ _ _ _ _ _). by intros [= <- <-].
Qed.

Lemma validate_source_same io t t' r : validate_source io t = (t', r) → same_upload t t'.
Proof.
  unfold validate_source. destruct (up_snapshot t) as [sn|] eqn:Hs; [|by intros [= <- <-]].
  destruct (validate_generation io true sn t) as [t1 r1] eqn:Hv. apply validate_generation_same in Hv.
  destruct r1; by intros [= <- <-].
Qed.

Lemma length_slice l a b : 0 ≤ a → a ≤ b → b ≤ Z.of_nat (length l) → Z.of_nat (length (slice l a b)) = b - a.
Proof. intros. unfold slice. rewrite length_take, length_drop. lia. Qed.

(** A chunk is the part of the content it stands for. *)
Lemma read_upload_chunk_slice env offset t t' r :
  read_upload_chunk env offset chunk_size t = (t', r) →
  uploads_content t → 0 ≤ offset → 0 < chunk_size → fits U64_MAX (up_total t) →
  same_upload t t'
  ∧ match r with
    | Ok (Some (bytes, n)) => offset < up_total t ∧ n = Z.of_nat (length bytes)
        ∧ ((bytes = slice c offset (Z.min (offset + chunk_size) (up_total t))
             ∧ n = Z.min chunk_size (up_total t - offset)) ∨ collision)
    | Ok None => up_total t ≤ offset
    | Err _ => True
    end.
Proof.
  unfold read_upload_chunk. intros H Ht Ho Hc Hf.
  destruct (up_total t <=? offset) eqn:E; zbool; [by simplify_eq|].
  set (len := Z.min chunk_size (up_total t - offset)) in *.
  assert (0 < len) by (unfold len; lia).
  destruct (len =? 0) eqn:E0; zbool; [lia|]. destruct (usize_max W <? len); [by simplify_eq|].
  assert (offset + len = Z.min (offset + chunk_size) (up_total t)) as Hend by (unfold len; lia).
  destruct Ht as [(path & sn & Hs & Hsn & Hh)|[Hs Hsn]]; rewrite Hs in H.
  - rewrite Hsn in H. destruct (validate_generation _ _ _ _) as [t1 r1] eqn:Hv.
    apply validate_generation_same in Hv. destruct r1 as [[]|]; [|by simplify_eq].
    destruct (read_snapshot_at _ _ _ _ _ _ _ _) as [st [chunk|]] eqn:Hr; injection H as <- <-; [|done].
    split; [done|]. split; [lia|]. split; [done|].
    pose proof (read_snapshot_bounds _ _ _ _ _ _ _ _ _ _ _ Hr) as Hb.
    apply (read_snapshot_slice W sha256 md5 hex platform sn c) in Hr as [-> | ?]; [|by right|done|done|lia].
    left. rewrite Hend. split; [done|]. rewrite <- Hend. destruct Hh as (Hlc & _).
    rewrite length_slice; unfold len in *; lia.
  - destruct (usize_max W <? offset); [by simplify_eq|].
    destruct (checked_add _ offset len) as [e|] eqn:Ha; [|by simplify_eq].
    apply checked_add_Some in Ha as [-> _]. destruct (_ <? offset + len) eqn:El; zbool; [by simplify_eq|].
    injection H as <- <-. split; [done|]. split; [lia|]. split; [done|]. left. rewrite Hend. split; [done|].
    rewrite <- Hend, length_slice; unfold len in *; lia.
Qed.

(** The server answered the chunk of this call with the id of a completed file: for the code the
    upload is over, whatever the offset. *)
Definition claimed (env : UpEnv) (evs : list UpEvent) : bool :=
  match evs with
  | SentChunk o b :: _ =>
      match ue_chunk env o b with Ok info => bool_decide (is_Some (completed_file_id info)) | Err _ => false end
  | _ => false
  end.

(** What one serial call does. *)
Inductive chunk_call (offset total : Z) : bool → list UpEvent → result ChunkOutcome MeowError → Prop :=
| call_nothing r :
    (∀ o, r = Ok o → done o = true ∧ next_offset o = offset ∧ total ≤ offset) → chunk_call offset total false [] r
| call_sent b r :
    (b = slice c offset (Z.min (offset + chunk_size) total) ∨ collision) → offset < total →
    (∀ o, r = Ok o → done o = false ∧ offset < next_offset o ≤ offset + Z.of_nat (length b) ∧ next_offset o < total) →
    chunk_call offset total false [SentChunk offset b] r
| call_claimed b r :
    (b = slice c offset (Z.min (offset + chunk_size) total) ∨ collision) → offset < total →
    (∀ o, r = Ok o → done o = true ∧ next_offset o = total) → chunk_call offset total true [SentChunk offset b] r
| call_completed b r :
    (b = slice c offset (Z.min (offset + chunk_size) total) ∨ collision) → offset < total →
    total ≤ offset + Z.of_nat (length b) →
    (∀ o, r = Ok o → done o = true ∧ next_offset o = total) →
    chunk_call offset total false [SentChunk offset b; CompleteUpload] r.

Lemma ack_Ok offset uploaded_end total nb next :
  validate_serial_upload_ack offset uploaded_end total nb = Ok next →
  offset < next ≤ uploaded_end ∧ next ≤ total ∧ next = default uploaded_end nb.
Proof.
  unfold validate_serial_upload_ack. destruct (total <? _) eqn:E1; [done|]. destruct (_ <=? offset) eqn:E2; [done|].
  destruct (uploaded_end <? _) eqn:E3; [done|]. intros [= <-]. zbool. lia.
Qed.

Lemma upload_one_chunk_call env offset t t' evs r :
  upload_one_chunk env offset chunk_size t = (t', evs, r) →
  uploads_content t → 0 ≤ offset → 0 < chunk_size → fits U64_MAX (up_total t) →
  same_upload t t' ∧ chunk_call offset (up_total t) (claimed env evs) evs r.
Proof.
  unfold upload_one_chunk. intros H Ht Ho Hc Hf.
  destruct (read_upload_chunk env offset chunk_size t) as [t1 rd] eqn:Hr.
  destruct (read_upload_chunk_slice env offset t t1 rd Hr Ht Ho Hc Hf) as [Hs1 Hrd].
  destruct rd as [[[b n]|]|e].
  2:{ destruct (validate_source (ue_after env) t1) as [t2 r2] eqn:Hv. apply validate_source_same in Hv.
      injection H as <- <- <-. split; [unfold same_upload in *; naive_solver congruence|].
      constructor. destruct r2; [|done]. by intros o [= <-]. }
  2:{ injection H as <- <- <-. split; [done|]. by constructor. }
  destruct Hrd as (Hlt & -> & Hb).
  assert (b = slice c offset (Z.min (offset + chunk_size) (up_total t)) ∨ collision) as Hb' by naive_solver.
  destruct (validate_serial_upload_before_last_part env offset _ t1) as [t2 r2] eqn:Hv.
  assert (same_upload t1 t2) as Hs2.
  { unfold validate_serial_upload_before_last_part in Hv. destruct (checked_add _ _ _); [|by simplify_eq].
    destruct (negb _); [by simplify_eq|]. by apply validate_source_same in Hv. }
  assert (same_upload t t2) as Hs by (unfold same_upload in *; naive_solver congruence). clear Hs1 Hs2.
  destruct r2 as [[]|e]; [|injection H as <- <- <-; split; [done|by constructor]].
  destruct (checked_add U64_MAX offset _) as [ue|] eqn:Ha; [|injection H as <- <- <-; split; [done|by constructor]].
  apply checked_add_Some in Ha as [-> _].
  destruct (ue_chunk env offset b) as [info|e] eqn:Hi.
  2:{ injection H as <- <- <-. split; [done|]. cbn [claimed]. rewrite Hi. by constructor. }
  assert (∀ l, claimed env (SentChunk offset b :: l) = bool_decide (is_Some (completed_file_id info))) as Hcl by (intros l; cbn; by rewrite Hi).
  destruct (bool_decide (is_Some (completed_file_id info))) eqn:Hid; cbn [orb] in H.
  { destruct (validate_source (ue_after env) t2) as [t3 r3] eqn:Hv3. apply validate_source_same in Hv3.
    assert (same_upload t t3) as Hs3 by (unfold same_upload in *; naive_solver congruence).
    destruct r3 as [[]|e]; injection H as <- <- <-; (split; [done|]); rewrite Hcl; apply call_claimed; try done. by intros o [= <-]. }
  destruct (validate_serial_upload_ack _ _ _ _) as [next|e] eqn:Hack.
  2:{ injection H as <- <- <-. split; [done|]. rewrite Hcl. by constructor. }
  apply ack_Ok in Hack as (H1 & H2 & _).
  destruct (up_total t <=? next) eqn:En; zbool.
  2:{ injection H as <- <- <-. split; [done|]. rewrite Hcl. constructor; [done|done|]. intros o [= <-]. simpl. lia. }
  destruct (validate_source (ue_after env) t2) as [t3 r3] eqn:Hv3. apply validate_source_same in Hv3.
  assert (same_upload t t3) as Hs3 by (unfold same_upload in *; naive_solver congruence).
  destruct r3 as [[]|e]; injection H as <- <- <-; (split; [done|]); cbn [app]; rewrite Hcl.
  - apply call_completed; [done|done|lia|]. destruct (ue_complete env); [|done]. intros o [= <-]. simpl. split; [done|lia].
  - by constructor.
Qed.

(** ** A serial upload *)

(** The cursor, the bytes acknowledged so far in order, whether it is over, and whether the server
    said so by naming the completed file. *)
Record UpRun := mkUpRun {
  ur_task : UpTask;
  ur_cursor : Z;
  ur_acked : list Z;
  ur_done : bool;
  ur_claimed : bool;
}.

(** The bytes of the sent chunk up to the acknowledged offset. *)
Definition acked_bytes (evs : list UpEvent) (n : Z) : list Z :=
  match evs with SentChunk _ b :: _ => take (Z.to_nat n) b | _ => [] end.

(** One call at the cursor; an error leaves the cursor, and the call is repeated. *)
Inductive up_step : UpRun → UpRun → Prop :=
| up_call env s t' evs r :
    ur_done s = false →
    upload_one_chunk env (ur_cursor s) chunk_size (ur_task s) = (t', evs, r) →
    up_step s match r with
              | Ok o => mkUpRun t' (next_offset o) (ur_acked s ++ acked_bytes evs (next_offset o - ur_cursor s)) (done o)
                          (claimed env evs)
              | Err _ => mkUpRun t' (ur_cursor s) (ur_acked s) false false
              end.

(** What was acknowledged is the content from the start to an end [e], the cursor unless the
    server claimed the upload complete. *)
Record up_inv (total : Z) (s : UpRun) : Prop := {
  ui_total : up_total (ur_task s) = total;
  ui_content : uploads_content (ur_task s);
  ui_range : start ≤ ur_cursor s ≤ total;
  ui_acked : (∃ e, start ≤ e ≤ total ∧ ur_acked s = slice c start e ∧ (ur_claimed s = false → e = ur_cursor s)) ∨ collision;
  ui_done : ur_done s = true → ur_cursor s = total;
  ui_claimed : ur_claimed s = true → ur_done s = true;
}.

Lemma up_step_inv total s s' :
  0 ≤ start → 0 < chunk_size → fits U64_MAX total → up_inv total s → up_step s s' → up_inv total s'.
Proof.
  intros H0 Hcs Hf Hi Hst. destruct Hst as [env s t' evs r Hd Hcall]. destruct Hi as [Ht Hcont Hr Hack _ Hclaim].
  assert (ur_claimed s = false) as Hnc by (destruct (ur_claimed s); [by rewrite Hclaim in Hd|done]).
  assert (ur_acked s = slice c start (ur_cursor s) ∨ collision) as Hack'.
  { destruct Hack as [(e & _ & -> & He)|?]; [|by right]. left. by rewrite He. }
  apply upload_one_chunk_call in Hcall as [Hs Hcall]; [|done|lia|done|by rewrite Ht].
  assert (up_total t' = total) as Ht' by (destruct Hs; congruence).
  pose proof (same_upload_content _ _ Hs Hcont) as Hcont'.
  destruct r as [o|e].
  2:{ split; try done. destruct Hack' as [->|?]; [left; by exists (ur_cursor s)|by right]. }
  rewrite Ht in Hcall. simpl.
  assert (∀ b next, (b = slice c (ur_cursor s) (Z.min (ur_cursor s + chunk_size) total) ∨ collision) →
    ur_cursor s < next ≤ total →
    ur_acked s ++ take (Z.to_nat (next - ur_cursor s)) b = slice c start (Z.min next (Z.min (ur_cursor s + chunk_size) total)) ∨ collision) as Hgrow.
  { intros b next Hb Hn. destruct Hack' as [->|?]; [|by right]. destruct Hb as [->|?]; [|by right]. left.
    rewrite <- (slice_app c start (ur_cursor s) (Z.min next _)) by lia. f_equal. unfold slice. rewrite take_take. f_equal. lia. }
  assert (∀ b next, (b = slice c (ur_cursor s) (Z.min (ur_cursor s + chunk_size) total) ∨ collision) →
    next ≤ ur_cursor s + Z.of_nat (length b) → next ≤ Z.min (ur_cursor s + chunk_size) total ∨ collision) as Hlen.
  { intros b next [->|?] Hl; [left|by right]. unfold slice in Hl. rewrite length_take in Hl. lia. }
  inversion Hcall as [r' Hno Hcl|b r' Hb Hlt Hno Hcl|b r' Hb Hlt Hno Hcl|b r' Hb Hlt Hle Hno Hcl]; subst; destruct (Hno o eq_refl) as [Hdo Hno'];
    rewrite <- ?Hcl; clear Hcl.
  - destruct Hno' as [Hn Hle]. split; simpl; try done; [lia| |lia]. rewrite app_nil_r, Hn.
    destruct Hack' as [->|?]; [left; by exists (ur_cursor s)|by right].
  - split; simpl; try done; [lia| |by rewrite Hdo]. destruct (Hgrow b (next_offset o) Hb ltac:(lia)) as [->|?]; [|by right].
    destruct (Hlen b (next_offset o) Hb ltac:(lia)) as [?|?]; [left; exists (next_offset o)|by right].
    rewrite Z.min_l by lia. split_and!; [lia|lia|done|done].
  - split; simpl; try done; [lia|]. destruct (Hgrow b (next_offset o) Hb ltac:(lia)) as [->|?]; [left|by right].
    eexists. split; [|split; [reflexivity|done]]. lia.
  - split; simpl; try done; [lia|]. destruct (Hgrow b (next_offset o) Hb ltac:(lia)) as [->|?]; [|by right].
    destruct (Hlen b (next_offset o) Hb ltac:(lia)) as [?|?]; [left; exists (next_offset o)|by right].
    rewrite Z.min_l by lia. split_and!; [lia|lia|done|done].
Qed.

(** C11: a serial upload sends the content in order and completes only then: however often calls
    fail and are repeated and whatever prefix of a chunk the server acknowledges, the bytes
    acknowledged so far are exactly the content from the start offset to the cursor; every
    chunk sent is the content at the cursor; a call that succeeds without finishing advances the
    cursor; the completion request is made only when the chunk just sent reaches the end; and an
    upload that is done has had everything acknowledged. The one exception is a server that
    answers a chunk with the id of a completed file: the code takes its word, the upload is done
    with the cursor at the end, and only a prefix of the content need have been sent. (The content
    is the one the signature was computed from, or SHA-256 has a collision.) *)
Theorem serial_upload_in_order total t s :
  0 ≤ start ≤ total → 0 < chunk_size → fits U64_MAX total → up_total t = total → uploads_content t →
  rtc up_step (mkUpRun t start [] false false) s →
  ((∃ e, start ≤ e ≤ total ∧ ur_acked s = slice c start e ∧ (ur_claimed s = false → e = ur_cursor s)) ∨ collision)
  ∧ (ur_done s = true → ur_cursor s = total) ∧ (ur_claimed s = true → ur_done s = true)
  ∧ (∀ env t' evs r, upload_one_chunk env (ur_cursor s) chunk_size (ur_task s) = (t', evs, r) →
       (∀ o b, SentChunk o b ∈ evs → o = ur_cursor s
          ∧ (b = slice c o (Z.min (o + chunk_size) total) ∨ collision))
       ∧ (CompleteUpload ∈ evs → ∃ b, SentChunk (ur_cursor s) b ∈ evs ∧ total ≤ ur_cursor s + Z.of_nat (length b))
       ∧ (∀ o, r = Ok o → done o = false → ur_cursor s < next_offset o)).
Proof.
  intros Hst Hcs Hf Ht Hcont Hr.
  assert (up_inv total s) as Hi.
  { eapply rtc_invariant; [intros a b Ha; apply (up_step_inv total); [lia|done|done|exact Ha]| |exact Hr].
    split; simpl; try done; [lia|]. left. exists start. rewrite slice_nil by lia. split_and!; [lia|lia|done|done]. }
  destruct Hi as [Ht' Hcont' Hran Hack Hd Hcl]. split_and!; [done|done|done|]. intros env t' evs r Hcall.
  apply upload_one_chunk_call in Hcall as [_ Hcall]; [|done|lia|done|by rewrite Ht']. rewrite Ht' in Hcall.
  inversion Hcall as [r' Hno|b r' Hb Hlt Hno|b r' Hb Hlt Hno|b r' Hb Hlt Hle Hno]; subst; split_and!.
  - intros o b Hin. by apply elem_of_nil in Hin.
  - intros Hin. by apply elem_of_nil in Hin.
  - intros o Ho Hdo. destruct (Hno o Ho) as [? _]. congruence.
  - intros o b' Hin. apply list_elem_of_singleton in Hin. by simplify_eq.
  - intros Hin. by apply list_elem_of_singleton in Hin.
  - intros o Ho _. by apply Hno.
  - intros o b' Hin. apply list_elem_of_singleton in Hin. by simplify_eq.
  - intros Hin. by apply list_elem_of_singleton in Hin.
  - intros o Ho Hdo. destruct (Hno o Ho). congruence.
  - intros o b' Hin. apply elem_of_cons in Hin as [[= -> ->]|Hin%list_elem_of_singleton]; [done|done].
  - intros _. exists b. split; [constructor|done].
  - intros o Ho Hdo. destruct (Hno o Ho). congruence.
Qed.

End UploadChunks.

(** ** A concrete upload *)

Definition demo_io : SnapshotIo := mkSnapshotIo (demo_view []) (demo_path []) None.
Definition demo_up_env (nb : option Z) : UpEnv :=
  mkUpEnv demo_io demo_io demo_io demo_io (λ _ _, Ok (mkResumeInfo None nb None)) (Ok (Some "id")) (Ok tt).
Definition demo_up_task : UpTask :=
  mkUpTask 5 (Some (SourceBytes [1; 2; 3; 4; 5])) None upload_state_default lifecycle_new.
Definition demo_run (cursor : Z) (acked : list Z) (d : bool) : UpRun := mkUpRun demo_up_task cursor acked d false.

(** The server acknowledges two of the first three bytes, then everything. *)
Lemma serial_upload_in_order_witness :
  ∃ s, ur_done s = true ∧ ur_cursor s = 5 ∧ (ur_acked s = [1; 2; 3; 4; 5] ∨ hash_collision demo_digest).
Proof.
  assert (rtc (up_step 64 demo_digest demo_digest Unix 3) (demo_run 0 [] false) (demo_run 5 [1; 2; 3; 4; 5] true)) as Hr.
  { eapply rtc_l; [apply (up_call _ _ _ _ _ (demo_up_env (Some 2)) (demo_run 0 [] false)
      demo_up_task [SentChunk 0 [1; 2; 3]] (Ok (mkChunkOutcome 2 5 false None))); [reflexivity|vm_compute; reflexivity]|].
    apply rtc_once. apply (up_call _ _ _ _ _ (demo_up_env None) (demo_run 2 [1; 2] false)
      demo_up_task [SentChunk 2 [3; 4; 5]; CompleteUpload] (Ok (mkChunkOutcome 5 5 true (Some "id"))));
      [reflexivity|vm_compute; reflexivity]. }
  exists (demo_run 5 [1; 2; 3; 4; 5] true). split; [reflexivity|].
  destruct (serial_upload_in_order 64 demo_digest demo_digest Unix demo_hex [1; 2; 3; 4; 5] 3 0 5 demo_up_task
    (demo_run 5 [1; 2; 3; 4; 5] true)) as (H1 & H2 & _);
    [lia|lia|vm_compute; split; discriminate|reflexivity|by right|exact Hr|].
  split; [by apply H2|]. destruct H1 as [(e & _ & Ha & He)|?]; [left|by right]. rewrite Ha, (He eq_refl). reflexivity.
Defined.
