(* ===== verification/ProviderXml.v ===== *)
(** * Control responses of storage providers

    [src/provider_xml.rs]: the resource scan that runs before the XML parser, and the access to
    the fields of a parsed document; [src/provider_body.rs]: reading a response body within a
    bound and the checks on the query of a task's URL.

    Strings are their UTF-8 bytes. The XML parser itself is a library: it is a parameter that
    turns text into a tree ([XmlNode]). *)
From S2P Require Import Prelude Errors HttpHeaders DownloadIdentity RangeDownload.
#[local] Open Scope Z_scope.

(** ** UTF-8 text *)

Definition is_cont (b : Z) : bool := (128 <=? b) && (b <=? 191).
Definition in_range (a b x : Z) : bool := (a <=? x) && (x <=? b).

(** [str::from_utf8]: shortest encodings of scalar values only. *)
Fixpoint is_utf8 (l : list Z) : bool :=
  match l with
  | [] => true
  | a :: r =>
      if in_range 0 127 a then is_utf8 r
      else
        match r with
        | b :: r1 =>
            if in_range 194 223 a then is_cont b && is_utf8 r1
            else
              match r1 with
              | c :: r2 =>
                  if in_range 224 239 a then
                    (if a =? 224 then in_range 160 191 b else if a =? 237 then in_range 128 159 b else is_cont b)
                    && is_cont c && is_utf8 r2
                  else
                    match r2 with
                    | d :: r3 =>
                        in_range 240 244 a
                        && (if a =? 240 then in_range 144 191 b else if a =? 244 then in_range 128 143 b else is_cont b)
                        && is_cont c && is_cont d && is_utf8 r3
                    | [] => false
                    end
              | [] => false
              end
        | [] => false
        end
  end.

(** The encodings of the characters with the property White_Space. *)
Definition whitespace_chars : list (list Z) :=
  map (λ b, [b]) [9; 10; 11; 12; 13; 32] ++ [[194; 133]; [194; 160]; [225; 154; 128]]
  ++ map (λ b, [226; 128; b]) [128; 129; 130; 131; 132; 133; 134; 135; 136; 137; 138; 168; 169; 175]
  ++ [[226; 129; 159]; [227; 128; 128]].

(** The text after a leading character of the list. *)
Fixpoint strip_one (chars : list (list Z)) (l : list Z) : option (list Z) :=
  match chars with
  | [] => None
  | c :: chars => match strip_prefix c l with Some r => Some r | None => strip_one chars l end
  end.
Fixpoint strip_all (fuel : nat) (chars : list (list Z)) (l : list Z) : list Z :=
  match fuel with
  | O => l
  | S fuel => match strip_one chars l with Some r => strip_all fuel chars r | None => l end
  end.
(** [str::trim] *)
Definition trim_utf8 (l : list Z) : list Z :=
  let l := strip_all (length l) whitespace_chars l in
  reverse (strip_all (length l) (map (@reverse Z) whitespace_chars) (reverse l)).

(** ** The resource scan *)

Definition MAX_XML_DEPTH : Z := 64.
Definition MAX_XML_ATTRIBUTES_PER_ELEMENT : Z := 64.
Definition MAX_XML_RAW_MARKUP_TOKENS : Z := 1000000.
Definition MAX_XML_RAW_ATTRIBUTE_TOKENS : Z := 250000.

Definition count_byte (b : Z) (l : list Z) : Z := Z.of_nat (length (List.filter (Z.eqb b) l)).
Definition starts_with (p l : list Z) : bool := bool_decide (is_Some (strip_prefix p l)).

(** The text from the first occurrence of a byte on. *)
Fixpoint from_byte (b : Z) (l : list Z) : option (list Z) :=
  match l with
  | [] => None
  | x :: r => if x =? b then Some l else from_byte b r
  end.

(** The text after the first occurrence of the terminator. *)
Fixpoint after_terminator (terminator l : list Z) : option (list Z) :=
  match strip_prefix terminator l with
  | Some r => Some r
  | None => match l with [] => None | _ :: l => after_terminator terminator l end
  end.

Definition skip_xml_markup (input : list Z) (prefix_len : nat) (terminator : list Z) : result (list Z) string :=
  match terminator with
  | [] => Err "XML markup terminator is empty"
  | _ =>
      if (length input <? prefix_len)%nat then Err "incomplete XML markup"
      else ok_or (after_terminator terminator (drop prefix_len input)) "unterminated XML markup"
  end.

Fixpoint scan_xml_loop (remaining : list Z) (quote : option Z) (previous attributes : Z)
    : result (list Z * bool) string :=
  match remaining with
  | [] => Err "unterminated XML tag or attribute"
  | byte :: remaining =>
      match quote with
      | Some delimiter =>
          scan_xml_loop remaining (if byte =? delimiter then None else quote) byte attributes
      | None =>
          if (byte =? 39) || (byte =? 34) then scan_xml_loop remaining (Some byte) byte attributes
          else if byte =? 62 then Ok (remaining, previous =? 47)
          else if byte =? 60 then Err "unexpected markup inside an XML tag"
          else if byte =? 61 then
            if MAX_XML_ATTRIBUTES_PER_ELEMENT <? attributes + 1
            then Err "XML attributes exceed the per-element limit"
            else scan_xml_loop remaining None byte (attributes + 1)
          else scan_xml_loop remaining None byte attributes
      end
  end.
Definition scan_xml_tag (remaining : list Z) : result (list Z * bool) string := scan_xml_loop remaining None 0 0.

Fixpoint preflight_loop (fuel : nat) (remaining : list Z) (depth : Z) : result unit string :=
  match fuel with
  | O => Err "out of fuel"
  | S fuel =>
      match from_byte 60 remaining with
      | None => if negb (depth =? 0) then Err "XML contains unclosed elements" else Ok tt
      | Some remaining =>
          if starts_with (bs "<!--") remaining then
            let? remaining := skip_xml_markup remaining 4 (bs "-->") in preflight_loop fuel remaining depth
          else if starts_with (bs "<![CDATA[") remaining then
            let? remaining := skip_xml_markup remaining 9 (bs "]]>") in preflight_loop fuel remaining depth
          else if starts_with (bs "<?") remaining then
            let? remaining := skip_xml_markup remaining 2 (bs "?>") in preflight_loop fuel remaining depth
          else if starts_with (bs "<!") remaining then
            Err "XML declarations other than comments and CDATA are unsupported"
          else
            let closing := starts_with (bs "</") remaining in
            let? (after_tag, empty) := scan_xml_tag (drop (if closing then 2 else 1)%nat remaining) in
            if closing then
              let? depth := ok_or (checked_sub depth 1) "unmatched XML closing tag" in
              preflight_loop fuel after_tag depth
            else
              let element_depth := depth + 1 in
              if MAX_XML_DEPTH <? element_depth then Err "XML element depth exceeds the parser limit"
              else preflight_loop fuel after_tag (if negb empty then element_depth else depth)
      end
  end.

Definition preflight_xml (input : list Z) : result unit string :=
  if (MAX_XML_RAW_MARKUP_TOKENS <? count_byte 60 input) || (MAX_XML_RAW_ATTRIBUTE_TOKENS <? count_byte 61 input)
  then Err "XML parser reservation budget exceeded"
  else preflight_loop (S (length input)) input 0.

(** ** Documents *)

Inductive XmlNode :=
| XmlElement (name : list Z) (namespace : option (list Z)) (children : list XmlNode)
| XmlText (text : list Z)
| XmlOther.

Definition is_element (n : XmlNode) : bool := match n with XmlElement _ _ _ => true | _ => false end.
Definition node_children (n : XmlNode) : list XmlNode := match n with XmlElement _ _ c => c | _ => [] end.
Definition node_name (n : XmlNode) : list Z := match n with XmlElement t _ _ => t | _ => [] end.
Definition node_namespace (n : XmlNode) : option (list Z) := match n with XmlElement _ ns _ => ns | _ => None end.

Section Documents.
(** The parser: the top-level nodes of a document, or none if it rejects the text. *)
Context (parse_xml : list Z → option (list XmlNode)).

Definition parse_document (xml : list Z) : result (list XmlNode) string :=
  let? _ := preflight_xml xml in
  ok_or (parse_xml xml) "provider response contains invalid or excessively complex XML".

Definition document_root (document : list XmlNode) (expected : string) : result XmlNode string :=
  let? root := ok_or (find is_element document) "XML document has no root element" in
  if negb (bool_decide (node_name root = bs expected)) then Err "XML document has an unexpected root element"
  else Ok root.
End Documents.

Fixpoint collect_elements (parent : XmlNode) (tag : string) (max_entries : nat) (children elements : list XmlNode)
    : result (list XmlNode) string :=
  match children with
  | [] => Ok elements
  | child :: children =>
      if negb (bool_decide (node_name child = bs tag))
         || negb (bool_decide (node_namespace child = node_namespace parent))
      then collect_elements parent tag max_entries children elements
      else if (max_entries <=? length elements)%nat then Err "XML entry count exceeds the provider limit"
      else collect_elements parent tag max_entries children (elements ++ [child])
  end.
Definition child_elements (parent : XmlNode) (tag : string) (max_entries : nat) : result (list XmlNode) string :=
  collect_elements parent tag max_entries (List.filter is_element (node_children parent)) [].

Fixpoint collect_text (children : list XmlNode) (value : list Z) : result (list Z) string :=
  match children with
  | [] => Ok (trim_utf8 value)
  | XmlElement _ _ _ :: _ => Err "XML text field contains nested markup"
  | XmlText text :: children => collect_text children (value ++ text)
  | XmlOther :: children => collect_text children value
  end.
Definition element_text (element : XmlNode) : result (list Z) string := collect_text (node_children element) [].

Definition exactly_one_text (parent : XmlNode) (tag : string) : result (list Z) string :=
  let? elements := child_elements parent tag 2 in
  match elements with
  | [element] => element_text element
  | [] => Err "XML critical field is missing"
  | _ => Err "XML critical field is duplicated"
  end.

Definition exactly_one_nonempty_text (parent : XmlNode) (tag : string) : result (list Z) string :=
  let? value := exactly_one_text parent tag in
  match value with [] => Err "XML critical field is empty" | _ => Ok value end.

(** ** Tasks *)

(** [Url::parse] of the task's URL. *)
Record ProviderUrl := mkProviderUrl { ou_pairs : list (list Z * list Z); ou_path : list Z }.

Record ProviderTask := mkProviderTask {
  ot_url : list Z;
  ot_parsed : result ProviderUrl string;
  ot_total : Z;
  ot_chunk : Z;
}.

(** ** Bodies and queries *)

Definition MAX_PROVIDER_CONTROL_BODY_BYTES : Z := 8 * 1024 * 1024.

Definition checked_body_len (W current incoming limit : Z) : result Z MeowError :=
  let? next := ok_or (checked_add (2 ^ W - 1) current incoming)
    (from_code_str ResponseParseError "provider control response body length overflow") in
  if limit <? next then
    Err (from_code ResponseParseError ("provider control response body exceeds " +:+ pretty limit +:+ " bytes"))
  else Ok next.

Fixpoint read_body_loop (W : Z) (operation : string) (items : list BodyItem) (body : list Z) : result (list Z) MeowError :=
  match items with
  | [] => Ok body
  | BodyError text :: _ => Err (from_source HttpError (operation +:+ " response body read failed") (io_other text))
  | BodyChunk chunk :: items =>
      let? _ := checked_body_len W (Z.of_nat (length body)) (Z.of_nat (length chunk)) MAX_PROVIDER_CONTROL_BODY_BYTES in
      read_body_loop W operation items (body ++ chunk)
  end.

(** The declared length is that of the client's response object, if it has one. *)
Definition read_control_body (W : Z) (content_length : option Z) (items : list BodyItem) (operation : string)
    : result (list Z) MeowError :=
  if match content_length with Some length => MAX_PROVIDER_CONTROL_BODY_BYTES <? length | None => false end then
    Err (from_code ResponseParseError (operation +:+ " response body exceeds "
           +:+ pretty MAX_PROVIDER_CONTROL_BODY_BYTES +:+ " bytes"))
  else
    let? body := read_body_loop W operation items [] in
    if is_utf8 body then Ok body
    else Err (from_code ResponseParseError (operation +:+ " response body is not valid UTF-8")).

Definition reject_reserved_query_keys (pairs : list (list Z * list Z)) (reserved : list string) (provider : string)
    : result unit MeowError :=
  match find (λ kv : list Z * list Z, existsb (λ r, eq_ignore_ascii_case kv.1 (bs r)) reserved) pairs with
  | Some kv => Err (from_code InvalidTaskState
      (provider +:+ " task URL contains reserved query key '" +:+ str_of kv.1 +:+ "'"))
  | None => Ok tt
  end.

(** ** What the scan accepts *)

(** The bytes outside quotes, and whether a quote is open at the end. *)
Fixpoint unquoted (quote : option Z) (l : list Z) : list Z :=
  match l with
  | [] => []
  | b :: r =>
      match quote with
      | Some d => unquoted (if b =? d then None else quote) r
      | None => if (b =? 39) || (b =? 34) then unquoted (Some b) r else b :: unquoted None r
      end
  end.
Fixpoint quote_after (quote : option Z) (l : list Z) : option Z :=
  match l with
  | [] => quote
  | b :: r =>
      match quote with
      | Some d => quote_after (if b =? d then None else quote) r
      | None => if (b =? 39) || (b =? 34) then quote_after (Some b) r else quote_after None r
      end
  end.

Lemma last_step (x prev : Z) body : default prev (last (x :: body)) = default x (last body).
Proof. rewrite last_cons. by destruct (last body). Qed.

(** The inside of a tag: quotes are closed, no angle bracket and few equals signs outside them. *)
Definition tag_body (body : list Z) : Prop :=
  quote_after None body = None ∧ 60 ∉ unquoted None body ∧ 62 ∉ unquoted None body
  ∧ count_byte 61 (unquoted None body) ≤ MAX_XML_ATTRIBUTES_PER_ELEMENT.

Inductive Tag := TagOpen | TagEmpty | TagClose.

(** Comments, character data and processing instructions: their opening and closing. *)
Definition skipped_markup : list (list Z * list Z) :=
  [(bs "<!--", bs "-->"); (bs "<![CDATA[", bs "]]>"); (bs "<?", bs "?>")].

(** The tags of a text, outside the skipped markup. *)
Inductive xml_tags : list Z → list Tag → Prop :=
| xt_end text : 60 ∉ text → xml_tags text []
| xt_skip text open close body rest tags :
    60 ∉ text → (open, close) ∈ skipped_markup →
    (∀ k, (k < length body)%nat → strip_prefix close (drop k (body ++ close ++ rest)) = None) →
    xml_tags rest tags → xml_tags (text ++ open ++ body ++ close ++ rest) tags
| xt_open text body rest tags :
    60 ∉ text → tag_body body → head body ∉ [Some 33; Some 47; Some 63] → xml_tags rest tags →
    xml_tags (text ++ 60 :: body ++ 62 :: rest)
      ((if bool_decide (last body = Some 47) then TagEmpty else TagOpen) :: tags)
| xt_close text body rest tags :
    60 ∉ text → tag_body body → xml_tags rest tags →
    xml_tags (text ++ 60 :: 47 :: body ++ 62 :: rest) (TagClose :: tags).

(** Properly nested from a depth, never deeper than the limit. *)
Fixpoint nested (depth : Z) (tags : list Tag) : Prop :=
  match tags with
  | [] => depth = 0
  | TagOpen :: tags => depth + 1 ≤ MAX_XML_DEPTH ∧ nested (depth + 1) tags
  | TagEmpty :: tags => depth + 1 ≤ MAX_XML_DEPTH ∧ nested depth tags
  | TagClose :: tags => 1 ≤ depth ∧ nested (depth - 1) tags
  end.

Lemma strip_prefix_Some p l r : strip_prefix p l = Some r ↔ l = p ++ r.
Proof.
  revert l. induction p as [|a p IH]; intros l; simpl; [naive_solver|].
  destruct l as [|b l]; [naive_solver|]. destruct (Z.eqb_spec a b) as [->|Hne]; [|naive_solver].
  rewrite IH. naive_solver.
Qed.

Lemma starts_with_spec p l : starts_with p l = true ↔ ∃ r, l = p ++ r.
Proof.
  unfold starts_with. rewrite bool_decide_eq_true. unfold is_Some. by setoid_rewrite strip_prefix_Some.
Qed.

Lemma from_byte_spec b l l' : from_byte b l = Some l' ↔ ∃ text rest, b ∉ text ∧ l = text ++ l' ∧ l' = b :: rest.
Proof.
  induction l as [|x l IH]; simpl.
  - split; [done|]. intros (text & rest & _ & H & ->). by destruct text.
  - destruct (Z.eqb_spec x b) as [->|Hne].
    + split; [intros [= <-]; exists [], l; split_and!; [set_solver|done..]|].
      intros (text & rest & Hn & H & ->). destruct text as [|y text]; simplify_eq/=; [done|set_solver].
    + rewrite IH. split; intros (text & rest & Hn & H & ->).
      * exists (x :: text), rest. split_and!; [set_solver|by rewrite H|done].
      * destruct text as [|y text]; simplify_eq/=. exists text, rest. split_and!; [set_solver|done..].
Qed.

Lemma from_byte_None b l : from_byte b l = None ↔ b ∉ l.
Proof.
  induction l as [|x l IH]; simpl; [set_solver|]. destruct (Z.eqb_spec x b) as [->|Hne]; [set_solver|].
  rewrite IH. set_solver.
Qed.

Lemma after_terminator_spec t l r :
  t ≠ [] → after_terminator t l = Some r ↔
  ∃ body, l = body ++ t ++ r ∧ ∀ k, (k < length body)%nat → strip_prefix t (drop k l) = None.
Proof.
  intros Ht. induction l as [|x l IH].
  - destruct t as [|b t]; [done|]. split; [done|]. intros (body & H & _). by destruct body.
  - cbn [after_terminator]. destruct (strip_prefix t (x :: l)) as [r'|] eqn:E.
    + split.
      * intros [= ->]. apply strip_prefix_Some in E. exists []. split; [done|]. simpl. lia.
      * intros (body & H & Hk). destruct body as [|y body].
        -- simpl in H. rewrite H in E. apply strip_prefix_Some in E. f_equal. by apply app_inv_head in E.
        -- specialize (Hk O ltac:(simpl; lia)). by rewrite drop_0, E in Hk.
    + rewrite IH. split; intros (body & H & Hk).
      * exists (x :: body). split; [by rewrite H|]. intros [|k] Hlt; [done|]. apply Hk. simpl in Hlt. lia.
      * destruct body as [|y body]; simplify_eq/=; [rewrite (proj2 (strip_prefix_Some t (t ++ r) r) eq_refl) in E || idtac|].
        -- assert (strip_prefix t (x :: l) = Some r) by (by apply strip_prefix_Some). congruence.
        -- exists body. split; [done|]. intros k Hlt. apply (Hk (S k)). lia.
Qed.

Lemma scan_loop_spec l q prev attrs rest empty :
  attrs ≤ MAX_XML_ATTRIBUTES_PER_ELEMENT →
  scan_xml_loop l q prev attrs = Ok (rest, empty) ↔
  ∃ body, l = body ++ 62 :: rest ∧ quote_after q body = None ∧ 60 ∉ unquoted q body ∧ 62 ∉ unquoted q body
    ∧ attrs + count_byte 61 (unquoted q body) ≤ MAX_XML_ATTRIBUTES_PER_ELEMENT
    ∧ empty = (default prev (last body) =? 47).
Proof.
  revert q prev attrs. induction l as [|x l IH]; intros q prev attrs Ha.
  - split; [done|]. intros (body & H & _). by destruct body.
  - cbn [scan_xml_loop].
    assert (∀ q' a', a' ≤ MAX_XML_ATTRIBUTES_PER_ELEMENT → (∀ body, quote_after q (x :: body) = quote_after q' body) →
      (∀ body, (60 ∉ unquoted q (x :: body) ↔ 60 ∉ unquoted q' body) ∧ (62 ∉ unquoted q (x :: body) ↔ 62 ∉ unquoted q' body)
         ∧ attrs + count_byte 61 (unquoted q (x :: body)) = a' + count_byte 61 (unquoted q' body)) →
      (q = None → x ≠ 62) →
      scan_xml_loop l q' x a' = Ok (rest, empty) ↔
      ∃ body, x :: l = body ++ 62 :: rest ∧ quote_after q body = None ∧ 60 ∉ unquoted q body ∧ 62 ∉ unquoted q body
        ∧ attrs + count_byte 61 (unquoted q body) ≤ MAX_XML_ATTRIBUTES_PER_ELEMENT
        ∧ empty = (default prev (last body) =? 47)) as Hstep.
    { intros q' a' Ha' Hq Hu Hx. rewrite IH by done. split.
      - intros (body & -> & H1 & H2 & H3 & H4 & H5). exists (x :: body). destruct (Hu body) as (U1 & U2 & U3).
        rewrite Hq, U1, U2, U3. split_and!; try done. by rewrite last_step.
      - intros (body & H & H1 & H2 & H3 & H4 & H5). destruct body as [|y body].
        + simplify_eq/=. by destruct (Hx eq_refl).
        + simplify_eq/=. exists body. destruct (Hu body) as (U1 & U2 & U3).
          rewrite Hq in H1. rewrite U1 in H2. rewrite U2 in H3. rewrite U3 in H4. split_and!; try done.
          by rewrite last_step. }
    destruct q as [d|].
    { apply Hstep; [done|by intros; simpl; destruct (x =? d)| |done]. intros body. simpl. by destruct (x =? d). }
    destruct ((x =? 39) || (x =? 34)) eqn:Eq.
    { apply Hstep; [done|by intros; simpl; rewrite Eq|intros body; simpl; by rewrite Eq|].
      intros _ ->. done. }
    destruct (Z.eqb_spec x 62) as [->|H62].
    { split.
      - intros [= <- <-]. exists []. simpl. split_and!; try done; [set_solver..|]. unfold count_byte. simpl. lia.
      - intros (body & H & _ & _ & H3 & _ & H5). destruct body as [|y body]; [by simplify_eq/=|].
        simplify_eq/=. set_solver. }
    destruct (Z.eqb_spec x 60) as [->|H60].
    { split; [done|]. intros (body & H & _ & H2 & _). destruct body as [|y body]; simplify_eq/=. set_solver. }
    assert (∀ a body, count_byte a (x :: body) = (if a =? x then 1 else 0) + count_byte a body) as Hcnt.
    { intros a body. unfold count_byte. simpl. destruct (a =? x); simpl; lia. }
    destruct (Z.eqb_spec x 61) as [->|H61].
    + destruct (MAX_XML_ATTRIBUTES_PER_ELEMENT <? attrs + 1) eqn:Em; [apply Z.ltb_lt in Em|apply Z.ltb_ge in Em].
      * split; [done|]. intros (body & Hl & _ & _ & _ & H4 & _). destruct body as [|y body]; simplify_eq/=.
        rewrite Hcnt in H4. simpl in H4. assert (0 ≤ count_byte 61 (unquoted None body)) by (unfold count_byte; lia). lia.
      * apply Hstep; [done|done| |done]. intros body. simpl. rewrite Hcnt. simpl. split_and!; [set_solver..|lia].
    + apply Hstep; [done|by intros; simpl; rewrite Eq| |done]. intros body. simpl. rewrite Eq, Hcnt.
      rewrite (proj2 (Z.eqb_neq 61 x)) by done. split_and!; [set_solver..|lia].
Qed.

Lemma scan_tag_spec l rest empty :
  scan_xml_tag l = Ok (rest, empty) ↔
  ∃ body, l = body ++ 62 :: rest ∧ tag_body body ∧ empty = bool_decide (last body = Some 47).
Proof.
  unfold scan_xml_tag. rewrite scan_loop_spec by (unfold MAX_XML_ATTRIBUTES_PER_ELEMENT; lia). unfold tag_body.
  assert (∀ body, (default 0 (last body) =? 47) = bool_decide (last body = Some 47)) as Heq.
  { intros body. destruct (last body) as [b|]; simpl; [|done]. destruct (Z.eqb_spec b 47) as [->|].
    - by rewrite bool_decide_eq_true_2.
    - rewrite bool_decide_eq_false_2; [done|]. by intros [= ?]. }
  setoid_rewrite Heq. split; intros (body & ?); exists body; naive_solver lia.
Qed.

Lemma skip_markup_spec open close rest l r :
  (open, close) ∈ skipped_markup → l = open ++ rest →
  skip_xml_markup l (length open) close = Ok r ↔
  ∃ body, rest = body ++ close ++ r ∧ ∀ k, (k < length body)%nat → strip_prefix close (drop k rest) = None.
Proof.
  intros Hin ->. unfold skip_xml_markup. rewrite length_app.
  assert (close ≠ []) as Hc by (unfold skipped_markup in Hin; set_solver).
  destruct close as [|c0 close]; [done|]. rewrite (proj2 (Nat.ltb_ge _ _)) by lia.
  rewrite drop_app_length. rewrite <- after_terminator_spec by done. destruct (after_terminator _ _); naive_solver.
Qed.

Lemma starts_with_false p l : starts_with p l = false → ∀ r, l ≠ p ++ r.
Proof. intros H r ->. rewrite (proj2 (starts_with_spec p (p ++ r))) in H by eauto. done. Qed.

Lemma from_text text rest : 60 ∉ text → from_byte 60 (text ++ 60 :: rest) = Some (60 :: rest).
Proof. intros Hn. apply from_byte_spec. by exists text, rest. Qed.

(** ** One turn of the scan, by the shape of the text *)

Lemma turn_skip fuel text open close rest d :
  60 ∉ text → (open, close) ∈ skipped_markup →
  preflight_loop (S fuel) (text ++ open ++ rest) d
  = (let? remaining := skip_xml_markup (open ++ rest) (length open) close in preflight_loop fuel remaining d).
Proof.
  intros Hn Hin. cbn [preflight_loop].
  assert (∃ o, open = 60 :: o) as [o Ho] by (unfold skipped_markup in Hin; set_solver).
  assert (from_byte 60 (text ++ open ++ rest) = Some (open ++ rest)) as -> by (subst open; by apply from_text).
  unfold skipped_markup in Hin.
  repeat (apply elem_of_cons in Hin as [Hin|Hin]; [injection Hin as -> ->; reflexivity|]). by apply not_elem_of_nil in Hin.
Qed.

Lemma turn_close fuel text rest d :
  60 ∉ text →
  preflight_loop (S fuel) (text ++ 60 :: 47 :: rest) d
  = (let? (after_tag, _) := scan_xml_tag rest in
     let? depth := ok_or (checked_sub d 1) "unmatched XML closing tag" in preflight_loop fuel after_tag depth).
Proof. intros Hn. cbn [preflight_loop]. rewrite from_text by done. reflexivity. Qed.

Lemma turn_open fuel text rest d :
  60 ∉ text → head rest ∉ [Some 33; Some 47; Some 63] →
  preflight_loop (S fuel) (text ++ 60 :: rest) d
  = (let? (after_tag, empty) := scan_xml_tag rest in
     if MAX_XML_DEPTH <? d + 1 then Err "XML element depth exceeds the parser limit"
     else preflight_loop fuel after_tag (if negb empty then d + 1 else d)).
Proof.
  intros Hn Hh. cbn [preflight_loop]. rewrite from_text by done.
  assert (∀ p c, c ∈ [33; 47; 63] → starts_with (60 :: c :: p) (60 :: rest) = false) as Hs.
  { intros p c Hc. apply not_true_is_false. intros [r Hr]%starts_with_spec. simplify_eq/=. set_solver. }
  change (bs "<!--") with (60 :: 33 :: [45; 45]). change (bs "<![CDATA[") with (60 :: 33 :: bs "[CDATA[").
  change (bs "<?") with (60 :: 63 :: []). change (bs "<!") with (60 :: 33 :: []). change (bs "</") with (60 :: 47 :: []).
  rewrite !Hs by set_solver. reflexivity.
Qed.

(** A text the scan does not refuse at once has one of the shapes. *)
Lemma turn_shapes fuel l d :
  preflight_loop (S fuel) l d = Ok tt →
  (60 ∉ l ∧ d = 0)
  ∨ (∃ text open close rest, 60 ∉ text ∧ (open, close) ∈ skipped_markup ∧ l = text ++ open ++ rest)
  ∨ (∃ text rest, 60 ∉ text ∧ l = text ++ 60 :: 47 :: rest)
  ∨ ∃ text rest, 60 ∉ text ∧ l = text ++ 60 :: rest ∧ head rest ∉ [Some 33; Some 47; Some 63].
Proof.
  cbn [preflight_loop]. destruct (from_byte 60 l) as [l'|] eqn:Hf.
  2:{ apply from_byte_None in Hf. destruct (Z.eqb_spec d 0); [|done]. by left. }
  apply from_byte_spec in Hf as (text & rest & Hn & -> & ->).
  assert (∀ open close, (open, close) ∈ skipped_markup → starts_with open (60 :: rest) = true →
    ∃ text' open close rest', 60 ∉ text' ∧ (open, close) ∈ skipped_markup ∧ text ++ 60 :: rest = text' ++ open ++ rest') as Hskip.
  { intros open close Hin [r Hr]%starts_with_spec. exists text, open, close, r. by rewrite Hr. }
  destruct (starts_with (bs "<!--") (60 :: rest)) eqn:E1; [intros _; right; left; apply (Hskip (bs "<!--") (bs "-->")); [unfold skipped_markup; set_solver|done]|].
  destruct (starts_with (bs "<![CDATA[") (60 :: rest)) eqn:E2; [intros _; right; left; apply (Hskip (bs "<![CDATA[") (bs "]]>")); [unfold skipped_markup; set_solver|done]|].
  destruct (starts_with (bs "<?") (60 :: rest)) eqn:E3; [intros _; right; left; apply (Hskip (bs "<?") (bs "?>")); [unfold skipped_markup; set_solver|done]|].
  destruct (starts_with (bs "<!") (60 :: rest)) eqn:E4; [done|].
  destruct (starts_with (bs "</") (60 :: rest)) eqn:E5; intros _; right; right.
  - left. apply starts_with_spec in E5 as [r Hr]. simplify_eq/=. by exists text, r.
  - right. exists text, rest. split_and!; try done. destruct rest as [|c r]; [set_solver|]. simpl.
    intros Hin. assert (c = 33 ∨ c = 47 ∨ c = 63) as [->|[->| ->]] by set_solver.
    + by apply (starts_with_false _ _ E4 r).
    + by apply (starts_with_false _ _ E5 r).
    + by apply (starts_with_false _ _ E3 r).
Qed.

Lemma preflight_sound fuel l d :
  0 ≤ d → preflight_loop fuel l d = Ok tt → ∃ tags, xml_tags l tags ∧ nested d tags.
Proof.
  revert l d. induction fuel as [|fuel IH]; intros l d Hd H; [done|].
  destruct (turn_shapes fuel l d H) as [[Hn ->]|[(text & open & close & rest & Hn & Hin & ->)|[(text & rest & Hn & ->)
    |(text & rest & Hn & -> & Hh)]]].
  - exists []. split; [by constructor|done].
  - rewrite (turn_skip fuel text open close) in H by done.
    destruct (skip_xml_markup _ _ _) as [r|] eqn:Hs; [|done].
    apply (skip_markup_spec open close rest) in Hs as (body & -> & Hk); [|done|done].
    destruct (IH r d Hd H) as (tags & Ht & Hne). exists tags. split; [|done]. by constructor.
  - rewrite turn_close in H by done. destruct (scan_xml_tag rest) as [[r e]|] eqn:Hs; [|done].
    apply scan_tag_spec in Hs as (body & -> & Hb & _). destruct (checked_sub d 1) as [d'|] eqn:Hc; [|done]. simpl in H.
    apply checked_sub_Some in Hc as [-> Hle]. destruct (IH r (d - 1) ltac:(lia) H) as (tags & Ht & Hne).
    exists (TagClose :: tags). split; [by constructor|done].
  - rewrite turn_open in H by done. destruct (scan_xml_tag rest) as [[r e]|] eqn:Hs; [|done].
    apply scan_tag_spec in Hs as (body & -> & Hb & ->). destruct (MAX_XML_DEPTH <? d + 1) eqn:Em; [done|]. zbool.
    assert (head body ∉ [Some 33; Some 47; Some 63]) as Hh' by (destruct body; [set_solver|done]).
    assert (0 ≤ (if negb (bool_decide (last body = Some 47)) then d + 1 else d)) as Hd' by (case_bool_decide; simpl; lia).
    destruct (IH r _ Hd' H) as (tags & Ht & Hne).
    eexists (_ :: tags). split; [by constructor|]. case_bool_decide; done.
Qed.

Lemma preflight_complete l tags d fuel :
  xml_tags l tags → nested d tags → (length l < fuel)%nat → preflight_loop fuel l d = Ok tt.
Proof.
  intros Ht. revert d fuel. induction Ht as [text Hn|text open close body rest tags Hn Hin Hk Ht IH
    |text body rest tags Hn Hb Hh Ht IH|text body rest tags Hn Hb Ht IH]; intros d [|fuel] Hne Hf; try lia.
  - cbn [preflight_loop]. apply from_byte_None in Hn. rewrite Hn. simpl in Hne. by rewrite Hne.
  - rewrite (turn_skip fuel text open close) by done.
    rewrite (proj2 (skip_markup_spec open close (body ++ close ++ rest) _ rest Hin eq_refl)) by eauto.
    apply IH; [done|]. rewrite !length_app in Hf.
    assert (0 < length open)%nat by (unfold skipped_markup in Hin; destruct open; [set_solver|simpl; lia]). lia.
  - rewrite turn_open; [|done|destruct body; [set_solver|done]].
    rewrite (proj2 (scan_tag_spec (body ++ 62 :: rest) rest _)) by eauto.
    rewrite length_app in Hf. simpl in Hf. rewrite length_app in Hf. simpl in Hf.
    assert (d + 1 ≤ MAX_XML_DEPTH ∧ nested (if negb (bool_decide (last body = Some 47)) then d + 1 else d) tags) as [Hle Hne']
      by (case_bool_decide; exact Hne).
    rewrite (proj2 (Z.ltb_ge _ _)) by lia. apply IH; [done|lia].
  - rewrite turn_close by done. rewrite (proj2 (scan_tag_spec (body ++ 62 :: rest) rest _)) by eauto.
    rewrite length_app in Hf. simpl in Hf. rewrite length_app in Hf. simpl in Hf. destruct Hne as [Hle Hne].
    rewrite (proj2 (checked_sub_Some d 1 (d - 1))) by (split; [done|lia]). simpl. apply IH; [done|lia].
Qed.

(** C35: the resource scan accepts exactly the texts whose tags are properly nested at most 64
    deep, each tag closed, with its quotes closed and at most 64 attributes, outside comments,
    character data and processing instructions, with no other declaration, and with the raw
    counts of brackets and equals signs within the parser's budget; it always ends. *)
Theorem preflight_exact input :
  preflight_xml input = Ok tt ↔
  count_byte 60 input ≤ MAX_XML_RAW_MARKUP_TOKENS ∧ count_byte 61 input ≤ MAX_XML_RAW_ATTRIBUTE_TOKENS
  ∧ ∃ tags, xml_tags input tags ∧ nested 0 tags.
Proof.
  unfold preflight_xml. destruct (_ || _) eqn:E.
  - split; [done|]. intros (H1 & H2 & _). apply orb_true_iff in E as [E|E]; zbool; lia.
  - zbool. split.
    + intros Hok. split_and!; [done|done|]. by apply (preflight_sound (S (length input))).
    + intros (_ & _ & tags & Ht & Hne). eapply preflight_complete; [done|done|lia].
Qed.

Example preflight_depth :
  is_ok (preflight_xml (bs "<A b='>'><!-- <X> --><B/></A>")) = true ∧ is_ok (preflight_xml (bs "<A><B></A>")) = false
  ∧ is_ok (preflight_xml (bs "<!DOCTYPE A><A/>")) = false.
Proof. vm_compute. auto. Qed.
