(* ===== verification/OssUpload.v ===== *)
(** * Multipart uploads to Aliyun OSS

    [src/aliyun-oss-direct/upload.rs] and [xml.rs]: the upload protocol that signs its requests
    itself. A session has an upload id and a set of numbered parts on the server; an upload is
    resumed by finding the one session of the object, listing its parts page by page, and
    checking them against the plan of the task.

    A request is what it asks for ([OssRequest]); its URL, signature and transport are the
    environment's ([OssEnv]), as are the texts of error bodies. *)
From stdpp Require Import sorting.
From S2P Require Import Prelude Errors HttpHeaders DownloadIdentity RangeDownload DownloadPrepare.
From S2P Require Import UploadFile UploadChunks ProviderXml.
#[local] Open Scope Z_scope.

(** ** Data *)

Record OssPart := mkOssPart { part_number : Z; part_size : Z }.
Record OssUploadPage := mkUploadPage {
  upload_ids_for_key : list (list Z);
  next_markers : option (list Z * list Z);
}.
Record OssPartPage := mkPartPage {
  page_parts : list OssPart;
  next_part_number_marker : option Z;
}.
Record MultipartSession := mkSession {
  target_url : option (list Z);
  upload_id : option (list Z);
}.
Definition session_default : MultipartSession := mkSession None None.

Definition MAX_OSS_LIST_ENTRIES : nat := 1000.
Definition MAX_OSS_PART_NUMBER : Z := 10000.
Definition MAX_OSS_PAGINATION_REQUESTS : nat := 10000.
Definition OSS_RESERVED_QUERY_KEYS : list string :=
  ["uploads"; "uploadId"; "partNumber"; "prefix"; "max-uploads"; "max-parts"; "encoding-type"; "key-marker";
   "upload-id-marker"; "part-number-marker"].

(** ** XML of the listings *)

Definition to_lower (l : list Z) : list Z := map to_ascii_lowercase l.

Definition listing_is_truncated (root : XmlNode) : result bool string :=
  let? elements := child_elements root "IsTruncated" 2 in
  match elements with
  | [] => Ok false
  | [element] =>
      let? text := element_text element in
      if bool_decide (to_lower text = bs "false") then Ok false
      else if bool_decide (to_lower text = bs "true") then Ok true
      else Err "invalid IsTruncated value"
  | _ => Err "duplicate IsTruncated field"
  end.

Definition listing_uses_url_encoding (root : XmlNode) : result bool string :=
  let? elements := child_elements root "EncodingType" 2 in
  match elements with
  | [] => Ok false
  | [element] =>
      let? text := element_text element in
      if eq_ignore_ascii_case text (bs "url") then Ok true else Err "unsupported EncodingType value"
  | _ => Err "duplicate EncodingType field"
  end.

Definition decode_hex (b : Z) : option Z :=
  if in_range 48 57 b then Some (b - 48)
  else if in_range 97 102 b then Some (b - 97 + 10)
  else if in_range 65 70 b then Some (b - 65 + 10)
  else None.

(** Strict percent-decoding of an XML field. *)
Fixpoint decode_url_loop (bytes : list Z) : result (list Z) string :=
  match bytes with
  | [] => Ok []
  | b :: r =>
      if b =? 37 then
        match r with
        | h :: l :: r =>
            let? high := ok_or (decode_hex h) "invalid URL escape in OSS XML" in
            let? low := ok_or (decode_hex l) "invalid URL escape in OSS XML" in
            let? rest := decode_url_loop r in Ok (Z.lor (Z.shiftl high 4) low :: rest)
        | _ => Err "truncated URL escape in OSS XML"
        end
      else let? rest := decode_url_loop r in Ok (b :: rest)
  end.
Definition decode_url_encoded_text (value : list Z) : result (list Z) string :=
  let? decoded := decode_url_loop value in
  if is_utf8 decoded then Ok decoded else Err "URL-encoded OSS XML field is not valid UTF-8".

Definition opt_decode (url_encoded : bool) (value : list Z) : result (list Z) string :=
  if url_encoded then decode_url_encoded_text value else Ok value.

Section Pages.
Context (parse_xml : list Z → option (list XmlNode)).

Definition extract_xml_tag (body : list Z) (tag : string) : option (list Z) :=
  match (let? document := parse_document parse_xml body in
         let? root := document_root document "InitiateMultipartUploadResult" in
         exactly_one_nonempty_text root tag) with
  | Ok v => Some v
  | Err _ => None
  end.

Fixpoint upload_blocks_loop (url_encoded : bool) (key : list Z) (blocks : list XmlNode) (ids : list (list Z))
    (seen : list (list Z * list Z)) : result (list (list Z)) string :=
  match blocks with
  | [] => Ok ids
  | block :: blocks =>
      let? item_key := exactly_one_nonempty_text block "Key" in
      let? item_key := opt_decode url_encoded item_key in
      let? id := exactly_one_nonempty_text block "UploadId" in
      if bool_decide ((item_key, id) ∈ seen) then Err "duplicate multipart upload entry"
      else upload_blocks_loop url_encoded key blocks (if bool_decide (item_key = key) then ids ++ [id] else ids)
             ((item_key, id) :: seen)
  end.

Definition parse_upload_page_for_key (xml key : list Z) : result OssUploadPage string :=
  let? document := parse_document parse_xml xml in
  let? root := document_root document "ListMultipartUploadsResult" in
  let? url_encoded := listing_uses_url_encoding root in
  let? upload_blocks := child_elements root "Upload" MAX_OSS_LIST_ENTRIES in
  let? ids := upload_blocks_loop url_encoded key upload_blocks [] [] in
  let? truncated := listing_is_truncated root in
  let? next :=
    if truncated then
      let? key_marker := exactly_one_nonempty_text root "NextKeyMarker" in
      let? key_marker := opt_decode url_encoded key_marker in
      let? upload_id_marker := exactly_one_text root "NextUploadIdMarker" in
      Ok (Some (key_marker, upload_id_marker))
    else Ok None in
  Ok (mkUploadPage ids next).

Fixpoint part_blocks_loop (blocks : list XmlNode) (parts : list OssPart) (seen : list Z) : result (list OssPart) string :=
  match blocks with
  | [] => Ok parts
  | block :: blocks =>
      let? number := exactly_one_nonempty_text block "PartNumber" in
      let? number := ok_or (parse_u64 number) "invalid OSS PartNumber" in
      let? size := exactly_one_nonempty_text block "Size" in
      let? size := ok_or (parse_u64 size) "invalid OSS part Size" in
      if (number =? 0) || (size =? 0) then Err "OSS part number and size must be non-zero"
      else if bool_decide (number ∈ seen) then Err "duplicate OSS PartNumber"
      else part_blocks_loop blocks (parts ++ [mkOssPart number size]) (number :: seen)
  end.

Definition part_le (a b : OssPart) : Prop := part_number a ≤ part_number b.
#[export] Instance part_le_dec : RelDecision part_le.
Proof. intros a b. unfold part_le. apply _. Defined.

Definition parse_part_page (xml : list Z) : result OssPartPage string :=
  let? document := parse_document parse_xml xml in
  let? root := document_root document "ListPartsResult" in
  let? part_blocks := child_elements root "Part" MAX_OSS_LIST_ENTRIES in
  let? parts := part_blocks_loop part_blocks [] [] in
  let? truncated := listing_is_truncated root in
  let? next :=
    if truncated then
      let? marker := exactly_one_nonempty_text root "NextPartNumberMarker" in
      let? marker := ok_or (parse_u64 marker) "invalid OSS NextPartNumberMarker" in
      if marker =? 0 then Err "OSS NextPartNumberMarker must be non-zero" else Ok (Some marker)
    else Ok None in
  Ok (mkPartPage (merge_sort part_le parts) next).

End Pages.

(** ** Requests and the environment *)

Inductive OssRequest :=
| InitiateMultipart
| ListUploads (marker : option (list Z * list Z))
| ListParts (id : list Z) (marker : option Z)
| PutPart (number : Z) (id body : list Z)
| CompleteMultipart (id : list Z)
| AbortMultipart (id : list Z).

Record OssResponse := mkOssResponse {
  or_http : HttpResponse;
  (** the length the client knows *)
  or_content_length : option Z;
}.

Record OssEnv := mkOssEnv {
  (** building the URL and the signed headers *)
  oe_sign : OssRequest → option MeowError;
  oe_send : OssRequest → result OssResponse string;
  (** the redacted text of an error response *)
  oe_error_body : OssResponse → string;
  (** [log::redact_secrets] *)
  oe_redact : list Z → string;
}.

Definition parse_task_url (t : ProviderTask) : result ProviderUrl MeowError :=
  match ot_parsed t with Ok u => Ok u | Err e => Err (from_code ParameterEmpty e) end.

Definition parse_error (m : string) : MeowError := from_code ResponseParseError m.

Fixpoint decode_key_loop (bytes : list Z) : list Z :=
  match bytes with
  | [] => []
  | b :: r =>
      match r with
      | h :: l :: r2 =>
          match decode_hex h, decode_hex l with
          | Some high, Some low =>
              if b =? 37 then Z.lor (Z.shiftl high 4) low :: decode_key_loop r2 else b :: decode_key_loop r
          | _, _ => b :: decode_key_loop r
          end
      | _ => b :: decode_key_loop r
      end
  end.
Definition decode_object_key (encoded_path : list Z) : result (list Z) MeowError :=
  let decoded := decode_key_loop encoded_path in
  if is_utf8 decoded then Ok decoded else Err (from_code_str ParameterEmpty "OSS object key path is not valid UTF-8").

Fixpoint trim_slashes (l : list Z) : list Z :=
  match l with b :: r => if b =? 47 then trim_slashes r else l | [] => [] end.
Definition object_key_from_task_url (t : ProviderTask) : result (list Z) MeowError :=
  let? url := parse_task_url t in decode_object_key (trim_slashes (ou_path url)).

Definition reject_reserved (t : ProviderTask) : result unit MeowError :=
  let? url := parse_task_url t in reject_reserved_query_keys (ou_pairs url) OSS_RESERVED_QUERY_KEYS "Aliyun OSS".

Definition validate_oss_task (t : ProviderTask) : result unit MeowError :=
  let? _ := reject_reserved t in
  let total_chunks := div_ceil (ot_total t) (ot_chunk t) in
  if MAX_OSS_PART_NUMBER <? total_chunks then
    Err (from_code InvalidRange ("OSS multipart upload supports at most " +:+ pretty MAX_OSS_PART_NUMBER
      +:+ " parts; task requires " +:+ pretty total_chunks))
  else Ok tt.

Definition validate_resume_offset (t : ProviderTask) (local_offset : Z) : result unit MeowError :=
  if ot_total t <? local_offset then
    Err (from_code InvalidRange ("local offset " +:+ pretty local_offset +:+ " exceeds total size " +:+ pretty (ot_total t)))
  else if negb (local_offset =? ot_total t) && negb (local_offset mod ot_chunk t =? 0) then
    Err (from_code InvalidTaskState ("local offset " +:+ pretty local_offset +:+ " is not aligned to chunk size "
      +:+ pretty (ot_chunk t) +:+ "; cannot safely resume OSS multipart upload"))
  else Ok tt.

Definition expected_part_size (total_size chunk_size part_index : Z) : result Z MeowError :=
  let? start := ok_or (checked_mul U64_MAX part_index chunk_size)
    (from_code_str InvalidRange "OSS part offset arithmetic overflow") in
  let? remaining := ok_or (checked_sub total_size start)
    (from_code_str InvalidTaskState "OSS part starts beyond the task total") in
  if remaining =? 0 then Err (from_code_str InvalidTaskState "OSS part starts at the task end")
  else Ok (Z.min remaining chunk_size).

Fixpoint check_parts (t : ProviderTask) (total_parts : Z) (parts : list OssPart) : result unit MeowError :=
  match parts with
  | [] => Ok tt
  | part :: parts =>
      if total_parts <? part_number part then
        Err (from_code InvalidTaskState ("remote OSS part " +:+ pretty (part_number part)
          +:+ " is outside the task plan of " +:+ pretty total_parts +:+ " parts"))
      else
        let? part_index := ok_or (checked_sub (part_number part) 1)
          (from_code_str InvalidTaskState "remote OSS part number must be non-zero") in
        let? expected_size := expected_part_size (ot_total t) (ot_chunk t) part_index in
        if negb (part_size part =? expected_size) then
          Err (from_code InvalidTaskState ("remote OSS part " +:+ pretty (part_number part) +:+ " has size "
            +:+ pretty (part_size part) +:+ ", expected " +:+ pretty expected_size))
        else check_parts t total_parts parts
  end.

(** [binary_search_by_key] on a sorted slice: whether the key occurs. *)
Fixpoint check_present (local_offset : Z) (numbers : list Z) (parts : list OssPart) : result unit MeowError :=
  match numbers with
  | [] => Ok tt
  | n :: numbers =>
      if existsb (λ part, part_number part =? n) parts then check_present local_offset numbers parts
      else Err (from_code InvalidTaskState ("local offset " +:+ pretty local_offset +:+ " requires OSS part "
             +:+ pretty n +:+ ", but remote multipart session is missing it"))
  end.

Definition validate_remote_parts_for_resume (t : ProviderTask) (local_offset : Z) (uploaded_parts : list OssPart)
    : result unit MeowError :=
  let total_parts := div_ceil (ot_total t) (ot_chunk t) in
  let? _ := check_parts t total_parts uploaded_parts in
  let expected_parts := if local_offset =? ot_total t then total_parts else local_offset / ot_chunk t in
  check_present local_offset (map (λ i, Z.of_nat i) (seq 1 (Z.to_nat expected_parts))) uploaded_parts.

(** [BTreeMap::insert]: the old value, and the map in key order. *)
Fixpoint btree_insert (part : OssPart) (m : list OssPart) : bool * list OssPart :=
  match m with
  | [] => (false, [part])
  | q :: m =>
      if part_number part <? part_number q then (false, part :: q :: m)
      else if part_number part =? part_number q then (true, part :: m)
      else let '(old, m) := btree_insert part m in (old, q :: m)
  end.

Section Oss.
Context (W : Z) (parse_xml : list Z → option (list XmlNode)) (status_text : Z → string).

(** ** Requests *)

(** Sending a signed request, up to the status check; [context] is what the error texts of an
    abort say of the upload id. *)
Definition oss_call_with (env : OssEnv) (t : ProviderTask) (req : OssRequest) (failed sent context : string)
    (accepted : Z → bool) : result OssResponse MeowError :=
  let? _ := reject_reserved t in
  match oe_sign env req with
  | Some e => Err e
  | None =>
      match oe_send env req with
      | Err e => Err (from_source HttpError sent (io_other e))
      | Ok resp =>
          let status := resp_status (or_http resp) in
          if negb (accepted status) then
            Err (with_http_status (from_code ResponseStatusError (failed +:+ ": " +:+ status_text status
              +:+ context +:+ ", body: " +:+ oe_error_body env resp)) status)
          else Ok resp
      end
  end.
Definition oss_call (env : OssEnv) (t : ProviderTask) (req : OssRequest) (failed : string) : result OssResponse MeowError :=
  oss_call_with env t req failed failed "" is_success.

Definition control_body (resp : OssResponse) (operation : string) : result (list Z) MeowError :=
  read_control_body W (or_content_length resp) (resp_body (or_http resp)) operation.

Definition initiate_multipart_upload (env : OssEnv) (t : ProviderTask) : result (list Z) MeowError :=
  let? resp := oss_call env t InitiateMultipart "oss initiate multipart failed" in
  let? body := control_body resp "oss initiate multipart" in
  ok_or (extract_xml_tag parse_xml body "UploadId") 
    (parse_error ("oss initiate multipart missing UploadId: " +:+ oe_redact env body)).

Fixpoint absorb_ids (env : OssEnv) (object_key : list Z) (ids : list (list Z)) (found : list (list Z)) : result (list (list Z)) MeowError :=
  match ids with
  | [] => Ok found
  | id :: ids =>
      if bool_decide (id ∈ found) then
        Err (from_code_str ResponseParseError "oss list multipart uploads repeated an entry across pages")
      else
        let found := found ++ [id] in
        if (1 <? length found)%nat then
          Err (from_code InvalidTaskState ("found multiple multipart sessions for object '"
            +:+ oe_redact env object_key +:+ "'"))
        else absorb_ids env object_key ids found
  end.

Fixpoint adopt_loop (fuel : nat) (env : OssEnv) (t : ProviderTask) (object_key : list Z)
    (marker : option (list Z * list Z)) (found : list (list Z)) : result (option (list Z)) MeowError :=
  match fuel with
  | O => Err (from_code_str ResponseParseError "oss upload-list pagination exceeded its bounded request limit")
  | S fuel =>
      let? resp := oss_call env t (ListUploads marker) "oss list multipart uploads failed" in
      let? body := control_body resp "oss list multipart uploads" in
      let? page :=
        match parse_upload_page_for_key parse_xml body object_key with
        | Ok page => Ok page
        | Err reason => Err (parse_error ("oss list multipart uploads XML rejected: " +:+ reason))
        end in
      let? found := absorb_ids env object_key (upload_ids_for_key page) found in
      match next_markers page with
      | None => Ok (head found)
      | Some next =>
          if negb (bytes_leb object_key next.1) then
            Err (from_code_str ResponseParseError
              "oss upload-list pagination marker precedes the requested object key")
          else if negb (bool_decide (next.1 = object_key)) then Ok (head found)
          else if bool_decide (next.2 = [])
               || match marker with Some current => pair_leb next current | None => false end then
            Err (from_code_str ResponseParseError "oss upload-list pagination marker did not advance")
          else adopt_loop fuel env t object_key (Some next) found
      end
  end.

Definition try_adopt_upload_id_from_list (env : OssEnv) (t : ProviderTask) : result (option (list Z)) MeowError :=
  let? object_key := object_key_from_task_url t in
  adopt_loop MAX_OSS_PAGINATION_REQUESTS env t object_key None [].

Fixpoint absorb_parts (marker : option Z) (page parts : list OssPart) : result (list OssPart) MeowError :=
  match page with
  | [] => Ok parts
  | part :: page =>
      let rewound := match marker with Some current => part_number part <=? current | None => false end in
      let '(old, parts') := btree_insert part parts in
      if rewound || old then
        Err (from_code_str ResponseParseError "oss list parts repeated or rewound an entry across pages")
      else if MAX_OSS_PART_NUMBER <? Z.of_nat (length parts') then
        Err (from_code_str ResponseParseError "oss list parts exceeded the provider part limit")
      else absorb_parts marker page parts'
  end.

Fixpoint parts_loop (fuel : nat) (env : OssEnv) (t : ProviderTask) (id : list Z) (marker : option Z) (parts : list OssPart)
    : result (list OssPart) MeowError :=
  match fuel with
  | O => Err (from_code_str ResponseParseError "oss part-list pagination exceeded its bounded request limit")
  | S fuel =>
      let? resp := oss_call env t (ListParts id marker) "oss list parts failed" in
      let? body := control_body resp "oss list parts" in
      let? page :=
        match parse_part_page parse_xml body with
        | Ok page => Ok page
        | Err reason => Err (parse_error ("oss list parts XML rejected: " +:+ reason))
        end in
      let page_last := option_map part_number (last (page_parts page)) in
      let? parts := absorb_parts marker (page_parts page) parts in
      match next_part_number_marker page with
      | None => Ok parts
      | Some next =>
          if (MAX_OSS_PART_NUMBER <? next) || (next <=? default 0 marker) || negb (bool_decide (page_last = Some next)) then
            Err (from_code_str ResponseParseError
              "oss part-list pagination marker did not advance exactly to the page tail")
          else parts_loop fuel env t id (Some next) parts
      end
  end.

Definition list_uploaded_parts (env : OssEnv) (t : ProviderTask) (id : list Z) : result (list OssPart) MeowError :=
  let? _ := parse_task_url t in parts_loop MAX_OSS_PAGINATION_REQUESTS env t id None [].

(** ** The upload protocol *)

Definition resume_info (next : Z) (id : list Z) : UploadResumeInfo := mkResumeInfo None (Some next) (Some (str_of id)).

Definition oss_prepare (env : OssEnv) (t : ProviderTask) (local_offset : Z) (s : MultipartSession)
    : MultipartSession * result UploadResumeInfo MeowError :=
  match validate_oss_task t with
  | Err e => (s, Err e)
  | Ok _ =>
      let s := if bool_decide (target_url s = Some (ot_url t)) then s else mkSession (Some (ot_url t)) None in
      match upload_id s with
      | Some id => (s, let? _ := validate_resume_offset t local_offset in Ok (resume_info local_offset id))
      | None =>
          if 0 <? local_offset then
            let adopted :=
              let? _ := validate_resume_offset t local_offset in
              let? id := try_adopt_upload_id_from_list env t in
              let? id := ok_or id (from_code_str InvalidTaskState
                "local offset > 0 but no OSS multipart session found; cannot safely resume") in
              let? uploaded_parts := list_uploaded_parts env t id in
              let? _ := validate_remote_parts_for_resume t local_offset uploaded_parts in
              Ok id in
            match adopted with
            | Err e => (s, Err e)
            | Ok id => (mkSession (Some (ot_url t)) (Some id), Ok (resume_info local_offset id))
            end
          else
            match initiate_multipart_upload env t with
            | Err e => (s, Err e)
            | Ok id => (mkSession (Some (ot_url t)) (Some id), Ok (resume_info 0 id))
            end
      end
  end.

Definition oss_part_number (t : ProviderTask) (offset : Z) : Z := offset / ot_chunk t + 1.

Definition oss_upload_chunk (env : OssEnv) (t : ProviderTask) (offset : Z) (chunk : list Z) (s : MultipartSession)
    : result UploadResumeInfo MeowError :=
  let? _ := validate_oss_task t in
  let? id := ok_or (upload_id s)
    (from_code_str InvalidTaskState "multipart upload_id missing; call prepare first") in
  let number := oss_part_number t offset in
  if MAX_OSS_PART_NUMBER <? number then
    Err (from_code InvalidRange ("partNumber out of range: " +:+ pretty number))
  else
    let? resp := oss_call env t (PutPart number id chunk) "oss upload part failed" in
    let? etag :=
      match require_unambiguous_etag (resp_headers (or_http resp)) "OSS upload-part response" with
      | Ok etag => Ok etag
      | Err _ => Err (from_code_str ResponseParseError "oss upload part success but ETag header is ambiguous")
      end in
    let etag_present := match etag with Some v => negb (bool_decide (trim v = [])) | None => false end in
    if negb etag_present then
      Err (from_code_str ResponseParseError "oss upload part success but missing ETag header")
    else Ok (resume_info (offset + Z.of_nat (length chunk)) id).

Definition oss_complete_upload (env : OssEnv) (t : ProviderTask) (s : MultipartSession)
    : MultipartSession * result (option string) MeowError :=
  match validate_oss_task t with
  | Err e => (s, Err e)
  | Ok _ =>
      match upload_id s with
      | None => (s, Ok None)
      | Some id =>
          match oss_call env t (CompleteMultipart id) "oss complete multipart upload failed" with
          | Err e => (s, Err e)
          | Ok _ => (mkSession (target_url s) None, Ok None)
          end
      end
  end.

Definition send_abort_multipart (env : OssEnv) (t : ProviderTask) (id : list Z) : result unit MeowError :=
  let? _ := oss_call_with env t (AbortMultipart id) "oss abort multipart upload failed"
    ("oss abort multipart upload failed (uploadId=" +:+ oe_redact env id +:+ ")") (", uploadId=" +:+ oe_redact env id)
    (λ status, is_success status || (status =? 404)) in Ok tt.

(** [abort_multipart]: cleaning up a session of an earlier process. *)
Definition abort_multipart (env : OssEnv) (t : ProviderTask) (id : list Z) : result unit MeowError :=
  send_abort_multipart env t id.
Definition current_upload_id (s : MultipartSession) : option (list Z) := upload_id s.

Definition oss_abort_upload (env : OssEnv) (t : ProviderTask) (s : MultipartSession)
    : MultipartSession * result unit MeowError :=
  match upload_id s with
  | None => (s, Ok tt)
  | Some id =>
      match send_abort_multipart env t id with
      | Err e => (s, Err e)
      | Ok _ => (mkSession (target_url s) None, Ok tt)
      end
  end.

End Oss.
