(* ===== verification/OssUploadProps.v ===== *)
(** * Resumed and assembled OSS uploads

    The lemmas and theorems of [OssUpload]: the paginated listing returns every part of an honest
    server, a session is resumed exactly when its parts have the numbers and sizes of the task's plan,
    and an upload whose chunks were all acknowledged assembles to what was kept below its resume
    offset followed by the content. *)
From stdpp Require Import sorting.
From S2P Require Import Prelude Errors HttpHeaders DownloadIdentity RangeDownload DownloadPrepare.
From S2P Require Import UploadFile UploadChunks ProviderXml OssUpload.
#[local] Open Scope Z_scope.

(** ** Listing every part *)

Definition number_lt (a b : OssPart) : Prop := part_number a < part_number b.
Definition after_marker (marker : option Z) (l : list OssPart) : list OssPart :=
  List.filter (λ p, default 0 marker <? part_number p) l.

Lemma btree_append p m :
  Forall (λ q, part_number q < part_number p) m → btree_insert p m = (false, m ++ [p]).
Proof.
  induction 1 as [|q m Hq Hm IH]; simpl; [done|].
  rewrite (proj2 (Z.ltb_ge _ _)) by lia. rewrite (proj2 (Z.eqb_neq _ _)) by lia. by rewrite IH.
Qed.

(** A page that continues the listing is appended to it. *)
Lemma absorb_append marker page acc :
  StronglySorted number_lt (acc ++ page) → Forall (λ q, default 0 marker < part_number q) page →
  Z.of_nat (length (acc ++ page)) ≤ MAX_OSS_PART_NUMBER →
  absorb_parts marker page acc = Ok (acc ++ page).
Proof.
  revert acc. induction page as [|p page IH]; intros acc Hs Hm Hl; [by rewrite app_nil_r|]. cbn [absorb_parts].
  apply Forall_cons in Hm as [Hp Hm].
  assert (Forall (λ q, part_number q < part_number p) acc) as Hacc.
  { apply Forall_forall. intros q Hq. apply StronglySorted_app in Hs as (Hs & _). apply (Hs q p); [done|by left]. }
  rewrite btree_append by done.
  assert (match marker with Some current => part_number p <=? current | None => false end = false) as ->.
  { destruct marker; simpl in Hp; [by apply Z.leb_gt|done]. }
  cbn [orb]. rewrite !length_app in *. simpl in *.
  rewrite (proj2 (Z.ltb_ge _ _)) by lia. rewrite IH; [by rewrite <- (assoc_L (++))|by rewrite <- (assoc_L (++))|done|].
  rewrite !length_app. simpl. lia.
Qed.

Lemma after_sorted l acc rest marker :
  StronglySorted number_lt l → l = acc ++ rest → Forall (λ p, 1 ≤ part_number p) l →
  (marker = None ∧ acc = []) ∨ (∃ p, last acc = Some p ∧ marker = Some (part_number p)) →
  after_marker marker l = rest.
Proof.
  intros Hs -> H1 Hm. unfold after_marker. rewrite List.filter_app.
  apply StronglySorted_app in Hs as (Hlt & Hacc & _).
  destruct Hm as [[-> ->]|(p & Hp & ->)].
  - simpl. apply filter_all. eapply Forall_impl; [exact H1|]. intros q Hq. simpl in *. apply Z.ltb_lt. lia.
  - apply last_Some in Hp as [acc' ->]. rewrite filter_none, filter_all; [done| |].
    + apply Forall_forall. intros q Hq. apply Z.ltb_lt. apply (Hlt p q); [set_solver|done].
    + apply Forall_forall. intros q Hq. apply Z.ltb_ge. apply StronglySorted_app in Hacc as (Hlt' & _).
      apply elem_of_app in Hq as [Hq|Hq]; [|by apply list_elem_of_singleton in Hq as ->].
      apply Z.lt_le_incl, (Hlt' q p); [done|set_solver].
Qed.

Section Listing.
Context (W : Z) (parse_xml : list Z → option (list XmlNode)) (status_text : Z → string).

(** ListParts as documented: a page holds the parts after the marker, in ascending order and at
    least one of them while there are any, and is truncated exactly when parts follow it; the
    marker of a truncated page is its last part number. *)
Definition lists_parts (env : OssEnv) (t : ProviderTask) (id : list Z) (l : list OssPart) : Prop :=
  ∀ marker, ∃ resp body page k,
    oss_call status_text env t (ListParts id marker) "oss list parts failed" = Ok resp
    ∧ control_body W resp "oss list parts" = Ok body ∧ parse_part_page parse_xml body = Ok page
    ∧ page_parts page = take k (after_marker marker l)
    ∧ (if bool_decide (drop k (after_marker marker l) = []) then next_part_number_marker page = None
       else (0 < k)%nat ∧ next_part_number_marker page = option_map part_number (last (page_parts page))).

(** What the marker says of the parts listed so far. *)
Definition listed_to (marker : option Z) (acc : list OssPart) : Prop :=
  (marker = None ∧ acc = []) ∨ (∃ p, last acc = Some p ∧ marker = Some (part_number p)).

Lemma parts_loop_lists env t id l fuel marker acc rest :
  lists_parts env t id l → StronglySorted number_lt l → Forall (λ p, 1 ≤ part_number p ≤ MAX_OSS_PART_NUMBER) l →
  Z.of_nat (length l) ≤ MAX_OSS_PART_NUMBER → l = acc ++ rest → listed_to marker acc →
  (length rest ≤ fuel)%nat → (0 < fuel)%nat →
  parts_loop W parse_xml status_text fuel env t id marker acc = Ok l.
Proof.
  intros Hl Hs Hr Hlen. revert marker acc rest. induction fuel as [|fuel IH]; intros marker acc rest Heq Hm Hf Hf0; [lia|].
  assert (after_marker marker l = rest) as Hafter.
  { apply (after_sorted l acc rest marker Hs Heq); [|done]. eapply Forall_impl; [exact Hr|]. simpl. lia. }
  destruct (Hl marker) as (resp & body & page & k & Hcall & Hbody & Hpage & Hparts & Hnext).
  rewrite Hafter in Hparts, Hnext. cbn [parts_loop]. rewrite Hcall. cbn beta iota. rewrite Hbody. cbn beta iota.
  rewrite Hpage. cbn beta iota. rewrite Hparts in *.
  assert (acc ++ take k rest ++ drop k rest = l) as Hsplit by (by rewrite take_drop).
  assert (StronglySorted number_lt ((acc ++ take k rest) ++ drop k rest)) as Hs' by (by rewrite <- (assoc_L (++)), Hsplit).
  apply StronglySorted_app in Hs' as (_ & Hs' & _).
  assert (Forall (λ q, default 0 marker < part_number q) (take k rest)) as Hgt.
  { apply Forall_take. rewrite <- Hafter. unfold after_marker. apply Forall_forall. intros q Hq.
    apply list_elem_of_In, filter_In in Hq as [_ Hq]. by apply Z.ltb_lt. }
  rewrite absorb_append; [|done|done|].
  2:{ rewrite <- Hsplit in Hlen. rewrite !length_app in *. lia. }
  cbn beta iota. case_bool_decide as Hd.
  - rewrite Hnext. by rewrite <- Hsplit, Hd, app_nil_r.
  - destruct Hnext as [Hk ->]. destruct rest as [|p0 rest']; [by rewrite drop_nil in Hd|].
    destruct (last (take k (p0 :: rest'))) as [p|] eqn:Hlast; cbn [option_map].
    2:{ apply last_None in Hlast. destruct k; [lia|]. by inversion Hlast. }
    assert (p ∈ take k (p0 :: rest')) as Hin by (by apply last_Some_elem_of).
    pose proof (proj1 (Forall_forall _ _) Hgt p Hin) as Hpgt. simpl in Hpgt.
    assert (1 ≤ part_number p ≤ MAX_OSS_PART_NUMBER) as Hpr.
    { eapply (proj1 (Forall_forall _ _) Hr). rewrite <- Hsplit. set_solver. }
    rewrite (proj2 (Z.ltb_ge _ _)) by lia. rewrite (proj2 (Z.leb_gt _ _)) by lia.
    rewrite bool_decide_true by done. cbn [orb negb].
    apply (IH _ _ (drop k (p0 :: rest'))).
    + by rewrite <- (assoc_L (++)).
    + right. exists p. by rewrite last_app, Hlast.
    + rewrite length_drop. simpl in *. lia.
    + destruct k as [|k]; [lia|]. simpl in Hd. destruct rest'; [by rewrite drop_nil in Hd|]. simpl in Hf. lia.
Qed.

Lemma pagination_limit : Z.of_nat MAX_OSS_PAGINATION_REQUESTS = MAX_OSS_PART_NUMBER.
Proof. vm_compute. done. Qed.

Lemma sorted_numbers_length lo l :
  StronglySorted number_lt l → Forall (λ p, lo < part_number p ≤ MAX_OSS_PART_NUMBER) l → lo ≤ MAX_OSS_PART_NUMBER →
  Z.of_nat (length l) ≤ MAX_OSS_PART_NUMBER - lo.
Proof.
  intros Hs. revert lo. induction Hs as [|p l Hs IH Hp]; intros lo Hr Hlo; simpl; [lia|].
  apply Forall_cons in Hr as [Hp' Hr]. pose proof (IH (part_number p)) as IH'.
  assert (Z.of_nat (length l) ≤ MAX_OSS_PART_NUMBER - part_number p); [|lia].
  apply IH'; [|lia]. apply Forall_forall. intros q Hq.
  pose proof (proj1 (Forall_forall _ _) Hp q Hq). pose proof (proj1 (Forall_forall _ _) Hr q Hq).
  unfold number_lt in *. simpl in *. lia.
Qed.

Lemma list_uploaded_parts_lists env t id l u :
  ot_parsed t = Ok u → lists_parts env t id l → StronglySorted number_lt l →
  Forall (λ p, 1 ≤ part_number p ≤ MAX_OSS_PART_NUMBER) l →
  list_uploaded_parts W parse_xml status_text env t id = Ok l.
Proof.
  intros Hu Hl Hs Hr. unfold list_uploaded_parts, parse_task_url. rewrite Hu.
  assert (Z.of_nat (length l) ≤ MAX_OSS_PART_NUMBER - 0) as Hlen.
  { apply sorted_numbers_length; [done| |done]. eapply Forall_impl; [exact Hr|]. simpl. lia. }
  apply (parts_loop_lists _ _ _ l _ None [] l); [done|done|done|lia|done|by left| |].
  - apply Nat2Z.inj_le. rewrite pagination_limit. lia.
  - apply Nat2Z.inj_lt. by rewrite pagination_limit.
Qed.

End Listing.

(** ** The plan of a task *)

Notation len l := (Z.of_nat (length l)).

(** The [n]-th part of the content under a chunk size. *)
Definition plan_part (content : list Z) (chunk n : Z) : list Z :=
  slice content ((n - 1) * chunk) (Z.min (n * chunk) (len content)).

(** Every part of the session is the content's part of that number. *)
Definition written_with (content : list Z) (chunk : Z) (srv : gmap Z (list Z)) : Prop :=
  ∀ n b, srv !! n = Some b →
    1 ≤ n ≤ MAX_OSS_PART_NUMBER ∧ (n - 1) * chunk < len content ∧ b = plan_part content chunk n.

(** Every part of the session has a number of the task's plan and the size the plan gives it. *)
Definition plan_sized (t : ProviderTask) (srv : gmap Z (list Z)) : Prop :=
  ∀ n b, srv !! n = Some b →
    (n - 1) * ot_chunk t < ot_total t ∧ len b = Z.min (ot_total t - (n - 1) * ot_chunk t) (ot_chunk t).

(** The part numbers the provider allows. *)
Definition numbered (srv : gmap Z (list Z)) : Prop := ∀ n, is_Some (srv !! n) → 1 ≤ n ≤ MAX_OSS_PART_NUMBER.

(** Numbers and sizes of the session's parts, in ascending order. *)
Definition describes (l : list OssPart) (srv : gmap Z (list Z)) : Prop :=
  StronglySorted number_lt l ∧ ∀ p, p ∈ l ↔ ∃ b, srv !! part_number p = Some b ∧ part_size p = len b.

(** The parts of a plan below an offset. *)
Definition holds_below (chunk off : Z) (srv : gmap Z (list Z)) : Prop :=
  ∀ n, 1 ≤ n → (n - 1) * chunk < off → is_Some (srv !! n).

Lemma length_plan_part content chunk n :
  0 < chunk → 1 ≤ n → (n - 1) * chunk < len content →
  len (plan_part content chunk n) = Z.min (len content - (n - 1) * chunk) chunk.
Proof. intros Hc Hn Hl. unfold plan_part. rewrite length_slice by nia. nia. Qed.

Section Resume.
Context (t : ProviderTask).
Context (Hchunk : 0 < ot_chunk t) (Htotal : 0 ≤ ot_total t ≤ U64_MAX).
Notation total_parts := (div_ceil (ot_total t) (ot_chunk t)).

Lemma part_in_plan n : n ≤ total_parts ↔ (n - 1) * ot_chunk t < ot_total t.
Proof. pose proof (div_ceil_spec (ot_total t) (ot_chunk t) ltac:(lia) Hchunk). nia. Qed.

Lemma expected_part_size_plan n :
  1 ≤ n → (n - 1) * ot_chunk t < ot_total t →
  expected_part_size (ot_total t) (ot_chunk t) (n - 1) = Ok (Z.min (ot_total t - (n - 1) * ot_chunk t) (ot_chunk t)).
Proof.
  intros Hn Hp. unfold expected_part_size.
  rewrite (proj2 (checked_mul_Some U64_MAX _ _ ((n - 1) * ot_chunk t))) by (unfold fits; nia). cbn [ok_or].
  rewrite (proj2 (checked_sub_Some _ _ (ot_total t - (n - 1) * ot_chunk t))) by lia. cbn [ok_or].
  by rewrite (proj2 (Z.eqb_neq _ _)) by lia.
Qed.

Lemma check_parts_Ok l :
  Forall (λ p, 1 ≤ part_number p) l →
  check_parts t total_parts l = Ok tt ↔
  Forall (λ p, (part_number p - 1) * ot_chunk t < ot_total t
    ∧ part_size p = Z.min (ot_total t - (part_number p - 1) * ot_chunk t) (ot_chunk t)) l.
Proof.
  induction 1 as [|p l Hp Hl IH]; cbn [check_parts]; [by split|]. rewrite Forall_cons, <- IH.
  destruct (Z.ltb_spec total_parts (part_number p)) as [Hgt|Hle].
  { split; [done|]. intros [[Hin _] _]. apply part_in_plan in Hin. lia. }
  apply part_in_plan in Hle as Hin.
  rewrite (proj2 (checked_sub_Some _ _ (part_number p - 1))) by lia. cbn [ok_or].
  rewrite expected_part_size_plan by done. case_match eqn:Hs; [|].
  - split; [done|]. intros [[_ Hsz] _]. rewrite Hsz, Z.eqb_refl in Hs. done.
  - apply negb_false_iff, Z.eqb_eq in Hs. naive_solver.
Qed.

Lemma check_present_Ok off ns l :
  check_present off ns l = Ok tt ↔ ∀ n, n ∈ ns → ∃ p, p ∈ l ∧ part_number p = n.
Proof.
  induction ns as [|n ns IH]; cbn [check_present].
  { split; [|done]. intros _ n Hn. by apply elem_of_nil in Hn. }
  destruct (existsb _ l) eqn:He.
  - rewrite IH. apply existsb_exists in He as (p & Hp & Heq). apply Z.eqb_eq in Heq. apply list_elem_of_In in Hp. split.
    + intros H m [->|Hm]%elem_of_cons; [by exists p|by apply H].
    + intros H m Hm. apply H. by right.
  - split; [done|]. intros H. destruct (H n) as (p & Hp & Hn); [by left|]. exfalso.
    rewrite <- not_true_iff_false, existsb_exists in He. apply He. exists p. split; [by apply list_elem_of_In|lia].
Qed.

(** The parts of the plan that start below a valid resume offset. *)
Lemma expected_parts_below off n :
  0 < off → validate_resume_offset t off = Ok tt → 1 ≤ n →
  n ≤ (if off =? ot_total t then total_parts else off / ot_chunk t) ↔ (n - 1) * ot_chunk t < off.
Proof.
  intros Ho Hv Hn. unfold validate_resume_offset in Hv. case_match eqn:Hgt; [done|]. case_match eqn:Hal; [done|].
  destruct (Z.eqb_spec off (ot_total t)) as [->|Hne]; [by apply part_in_plan|].
  simpl in Hal. apply negb_false_iff, Z.eqb_eq in Hal.
  pose proof (Z.div_mod off (ot_chunk t) ltac:(lia)). nia.
Qed.

(** Two chunk sizes that agree on the first part agree on every part both plans have. *)
Lemma plan_part_agree content c c' n :
  0 < c → 0 < c' → Z.min (len content) c = Z.min (len content) c' → 1 ≤ n →
  (n - 1) * c < len content → (n - 1) * c' < len content → plan_part content c n = plan_part content c' n.
Proof.
  intros Hc Hc' Hmin Hn Hp Hp'. destruct (decide (c = c')) as [->|Hne]; [done|].
  assert (n = 1) as -> by nia. unfold plan_part. f_equal; lia.
Qed.

Lemma validate_remote_parts_exact off l srv :
  0 < off → validate_resume_offset t off = Ok tt → describes l srv → numbered srv →
  validate_remote_parts_for_resume t off l = Ok tt ↔ plan_sized t srv ∧ holds_below (ot_chunk t) off srv.
Proof.
  intros Ho Hv [Hs Hl] Hnum. unfold validate_remote_parts_for_resume.
  assert (Forall (λ p, 1 ≤ part_number p) l) as Hpos.
  { apply Forall_forall. intros p (b & Hb & _)%Hl. by destruct (Hnum (part_number p)) as [? _]; [eexists|]. }
  assert (check_parts t total_parts l = Ok tt ↔ plan_sized t srv) as Hcp.
  { rewrite check_parts_Ok by done. rewrite Forall_forall. split.
    - intros H n b Hb. apply (H (mkOssPart n (len b))), Hl. by exists b.
    - intros H p (b & Hb & ->)%Hl. by apply H. }
  assert (check_present off (map Z.of_nat (seq 1 (Z.to_nat
    (if off =? ot_total t then total_parts else off / ot_chunk t)))) l = Ok tt ↔ holds_below (ot_chunk t) off srv) as Hpr.
  { rewrite check_present_Ok. unfold holds_below. split.
    - intros H n Hn Hb. apply (expected_parts_below off n Ho Hv Hn) in Hb.
      destruct (H n) as (p & (b & Hb' & _)%Hl & <-); [|by exists b].
      apply list_elem_of_fmap. exists (Z.to_nat n). split; [lia|]. apply elem_of_seq. lia.
    - intros H n (m & -> & Hm%elem_of_seq)%list_elem_of_fmap. set (e := if off =? _ then _ else _) in Hm.
      destruct (H (Z.of_nat m)) as [b Hb]; [lia|apply (expected_parts_below off); [done|done|lia|unfold e in Hm; lia]|].
      exists (mkOssPart (Z.of_nat m) (len b)). split; [|done]. apply Hl. by exists b. }
  rewrite <- Hcp, <- Hpr. destruct (check_parts t total_parts l) as [[]|e]; naive_solver.
Qed.

(** Parts cut from one content with any chunk size, of the plan's sizes and with the first one
    present, are the plan's parts of that content. *)
Lemma sized_parts_are_content off content c srv :
  0 < off → ot_total t = len content → 0 < c → written_with content c srv →
  plan_sized t srv → holds_below (ot_chunk t) off srv → written_with content (ot_chunk t) srv.
Proof.
  intros Ho Ht Hc Hw Hsz Hb n b Hnb. destruct (Hw n b Hnb) as (Hn & Hp & ->). destruct (Hsz n _ Hnb) as [Hin _].
  split; [done|]. split; [lia|]. destruct (Hb 1) as [b1 Hb1]; [lia|lia|]. destruct (Hsz 1 _ Hb1) as [Hin1 Hsz1].
  destruct (Hw 1 b1 Hb1) as (_ & Hp1 & ->). rewrite length_plan_part in Hsz1 by lia. apply plan_part_agree; lia.
Qed.

End Resume.

(** ** Joining the parts of a plan *)

(** [k] consecutive parts after the first [a], joined. *)
Definition join_parts (part : Z → option (list Z)) (a k : nat) : list Z :=
  mjoin (map (λ n, default [] (part (Z.of_nat n))) (seq (S a) k)).

Lemma join_parts_S part a k : join_parts part a (S k) = join_parts part a k ++ default [] (part (Z.of_nat (S a + k))).
Proof. unfold join_parts. rewrite seq_S, map_app, join_app. cbn [map mjoin list_join]. by rewrite app_nil_r. Qed.

Lemma join_parts_split part k n : (k ≤ n)%nat → join_parts part 0 n = join_parts part 0 k ++ join_parts part k (n - k).
Proof.
  intros Hk. unfold join_parts. rewrite <- join_app, <- map_app.
  change (S k) with (1 + k)%nat. by rewrite <- seq_app, <- Nat.le_add_sub.
Qed.

Section Grid.
Context (content : list Z) (chunk : Z) (Hchunk : 0 < chunk).

(** A part of the size the plan gives its number. *)
Definition sized_part (n : Z) (part : option (list Z)) : Prop :=
  ∃ b, part = Some b ∧ len b = Z.min (len content - (n - 1) * chunk) chunk.

Lemma length_join_parts part k :
  (∀ n, 1 ≤ n ≤ Z.of_nat k → (n - 1) * chunk < len content ∧ sized_part n (part n)) →
  len (join_parts part 0 k) = Z.min (Z.of_nat k * chunk) (len content).
Proof.
  induction k as [|k IH]; intros Hp; [unfold join_parts; simpl; lia|].
  rewrite join_parts_S, length_app, Nat2Z.inj_add, IH by (intros; apply Hp; lia).
  destruct (Hp (Z.of_nat (1 + k))) as (Hlt & b & -> & Hlen); [lia|]. simpl default. nia.
Qed.

(** The content's parts joined are its slice. *)
Lemma content_join_parts part a k :
  (∀ n, Z.of_nat a < n ≤ Z.of_nat (a + k) →
     part n = if decide ((n - 1) * chunk < len content) then Some (plan_part content chunk n) else None) →
  join_parts part a k
  = slice content (Z.min (Z.of_nat a * chunk) (len content)) (Z.min (Z.of_nat (a + k) * chunk) (len content)).
Proof.
  induction k as [|k IH]; intros Hb; [rewrite Nat.add_0_r; by rewrite slice_nil|].
  rewrite join_parts_S, IH by (intros; apply Hb; lia). rewrite Hb by lia. case_decide as Hlt; cbn [default Datatypes.id].
  - unfold plan_part.
    replace ((Z.of_nat (S a + k) - 1) * chunk) with (Z.min (Z.of_nat (a + k) * chunk) (len content)) by lia.
    rewrite slice_app by nia. f_equal. lia.
  - rewrite app_nil_r. f_equal. lia.
Qed.

Lemma slice_to_end off : 0 ≤ off → slice content off (len content) = drop (Z.to_nat off) content.
Proof. intros Ho. unfold slice. apply take_ge. rewrite length_drop. lia. Qed.

(** The number of parts below an offset of the plan, which is where the last of them ends. *)
Lemma parts_below start :
  0 ≤ start ≤ len content → start = len content ∨ start mod chunk = 0 →
  ∃ k : nat, Z.min (Z.of_nat k * chunk) (len content) = start
    ∧ Z.of_nat k * chunk < start + chunk ∧ Z.of_nat k ≤ div_ceil (len content) chunk.
Proof.
  intros Hs Hal. pose proof (div_ceil_spec (len content) chunk ltac:(lia) Hchunk) as Hd.
  destruct (decide (start = len content)) as [->|Hne].
  - exists (Z.to_nat (div_ceil (len content) chunk)). rewrite Z2Nat.id by nia. split; [|split]; nia.
  - destruct Hal as [?|Hal]; [done|]. pose proof (Z.div_mod start chunk ltac:(lia)) as Hdm.
    pose proof (Z.div_pos start chunk ltac:(lia) ltac:(lia)).
    exists (Z.to_nat (start / chunk)). rewrite Z2Nat.id by lia. split; [|split]; nia.
Qed.

(** Parts kept below an offset and the content's parts from it on join to the kept bytes followed
    by the rest of the content. *)
Lemma kept_and_rest kept part start N :
  0 ≤ start ≤ len content → start = len content ∨ start mod chunk = 0 → div_ceil (len content) chunk ≤ Z.of_nat N →
  (∀ n, 1 ≤ n → (n - 1) * chunk < start → part n = kept n ∧ sized_part n (kept n)) →
  (∀ n, 1 ≤ n ≤ Z.of_nat N → start ≤ (n - 1) * chunk →
     part n = if decide ((n - 1) * chunk < len content) then Some (plan_part content chunk n) else None) →
  join_parts part 0 N = take (Z.to_nat start) (join_parts kept 0 N) ++ drop (Z.to_nat start) content
  ∧ (start = 0 ∨ (∀ n, 1 ≤ n → (n - 1) * chunk < start → kept n = Some (plan_part content chunk n)) →
     join_parts part 0 N = content).
Proof.
  intros Hs Hal HN Hkept Hpart. destruct (parts_below start Hs Hal) as (k & Hks & Hlt & Hmx).
  assert (k ≤ N)%nat as HkN by lia. pose proof (div_ceil_spec (len content) chunk ltac:(lia) Hchunk) as Hd.
  assert (join_parts part 0 k = join_parts kept 0 k) as Hsame.
  { unfold join_parts. f_equal. apply map_ext_in. intros n [Hn1 Hn2]%in_seq. f_equal. apply Hkept; nia. }
  assert (join_parts part k (N - k) = drop (Z.to_nat start) content) as Hrest.
  { rewrite content_join_parts.
    - rewrite Hks, Z.min_r; [apply slice_to_end; lia|]. rewrite <- Nat.le_add_sub by done. nia.
    - intros n Hn. apply Hpart; nia. }
  assert (take (Z.to_nat start) (join_parts kept 0 N) = join_parts kept 0 k) as Htake.
  { rewrite (join_parts_split kept k N HkN). apply take_app_length'. apply Nat2Z.inj.
    rewrite length_join_parts, Hks; [lia|]. intros n Hn. split; [nia|]. apply Hkept; nia. }
  rewrite (join_parts_split part k N HkN), Hsame, Hrest, Htake. split; [done|]. intros Hc.
  rewrite <- (take_drop (Z.to_nat start) content) at 2. f_equal.
  destruct Hc as [->|Hc]; [by destruct k as [|k]; [|lia]|]. rewrite content_join_parts.
  - rewrite Z.min_l, Nat.add_0_l, Hks by lia. unfold slice. by rewrite Z.sub_0_r, drop_0.
  - intros n Hn. rewrite decide_True by nia. apply Hc; nia.
Qed.

End Grid.

(** ** The object *)

(** CompleteMultipartUpload with [x-oss-complete-all] merges all the parts of the session in
    ascending order of their numbers. *)
Definition assemble (srv : gmap Z (list Z)) : list Z :=
  join_parts (λ n, srv !! n) 0 (Z.to_nat MAX_OSS_PART_NUMBER).

(** UploadPart as documented: a success answer means the part is stored, replacing one of the same
    number; after any other answer, or none, it may be stored. *)
Definition stores_part (env : OssEnv) (id : list Z) (n : Z) (body : list Z) (srv srv' : gmap Z (list Z)) : Prop :=
  srv' = <[n := body]> srv
  ∨ srv' = srv ∧ (∀ resp, oe_send env (PutPart n id body) = Ok resp → is_success (resp_status (or_http resp)) = false).

Section Object.
Context (status_text : Z → string) (content : list Z) (t : ProviderTask) (s : MultipartSession) (id : list Z).

Context (start : Z).

(** One attempt to upload the chunk at a grid offset from [start] on, in any order and any number
    of times; [acked] are the offsets whose upload returned [Ok]. *)
Inductive oss_up_step : gmap Z (list Z) * gset Z → gmap Z (list Z) * gset Z → Prop :=
| oss_put env off srv srv' acked :
    start ≤ off < len content → off mod ot_chunk t = 0 →
    let body := slice content off (Z.min (off + ot_chunk t) (len content)) in
    stores_part env id (off / ot_chunk t + 1) body srv srv' →
    oss_up_step (srv, acked)
      (srv', match oss_upload_chunk status_text env t off body s with Ok _ => {[off]} ∪ acked | Err _ => acked end).

Context (Hchunk : 0 < ot_chunk t) (Htotal : ot_total t = len content) (Hu64 : len content ≤ U64_MAX).
Context (Hmax : div_ceil (ot_total t) (ot_chunk t) ≤ MAX_OSS_PART_NUMBER) (Hid : upload_id s = Some id).
Context (Hstart : 0 ≤ start) (Hresume : validate_resume_offset t start = Ok tt).

Lemma grid_part off :
  0 ≤ off < len content → off mod ot_chunk t = 0 → let n := off / ot_chunk t + 1 in
  1 ≤ n ≤ MAX_OSS_PART_NUMBER ∧ (n - 1) * ot_chunk t = off
  ∧ slice content off (Z.min (off + ot_chunk t) (len content)) = plan_part content (ot_chunk t) n.
Proof.
  intros Ho Hm n. pose proof (Z.div_mod off (ot_chunk t) ltac:(lia)) as Hd.
  assert ((n - 1) * ot_chunk t = off) as Hn by (unfold n; nia).
  assert (n ≤ div_ceil (ot_total t) (ot_chunk t)).
  { apply part_in_plan; lia. }
  split; [unfold n in *; split; [|lia]; pose proof (Z.div_pos off (ot_chunk t) ltac:(lia) ltac:(lia)); lia|].
  split; [done|]. unfold plan_part. rewrite Hn. f_equal. lia.
Qed.

Lemma resume_offset_grid off :
  validate_resume_offset t off = Ok tt → off ≤ ot_total t ∧ (off = ot_total t ∨ off mod ot_chunk t = 0).
Proof.
  unfold validate_resume_offset. destruct (Z.ltb_spec (ot_total t) off) as [|Hle]; [done|]. intros H. split; [done|].
  destruct (Z.eqb_spec off (ot_total t)) as [|Hne]; [by left|right]. cbn [negb andb] in H.
  destruct (Z.eqb_spec (off mod ot_chunk t) 0) as [|]; done.
Qed.

(** An acknowledged chunk was accepted by the server under its part number. *)
Lemma upload_chunk_accepted env off body info :
  oss_upload_chunk status_text env t off body s = Ok info →
  ∃ resp, oe_send env (PutPart (off / ot_chunk t + 1) id body) = Ok resp
    ∧ is_success (resp_status (or_http resp)) = true.
Proof.
  unfold oss_upload_chunk, oss_part_number. rewrite Hid. destruct (validate_oss_task t); [|done]. cbn [ok_or].
  case_match; [done|]. unfold oss_call, oss_call_with. destruct (reject_reserved t); [|done].
  destruct (oe_sign env _); [done|]. destruct (oe_send env _) as [resp|]; [|done].
  destruct (is_success _) eqn:Hok; [|done]. intros _. by exists resp.
Qed.

(** The session has the plan's sizes, is what it was below [start], and has the content's part for
    every acknowledged chunk. *)
Definition up_inv (srv0 : gmap Z (list Z)) (st : gmap Z (list Z) * gset Z) : Prop :=
  plan_sized t st.1 ∧ (∀ n, (n - 1) * ot_chunk t < start → st.1 !! n = srv0 !! n)
  ∧ ∀ off, off ∈ st.2 → st.1 !! (off / ot_chunk t + 1) = Some (plan_part content (ot_chunk t) (off / ot_chunk t + 1)).

Lemma oss_step_inv srv0 st st' : oss_up_step st st' → up_inv srv0 st → up_inv srv0 st'.
Proof.
  intros [env off srv srv' acked Ho Hm body Hs] (Hw & Hk & Ha). unfold up_inv in *. cbn [fst snd] in *.
  destruct (grid_part off ltac:(lia) Hm) as (Hn & Hoff & Hbody). fold body in Hbody.
  set (n := off / ot_chunk t + 1) in *.
  assert (srv' = <[n := body]> srv ∨ srv' = srv) as Hcases by (destruct Hs as [?|[? _]]; tauto).
  split; [|split].
  - destruct Hcases as [-> | ->]; [|done]. intros m b [[<- <-]|[_ Hb]]%lookup_insert_Some; [|by apply Hw].
    split; [lia|]. rewrite Hbody, length_plan_part by lia. by rewrite Htotal.
  - intros m Hlt. destruct Hcases as [-> | ->]; [|by apply Hk]. rewrite lookup_insert_ne; [by apply Hk|]. intros <-. lia.
  - assert (∀ o, o ∈ acked → srv' !! (o / ot_chunk t + 1) = Some (plan_part content (ot_chunk t) (o / ot_chunk t + 1))) as Hold.
    { intros o Hin. destruct Hcases as [-> | ->]; [|by apply Ha].
      destruct (decide (n = o / ot_chunk t + 1)) as [<-|Hne]; [by rewrite lookup_insert_eq, Hbody|].
      rewrite lookup_insert_ne by done. by apply Ha. }
    destruct (oss_upload_chunk _ _ _ _ _ _) as [info|] eqn:Hup; [|done].
    intros o [->%elem_of_singleton|Hin]%elem_of_union; [|by apply Hold].
    apply upload_chunk_accepted in Hup as (resp & Hsend & Hok). destruct Hs as [->|[_ Hno]].
    + fold n. by rewrite lookup_insert_eq, Hbody.
    + by rewrite (Hno resp Hsend) in Hok.
Qed.

Lemma oss_steps_inv srv0 st st' : rtc oss_up_step st st' → up_inv srv0 st → up_inv srv0 st'.
Proof. induction 1; eauto using oss_step_inv. Qed.

(** C13: over a session whose parts have the numbers and sizes of the plan, none missing below the
    resume offset, whatever the order of the chunk uploads and however many are lost and repeated:
    once every chunk from the resume offset on was acknowledged, the parts assemble to exactly the
    bytes kept below that offset followed by the content from it. That is the content when the
    upload starts at zero or the parts kept were cut from the content, which the code does not
    check. *)
Theorem oss_object_is_content srv0 srv acked :
  plan_sized t srv0 → holds_below (ot_chunk t) start srv0 → rtc oss_up_step (srv0, ∅) (srv, acked) →
  (∀ o, start ≤ o < len content → o mod ot_chunk t = 0 → o ∈ acked) →
  assemble srv = take (Z.to_nat start) (assemble srv0) ++ drop (Z.to_nat start) content
  ∧ (start = 0 ∨ written_with content (ot_chunk t) srv0 → assemble srv = content).
Proof.
  intros Hw Hb Hsteps Hall.
  assert (up_inv srv0 (srv, acked)) as (Hw' & Hk & Ha).
  { apply (oss_steps_inv srv0 _ _ Hsteps). split; [done|split; [done|set_solver]]. }
  cbn [fst snd] in *. destruct (resume_offset_grid start Hresume) as [Hle Hal].
  assert (∀ n, 1 ≤ n → (n - 1) * ot_chunk t < start → sized_part content (ot_chunk t) n (srv0 !! n)) as Hsz.
  { intros n Hn Hlt. destruct (Hb n Hn Hlt) as [b Hn']. destruct (Hw n b Hn') as [_ Hlen]. exists b. by rewrite <- Htotal. }
  destruct (kept_and_rest content (ot_chunk t) Hchunk (λ n, srv0 !! n) (λ n, srv !! n) start
    (Z.to_nat MAX_OSS_PART_NUMBER)) as [H1 H2]; [lia|by rewrite <- Htotal|rewrite <- Htotal; lia| | |].
  - intros n Hn Hlt. split; [by apply Hk|by apply Hsz].
  - intros n Hn Hge. case_decide as Hin.
    + replace n with ((n - 1) * ot_chunk t / ot_chunk t + 1) by (rewrite Z.div_mul; lia).
      apply Ha, Hall; [lia|]. by apply Z.mod_mul; lia.
    + destruct (srv !! n) as [b|] eqn:Hb'; [|done]. destruct (Hw' n b Hb'). lia.
  - split; [exact H1|]. intros Hc. apply H2. destruct Hc as [->|Hc]; [by left|right].
    intros n Hn Hlt. destruct (Hsz n Hn Hlt) as (b & Hb' & _). by destruct (Hc n b Hb') as (_ & _ & <-).
Qed.

End Object.

(** C14: with no session at hand and a positive offset, and whatever parts the session found on the
    server holds, the upload is resumed over it exactly when the offset is valid for the task's
    chunk size, every part there has a number and the size of the task's plan, and no part below
    the offset is missing. A session written from a content with another chunk size is then only
    resumed when its parts are also the parts of this one. *)
Theorem oss_resume_exact W parse_xml status_text env t off s u id l srv :
  0 < ot_chunk t → 0 < off → 0 ≤ ot_total t ≤ U64_MAX → ot_parsed t = Ok u → validate_oss_task t = Ok tt →
  upload_id s = None ∨ target_url s ≠ Some (ot_url t) →
  try_adopt_upload_id_from_list W parse_xml status_text env t = Ok (Some id) →
  lists_parts W parse_xml status_text env t id l → describes l srv → numbered srv →
  (oss_prepare W parse_xml status_text env t off s = (mkSession (Some (ot_url t)) (Some id), Ok (resume_info off id))
   ↔ validate_resume_offset t off = Ok tt ∧ plan_sized t srv ∧ holds_below (ot_chunk t) off srv)
  ∧ (∀ content c, ot_total t = len content → 0 < c → written_with content c srv →
     plan_sized t srv → holds_below (ot_chunk t) off srv → written_with content (ot_chunk t) srv).
Proof.
  intros Hc Ho Ht Hp Hv Hs Hadopt Hl Hd Hnum. split.
  2:{ intros content c Ht' Hc' Hw Hsz Hb. by apply (sized_parts_are_content t Hc off content c). }
  unfold oss_prepare. rewrite Hv. set (s' := if bool_decide (target_url s = Some (ot_url t)) then s else _).
  assert (upload_id s' = None) as ->.
  { unfold s'. case_bool_decide; [by destruct Hs|done]. }
  rewrite (proj2 (Z.ltb_lt _ _)) by done.
  destruct (validate_resume_offset t off) as [[]|e] eqn:Hoff; [|split; [by intros [=]|by intros [[=] _]]].
  rewrite Hadopt. cbn [ok_or].
  rewrite (list_uploaded_parts_lists W parse_xml status_text env t id l u Hp Hl (proj1 Hd)).
  2:{ apply Forall_forall. intros p (b & Hb & _)%Hd. apply Hnum. by eexists. }
  rewrite <- (validate_remote_parts_exact t Hc Ht off l srv Ho Hoff Hd Hnum).
  destruct (validate_remote_parts_for_resume t off l) as [[]|e]; [done|]. split; [by intros [=]|by intros [_ [=]]].
Qed.

(** ** A three-byte object in two parts *)

Definition demo_content : list Z := [1; 2; 3].
Definition demo_task : ProviderTask := mkProviderTask (bs "https://b/k") (Ok (mkProviderUrl [] (bs "/k"))) 3 2.
Definition demo_uploads : list Z :=
  bs "<ListMultipartUploadsResult><Upload><Key>k</Key><UploadId>U</UploadId></Upload></ListMultipartUploadsResult>".
Definition demo_parts : list Z :=
  bs "<ListPartsResult><Part><PartNumber>1</PartNumber><Size>2</Size></Part></ListPartsResult>".
Definition demo_no_parts : list Z := bs "<ListPartsResult></ListPartsResult>".
Definition leaf (tag text : string) : XmlNode := XmlElement (bs tag) None [XmlText (bs text)].
Definition demo_parse (xml : list Z) : option (list XmlNode) :=
  if bool_decide (xml = demo_uploads) then
    Some [XmlElement (bs "ListMultipartUploadsResult") None
      [XmlElement (bs "Upload") None [leaf "Key" "k"; leaf "UploadId" "U"]]]
  else if bool_decide (xml = demo_parts) then
    Some [XmlElement (bs "ListPartsResult") None [XmlElement (bs "Part") None [leaf "PartNumber" "1"; leaf "Size" "2"]]]
  else if bool_decide (xml = demo_no_parts) then Some [XmlElement (bs "ListPartsResult") None []]
  else None.
Definition demo_answer (body : list Z) : OssResponse :=
  mkOssResponse (mkResponse 200 {[ "etag" := [bs "e"] ]} [BodyChunk body]) None.
Definition demo_env : OssEnv :=
  mkOssEnv (λ _, None)
    (λ req, match req with
            | ListUploads _ => Ok (demo_answer demo_uploads)
            | ListParts _ m => Ok (demo_answer (if default 0 m <? 1 then demo_parts else demo_no_parts))
            | PutPart _ _ _ => Ok (demo_answer [])
            | _ => Err "unreachable"
            end)
    (λ _, "") (λ _, "").

Lemma demo_lists : lists_parts 64 demo_parse pretty demo_env demo_task (bs "U") [mkOssPart 1 2].
Proof.
  intros marker. assert (after_marker marker [mkOssPart 1 2] = if default 0 marker <? 1 then [mkOssPart 1 2] else []) as ->.
  { unfold after_marker. cbn [List.filter part_number]. by destruct (default 0 marker <? 1). }
  destruct (default 0 marker <? 1) eqn:Hm.
  - exists (demo_answer demo_parts), demo_parts, (mkPartPage [mkOssPart 1 2] None), 1%nat.
    split; [|split; [|split; [|split]]]; try (vm_compute; done).
    unfold oss_call, oss_call_with. cbn [demo_env oe_sign oe_send]. rewrite Hm. vm_compute. done.
  - exists (demo_answer demo_no_parts), demo_no_parts, (mkPartPage [] None), 0%nat.
    split; [|split; [|split; [|split]]]; try (vm_compute; done).
    unfold oss_call, oss_call_with. cbn [demo_env oe_sign oe_send]. rewrite Hm. vm_compute. done.
Qed.

Definition demo_srv : gmap Z (list Z) := {[ 1 := [1; 2] ]}.

Lemma demo_written : written_with demo_content 2 demo_srv.
Proof. unfold demo_srv. intros n b [<- <-]%lookup_singleton_Some. vm_compute. done. Qed.

Lemma demo_describes : describes [mkOssPart 1 2] demo_srv.
Proof.
  split; [repeat constructor|]. intros p. rewrite list_elem_of_singleton. split.
  - intros ->. by exists [1; 2].
  - destruct p as [n sz]. simpl. unfold demo_srv. intros (b & [<- <-]%lookup_singleton_Some & ->). done.
Qed.

Lemma demo_numbered : numbered demo_srv.
Proof. unfold demo_srv. intros n [b [<- _]%lookup_singleton_Some]. vm_compute. split; discriminate. Qed.

Lemma demo_sized : plan_sized demo_task demo_srv.
Proof. unfold demo_srv. intros n b [<- <-]%lookup_singleton_Some. vm_compute. done. Qed.

Lemma demo_below : holds_below 2 2 demo_srv.
Proof. intros n Hn Hlt. assert (n = 1) as -> by lia. by exists [1; 2]. Qed.

(** Resuming over the server's part. *)
Lemma oss_resume_exact_witness :
  oss_prepare 64 demo_parse pretty demo_env demo_task 2 session_default
  = (mkSession (Some (ot_url demo_task)) (Some (bs "U")), Ok (resume_info 2 (bs "U"))).
Proof.
  apply (oss_resume_exact 64 demo_parse pretty demo_env demo_task 2 session_default (mkProviderUrl [] (bs "/k")) (bs "U")
    [mkOssPart 1 2] demo_srv);
    [vm_compute; reflexivity|vm_compute; reflexivity|vm_compute; split; discriminate
    |reflexivity|vm_compute; reflexivity|left; reflexivity|vm_compute; reflexivity|..].
  - exact demo_lists.
  - exact demo_describes.
  - exact demo_numbered.
  - split; [vm_compute; reflexivity|]. split; [exact demo_sized|exact demo_below].
Defined.

Lemma oss_object_is_content_witness :
  assemble {[ 1 := [1; 2]; 2 := [3] ]} = demo_content.
Proof.
  apply (oss_object_is_content pretty demo_content demo_task (mkSession None (Some (bs "U"))) (bs "U") 2
    ltac:(done) ltac:(done) ltac:(by vm_compute) ltac:(by vm_compute) ltac:(done) ltac:(done) ltac:(by vm_compute)
    demo_srv _ {[ 2 ]}).
  - exact demo_sized.
  - exact demo_below.
  - eapply rtc_l; [|apply rtc_refl].
    pose proof (oss_put pretty demo_content demo_task (mkSession None (Some (bs "U"))) (bs "U") 2 demo_env 2 demo_srv
      (<[2 := [3]]> demo_srv) ∅ ltac:(by vm_compute) ltac:(done)) as Hput. cbv zeta in Hput.
    replace ({[ 1 := [1; 2]; 2 := [3] ]} : gmap Z (list Z), ({[ 2 ]} : gset Z))
      with (<[2 := [3]]> demo_srv, ({[ 2 ]} ∪ ∅ : gset Z)) by (vm_compute; done).
    apply Hput. by left.
  - intros o Ho Hm. simpl in *. change (len demo_content) with 3 in Ho. assert (o = 2) as -> by lia. set_solver.
  - right. exact demo_written.
Defined.
