(* ===== verification/PresignedUpload.v ===== *)
(** * Presigned multipart uploads

    [src/presigned/multipart_upload.rs] and its plan types: every part of an upload has a URL that
    the application signed beforehand; the client keeps the list of the parts it uploaded, resumes
    after the contiguous prefix of a persisted list and hands the list to the completion request.

    The clock, the URL refresher, the HTTP client, the JSON encoder and the application's body
    builder are parameters; the mutex around the list makes each access one step. *)
From stdpp Require Import sorting.
From S2P Require Import Prelude Errors HttpHeaders DownloadIdentity RangeDownload DownloadPrepare.
From S2P Require Import UploadFile UploadChunks.
#[local] Open Scope Z_scope.

(** ** Data *)

Record PresignedUploadPart := mkUploadPart {
  up_number : Z;
  up_offset : Z;
  up_size : Z;
  up_method : string;
  up_url : string;
  up_provider_id : option string;
  up_expires_at : option Z;
  up_headers : HeaderMap;
}.
(** [PresignedUploadPart::put] *)
Definition put_part (number offset size : Z) (url : string) : PresignedUploadPart :=
  mkUploadPart number offset size "PUT" url None None ∅.

Record PresignedUploadedPart := mkUploaded {
  pu_number : Z;
  pu_provider_id : option string;
  pu_offset : Z;
  pu_size : Z;
  pu_etag : option (list Z);
}.
#[export] Instance PresignedUploadedPart_eq_dec : EqDecision PresignedUploadedPart.
Proof. solve_decision. Defined.

Fixpoint trim_left_quotes (l : list Z) : list Z :=
  match l with b :: r => if b =? 34 then trim_left_quotes r else l | [] => [] end.
(** [etag_unquoted]: [trim_matches] of the double quote. *)
Definition etag_unquoted (part : PresignedUploadedPart) : option (list Z) :=
  option_map (λ etag, reverse (trim_left_quotes (reverse (trim_left_quotes etag)))) (pu_etag part).

Record CompletionRequest := mkCompletion {
  cr_method : string;
  cr_url : string;
  cr_headers : HeaderMap;
  cr_body : option (list Z);
  cr_uploaded_parts_json_body : bool;
}.
(** [CompletionRequest::new] *)
Definition completion_request (method url : string) : CompletionRequest := mkCompletion method url ∅ None false.

(** The application's body builder is given the plan's fields and the parts. *)
Record PresignedMultipartUploadPlan := mkPlan {
  pl_upload_id : option string;
  pl_metadata : gmap string string;
  pl_total_size : Z;
  pl_chunk_size : Z;
  pl_parts : list PresignedUploadPart;
  pl_complete_request : option CompletionRequest;
  pl_abort_request : option CompletionRequest;
  pl_complete_body_builder : option (list PresignedUploadedPart → result (list Z) MeowError);
  pl_refresh_before_secs : Z;
}.
(** [PresignedMultipartUploadPlan::new] *)
Definition upload_plan (total_size chunk_size : Z) (parts : list PresignedUploadPart) : PresignedMultipartUploadPlan :=
  mkPlan None ∅ total_size chunk_size parts None None None 60.

Fixpoint validate_plan_parts (total_size : Z) (parts : list PresignedUploadPart) (offsets : list Z)
    : result unit MeowError :=
  match parts with
  | [] => Ok tt
  | part :: parts =>
      let name := "presigned part " +:+ pretty (up_number part) in
      if up_size part =? 0 then Err (from_code InvalidRange (name +:+ " has zero size"))
      else
        let? end_ := ok_or (checked_add U64_MAX (up_offset part) (up_size part))
          (from_code InvalidRange (name +:+ " range overflow")) in
        if total_size <? end_ then
          Err (from_code InvalidRange (name +:+ " out of range: end=" +:+ pretty end_ +:+ " total=" +:+ pretty total_size))
        else if bool_decide (up_offset part ∈ offsets) then
          Err (from_code InvalidRange ("duplicate presigned part offset: " +:+ pretty (up_offset part)))
        else validate_plan_parts total_size parts (up_offset part :: offsets)
  end.

Definition validate_plan (plan : PresignedMultipartUploadPlan) : result unit MeowError :=
  if pl_chunk_size plan =? 0 then
    Err (from_code_str ParameterEmpty "presigned plan chunk_size must be greater than zero")
  else if (0 <? pl_total_size plan) && bool_decide (pl_parts plan = []) then
    Err (from_code_str ParameterEmpty "presigned plan parts must not be empty for non-empty upload")
  else validate_plan_parts (pl_total_size plan) (pl_parts plan) [].

Definition part_for_offset (plan : PresignedMultipartUploadPlan) (offset : Z) : option PresignedUploadPart :=
  List.find (λ p, up_offset p =? offset) (pl_parts plan).

(** ** Sorting *)

(** Rust's stable [sort_by_key]. *)
Fixpoint insert_by {A} (leb : A → A → bool) (x : A) (l : list A) : list A :=
  match l with
  | [] => [x]
  | y :: l' => if leb x y then x :: l else y :: insert_by leb x l'
  end.
Definition sort_by {A} (leb : A → A → bool) (l : list A) : list A := foldr (insert_by leb) [] l.

(** [dedup_by_key]: the first of a run of equal keys stays. *)
Fixpoint dedup_by {A} (key : A → Z) (prev : option Z) (l : list A) : list A :=
  match l with
  | [] => []
  | x :: l => if bool_decide (prev = Some (key x)) then dedup_by key prev l else x :: dedup_by key (Some (key x)) l
  end.

Definition by_offset (a b : PresignedUploadedPart) : bool := pu_offset a <=? pu_offset b.
Definition by_number (a b : PresignedUploadedPart) : bool := pu_number a <=? pu_number b.
Definition by_offset_number (a b : PresignedUploadedPart) : bool :=
  (pu_offset a <? pu_offset b) || ((pu_offset a =? pu_offset b) && (pu_number a <=? pu_number b)).

Definition sort_dedup_completion_parts (parts : list PresignedUploadedPart) : list PresignedUploadedPart :=
  sort_by by_number (dedup_by pu_offset None (sort_by by_offset_number parts)).

(** ** The protocol *)

Record PresignedTask := mkPresignedTask {
  pt_total : Z;
  pt_chunk : Z;
  pt_stop_requested : bool;
}.

(** The mutable part of [PresignedMultipartUpload]. *)
Record PresignedState := mkPresignedState {
  ps_uploaded : list PresignedUploadedPart;
  ps_resumed_error : option MeowError;
}.

Record PresignedEnv := mkPresignedEnv {
  (** the successive readings of [now_unix_secs] *)
  pe_now_refresh : result Z MeowError;
  pe_now_expired : result Z MeowError;
  pe_send_part : PresignedUploadPart → list Z → result HttpResponse string;
  pe_send_callback : CompletionRequest → option (list Z) → result HttpResponse string;
  (** [Response::text] *)
  pe_text : HttpResponse → result (list Z) string;
  (** [redact_secrets] *)
  pe_redact : list Z → string;
}.

Definition task_state_error (m : string) : MeowError := from_code InvalidTaskState m.

Section Presigned.
Context (status_text : Z → string).
Context (plan : PresignedMultipartUploadPlan).
Context (refresher : option (PresignedUploadPart → result PresignedUploadPart MeowError)).
(** [serde_json::to_vec] of the completion body *)
Context (to_json : option string → Z → Z → list PresignedUploadedPart → result (list Z) string).

Definition is_expired (now : result Z MeowError) (part : PresignedUploadPart) : result bool MeowError :=
  match up_expires_at part with
  | None => Ok false
  | Some expires_at => let? now := now in Ok (expires_at <=? now)
  end.

Definition should_refresh_part (now : result Z MeowError) (part : PresignedUploadPart) : result bool MeowError :=
  match up_expires_at part with
  | None => Ok false
  | Some expires_at => let? now := now in Ok (expires_at <=? sat_add U64_MAX now (pl_refresh_before_secs plan))
  end.

Definition triple (p : PresignedUploadPart) : string :=
  "(" +:+ pretty (up_number p) +:+ ", " +:+ pretty (up_offset p) +:+ ", " +:+ pretty (up_size p) +:+ ")".

Definition part_for_upload (env : PresignedEnv) (offset : Z) : result PresignedUploadPart MeowError :=
  let? part := ok_or (part_for_offset plan offset)
    (from_code InvalidRange ("missing presigned upload part for offset " +:+ pretty offset)) in
  let? refresh := should_refresh_part (pe_now_refresh env) part in
  if negb refresh then Ok part
  else
    match refresher with
    | None =>
        let? expired := is_expired (pe_now_expired env) part in
        if expired then
          Err (task_state_error ("presigned upload part " +:+ pretty (up_number part)
            +:+ " URL expired and no refresher is configured"))
        else Ok part
    | Some refresh_upload_part =>
        let? refreshed := refresh_upload_part part in
        if negb (up_number refreshed =? up_number part) || negb (up_offset refreshed =? up_offset part)
           || negb (up_size refreshed =? up_size part)
           || (bool_decide (is_Some (up_provider_id part))
               && negb (bool_decide (up_provider_id refreshed = up_provider_id part)))
        then
          Err (task_state_error ("refreshed presigned part mismatch: old=" +:+ triple part +:+ " new=" +:+ triple refreshed))
        else
          let? expired := is_expired (pe_now_expired env) refreshed in
          if expired then
            Err (task_state_error ("refreshed presigned upload part " +:+ pretty (up_number part)
              +:+ " URL is already expired"))
          else Ok refreshed
    end.

Definition validate_resumed_part (part : PresignedUploadedPart) : result unit MeowError :=
  match part_for_offset plan (pu_offset part) with
  | None =>
      Err (task_state_error ("resumed presigned part is outside the plan: part=" +:+ pretty (pu_number part)
        +:+ " offset=" +:+ pretty (pu_offset part)))
  | Some plan_part =>
      if negb (pu_number part =? up_number plan_part) || negb (pu_size part =? up_size plan_part) then
        Err (task_state_error ("resumed presigned part does not match plan identity at offset " +:+ pretty (pu_offset part)))
      else
        let? _ :=
          match up_provider_id plan_part with
          | Some expected =>
              if negb (bool_decide (pu_provider_id part = Some expected)) then
                Err (task_state_error ("resumed presigned part does not match bound provider identity at offset "
                  +:+ pretty (pu_offset part)))
              else Ok tt
          | None => Ok tt
          end in
        let? _ := ok_or (checked_add U64_MAX (pu_offset part) (pu_size part))
          (task_state_error ("resumed presigned part range overflow at offset " +:+ pretty (pu_offset part))) in
        Ok tt
  end.

(** [BTreeMap::insert] under the part's offset. *)
Fixpoint insert_offset (part : PresignedUploadedPart) (m : list PresignedUploadedPart) : list PresignedUploadedPart :=
  match m with
  | [] => [part]
  | q :: m' =>
      if pu_offset part <? pu_offset q then part :: m
      else if pu_offset part =? pu_offset q then part :: m'
      else q :: insert_offset part m'
  end.

Fixpoint seed_parts (parts : list PresignedUploadedPart) (error : option MeowError) (m : list PresignedUploadedPart)
    : PresignedState :=
  match parts with
  | [] => mkPresignedState m error
  | part :: parts =>
      let error :=
        match error with
        | None => match validate_resumed_part part with Ok _ => None | Err e => Some e end
        | Some _ => error
        end in
      let error :=
        match List.find (λ q, pu_offset q =? pu_offset part) m with
        | Some existing =>
            match error with
            | None =>
                if bool_decide (existing = part) then None
                else Some (task_state_error ("conflicting resumed presigned parts for offset " +:+ pretty (pu_offset part)))
            | Some _ => error
            end
        | None => error
        end in
      seed_parts parts error (insert_offset part m)
  end.
Definition with_resumed_parts (parts : list PresignedUploadedPart) : PresignedState := seed_parts parts None [].

Fixpoint contiguous_end (running : Z) (sorted : list PresignedUploadedPart) : Z :=
  match sorted with
  | [] => running
  | p :: sorted =>
      if negb (pu_offset p =? running) then running
      else
        match validate_resumed_part p with
        | Err _ => running
        | Ok _ =>
            match checked_add U64_MAX running (pu_size p) with
            | None => running
            | Some next => contiguous_end next sorted
            end
        end
  end.
Definition resumed_offset_from (parts : list PresignedUploadedPart) : Z := contiguous_end 0 (sort_by by_offset parts).

Fixpoint validate_all (parts : list PresignedUploadedPart) : result unit MeowError :=
  match parts with
  | [] => Ok tt
  | part :: parts => let? _ := validate_resumed_part part in validate_all parts
  end.

Definition presigned_prepare (t : PresignedTask) (local_offset : Z) (s : PresignedState)
    : PresignedState * result UploadResumeInfo MeowError :=
  let checks :=
    let? _ := validate_plan plan in
    let? _ := match ps_resumed_error s with Some e => Err e | None => Ok tt end in
    if negb (pl_total_size plan =? pt_total t) then
      Err (task_state_error ("presigned plan total_size mismatch: plan=" +:+ pretty (pl_total_size plan)
        +:+ " task=" +:+ pretty (pt_total t)))
    else if negb (pl_chunk_size plan =? pt_chunk t) then
      Err (task_state_error ("presigned plan chunk_size mismatch: plan=" +:+ pretty (pl_chunk_size plan)
        +:+ " task=" +:+ pretty (pt_chunk t)))
    else validate_all (ps_uploaded s) in
  match checks with
  | Err e => (s, Err e)
  | Ok _ =>
      let parts := sort_by by_offset (ps_uploaded s) in
      let resumed := resumed_offset_from parts in
      let parts := List.filter (λ p, pu_offset p <? resumed) parts in
      (mkPresignedState parts (ps_resumed_error s),
       Ok (mkResumeInfo None (Some (Z.max local_offset resumed)) (pl_upload_id plan)))
  end.

(** Recording an uploaded part: in place if its offset is known. *)
Fixpoint commit_part (u : PresignedUploadedPart) (parts : list PresignedUploadedPart) : list PresignedUploadedPart :=
  match parts with
  | [] => [u]
  | p :: parts => if pu_offset p =? pu_offset u then u :: parts else p :: commit_part u parts
  end.

(** The body of an error response: empty if it cannot be read. *)
Definition text_or_empty (env : PresignedEnv) (resp : HttpResponse) : list Z :=
  match pe_text env resp with Ok body => body | Err _ => [] end.

Definition status_error (env : PresignedEnv) (label : string) (resp : HttpResponse) (body : list Z) : MeowError :=
  with_http_status (from_code ResponseStatusError (label +:+ " failed: " +:+ status_text (resp_status resp)
    +:+ ", body: " +:+ pe_redact env body)) (resp_status resp).

Definition presigned_upload_chunk (env : PresignedEnv) (t : PresignedTask) (offset : Z) (chunk : list Z) (s : PresignedState)
    : PresignedState * result UploadResumeInfo MeowError :=
  let uploaded :=
    let? part := part_for_upload env offset in
    if pt_stop_requested t then
      Err (from_code_str TaskCanceled "presigned upload stopped while refreshing part URL")
    else if negb (up_size part =? Z.of_nat (length chunk)) then
      Err (from_code InvalidRange ("presigned part size mismatch: part=" +:+ pretty (up_size part)
        +:+ " chunk=" +:+ pretty (Z.of_nat (length chunk))))
    else
      match pe_send_part env part chunk with
      | Err e => Err (from_source HttpError "presigned upload part failed" (io_other e))
      | Ok resp =>
          let etag := match get (resp_headers resp) "etag" with Some v => to_str v | None => None end in
          if negb (is_success (resp_status resp)) then
            Err (status_error env "presigned upload part" resp (text_or_empty env resp))
          else Ok (mkUploaded (up_number part) (up_provider_id part) (up_offset part) (up_size part) etag)
      end in
  match uploaded with
  | Err e => (s, Err e)
  | Ok u =>
      (mkPresignedState (commit_part u (ps_uploaded s)) (ps_resumed_error s),
       Ok (mkResumeInfo None (Some (offset + Z.of_nat (length chunk))) (pl_upload_id plan)))
  end.

Definition send_callback (env : PresignedEnv) (req : CompletionRequest) (body : option (list Z)) (label : string)
    : result (option (list Z)) MeowError :=
  match pe_send_callback env req body with
  | Err e => Err (from_source HttpError (label +:+ " failed") (io_other e))
  | Ok resp =>
      let body := text_or_empty env resp in
      if negb (is_success (resp_status resp)) then Err (status_error env label resp body)
      else Ok (match body with [] => None | _ => Some body end)
  end.

Definition completion_json_body (parts : list PresignedUploadedPart) : result (list Z) MeowError :=
  match to_json (pl_upload_id plan) (pl_total_size plan) (pl_chunk_size plan) parts with
  | Ok body => Ok body
  | Err e => Err (from_code ResponseParseError ("serialize presigned completion body failed: " +:+ e))
  end.

(** The body of the completion request. *)
Definition completion_body (req : CompletionRequest) (s : PresignedState) : result (option (list Z)) MeowError :=
  let uploaded_parts := sort_dedup_completion_parts (ps_uploaded s) in
  match cr_body req with
  | Some body => Ok (Some body)
  | None =>
      match pl_complete_body_builder plan with
      | Some build_body => let? body := build_body uploaded_parts in Ok (Some body)
      | None =>
          if cr_uploaded_parts_json_body req then let? body := completion_json_body uploaded_parts in Ok (Some body)
          else Ok None
      end
  end.

Definition presigned_complete_upload (env : PresignedEnv) (s : PresignedState) : result (option (list Z)) MeowError :=
  match pl_complete_request plan with
  | None => Ok None
  | Some req =>
      let? body := completion_body req s in
      send_callback env req body "presigned complete callback"
  end.

Definition presigned_abort_upload (env : PresignedEnv) : result unit MeowError :=
  match pl_abort_request plan with
  | None => Ok tt
  | Some req =>
      let? _ := send_callback env req (cr_body req) "presigned abort callback" in
      Ok tt
  end.

End Presigned.
