(* ===== verification/PresignedUploadProps.v ===== *)
(** * The object of a presigned upload

    The theorems of [PresignedUpload]: the part that is sent is the plan's and its URL has not
    expired, the resume offset is the end of the contiguous prefix, and a completed upload hands
    over a list of parts that are, in order, the content. *)
From stdpp Require Import sorting.
From S2P Require Import Prelude Errors HttpHeaders DownloadIdentity RangeDownload DownloadPrepare.
From S2P Require Import UploadFile UploadChunks PresignedUpload.
#[local] Open Scope Z_scope.

Notation len l := (Z.of_nat (length l)).

(** ** Sorting *)

Section Sorting.
Context {A : Type} (leb : A → A → bool).
Context (leb_total : ∀ x y, leb x y = false → leb y x = true).
Context (leb_trans : ∀ x y z, leb x y = true → leb y z = true → leb x z = true).

Lemma insert_by_perm x l : insert_by leb x l ≡ₚ x :: l.
Proof.
  induction l as [|y l IH]; simpl; [done|]. destruct (leb x y); [done|]. by rewrite IH, Permutation_swap.
Qed.
Lemma sort_by_perm l : sort_by leb l ≡ₚ l.
Proof. induction l as [|x l IH]; simpl; [done|]. by rewrite insert_by_perm, IH. Qed.

Lemma insert_by_sorted x l :
  StronglySorted (λ a b, leb a b = true) l → StronglySorted (λ a b, leb a b = true) (insert_by leb x l).
Proof.
  induction 1 as [|y l Hs IH Hy]; simpl; [by repeat constructor|]. destruct (leb x y) eqn:Hxy.
  - constructor; [by constructor|]. constructor; [done|]. eapply Forall_impl; [exact Hy|]. eauto.
  - constructor; [done|]. rewrite insert_by_perm. constructor; [by apply leb_total|done].
Qed.
Lemma sort_by_sorted l : StronglySorted (λ a b, leb a b = true) (sort_by leb l).
Proof. induction l; simpl; [constructor|by apply insert_by_sorted]. Qed.
End Sorting.

Lemma dedup_by_id {A} (key : A → Z) prev l :
  NoDup (map key l) → (∀ k, prev = Some k → k ∉ map key l) → dedup_by key prev l = l.
Proof.
  revert prev. induction l as [|x l IH]; intros prev Hnd Hp; simpl; [done|].
  apply NoDup_cons in Hnd as [Hx Hnd].
  rewrite bool_decide_false by (intros ->; eapply Hp; [done|by left]).
  f_equal. apply IH; [done|]. by intros k [= <-].
Qed.

(** ** Tilings *)

(** The parts follow each other from [a] to [b] without gap or overlap. *)
Fixpoint tiles (a : Z) (parts : list PresignedUploadedPart) (b : Z) : Prop :=
  match parts with
  | [] => a = b
  | p :: parts => pu_offset p = a ∧ 0 < pu_size p ∧ tiles (a + pu_size p) parts b
  end.

Definition offset_lt (p q : PresignedUploadedPart) : Prop := pu_offset p < pu_offset q.

(** A set of parts is a tiling when it has a first part, a successor for every part but the last,
    and no overlap. *)
Lemma tiles_of_closed a l total :
  StronglySorted offset_lt l → a ≤ total →
  (a = total ∨ ∃ p, p ∈ l ∧ pu_offset p = a) →
  (∀ p, p ∈ l → a ≤ pu_offset p < total ∧ 0 < pu_size p) →
  (∀ p, p ∈ l → pu_offset p + pu_size p = total ∨ ∃ q, q ∈ l ∧ pu_offset q = pu_offset p + pu_size p) →
  (∀ p q, p ∈ l → q ∈ l → pu_offset p < pu_offset q → pu_offset p + pu_size p ≤ pu_offset q) →
  tiles a l total.
Proof.
  intros Hs. revert a. induction Hs as [|x l Hs IH Hx]; intros a Ha Hstart Hin Hnext Hdis; cbn [tiles].
  { destruct Hstart as [?|(p & Hp & _)]; [done|by apply elem_of_nil in Hp]. }
  destruct (Hin x ltac:(by left)) as [Hxr Hxs].
  assert (pu_offset x = a) as Hxa.
  { destruct Hstart as [?|(p & [->|Hp]%elem_of_cons & Hpa)]; [lia|done|].
    pose proof (proj1 (Forall_forall _ _) Hx p Hp). unfold offset_lt in *. lia. }
  assert (pu_offset x + pu_size x ≤ total) as Hend.
  { destruct (Hnext x ltac:(by left)) as [?|(q & Hq & Hqo)]; [lia|]. pose proof (Hin q Hq). lia. }
  split; [done|]. split; [done|]. rewrite <- Hxa. apply IH; [done| | | |].
  - destruct (Hnext x ltac:(by left)) as [?|(q & [->|Hq]%elem_of_cons & Hqo)]; [by left|lia|]. right. by exists q.
  - intros p Hp. pose proof (Hin p ltac:(by right)). pose proof (proj1 (Forall_forall _ _) Hx p Hp) as Hlt.
    pose proof (Hdis x p ltac:(by left) ltac:(by right) Hlt). lia.
  - intros p Hp. destruct (Hnext p ltac:(by right)) as [?|(q & [->|Hq]%elem_of_cons & Hqo)]; [by left| |right; by exists q].
    pose proof (proj1 (Forall_forall _ _) Hx p Hp). pose proof (Hin p ltac:(by right)). unfold offset_lt in *. lia.
  - intros p q Hp Hq. apply Hdis; by right.
Qed.

Lemma tiles_closed a l b p :
  tiles a l b → p ∈ l → pu_offset p + pu_size p = b ∨ ∃ q, q ∈ l ∧ pu_offset q = pu_offset p + pu_size p.
Proof.
  revert a. induction l as [|x l IH]; intros a Ht Hp; [by apply elem_of_nil in Hp|].
  destruct Ht as (Hx & Hsz & Ht). apply elem_of_cons in Hp as [->|Hp].
  - destruct l as [|y l]; cbn [tiles] in Ht; [left; lia|]. right. exists y. split; [set_solver|lia].
  - destruct (IH _ Ht Hp) as [?|(q & Hq & Hqo)]; [by left|]. right. exists q. split; [by right|done].
Qed.

Lemma tiles_start a l b : tiles a l b → a = b ∨ ∃ p, p ∈ l ∧ pu_offset p = a.
Proof. destruct l as [|p l]; cbn [tiles]; [by left|]. intros (? & _). right. exists p. set_solver. Qed.

Lemma tiles_le a l b : tiles a l b → a ≤ b.
Proof. revert a. induction l as [|p l IH]; intros a; cbn [tiles]; [lia|]. intros (_ & ? & ?%IH). lia. Qed.

(** The server's bytes of the listed parts, in their order. *)
Definition manifest_bytes (srv : gmap Z (list Z)) (parts : list PresignedUploadedPart) : list Z :=
  mjoin (map (λ p, default [] (srv !! pu_number p)) parts).

Definition stored (content : list Z) (srv : gmap Z (list Z)) (p : PresignedUploadedPart) : Prop :=
  srv !! pu_number p = Some (slice content (pu_offset p) (pu_offset p + pu_size p)).

Lemma manifest_bytes_tiles content srv a l b :
  0 ≤ a → tiles a l b → (∀ p, p ∈ l → stored content srv p) → manifest_bytes srv l = slice content a b.
Proof.
  revert a. induction l as [|p l IH]; intros a Ha; cbn [tiles].
  { intros -> _. by rewrite slice_nil. }
  intros (<- & Hsz & Ht) Hst. unfold manifest_bytes. cbn [map]. rewrite (Hst p ltac:(by left)).
  fold (manifest_bytes srv l). cbn [mjoin list_join default Datatypes.id].
  change (slice content (pu_offset p) (pu_offset p + pu_size p) ++ manifest_bytes srv l = slice content (pu_offset p) b).
  rewrite (IH (pu_offset p + pu_size p)); [|lia|done|intros q Hq; apply Hst; by right].
  pose proof (tiles_le _ _ _ Ht). apply slice_app; lia.
Qed.

(** ** Plans *)

Lemma part_for_offset_Some plan o p :
  part_for_offset plan o = Some p → p ∈ pl_parts plan ∧ up_offset p = o.
Proof. intros [Hin Ho]%List.find_some. apply list_elem_of_In in Hin. split; [done|lia]. Qed.

Lemma validate_plan_parts_Ok total parts offs p :
  validate_plan_parts total parts offs = Ok tt → p ∈ parts → up_size p ≠ 0 ∧ up_offset p + up_size p ≤ total.
Proof.
  revert offs. induction parts as [|q parts IH]; intros offs H Hp; [by apply elem_of_nil in Hp|]. cbn [validate_plan_parts] in H.
  destruct (up_size q =? 0) eqn:Hz; [done|]. destruct (checked_add _ _ _) as [e|] eqn:He; [|done]. cbn [ok_or] in H.
  apply checked_add_Some in He as [-> _]. destruct (total <? _) eqn:Ht; [done|]. case_bool_decide; [done|].
  apply elem_of_cons in Hp as [->|Hp]; [lia|by eapply IH].
Qed.

(** What the server's planner guarantees: parts do not overlap and are numbered in the order of
    their offsets. *)
Definition ordered_plan (plan : PresignedMultipartUploadPlan) : Prop :=
  (∀ p, p ∈ pl_parts plan → 0 ≤ up_offset p ∧ 0 ≤ up_size p)
  ∧ ∀ p q, p ∈ pl_parts plan → q ∈ pl_parts plan → up_offset p < up_offset q →
      up_offset p + up_size p ≤ up_offset q ∧ up_number p < up_number q.

Section Upload.
Context (status_text : Z → string) (plan : PresignedMultipartUploadPlan).
Context (refresher : option (PresignedUploadPart → result PresignedUploadPart MeowError)).

(** The URL of a part that is sent had not expired at a reading of the clock. *)
Definition unexpired (env : PresignedEnv) (p : PresignedUploadPart) : Prop :=
  ∀ e, up_expires_at p = Some e →
    ∃ now, (pe_now_refresh env = Ok now ∨ pe_now_expired env = Ok now) ∧ now < e.

Lemma is_expired_false now p : is_expired now p = Ok false → ∀ e, up_expires_at p = Some e → ∃ n, now = Ok n ∧ n < e.
Proof.
  intros H e He. unfold is_expired in H. rewrite He in H. destruct now as [n|]; [|done].
  injection H as H. exists n. split; [done|lia].
Qed.

Lemma part_for_upload_spec env o p :
  0 ≤ pl_refresh_before_secs plan → (∀ n e, pe_now_refresh env = Ok n → up_expires_at p = Some e → e ≤ U64_MAX) →
  part_for_upload plan refresher env o = Ok p →
  (∃ pp, part_for_offset plan o = Some pp ∧ up_number p = up_number pp ∧ up_offset p = up_offset pp
     ∧ up_size p = up_size pp ∧ (is_Some (up_provider_id pp) → up_provider_id p = up_provider_id pp))
  ∧ unexpired env p.
Proof.
  intros Hb He. unfold part_for_upload. destruct (part_for_offset plan o) as [pp|] eqn:Hpp; [|done]. cbn [ok_or].
  destruct (should_refresh_part plan _ pp) as [[]|] eqn:Hr; [|intros [= <-]|done]; cbn [negb].
  2:{ split; [by exists pp|]. intros e Hexp. unfold should_refresh_part in Hr. rewrite Hexp in Hr.
      destruct (pe_now_refresh env) as [n|] eqn:Hn; [|done]. injection Hr as Hr. exists n. split; [by left|].
      pose proof (He n e eq_refl Hexp). unfold sat_add in Hr. lia. }
  destruct refresher as [f|].
  - destruct (f pp) as [r|]; [|done]. case_match eqn:Hm; [done|].
    destruct (is_expired _ r) as [[]|] eqn:Hx; [done| |done]. intros [= <-].
    repeat (apply orb_false_iff in Hm as [Hm ?]). split.
    + exists pp. split; [done|]. repeat split; try lia. intros Hs.
      rewrite bool_decide_true in * by done. cbn [andb] in *. by case_bool_decide.
    + intros e Hexp. destruct (is_expired_false _ _ Hx e Hexp) as (n & Hn & Hlt). exists n. split; [by right|done].
  - destruct (is_expired _ pp) as [[]|] eqn:Hx; [done| |done]. intros [= <-]. split; [by exists pp|].
    intros e Hexp. destruct (is_expired_false _ _ Hx e Hexp) as (n & Hn & Hlt). exists n. split; [by right|done].
Qed.

(** The identity of the part that is sent, whatever the clock says. *)
Lemma part_for_upload_identity env o p :
  part_for_upload plan refresher env o = Ok p →
  ∃ pp, part_for_offset plan o = Some pp ∧ up_number p = up_number pp ∧ up_offset p = up_offset pp
     ∧ up_size p = up_size pp.
Proof.
  unfold part_for_upload. destruct (part_for_offset plan o) as [pp|] eqn:Hpp; [|done]. cbn [ok_or].
  destruct (should_refresh_part plan _ pp) as [[]|]; [|intros [= <-]; by exists pp|done]. cbn [negb].
  destruct refresher as [f|].
  - destruct (f pp) as [r|]; [|done]. case_match eqn:Hm; [done|].
    destruct (is_expired _ r) as [[]|]; [done| |done]. intros [= <-].
    repeat (apply orb_false_iff in Hm as [Hm ?]). exists pp. repeat split; try done; lia.
  - destruct (is_expired _ pp) as [[]|]; [done| |done]. intros [= <-]. by exists pp.
Qed.

(** An uploaded part is one of the plan. *)
Definition planned (u : PresignedUploadedPart) : Prop :=
  ∃ pp, part_for_offset plan (pu_offset u) = Some pp ∧ pu_number u = up_number pp ∧ pu_size u = up_size pp.

Lemma validate_resumed_planned u : validate_resumed_part plan u = Ok tt → planned u.
Proof.
  unfold validate_resumed_part. destruct (part_for_offset _ _) as [pp|] eqn:Hpp; [|done].
  case_match eqn:Hm; [done|]. intros _. apply orb_false_iff in Hm as [? ?]. exists pp. split; [done|lia].
Qed.

Context (Hvalid : validate_plan plan = Ok tt) (Hordered : ordered_plan plan).

Lemma planned_part u :
  planned u → 0 ≤ pu_offset u ∧ 0 < pu_size u ∧ pu_offset u + pu_size u ≤ pl_total_size plan.
Proof.
  intros (pp & Hpp & Hn & Hs). apply part_for_offset_Some in Hpp as [Hin Ho].
  unfold validate_plan in Hvalid. do 2 (case_match; [done|]).
  destruct (validate_plan_parts_Ok _ _ _ _ Hvalid Hin). destruct (proj1 Hordered pp Hin). lia.
Qed.

Lemma planned_disjoint u v :
  planned u → planned v → pu_offset u < pu_offset v →
  pu_offset u + pu_size u ≤ pu_offset v ∧ pu_number u < pu_number v.
Proof.
  intros (p & Hp & Hn & Hs) (q & Hq & Hn' & Hs') Hlt.
  apply part_for_offset_Some in Hp as [Hp ?]. apply part_for_offset_Some in Hq as [Hq ?].
  destruct (proj2 Hordered p q Hp Hq); lia.
Qed.

(** The kept prefix of the recorded parts is a tiling up to the resume offset. *)
Lemma contiguous_end_tiles a l :
  StronglySorted offset_lt l → (∀ p, p ∈ l → planned p ∧ a ≤ pu_offset p) →
  (∀ p, p ∈ l → validate_resumed_part plan p = Ok tt) → pl_total_size plan ≤ U64_MAX →
  tiles a (List.filter (λ p, pu_offset p <? contiguous_end plan a l) l) (contiguous_end plan a l).
Proof.
  intros Hs. revert a. induction Hs as [|x l Hs IH Hx]; intros a Hl Hv Hu; cbn [contiguous_end]; [done|].
  destruct (Hl x ltac:(by left)) as [Hpx Hax]. pose proof (planned_part x Hpx) as (Hx0 & Hxs & Hxt).
  destruct (Z.eqb_spec (pu_offset x) a) as [Hxa|Hne]; cbn [negb].
  2:{ rewrite filter_none; [done|]. apply Forall_forall. intros p Hp. apply Z.ltb_ge. by apply Hl. }
  rewrite Hv by (by left). rewrite (proj2 (checked_add_Some U64_MAX a (pu_size x) (a + pu_size x))) by lia.
  assert (tiles (a + pu_size x) (List.filter (λ p, pu_offset p <? contiguous_end plan (a + pu_size x) l) l)
    (contiguous_end plan (a + pu_size x) l)) as IH'.
  { apply IH; [|intros p Hp; apply Hv; by right|done]. intros p Hp. destruct (Hl p ltac:(by right)) as [Hpp _].
    split; [done|]. pose proof (proj1 (Forall_forall _ _) Hx p Hp) as Hlt.
    destruct (planned_disjoint x p Hpx Hpp Hlt). lia. }
  cbn [List.filter]. pose proof (tiles_le _ _ _ IH').
  destruct (Z.ltb_spec (pu_offset x) (contiguous_end plan (a + pu_size x) l)); [|lia]. by repeat split.
Qed.

Lemma elem_of_commit_part u l x :
  NoDup (map pu_offset l) → x ∈ commit_part u l ↔ x = u ∨ (x ∈ l ∧ pu_offset x ≠ pu_offset u).
Proof.
  induction l as [|p l IH]; simpl; intros Hnd.
  { rewrite list_elem_of_singleton, elem_of_nil. tauto. }
  apply NoDup_cons in Hnd as [Hp Hnd]. destruct (Z.eqb_spec (pu_offset p) (pu_offset u)) as [Heq|Hne].
  - rewrite !elem_of_cons. split; [|by intros [->|[[->|?] ?]]; auto].
    intros [->|Hx]; [by left|]. right. split; [by right|]. intros He. apply Hp. rewrite Heq, <- He.
    apply list_elem_of_fmap. by exists x.
  - rewrite !elem_of_cons, IH by done. split; [|tauto]. intros [->|[->|[? ?]]]; auto.
Qed.

Lemma commit_part_NoDup u l : NoDup (map pu_offset l) → NoDup (map pu_offset (commit_part u l)).
Proof.
  induction l as [|p l IH]; simpl; intros Hnd; [by apply NoDup_singleton|].
  apply NoDup_cons in Hnd as [Hp Hnd]. destruct (Z.eqb_spec (pu_offset p) (pu_offset u)) as [Heq|Hne]; simpl.
  - rewrite <- Heq. by apply NoDup_cons.
  - apply NoDup_cons. split; [|by apply IH]. intros (x & Hx & Hin)%list_elem_of_fmap.
    apply elem_of_commit_part in Hin as [->|[Hin _]]; [congruence| |done].
    apply Hp. rewrite Hx. apply list_elem_of_fmap. by exists x.
Qed.

Lemma planned_eq u v :
  planned u → planned v → pu_offset u = pu_offset v ∨ pu_number u = pu_number v →
  pu_offset u = pu_offset v ∧ pu_number u = pu_number v ∧ pu_size u = pu_size v.
Proof.
  intros Hu Hv Hor. assert (pu_offset u = pu_offset v) as Ho.
  { destruct Hor as [?|Hn]; [done|]. destruct (Z.lt_trichotomy (pu_offset u) (pu_offset v)) as [Hlt|[?|Hgt]]; [|done|].
    - destruct (planned_disjoint u v Hu Hv Hlt). lia.
    - destruct (planned_disjoint v u Hv Hu Hgt). lia. }
  destruct Hu as (p & Hp & -> & ->), Hv as (q & Hq & -> & ->). rewrite Ho in Hp. rewrite Hp in Hq. injection Hq as ->. done.
Qed.

(** ** Resuming *)

Lemma sort_offset_id l : StronglySorted offset_lt l → sort_by by_offset l = l.
Proof.
  induction 1 as [|x l Hs IH Hx]; [done|]. cbn [sort_by foldr]. fold (sort_by by_offset l). rewrite IH.
  destruct Hx as [|y l Hxy]; [done|]. unfold offset_lt in Hxy. cbn [insert_by]. unfold by_offset at 1.
  by rewrite (proj2 (Z.leb_le _ _)) by lia.
Qed.

Lemma sort_offset_strict l : NoDup (map pu_offset l) → StronglySorted offset_lt (sort_by by_offset l).
Proof.
  intros Hnd. assert (StronglySorted (λ a b, by_offset a b = true) (sort_by by_offset l)) as Hs.
  { apply sort_by_sorted; unfold by_offset; lia. }
  assert (NoDup (map pu_offset (sort_by by_offset l))) as Hnd' by (by rewrite sort_by_perm).
  clear Hnd. induction Hs as [|x k Hk IH Hx]; [constructor|]. cbn [map] in Hnd'. apply NoDup_cons in Hnd' as [Hnx Hnd'].
  constructor; [by apply IH|]. apply Forall_forall. intros y Hy. pose proof (proj1 (Forall_forall _ _) Hx y Hy) as Hle.
  unfold by_offset, offset_lt in *. assert (pu_offset x ≠ pu_offset y); [|lia].
  intros He. apply Hnx. rewrite He. apply list_elem_of_fmap. by exists y.
Qed.

Lemma validate_all_Ok l : validate_all plan l = Ok tt → ∀ u, u ∈ l → validate_resumed_part plan u = Ok tt.
Proof.
  induction l as [|x l IH]; intros H u Hu; [by apply elem_of_nil in Hu|]. cbn [validate_all] in H.
  destruct (validate_resumed_part plan x) as [[]|] eqn:Hx; [|done]. apply elem_of_cons in Hu as [->|Hu]; [done|by apply IH].
Qed.

(** What prepare keeps is the contiguous, planned prefix, and it resumes at its end. *)
Lemma prepare_kept t local s s' info :
  NoDup (map pu_offset (ps_uploaded s)) → pl_total_size plan ≤ U64_MAX →
  presigned_prepare plan t local s = (s', Ok info) →
  tiles 0 (ps_uploaded s') (resumed_offset_from plan (ps_uploaded s))
  ∧ NoDup (map pu_offset (ps_uploaded s'))
  ∧ (∀ u, u ∈ ps_uploaded s' → u ∈ ps_uploaded s ∧ planned u)
  ∧ next_byte info = Some (Z.max local (resumed_offset_from plan (ps_uploaded s))).
Proof.
  intros Hnd Hu. unfold presigned_prepare. rewrite Hvalid. destruct (ps_resumed_error s); [done|].
  destruct (negb (pl_total_size plan =? _)); [done|]. destruct (negb (pl_chunk_size plan =? _)); [done|].
  destruct (validate_all plan (ps_uploaded s)) as [[]|] eqn:Hv; [|done]. intros [= <- <-]. cbn [ps_uploaded].
  pose proof (sort_offset_strict _ Hnd) as Hs. set (l := sort_by by_offset (ps_uploaded s)) in *.
  assert (resumed_offset_from plan l = resumed_offset_from plan (ps_uploaded s)) as Hr.
  { unfold resumed_offset_from. fold l. by rewrite (sort_offset_id l). }
  assert (∀ u, u ∈ l ↔ u ∈ ps_uploaded s) as Hl by (intros u; unfold l; by rewrite sort_by_perm).
  rewrite Hr. split; [|split; [|split; [|done]]].
  - unfold resumed_offset_from. fold l. apply contiguous_end_tiles; [done| | |done].
    + intros p Hp%Hl. assert (planned p) as Hpl by (apply validate_resumed_planned; by eapply validate_all_Ok).
      split; [done|]. by destruct (planned_part p Hpl).
    + intros p Hp%Hl. by eapply validate_all_Ok.
  - assert (NoDup (map pu_offset l)) as Hndl by (unfold l; by rewrite sort_by_perm). clear -Hndl.
    generalize (resumed_offset_from plan (ps_uploaded s)) as r. intros r. induction l as [|x k IH]; cbn [List.filter]; [done|].
    cbn [map] in Hndl. apply NoDup_cons in Hndl as [Hx Hndl]. destruct (_ <? r); [|by apply IH]. cbn [map].
    apply NoDup_cons. split; [|by apply IH]. intros (y & Hy & Hin)%list_elem_of_fmap. apply Hx.
    apply list_elem_of_fmap. exists y. split; [done|]. apply list_elem_of_In in Hin. apply filter_In in Hin as [Hin _].
    by apply list_elem_of_In.
  - intros u Hin. apply list_elem_of_In, filter_In in Hin as [Hin%list_elem_of_In%Hl _]. split; [done|].
    apply validate_resumed_planned. by eapply validate_all_Ok.
Qed.

Lemma tiles_end_bound a l b :
  tiles a l b → a ≤ pl_total_size plan → (∀ u, u ∈ l → planned u) → b ≤ pl_total_size plan.
Proof.
  revert a. induction l as [|x l IH]; intros a; cbn [tiles]; [lia|]. intros (Ha & _ & Ht) _ Hp.
  apply (IH _ Ht); [|intros u Hu; apply Hp; by right]. pose proof (planned_part x (Hp x ltac:(by left))). lia.
Qed.

(** ** Uploading the chunks *)

Context (content : list Z) (t : PresignedTask) (next : Z).

(** A success answer to the request for a part means it is stored under its number; a request
    that was sent may have been stored without an answer. *)
Definition served (env : PresignedEnv) (o : Z) (body : list Z) (srv srv' : gmap Z (list Z)) : Prop :=
  (srv' = srv ∧ ∀ part resp, pe_send_part env part body = Ok resp → is_success (resp_status resp) = false)
  ∨ ∃ part, part_for_upload plan refresher env o = Ok part ∧ up_size part = len body
      ∧ srv' = <[up_number part := body]> srv.

Definition chunk_at (o : Z) : list Z := slice content o (Z.min (o + pl_chunk_size plan) (len content)).

Inductive presigned_step :
  gmap Z (list Z) * PresignedState * gset Z → gmap Z (list Z) * PresignedState * gset Z → Prop :=
| presigned_put env o srv srv' s acked :
    next ≤ o < len content → (o - next) mod pl_chunk_size plan = 0 → served env o (chunk_at o) srv srv' →
    presigned_step (srv, s, acked)
      (srv', (presigned_upload_chunk status_text plan refresher env t o (chunk_at o) s).1,
       match (presigned_upload_chunk status_text plan refresher env t o (chunk_at o) s).2 with
       | Ok _ => {[o]} ∪ acked
       | Err _ => acked
       end).

Lemma upload_chunk_cases env o body s :
  let r := presigned_upload_chunk status_text plan refresher env t o body s in
  (∃ e, r = (s, Err e)) ∨
  ∃ part resp etag info, part_for_upload plan refresher env o = Ok part ∧ up_size part = len body
    ∧ pe_send_part env part body = Ok resp ∧ is_success (resp_status resp) = true
    ∧ r = (mkPresignedState (commit_part (mkUploaded (up_number part) (up_provider_id part) (up_offset part)
             (up_size part) etag) (ps_uploaded s)) (ps_resumed_error s), Ok info).
Proof.
  unfold presigned_upload_chunk. destruct (part_for_upload _ _ _ _) as [part|] eqn:Hp; [|left; by eexists].
  destruct (pt_stop_requested t); [left; by eexists|].
  destruct (Z.eqb_spec (up_size part) (len body)) as [Hsz|]; [|left; by eexists]. cbn [negb].
  destruct (pe_send_part _ _ _) as [resp|] eqn:Hsend; [|left; by eexists].
  destruct (is_success (resp_status resp)) eqn:Hok; [|left; by eexists]. cbn [negb].
  right. exists part, resp. by do 2 eexists.
Qed.

Context (Htotal : pl_total_size plan = len content) (Hchunk : 0 < pl_chunk_size plan) (Hnext : 0 ≤ next).

Definition up_state_inv (kept : list PresignedUploadedPart) (st : gmap Z (list Z) * PresignedState * gset Z) : Prop :=
  let '(srv, s, acked) := st in
  NoDup (map pu_offset (ps_uploaded s))
  ∧ (∀ u, u ∈ ps_uploaded s → planned u ∧ stored content srv u
      ∧ (pu_offset u ∈ map pu_offset kept
         ∨ pu_offset u ∈ acked ∧ pu_size u = Z.min (pl_chunk_size plan) (len content - pu_offset u)))
  ∧ (∀ o, o ∈ map pu_offset kept ∨ o ∈ acked → o ∈ map pu_offset (ps_uploaded s))
  ∧ (∀ o, o ∈ acked → next ≤ o < len content ∧ (o - next) mod pl_chunk_size plan = 0).

Lemma sent_part_planned env o part :
  part_for_upload plan refresher env o = Ok part →
  up_offset part = o ∧ ∀ id etag, planned (mkUploaded (up_number part) id (up_offset part) (up_size part) etag).
Proof.
  intros (pp & Hpp & Hn & Ho & Hs)%part_for_upload_identity. pose proof (part_for_offset_Some _ _ _ Hpp) as [_ Hpo].
  split; [lia|]. intros id etag. exists pp. cbn [pu_offset pu_number pu_size]. by rewrite Ho, Hpo.
Qed.

Lemma served_stored env o body srv srv' u :
  served env o body srv srv' → body = chunk_at o → 0 ≤ o < len content → planned u →
  stored content srv u → stored content srv' u.
Proof.
  intros [[-> _]|(part & Hp & Hsz & ->)] -> Ho Hu Hst; [done|].
  destruct (sent_part_planned env o part Hp) as [Hpo Hpl]. unfold stored in *.
  destruct (decide (pu_number u = up_number part)) as [Heq|Hne]; [|by rewrite lookup_insert_ne].
  rewrite Heq, lookup_insert_eq. destruct (planned_eq u _ Hu (Hpl None None) (or_intror Heq)) as (Hou & _ & Hsu).
  cbn [pu_offset pu_size] in Hou, Hsu. unfold chunk_at in *. rewrite length_slice in Hsz by lia.
  f_equal. f_equal; lia.
Qed.

Lemma presigned_step_inv kept st st' : up_state_inv kept st → presigned_step st st' → up_state_inv kept st'.
Proof.
  intros Hinv Hstep. destruct Hstep as [env o srv srv' s acked Ho Hm Hserved]. destruct Hinv as (Hnd & Hu & Hin & Hack).
  destruct (upload_chunk_cases env o (chunk_at o) s) as [[e ->]|(part & resp & etag & info & Hp & Hsz & Hsend & Hok & ->)];
    cbn [fst snd].
  - split; [done|]. split; [|done]. intros u Hin'. destruct (Hu u Hin') as (? & ? & ?).
    split; [done|]. split; [|done]. eapply served_stored; [done|done|lia|done|done].
  - destruct (sent_part_planned env o part Hp) as [Hpo Hpl]. cbn [ps_uploaded].
    set (u0 := mkUploaded _ _ _ _ etag). assert (planned u0) as Hpl0 by apply Hpl.
    assert (stored content srv' u0) as Hst0.
    { destruct Hserved as [[_ Hno]|(part' & Hp' & _ & ->)]; [by rewrite (Hno part resp Hsend) in Hok|].
      rewrite Hp in Hp'. injection Hp' as <-. unfold stored, u0. cbn [pu_number pu_offset pu_size].
      rewrite lookup_insert_eq. f_equal. unfold chunk_at in *. rewrite length_slice in Hsz by lia. f_equal; lia. }
    split; [by apply commit_part_NoDup|]. split; [|split].
    + intros u [->|[Hul Hne]]%elem_of_commit_part; [| |done].
      * split; [done|]. split; [done|]. right. cbn [u0 pu_offset pu_size]. split; [set_solver|].
        unfold chunk_at in Hsz. rewrite length_slice in Hsz by lia. lia.
      * destruct (Hu u Hul) as (Hplu & Hstu & Hor). split; [done|]. split; [|set_solver].
        eapply served_stored; [done|done|lia|done|done].
    + intros o' Ho'. destruct (decide (o' = o)) as [->|Hneo].
      * apply list_elem_of_fmap. exists u0. split; [by rewrite <- Hpo|]. apply elem_of_commit_part; [done|by left].
      * assert (o' ∈ map pu_offset (ps_uploaded s)) as (u & -> & Hul)%list_elem_of_fmap by (apply Hin; set_solver).
        apply list_elem_of_fmap. exists u. split; [done|]. apply elem_of_commit_part; [done|]. right.
        split; [done|]. unfold u0. cbn [pu_offset]. congruence.
    + intros o' [->%elem_of_singleton|Ho']%elem_of_union; [done|by apply Hack].
Qed.

(** The list handed over at completion is a permutation of the recorded one. *)
Lemma completion_parts_perm l : NoDup (map pu_offset l) → sort_dedup_completion_parts l ≡ₚ l.
Proof.
  intros Hnd. unfold sort_dedup_completion_parts. rewrite sort_by_perm, dedup_by_id; [by rewrite sort_by_perm| |done].
  by rewrite sort_by_perm.
Qed.

Lemma completion_parts_sorted l :
  NoDup (map pu_offset l) → (∀ u, u ∈ l → planned u) → StronglySorted offset_lt (sort_dedup_completion_parts l).
Proof.
  intros Hnd Hpl. pose proof (completion_parts_perm l Hnd) as Hperm.
  assert (StronglySorted (λ a b, by_number a b = true) (sort_dedup_completion_parts l)) as Hs.
  { apply sort_by_sorted; unfold by_number; lia. }
  assert (∀ u, u ∈ sort_dedup_completion_parts l → planned u) as Hpl' by (intros u Hu; apply Hpl; by rewrite <- Hperm).
  assert (NoDup (map pu_offset (sort_dedup_completion_parts l))) as Hnd' by (by rewrite Hperm).
  clear Hperm Hnd Hpl. induction Hs as [|x k Hk IH Hx]; [constructor|]. cbn [map] in Hnd'. apply NoDup_cons in Hnd' as [Hnx Hnd'].
  constructor; [apply IH; [|done]; intros u Hu; apply Hpl'; by right|]. apply Forall_forall. intros y Hy.
  pose proof (proj1 (Forall_forall _ _) Hx y Hy) as Hle. unfold by_number, offset_lt in *.
  destruct (Z.lt_trichotomy (pu_offset x) (pu_offset y)) as [?|[He|Hgt]]; [done| |].
  - destruct Hnx. rewrite He. apply list_elem_of_fmap. by exists y.
  - destruct (planned_disjoint y x (Hpl' y ltac:(by right)) (Hpl' x ltac:(by left)) Hgt). lia.
Qed.

Lemma inv_tiles kept srv s acked :
  up_state_inv kept (srv, s, acked) → tiles 0 kept next → (∀ u, u ∈ kept → planned u) →
  (∀ o, next ≤ o < len content → (o - next) mod pl_chunk_size plan = 0 → o ∈ acked) →
  tiles 0 (sort_dedup_completion_parts (ps_uploaded s)) (len content).
Proof.
  intros (Hnd & Hu & Hin & Hack) Ht Hkp Hall. pose proof (completion_parts_perm _ Hnd) as Hperm.
  pose proof (tiles_end_bound _ _ _ Ht ltac:(lia) Hkp) as Hnt.
  assert (∀ o, o ∈ map pu_offset (ps_uploaded s) →
    ∃ q, q ∈ sort_dedup_completion_parts (ps_uploaded s) ∧ pu_offset q = o) as Hget.
  { intros o (q & -> & Hq)%list_elem_of_fmap. exists q. split; [by rewrite Hperm|done]. }
  assert (∀ o, next ≤ o ≤ len content → (o - next) mod pl_chunk_size plan = 0 →
    o = len content ∨ ∃ q, q ∈ sort_dedup_completion_parts (ps_uploaded s) ∧ pu_offset q = o) as Hgrid.
  { intros o Ho Hm. destruct (decide (o = len content)) as [?|]; [by left|]. right. apply Hget, Hin. right. apply Hall; [lia|done]. }
  assert (∀ o, o ∈ map pu_offset kept → ∃ q, q ∈ sort_dedup_completion_parts (ps_uploaded s) ∧ pu_offset q = o) as Hkept.
  { intros o Ho. apply Hget, Hin. by left. }
  apply tiles_of_closed.
  - apply completion_parts_sorted; [done|]. intros u Hul. by destruct (Hu u Hul).
  - lia.
  - destruct (tiles_start _ _ _ Ht) as [H0|(p & Hp & Hpo)].
    + apply Hgrid; [lia|]. rewrite <- H0. by rewrite Z.sub_diag, Z.mod_0_l by lia.
    + right. apply Hkept, list_elem_of_fmap. by exists p.
  - intros u Hul. rewrite Hperm in Hul. destruct (Hu u Hul) as (Hpl & _). pose proof (planned_part u Hpl). lia.
  - intros u Hul. rewrite Hperm in Hul. destruct (Hu u Hul) as (Hpl & _ & [Hk|[Ha Hsz]]).
    + apply list_elem_of_fmap in Hk as (p & Hop & Hp).
      destruct (planned_eq u p Hpl (Hkp p Hp) (or_introl Hop)) as (_ & _ & Hsz).
      destruct (tiles_closed _ _ _ _ Ht Hp) as [Hend|(q & Hq & Hqo)].
      * rewrite Hop, Hsz, Hend. apply Hgrid; [lia|]. by rewrite Z.sub_diag, Z.mod_0_l by lia.
      * right. rewrite Hop, Hsz, <- Hqo. apply Hkept, list_elem_of_fmap. by exists q.
    + destruct (Hack _ Ha) as [Hr Hm]. destruct (decide (pu_offset u + pl_chunk_size plan < len content)) as [Hlt|Hge].
      * rewrite Hsz, Z.min_l by lia. apply Hgrid; [lia|].
        replace (pu_offset u + pl_chunk_size plan - next) with (pu_offset u - next + 1 * pl_chunk_size plan) by lia.
        by rewrite Z.mod_add by lia.
      * left. lia.
  - intros u v Hul Hvl Hlt. rewrite Hperm in Hul, Hvl.
    by destruct (planned_disjoint u v (proj1 (Hu u Hul)) (proj1 (Hu v Hvl)) Hlt).
Qed.

End Upload.

Lemma elem_of_insert_offset u m x : x ∈ insert_offset u m → x = u ∨ x ∈ m.
Proof.
  induction m as [|q m IH]; cbn [insert_offset]; [rewrite list_elem_of_singleton; by left|].
  destruct (_ <? _); [|destruct (_ =? _)]; rewrite !elem_of_cons; [tauto|tauto|].
  intros [->|Hx]; [tauto|]. apply IH in Hx. tauto.
Qed.

Lemma insert_offset_sorted u m : StronglySorted offset_lt m → StronglySorted offset_lt (insert_offset u m).
Proof.
  unfold offset_lt. induction 1 as [|q m Hs IH Hq]; cbn [insert_offset]; [by repeat constructor|].
  destruct (Z.ltb_spec (pu_offset u) (pu_offset q)) as [Hlt|Hge].
  { constructor; [by constructor|]. constructor; [done|]. eapply Forall_impl; [exact Hq|]. simpl. lia. }
  destruct (Z.eqb_spec (pu_offset u) (pu_offset q)) as [Heq|Hne].
  { constructor; [done|]. eapply Forall_impl; [exact Hq|]. simpl. lia. }
  constructor; [done|]. apply Forall_forall. intros x [->|Hx]%elem_of_insert_offset; [lia|].
  by apply (proj1 (Forall_forall _ _) Hq).
Qed.

(** The persisted parts as they are seeded: by offset, and no others. *)
Lemma with_resumed_parts_spec plan parts :
  NoDup (map pu_offset (ps_uploaded (with_resumed_parts plan parts)))
  ∧ ∀ u, u ∈ ps_uploaded (with_resumed_parts plan parts) → u ∈ parts.
Proof.
  assert (∀ parts e m, StronglySorted offset_lt m →
    StronglySorted offset_lt (ps_uploaded (seed_parts plan parts e m))
    ∧ ∀ u, u ∈ ps_uploaded (seed_parts plan parts e m) → u ∈ parts ∨ u ∈ m) as Hseed.
  { clear parts. induction parts as [|p parts IH]; intros e m Hm; cbn [seed_parts ps_uploaded]; [split; [done|by right]|].
    match goal with |- context [seed_parts plan parts ?e' _] => destruct (IH e' _ (insert_offset_sorted p m Hm)) as [Hs Hin] end.
    split; [done|]. intros u [?|[->|?]%elem_of_insert_offset]%Hin; set_solver. }
  destruct (Hseed parts None [] ltac:(constructor)) as [Hs Hin]. split; [|set_solver].
  clear -Hs. unfold with_resumed_parts. induction Hs as [|x l Hs IH Hx]; cbn [map]; [constructor|]. apply NoDup_cons.
  split; [|done]. intros (y & Hy & Hin)%list_elem_of_fmap. pose proof (proj1 (Forall_forall _ _) Hx y Hin).
  unfold offset_lt in *. lia.
Qed.

(** C15: a presigned upload that was resumed from persisted parts (or none) stored from the content,
    with a local offset no further than those parts reach, and whose remaining chunks were all
    acknowledged, in any order and with any repeated or lost requests, completes with a list of
    parts whose bytes on the server, in the order of the list, are exactly the content. The plan's
    parts must not overlap and must be numbered in the order of their offsets: [validate] does not
    check either. *)
Theorem presigned_object_is_content status_text plan refresher content t local resumed srv0 s0 info next srv s acked :
  ordered_plan plan → 0 ≤ pl_chunk_size plan → pl_total_size plan = len content → len content ≤ U64_MAX →
  (∀ u, u ∈ resumed → stored content srv0 u) →
  presigned_prepare plan t local (with_resumed_parts plan resumed) = (s0, Ok info) → next_byte info = Some next →
  local ≤ resumed_offset_from plan (ps_uploaded (with_resumed_parts plan resumed)) →
  rtc (presigned_step status_text plan refresher content t next) (srv0, s0, ∅) (srv, s, acked) →
  (∀ o, next ≤ o < len content → (o - next) mod pl_chunk_size plan = 0 → o ∈ acked) →
  manifest_bytes srv (sort_dedup_completion_parts (ps_uploaded s)) = content.
Proof.
  intros Hord Hc0 Ht Hu Hst Hprep Hnext Hlocal Hsteps Hall.
  destruct (with_resumed_parts_spec plan resumed) as [Hnd Hin].
  assert (validate_plan plan = Ok tt) as Hv.
  { unfold presigned_prepare in Hprep. by destruct (validate_plan plan) as [[]|]. }
  assert (0 < pl_chunk_size plan) as Hc.
  { unfold validate_plan in Hv. destruct (Z.eqb_spec (pl_chunk_size plan) 0); [done|lia]. }
  destruct (prepare_kept plan Hv Hord t local _ s0 info Hnd ltac:(lia) Hprep) as (Htl & Hnd0 & Hkept & Hnb).
  rewrite Hnb in Hnext. injection Hnext as <-. rewrite Z.max_r in * by done.
  set (next := resumed_offset_from plan _) in *. pose proof (tiles_le _ _ _ Htl).
  assert (up_state_inv plan content next (ps_uploaded s0) (srv, s, acked)) as Hinv.
  { eapply rtc_invariant; [| |exact Hsteps].
    - intros a b Ha Hb. eapply presigned_step_inv; try done; lia.
    - split; [done|]. split; [|split; [set_solver|set_solver]]. intros u Hus. destruct (Hkept u Hus) as [Hu0 Hpl].
      split; [done|]. split; [by apply Hst, Hin|]. left. apply list_elem_of_fmap. by exists u. }
  rewrite (manifest_bytes_tiles content srv 0 _ (len content)); [|lia| |].
  - unfold slice. rewrite drop_0, take_ge; [done|lia].
  - eapply (inv_tiles plan); try done; try lia. intros u Hus. by destruct (Hkept u Hus).
  - destruct Hinv as (Hnd' & Hus & _). intros u Hul. rewrite completion_parts_perm in Hul by done. by destruct (Hus u Hul) as (_ & ? & _).
Qed.

(** ** A two-part plan *)

Definition demo_plan : PresignedMultipartUploadPlan := upload_plan 3 2 [put_part 2 2 1 "u2"; put_part 1 0 2 "u1"].
Definition demo_presigned_task : PresignedTask := mkPresignedTask 3 2 false.
Definition demo_resumed : list PresignedUploadedPart := [mkUploaded 1 None 0 2 None].
Definition demo_presigned_env : PresignedEnv :=
  mkPresignedEnv (Ok 0) (Ok 0) (λ _ _, Ok (mkResponse 200 ∅ [])) (λ _ _, Err "unreachable") (λ _, Ok []) (λ _, "").

Lemma demo_ordered : ordered_plan demo_plan.
Proof.
  unfold ordered_plan, demo_plan, upload_plan. cbn [pl_parts].
  split; [intros p [->|[->|[]%elem_of_nil]%elem_of_cons]%elem_of_cons; done|].
  intros p q [->|[->|[]%elem_of_nil]%elem_of_cons]%elem_of_cons [->|[->|[]%elem_of_nil]%elem_of_cons]%elem_of_cons; cbn; lia.
Qed.

Lemma presigned_object_is_content_witness :
  manifest_bytes {[ 1 := [1; 2]; 2 := [3] ]}
    (sort_dedup_completion_parts [mkUploaded 1 None 0 2 None; mkUploaded 2 None 2 1 None]) = [1; 2; 3].
Proof.
  apply (presigned_object_is_content pretty demo_plan None [1; 2; 3] demo_presigned_task 0 demo_resumed {[ 1 := [1; 2] ]}
    (mkPresignedState demo_resumed None) (mkResumeInfo None (Some 2) None) 2 {[ 1 := [1; 2]; 2 := [3] ]}
    (mkPresignedState [mkUploaded 1 None 0 2 None; mkUploaded 2 None 2 1 None] None) {[ 2 ]});
    [exact demo_ordered|vm_compute; discriminate|reflexivity|vm_compute; discriminate| |vm_compute; reflexivity|reflexivity
    |vm_compute; discriminate| |].
  - intros u ->%list_elem_of_singleton. reflexivity.
  - eapply rtc_l; [|apply rtc_refl].
    pose proof (presigned_put pretty demo_plan None [1; 2; 3] demo_presigned_task 2 demo_presigned_env 2 {[ 1 := [1; 2] ]}
      (<[2 := [3]]> {[ 1 := [1; 2] ]}) (mkPresignedState demo_resumed None) ∅) as Hput.
    replace ({[ 1 := [1; 2]; 2 := [3] ]} : gmap Z (list Z)) with (<[2 := [3]]> {[ 1 := [1; 2] ]} : gmap Z (list Z))
      by (vm_compute; reflexivity).
    replace ({[ 2 ]} : gset Z) with ({[ 2 ]} ∪ ∅ : gset Z) by (vm_compute; reflexivity).
    apply Hput; [cbn; lia|reflexivity|]. right. exists (put_part 2 2 1 "u2"). repeat split.
  - intros o Ho Hm. cbn in Ho, Hm. assert (o = 2) as -> by lia. apply elem_of_singleton. reflexivity.
Defined.

(** Two parts of a plan that overlap are both kept by a resume although the offset it reports stops
    at the end of the first. *)
Example overlapping_parts_kept :
  let plan := upload_plan 3 2 [put_part 1 0 2 "u1"; put_part 2 1 2 "u2"] in
  let parts := [mkUploaded 1 None 0 2 None; mkUploaded 2 None 1 2 None] in
  let r := presigned_prepare plan demo_presigned_task 0 (with_resumed_parts plan parts) in
  ps_uploaded r.1 = parts ∧ option_map next_byte (match r.2 with Ok i => Some i | Err _ => None end) = Some (Some 2).
Proof. vm_compute. auto. Qed.
