(* ===== verification/PresignedDownload.v ===== *)
(** * Presigned range downloads

    [src/presigned/range_download.rs]: the URLs of a download are signed for a limited time and
    shared by the concurrent parts; a part that finds them about to expire asks the application
    for new ones, one part at a time, and publishes the new plan as one immutable snapshot.

    [ensure_fresh_snapshot] is a state machine ([RefreshPhase]) that gives up the processor at the
    gate and while the application's refresher runs; everything it reads from the clock, the task
    and the refresher is an input of the step ([RefreshInput]). The two thread-local cells that
    pair the URL of a request with its headers are part of the state of the calling thread. *)
From S2P Require Import Prelude Errors HttpHeaders DownloadIdentity RangeDownload DownloadPrepare.
#[local] Open Scope Z_scope.

Record PresignedRangeDownloadPlan := mkRangePlan {
  rp_total_size : option Z;
  rp_head_url : option string;
  rp_range_url : string;
  rp_expires_at : option Z;
  rp_refresh_before_secs : Z;
  rp_head_headers : HeaderMap;
  rp_range_headers : HeaderMap;
}.
(** [PresignedRangeDownloadPlan::new] *)
Definition range_plan (url : string) : PresignedRangeDownloadPlan := mkRangePlan None None url None 60 ∅ ∅.
Definition set_plan_total (total : option Z) (p : PresignedRangeDownloadPlan) : PresignedRangeDownloadPlan :=
  mkRangePlan total (rp_head_url p) (rp_range_url p) (rp_expires_at p) (rp_refresh_before_secs p) (rp_head_headers p)
    (rp_range_headers p).

(** Every value of the extra map is inserted in turn, so that the last of a name stays. *)
Definition merge_headers (target extra : HeaderMap) : HeaderMap :=
  omap (λ vs, option_map (λ v, [v]) (last vs)) extra ∪ target.

(** ** Freshness of a plan *)

Definition should_refresh_plan (now : result Z MeowError) (plan : PresignedRangeDownloadPlan) : result bool MeowError :=
  match rp_expires_at plan with
  | None => Ok false
  | Some expires_at => let? now := now in Ok (expires_at <=? sat_add U64_MAX now (rp_refresh_before_secs plan))
  end.

Definition is_plan_expired (now : result Z MeowError) (plan : PresignedRangeDownloadPlan) : result bool MeowError :=
  match rp_expires_at plan with
  | None => Ok false
  | Some expires_at => let? now := now in Ok (expires_at <=? now)
  end.

(** What one uninterrupted stretch of the code reads: the stop flag at its first and last check,
    the total the task resolved, and the clock for the refresh and the expiry test. *)
Record RefreshInput := mkRefreshInput {
  ri_stop : bool;
  ri_stop_late : bool;
  ri_task_total : option Z;
  ri_now : result Z MeowError;
  ri_now_expired : result Z MeowError;
  (** the refresher's answer; the outer error is a panic *)
  ri_refreshed : result (result PresignedRangeDownloadPlan MeowError) unit;
}.

Definition ensure_task_active (stop : bool) : result unit MeowError :=
  if stop then Err (from_code_str TaskCanceled "presigned range download stopped during URL refresh") else Ok tt.

Definition ensure_task_total_matches_snapshot (task_total : option Z) (plan : PresignedRangeDownloadPlan)
    : result unit MeowError :=
  match task_total, rp_total_size plan with
  | Some expected, Some observed =>
      if expected =? observed then Ok tt
      else Err (from_code InvalidTaskState ("presigned range total_size mismatch: expected=" +:+ pretty expected
             +:+ " observed=" +:+ pretty observed))
  | _, _ => Ok tt
  end.

Inductive RefreshPhase :=
| RStart
| RWaiting
| RHolding
| RRefreshing (plan : PresignedRangeDownloadPlan)
| RDone (r : result PresignedRangeDownloadPlan MeowError).

Definition reentered : MeowError :=
  from_code_str InvalidTaskState "presigned range URL refresher re-entered the same download".

(** A snapshot of the plan, its checks, and whether it must be refreshed. *)
Definition snapshot_check (inp : RefreshInput) (plan : PresignedRangeDownloadPlan) : result bool MeowError :=
  let? _ := ensure_task_active (ri_stop inp) in
  let? _ := ensure_task_total_matches_snapshot (ri_task_total inp) plan in
  should_refresh_plan (ri_now inp) plan.

Definition return_plan (inp : RefreshInput) (plan : PresignedRangeDownloadPlan) : RefreshPhase :=
  RDone (let? _ := ensure_task_active (ri_stop_late inp) in Ok plan).

(** Up to the gate. [active]: this thread already refreshes the same download. *)
Definition start_turn (has_refresher active : bool) (inp : RefreshInput) (plan : PresignedRangeDownloadPlan) : RefreshPhase :=
  match snapshot_check inp plan with
  | Err e => RDone (Err e)
  | Ok false => return_plan inp plan
  | Ok true =>
      if negb has_refresher then
        match is_plan_expired (ri_now_expired inp) plan with
        | Err e => RDone (Err e)
        | Ok true =>
            RDone (Err (from_code_str InvalidTaskState "presigned range URL expired and no refresher is configured"))
        | Ok false => return_plan inp plan
        end
      else if active then RDone (Err reentered)
      else RWaiting
  end.

(** With the gate held, up to the call of the refresher; [ActiveRefreshGuard::enter] pushes the key. *)
Definition holding_turn (active : bool) (inp : RefreshInput) (plan : PresignedRangeDownloadPlan) : RefreshPhase :=
  match snapshot_check inp plan with
  | Err e => RDone (Err e)
  | Ok false => return_plan inp plan
  | Ok true => if active then RDone (Err reentered) else RRefreshing plan
  end.

(** After the refresher returned: the plan to publish. *)
Definition refreshed_turn (inp : RefreshInput) (plan : PresignedRangeDownloadPlan)
    : result PresignedRangeDownloadPlan MeowError :=
  let? answer := match ri_refreshed inp with
                 | Err _ => Err (from_code_str InvalidTaskState "presigned range URL refresher panicked")
                 | Ok answer => Ok answer
                 end in
  let? refreshed := answer in
  let? _ := ensure_task_active (ri_stop inp) in
  let? expired := is_plan_expired (ri_now_expired inp) refreshed in
  if expired then Err (from_code_str InvalidTaskState "refreshed presigned range URL is already expired")
  else
    let expected_total := match ri_task_total inp with Some total => Some total | None => rp_total_size plan end in
    let? _ :=
      match expected_total, rp_total_size refreshed with
      | Some expected, Some observed =>
          if expected =? observed then Ok tt
          else Err (from_code InvalidTaskState ("refreshed range total_size mismatch: expected=" +:+ pretty expected
                 +:+ " observed=" +:+ pretty observed))
      | _, _ => Ok tt
      end in
    let refreshed :=
      match rp_total_size refreshed with
      | None => set_plan_total (rp_total_size plan) refreshed
      | Some _ => refreshed
      end in
    let? _ := ensure_task_active (ri_stop_late inp) in
    Ok refreshed.

(** ** Concurrent parts *)

Record RefreshSys := mkRefreshSys {
  rs_plan : PresignedRangeDownloadPlan;
  rs_gate : option nat;
  rs_threads : gmap nat RefreshPhase;
  rs_calls : nat;
}.

Section System.
Context (has_refresher : bool) (allowed : RefreshInput → Prop).

(** One uninterrupted stretch of the call on thread [tid], reading [inp]. *)
Inductive refresh_turn (tid : nat) (inp : RefreshInput) : RefreshSys → RefreshSys → Prop :=
| step_start s :
    rs_threads s !! tid = Some RStart →
    refresh_turn tid inp s (mkRefreshSys (rs_plan s) (rs_gate s)
      (<[tid := start_turn has_refresher false inp (rs_plan s)]> (rs_threads s)) (rs_calls s))
| step_gate s :
    rs_threads s !! tid = Some RWaiting → rs_gate s = None →
    refresh_turn tid inp s (mkRefreshSys (rs_plan s) (Some tid) (<[tid := RHolding]> (rs_threads s)) (rs_calls s))
| step_holding s ph :
    rs_threads s !! tid = Some RHolding → ph = holding_turn false inp (rs_plan s) →
    refresh_turn tid inp s (mkRefreshSys (rs_plan s) (match ph with RRefreshing _ => rs_gate s | _ => None end)
      (<[tid := ph]> (rs_threads s)) (match ph with RRefreshing _ => S (rs_calls s) | _ => rs_calls s end))
(** the refresher calls back into the same download on its thread *)
| step_reenter s plan :
    rs_threads s !! tid = Some (RRefreshing plan) →
    refresh_turn tid inp s s
| step_refreshed s plan r :
    rs_threads s !! tid = Some (RRefreshing plan) → r = refreshed_turn inp plan →
    refresh_turn tid inp s (mkRefreshSys (match r with Ok refreshed => refreshed | Err _ => rs_plan s end) None
      (<[tid := RDone r]> (rs_threads s)) (rs_calls s)).

Definition refresh_step (s s' : RefreshSys) : Prop := ∃ tid inp, allowed inp ∧ refresh_turn tid inp s s'.

End System.

(** ** Requests *)

(** The thread-local cells, with the gate that identifies the download. *)
Record PendingCells := mkPending {
  pc_range_url : option (nat * string);
  pc_head : option (nat * result PresignedRangeDownloadPlan MeowError);
}.

Definition DEFAULT_RANGE_ACCEPT : list Z := bs "application/octet-stream".

(** [HeaderValue::from_str] *)
Definition header_value_byte (b : Z) : bool := ((32 <=? b) && negb (b =? 127)) || (b =? 9).

(** The request of one part, from the snapshot [ensure_fresh_snapshot] returned. *)
Definition request_from_fresh_snapshot_for_task (snapshot : result PresignedRangeDownloadPlan MeowError) (stop : bool)
    (range_value : list Z) (base : HeaderMap) : result (string * HeaderMap) MeowError :=
  let? plan := snapshot in
  let? _ := if forallb header_value_byte range_value then Ok tt
            else Err (from_code ParameterEmpty ("invalid range header value '" +:+ str_of range_value
                   +:+ "': failed to parse header value")) in
  let base := <["range" := [range_value]]> base in
  let base := if bool_decide (is_Some (base !! "accept")) then base else <["accept" := [DEFAULT_RANGE_ACCEPT]]> base in
  let base := merge_headers base (rp_range_headers plan) in
  let? _ := ensure_task_active stop in
  Ok (rp_range_url plan, base).

Definition presigned_merge_range_get_headers (key : nat) (snapshot : result PresignedRangeDownloadPlan MeowError) (stop : bool)
    (range_value : list Z) (base : HeaderMap) (c : PendingCells) : PendingCells * result HeaderMap MeowError :=
  match request_from_fresh_snapshot_for_task snapshot stop range_value base with
  | Err e => (c, Err e)
  | Ok (url, headers) => (mkPending (Some (key, url)) (pc_head c), Ok headers)
  end.

(** [range_url]: the remembered URL, or that of the current plan. *)
Definition presigned_range_url (key : nat) (current : PresignedRangeDownloadPlan) (c : PendingCells) : PendingCells * string :=
  match pc_range_url c with
  | Some (pending_key, url) =>
      if (pending_key =? key)%nat then (mkPending None (pc_head c), url) else (c, rp_range_url current)
  | None => (c, rp_range_url current)
  end.

Definition presigned_head_url (key : nat) (snapshot : result PresignedRangeDownloadPlan MeowError) (task_url : string) (c : PendingCells)
    : PendingCells * string :=
  let url :=
    match snapshot with
    | Ok plan => match rp_head_url plan with Some url => url | None => rp_range_url plan end
    | Err _ => task_url
    end in
  (mkPending (pc_range_url c) (Some (key, snapshot)), url).

Definition take_remembered_head_snapshot (key : nat) (c : PendingCells)
    : PendingCells * option (result PresignedRangeDownloadPlan MeowError) :=
  match pc_head c with
  | Some (pending_key, snapshot) =>
      if (pending_key =? key)%nat then (mkPending (pc_range_url c) None, Some snapshot) else (c, None)
  | None => (c, None)
  end.

(** [fresh]: what [ensure_fresh_snapshot] answers if nothing is remembered. *)
Definition presigned_merge_head_headers (key : nat) (fresh : result PresignedRangeDownloadPlan MeowError) (stop : bool)
    (base : HeaderMap) (c : PendingCells) : PendingCells * result HeaderMap MeowError :=
  let '(c, remembered) := take_remembered_head_snapshot key c in
  (c, let? plan := match remembered with Some snapshot => snapshot | None => fresh end in
      let base := merge_headers base (rp_head_headers plan) in
      let? _ := ensure_task_active stop in
      Ok base).

Definition presigned_total_size_from_head (current : PresignedRangeDownloadPlan) (headers : HeaderMap) : result Z MeowError :=
  let? value := require_single_header headers "content-length" "presigned download HEAD response" in
  let? total := ok_or
    (match value with
     | Some v => match parse_u64 v with Some n => if 0 <? n then Some n else None | None => None end
     | None => None
     end)
    (from_code_str MissingOrInvalidContentLengthFromHead "missing or invalid content-length from HEAD") in
  match rp_total_size current with
  | Some expected =>
      if negb (expected =? total) then
        Err (from_code InvalidTaskState ("presigned HEAD total_size mismatch: expected=" +:+ pretty expected
          +:+ " observed=" +:+ pretty total))
      else Ok total
  | None => Ok total
  end.

(** ** One refresh at a time *)

Definition refresh_init (plan : PresignedRangeDownloadPlan) (s : RefreshSys) : Prop :=
  rs_plan s = plan ∧ rs_gate s = None ∧ rs_calls s = 0%nat ∧ ∀ tid ph, rs_threads s !! tid = Some ph → ph = RStart.

Definition at_gate (ph : RefreshPhase) : Prop := match ph with RHolding | RRefreshing _ => True | _ => False end.

(** The plan's numbers are 64-bit. *)
Definition u64_plan (p : PresignedRangeDownloadPlan) : Prop :=
  0 ≤ rp_refresh_before_secs p ∧ ∀ e, rp_expires_at p = Some e → e ≤ U64_MAX.

Section Refresh.
Context (has_refresher : bool) (allowed : RefreshInput → Prop).

(** Two totals that are both known are equal. *)
Definition agree (a b : option Z) : Prop := ∀ x y, a = Some x → b = Some y → x = y.

(** A turn that read [inp] and found [plan] hands out [p]: the task was not stopped, the URL had not
    expired at the turn's own reading of the clock, and [p] is either the plan it found, whose
    total is the task's, or what the refresher answered in this turn, whose total is the task's or
    else the plan's and is the plan's when the answer states none. *)
Definition granted (inp : RefreshInput) (plan p : PresignedRangeDownloadPlan) : Prop :=
  ri_stop inp = false ∧ ri_stop_late inp = false
  ∧ (∀ e, rp_expires_at p = Some e → ∃ now, (ri_now inp = Ok now ∨ ri_now_expired inp = Ok now) ∧ now < e)
  ∧ (p = plan ∧ agree (ri_task_total inp) (rp_total_size p)
     ∨ ∃ r, ri_refreshed inp = Ok (Ok r) ∧ rp_range_url p = rp_range_url r
         ∧ (∀ e, rp_expires_at p = Some e → ∃ now, ri_now_expired inp = Ok now ∧ now < e)
         ∧ agree (match ri_task_total inp with Some x => Some x | None => rp_total_size plan end) (rp_total_size r)
         ∧ rp_total_size p = match rp_total_size r with None => rp_total_size plan | Some y => Some y end).

(** A call from the refresher into its own download never waits for the gate it holds. *)
Lemma reentrant_never_waits inp plan : start_turn has_refresher true inp plan ≠ RWaiting.
Proof.
  unfold start_turn, return_plan. destruct (snapshot_check inp plan) as [[]|]; [|done..].
  destruct (negb has_refresher); [|done]. by destruct (is_plan_expired _ _) as [[]|].
Qed.

Lemma snapshot_check_total inp plan b expected observed :
  snapshot_check inp plan = Ok b → ri_task_total inp = Some expected → rp_total_size plan = Some observed →
  expected = observed.
Proof.
  unfold snapshot_check, ensure_task_total_matches_snapshot. intros H Ht Ho. rewrite Ht, Ho in H.
  destruct (ensure_task_active _); [|done]. destruct (Z.eqb_spec expected observed); [done|done].
Qed.

Lemma should_refresh_false inp plan e :
  u64_plan plan → should_refresh_plan (ri_now inp) plan = Ok false → rp_expires_at plan = Some e →
  ∃ now, ri_now inp = Ok now ∧ now < e.
Proof.
  unfold should_refresh_plan. intros [Hb Hm] H He. pose proof (Hm e He). rewrite He in H. destruct (ri_now inp) as [now|]; [|done].
  injection H as H. exists now. split; [done|]. unfold sat_add in H. lia.
Qed.

Lemma not_expired now plan e :
  is_plan_expired now plan = Ok false → rp_expires_at plan = Some e → ∃ n, now = Ok n ∧ n < e.
Proof.
  unfold is_plan_expired. intros H He. rewrite He in H. destruct now as [n|]; [|done]. injection H as H.
  exists n. split; [done|lia].
Qed.

Lemma task_active stop : ensure_task_active stop = Ok tt → stop = false.
Proof. by destruct stop. Qed.

(** Handing out the checked snapshot. *)
Lemma checked_granted inp plan :
  u64_plan plan → snapshot_check inp plan = Ok false → ri_stop_late inp = false → granted inp plan plan.
Proof.
  intros Hb Hc Hlate. pose proof Hc as Hc'. unfold snapshot_check in Hc'.
  destruct (ensure_task_active (ri_stop inp)) as [[]|] eqn:Ha; [|done].
  destruct (ensure_task_total_matches_snapshot _ _); [|done]. split; [by apply task_active|]. split; [done|]. split.
  - intros e He. destruct (should_refresh_false inp plan e Hb Hc' He) as (now & Hn & Hlt). exists now. auto.
  - left. split; [done|]. intros x y. by eapply snapshot_check_total.
Qed.

Lemma start_turn_granted inp plan p :
  u64_plan plan → start_turn has_refresher false inp plan = RDone (Ok p) → p = plan ∧ granted inp plan p.
Proof.
  intros Hb. unfold start_turn, return_plan.
  destruct (snapshot_check inp plan) as [[]|] eqn:Hc; [| |done].
  - destruct (negb has_refresher); [|done]. destruct (is_plan_expired _ plan) as [[]|] eqn:Hx; [done| |done].
    destruct (ensure_task_active (ri_stop_late inp)) as [[]|] eqn:Hl; [|done]. intros [= <-]. split; [done|].
    assert (ri_stop inp = false) as Hs.
    { unfold snapshot_check in Hc. destruct (ensure_task_active (ri_stop inp)) as [[]|] eqn:Ha; [by apply task_active|done]. }
    split; [done|]. split; [by apply task_active|]. split.
    + intros e He. destruct (not_expired _ _ _ Hx He) as (n & Hn & Hlt). exists n. auto.
    + left. split; [done|]. intros x y. by eapply snapshot_check_total.
  - destruct (ensure_task_active (ri_stop_late inp)) as [[]|] eqn:Hl; [|done]. intros [= <-]. split; [done|].
    apply checked_granted; [done|done|by apply task_active].
Qed.

Lemma holding_turn_cases inp plan :
  (∃ p, holding_turn false inp plan = RRefreshing p ∧ p = plan ∧ snapshot_check inp plan = Ok true) ∨
  (∃ e, holding_turn false inp plan = RDone (Err e)) ∨
  (holding_turn false inp plan = RDone (Ok plan) ∧ snapshot_check inp plan = Ok false ∧ ri_stop_late inp = false).
Proof.
  unfold holding_turn, return_plan. destruct (snapshot_check inp plan) as [[]|]; [left; by eexists| |right; left; by eexists].
  destruct (ri_stop_late inp); [right; left; by eexists|by right; right].
Qed.

Lemma refreshed_turn_Ok inp plan p :
  refreshed_turn inp plan = Ok p →
  granted inp plan p ∧ ∃ r, ri_refreshed inp = Ok (Ok r)
    ∧ rp_refresh_before_secs p = rp_refresh_before_secs r ∧ rp_expires_at p = rp_expires_at r
    ∧ rp_total_size p = match rp_total_size r with None => rp_total_size plan | Some x => Some x end
    ∧ agree (match ri_task_total inp with Some x => Some x | None => rp_total_size plan end) (rp_total_size r).
Proof.
  unfold refreshed_turn. destruct (ri_refreshed inp) as [[r|]|] eqn:Hr; [|done|done].
  destruct (ensure_task_active (ri_stop inp)) as [[]|] eqn:Ha; [|done]. apply task_active in Ha.
  destruct (is_plan_expired _ r) as [[]|] eqn:Hx; [done| |done].
  set (exp := match ri_task_total inp with Some total => Some total | None => rp_total_size plan end).
  intros H. assert (agree exp (rp_total_size r)) as Htot.
  { intros x y Hx' Hy. rewrite Hx', Hy in H. by destruct (Z.eqb_spec x y). }
  assert (ri_stop_late inp = false
    ∧ p = match rp_total_size r with None => set_plan_total (rp_total_size plan) r | Some _ => r end) as [Hl ->].
  { destruct (ri_stop_late inp); destruct exp as [x|], (rp_total_size r) as [y|];
      simpl in H; repeat case_match; simplify_eq; done. }
  set (q := match rp_total_size r with None => _ | Some _ => _ end).
  assert (rp_range_url q = rp_range_url r ∧ rp_refresh_before_secs q = rp_refresh_before_secs r ∧ rp_expires_at q = rp_expires_at r
    ∧ rp_total_size q = match rp_total_size r with None => rp_total_size plan | Some x => Some x end) as (Hu & Hb & He & Ht).
  { unfold q. by destruct (rp_total_size r) eqn:E; cbn [set_plan_total rp_range_url rp_refresh_before_secs rp_expires_at rp_total_size]. }
  assert (∀ e, rp_expires_at q = Some e → ∃ now, ri_now_expired inp = Ok now ∧ now < e) as Hexp.
  { rewrite He. intros e. by apply not_expired. }
  split; [|exists r; done]. split; [done|]. split; [done|]. split; [|right; exists r; done].
  intros e Hqe. destruct (Hexp e Hqe) as (now & ? & ?). exists now. auto.
Qed.

Context (plan0 : PresignedRangeDownloadPlan) (Hplan0 : u64_plan plan0).
Context (Hallowed : ∀ inp r, allowed inp → ri_refreshed inp = Ok (Ok r) → u64_plan r).

Definition refresh_inv (s : RefreshSys) : Prop :=
  u64_plan (rs_plan s)
  ∧ (∀ tid ph, rs_threads s !! tid = Some ph → at_gate ph → rs_gate s = Some tid)
  ∧ (∀ tid, rs_gate s = Some tid → ∃ ph, rs_threads s !! tid = Some ph ∧ at_gate ph)
  ∧ (∀ tid p, rs_threads s !! tid = Some (RRefreshing p) → p = rs_plan s).

Lemma refresh_init_inv s : refresh_init plan0 s → refresh_inv s.
Proof.
  intros (Hp & Hg & _ & Ht). split; [by rewrite Hp|]. rewrite Hp, Hg.
  repeat split; intros; try (match goal with H : rs_threads s !! _ = Some _ |- _ => apply Ht in H; by simplify_eq end); try done.
Qed.

Lemma refreshed_u64 inp plan p : allowed inp → refreshed_turn inp plan = Ok p → u64_plan p.
Proof.
  intros Ha (_ & r & Hr & Hb & He & _)%refreshed_turn_Ok. destruct (Hallowed inp r Ha Hr) as [Hb' He'].
  split; [by rewrite Hb|]. by rewrite He.
Qed.

(** A phase that is not at the gate replaces another such phase. *)
Lemma refresh_inv_update s tid ph :
  refresh_inv s → ¬ at_gate ph → rs_gate s ≠ Some tid →
  refresh_inv (mkRefreshSys (rs_plan s) (rs_gate s) (<[tid := ph]> (rs_threads s)) (rs_calls s)).
Proof.
  intros (Hu & Hg & Hg' & Hr) Hph Hne. unfold refresh_inv. cbn [rs_plan rs_gate rs_threads].
  split; [done|]. split; [|split].
  - intros t ph' [[<- <-]|[_ H]]%lookup_insert_Some Hat; [done|by eapply Hg].
  - intros t Hgt. destruct (Hg' t Hgt) as (ph' & Hl & Hat). exists ph'. split; [|done].
    rewrite lookup_insert_ne; [done|congruence].
  - intros t p [[<- ->]|[_ H]]%lookup_insert_Some; [by destruct Hph|by eapply Hr].
Qed.

(** The thread at the gate leaves it. *)
Lemma refresh_inv_release s tid ph ph' plan :
  refresh_inv s → rs_threads s !! tid = Some ph → at_gate ph → ¬ at_gate ph' → u64_plan plan →
  refresh_inv (mkRefreshSys plan None (<[tid := ph']> (rs_threads s)) (rs_calls s)).
Proof.
  intros (Hu & Hg & Hg' & Hr) Hl Hat Hph Hpl. pose proof (Hg tid ph Hl Hat) as Hgate.
  assert (∀ t ph1, rs_threads s !! t = Some ph1 → at_gate ph1 → t = tid) as Huniq.
  { intros t ph1 H1 Ha1. pose proof (Hg t ph1 H1 Ha1). congruence. }
  unfold refresh_inv. cbn [rs_plan rs_gate rs_threads]. split; [done|]. split; [|split; [done|]].
  - intros t ph1 [[<- <-]|[Hne H]]%lookup_insert_Some Ha1; [done|]. by destruct (Hne (eq_sym (Huniq t ph1 H Ha1))).
  - intros t p [[<- ->]|[Hne H]]%lookup_insert_Some; [by destruct Hph|]. by destruct (Hne (eq_sym (Huniq t _ H I))).
Qed.

Lemma refresh_step_inv s s' : refresh_inv s → refresh_step has_refresher allowed s s' → refresh_inv s'.
Proof.
  intros Hinv (tid & inp & Ha & Hst). pose proof Hinv as (Hu & Hg & Hg' & Hr).
  destruct Hst as [s Hl|s Hl Hfree|s ph Hl ->|s plan Hl|s plan r Hl ->].
  - apply refresh_inv_update; [done| |].
    + unfold start_turn, return_plan. repeat case_match; by intros [].
    + intros Hgt. destruct (Hg' tid Hgt) as (ph & Hl' & Hat). rewrite Hl in Hl'. by injection Hl' as <-.
  - unfold refresh_inv. cbn [rs_plan rs_gate rs_threads]. split; [done|]. split; [|split].
    + intros t ph [[<- _]|[_ H]]%lookup_insert_Some Hat; [done|]. pose proof (Hg t ph H Hat). congruence.
    + intros t [= <-]. exists RHolding. by rewrite lookup_insert_eq.
    + intros t p [[_ ?]|[_ H]]%lookup_insert_Some; [done|by eapply Hr].
  - destruct (holding_turn_cases inp (rs_plan s)) as [(p & -> & -> & Hc)|[[e ->]|(-> & Hc & _)]].
    + unfold refresh_inv. cbn [rs_plan rs_gate rs_threads]. pose proof (Hg tid _ Hl I) as Hgate.
      split; [done|]. split; [|split].
      * intros t ph [[<- _]|[_ H]]%lookup_insert_Some Hat; [done|by eapply Hg].
      * intros t Hgt. assert (t = tid) as -> by congruence. eexists. by rewrite lookup_insert_eq.
      * intros t p [[<- [= <-]]|[_ H]]%lookup_insert_Some; [done|by eapply Hr].
    + apply (refresh_inv_release s tid RHolding); [done|done|exact I|by intros []|done].
    + apply (refresh_inv_release s tid RHolding); [done|done|exact I|by intros []|done].
  - done.
  - destruct (Hr tid plan Hl). apply (refresh_inv_release s tid (RRefreshing plan)); [done|done|exact I|by intros []|].
    destruct (refreshed_turn inp plan) as [p|e] eqn:Hturn; [by eapply refreshed_u64|done].
Qed.

(** What a turn that returns hands out. *)
Lemma turn_granted s tid inp s' p :
  refresh_inv s → refresh_turn has_refresher tid inp s s' → rs_threads s' !! tid = Some (RDone (Ok p)) →
  p = rs_plan s' ∧ granted inp (rs_plan s) p.
Proof.
  intros (Hu & _ & _ & Hr) Hst.
  destruct Hst as [s Hl|s Hl Hfree|s ph Hl ->|s plan Hl|s plan r Hl ->]; cbn [rs_threads rs_plan];
    rewrite ?lookup_insert_eq; [|by intros [=]| |by rewrite Hl; intros [=]|].
  - intros [= H]. by apply start_turn_granted.
  - intros [= H]. destruct (holding_turn_cases inp (rs_plan s)) as [(q & Hq & _)|[[e Hq]|(Hq & Hc & Hlate)]];
      rewrite Hq in H; simplify_eq. split; [done|by apply checked_granted].
  - intros [= H]. rewrite H. split; [done|]. destruct (Hr tid plan Hl). by destruct (refreshed_turn_Ok inp plan p H).
Qed.

(** A turn changes the shared plan only to what it hands out. *)
Lemma turn_plan s tid inp s' :
  refresh_turn has_refresher tid inp s s' →
  rs_plan s' = rs_plan s ∨ rs_threads s' !! tid = Some (RDone (Ok (rs_plan s'))).
Proof.
  destruct 1 as [s Hl|s Hl Hfree|s ph Hl ->|s plan Hl|s plan r Hl ->]; cbn [rs_plan rs_threads]; [by left..|].
  destruct (refreshed_turn inp plan) as [p|e]; [right; by rewrite lookup_insert_eq|by left].
Qed.

Lemma granted_total inp plan p t0 :
  granted inp plan p → agree (ri_task_total inp) (Some t0) → rp_total_size plan = Some t0 → rp_total_size p = Some t0.
Proof.
  intros (_ & _ & _ & [[-> _]|(r & _ & _ & _ & Hag & ->)]) Htask Hp; [done|]. rewrite Hp in *.
  destruct (rp_total_size r) as [y|]; [|done]. destruct (ri_task_total inp) as [x|].
  - pose proof (Hag x y eq_refl eq_refl). pose proof (Htask x t0 eq_refl eq_refl). congruence.
  - by rewrite (Hag t0 y eq_refl eq_refl).
Qed.

Lemma refresh_reachable_inv s0 s : refresh_init plan0 s0 → rtc (refresh_step has_refresher allowed) s0 s → refresh_inv s.
Proof. intros H0. apply rtc_invariant; [exact refresh_step_inv|by apply refresh_init_inv]. Qed.

(** While the tasks' totals are the plan's the shared plan keeps it. *)
Lemma reachable_total s0 s t0 :
  refresh_init plan0 s0 → rtc (refresh_step has_refresher allowed) s0 s →
  (∀ inp, allowed inp → agree (ri_task_total inp) (Some t0)) → rp_total_size plan0 = Some t0 →
  rp_total_size (rs_plan s) = Some t0.
Proof.
  intros H0 Hs Htask Hp0. apply (rtc_invariant (refresh_step has_refresher allowed)
    (λ s, refresh_inv s ∧ rp_total_size (rs_plan s) = Some t0)) in Hs; [by destruct Hs| |].
  - intros a b [Ha Hta] Hst. split; [by eapply refresh_step_inv|]. destruct Hst as (tid & inp & Hin & Hst).
    destruct (turn_plan _ _ _ _ Hst) as [->|Hd]; [done|]. destruct (turn_granted _ _ _ _ _ Ha Hst Hd) as [_ Hgr].
    eapply granted_total; [exact Hgr|by apply Htask|done].
  - split; [by apply refresh_init_inv|]. destruct H0 as (-> & _). done.
Qed.

(** Freshness depends on the expiry alone. *)
Lemma should_refresh_ext now p q :
  rp_expires_at p = rp_expires_at q → rp_refresh_before_secs p = rp_refresh_before_secs q →
  should_refresh_plan now p = should_refresh_plan now q.
Proof. unfold should_refresh_plan. by intros -> ->. Qed.

Definition fresh_plan (p : PresignedRangeDownloadPlan) : Prop :=
  ∀ inp, allowed inp → should_refresh_plan (ri_now inp) p = Ok false.

(** No refresh yet, one in progress, or one done. *)
Definition once_inv (s : RefreshSys) : Prop :=
  (rs_calls s = 0%nat ∧ rs_plan s = plan0 ∧ ∀ tid p, rs_threads s !! tid ≠ Some (RRefreshing p))
  ∨ (rs_calls s = 1%nat ∧ rs_plan s = plan0 ∧ ∃ tid p, rs_threads s !! tid = Some (RRefreshing p))
  ∨ (rs_calls s = 1%nat ∧ fresh_plan (rs_plan s) ∧ ∀ tid p, rs_threads s !! tid ≠ Some (RRefreshing p)).

(** Replacing a phase by one that does not refresh keeps the stage. *)
Lemma once_inv_update s tid ph ph' gate :
  once_inv s → rs_threads s !! tid = Some ph → (∀ p, ph ≠ RRefreshing p) → (∀ p, ph' ≠ RRefreshing p) →
  once_inv (mkRefreshSys (rs_plan s) gate (<[tid := ph']> (rs_threads s)) (rs_calls s)).
Proof.
  intros Hs Hl Hph Hph'. unfold once_inv. cbn [rs_calls rs_plan rs_threads].
  assert (∀ t p, <[tid := ph']> (rs_threads s) !! t = Some (RRefreshing p) ↔ rs_threads s !! t = Some (RRefreshing p)) as Hiff.
  { intros t p. destruct (decide (t = tid)) as [->|Hne]; [rewrite lookup_insert_eq, Hl|by rewrite lookup_insert_ne].
    split; intros [= H]; [by destruct (Hph' p)|by destruct (Hph p)]. }
  destruct Hs as [(? & ? & Hno)|[(? & ? & t & p & Hr)|(? & ? & Hno)]]; [left|right; left|right; right].
  - split; [done|]. split; [done|]. intros t p. rewrite Hiff. apply Hno.
  - split; [done|]. split; [done|]. exists t, p. by apply Hiff.
  - split; [done|]. split; [done|]. intros t p. rewrite Hiff. apply Hno.
Qed.

Lemma once_step_inv s s' :
  (∀ inp, allowed inp → ∃ p, refreshed_turn inp plan0 = Ok p ∧ fresh_plan p) →
  refresh_inv s → once_inv s → refresh_step has_refresher allowed s s' → once_inv s'.
Proof.
  intros Hok Hinv Hs (tid & inp & Ha & Hst). pose proof Hinv as (Hu & Hg & Hg' & Hr).
  destruct Hst as [s Hl|s Hl Hfree|s ph Hl ->|s plan Hl|s plan r Hl ->].
  - eapply once_inv_update; [done|done|done|]. intros p. unfold start_turn, return_plan. by repeat case_match.
  - by eapply once_inv_update.
  - assert (∀ t p, rs_threads s !! t ≠ Some (RRefreshing p)) as Hnone.
    { intros t p Htp. pose proof (Hg t _ Htp I). pose proof (Hg tid _ Hl I). assert (t = tid) as -> by congruence. congruence. }
    destruct (holding_turn_cases inp (rs_plan s)) as [(p & -> & -> & Hc)|[[e ->]|(-> & Hc & _)]];
      [|by eapply once_inv_update..].
    destruct Hs as [(-> & Hp & _)|[(_ & _ & t & p & Htp)|(_ & Hf & _)]]; [|by destruct (Hnone t p)|].
    + right. left. cbn [rs_calls rs_plan rs_threads]. split; [done|]. split; [done|]. do 2 eexists. by apply lookup_insert_eq.
    + pose proof (Hf inp Ha) as Hf'. unfold snapshot_check in Hc. destruct (ensure_task_active _); [|done].
      destruct (ensure_task_total_matches_snapshot _ _); [|done]. congruence.
  - done.
  - rewrite (Hr tid plan Hl).
    destruct Hs as [(_ & _ & Hno)|[(Hcalls & Hp & _)|(_ & _ & Hno)]]; [by destruct (Hno _ _ Hl)| |by destruct (Hno _ _ Hl)].
    rewrite Hp. destruct (Hok inp Ha) as (p & -> & Hf). right. right. cbn [rs_calls rs_plan rs_threads].
    split; [done|]. split; [done|]. intros t q [[_ ?]|[Hne Htq]]%lookup_insert_Some; [done|].
    pose proof (Hg t _ Htq I). pose proof (Hg tid _ Hl I). congruence.
Qed.

(** ** Progress *)

Definition phase_weight (ph : RefreshPhase) : nat :=
  match ph with RStart => 4 | RWaiting => 3 | RHolding => 2 | RRefreshing _ => 1 | RDone _ => 0 end.
Definition refresh_work (s : RefreshSys) : nat :=
  sum_list_with (λ kv, phase_weight kv.2) (map_to_list (rs_threads s)).

Lemma work_insert (m : gmap nat RefreshPhase) tid ph ph' :
  m !! tid = Some ph → (phase_weight ph' < phase_weight ph)%nat →
  (sum_list_with (λ kv, phase_weight kv.2) (map_to_list (<[tid := ph']> m))
   < sum_list_with (λ kv, phase_weight kv.2) (map_to_list m))%nat.
Proof.
  intros Hl Hlt. assert (∀ ph1, sum_list_with (λ kv, phase_weight kv.2) (map_to_list (<[tid := ph1]> (delete tid m)))
    = (phase_weight ph1 + sum_list_with (λ kv, phase_weight kv.2) (map_to_list (delete tid m)))%nat) as Heq.
  { intros ph1. by rewrite map_to_list_insert by apply lookup_delete_eq. }
  rewrite <- (insert_delete_eq m tid ph'), Heq. rewrite <- (insert_id m tid ph Hl) at 2.
  rewrite <- (insert_delete_eq m tid ph), Heq. lia.
Qed.

Lemma holding_weight inp plan : (phase_weight (holding_turn false inp plan) < 2)%nat.
Proof. destruct (holding_turn_cases inp plan) as [(p & -> & _)|[[e ->]|[-> _]]]; simpl; lia. Qed.

Lemma step_work s s' : refresh_step has_refresher allowed s s' → s' = s ∨ (refresh_work s' < refresh_work s)%nat.
Proof.
  intros (tid & inp & Ha & Hst). destruct Hst as [s Hl|s Hl Hfree|s ph Hl ->|s plan Hl|s plan r Hl ->];
    [right|right|right|by left|right]; unfold refresh_work; cbn [rs_threads]; (eapply work_insert; [done|]); simpl; try lia.
  - unfold start_turn, return_plan. repeat case_match; simpl; lia.
  - apply holding_weight.
Qed.

Lemma can_work s tid ph :
  (∃ inp, allowed inp) → refresh_inv s → rs_threads s !! tid = Some ph → (∀ r, ph ≠ RDone r) →
  ∃ s', refresh_step has_refresher allowed s s' ∧ (refresh_work s' < refresh_work s)%nat.
Proof.
  intros [inp Ha] (_ & _ & Hg' & _) Hl Hph.
  assert (∀ s', s' ≠ s → refresh_step has_refresher allowed s s' →
    ∃ s', refresh_step has_refresher allowed s s' ∧ (refresh_work s' < refresh_work s)%nat) as Hany.
  { intros s' Hne Hst. exists s'. split; [done|]. by destruct (step_work s s' Hst). }
  assert (∀ t ph1 ph2 p g c, rs_threads s !! t = Some ph1 → ph2 ≠ ph1 →
    mkRefreshSys p g (<[t := ph2]> (rs_threads s)) c ≠ s) as Hne.
  { intros t ph1 ph2 p g c H1 Hne Heq. apply (f_equal (λ s, rs_threads s !! t)) in Heq. cbn [rs_threads] in Heq.
    rewrite lookup_insert_eq in Heq. congruence. }
  assert (∀ t ph1, rs_threads s !! t = Some ph1 → at_gate ph1 →
    ∃ s', refresh_step has_refresher allowed s s' ∧ (refresh_work s' < refresh_work s)%nat) as Hgate.
  { intros t ph1 H1 Hat. destruct ph1 as [| | |plan|]; [done|done| |  |done].
    - eapply Hany; [|by eexists _, inp; split; [done|]; eapply step_holding]. eapply Hne; [done|]. intros Heq.
      pose proof (holding_weight inp (rs_plan s)) as Hw. rewrite Heq in Hw. simpl in Hw. lia.
    - eapply Hany; [|by eexists _, inp; split; [done|]; eapply step_refreshed]. eapply Hne; [done|]. done. }
  destruct ph as [| | | |r]; [| |by eapply Hgate|by eapply Hgate|by destruct (Hph r)].
  - eapply Hany; [|by eexists _, inp; split; [done|]; eapply step_start]. eapply Hne; [done|]. unfold start_turn, return_plan. by repeat case_match.
  - destruct (rs_gate s) as [t|] eqn:Hgt; [destruct (Hg' t eq_refl) as (ph1 & H1 & Hat); by eapply Hgate|].
    eapply Hany; [|by eexists _, inp; split; [done|]; eapply step_gate]. by eapply Hne.
Qed.

End Refresh.

(** What the system relies on: 64-bit numbers. *)
Record refresh_context (plan0 : PresignedRangeDownloadPlan) (allowed : RefreshInput → Prop) : Prop := mkRefreshContext {
  rc_plan : u64_plan plan0;
  rc_refreshed : ∀ inp r, allowed inp → ri_refreshed inp = Ok (Ok r) → u64_plan r;
}.

(** C20: however the parts of a download interleave, at most one of them refreshes the signed URLs at
    a time; a turn that hands a plan to its part hands out the shared plan, for a task that was not
    stopped, with a URL that had not expired at the turn's own reading of the clock, and with the
    total the task knows in that turn - of a refreshed plan that states none, the total of the plan
    before it; and while every total a task knows is that of the first plan, the shared plan keeps
    this total. *)
Theorem refresh_safe has_refresher allowed plan0 s0 s :
  refresh_context plan0 allowed → refresh_init plan0 s0 → rtc (refresh_step has_refresher allowed) s0 s →
  (∀ t1 t2 ph1 ph2, rs_threads s !! t1 = Some ph1 → rs_threads s !! t2 = Some ph2 → at_gate ph1 → at_gate ph2 → t1 = t2)
  ∧ (∀ tid inp s' p, refresh_turn has_refresher tid inp s s' → rs_threads s' !! tid = Some (RDone (Ok p)) →
       p = rs_plan s' ∧ granted inp (rs_plan s) p)
  ∧ (∀ total, (∀ inp, allowed inp → agree (ri_task_total inp) (Some total)) → rp_total_size plan0 = Some total →
       rp_total_size (rs_plan s) = Some total).
Proof.
  intros [H1 H2] H0 Hs. pose proof (refresh_reachable_inv _ _ _ H1 H2 _ _ H0 Hs) as Hinv.
  split; [|split]; [|intros tid inp s' p; by apply turn_granted|intros total; by eapply reachable_total].
  destruct Hinv as (_ & Hg & _). intros t1 t2 ph1 ph2 Hl1 Hl2 Ha1 Ha2.
  pose proof (Hg _ _ Hl1 Ha1). pose proof (Hg _ _ Hl2 Ha2). congruence.
Qed.

(** When the refresher answers with plans that pass the checks and stay fresh, any number of
    concurrent parts that find the plan stale call it at most once. *)
Theorem refresh_at_most_once has_refresher allowed plan0 s0 s :
  refresh_context plan0 allowed → (∀ inp, allowed inp → ∃ p, refreshed_turn inp plan0 = Ok p ∧ fresh_plan allowed p) →
  refresh_init plan0 s0 → rtc (refresh_step has_refresher allowed) s0 s → (rs_calls s ≤ 1)%nat.
Proof.
  intros [H1 H2] Hok H0 Hs.
  assert (refresh_inv s ∧ once_inv allowed plan0 s) as [_ Hi].
  { apply (rtc_invariant (refresh_step has_refresher allowed) (λ s, refresh_inv s ∧ once_inv allowed plan0 s) s0 s);
      [..|exact Hs].
    - intros a b [Ha Hb] Hst. split; [by eapply refresh_step_inv|by eapply once_step_inv].
    - split; [by eapply refresh_init_inv|]. destruct H0 as (Hp & _ & Hc & Ht). left. split; [done|]. split; [done|].
      intros tid p Hl. apply Ht in Hl. done. }
  destruct Hi as [(-> & _)|[(-> & _)|(-> & _)]]; lia.
Qed.

(** Waiting for the gate never deadlocks, not even when a refresher calls into the download it
    refreshes: while a call has not returned some step lowers the work left, and every step
    lowers it or (a nested call) changes nothing. *)
Theorem refresh_progress has_refresher allowed plan0 s0 s :
  refresh_context plan0 allowed → (∃ inp, allowed inp) → refresh_init plan0 s0 →
  rtc (refresh_step has_refresher allowed) s0 s →
  (∀ inp plan, start_turn has_refresher true inp plan ≠ RWaiting)
  ∧ (∀ s', refresh_step has_refresher allowed s s' → s' = s ∨ (refresh_work s' < refresh_work s)%nat)
  ∧ (∀ tid ph, rs_threads s !! tid = Some ph → (∀ r, ph ≠ RDone r) →
       ∃ s', refresh_step has_refresher allowed s s' ∧ (refresh_work s' < refresh_work s)%nat).
Proof.
  intros [H1 H2] Hex H0 Hs. pose proof (refresh_reachable_inv _ _ _ H1 H2 _ _ H0 Hs) as Hinv.
  split; [apply reentrant_never_waits|]. split; [apply step_work|]. intros tid ph Hl Hph. by eapply can_work.
Qed.

(** The URL a request is sent to is that of the plan its headers were taken from, even when
    another part publishes a new plan between the two calls; and when the plan of a HEAD request
    could not be refreshed the request is not built. *)
Theorem request_one_generation key snapshot fresh stop range_value base task_url current c :
  (∀ c' headers, presigned_merge_range_get_headers key snapshot stop range_value base c = (c', Ok headers) →
     ∃ plan, snapshot = Ok plan ∧ (presigned_range_url key current c').2 = rp_range_url plan
       ∧ (∀ name vs, rp_range_headers plan !! name = Some vs → vs ≠ [] → headers !! name = option_map (λ v, [v]) (last vs)))
  ∧ (∀ headers c', presigned_merge_head_headers key fresh stop base (presigned_head_url key snapshot task_url c).1
       = (c', Ok headers) →
     ∃ plan, snapshot = Ok plan
       ∧ (presigned_head_url key snapshot task_url c).2 = default (rp_range_url plan) (rp_head_url plan)).
Proof.
  split.
  - intros c' headers. unfold presigned_merge_range_get_headers, request_from_fresh_snapshot_for_task.
    destruct snapshot as [plan|]; [|done]. destruct (forallb _ _); [|done]. destruct (ensure_task_active stop); [|done].
    intros [= <- <-]. exists plan. split; [done|]. split.
    + unfold presigned_range_url. cbn [pc_range_url]. by rewrite Nat.eqb_refl.
    + intros name vs Hvs Hne. unfold merge_headers. destruct (last vs) as [v|] eqn:Hv; [|by apply last_None in Hv].
      cbn [option_map]. apply lookup_union_Some_l. rewrite lookup_omap, Hvs. simpl. by rewrite Hv.
  - intros headers c'. unfold presigned_merge_head_headers, take_remembered_head_snapshot, presigned_head_url.
    cbn [pc_head fst snd]. rewrite Nat.eqb_refl. destruct snapshot as [plan|]; [|done]. intros _.
    exists plan. split; [done|]. by destruct (rp_head_url plan).
Qed.

(** ** Two parts with an expired URL *)

Definition demo_range_plan : PresignedRangeDownloadPlan :=
  mkRangePlan (Some 8) None "https://old" (Some 10) 60 ∅ ∅.
Definition demo_fresh_plan : PresignedRangeDownloadPlan :=
  mkRangePlan (Some 8) None "https://new" (Some 1000) 60 ∅ {["x-sig" := [bs "n"]]}.
Definition demo_refresh_input : RefreshInput :=
  mkRefreshInput false false (Some 8) (Ok 50) (Ok 50) (Ok (Ok demo_fresh_plan)).
Definition demo_allowed (inp : RefreshInput) : Prop := inp = demo_refresh_input.
Definition demo_refresh_start : RefreshSys :=
  mkRefreshSys demo_range_plan None {[ 0%nat := RStart; 1%nat := RStart ]} 0.
Definition demo_refresh_mid : RefreshSys :=
  mkRefreshSys demo_range_plan (Some 0%nat) {[ 0%nat := RRefreshing demo_range_plan; 1%nat := RWaiting ]} 1.
Definition demo_refresh_end : RefreshSys :=
  mkRefreshSys demo_fresh_plan None {[ 0%nat := RDone (Ok demo_fresh_plan); 1%nat := RWaiting ]} 1.

Lemma demo_refresh_context : refresh_context demo_range_plan demo_allowed.
Proof.
  split.
  - split; [done|]. by intros e [= <-].
  - intros inp r -> [= <-]. split; [done|]. by intros e [= <-].
Qed.

Lemma demo_refresh_init : refresh_init demo_range_plan demo_refresh_start.
Proof.
  split; [done|]. split; [done|]. split; [done|]. intros tid ph H. cbn in H.
  apply lookup_insert_Some in H as [[_ <-]|[_ H]]; [done|]. by apply lookup_singleton_Some in H as [_ <-].
Qed.

Lemma demo_refresh_run_mid : rtc (refresh_step true demo_allowed) demo_refresh_start demo_refresh_mid.
Proof.
  eapply rtc_l; [exists 0%nat, demo_refresh_input; split; [done|]; by apply step_start|].
  eapply rtc_l; [exists 1%nat, demo_refresh_input; split; [done|]; by apply step_start|].
  eapply rtc_l; [exists 0%nat, demo_refresh_input; split; [done|]; by apply step_gate|].
  eapply rtc_l; [exists 0%nat, demo_refresh_input; split; [done|]; by eapply step_holding|].
  match goal with |- rtc _ ?a ?b => replace a with b by (vm_compute; reflexivity) end. apply rtc_refl.
Qed.

Lemma demo_last_turn : refresh_turn true 0 demo_refresh_input demo_refresh_mid demo_refresh_end.
Proof.
  replace demo_refresh_end with (mkRefreshSys demo_fresh_plan None
    (<[0%nat := RDone (Ok demo_fresh_plan)]> (rs_threads demo_refresh_mid)) (rs_calls demo_refresh_mid))
    by (vm_compute; reflexivity).
  by apply (step_refreshed true 0 demo_refresh_input demo_refresh_mid demo_range_plan (Ok demo_fresh_plan)).
Qed.

Lemma demo_refresh_run : rtc (refresh_step true demo_allowed) demo_refresh_start demo_refresh_end.
Proof. eapply rtc_r; [exact demo_refresh_run_mid|]. exists 0%nat, demo_refresh_input. split; [done|exact demo_last_turn]. Qed.

(** The thread that refreshes the expired plan is handed the fresh one. *)
Lemma refresh_safe_witness :
  rp_total_size (rs_plan demo_refresh_mid) = Some 8 ∧ granted demo_refresh_input demo_range_plan demo_fresh_plan.
Proof.
  destruct (refresh_safe true demo_allowed demo_range_plan demo_refresh_start demo_refresh_mid demo_refresh_context
    demo_refresh_init demo_refresh_run_mid) as (_ & Hu & Ht). split.
  - apply Ht; [|reflexivity]. intros inp ->. intros x y [= <-] [= <-]. reflexivity.
  - apply (Hu 0%nat demo_refresh_input demo_refresh_end); [exact demo_last_turn|reflexivity].
Defined.

Lemma refresh_at_most_once_witness : (rs_calls demo_refresh_end ≤ 1)%nat.
Proof.
  apply (refresh_at_most_once true demo_allowed demo_range_plan demo_refresh_start demo_refresh_end demo_refresh_context).
  - intros inp ->. exists demo_fresh_plan. split; [reflexivity|]. intros inp ->. reflexivity.
  - exact demo_refresh_init.
  - exact demo_refresh_run.
Defined.

Lemma refresh_progress_witness :
  ∃ s', refresh_step true demo_allowed demo_refresh_end s' ∧ (refresh_work s' < refresh_work demo_refresh_end)%nat.
Proof.
  destruct (refresh_progress true demo_allowed demo_range_plan demo_refresh_start demo_refresh_end demo_refresh_context
    (ex_intro _ demo_refresh_input eq_refl) demo_refresh_init demo_refresh_run) as (_ & _ & Hp).
  apply (Hp 1%nat RWaiting); [reflexivity|]. intros r. discriminate.
Defined.
