(* ===== verification/AzureUpload.v ===== *)
(** * Block uploads to Azure Blob Storage

    [src/azure-blob-direct/upload.rs] and [xml.rs], and the block ids of [src/azure-blob-sas]: a blob
    is uploaded as uncommitted blocks, named after their index, and committed by a list of the
    block names. There is no session on the server other than the uncommitted blocks of the blob;
    the client keeps the set of indices it knows to be there.

    Base64 (a library), the signature and transport of a request, and the texts of error bodies are
    parameters. *)
From stdpp Require Import sorting.
From S2P Require Import Prelude Errors HttpHeaders DownloadIdentity RangeDownload DownloadPrepare.
From S2P Require Import UploadFile UploadChunks ProviderXml.
#[local] Open Scope Z_scope.

Record AzureBlock := mkAzureBlock { block_index : Z; block_size : Z }.
Record PutBlockSession := mkPutBlocks {
  az_target_url : option (list Z);
  uploaded_blocks : gset Z;
}.
Definition put_block_session_default : PutBlockSession := mkPutBlocks None ∅.

Definition MAX_AZURE_BLOCK_LIST_ENTRIES : nat := 50000.
Definition MAX_AZURE_BLOCKS : Z := 50000.
Definition MAX_AZURE_BLOCK_BYTES : Z := 4000 * 1024 * 1024.
Definition AZURE_RESERVED_QUERY_KEYS : list string := ["comp"; "blockid"; "blocklisttype"].

(** [format!("{index:08}")] *)
Definition pad8 (index : Z) : list Z :=
  let digits := bs (pretty index) in replicate (8 - length digits) 48 ++ digits.

Inductive AzRequest :=
| ListUncommitted
| PutBlock (id body : list Z)
| PutBlockList (xml : list Z)
| DeleteBlob.

Record AzEnv := mkAzEnv {
  ae_sign : AzRequest → option MeowError;
  ae_send : AzRequest → result HttpResponse string;
  (** the length the client knows of a response *)
  ae_content_length : HttpResponse → option Z;
  (** the redacted text of an error response *)
  ae_error_body : HttpResponse → string;
  (** [log::sanitize_url] *)
  ae_sanitize : list Z → string;
}.

Section Azure.
Context (W : Z) (parse_xml : list Z → option (list XmlNode)) (status_text : Z → string).
Context (b64_encode : list Z → list Z) (b64_decode : list Z → option (list Z)).

(** ** Block names and lists *)

Definition block_id_by_index (index : Z) : list Z := b64_encode (pad8 index).

Definition block_list_xml (block_ids : list (list Z)) : list Z :=
  bs "<?xml version=" ++ [34] ++ bs "1.0" ++ [34] ++ bs " encoding=" ++ [34] ++ bs "utf-8" ++ [34] ++ bs "?><BlockList>"
  ++ mjoin (map (λ id, bs "<Latest>" ++ id ++ bs "</Latest>") block_ids) ++ bs "</BlockList>".

Definition parse_canonical_block_index (encoded : list Z) : result Z string :=
  let? raw := ok_or (b64_decode encoded) "Azure block id is not valid base64" in
  if negb (bool_decide (b64_encode raw = encoded)) then Err "Azure block id is not canonical base64"
  else if negb (is_utf8 raw) then Err "Azure block id is not UTF-8"
  else if negb (length raw =? 8)%nat || negb (forallb is_ascii_digit raw) then
    Err "Azure block id is not an eight-digit decimal index"
  else
    let? index := ok_or (parse_u64 raw) "Azure block index overflow" in
    if negb (bool_decide (pad8 index = raw)) then Err "Azure block id is not canonical" else Ok index.

Fixpoint blocks_loop (blocks : list XmlNode) (parsed : list AzureBlock) (seen : list Z) : result (list AzureBlock) string :=
  match blocks with
  | [] => Ok parsed
  | block :: blocks =>
      let? encoded := exactly_one_nonempty_text block "Name" in
      let? index := parse_canonical_block_index encoded in
      let? size := exactly_one_nonempty_text block "Size" in
      let? size := ok_or (parse_u64 size) "invalid Azure block Size" in
      if size =? 0 then Err "Azure block size must be non-zero"
      else if bool_decide (index ∈ seen) then Err "duplicate Azure block id"
      else blocks_loop blocks (parsed ++ [mkAzureBlock index size]) (index :: seen)
  end.

Definition block_le (a b : AzureBlock) : Prop := block_index a ≤ block_index b.
#[export] Instance block_le_dec : RelDecision block_le.
Proof. intros a b. unfold block_le. apply _. Defined.

Definition parse_block_entries_from_block_list (xml : list Z) : result (list AzureBlock) string :=
  let? document := parse_document parse_xml xml in
  let? root := document_root document "BlockList" in
  let? sections := child_elements root "UncommittedBlocks" 2 in
  match sections with
  | [] => Ok []
  | [section] =>
      let? blocks := child_elements section "Block" MAX_AZURE_BLOCK_LIST_ENTRIES in
      let? parsed := blocks_loop blocks [] [] in
      Ok (merge_sort block_le parsed)
  | _ => Err "duplicate UncommittedBlocks section"
  end.

(** ** Checks of a task *)

(** [usize::try_from] of a 64-bit number *)
Definition to_usize (what : string) (v : Z) : result Z MeowError :=
  if v <? 2 ^ W then Ok v
  else Err (from_code InvalidRange (what +:+ ": out of range integral type conversion attempted")).

Definition part_index (offset chunk_size : Z) : result Z MeowError := to_usize "part index overflow" (offset / chunk_size).
Definition total_chunks (t : ProviderTask) : result Z MeowError :=
  to_usize "total chunk count overflow" (div_ceil (ot_total t) (ot_chunk t)).

Definition reject_azure_keys (url : ProviderUrl) : result unit MeowError :=
  reject_reserved_query_keys (ou_pairs url) AZURE_RESERVED_QUERY_KEYS "Azure Blob".

(** [build_query_url], up to the query it appends *)
Definition az_query_url (env : AzEnv) (t : ProviderTask) : result unit MeowError :=
  match ot_parsed t with
  | Err e => Err (from_code ParameterEmpty ("invalid azure blob url: " +:+ ae_sanitize env (ot_url t) +:+ " (" +:+ e +:+ ")"))
  | Ok url => reject_azure_keys url
  end.

Definition validate_azure_task (t : ProviderTask) : result unit MeowError :=
  let? url := match ot_parsed t with
              | Err e => Err (from_code ParameterEmpty ("invalid azure blob URL: " +:+ e))
              | Ok url => Ok url
              end in
  let? _ := reject_azure_keys url in
  if MAX_AZURE_BLOCK_BYTES <? ot_chunk t then
    Err (from_code InvalidRange ("Azure block size " +:+ pretty (ot_chunk t) +:+ " exceeds max "
      +:+ pretty MAX_AZURE_BLOCK_BYTES))
  else
    let? chunks := total_chunks t in
    if MAX_AZURE_BLOCKS <? chunks then
      Err (from_code InvalidRange ("Azure block blob supports at most " +:+ pretty MAX_AZURE_BLOCKS
        +:+ " blocks; task requires " +:+ pretty chunks))
    else Ok tt.

Definition az_validate_resume_offset (t : ProviderTask) (local_offset : Z) : result unit MeowError :=
  if ot_total t <? local_offset then
    Err (from_code InvalidRange ("local offset " +:+ pretty local_offset +:+ " exceeds total size " +:+ pretty (ot_total t)))
  else if negb (local_offset =? ot_total t) && negb (local_offset mod ot_chunk t =? 0) then
    Err (from_code InvalidTaskState ("local offset " +:+ pretty local_offset +:+ " is not aligned to chunk size "
      +:+ pretty (ot_chunk t) +:+ "; cannot safely resume Azure block upload"))
  else Ok tt.

Fixpoint blocks_present (indices : list Z) (uploaded : gset Z) : result unit MeowError :=
  match indices with
  | [] => Ok tt
  | idx :: indices =>
      if bool_decide (idx ∈ uploaded) then blocks_present indices uploaded
      else Err (from_code InvalidTaskState ("remote Azure block list is missing block index " +:+ pretty idx))
  end.
Definition validate_all_blocks_present (expected_blocks : Z) (uploaded : gset Z) : result unit MeowError :=
  blocks_present (map Z.of_nat (seq 0 (Z.to_nat expected_blocks))) uploaded.

Definition validate_remote_blocks_for_resume (t : ProviderTask) (local_offset : Z) (uploaded : gset Z) : result unit MeowError :=
  let? expected_blocks :=
    if local_offset =? ot_total t then total_chunks t
    else to_usize "completed block count overflow" (local_offset / ot_chunk t) in
  validate_all_blocks_present expected_blocks uploaded.

Definition expected_block_size (total_size chunk_size index : Z) : result Z MeowError :=
  let? start := ok_or (checked_mul U64_MAX index chunk_size)
    (from_code_str InvalidRange "Azure block offset arithmetic overflow") in
  let? remaining := ok_or (checked_sub total_size start)
    (from_code_str InvalidTaskState "Azure block starts beyond the task total") in
  if remaining =? 0 then Err (from_code_str InvalidTaskState "Azure block starts at the task end")
  else Ok (Z.min remaining chunk_size).

Fixpoint check_blocks (t : ProviderTask) (total : Z) (blocks : list AzureBlock) : result unit MeowError :=
  match blocks with
  | [] => Ok tt
  | block :: blocks =>
      if total <=? block_index block then
        Err (from_code InvalidTaskState ("remote Azure block index " +:+ pretty (block_index block)
          +:+ " is outside the task plan of " +:+ pretty total +:+ " blocks"))
      else
        let? expected_size := expected_block_size (ot_total t) (ot_chunk t) (block_index block) in
        if negb (block_size block =? expected_size) then
          Err (from_code InvalidTaskState ("remote Azure block " +:+ pretty (block_index block) +:+ " has size "
            +:+ pretty (block_size block) +:+ ", expected " +:+ pretty expected_size))
        else check_blocks t total blocks
  end.

Definition block_indices (blocks : list AzureBlock) : gset Z := list_to_set (map block_index blocks).

Definition validate_remote_block_entries (t : ProviderTask) (local_offset : Z) (blocks : list AzureBlock)
    : result unit MeowError :=
  let? total := total_chunks t in
  let? _ := check_blocks t total blocks in
  validate_remote_blocks_for_resume t local_offset (block_indices blocks).

(** ** Requests *)

Definition az_call (env : AzEnv) (t : ProviderTask) (req : AzRequest) (failed : string) : result HttpResponse MeowError :=
  let? _ := az_query_url env t in
  match ae_sign env req with
  | Some e => Err e
  | None =>
      match ae_send env req with
      | Err e => Err (from_source HttpError failed (io_other e))
      | Ok resp => Ok resp
      end
  end.

Definition az_status_error (env : AzEnv) (failed : string) (resp : HttpResponse) : MeowError :=
  with_http_status (from_code ResponseStatusError (failed +:+ ": " +:+ status_text (resp_status resp) +:+ ", body: "
    +:+ ae_error_body env resp)) (resp_status resp).

Definition list_uncommitted_blocks (env : AzEnv) (t : ProviderTask) : result (list AzureBlock) MeowError :=
  let? resp := az_call env t ListUncommitted "azure list block list failed" in
  if resp_status resp =? 404 then Ok []
  else if negb (is_success (resp_status resp)) then Err (az_status_error env "azure list block list failed" resp)
  else
    let? body := read_control_body W (ae_content_length env resp) (resp_body resp) "azure list block list" in
    match parse_block_entries_from_block_list body with
    | Ok blocks => Ok blocks
    | Err reason => Err (from_code ResponseParseError ("azure list block list XML rejected: " +:+ reason))
    end.

(** ** The upload protocol *)

Definition az_info (next : Z) : UploadResumeInfo := mkResumeInfo None (Some next) None.

Definition az_prepare (env : AzEnv) (t : ProviderTask) (local_offset : Z) (s : PutBlockSession)
    : PutBlockSession * result UploadResumeInfo MeowError :=
  match validate_azure_task t with
  | Err e => (s, Err e)
  | Ok _ =>
      let s := if bool_decide (az_target_url s = Some (ot_url t)) then s else mkPutBlocks (Some (ot_url t)) ∅ in
      if local_offset =? 0 then (mkPutBlocks (az_target_url s) ∅, Ok (az_info 0))
      else
        match az_validate_resume_offset t local_offset with
        | Err e => (s, Err e)
        | Ok _ =>
            if negb (bool_decide (uploaded_blocks s = ∅)) then
              (s, let? _ := validate_remote_blocks_for_resume t local_offset (uploaded_blocks s) in Ok (az_info local_offset))
            else
              match (let? blocks := list_uncommitted_blocks env t in
                     let? _ := validate_remote_block_entries t local_offset blocks in Ok blocks) with
              | Err e => (s, Err e)
              | Ok blocks =>
                  let s := mkPutBlocks (az_target_url s) (block_indices blocks ∪ uploaded_blocks s) in
                  (s, let? _ := validate_remote_blocks_for_resume t local_offset (uploaded_blocks s) in
                      Ok (az_info local_offset))
              end
        end
  end.

Definition az_upload_chunk (env : AzEnv) (t : ProviderTask) (offset : Z) (chunk : list Z) (s : PutBlockSession)
    : PutBlockSession * result UploadResumeInfo MeowError :=
  let uploaded :=
    let? _ := validate_azure_task t in
    if MAX_AZURE_BLOCK_BYTES <? Z.of_nat (length chunk) then
      Err (from_code InvalidRange ("Azure block size " +:+ pretty (Z.of_nat (length chunk)) +:+ " exceeds max "
        +:+ pretty MAX_AZURE_BLOCK_BYTES))
    else
      let? idx := part_index offset (ot_chunk t) in
      if MAX_AZURE_BLOCKS <=? idx then
        Err (from_code InvalidRange ("Azure block index " +:+ pretty idx +:+ " exceeds max index "
          +:+ pretty (MAX_AZURE_BLOCKS - 1)))
      else
        let? resp := az_call env t (PutBlock (block_id_by_index idx) chunk) "azure put block failed" in
        if negb (is_success (resp_status resp)) then Err (az_status_error env "azure put block failed" resp)
        else Ok idx in
  match uploaded with
  | Err e => (s, Err e)
  | Ok idx =>
      (mkPutBlocks (az_target_url s) ({[idx]} ∪ uploaded_blocks s), Ok (az_info (offset + Z.of_nat (length chunk))))
  end.

(** The names of all blocks, in order. *)
Definition all_block_ids (total : Z) : list (list Z) :=
  map (λ i, block_id_by_index (Z.of_nat i)) (seq 0 (Z.to_nat total)).

Definition az_complete_upload (env : AzEnv) (t : ProviderTask) (s : PutBlockSession)
    : PutBlockSession * result (option string) MeowError :=
  let committed :=
    let? _ := validate_azure_task t in
    let? total := total_chunks t in
    let? _ := validate_all_blocks_present total (uploaded_blocks s) in
    let? resp := az_call env t (PutBlockList (block_list_xml (all_block_ids total))) "azure put block list failed" in
    if negb (is_success (resp_status resp)) then Err (az_status_error env "azure put block list failed" resp)
    else Ok tt in
  match committed with
  | Err e => (s, Err e)
  | Ok _ => (mkPutBlocks (az_target_url s) ∅, Ok None)
  end.

Definition az_abort_upload (env : AzEnv) (t : ProviderTask) (s : PutBlockSession)
    : PutBlockSession * result unit MeowError :=
  let deleted :=
    let? resp := az_call env t DeleteBlob "azure delete blob on cancel failed" in
    if negb (is_success (resp_status resp) || (resp_status resp =? 404)) then
      Err (az_status_error env "azure delete blob on cancel failed" resp)
    else Ok tt in
  match deleted with
  | Err e => (s, Err e)
  | Ok _ => (mkPutBlocks (az_target_url s) ∅, Ok tt)
  end.

End Azure.
