(* ===== verification/AzureUploadProps.v ===== *)
(** * The blob of an Azure upload

    The theorems of [AzureUpload]: block names are read back as the indices they stand for, and a
    completed upload commits the bytes kept below its resume offset, in blocks of the plan's sizes,
    followed by the content. *)
From stdpp Require Import sorting.
From S2P Require Import Prelude Errors HttpHeaders DownloadIdentity RangeDownload DownloadPrepare.
From S2P Require Import UploadFile UploadChunks ProviderXml OssUpload OssUploadProps AzureUpload.
#[local] Open Scope Z_scope.

(** ** Block names *)

Lemma parse_digits_zeros k l : parse_digits 0 (replicate k 48 ++ l) = parse_digits 0 l.
Proof. induction k as [|k IH]; [done|]. cbn [replicate app parse_digits is_ascii_digit]. exact IH. Qed.

Lemma pretty_go_length k n s : (n < 10 ^ N.of_nat k)%N → (String.length (pretty_N_go n s) ≤ k + String.length s)%nat.
Proof.
  revert n s. induction k as [|k IH]; intros n s Hn.
  { assert (n = 0%N) as -> by (simpl in Hn; lia). by rewrite pretty_N_go_0. }
  destruct (decide (n = 0%N)) as [->|Hne]; [rewrite pretty_N_go_0; lia|]. rewrite pretty_N_go_step by lia.
  etrans; [apply IH|simpl; lia]. apply N.Div0.div_lt_upper_bound. rewrite Nat2N.inj_succ, N.pow_succ_r' in Hn. lia.
Qed.

Lemma length_bs s : length (bs s) = String.length s.
Proof. induction s as [|c s IH]; simpl; [done|]. by rewrite IH. Qed.

Lemma digits_utf8 l : forallb is_ascii_digit l = true → is_utf8 l = true.
Proof.
  induction l as [|b l IH]; cbn [forallb is_utf8]; [done|]. intros [Hb Hl]%andb_true_iff. unfold is_ascii_digit in Hb.
  unfold in_range at 1. rewrite (proj2 (andb_true_iff _ _)); [by apply IH|]. zbool. lia.
Qed.

Lemma pad8_digits i :
  0 ≤ i < 10 ^ 8 → length (pad8 i) = 8%nat ∧ forallb is_ascii_digit (pad8 i) = true ∧ parse_u64 (pad8 i) = Some i.
Proof.
  intros Hi. destruct (parse_pretty i) as (Hp & Hd & Hne); [unfold fits, U64_MAX; lia|]. unfold pad8.
  assert (length (bs (pretty i)) ≤ 8)%nat as Hl.
  { rewrite length_bs. destruct i as [|q|q]; [simpl; lia| |lia].
    change (pretty (Z.pos q)) with (pretty_N_go (N.pos q) "").
    etrans; [apply (pretty_go_length 8); simpl; lia|simpl; lia]. }
  split; [rewrite length_app, length_replicate; lia|]. split.
  - rewrite forallb_app, Hd, andb_true_r. by induction (8 - _)%nat.
  - unfold parse_u64. destruct (8 - length (bs (pretty i)))%nat as [|k] eqn:Hk; cbn [replicate app].
    + destruct (bs (pretty i)) as [|b l] eqn:Hb; [done|]. cbn [forallb] in Hd. apply andb_true_iff in Hd as [Hb' _].
      replace (b =? 43) with false; [done|]. symmetry. apply Z.eqb_neq. intros ->. done.
    + change (parse_digits 0 (replicate (S k) 48 ++ bs (pretty i)) = Some i). by rewrite parse_digits_zeros.
Qed.

Section Blob.
Context (W : Z) (parse_xml : list Z → option (list XmlNode)) (status_text : Z → string).
Context (b64_encode : list Z → list Z) (b64_decode : list Z → option (list Z)).
Context (Hb64 : ∀ l, b64_decode (b64_encode l) = Some l).
Notation block_id := (block_id_by_index b64_encode).

Lemma block_index_of_id i : 0 ≤ i < 10 ^ 8 → parse_canonical_block_index b64_encode b64_decode (block_id i) = Ok i.
Proof.
  intros Hi. destruct (pad8_digits i Hi) as (Hl & Hd & Hp). unfold parse_canonical_block_index, block_id_by_index.
  rewrite Hb64. cbn [ok_or]. rewrite bool_decide_true by done. cbn [negb]. rewrite digits_utf8 by done. cbn [negb].
  rewrite Hl, Hd, Hp. cbn [ok_or Nat.eqb negb orb]. by rewrite bool_decide_true.
Qed.

Lemma block_id_inj i j : 0 ≤ i < 10 ^ 8 → 0 ≤ j < 10 ^ 8 → block_id i = block_id j → i = j.
Proof. intros Hi Hj Heq. pose proof (block_index_of_id i Hi) as H. rewrite Heq, block_index_of_id in H by done. by injection H. Qed.

Context (content : list Z) (t : ProviderTask).

(** Get Block List of the uncommitted blocks, as documented. *)
Definition lists_blocks (blocks : list AzureBlock) (srv : gmap (list Z) (list Z)) : Prop :=
  ∀ blk, blk ∈ blocks → 0 ≤ block_index blk ∧ ∃ b, srv !! block_id (block_index blk) = Some b ∧ block_size blk = len b.

Context (Hchunk : 0 < ot_chunk t) (Htotal : ot_total t = len content) (Hu64 : len content ≤ U64_MAX).
Notation total_blocks := (div_ceil (ot_total t) (ot_chunk t)).

(** What the client's set means: those blocks are on the server, with the sizes of the plan. *)
Definition blocks_sized (srv : gmap (list Z) (list Z)) (s : PutBlockSession) : Prop :=
  ∀ i, i ∈ uploaded_blocks s → 0 ≤ i < MAX_AZURE_BLOCKS
    ∧ i * ot_chunk t < len content ∧ sized_part content (ot_chunk t) (i + 1) (srv !! block_id i).

Lemma expected_block_size_plan i :
  0 ≤ i → i * ot_chunk t < ot_total t →
  expected_block_size (ot_total t) (ot_chunk t) i = Ok (Z.min (ot_total t - i * ot_chunk t) (ot_chunk t)).
Proof.
  intros Hi Hp. unfold expected_block_size.
  rewrite (proj2 (checked_mul_Some U64_MAX _ _ (i * ot_chunk t))) by lia. cbn [ok_or].
  rewrite (proj2 (checked_sub_Some _ _ (ot_total t - i * ot_chunk t))) by lia. cbn [ok_or].
  by rewrite (proj2 (Z.eqb_neq _ _)) by lia.
Qed.

Lemma check_blocks_Ok blocks blk :
  check_blocks t total_blocks blocks = Ok tt → blk ∈ blocks → 0 ≤ block_index blk →
  block_index blk * ot_chunk t < ot_total t
  ∧ block_size blk = Z.min (ot_total t - block_index blk * ot_chunk t) (ot_chunk t).
Proof.
  intros H Hin H0. induction blocks as [|x blocks IH]; [by apply elem_of_nil in Hin|]. cbn [check_blocks] in H.
  destruct (Z.leb_spec total_blocks (block_index x)) as [|Hlt]; [done|].
  destruct (expected_block_size _ _ _) as [sz|] eqn:Hsz; [|done]. destruct (Z.eqb_spec (block_size x) sz); [|done].
  apply elem_of_cons in Hin as [->|Hin]; [|by apply IH].
  assert (block_index x * ot_chunk t < ot_total t) as Hb.
  { pose proof (part_in_plan t Hchunk ltac:(lia) (block_index x + 1)) as [Hp _]. specialize (Hp ltac:(lia)). nia. }
  split; [done|]. rewrite expected_block_size_plan in Hsz by done. injection Hsz as Hsz. lia.
Qed.

Lemma blocks_present_Ok ns uploaded : blocks_present ns uploaded = Ok tt → ∀ n, n ∈ ns → n ∈ uploaded.
Proof.
  induction ns as [|x ns IH]; intros H n Hn; [by apply elem_of_nil in Hn|]. cbn [blocks_present] in H.
  case_bool_decide; [|done]. apply elem_of_cons in Hn as [->|Hn]; [done|by apply IH].
Qed.

Lemma all_blocks_present_Ok n uploaded i :
  validate_all_blocks_present n uploaded = Ok tt → 0 ≤ i < n → i ∈ uploaded.
Proof.
  intros H Hi. eapply blocks_present_Ok; [exact H|]. apply list_elem_of_fmap. exists (Z.to_nat i).
  split; [lia|]. apply elem_of_seq. lia.
Qed.

Lemma to_usize_Ok what v r : to_usize W what v = Ok r → r = v.
Proof. unfold to_usize. destruct (v <? 2 ^ W); [|done]. by intros [= ->]. Qed.

Lemma validate_azure_task_blocks : validate_azure_task W t = Ok tt → total_blocks ≤ MAX_AZURE_BLOCKS.
Proof.
  unfold validate_azure_task. destruct (ot_parsed t) as [u|]; [|done]. destruct (reject_azure_keys u); [|done].
  case_match; [done|]. destruct (total_chunks W t) as [n|] eqn:Hn; [|done]. apply to_usize_Ok in Hn as ->.
  destruct (Z.ltb_spec MAX_AZURE_BLOCKS total_blocks); [done|lia].
Qed.

(** Blocks of another run that pass the checks have the sizes of this run's plan. *)
Lemma adopted_sized off blocks srv url :
  total_blocks ≤ MAX_AZURE_BLOCKS → lists_blocks blocks srv → validate_remote_block_entries W t off blocks = Ok tt →
  blocks_sized srv (mkPutBlocks url (block_indices blocks)).
Proof.
  intros Hmax Hl. unfold validate_remote_block_entries.
  destruct (total_chunks W t) as [n|] eqn:Hn; [|done]. apply to_usize_Ok in Hn as ->.
  destruct (check_blocks t total_blocks blocks) as [[]|] eqn:Hchk; [|done]. intros _.
  intros i (blk & -> & Hin)%elem_of_list_to_set%list_elem_of_fmap. destruct (Hl blk Hin) as [H0 (b & Hb & Hsz)].
  destruct (check_blocks_Ok blocks blk Hchk Hin H0) as [Hp Hs]. set (i := block_index blk) in *.
  pose proof (part_in_plan t Hchunk ltac:(lia) (i + 1)) as Hip. assert (i + 1 ≤ total_blocks) by (apply Hip; nia).
  split; [lia|]. split; [lia|]. exists b. split; [done|]. rewrite <- Htotal. replace (i + 1 - 1) with i by lia. lia.
Qed.

(** The blocks below the resume offset are in the set. *)
Lemma resumed_blocks off uploaded i :
  az_validate_resume_offset t off = Ok tt → validate_remote_blocks_for_resume W t off uploaded = Ok tt →
  0 ≤ i → i * ot_chunk t < off → i ∈ uploaded.
Proof.
  intros Hoff Hres Hi Hlt. unfold validate_remote_blocks_for_resume in Hres.
  destruct (if off =? ot_total t then _ else _) as [e|] eqn:He; [|done]. eapply all_blocks_present_Ok; [exact Hres|].
  unfold az_validate_resume_offset in Hoff. destruct (Z.ltb_spec (ot_total t) off); [done|].
  destruct (Z.eqb_spec off (ot_total t)) as [->|Hne]; apply to_usize_Ok in He as ->.
  - pose proof (part_in_plan t Hchunk ltac:(lia) (i + 1)) as [_ H1]. specialize (H1 ltac:(nia)). lia.
  - cbn [negb andb] in Hoff. destruct (Z.eqb_spec (off mod ot_chunk t) 0) as [Hm|]; [|done].
    pose proof (Z.div_mod off (ot_chunk t) ltac:(lia)). split; [lia|]. nia.
Qed.

(** The session a successful preparation leaves, of an empty set, of another target's or of one
    filled by this process. *)
Lemma az_prepare_sized env off s s1 info srv :
  az_prepare W parse_xml status_text b64_encode b64_decode env t off s = (s1, Ok info) →
  (az_target_url s = Some (ot_url t) → blocks_sized srv s) →
  (∀ blocks, list_uncommitted_blocks W parse_xml status_text b64_encode b64_decode env t = Ok blocks → lists_blocks blocks srv) →
  blocks_sized srv s1 ∧ total_blocks ≤ MAX_AZURE_BLOCKS
  ∧ (off = 0 ∨ az_validate_resume_offset t off = Ok tt ∧ ∀ i, 0 ≤ i → i * ot_chunk t < off → i ∈ uploaded_blocks s1).
Proof.
  unfold az_prepare. destruct (validate_azure_task W t) as [[]|] eqn:Hv; [|done].
  pose proof (validate_azure_task_blocks Hv) as Hmax. intros H Hs Hl. revert H. set (s' := if bool_decide _ then s else _).
  assert (blocks_sized srv s') as Hs'.
  { unfold s'. case_bool_decide; [by apply Hs|]. intros i. set_solver. }
  destruct (Z.eqb_spec off 0) as [->|Hne].
  { intros [= <- _]. split; [intros i; set_solver|]. split; [done|by left]. }
  destruct (az_validate_resume_offset t off) as [[]|] eqn:Hoff; [|done]. case_bool_decide as Hempty; cbn [negb].
  - destruct (list_uncommitted_blocks _ _ _ _ _ _ _) as [blocks|] eqn:Hlist; [|done].
    destruct (validate_remote_block_entries W t off blocks) as [[]|] eqn:Hval; [|done].
    rewrite Hempty, (right_id_L ∅ (∪)). cbn [uploaded_blocks].
    destruct (validate_remote_blocks_for_resume _ _ _ _) as [[]|] eqn:Hres; [|done]. intros [= <- _].
    split; [|split; [done|right]]; [by eapply adopted_sized; eauto|]. split; [done|]. intros i. by eapply resumed_blocks.
  - destruct (validate_remote_blocks_for_resume _ _ _ _) as [[]|] eqn:Hres; [|done]. intros [= <- _].
    split; [done|]. split; [done|]. right. split; [done|]. intros i. by eapply resumed_blocks.
Qed.

(** ** Uploading and committing *)

Definition stores_block (env : AzEnv) (i : Z) (body : list Z) (srv srv' : gmap (list Z) (list Z)) : Prop :=
  srv' = <[block_id i := body]> srv
  ∨ srv' = srv ∧ ∀ resp, ae_send env (PutBlock (block_id i) body) = Ok resp → is_success (resp_status resp) = false.

Context (start : Z).

(** One attempt to upload the chunk at a grid offset from [start] on, in any order and any number
    of times; [acked] are the offsets whose upload returned [Ok]. *)
Inductive az_step : gmap (list Z) (list Z) * PutBlockSession * gset Z → gmap (list Z) (list Z) * PutBlockSession * gset Z → Prop :=
| az_put env o srv srv' s acked :
    start ≤ o < len content → o mod ot_chunk t = 0 →
    let body := slice content o (Z.min (o + ot_chunk t) (len content)) in
    stores_block env (o / ot_chunk t) body srv srv' →
    az_step (srv, s, acked)
      (srv', (az_upload_chunk W status_text b64_encode env t o body s).1,
       match (az_upload_chunk W status_text b64_encode env t o body s).2 with Ok _ => {[o]} ∪ acked | Err _ => acked end).

Lemma az_upload_cases env o body s :
  (∃ e, az_upload_chunk W status_text b64_encode env t o body s = (s, Err e)) ∨
  (∃ info, az_upload_chunk W status_text b64_encode env t o body s
    = (mkPutBlocks (az_target_url s) ({[o / ot_chunk t]} ∪ uploaded_blocks s), Ok info))
  ∧ ∃ resp, ae_send env (PutBlock (block_id (o / ot_chunk t)) body) = Ok resp ∧ is_success (resp_status resp) = true.
Proof.
  unfold az_upload_chunk. destruct (validate_azure_task W t); [|by left; eexists].
  destruct (MAX_AZURE_BLOCK_BYTES <? _); [by left; eexists|].
  destruct (part_index W o (ot_chunk t)) as [i|] eqn:Hi; [|by left; eexists]. apply to_usize_Ok in Hi as ->.
  destruct (MAX_AZURE_BLOCKS <=? _); [by left; eexists|]. unfold az_call.
  destruct (az_query_url env t); [|by left; eexists].
  destruct (ae_sign env _); [by left; eexists|]. destruct (ae_send env _) as [resp|] eqn:Hsend; [|by left; eexists].
  destruct (is_success (resp_status resp)) eqn:Hok; [|by left; eexists]. right. split; [by eexists|]. by exists resp.
Qed.

(** The set describes the server, which is what it was below [start] and has the content's block for
    every acknowledged chunk. *)
Definition az_inv (srv0 : gmap (list Z) (list Z)) (st : gmap (list Z) (list Z) * PutBlockSession * gset Z) : Prop :=
  let '(srv, s, acked) := st in
  blocks_sized srv s
  ∧ (∀ i, 0 ≤ i < MAX_AZURE_BLOCKS → i * ot_chunk t < start → srv !! block_id i = srv0 !! block_id i)
  ∧ ∀ o, o ∈ acked → 0 ≤ o / ot_chunk t < MAX_AZURE_BLOCKS
      ∧ srv !! block_id (o / ot_chunk t) = Some (plan_part content (ot_chunk t) (o / ot_chunk t + 1)).

Lemma az_step_inv srv0 st st' :
  total_blocks ≤ MAX_AZURE_BLOCKS → 0 ≤ start → az_inv srv0 st → az_step st st' → az_inv srv0 st'.
Proof.
  intros Hmax Hst0 Hr Hstep. destruct Hstep as [env o srv srv' s acked Ho Hm body Hst]. destruct Hr as (Hsz & Hk & Ha).
  set (i := o / ot_chunk t) in *. pose proof (Z.div_mod o (ot_chunk t) ltac:(lia)) as Hd. fold i in Hd.
  assert (i * ot_chunk t = o) as Hio by lia. assert (0 ≤ i) by (apply Z.div_pos; lia).
  assert (i + 1 ≤ total_blocks) by (apply part_in_plan; [done|lia|nia]). assert (0 ≤ i < MAX_AZURE_BLOCKS) as Hi by lia.
  assert (body = plan_part content (ot_chunk t) (i + 1)) as Hbody by (unfold body, plan_part; f_equal; nia).
  assert (sized_part content (ot_chunk t) (i + 1) (Some body)) as Hbs.
  { exists body. split; [done|]. rewrite Hbody. apply length_plan_part; nia. }
  assert (∀ j, 0 ≤ j < MAX_AZURE_BLOCKS → srv' !! block_id j = srv !! block_id j ∨ j = i ∧ srv' !! block_id j = Some body) as Hcases.
  { intros j Hj. destruct Hst as [->|[-> _]]; [|by left]. destruct (decide (block_id i = block_id j)) as [Heq|Hne].
    - right. rewrite Heq, lookup_insert_eq. apply block_id_inj in Heq as <-; [done|unfold MAX_AZURE_BLOCKS in *; lia..].
    - left. by rewrite lookup_insert_ne. }
  assert (blocks_sized srv' s) as Hsz'.
  { intros j Hj. destruct (Hsz j Hj) as (Hjr & Hjl & Hjs). split; [done|]. split; [done|].
    destruct (Hcases j Hjr) as [-> |[-> ->]]; done. }
  assert (∀ o', o' ∈ acked → 0 ≤ o' / ot_chunk t < MAX_AZURE_BLOCKS
    ∧ srv' !! block_id (o' / ot_chunk t) = Some (plan_part content (ot_chunk t) (o' / ot_chunk t + 1))) as Ha'.
  { intros o' Ho'. destruct (Ha o' Ho') as [Hr' Hsrv]. split; [done|].
    destruct (Hcases _ Hr') as [-> |[Heq ->]]; [done|]. by rewrite Heq, Hbody. }
  assert (∀ j, 0 ≤ j < MAX_AZURE_BLOCKS → j * ot_chunk t < start → srv' !! block_id j = srv0 !! block_id j) as Hk'.
  { intros j Hj Hlt. destruct (Hcases j Hj) as [-> |[-> _]]; [by apply Hk|lia]. }
  destruct (az_upload_cases env o body s) as [[e ->]|[[info ->] (resp & Hsend & Hok)]]; cbn [fst snd]; [done|].
  assert (srv' !! block_id i = Some body) as Hnew.
  { destruct Hst as [->|[_ Hno]]; [by rewrite lookup_insert_eq|by rewrite (Hno resp Hsend) in Hok]. }
  split; [|split; [done|]].
  - intros j [->%elem_of_singleton|Hj]%elem_of_union; [|by apply Hsz']. fold i. split; [done|]. split; [lia|]. by rewrite Hnew.
  - intros o' [->%elem_of_singleton|Ho']%elem_of_union; [|by apply Ha']. split; [done|]. fold i. by rewrite Hnew, Hbody.
Qed.

(** Put Block List as documented: the blob is the latest blocks of the listed names, in order. *)
Definition committed_blob (srv : gmap (list Z) (list Z)) (ids : list (list Z)) : list Z :=
  mjoin (map (λ id, default [] (srv !! id)) ids).

Lemma committed_join srv n :
  committed_blob srv (all_block_ids b64_encode n) = join_parts (λ k, srv !! block_id (k - 1)) 0 (Z.to_nat n).
Proof.
  unfold committed_blob, all_block_ids, join_parts. f_equal. rewrite <- (seq_shift (Z.to_nat n) 0), !map_map.
  apply map_ext. intros i. by replace (Z.of_nat (S i) - 1) with (Z.of_nat i) by lia.
Qed.

Lemma az_complete_sends env s s' r :
  az_complete_upload W status_text b64_encode env t s = (s', Ok r) →
  (∀ i, 0 ≤ i < total_blocks → i ∈ uploaded_blocks s)
  ∧ ∃ resp, ae_send env (PutBlockList (block_list_xml (all_block_ids b64_encode total_blocks))) = Ok resp
    ∧ is_success (resp_status resp) = true.
Proof.
  unfold az_complete_upload. destruct (validate_azure_task W t); [|done].
  destruct (total_chunks W t) as [n|] eqn:Hn; [|done]. apply to_usize_Ok in Hn as ->.
  destruct (validate_all_blocks_present _ _) as [[]|] eqn:Hall; [|done]. unfold az_call.
  destruct (az_query_url env t); [|done]. destruct (ae_sign env _); [done|].
  destruct (ae_send env _) as [resp|] eqn:Hsend; [|done]. destruct (is_success (resp_status resp)) eqn:Hok; [|done].
  intros _. split; [intros i Hi; by eapply all_blocks_present_Ok|]. by exists resp.
Qed.

Lemma az_resume_grid off :
  az_validate_resume_offset t off = Ok tt → off ≤ ot_total t ∧ (off = ot_total t ∨ off mod ot_chunk t = 0).
Proof.
  unfold az_validate_resume_offset. destruct (Z.ltb_spec (ot_total t) off) as [|Hle]; [done|]. intros H. split; [done|].
  destruct (Z.eqb_spec off (ot_total t)) as [|Hne]; [by left|right]. cbn [negb andb] in H.
  destruct (Z.eqb_spec (off mod ot_chunk t) 0) as [|]; done.
Qed.

(** The blob of a state in which every chunk from [start] on was acknowledged. *)
Lemma az_blob srv0 s1 srv s acked :
  0 ≤ start ≤ len content → start = len content ∨ start mod ot_chunk t = 0 → total_blocks ≤ MAX_AZURE_BLOCKS →
  blocks_sized srv0 s1 → (∀ i, 0 ≤ i → i * ot_chunk t < start → i ∈ uploaded_blocks s1) →
  az_inv srv0 (srv, s, acked) → (∀ o, start ≤ o < len content → o mod ot_chunk t = 0 → o ∈ acked) →
  let ids := all_block_ids b64_encode total_blocks in
  committed_blob srv ids = take (Z.to_nat start) (committed_blob srv0 ids) ++ drop (Z.to_nat start) content
  ∧ (start = 0 ∨ (∀ i, 0 ≤ i → i * ot_chunk t < start → srv0 !! block_id i = Some (plan_part content (ot_chunk t) (i + 1))) →
     committed_blob srv ids = content).
Proof.
  intros Hst Hal Hmax Hsz Hbelow (_ & Hk & Ha) Hall. cbv zeta. rewrite !committed_join.
  destruct (kept_and_rest content (ot_chunk t) Hchunk (λ k, srv0 !! block_id (k - 1)) (λ k, srv !! block_id (k - 1))
    start (Z.to_nat total_blocks)) as [H1 H2]; [done|done|rewrite Htotal; lia| | |].
  - intros n Hn Hlt. destruct (Hsz (n - 1)) as (Hr & Hl & Hs); [by apply Hbelow; lia|].
    replace (n - 1 + 1) with n in Hs by lia. split; [by apply Hk|done].
  - intros n Hn Hge. assert ((n - 1) * ot_chunk t < len content) as Hin.
    { rewrite <- Htotal. apply (part_in_plan t Hchunk ltac:(lia)). lia. }
    rewrite decide_True by done.
    destruct (Ha ((n - 1) * ot_chunk t)) as [_ Hs]; [apply Hall; [lia|apply Z.mod_mul; lia]|].
    rewrite Z.div_mul in Hs by lia. by replace (n - 1 + 1) with n in Hs by lia.
  - split; [exact H1|]. intros Hc. apply H2. destruct Hc as [->|Hc]; [by left|right].
    intros n Hn Hlt. rewrite Hc by lia. by replace (n - 1 + 1) with n by lia.
Qed.

End Blob.

(** C16: after a preparation that answers with the resume offset [off] - fresh, adopting the
    uncommitted blocks found on the server, or going on with the blocks of this process - and
    whatever chunk uploads from [off] on were lost, repeated or reordered, once all of those chunks
    were acknowledged a successful completion commits a block list whose blocks on the server are,
    in order, the bytes kept below [off], in blocks of the plan's sizes, followed by the content
    from [off] on: the content when [off] is zero or the kept blocks were cut from it, which the
    code does not check. The session still describes the server, so that a later preparation can go
    on with it. *)
Theorem azure_commit_is_content W parse_xml status_text b64_encode b64_decode content t env env' off s s1 info srv0 srv s2 s3 acked r :
  (∀ l, b64_decode (b64_encode l) = Some l) →
  0 < ot_chunk t → ot_total t = len content → len content ≤ U64_MAX → 0 ≤ off →
  (az_target_url s = Some (ot_url t) → blocks_sized b64_encode content t srv0 s) →
  (∀ blocks, list_uncommitted_blocks W parse_xml status_text b64_encode b64_decode env t = Ok blocks →
     lists_blocks b64_encode blocks srv0) →
  az_prepare W parse_xml status_text b64_encode b64_decode env t off s = (s1, Ok info) →
  rtc (az_step W status_text b64_encode content t off) (srv0, s1, ∅) (srv, s2, acked) →
  blocks_sized b64_encode content t srv s2
  ∧ ((∀ o, off ≤ o < len content → o mod ot_chunk t = 0 → o ∈ acked) →
     az_complete_upload W status_text b64_encode env' t s2 = (s3, Ok r) →
     let ids := all_block_ids b64_encode (div_ceil (ot_total t) (ot_chunk t)) in
     ∃ resp, ae_send env' (PutBlockList (block_list_xml ids)) = Ok resp ∧ is_success (resp_status resp) = true
       ∧ committed_blob srv ids = take (Z.to_nat off) (committed_blob srv0 ids) ++ drop (Z.to_nat off) content
       ∧ (off = 0 ∨ (∀ i, 0 ≤ i → i * ot_chunk t < off →
            srv0 !! block_id_by_index b64_encode i = Some (plan_part content (ot_chunk t) (i + 1))) →
          committed_blob srv ids = content)).
Proof.
  intros Hb64 Hc Ht Hu Ho Hs Hl Hprep Hsteps.
  edestruct az_prepare_sized as (Hr & Hmax & Hoff); [exact Hb64|exact Hc|exact Ht|exact Hu|exact Hprep|exact Hs|exact Hl|].
  assert (az_inv b64_encode content t off srv0 (srv, s2, acked)) as Hinv.
  { eapply (rtc_invariant _ (az_inv b64_encode content t off srv0)); [| |exact Hsteps].
    - intros a b Ha Hab. by eapply az_step_inv.
    - split; [done|]. split; [done|]. intros o Hin. set_solver. }
  split; [apply Hinv|]. intros Hall Hcomp. edestruct az_complete_sends as (_ & resp & Hsend & Hok); [..|exact Hcomp|]; [done..|].
  exists resp. split; [exact Hsend|]. split; [exact Hok|].
  assert (0 ≤ off ≤ len content ∧ (off = len content ∨ off mod ot_chunk t = 0)) as [Hrange Hal].
  { destruct Hoff as [->|[Hv _]]; [split; [lia|right; by apply Zmod_0_l]|]. apply az_resume_grid in Hv. rewrite Ht in Hv. lia. }
  eapply az_blob; try done. destruct Hoff as [->|[_ Hb]]; [intros; nia|done].
Qed.

(** The names of blocks form a codec: the name of every index a blob can have is read back as that
    index, and a name that is accepted is the one its index has, so that two different names in a
    listing never stand for one block. *)
Theorem block_id_roundtrip b64_encode b64_decode :
  (∀ l, b64_decode (b64_encode l) = Some l) →
  (∀ i, 0 ≤ i < 10 ^ 8 → parse_canonical_block_index b64_encode b64_decode (block_id_by_index b64_encode i) = Ok i)
  ∧ (∀ encoded i, parse_canonical_block_index b64_encode b64_decode encoded = Ok i → encoded = block_id_by_index b64_encode i).
Proof.
  intros Hb64. split; [intros i Hi; by apply block_index_of_id|]. intros encoded i. unfold parse_canonical_block_index.
  destruct (b64_decode encoded) as [raw|]; cbn [ok_or]; [|done]. case_bool_decide as Henc; cbn [negb]; [|done].
  destruct (is_utf8 raw); [|done]. cbn [negb]. case_match; [done|]. destruct (parse_u64 raw) as [n|]; cbn [ok_or]; [|done].
  case_bool_decide as Hpad; cbn [negb]; [|done]. intros [= <-]. unfold block_id_by_index. by rewrite Hpad.
Qed.

(** ** A blob of two blocks *)

Definition demo_az_task : ProviderTask := mkProviderTask (bs "https://a/k") (Ok (mkProviderUrl [] (bs "/k"))) 3 2.
Definition demo_az_list : list Z :=
  bs "<BlockList><UncommittedBlocks><Block><Name>00000000</Name><Size>2</Size></Block></UncommittedBlocks></BlockList>".
Definition demo_az_parse (xml : list Z) : option (list XmlNode) :=
  if bool_decide (xml = demo_az_list) then
    Some [XmlElement (bs "BlockList") None
      [XmlElement (bs "UncommittedBlocks") None
        [XmlElement (bs "Block") None [leaf "Name" "00000000"; leaf "Size" "2"]]]]
  else None.
Definition demo_az_env : AzEnv :=
  mkAzEnv (λ _, None)
    (λ req, match req with
            | ListUncommitted => Ok (mkResponse 200 ∅ [BodyChunk demo_az_list])
            | _ => Ok (mkResponse 201 ∅ [])
            end) (λ _, None) (λ _, "") (λ _, "").
Definition demo_az_srv : gmap (list Z) (list Z) := {[ pad8 0 := [1; 2] ]}.
Definition demo_az_end : gmap (list Z) (list Z) := <[pad8 1 := [3]]> demo_az_srv.

Lemma azure_commit_is_content_witness :
  let ids := [pad8 0; pad8 1] in
  ∃ resp, ae_send demo_az_env (PutBlockList (block_list_xml ids)) = Ok resp ∧ is_success (resp_status resp) = true
    ∧ committed_blob demo_az_end ids = take 2 (committed_blob demo_az_srv ids) ++ [3].
Proof.
  destruct (azure_commit_is_content 64 demo_az_parse pretty (λ l, l) Some demo_content demo_az_task demo_az_env demo_az_env 2
    put_block_session_default (mkPutBlocks (Some (bs "https://a/k")) {[0]}) (az_info 2) demo_az_srv demo_az_end
    (mkPutBlocks (Some (bs "https://a/k")) {[0; 1]}) (mkPutBlocks (Some (bs "https://a/k")) ∅) {[ 2 ]} None) as [_ H].
  - reflexivity.
  - reflexivity.
  - reflexivity.
  - vm_compute. discriminate.
  - lia.
  - intros [=].
  - intros blocks Hl. assert (blocks = [mkAzureBlock 0 2]) as ->.
    { vm_compute in Hl. injection Hl as <-. reflexivity. }
    intros blk ->%list_elem_of_singleton. split; [cbn; lia|]. exists [1; 2]. split; reflexivity.
  - vm_compute. reflexivity.
  - eapply rtc_l; [|apply rtc_refl].
    pose proof (az_put 64 pretty (λ l, l) demo_content demo_az_task 2 demo_az_env 2 demo_az_srv demo_az_end
      (mkPutBlocks (Some (bs "https://a/k")) {[0]}) ∅ ltac:(vm_compute; done) ltac:(reflexivity)) as Hput. cbv zeta in Hput.
    match type of Hput with _ → az_step _ _ _ _ _ _ _ ?st =>
      replace (demo_az_end, mkPutBlocks (Some (bs "https://a/k")) {[0; 1]}, {[ 2 ]}) with st by (vm_compute; reflexivity) end.
    apply Hput. left. vm_compute. reflexivity.
  - destruct H as (resp & H1 & H2 & H3 & _).
    + intros o Ho Hm. simpl in *. change (len demo_content) with 3 in Ho. assert (o = 2) as -> by lia. set_solver.
    + vm_compute. reflexivity.
    + exists resp. split; [exact H1|]. split; [exact H2|]. exact H3.
Defined.

Lemma block_id_roundtrip_witness : parse_canonical_block_index (λ l, l) Some (block_id_by_index (λ l, l) 49999) = Ok 49999.
Proof. apply (block_id_roundtrip (λ l, l) Some); [reflexivity|lia]. Defined.
