(* ===== verification/BinaryDownload.v ===== *)
(** * In-memory downloads

    [src/binary/download.rs], [binary_download_config.rs] and [binary_task.rs]: one bounded HTTP GET
    into memory, with retries. Everything the network, the allocator and the cancellation token
    answer during an attempt is an input ([AttemptInput]); a parsed URL is its scheme and its
    user information. *)
From S2P Require Import Prelude Errors HttpHeaders DownloadIdentity RangeDownload DownloadPrepare.
#[local] Open Scope Z_scope.

(** ** Configuration *)

Definition DEFAULT_BINARY_MAX_BODY_BYTES : Z := 5 * 1024 * 1024.
Definition BINARY_ABSOLUTE_MAX_BODY_BYTES : Z := 64 * 1024 * 1024.
Definition BINARY_MAX_RETRY_DELAYS : nat := 8.
Definition BINARY_MAX_REDIRECTS : Z := 10.

(** Durations in nanoseconds. *)
Record BinaryDownloadConfig := mkBinaryConfig {
  bc_max_body_bytes : Z;
  bc_request_timeout : option Z;
  bc_tcp_keepalive : option Z;
  bc_redirect_limit : Z;
  bc_retry_delays : list Z;
}.
Definition binary_config_default : BinaryDownloadConfig :=
  mkBinaryConfig DEFAULT_BINARY_MAX_BODY_BYTES None None 5 [300000000; 800000000].

Definition parameter_error (m : string) : MeowError := from_code ParameterEmpty m.

Definition validate_binary_config (c : BinaryDownloadConfig) : result unit MeowError :=
  if negb ((1 <=? bc_max_body_bytes c) && (bc_max_body_bytes c <=? BINARY_ABSOLUTE_MAX_BODY_BYTES)) then
    Err (parameter_error ("binary max_body_bytes must be in 1..=" +:+ pretty BINARY_ABSOLUTE_MAX_BODY_BYTES))
  else if bool_decide (bc_request_timeout c = Some 0) then
    Err (parameter_error "binary request_timeout must be greater than zero")
  else if bool_decide (bc_tcp_keepalive c = Some 0) then
    Err (parameter_error "binary tcp_keepalive must be greater than zero")
  else if BINARY_MAX_REDIRECTS <? bc_redirect_limit c then
    Err (parameter_error ("binary redirect_limit must be <= " +:+ pretty BINARY_MAX_REDIRECTS))
  else if (BINARY_MAX_RETRY_DELAYS <? length (bc_retry_delays c))%nat then
    Err (parameter_error ("binary retry_delays must contain at most " +:+ pretty (Z.of_nat BINARY_MAX_RETRY_DELAYS)
      +:+ " entries"))
  else if existsb (λ d, d =? 0) (bc_retry_delays c) then
    Err (parameter_error "binary retry delays must be greater than zero")
  else Ok tt.

(** ** Tasks *)

Record BinaryUrl := mkBinaryUrl { bu_scheme : string; bu_username : list Z; bu_password : option (list Z) }.

Record BinaryTask := mkBinaryTask {
  bt_url : list Z;
  bt_parsed : option BinaryUrl;
  bt_headers : HeaderMap;
  bt_max_body_bytes : option Z;
}.

Definition is_http (scheme : string) : bool := bool_decide (scheme = "http") || bool_decide (scheme = "https").

Definition has_userinfo (u : BinaryUrl) : bool :=
  negb (bool_decide (bu_username u = [])) || bool_decide (is_Some (bu_password u)).

Definition validate_binary_task (t : BinaryTask) (global_max : Z) : result BinaryUrl MeowError :=
  if bool_decide (trim (bt_url t) = []) then Err (parameter_error "binary task URL must not be empty")
  else
    let? parsed := ok_or (bt_parsed t) (parameter_error "binary task URL is invalid") in
    if negb (is_http (bu_scheme parsed)) then Err (parameter_error "binary task URL must use HTTP or HTTPS")
    else if has_userinfo parsed then Err (parameter_error "binary task URL must not contain userinfo")
    else
      let? _ :=
        match bt_max_body_bytes t with
        | Some max =>
            if (max =? 0) || (global_max <? max) || (BINARY_ABSOLUTE_MAX_BODY_BYTES <? max) then
              Err (parameter_error "binary task max_body_bytes must be within the client limit")
            else Ok tt
        | None => Ok tt
        end in
      Ok parsed.

Definition effective_max_body_bytes (t : BinaryTask) (global_max : Z) : Z := default global_max (bt_max_body_bytes t).

(** ** Redirects *)

(** [previous] has the initial URL first. *)
Definition reject_redirect (previous : list BinaryUrl) (next : BinaryUrl) (redirect_limit : Z) : option string :=
  if redirect_limit <? Z.of_nat (length previous) then Some "binary redirect limit exceeded"
  else if negb (is_http (bu_scheme next)) || has_userinfo next then Some "unsafe binary redirect target"
  else if match last previous with
          | Some url => bool_decide (bu_scheme url = "https") && bool_decide (bu_scheme next = "http")
          | None => false
          end then Some "HTTPS redirect downgrade rejected"
  else None.

(** The client follows the redirects its policy accepts. *)
Fixpoint follow_redirects (limit : Z) (previous : list BinaryUrl) (targets : list BinaryUrl) : list BinaryUrl + string :=
  match targets with
  | [] => inl previous
  | next :: targets =>
      match reject_redirect previous next limit with
      | Some message => inr message
      | None => follow_redirects limit (previous ++ [next]) targets
      end
  end.

(** ** One attempt *)

Inductive AttemptFailure := Retryable (e : MeowError) | Terminal (e : MeowError).

Inductive SendError := SendTimeout | SendRedirect | SendOther.
Inductive StreamItem := StreamChunk (bytes : list Z) | StreamError | StreamCancelled.

Record BinaryResponse := mkBinaryResponse {
  br_status : Z;
  br_content_length : option Z;
  br_content_type : option (list Z);
  (** what successive reads of the body give; the end of the list is the end of the body *)
  br_items : list StreamItem;
}.

Inductive SendOutcome := SendCancelled | SendFailed (e : SendError) | SendOk (resp : BinaryResponse).

Record BinaryDownloadOutput := mkOutput { out_bytes : list Z; out_content_type : option (list Z) }.

Definition INITIAL_BODY_RESERVE_LIMIT : Z := 1024 * 1024.
Definition UNKNOWN_BODY_INITIAL_RESERVE : Z := 64 * 1024.

Definition binary_task_canceled : MeowError := from_code_str TaskCanceled "binary task was canceled".
Definition binary_client_closed : MeowError := from_code_str ClientClosed "meow client closed before binary task completed".
Definition binary_task_not_found : MeowError := from_code_str TaskNotFound "binary task was not found".

Definition body_too_large (max_body_bytes : Z) : MeowError :=
  from_code BinaryBodyTooLarge ("binary response exceeded " +:+ pretty max_body_bytes +:+ " bytes").
Definition allocation_failed (e : string) : MeowError :=
  from_code IoErrorCode ("binary response buffer allocation failed: " +:+ e).

Section Attempt.
(** [W]: the bits of [usize]. [reserve n]: the allocator's refusal of a buffer of [n] bytes. *)
Context (W : Z) (reserve : Z → option string).

Definition usize_of (max_body_bytes v : Z) : result Z MeowError :=
  if v <? 2 ^ W then Ok v else Err (body_too_large max_body_bytes).

Definition bounded_initial_capacity (content_length : option Z) (max_body_bytes : Z) : result Z MeowError :=
  let wanted := Z.min (Z.min (default 0 content_length) max_body_bytes) INITIAL_BODY_RESERVE_LIMIT in
  usize_of max_body_bytes wanted.

(** The capacity the buffer grows to. *)
Definition grown_capacity (max_body_bytes required capacity : Z) : Z :=
  let max_capacity := if max_body_bytes <? 2 ^ W then max_body_bytes else 2 ^ W - 1 in
  let doubled := Z.min (sat_mul (2 ^ W - 1) (Z.max capacity UNKNOWN_BODY_INITIAL_RESERVE) 2) max_capacity in
  Z.min (Z.max required doubled) max_capacity.

Fixpoint read_binary_body (max_body_bytes : Z) (items : list StreamItem) (total capacity : Z) (body : list Z)
    : result (list Z) AttemptFailure :=
  match items with
  | [] => Ok body
  | StreamCancelled :: _ => Err (Terminal binary_task_canceled)
  | StreamError :: _ => Err (Retryable (from_code_str HttpError "binary response body read failed"))
  | StreamChunk chunk :: items =>
      let too_large := Terminal (body_too_large max_body_bytes) in
      let? total := ok_or (checked_add U64_MAX total (Z.of_nat (length chunk))) too_large in
      if max_body_bytes <? total then Err too_large
      else if negb (total <? 2 ^ W) then Err too_large
      else
        let required := total in
        let? capacity :=
          if capacity <? required then
            let target := grown_capacity max_body_bytes required capacity in
            match reserve target with
            | Some e => Err (Terminal (allocation_failed e))
            | None => Ok target
            end
          else Ok capacity in
        read_binary_body max_body_bytes items total capacity (body ++ chunk)
  end.

Definition send_failure (e : SendError) : AttemptFailure :=
  let mapped := from_code_str HttpError
    match e with
    | SendTimeout => "binary HTTP attempt timed out"
    | SendRedirect => "binary HTTP redirect was rejected"
    | SendOther => "binary HTTP request failed"
    end in
  match e with SendRedirect => Terminal mapped | _ => Retryable mapped end.

Definition download_once (t : BinaryTask) (global_max : Z) (outcome : SendOutcome)
    : result BinaryDownloadOutput AttemptFailure :=
  let max_body_bytes := effective_max_body_bytes t global_max in
  match outcome with
  | SendCancelled => Err (Terminal binary_task_canceled)
  | SendFailed e => Err (send_failure e)
  | SendOk resp =>
      if negb (is_success (br_status resp)) then
        Err (Terminal (with_http_status (from_code ResponseStatusError
          ("binary HTTP response status was " +:+ pretty (br_status resp))) (br_status resp)))
      else if match br_content_length resp with Some length => max_body_bytes <? length | None => false end then
        Err (Terminal (body_too_large max_body_bytes))
      else
        match bounded_initial_capacity (br_content_length resp) max_body_bytes with
        | Err e => Err (Terminal e)
        | Ok initial_capacity =>
            match reserve initial_capacity with
            | Some e => Err (Terminal (allocation_failed e))
            | None =>
                let? body := read_binary_body max_body_bytes (br_items resp) 0 initial_capacity [] in
                Ok (mkOutput body (br_content_type resp))
            end
        end
  end.

(** ** Retries *)

(** [attempt k] is what the network does in the [k]-th attempt, [slept k] whether the task was
    cancelled in the pause after it. The result comes with the number of attempts. *)
Fixpoint retry_loop (t : BinaryTask) (global_max : Z) (attempt : nat → SendOutcome) (slept : nat → bool) (k : nat)
    (delays : list Z) : nat * result BinaryDownloadOutput MeowError :=
  match download_once t global_max (attempt k) with
  | Ok output => (S k, Ok output)
  | Err (Terminal e) => (S k, Err e)
  | Err (Retryable e) =>
      match delays with
      | [] => (S k, Err e)
      | _ :: delays =>
          if slept k then (S k, Err binary_task_canceled) else retry_loop t global_max attempt slept (S k) delays
      end
  end.
Definition download_with_retry (t : BinaryTask) (c : BinaryDownloadConfig) (attempt : nat → SendOutcome) (slept : nat → bool)
    : nat * result BinaryDownloadOutput MeowError :=
  retry_loop t (bc_max_body_bytes c) attempt slept 0 (bc_retry_delays c).

End Attempt.

(** ** Theorems *)

(** The chunks of a body that was read to its end. *)
Fixpoint stream_chunks (items : list StreamItem) : option (list (list Z)) :=
  match items with
  | [] => Some []
  | StreamChunk b :: items => match stream_chunks items with Some l => Some (b :: l) | None => None end
  | _ => None
  end.

Lemma grown_capacity_bound W max required capacity :
  0 ≤ max → required ≤ max → required < 2 ^ W → required ≤ grown_capacity W max required capacity ≤ max.
Proof.
  intros H0 Hr Hw. unfold grown_capacity. destruct (Z.ltb_spec max (2 ^ W)); lia.
Qed.

Lemma read_binary_body_Ok W reserve max items total capacity body out :
  0 ≤ total ≤ max → total = Z.of_nat (length body) →
  read_binary_body W reserve max items total capacity body = Ok out →
  ∃ chunks, stream_chunks items = Some chunks ∧ out = body ++ mjoin chunks ∧ Z.of_nat (length out) ≤ max.
Proof.
  revert total capacity body. induction items as [|[b| |] items IH]; intros total capacity body Ht Hl; cbn [read_binary_body]; [|..|done].
  - intros [= <-]. exists []. split; [done|]. simpl. rewrite app_nil_r. split; [done|lia].
  - destruct (checked_add _ _ _) as [total'|] eqn:Ha; cbn [ok_or]; [|done]. apply checked_add_Some in Ha as [-> _].
    destruct (Z.ltb_spec max (total + Z.of_nat (length b))); [done|]. destruct (negb _); [done|].
    destruct (if capacity <? _ then _ else _) as [cap|]; [|done]. intros Hr.
    apply IH in Hr as (chunks & Hc & -> & Hm); [|lia|rewrite length_app; lia]. exists (b :: chunks).
    cbn [stream_chunks]. rewrite Hc. split; [done|]. split; [|done]. simpl. by rewrite <- (assoc_L (++)).
  - done.
Qed.

(** The allocator is never asked for more than the limit. *)
Lemma read_binary_body_ext W reserve reserve' max items total capacity body :
  0 ≤ max → (∀ n, n ≤ max → reserve n = reserve' n) →
  read_binary_body W reserve max items total capacity body = read_binary_body W reserve' max items total capacity body.
Proof.
  intros H0 Hext. revert total capacity body. induction items as [|[b| |] items IH]; intros; cbn [read_binary_body]; try done.
  destruct (checked_add _ _ _) as [total'|]; cbn [ok_or]; [|done]. destruct (Z.ltb_spec max total'); [done|].
  destruct (Z.ltb_spec total' (2 ^ W)); cbn [negb]; [|done]. destruct (capacity <? total'); [|by rewrite IH].
  rewrite <- Hext by (pose proof (grown_capacity_bound W max total' capacity); lia).
  destruct (reserve _); [done|]. apply IH.
Qed.

(** An in-memory download that succeeds holds exactly the bytes of a 2xx response that was read to
    its end, and neither its body nor any buffer asked for along the way exceeds the limit of
    the task. *)
Theorem binary_body_bounded W reserve t global_max outcome :
  0 ≤ effective_max_body_bytes t global_max →
  (∀ out, download_once W reserve t global_max outcome = Ok out →
     ∃ resp chunks, outcome = SendOk resp ∧ is_success (br_status resp) = true ∧ stream_chunks (br_items resp) = Some chunks
       ∧ out_bytes out = mjoin chunks ∧ Z.of_nat (length (out_bytes out)) ≤ effective_max_body_bytes t global_max)
  ∧ (∀ reserve', (∀ n, n ≤ effective_max_body_bytes t global_max → reserve n = reserve' n) →
     download_once W reserve t global_max outcome = download_once W reserve' t global_max outcome).
Proof.
  intros H0. split.
  - intros out. unfold download_once. destruct outcome as [|e|resp]; [done|done|].
    destruct (is_success (br_status resp)) eqn:Hok; cbn [negb]; [|done]. case_match; [done|].
    destruct (bounded_initial_capacity _ _ _) as [cap|]; [|done]. destruct (reserve cap); [done|].
    destruct (read_binary_body _ _ _ _ _ _ _) as [body|] eqn:Hb; [|done]. intros [= <-].
    apply read_binary_body_Ok in Hb as (chunks & Hc & -> & Hl); [|lia|done]. by exists resp, chunks.
  - intros reserve' Hext. unfold download_once. destruct outcome as [|e|resp]; [done|done|].
    destruct (negb _); [done|]. case_match; [done|].
    destruct (bounded_initial_capacity _ _ _) as [cap|] eqn:Hcap; [|done].
    assert (cap ≤ effective_max_body_bytes t global_max) as Hle.
    { unfold bounded_initial_capacity, usize_of in Hcap. destruct (_ <? 2 ^ W); [|done]. injection Hcap as <-. lia. }
    rewrite <- Hext by done. destruct (reserve cap); [done|]. by rewrite (read_binary_body_ext W reserve reserve').
Qed.

(** A binary download makes at most one attempt more than it has delays; its result is that of the
    last attempt or a cancellation, and every earlier attempt failed in a way that may be
    retried. *)
Theorem binary_retry_bounded W reserve t c attempt slept :
  let '(n, r) := download_with_retry W reserve t c attempt slept in
  (1 ≤ n ≤ S (length (bc_retry_delays c)))%nat
  ∧ (∀ k, (S k < n)%nat → ∃ e, download_once W reserve t (bc_max_body_bytes c) (attempt k) = Err (Retryable e) ∧ slept k = false)
  ∧ match r with
    | Ok out => download_once W reserve t (bc_max_body_bytes c) (attempt (pred n)) = Ok out
    | Err e =>
        download_once W reserve t (bc_max_body_bytes c) (attempt (pred n)) = Err (Terminal e)
        ∨ (download_once W reserve t (bc_max_body_bytes c) (attempt (pred n)) = Err (Retryable e)
           ∧ n = S (length (bc_retry_delays c)))
        ∨ (e = binary_task_canceled ∧ slept (pred n) = true)
    end.
Proof.
  unfold download_with_retry.
  assert (∀ delays k, let '(n, r) := retry_loop W reserve t (bc_max_body_bytes c) attempt slept k delays in
    (S k ≤ n ≤ S k + length delays)%nat
    ∧ (∀ j, (k ≤ j)%nat → (S j < n)%nat →
         ∃ e, download_once W reserve t (bc_max_body_bytes c) (attempt j) = Err (Retryable e) ∧ slept j = false)
    ∧ match r with
      | Ok out => download_once W reserve t (bc_max_body_bytes c) (attempt (pred n)) = Ok out
      | Err e =>
          download_once W reserve t (bc_max_body_bytes c) (attempt (pred n)) = Err (Terminal e)
          ∨ (download_once W reserve t (bc_max_body_bytes c) (attempt (pred n)) = Err (Retryable e)
             ∧ n = S k + length delays)%nat
          ∨ (e = binary_task_canceled ∧ slept (pred n) = true)
      end) as Hloop.
  { induction delays as [|d delays IH]; intros k; cbn [retry_loop];
      destruct (download_once W reserve t (bc_max_body_bytes c) (attempt k)) as [out|[e|e]] eqn:Hd; cbn [pred length].
    1-3,4,6: split; [lia|]; split; [intros; lia|]; rewrite ?Hd; auto with lia.
    - destruct (slept k) eqn:Hs; [split; [lia|]; split; [intros; lia|]; cbn [pred]; auto|].
      specialize (IH (S k)). destruct (retry_loop _ _ _ _ _ _ _ _) as [n r]. destruct IH as (Hn & Hj & Hr).
      split; [simpl in *; lia|]. split.
      + intros j Hkj Hjn. destruct (decide (j = k)) as [->|]; [by exists e|]. apply Hj; lia.
      + destruct r as [out|e']; [done|]. destruct Hr as [?|[[? ?]|?]]; auto. right. left. split; [done|lia]. }
  specialize (Hloop (bc_retry_delays c) 0%nat). destruct (retry_loop _ _ _ _ _ _ _ _) as [n r].
  destruct Hloop as (Hn & Hj & Hr). split; [lia|]. split; [|done]. intros k Hk. apply Hj; lia.
Qed.

Lemma follow_redirects_accepted limit previous targets visited :
  follow_redirects limit previous targets = inl visited →
  visited = previous ++ targets
  ∧ ∀ i u, targets !! i = Some u → reject_redirect (previous ++ take i targets) u limit = None.
Proof.
  revert previous. induction targets as [|t targets IH]; intros previous; cbn [follow_redirects].
  { intros [= <-]. by rewrite app_nil_r. }
  destruct (reject_redirect previous t limit) eqn:Hr; [done|]. intros [-> Hi]%IH. rewrite <- (assoc_L (++)). split; [done|].
  intros [|i] u; simpl; [intros [= <-]; by rewrite app_nil_r|]. intros Hu. rewrite <- (Hi i u Hu).
  by rewrite <- (assoc_L (++)).
Qed.

Lemma reject_redirect_None previous next limit :
  reject_redirect previous next limit = None →
  Z.of_nat (length previous) ≤ limit ∧ is_http (bu_scheme next) = true ∧ has_userinfo next = false
  ∧ (∀ u, last previous = Some u → bu_scheme u = "https" → bu_scheme next = "https").
Proof.
  unfold reject_redirect. destruct (Z.ltb_spec limit (Z.of_nat (length previous))); [done|].
  destruct (is_http (bu_scheme next)) eqn:Hh; [|done]. destruct (has_userinfo next); [done|]. cbn [negb orb].
  case_match eqn:Hd; [done|]. intros _. split_and!; try done. intros u Hu Hs. rewrite Hu, Hs in Hd.
  unfold is_http in Hh. apply orb_true_iff in Hh as [Hh|Hh]; apply bool_decide_eq_true in Hh; [|done].
  by rewrite Hh in Hd.
Qed.

(** A chain of redirects that is followed has at most [limit] hops, every hop is plain HTTP or
    HTTPS without user information, and it never falls back from HTTPS to HTTP. *)
Theorem redirects_are_safe limit start targets visited :
  follow_redirects limit [start] targets = inl visited →
  visited = start :: targets ∧ Z.of_nat (length targets) ≤ Z.max 0 limit
  ∧ Forall (λ u, is_http (bu_scheme u) = true ∧ has_userinfo u = false) targets
  ∧ (∀ i u v, visited !! i = Some u → visited !! S i = Some v → bu_scheme u = "https" → bu_scheme v = "https").
Proof.
  intros [-> Hacc]%follow_redirects_accepted. change ([start] ++ targets) with (start :: targets). split; [done|].
  assert (∀ i u, targets !! i = Some u → Z.of_nat (S i) ≤ limit ∧ is_http (bu_scheme u) = true ∧ has_userinfo u = false
    ∧ ∀ w, (start :: targets) !! i = Some w → bu_scheme w = "https" → bu_scheme u = "https") as Hi.
  { intros i u Hu. pose proof (lookup_lt_Some _ _ _ Hu) as Hlt.
    destruct (reject_redirect_None _ _ _ (Hacc i u Hu)) as (Hl & Hh & Hn & Hs).
    split; [rewrite length_app, length_take in Hl; simpl in Hl; lia|]. split_and!; try done. intros w Hw. apply Hs.
    change ([start] ++ take i targets) with (take (S i) (start :: targets)).
    rewrite last_lookup, length_take. simpl length. rewrite Nat.min_l by lia. by rewrite lookup_take_lt by (simpl; lia). }
  split; [|split].
  - destruct targets as [|t0 ts] using rev_ind; [simpl; lia|].
    destruct (Hi (length ts) t0) as [Hl _]; [rewrite lookup_app_r, Nat.sub_diag by done; done|]. rewrite length_app. simpl. lia.
  - apply Forall_lookup. intros i u Hu. by destruct (Hi i u Hu) as (_ & ? & ? & _).
  - intros i u v Hu Hv Hs. simpl in Hv. destruct (Hi i v Hv) as (_ & _ & _ & Hx). by eapply Hx.
Qed.

(** ** A concrete download *)

Definition demo_binary_task : BinaryTask := mkBinaryTask (bs "https://a") (Some (mkBinaryUrl "https" [] None)) ∅ (Some 4).
Definition demo_outcome : SendOutcome := SendOk (mkBinaryResponse 200 None None [StreamChunk [1; 2]; StreamChunk [3]]).

Lemma binary_body_bounded_witness :
  ∃ resp chunks, demo_outcome = SendOk resp ∧ stream_chunks (br_items resp) = Some chunks ∧ [1; 2; 3] = mjoin chunks.
Proof.
  destruct (binary_body_bounded 64 (λ _, None) demo_binary_task 10 demo_outcome) as [Hb _]; [vm_compute; discriminate|].
  destruct (Hb (mkOutput [1; 2; 3] None)) as (resp & chunks & H1 & _ & H2 & H3 & _); [vm_compute; reflexivity|].
  exists resp, chunks. auto.
Defined.

Lemma redirects_are_safe_witness :
  let u := mkBinaryUrl "https" [] None in Z.of_nat (length [u]) ≤ Z.max 0 5.
Proof.
  destruct (redirects_are_safe 5 (mkBinaryUrl "http" [] None) [mkBinaryUrl "https" [] None]
    [mkBinaryUrl "http" [] None; mkBinaryUrl "https" [] None]) as (_ & H & _); [vm_compute; reflexivity|]. exact H.
Defined.
