(* ===== verification/BinaryExec.v ===== *)
(** * The executor of in-memory downloads

    [src/binary/executor.rs]: a scheduler with at most two concurrent downloads and at most 1024
    outstanding tasks. A finished task becomes a callback job; jobs go one at a time to a
    dispatcher thread that runs the callback and acknowledges it. Two kinds of permits travel with
    a task: the one of the outstanding pool until its callback returned, and the body slot from
    the start of the download until the callback of a successful download returned.

    The scheduler's loop is cut where other threads can interleave ([SchedPhase]); the clients,
    the download workers and the dispatcher thread are steps of their own. *)
From S2P Require Import Prelude Errors HttpHeaders DownloadIdentity RangeDownload DownloadPrepare BinaryDownload.
#[local] Open Scope Z_scope.

Definition BINARY_MAX_CONCURRENCY : nat := 2.
Definition BINARY_MAX_OUTSTANDING_TASKS : nat := 1024.
Definition BINARY_COMMAND_CAPACITY : nat := BINARY_MAX_OUTSTANDING_TASKS.
Definition BINARY_CALLBACK_CAPACITY : nat := 2.

Abbreviation BinaryResult := (result BinaryDownloadOutput MeowError).

Inductive StopReason := REASON_NONE | REASON_CANCEL | REASON_CLOSE.

Inductive BinCommand := CmdEnqueue (id : nat) | CmdCancel (id : nat) | CmdClose (responds : bool).

Record CallbackJob := mkJob { job_id : nat; job_result : BinaryResult; job_body : bool }.

(** The dispatcher thread: its channel, the job whose callback ran but is not acknowledged, and
    whether the thread lives. *)
Record CbDispatcher := mkCbDispatcher { cd_queue : list CallbackJob; cd_current : option nat; cd_alive : bool }.
Definition new_dispatcher : CbDispatcher := mkCbDispatcher [] None true.

Inductive CloseResponse := CloseRetryable (e : MeowError) | CloseComplete (r : result unit MeowError).

Inductive SchedPhase := PhTop | PhCheck | PhRestart | PhFlush | PhSelect | PhDone.

Record BinState := mkBin {
  b_cmds : list BinCommand;
  b_senders : bool;
  b_pending : list nat;
  b_active : gmap nat StopReason;
  (** downloads that run, and finished ones in the worker channel *)
  b_running : list nat;
  b_events : list (nat * BinaryResult);
  b_terminal : list CallbackJob;
  b_inflight : nat;
  b_disp : option CbDispatcher;
  b_acks : list nat;
  b_restart : bool;
  b_error : option string;
  b_failure : bool;
  b_closing : bool;
  b_cmd_closed : bool;
  b_responder : bool;
  b_registry : gset nat;
  (** permits: free body slots, tasks outstanding *)
  b_slots : nat;
  b_outstanding : nat;
  b_phase : SchedPhase;
  (** what clients observe: callbacks run, close responses; [b_lost] are jobs that were dropped *)
  b_calls : list (nat * BinaryResult);
  b_lost : list nat;
  b_responses : list CloseResponse;
}.

Definition bin_init : BinState :=
  mkBin [] true [] ∅ [] [] [] 0 (Some new_dispatcher) [] false None false false false false ∅ BINARY_MAX_CONCURRENCY 0
    PhTop [] [] [].

(** ** Updates *)

Definition set_queues (pending : list nat) (active : gmap nat StopReason) (running : list nat)
    (events : list (nat * BinaryResult)) (terminal : list CallbackJob) (s : BinState) : BinState :=
  mkBin (b_cmds s) (b_senders s) pending active running events terminal (b_inflight s) (b_disp s) (b_acks s) (b_restart s)
    (b_error s) (b_failure s) (b_closing s) (b_cmd_closed s) (b_responder s) (b_registry s) (b_slots s) (b_outstanding s)
    (b_phase s) (b_calls s) (b_lost s) (b_responses s).
Definition set_cmds (cmds : list BinCommand) (s : BinState) : BinState :=
  mkBin cmds (b_senders s) (b_pending s) (b_active s) (b_running s) (b_events s) (b_terminal s) (b_inflight s) (b_disp s)
    (b_acks s) (b_restart s) (b_error s) (b_failure s) (b_closing s) (b_cmd_closed s) (b_responder s) (b_registry s)
    (b_slots s) (b_outstanding s) (b_phase s) (b_calls s) (b_lost s) (b_responses s).
Definition set_disp (inflight : nat) (disp : option CbDispatcher) (acks : list nat) (registry : gset nat) (s : BinState) : BinState :=
  mkBin (b_cmds s) (b_senders s) (b_pending s) (b_active s) (b_running s) (b_events s) (b_terminal s) inflight disp
    acks (b_restart s) (b_error s) (b_failure s) (b_closing s) (b_cmd_closed s) (b_responder s) registry
    (b_slots s) (b_outstanding s) (b_phase s) (b_calls s) (b_lost s) (b_responses s).
Definition set_flags (restart : bool) (error : option string) (failure closing : bool) (s : BinState) : BinState :=
  mkBin (b_cmds s) (b_senders s) (b_pending s) (b_active s) (b_running s) (b_events s) (b_terminal s) (b_inflight s) (b_disp s)
    (b_acks s) restart error failure closing (b_cmd_closed s) (b_responder s) (b_registry s) (b_slots s) (b_outstanding s)
    (b_phase s) (b_calls s) (b_lost s) (b_responses s).
Definition set_phase (phase : SchedPhase) (s : BinState) : BinState :=
  mkBin (b_cmds s) (b_senders s) (b_pending s) (b_active s) (b_running s) (b_events s) (b_terminal s) (b_inflight s) (b_disp s)
    (b_acks s) (b_restart s) (b_error s) (b_failure s) (b_closing s) (b_cmd_closed s) (b_responder s) (b_registry s)
    (b_slots s) (b_outstanding s) phase (b_calls s) (b_lost s) (b_responses s).
Definition set_permits (slots outstanding : nat) (s : BinState) : BinState :=
  mkBin (b_cmds s) (b_senders s) (b_pending s) (b_active s) (b_running s) (b_events s) (b_terminal s) (b_inflight s) (b_disp s)
    (b_acks s) (b_restart s) (b_error s) (b_failure s) (b_closing s) (b_cmd_closed s) (b_responder s) (b_registry s)
    slots outstanding (b_phase s) (b_calls s) (b_lost s) (b_responses s).
Definition set_close (cmd_closed responder : bool) (responses : list CloseResponse) (s : BinState) : BinState :=
  mkBin (b_cmds s) (b_senders s) (b_pending s) (b_active s) (b_running s) (b_events s) (b_terminal s) (b_inflight s) (b_disp s)
    (b_acks s) (b_restart s) (b_error s) (b_failure s) (b_closing s) cmd_closed responder (b_registry s) (b_slots s)
    (b_outstanding s) (b_phase s) (b_calls s) (b_lost s) responses.
Definition set_ghost (calls : list (nat * BinaryResult)) (lost : list nat) (s : BinState) : BinState :=
  mkBin (b_cmds s) (b_senders s) (b_pending s) (b_active s) (b_running s) (b_events s) (b_terminal s) (b_inflight s) (b_disp s)
    (b_acks s) (b_restart s) (b_error s) (b_failure s) (b_closing s) (b_cmd_closed s) (b_responder s) (b_registry s)
    (b_slots s) (b_outstanding s) (b_phase s) calls lost (b_responses s).

(** ** Helpers of the loop *)

(** [drain_callback_acks] *)
Definition drain_callback_acks (s : BinState) : BinState :=
  set_disp (b_inflight s - length (b_acks s)) (b_disp s) [] (b_registry s ∖ list_to_set (b_acks s)) s.

(** A task that leaves the scheduler's care. *)
Definition finish_task (id : nat) (r : BinaryResult) (body : bool) (terminal : list CallbackJob) : list CallbackJob :=
  terminal ++ [mkJob id r body].

Definition begin_close (s : BinState) : BinState :=
  set_queues [] ((λ _, REASON_CLOSE) <$> b_active s) (b_running s) (b_events s)
    (b_terminal s ++ map (λ id, mkJob id (Err binary_client_closed) false) (b_pending s)) s.

(** The permits of dropped jobs return to their pools. *)
Definition body_count (jobs : list CallbackJob) : nat := length (List.filter job_body jobs).
Definition drop_jobs (jobs : list CallbackJob) (s : BinState) : BinState :=
  set_ghost (b_calls s) (b_lost s ++ map job_id jobs)
    (set_permits (b_slots s + body_count jobs) (b_outstanding s - length jobs) s).

Definition unacknowledged : string := "binary callback dispatcher stopped with an unacknowledged job".

(** The dispatcher thread has ended: restart it, or give up if its job was not acknowledged. *)
Definition check_dispatcher (s : BinState) : BinState :=
  match b_disp s with
  | Some d =>
      if cd_alive d then s
      else
        let s := drain_callback_acks (set_disp (b_inflight s) None (b_acks s) (b_registry s) s) in
        if (b_inflight s =? 0)%nat then set_flags true (b_error s) (b_failure s) (b_closing s) s
        else
          begin_close (set_flags (b_restart s) (Some unacknowledged) true true
            (set_disp 0 (b_disp s) (b_acks s) (b_registry s) s))
  | None => s
  end.

(** [start_callback_dispatcher], whose outcome is an input. *)
Definition restart_dispatcher (start : result unit string) (s : BinState) : BinState :=
  match b_disp s with
  | None =>
      if b_restart s then
        match start with
        | Ok _ => set_flags false None false (b_closing s) (set_disp (b_inflight s) (Some new_dispatcher) (b_acks s) (b_registry s) s)
        | Err e => begin_close (set_flags false (Some e) true true s)
        end
      else s
  | Some _ => s
  end.

Definition flush_callback_jobs (s : BinState) : BinState :=
  match b_disp s with
  | None => s
  | Some d =>
      match b_inflight s, b_terminal s with
      | O, job :: jobs =>
          if negb (cd_alive d) then set_flags true (b_error s) (b_failure s) (b_closing s) s
          else if (BINARY_CALLBACK_CAPACITY <=? length (cd_queue d))%nat then s
          else
            set_queues (b_pending s) (b_active s) (b_running s) (b_events s) jobs
              (set_disp 1 (Some (mkCbDispatcher (cd_queue d ++ [job]) (cd_current d) true)) (b_acks s) (b_registry s) s)
      | _, _ => s
      end
  end.

Fixpoint launch_loop (fuel : nat) (s : BinState) : BinState :=
  match fuel with
  | O => s
  | S fuel =>
      if (BINARY_MAX_CONCURRENCY <=? size (b_active s))%nat then s
      else
        match b_slots s, b_pending s with
        | S slots, id :: pending =>
            launch_loop fuel (set_permits slots (b_outstanding s)
              (set_queues pending (<[id := REASON_NONE]> (b_active s)) (b_running s ++ [id]) (b_events s) (b_terminal s) s))
        | _, _ => s
        end
  end.
(** Each round makes one task active, so that the bound on the rounds is never reached. *)
Definition launch_pending (s : BinState) : BinState := launch_loop (S (length (b_pending s))) s.

(** When the scheduler ends its command channel is dropped with what it holds. *)
Definition enqueued (cmds : list BinCommand) : list nat :=
  omap (λ c, match c with CmdEnqueue id => Some id | _ => None end) cmds.
Definition end_scheduler (s : BinState) : BinState :=
  set_phase PhDone (set_cmds [] (set_ghost (b_calls s) (b_lost s ++ enqueued (b_cmds s))
    (set_permits (b_slots s) (b_outstanding s - length (enqueued (b_cmds s))) s))).

Definition unavailable : string := "binary callback dispatcher unavailable".

(** A close that no dispatcher can serve is answered with an error that may be retried; without
    clients left the scheduler gives up. *)
Definition close_unavailable (s : BinState) : BinState :=
  if b_closing s && bool_decide (b_disp s = None) && negb (b_restart s) && bool_decide (b_active s = ∅) then
    let s :=
      if b_responder s then
        set_close (b_cmd_closed s) false
          (b_responses s ++ [CloseRetryable (from_code Unknown (default unavailable (b_error s)))]) s
      else s in
    let s := set_flags (b_restart s) (b_error s) (b_failure s) false s in
    if b_cmd_closed s then
      end_scheduler (set_disp (b_inflight s) (b_disp s) (b_acks s) ∅
        (set_queues (b_pending s) (b_active s) (b_running s) (b_events s) [] (drop_jobs (b_terminal s) s)))
    else s
  else s.

Definition close_finished (s : BinState) : bool :=
  b_closing s && bool_decide (is_Some (b_disp s)) && bool_decide (b_pending s = []) && bool_decide (b_active s = ∅)
  && match b_terminal s with [] => true | _ => false end && (b_inflight s =? 0)%nat.

(** After the loop: the dispatcher is joined and the close answered. *)
Definition finish_scheduler (panicked : bool) (s : BinState) : BinState :=
  let error :=
    match b_error s with
    | Some m => Some (from_code Unknown m)
    | None => if panicked then Some (from_code_str Unknown "binary callback dispatcher panicked") else None
    end in
  let s := end_scheduler s in
  if b_responder s then
    set_close (b_cmd_closed s) false
      (b_responses s ++ [CloseComplete (match error with Some e => Err e | None => Ok tt end)]) s
  else s.

Definition flush_turn (panicked : bool) (s : BinState) : BinState :=
  let s := flush_callback_jobs s in
  let s := if negb (b_closing s) && negb (b_failure s) then launch_pending s else s in
  let s := close_unavailable s in
  match b_phase s with
  | PhDone => s
  | _ => if close_finished s then finish_scheduler panicked s else set_phase PhSelect s
  end.

(** ** Commands and events *)

Fixpoint remove_first (id : nat) (l : list nat) : list nat :=
  match l with [] => [] | x :: l => if (x =? id)%nat then l else x :: remove_first id l end.

Definition cancel_task (id : nat) (s : BinState) : BinState * result unit MeowError :=
  if bool_decide (id ∈ b_pending s) then
    (set_queues (remove_first id (b_pending s)) (b_active s) (b_running s) (b_events s)
       (finish_task id (Err binary_task_canceled) false (b_terminal s)) s, Ok tt)
  else
    match b_active s !! id with
    | Some REASON_NONE =>
        (set_queues (b_pending s) (<[id := REASON_CANCEL]> (b_active s)) (b_running s) (b_events s) (b_terminal s) s, Ok tt)
    | _ => (s, Err binary_task_not_found)
    end.

Definition request_close (s : BinState) : BinState :=
  let s := set_flags (b_restart s || bool_decide (b_disp s = None)) (b_error s) (b_failure s) (b_closing s) s in
  let s := begin_close s in
  set_flags (b_restart s) (b_error s) (b_failure s) true s.

Definition handle_command (c : BinCommand) (s : BinState) : BinState :=
  match c with
  | CmdEnqueue id =>
      if negb (b_closing s) && negb (b_failure s) then
        set_queues (b_pending s ++ [id]) (b_active s) (b_running s) (b_events s) (b_terminal s) s
      else
        set_queues (b_pending s) (b_active s) (b_running s) (b_events s)
          (finish_task id (Err binary_client_closed) false (b_terminal s)) s
  | CmdCancel id => (cancel_task id s).1
  | CmdClose responds =>
      let s := if b_responder s then s else set_close (b_cmd_closed s) responds (b_responses s) s in
      let s := if bool_decide (b_disp s = None) then set_flags (b_restart s) None (b_failure s) (b_closing s) s else s in
      request_close s
  end.

(** A finished download: the reason of a stop decides its result. *)
Definition worker_result (reason : option StopReason) (r : BinaryResult) : BinaryResult :=
  match reason with
  | Some REASON_CANCEL => Err binary_task_canceled
  | Some REASON_CLOSE => Err binary_client_closed
  | _ => r
  end.
(** What the worker's task sends: its result, or that it ended without one. *)
Inductive WorkerJoin := Joined (r : BinaryResult) | JoinPanicked | JoinCanceled.
Definition map_worker_join_result (j : WorkerJoin) : BinaryResult :=
  match j with
  | Joined r => r
  | JoinPanicked => Err (from_code_str Unknown "binary download worker panicked")
  | JoinCanceled => Err (from_code_str Unknown "binary download worker was canceled")
  end.
Definition result_ok (r : BinaryResult) : bool := match r with Ok _ => true | Err _ => false end.

Definition handle_download_event (id : nat) (r : BinaryResult) (s : BinState) : BinState :=
  let r := worker_result (b_active s !! id) r in
  let s := set_queues (b_pending s) (delete id (b_active s)) (b_running s) (b_events s)
             (finish_task id r (result_ok r) (b_terminal s)) s in
  if result_ok r then s else set_permits (S (b_slots s)) (b_outstanding s) s.

(** ** The system *)

(** [close_sent]: the client closes its lifecycle, under one lock with every enqueue, before it
    sends the close command. *)
Record BinSys := mkBinSys { bsys : BinState; close_sent : bool; accepted : list nat; stopped : bool }.

Definition with_state (s : BinState) (y : BinSys) : BinSys := mkBinSys s (close_sent y) (accepted y) (stopped y).

(** The channel of commands takes one more. *)
Definition can_send (s : BinState) : bool :=
  match b_phase s with PhDone => false | _ => true end && (length (b_cmds s) <? BINARY_COMMAND_CAPACITY)%nat.

(** [try_enqueue], with the identifier [TaskId::new] chose. *)
Definition try_enqueue (id : nat) (y : BinSys) : BinSys * result nat MeowError :=
  let s := bsys y in
  if negb (b_outstanding s <? BINARY_MAX_OUTSTANDING_TASKS)%nat then
    (y, Err (from_code_str BinaryTaskQueueFull "binary task capacity reached 1024"))
  else if negb (can_send s) then
    (with_state (set_disp (b_inflight s) (b_disp s) (b_acks s) (b_registry s ∖ {[id]}) s) y,
     Err (from_code CommandSendFailed "enqueue binary task failed"))
  else
    (mkBinSys
       (set_permits (b_slots s) (S (b_outstanding s))
         (set_disp (b_inflight s) (b_disp s) (b_acks s) ({[id]} ∪ b_registry s) (set_cmds (b_cmds s ++ [CmdEnqueue id]) s)))
       (close_sent y) (accepted y ++ [id]) (stopped y), Ok id).

Inductive bin_step : BinSys → BinSys → Prop :=
(** clients *)
| bin_enqueue y id :
    close_sent y = false → b_senders (bsys y) = true → id ∉ accepted y → bin_step y (try_enqueue id y).1
| bin_cancel y id :
    b_senders (bsys y) = true → can_send (bsys y) = true →
    bin_step y (with_state (set_cmds (b_cmds (bsys y) ++ [CmdCancel id]) (bsys y)) y)
| bin_close y responds :
    b_senders (bsys y) = true → can_send (bsys y) = true →
    bin_step y (mkBinSys (set_cmds (b_cmds (bsys y) ++ [CmdClose responds]) (bsys y)) true (accepted y) (stopped y))
| bin_drop y :
    bin_step y (with_state
      (mkBin (b_cmds (bsys y)) false (b_pending (bsys y)) (b_active (bsys y)) (b_running (bsys y)) (b_events (bsys y))
         (b_terminal (bsys y)) (b_inflight (bsys y)) (b_disp (bsys y)) (b_acks (bsys y)) (b_restart (bsys y))
         (b_error (bsys y)) (b_failure (bsys y)) (b_closing (bsys y)) (b_cmd_closed (bsys y)) (b_responder (bsys y))
         (b_registry (bsys y)) (b_slots (bsys y)) (b_outstanding (bsys y)) (b_phase (bsys y)) (b_calls (bsys y))
         (b_lost (bsys y)) (b_responses (bsys y))) y)
(** workers *)
| bin_worker y l1 id l2 j :
    b_running (bsys y) = l1 ++ id :: l2 →
    bin_step y (with_state (set_queues (b_pending (bsys y)) (b_active (bsys y)) (l1 ++ l2)
      (b_events (bsys y) ++ [(id, map_worker_join_result j)]) (b_terminal (bsys y)) (bsys y)) y)
(** the dispatcher thread: it runs a callback, whose job is dropped when it returns, and acknowledges *)
| bin_callback y d job jobs :
    b_disp (bsys y) = Some d → cd_alive d = true → cd_current d = None → cd_queue d = job :: jobs →
    bin_step y (with_state (set_ghost (b_calls (bsys y) ++ [(job_id job, job_result job)]) (b_lost (bsys y))
      (set_permits (b_slots (bsys y) + body_count [job]) (b_outstanding (bsys y) - 1)
        (set_disp (b_inflight (bsys y)) (Some (mkCbDispatcher jobs (Some (job_id job)) true)) (b_acks (bsys y))
          (b_registry (bsys y)) (bsys y)))) y)
| bin_ack y d id :
    b_disp (bsys y) = Some d → cd_alive d = true → cd_current d = Some id →
    bin_step y (with_state (set_disp (b_inflight (bsys y)) (Some (mkCbDispatcher (cd_queue d) None true))
      (b_acks (bsys y) ++ [id]) (b_registry (bsys y)) (bsys y)) y)
| bin_stop y d :
    b_disp (bsys y) = Some d → cd_alive d = true →
    bin_step y (mkBinSys (drop_jobs (cd_queue d) (set_disp (b_inflight (bsys y)) (Some (mkCbDispatcher [] None false))
      (b_acks (bsys y)) (b_registry (bsys y)) (bsys y))) (close_sent y) (accepted y) true)
(** the scheduler *)
| bin_top y :
    b_phase (bsys y) = PhTop →
    bin_step y (with_state (set_phase PhCheck (drain_callback_acks (bsys y))) y)
| bin_check y :
    b_phase (bsys y) = PhCheck →
    bin_step y (with_state (set_phase PhRestart (check_dispatcher (bsys y))) y)
| bin_restart y start :
    b_phase (bsys y) = PhRestart →
    bin_step y (with_state (set_phase PhFlush (restart_dispatcher start (bsys y))) y)
| bin_flush y panicked :
    b_phase (bsys y) = PhFlush → bin_step y (with_state (flush_turn panicked (bsys y)) y)
| bin_yield y :
    b_phase (bsys y) = PhSelect → b_restart (bsys y) = true → bin_step y (with_state (set_phase PhTop (bsys y)) y)
| bin_command y c cmds :
    b_phase (bsys y) = PhSelect → b_cmd_closed (bsys y) = false → b_cmds (bsys y) = c :: cmds →
    bin_step y (with_state (set_phase PhTop (handle_command c (set_cmds cmds (bsys y)))) y)
| bin_disconnected y :
    b_phase (bsys y) = PhSelect → b_cmd_closed (bsys y) = false → b_cmds (bsys y) = [] → b_senders (bsys y) = false →
    bin_step y (with_state (set_phase PhTop (request_close (set_close true (b_responder (bsys y)) (b_responses (bsys y)) (bsys y)))) y)
| bin_event y id r events :
    b_phase (bsys y) = PhSelect → b_active (bsys y) ≠ ∅ → b_events (bsys y) = (id, r) :: events →
    bin_step y (with_state (set_phase PhTop (handle_download_event id r
      (set_queues (b_pending (bsys y)) (b_active (bsys y)) (b_running (bsys y)) events (b_terminal (bsys y)) (bsys y)))) y)
| bin_done y id acks :
    b_phase (bsys y) = PhSelect → (0 < b_inflight (bsys y))%nat → b_acks (bsys y) = id :: acks →
    bin_step y (with_state (set_phase PhTop (set_disp (pred (b_inflight (bsys y))) (b_disp (bsys y)) acks
      (b_registry (bsys y) ∖ {[id]}) (bsys y))) y).

(** ** [BinaryExecutor::close] *)

Inductive CloseState := CLOSE_OPEN | CLOSE_IN_PROGRESS | CLOSE_COMPLETE.

(** The compare-and-exchange at its entry: go on, or return at once. *)
Definition close_enter (st : CloseState) : CloseState * option (result unit MeowError) :=
  match st with
  | CLOSE_OPEN => (CLOSE_IN_PROGRESS, None)
  | CLOSE_COMPLETE => (CLOSE_COMPLETE, Some (Ok tt))
  | CLOSE_IN_PROGRESS => (CLOSE_IN_PROGRESS, Some (Err (from_code_str CommandResponseFailed "binary close is already in progress")))
  end.

(** The rest, from what sending the command, the scheduler's answer and joining its thread give;
    the guard reopens the state unless the close completed. *)
Definition close_exit (sent : result unit string) (response : result CloseResponse string) (join : result unit MeowError)
    : CloseState * result unit MeowError :=
  match sent with
  | Err _ => (CLOSE_OPEN, Err (from_code CommandSendFailed "send binary close failed"))
  | Ok _ =>
      match response with
      | Err _ => (CLOSE_OPEN, Err (from_code CommandResponseFailed "receive binary close response failed"))
      | Ok (CloseRetryable e) => (CLOSE_OPEN, Err e)
      | Ok (CloseComplete r) =>
          (match join with Ok _ => CLOSE_COMPLETE | Err _ => CLOSE_OPEN end,
           match r, join with
           | Err e, _ => Err e
           | _, Err e => Err e
           | Ok _, Ok _ => Ok tt
           end)
      end
  end.

Definition bin_start : BinSys := mkBinSys bin_init false [] false.

(** ** Every task is in one place *)

Fixpoint cnt (x : nat) (l : list nat) : nat :=
  match l with [] => 0 | y :: l => (if (y =? x)%nat then 1 else 0) + cnt x l end.

Lemma cnt_app x l k : cnt x (l ++ k) = (cnt x l + cnt x k)%nat.
Proof. induction l as [|y l IH]; simpl; [done|]. rewrite IH. lia. Qed.
Lemma cnt_elem x l : (0 < cnt x l)%nat ↔ x ∈ l.
Proof.
  induction l as [|y l IH]; simpl; [rewrite elem_of_nil; lia|]. rewrite elem_of_cons, <- IH.
  destruct (Nat.eqb_spec y x); split; [auto|lia|intros; right; lia|intros [->|?]; [done|lia]].
Qed.
Lemma cnt_NoDup l : NoDup l → ∀ x, (cnt x l ≤ 1)%nat.
Proof.
  induction 1 as [|z l Hz Hl IH]; intros x; simpl; [lia|]. specialize (IH x). destruct (Nat.eqb_spec z x) as [->|]; [|lia].
  assert (¬ (0 < cnt x l)%nat) by (by rewrite cnt_elem). lia.
Qed.
Lemma cnt_remove_first x id l : id ∈ l → (cnt x (remove_first id l) + (if (id =? x)%nat then 1 else 0))%nat = cnt x l.
Proof.
  induction l as [|y l IH]; [by intros ?%elem_of_nil|]. simpl. intros Hin.
  destruct (Nat.eqb_spec y id) as [->|Hne]; [lia|]. simpl. rewrite <- IH; [lia|]. by apply elem_of_cons in Hin as [?|?].
Qed.
Lemma length_remove_first id l : id ∈ l → S (length (remove_first id l)) = length l.
Proof.
  induction l as [|y l IH]; [by intros ?%elem_of_nil|]. simpl. intros Hin.
  destruct (Nat.eqb_spec y id) as [->|Hne]; [done|]. simpl. f_equal. apply IH. by apply elem_of_cons in Hin as [?|?].
Qed.

Definition disp_queue (s : BinState) : list CallbackJob := match b_disp s with Some d => cd_queue d | None => [] end.
Definition unacked (s : BinState) : nat :=
  match b_disp s with
  | Some d => length (cd_queue d) + match cd_current d with Some _ => 1 | None => 0 end
  | None => 0
  end.

(** How often a task occurs in the system. *)
Definition places (x : nat) (s : BinState) : nat :=
  cnt x (enqueued (b_cmds s)) + cnt x (b_pending s) + cnt x (b_running s) + cnt x (map fst (b_events s))
  + cnt x (map job_id (b_terminal s)) + cnt x (map job_id (disp_queue s)) + cnt x (map fst (b_calls s)) + cnt x (b_lost s).

Definition active_ok (s : BinState) : Prop :=
  (∀ x, is_Some (b_active s !! x) ↔ (0 < cnt x (b_running s) + cnt x (map fst (b_events s)))%nat)
  ∧ size (b_active s) = (length (b_running s) + length (b_events s))%nat.

Definition permits_ok (s : BinState) : Prop :=
  (b_slots s + length (b_running s) + length (b_events s) + body_count (b_terminal s) + body_count (disp_queue s)
     = BINARY_MAX_CONCURRENCY)%nat
  ∧ b_outstanding s = (length (enqueued (b_cmds s)) + length (b_pending s) + length (b_running s) + length (b_events s)
      + length (b_terminal s) + length (disp_queue s))%nat.

(** A dispatcher that ended has dropped its jobs. *)
Definition dead_ok (s : BinState) : Prop :=
  ∀ d, b_disp s = Some d → cd_alive d = false → cd_queue d = [] ∧ cd_current d = None.

Definition bin_inv (acc : list nat) (s : BinState) : Prop :=
  (∀ x, places x s = cnt x acc) ∧ active_ok s ∧ permits_ok s ∧ (unacked s + length (b_acks s) ≤ b_inflight s)%nat ∧ dead_ok s.

Lemma body_count_app a b : body_count (a ++ b) = (body_count a + body_count b)%nat.
Proof. unfold body_count. by rewrite List.filter_app, length_app. Qed.
Lemma body_count_cons j l : body_count (j :: l) = ((if job_body j then 1 else 0) + body_count l)%nat.
Proof. unfold body_count. cbn [List.filter]. by destruct (job_body j). Qed.
Lemma body_count_closed ids e : body_count (map (λ id, mkJob id (Err e) false) ids) = 0%nat.
Proof. by induction ids. Qed.
Lemma map_job_id ids r b : map job_id (map (λ id, mkJob id r b) ids) = ids.
Proof. induction ids; simpl; congruence. Qed.

Lemma enqueued_app a b : enqueued (a ++ b) = enqueued a ++ enqueued b.
Proof. apply omap_app. Qed.
Lemma enqueued_cons c cmds : enqueued (c :: cmds) = match c with CmdEnqueue id => [id] | _ => [] end ++ enqueued cmds.
Proof. by destruct c. Qed.

Ltac bin_simpl :=
  unfold places, active_ok, permits_ok, unacked, disp_queue, dead_ok, finish_task in *;
  cbn [b_cmds b_senders b_pending b_active b_running b_events b_terminal b_inflight b_disp b_acks b_restart b_error b_failure
       b_closing b_cmd_closed b_responder b_registry b_slots b_outstanding b_phase b_calls b_lost b_responses
       set_queues set_cmds set_disp set_flags set_phase set_permits set_close set_ghost cd_queue cd_current cd_alive
       new_dispatcher finish_task] in *.
Ltac bin_norm :=
  rewrite ?enqueued_app, ?enqueued_cons, ?map_app, ?length_app, ?cnt_app, ?body_count_app, ?body_count_cons, ?length_map, ?map_job_id, ?body_count_closed in *;
  change (body_count []) with 0%nat in *; change (enqueued []) with (@nil nat) in *;
  cbn [map length cnt fst snd job_id job_body] in *.

(** The parts of the invariant that are counting. *)
Ltac bin_arith Hp :=
  first [ done | by intros ? [= <-] | intros x; rewrite <- (Hp x); bin_norm; lia | bin_norm; lia ].

Lemma begin_close_inv acc s : bin_inv acc s → bin_inv acc (begin_close s).
Proof.
  intros (Hp & [Ha Hsz] & [Hs Ho] & Hi & Hd). unfold begin_close. split; [|split; [|split; [|split]]]; bin_simpl; [| | |done|done].
  - intros x. rewrite <- (Hp x). bin_norm. lia.
  - split; [|by rewrite map_size_fmap]. intros x. rewrite lookup_fmap, fmap_is_Some. apply Ha.
  - bin_norm. lia.
Qed.

Lemma drain_inv acc s : bin_inv acc s → bin_inv acc (drain_callback_acks s).
Proof.
  intros (Hp & Ha & Hs & Hi & Hd). unfold drain_callback_acks. split; [|split; [|split; [|split]]]; bin_simpl; try done. simpl. lia.
Qed.

(** Jobs of a dispatcher that is given up are gone already. *)
Lemma drop_dead_inv acc s d :
  bin_inv acc s → b_disp s = Some d → cd_alive d = false →
  bin_inv acc (set_disp (b_inflight s) None (b_acks s) (b_registry s) s).
Proof.
  intros (Hp & Ha & Hs & Hi & Hd) Hdisp Hdead. destruct (Hd d Hdisp Hdead) as [Hq Hc].
  split; [|split; [|split; [|split]]]; bin_simpl; rewrite ?Hdisp in *; rewrite ?Hq in *; try done. rewrite Hc in Hi. simpl in *. lia.
Qed.

Lemma check_inv acc s : bin_inv acc s → bin_inv acc (check_dispatcher s).
Proof.
  intros H. unfold check_dispatcher. destruct (b_disp s) as [d|] eqn:Hd; [|done]. destruct (cd_alive d) eqn:Hal; [done|].
  pose proof (drain_inv acc _ (drop_dead_inv acc s d H Hd Hal)) as H'.
  set (s' := drain_callback_acks _) in *. destruct (b_inflight s' =? 0)%nat; [exact H'|]. apply begin_close_inv.
  destruct H' as (Hp & Ha & Hs & Hi & Hdd). split; [exact Hp|]. split; [exact Ha|]. split; [exact Hs|]. split; [|exact Hdd].
  unfold s', drain_callback_acks. bin_simpl. simpl. lia.
Qed.

Lemma restart_inv acc start s : bin_inv acc s → bin_inv acc (restart_dispatcher start s).
Proof.
  intros H. unfold restart_dispatcher. destruct (b_disp s) as [d|] eqn:Hd; [done|]. destruct (b_restart s); [|done].
  destruct start; [|by apply begin_close_inv]. destruct H as (Hp & Ha & Hs & Hi & _).
  split; [|split; [|split; [|split]]]; bin_simpl; rewrite ?Hd in *; try done. by intros d [= <-].
Qed.

Lemma flush_inv acc s : bin_inv acc s → bin_inv acc (flush_callback_jobs s).
Proof.
  intros H. unfold flush_callback_jobs. destruct (b_disp s) as [d|] eqn:Hd; [|done].
  destruct (b_inflight s) eqn:Hin; [|done]. destruct (b_terminal s) as [|job jobs] eqn:Ht; [done|].
  destruct (negb (cd_alive d)); [exact H|]. destruct (_ <=? _)%nat; [done|].
  destruct H as (Hp & Ha & [Hs Ho] & Hi & _). split; [|split; [|split; [|split]]]; bin_simpl; rewrite ?Hd, ?Ht in *.
  - intros x. rewrite <- (Hp x). bin_norm. lia.
  - done.
  - bin_norm. split; lia.
  - bin_norm. lia.
  - by intros d' [= <-].
Qed.

Lemma launch_loop_inv acc fuel s :
  (∀ x, cnt x acc ≤ 1)%nat → bin_inv acc s → bin_inv acc (launch_loop fuel s).
Proof.
  intros Hacc. revert s. induction fuel as [|fuel IH]; intros s H; [done|]. cbn [launch_loop].
  destruct (_ <=? _)%nat; [done|]. destruct (b_slots s) as [|slots] eqn:Hsl; [done|].
  destruct (b_pending s) as [|id pending] eqn:Hpe; [done|]. apply IH.
  destruct H as (Hp & [Ha Hsz] & [Hs Ho] & Hi & Hd). split; [|split; [|split; [|split]]]; bin_simpl; rewrite ?Hpe, ?Hsl in *; try done.
  - intros x. rewrite <- (Hp x). bin_norm. lia.
  - assert (b_active s !! id = None) as Hnone.
    { apply eq_None_not_Some. rewrite Ha. pose proof (Hp id) as Hpid. pose proof (Hacc id). bin_norm.
      rewrite Nat.eqb_refl in Hpid. lia. }
    split; [|rewrite map_size_insert_None by done; bin_norm; lia]. intros x. rewrite lookup_insert_is_Some, Ha. bin_norm.
    destruct (Nat.eqb_spec id x); split; [lia|auto|intros [?|[_ ?]]; [done|lia]|intros; right; split; [done|lia]].
  - bin_norm. lia.
Qed.

Lemma drop_jobs_terminal_inv acc s registry :
  bin_inv acc s →
  bin_inv acc (set_disp (b_inflight s) (b_disp s) (b_acks s) registry
    (set_queues (b_pending s) (b_active s) (b_running s) (b_events s) [] (drop_jobs (b_terminal s) s))).
Proof.
  intros (Hp & Ha & [Hs Ho] & Hi & Hd). unfold drop_jobs. split; [|split; [|split; [|split]]]; bin_simpl; try done.
  - intros x. rewrite <- (Hp x). bin_norm. lia.
  - unfold body_count in *. simpl. lia.
Qed.

Lemma end_scheduler_inv acc s : bin_inv acc s → bin_inv acc (end_scheduler s).
Proof.
  intros (Hp & Ha & [Hs Ho] & Hi & Hd). unfold end_scheduler. split; [|split; [|split; [|split]]]; bin_simpl; try done.
  - intros x. rewrite <- (Hp x). bin_norm. lia.
  - bin_norm. lia.
Qed.

Lemma close_unavailable_inv acc s : bin_inv acc s → bin_inv acc (close_unavailable s).
Proof.
  intros H. unfold close_unavailable. destruct (_ && _); [|done].
  destruct (b_responder s); bin_simpl; (destruct (b_cmd_closed s); [|exact H]).
  - apply end_scheduler_inv. exact (drop_jobs_terminal_inv acc s ∅ H).
  - apply end_scheduler_inv. exact (drop_jobs_terminal_inv acc s ∅ H).
Qed.

Lemma flush_turn_inv acc panicked s : (∀ x, cnt x acc ≤ 1)%nat → bin_inv acc s → bin_inv acc (flush_turn panicked s).
Proof.
  intros Hacc H. unfold flush_turn. apply flush_inv in H. set (s1 := flush_callback_jobs s) in *.
  assert (bin_inv acc (if negb (b_closing s1) && negb (b_failure s1) then launch_pending s1 else s1)) as H2
    by (destruct (_ && _); [by apply launch_loop_inv|done]).
  set (s2 := if _ && _ then launch_pending s1 else s1) in *. apply close_unavailable_inv in H2.
  set (s3 := close_unavailable s2) in *.
  assert (bin_inv acc (if close_finished s3 then finish_scheduler panicked s3 else set_phase PhSelect s3)) as H4.
  { destruct (close_finished s3); [|exact H2]. apply (end_scheduler_inv acc s3) in H2. unfold finish_scheduler.
    revert H2. generalize (end_scheduler s3). intros s4 H4. destruct (b_responder s4); exact H4. }
  by destruct (b_phase s3).
Qed.

Lemma request_close_inv acc s : bin_inv acc s → bin_inv acc (request_close s).
Proof.
  intros H. apply (begin_close_inv acc (set_flags (b_restart s || bool_decide (b_disp s = None)) (b_error s) (b_failure s) (b_closing s) s)).
  exact H.
Qed.

Lemma handle_command_inv acc c cmds s :
  b_cmds s = c :: cmds → bin_inv acc s → bin_inv acc (handle_command c (set_cmds cmds s)).
Proof.
  intros Hc (Hp & [Ha Hsz] & [Hs Ho] & Hi & Hd). destruct c as [id|id|responds]; cbn [handle_command].
  - bin_simpl. destruct (_ && _); (split; [|split; [|split; [|split]]]; bin_simpl; rewrite Hc in *; try done);
      try (intros x; rewrite <- (Hp x); bin_norm; lia); bin_norm; lia.
  - assert (bin_inv acc (set_cmds cmds s)) as H'.
    { split; [|split; [|split; [|split]]]; bin_simpl; rewrite Hc in *; done. }
    clear Hp Ha Hsz Hs Ho Hi Hd Hc. set (s' := set_cmds cmds s) in *. unfold cancel_task.
    destruct H' as (Hp & [Ha Hsz] & [Hs Ho] & Hi & Hd). case_bool_decide as Hin; cbn [fst].
    + split; [|split; [|split; [|split]]]; bin_simpl; try done.
      * intros x. rewrite <- (Hp x). pose proof (cnt_remove_first x id _ Hin). bin_norm. lia.
      * pose proof (length_remove_first id _ Hin). bin_norm. lia.
    + destruct (b_active s' !! id) as [[]|] eqn:Hact; try (by split_and!). cbn [fst]. split; [|split; [|split; [|split]]]; bin_simpl; try done.
      split; [|rewrite map_size_insert_Some; [done|by eexists]]. intros x. rewrite lookup_insert_is_Some, <- Ha.
      destruct (decide (id = x)) as [->|]; [|tauto]. rewrite Hact. split; [by eexists|by left].
  - assert (bin_inv acc (set_cmds cmds s)) as H'.
    { split; [|split; [|split; [|split]]]; bin_simpl; rewrite Hc in *; done. }
    apply request_close_inv. destruct (b_responder _); case_bool_decide; exact H'.
Qed.

Lemma handle_event_inv acc id r events s :
  (∀ x, cnt x acc ≤ 1)%nat → b_events s = (id, r) :: events → bin_inv acc s →
  bin_inv acc (handle_download_event id r (set_queues (b_pending s) (b_active s) (b_running s) events (b_terminal s) s)).
Proof.
  intros Hacc He (Hp & [Ha Hsz] & [Hs Ho] & Hi & Hd). unfold handle_download_event. bin_simpl.
  set (r' := worker_result _ r). rewrite He in *.
  assert (is_Some (b_active s !! id)) as Hact by (apply Ha; simpl; rewrite Nat.eqb_refl; lia).
  assert (∀ x, is_Some (delete id (b_active s) !! x) ↔ (0 < cnt x (b_running s) + cnt x (map fst events))%nat) as Ha'.
  { intros x. rewrite lookup_delete_is_Some, Ha. pose proof (Hp x) as Hpx. pose proof (Hacc x). bin_norm.
    destruct (Nat.eqb_spec id x); split; [lia|lia|lia|lia]. }
  assert (size (delete id (b_active s)) = length (b_running s) + length events)%nat as Hsz'.
  { rewrite map_size_delete_Some by done. bin_norm. lia. }
  destruct (result_ok r') eqn:Hok; (split; [|split; [|split; [|split]]]; bin_simpl; try done);
    try (intros x; rewrite <- (Hp x); bin_norm; lia); bin_norm; lia.
Qed.

Lemma try_enqueue_inv id y :
  NoDup (accepted y) → id ∉ accepted y → bin_inv (accepted y) (bsys y) →
  NoDup (accepted (try_enqueue id y).1) ∧ bin_inv (accepted (try_enqueue id y).1) (bsys (try_enqueue id y).1).
Proof.
  intros Hnd Hid Hinv. unfold try_enqueue. destruct (negb _); [by split|].
  destruct (negb (can_send (bsys y))); [by split|]. cbn [fst accepted bsys].
  split; [apply NoDup_app; split; [done|split; [set_solver|by apply NoDup_singleton]]|].
  destruct Hinv as (Hp & Ha & [Hs Ho] & Hi & Hdd). split; [|split; [|split; [|split]]]; bin_simpl; try done.
  - intros x. bin_norm. rewrite <- (Hp x). lia.
  - bin_norm. lia.
Qed.

Lemma bin_step_inv y y' :
  NoDup (accepted y) → bin_inv (accepted y) (bsys y) → bin_step y y' →
  NoDup (accepted y') ∧ bin_inv (accepted y') (bsys y').
Proof.
  intros Hnd Hinv. pose proof (cnt_NoDup _ Hnd) as Hacc.
  destruct 1 as [y id Hc Hse Hid|y id Hse Hcap|y responds Hse Hcap|y|y l1 id l2 j Hr|y d job jobs Hd Hal Hcu Hq
    |y d id Hd Hal Hcu|y d Hd Hal|y Hph|y Hph|y start Hph|y panicked Hph|y Hph Hre|y c cmds Hph Hcl Hcm|y Hph Hcl Hcm Hse
    |y id r events Hph Hac Hev|y id acks Hph Hin Hack]; cbn [accepted bsys with_state].
  - by apply try_enqueue_inv.
  - split; [done|]. destruct Hinv as (Hp & Ha & [Hs Ho] & Hi & Hdd).
    split; [|split; [|split; [|split]]]; bin_simpl; try done;
      [intros x; rewrite <- (Hp x)|]; bin_norm; lia.
  - split; [done|]. destruct Hinv as (Hp & Ha & [Hs Ho] & Hi & Hdd).
    split; [|split; [|split; [|split]]]; bin_simpl; try done;
      [intros x; rewrite <- (Hp x)|]; bin_norm; lia.
  - by split.
  - split; [done|]. destruct Hinv as (Hp & [Ha Hsz] & [Hs Ho] & Hi & Hdd). split; [|split; [|split; [|split]]]; bin_simpl; rewrite Hr in *; try done.
    + intros x. rewrite <- (Hp x). bin_norm. lia.
    + bin_norm. split; [|lia]. intros x. rewrite Ha. bin_norm. lia.
    + bin_norm. lia.
  - split; [done|]. destruct Hinv as (Hp & Ha & [Hs Ho] & Hi & Hdd).
    split; [|split; [|split; [|split]]]; bin_simpl; rewrite ?Hd, ?Hq, ?Hcu in *; bin_arith Hp.
  - split; [done|]. destruct Hinv as (Hp & Ha & [Hs Ho] & Hi & Hdd).
    split; [|split; [|split; [|split]]]; bin_simpl; rewrite ?Hd, ?Hcu in *; bin_arith Hp.
  - split; [done|]. destruct Hinv as (Hp & Ha & [Hs Ho] & Hi & Hdd). unfold drop_jobs.
    split; [|split; [|split; [|split]]]; bin_simpl; rewrite ?Hd in *; bin_arith Hp.
  - split; [done|]. by apply (drain_inv (accepted y)).
  - split; [done|]. by apply (check_inv (accepted y)).
  - split; [done|]. by apply (restart_inv (accepted y)).
  - split; [done|]. by apply flush_turn_inv.
  - by split.
  - split; [done|]. by apply (handle_command_inv (accepted y)).
  - split; [done|]. by apply (request_close_inv (accepted y)).
  - split; [done|]. by apply (handle_event_inv (accepted y)).
  - split; [done|]. destruct Hinv as (Hp & Ha & [Hs Ho] & Hi & Hdd). split; [|split; [|split; [|split]]]; bin_simpl; try done.
    rewrite Hack in Hi. simpl in Hi. lia.
Qed.
