(* ===== verification/BinaryExecProps.v ===== *)
(** * What the in-memory download executor promises

    Properties of every reachable state of [BinaryExec.bin_step]: each accepted task is in one
    place and its callback runs at most once; the bodies in memory and the tasks outstanding stay
    within their pools; and a close that ends without a failure of the callback thread has run the
    callback of every accepted task. *)
From S2P Require Import Prelude Errors HttpHeaders DownloadIdentity RangeDownload DownloadPrepare BinaryDownload BinaryExec.
#[local] Open Scope Z_scope.

(** ** The invariant on reachable states *)

Lemma bin_init_inv : bin_inv [] bin_init.
Proof.
  split; [done|]. split; [split; [|done]|split; [done|split; [done|]]].
  - intros x. cbn. rewrite lookup_empty. split; [by intros []|lia].
  - by intros d [= <-].
Qed.

Lemma bin_reachable_inv y : rtc bin_step bin_start y → NoDup (accepted y) ∧ bin_inv (accepted y) (bsys y).
Proof.
  revert y. apply (rtc_ind_r (λ y, NoDup (accepted y) ∧ bin_inv (accepted y) (bsys y))).
  - split; [apply NoDup_nil_2|exact bin_init_inv].
  - intros y1 y2 _ Hstep [Hnd Hinv]. by apply (bin_step_inv y1).
Qed.

Lemma cnt_NoDup_inv l : (∀ x, (cnt x l ≤ 1)%nat) → NoDup l.
Proof.
  induction l as [|z l IH]; intros H; [apply NoDup_nil_2|]. apply NoDup_cons. split.
  - intros Hz%cnt_elem. specialize (H z). simpl in H. rewrite Nat.eqb_refl in H. lia.
  - apply IH. intros x. specialize (H x). simpl in H. lia.
Qed.

Lemma cnt_zero x l : cnt x l = 0%nat ↔ x ∉ l.
Proof. rewrite <- cnt_elem. lia. Qed.

(** ** What a step leaves alone *)

Lemma launch_loop_frame fuel s :
  ∃ pending active running slots,
    launch_loop fuel s = set_permits slots (b_outstanding s) (set_queues pending active running (b_events s) (b_terminal s) s).
Proof.
  revert s. induction fuel as [|fuel IH]; intros s; cbn [launch_loop].
  - exists (b_pending s), (b_active s), (b_running s), (b_slots s). by destruct s.
  - destruct (_ <=? _)%nat; [exists (b_pending s), (b_active s), (b_running s), (b_slots s); by destruct s|].
    destruct (b_slots s) eqn:Hs; [exists (b_pending s), (b_active s), (b_running s), 0%nat; destruct s; simpl in *; by subst|].
    destruct (b_pending s) eqn:Hp; [exists [], (b_active s), (b_running s), (S n); destruct s; simpl in *; by subst|].
    match goal with |- context [launch_loop fuel ?t] => destruct (IH t) as (p & a & r & sl & ->) end.
    by exists p, a, r, sl.
Qed.

(** ** The callback thread lives *)

(** No task is enqueued behind a close. *)
Fixpoint closed_last (cmds : list BinCommand) : Prop :=
  match cmds with
  | [] => True
  | CmdClose _ :: cmds => enqueued cmds = []
  | _ :: cmds => closed_last cmds
  end.

Definition no_close (cmds : list BinCommand) : Prop := ∀ r, CmdClose r ∉ cmds.

Lemma closed_last_enqueue cmds id : no_close cmds → closed_last (cmds ++ [CmdEnqueue id]).
Proof.
  induction cmds as [|c cmds IH]; intros H; [done|].
  assert (no_close cmds) as H' by (intros r Hr; apply (H r); by right).
  destruct c; [by apply IH|by apply IH|]. destruct (H responds). by left.
Qed.
Lemma closed_last_other cmds c : enqueued [c] = [] → closed_last cmds → closed_last (cmds ++ [c]).
Proof.
  intros Hc. induction cmds as [|c' cmds IH]; [destruct c; simpl; done|]. destruct c'; simpl; try exact IH.
  intros H. by rewrite enqueued_app, H, Hc.
Qed.
Lemma closed_last_none cmds : enqueued cmds = [] → closed_last cmds.
Proof. induction cmds as [|[] cmds IH]; simpl; done. Qed.
Lemma no_close_other cmds c : (∀ r, c ≠ CmdClose r) → no_close cmds → no_close (cmds ++ [c]).
Proof. intros Hc H r [Hr|Hr%list_elem_of_singleton]%elem_of_app; [by apply (H r)|by apply (Hc r)]. Qed.

(** What holds while the callback thread has not ended. *)
Record bin_live (sent : bool) (s : BinState) : Prop := mkLive {
  live_disp : ∃ d, b_disp s = Some d ∧ cd_alive d = true;
  live_flags : b_restart s = false ∧ b_failure s = false;
  live_lost : b_lost s = [];
  live_closing : b_closing s = true → enqueued (b_cmds s) = [] ∧ b_pending s = [] ∧ (sent = true ∨ b_senders s = false);
  live_cmds : closed_last (b_cmds s) ∧ (sent = false → no_close (b_cmds s));
  live_done : b_phase s = PhDone → b_closing s = true ∧ b_active s = ∅ ∧ b_terminal s = [] ∧ b_inflight s = 0%nat;
}.

Ltac live_split := constructor; bin_simpl; try done.

Lemma flush_jobs_live sent s : bin_live sent s → bin_live sent (flush_callback_jobs s).
Proof.
  intros [Hd Hf Hl Hc Hq Hdone]. unfold flush_callback_jobs. destruct Hd as (d & Hd & Hal). rewrite Hd, Hal.
  destruct (b_inflight s) eqn:Hi; [|by constructor; eauto; rewrite Hi].
  destruct (b_terminal s) as [|job jobs] eqn:Ht; [by constructor; eauto; rewrite Hi, Ht|]. cbn [negb].
  destruct (_ <=? _)%nat; [by constructor; eauto; rewrite Hi, Ht|]. live_split; [by eauto|].
  intros Hph. by destruct (Hdone Hph) as (_ & _ & ? & _).
Qed.

Lemma flush_turn_live sent panicked s : b_phase s = PhFlush → bin_live sent s → bin_live sent (flush_turn panicked s).
Proof.
  intros Hph H. unfold flush_turn.
  assert (b_phase (flush_callback_jobs s) = PhFlush) as Hph1.
  { rewrite <- Hph. unfold flush_callback_jobs. by repeat case_match. }
  apply flush_jobs_live in H. revert H Hph1. generalize (flush_callback_jobs s). clear s Hph. intros s H Hph.
  set (s2 := if _ && _ then launch_pending s else s).
  assert (bin_live sent s2 ∧ b_phase s2 = PhFlush) as [H2 Hph2].
  { subst s2. destruct (b_closing s) eqn:Hcl; [by simpl|]. simpl. destruct (negb (b_failure s)); [|done].
    destruct (launch_loop_frame (S (length (b_pending s))) s) as (p & a & r & sl & Heq). unfold launch_pending. rewrite Heq.
    destruct H as [Hd Hf Hl Hc Hq Hdone]. split; [|exact Hph]. live_split; [|].
    - by rewrite Hcl.
    - by rewrite Hph. }
  revert H2 Hph2. generalize s2. clear s s2 H Hph. intros s H Hph.
  assert (close_unavailable s = s) as ->.
  { unfold close_unavailable. destruct (live_disp _ _ H) as (d & -> & _). by destruct (b_closing s). }
  rewrite Hph. destruct (close_finished s) eqn:Hfin; [|destruct H; by live_split].
  unfold close_finished in Hfin.
  apply andb_true_iff in Hfin as [[[[[Hfin _]%andb_true_iff _]%andb_true_iff Hact]%andb_true_iff Hterm]%andb_true_iff Hin].
  destruct (b_terminal s) eqn:Ht; [|done]. apply bool_decide_eq_true in Hact. apply Nat.eqb_eq in Hin.
  destruct (live_closing _ _ H Hfin) as (Hen & Hpe & Hsent).
  assert (bin_live sent (end_scheduler s)) as Hend.
  { destruct H as [Hd Hf Hl Hc Hq Hdone]. unfold end_scheduler. live_split.
    - by rewrite Hl, Hen.
    - split; [done|]. by intros _ r ?%elem_of_nil. }
  unfold finish_scheduler. revert Hend. generalize (end_scheduler s). intros s' [Hd Hf Hl Hc Hq Hdone].
  destruct (b_responder s'); live_split.
Qed.

Lemma request_close_live sent s :
  b_phase s ≠ PhDone → enqueued (b_cmds s) = [] → (sent = true ∨ b_senders s = false) → bin_live sent s → bin_live sent (request_close s).
Proof.
  intros Hph Hen Hs [Hd [Hr Hf] Hl Hc Hq Hdone]. unfold request_close, begin_close. live_split.
  destruct Hd as (d & Hd & _). rewrite Hr, Hd. by rewrite bool_decide_eq_false_2.
Qed.

Lemma handle_command_live sent c cmds s :
  b_phase s ≠ PhDone → b_cmds s = c :: cmds → bin_live sent s → bin_live sent (handle_command c (set_cmds cmds s)).
Proof.
  intros Hph Hcm H. assert (bin_live sent (set_cmds cmds s)) as H'.
  { destruct H as [Hd Hf Hl Hc Hq Hdone]. rewrite Hcm in *. live_split.
    - intros Hcl. destruct (Hc Hcl) as (He & ?). rewrite enqueued_cons in He. by apply app_eq_nil in He as [_ ->].
    - destruct Hq as [Hq1 Hq2]. split; [|intros Hsf r Hr; apply (Hq2 Hsf r); by right].
      destruct c; [done..|]. by apply closed_last_none. }
  destruct c as [id|id|responds]; cbn [handle_command].
  - destruct H' as [Hd [Hr Hf] Hl Hc Hq Hdone]. rewrite Hf. destruct (b_closing (set_cmds cmds s)) eqn:Hcl.
    + exfalso. destruct (live_closing _ _ H Hcl) as (He & _). rewrite Hcm in He. done.
    + cbn [negb andb]. live_split; intros; congruence.
  - destruct H' as [Hd Hf Hl Hc Hq Hdone]. unfold cancel_task. case_bool_decide as Hin; cbn [fst].
    + live_split. intros Hcl. destruct (Hc Hcl) as (? & Hp & ?). bin_simpl. rewrite Hp in *. by apply elem_of_nil in Hin.
    + destruct (b_active (set_cmds cmds s) !! id) as [[]|]; cbn [fst]; live_split.
  - assert (enqueued cmds = [] ∧ sent = true) as [He Hs].
    { destruct (live_cmds _ _ H) as [Hq1 Hq2]. rewrite Hcm in *. split; [exact Hq1|].
      destruct sent; [done|]. destruct (Hq2 eq_refl responds). by left. }
    apply request_close_live; [..|destruct H' as [Hd Hf Hl Hc Hq Hdone]]; destruct (b_responder _); try case_bool_decide; try done;
      try (by left); live_split.
Qed.

Lemma handle_event_live sent id r events s :
  b_phase s ≠ PhDone → bin_live sent s →
  bin_live sent (handle_download_event id r (set_queues (b_pending s) (b_active s) (b_running s) events (b_terminal s) s)).
Proof.
  intros Hph [Hd Hf Hl Hc Hq Hdone]. unfold handle_download_event. destruct (result_ok _); live_split.
Qed.

Lemma try_enqueue_live id y :
  close_sent y = false → b_senders (bsys y) = true → bin_live (close_sent y) (bsys y) →
  bin_live (close_sent (try_enqueue id y).1) (bsys (try_enqueue id y).1).
Proof.
  intros Hcs Hse H. unfold try_enqueue. destruct (negb _); [done|].
  destruct (negb (can_send (bsys y))); cbn [fst bsys close_sent with_state]; destruct H as [Hd Hf Hl Hc [Hq Hq'] Hdone]; live_split.
  - intros Hcl. destruct (Hc Hcl) as (_ & _ & [?|?]); congruence.
  - split; [by apply closed_last_enqueue, Hq'|]. intros Hsf. apply no_close_other; [done|by apply Hq'].
Qed.

Lemma bin_step_live y y' :
  bin_step y y' → (stopped y = false → bin_live (close_sent y) (bsys y)) → stopped y' = false → bin_live (close_sent y') (bsys y').
Proof.
  destruct 1 as [y id Hc Hse Hid|y id Hse Hcap|y responds Hse Hcap|y|y l1 id l2 j Hr|y d job jobs Hd Hal Hcu Hq
    |y d id Hd Hal Hcu|y d Hd Hal|y Hph|y Hph|y start Hph|y panicked Hph|y Hph Hre|y c cmds Hph Hcl Hcm|y Hph Hcl Hcm Hse
    |y id r events Hph Hac Hev|y id acks Hph Hin Hack]; cbn [stopped bsys close_sent with_state]; intros Hy Hs; try done;
    try (specialize (Hy Hs)).
  - assert (stopped (try_enqueue id y).1 = stopped y) as Heq by (unfold try_enqueue; by repeat case_match).
    rewrite Heq in Hs. by apply try_enqueue_live, Hy.
  - destruct Hy as [Hd Hf Hl Hc [Hq Hq'] Hdone]. live_split.
    + intros Hcl. destruct (Hc Hcl) as (He & ?). by rewrite enqueued_app, He.
    + split; [by apply closed_last_other|]. intros Hsf. apply no_close_other; [done|by apply Hq'].
  - destruct Hy as [Hd Hf Hl Hc [Hq Hq'] Hdone]. live_split.
    + intros Hcl. destruct (Hc Hcl) as (He & ? & _). rewrite enqueued_app, He. auto.
    + split; [by apply closed_last_other|done].
  - destruct Hy as [Hd Hf Hl Hc Hq Hdone]. live_split. intros Hcl. destruct (Hc Hcl) as (? & ? & _). auto.
  - destruct Hy as [Hd Hf Hl Hc Hq Hdone]. live_split.
  - destruct Hy as [Hd' Hf Hl Hc Hq' Hdone]. live_split. eauto.
  - destruct Hy as [Hd' Hf Hl Hc Hq' Hdone]. live_split. eauto.
  - destruct Hy as [Hd' Hf Hl Hc Hq' Hdone]. unfold drain_callback_acks. live_split.
  - destruct (live_disp _ _ Hy) as (d & Hd & Hal). unfold check_dispatcher. rewrite Hd, Hal.
    destruct Hy as [Hd' Hf Hl Hc Hq' Hdone]. live_split.
  - destruct (live_disp _ _ Hy) as (d & Hd & Hal). unfold restart_dispatcher. rewrite Hd.
    destruct Hy as [Hd' Hf Hl Hc Hq' Hdone]. live_split.
  - by apply flush_turn_live.
  - destruct Hy as [Hd' Hf Hl Hc Hq' Hdone]. live_split.
  - assert (bin_live (close_sent y) (handle_command c (set_cmds cmds (bsys y)))) as Hy'
      by (apply handle_command_live; [by rewrite Hph|done|done]).
    revert Hy'. generalize (handle_command c (set_cmds cmds (bsys y))). intros s [Hd' Hf Hl Hc Hq' Hdone]. live_split.
  - assert (bin_live (close_sent y) (request_close (set_close true (b_responder (bsys y)) (b_responses (bsys y)) (bsys y)))) as Hy'.
    { apply request_close_live; [by simpl; rewrite Hph|by simpl; rewrite Hcm|by right|].
      destruct Hy as [Hd' Hf Hl Hc Hq' Hdone]. live_split. }
    revert Hy'. generalize (request_close (set_close true (b_responder (bsys y)) (b_responses (bsys y)) (bsys y))).
    intros s [Hd' Hf Hl Hc Hq' Hdone]. live_split.
  - assert (b_phase (bsys y) ≠ PhDone) as Hnd by (by rewrite Hph).
    pose proof (handle_event_live _ id r events _ Hnd Hy) as Hy'. revert Hy'.
    match goal with |- bin_live _ ?t → _ => generalize t end. intros s [Hd' Hf Hl Hc Hq' Hdone]. live_split.
  - destruct Hy as [Hd' Hf Hl Hc Hq' Hdone]. live_split.
Qed.

Lemma bin_reachable_live y : rtc bin_step bin_start y → stopped y = false → bin_live (close_sent y) (bsys y).
Proof.
  revert y. apply (rtc_ind_r (λ y, stopped y = false → bin_live (close_sent y) (bsys y))).
  - intros _. live_split; [by exists new_dispatcher|]. split; [done|]. by intros _ r ?%elem_of_nil.
  - intros y1 y2 _ Hstep Hy. by apply (bin_step_live y1).
Qed.

(** ** The pool of outstanding tasks *)

Lemma outstanding_step y y' :
  bin_step y y' → (b_outstanding (bsys y) ≤ BINARY_MAX_OUTSTANDING_TASKS)%nat →
  (b_outstanding (bsys y') ≤ BINARY_MAX_OUTSTANDING_TASKS)%nat.
Proof.
  assert (∀ s, b_outstanding (check_dispatcher s) = b_outstanding s) as Hcheck.
  { intros s. unfold check_dispatcher, drain_callback_acks, begin_close. by repeat case_match. }
  assert (∀ start s, b_outstanding (restart_dispatcher start s) = b_outstanding s) as Hrestart.
  { intros start s. unfold restart_dispatcher, begin_close. by repeat case_match. }
  assert (∀ panicked s, b_outstanding (flush_turn panicked s) ≤ b_outstanding s)%nat as Hflush.
  { intros panicked s. unfold flush_turn. assert (b_outstanding (flush_callback_jobs s) = b_outstanding s) as <-.
    { unfold flush_callback_jobs. by repeat case_match. }
    generalize (flush_callback_jobs s). clear s. intros s.
    assert (b_outstanding (if negb (b_closing s) && negb (b_failure s) then launch_pending s else s) = b_outstanding s) as <-.
    { destruct (_ && _); [|done]. unfold launch_pending. by destruct (launch_loop_frame (S (length (b_pending s))) s) as (? & ? & ? & ? & ->). }
    generalize (if negb (b_closing s) && negb (b_failure s) then launch_pending s else s). clear s. intros s.
    assert (b_outstanding (close_unavailable s) ≤ b_outstanding s)%nat as Hle.
    { unfold close_unavailable, end_scheduler, drop_jobs. repeat case_match; bin_simpl; lia. }
    revert Hle. generalize (close_unavailable s). intros s' Hle.
    assert (b_outstanding (if close_finished s' then finish_scheduler panicked s' else set_phase PhSelect s') ≤ b_outstanding s')%nat.
    { unfold finish_scheduler, end_scheduler. repeat case_match; bin_simpl; lia. }
    destruct (b_phase s'); lia. }
  assert (∀ c s, b_outstanding (handle_command c s) = b_outstanding s) as Hcmd.
  { intros [] s; cbn [handle_command]; unfold cancel_task, request_close, begin_close; by repeat case_match. }
  destruct 1; cbn [bsys with_state]; rewrite ?Hcheck, ?Hrestart; bin_simpl; rewrite ?Hcheck, ?Hrestart, ?Hcmd; try done; try lia.
  - unfold try_enqueue. destruct (Nat.ltb_spec (b_outstanding (bsys y)) BINARY_MAX_OUTSTANDING_TASKS); [|done]. cbn [negb].
    destruct (negb _); [done|]. cbn [fst bsys]. bin_simpl. lia.
  - unfold drop_jobs. bin_simpl. lia.
  - intros Hle. specialize (Hflush panicked (bsys y)). lia.
  - unfold handle_download_event. destruct (result_ok _); done.
Qed.

Lemma outstanding_bounded y : rtc bin_step bin_start y → (b_outstanding (bsys y) ≤ BINARY_MAX_OUTSTANDING_TASKS)%nat.
Proof.
  revert y. apply (rtc_ind_r (λ y, (b_outstanding (bsys y) ≤ BINARY_MAX_OUTSTANDING_TASKS)%nat)); [simpl; lia|].
  intros y1 y2 _ Hstep. by apply outstanding_step.
Qed.

(** ** A run *)

Tactic Notation "bin_do" uconstr(c) :=
  eapply rtc_l; [eapply c; first [reflexivity | set_solver | (vm_compute; lia) | done]|];
  match goal with |- rtc _ ?a _ => let a' := eval vm_compute in a in change a with a' end.
Ltac bin_turn := bin_do bin_top; bin_do bin_check; bin_do (bin_restart _ (Ok tt)); bin_do (bin_flush _ false).

(** Task 7 is downloaded and task 8 enqueued when the client closes. *)
Lemma binary_run :
  ∃ y, rtc bin_step bin_start y ∧ stopped y = false ∧ b_phase (bsys y) = PhDone ∧ accepted y = [7; 8]%nat
    ∧ b_calls (bsys y) = [(7%nat, Ok (mkOutput [1] None)); (8%nat, Err binary_client_closed)]
    ∧ b_responses (bsys y) = [CloseComplete (Ok tt)].
Proof.
  eexists. split.
  - bin_do (bin_enqueue _ 7). bin_turn. bin_do bin_command. bin_turn.
    bin_do (bin_worker _ [] 7%nat [] (Joined (Ok (mkOutput [1] None)))). bin_do bin_event. bin_turn.
    bin_do bin_callback. bin_do (bin_enqueue _ 8). bin_do (bin_close _ true). bin_do bin_command.
    bin_do bin_top. bin_do bin_check. bin_do bin_ack. bin_do (bin_restart _ (Ok tt)). bin_do (bin_flush _ false).
    bin_do bin_done. bin_turn. bin_do (bin_worker _ [] 8%nat [] (Joined (Ok (mkOutput [2] None)))). bin_do bin_command. bin_turn.
    bin_do bin_event. bin_turn. bin_do bin_callback. bin_do bin_ack. bin_do bin_done. bin_turn. apply rtc_refl.
  - by vm_compute.
Qed.

(** ** The promises *)

(** C40: in every reachable state of the executor each accepted task is in exactly one place (the
    command channel, the pending queue, a running download, a finished download, the queue of
    callbacks, the callback thread, or it was called or dropped), a task that was not accepted is
    nowhere, and no task's callback has run twice. *)
Theorem binary_one_callback y :
  rtc bin_step bin_start y →
  NoDup (map fst (b_calls (bsys y)))
  ∧ ∀ x, (x ∈ accepted y → places x (bsys y) = 1%nat) ∧ (x ∉ accepted y → places x (bsys y) = 0%nat).
Proof.
  intros H. destruct (bin_reachable_inv y H) as (Hnd & Hp & _). pose proof (cnt_NoDup _ Hnd) as Hle. split.
  - apply cnt_NoDup_inv. intros x. specialize (Hp x). specialize (Hle x). unfold places in Hp. lia.
  - intros x. specialize (Hp x). specialize (Hle x). rewrite Hp. split; [rewrite <- cnt_elem; lia|apply cnt_zero].
Qed.

Lemma binary_one_callback_witness : ∃ y, accepted y = [7; 8]%nat ∧ NoDup (map fst (b_calls (bsys y))) ∧ places 7 (bsys y) = 1%nat.
Proof.
  destruct binary_run as (y & Hrun & _ & _ & Hacc & _). exists y. split; [exact Hacc|].
  destruct (binary_one_callback y Hrun) as [Hnd Hone]. split; [exact Hnd|]. apply (Hone 7%nat). rewrite Hacc. by left.
Defined.

(** At most two bodies are in memory at once, those of downloads that run, of finished ones and
    of callbacks still to come together, and at most 1024 tasks are outstanding. *)
Theorem binary_memory_bounded y :
  rtc bin_step bin_start y →
  (length (b_running (bsys y)) + length (b_events (bsys y)) + body_count (b_terminal (bsys y))
     + body_count (disp_queue (bsys y)) ≤ BINARY_MAX_CONCURRENCY)%nat
  ∧ (length (enqueued (b_cmds (bsys y))) + length (b_pending (bsys y)) + length (b_running (bsys y))
       + length (b_events (bsys y)) + length (b_terminal (bsys y)) + length (disp_queue (bsys y))
       ≤ BINARY_MAX_OUTSTANDING_TASKS)%nat.
Proof.
  intros H. pose proof (outstanding_bounded y H). destruct (bin_reachable_inv y H) as (_ & _ & _ & [Hs Ho] & _). lia.
Qed.

Lemma binary_memory_bounded_witness :
  ∃ y, accepted y = [7; 8]%nat ∧ (length (b_running (bsys y)) ≤ BINARY_MAX_CONCURRENCY)%nat.
Proof.
  destruct binary_run as (y & Hrun & _ & _ & Hacc & _). exists y. split; [exact Hacc|].
  destruct (binary_memory_bounded y Hrun) as [Hb _]. lia.
Defined.

(** C36: when the scheduler has ended and its callback thread never failed, the callback of every
    accepted task has run exactly once: the close waits for downloads that run, for callbacks that
    are queued and for tasks enqueued before it. *)
Theorem binary_close_delivers y :
  rtc bin_step bin_start y → stopped y = false → b_phase (bsys y) = PhDone → map fst (b_calls (bsys y)) ≡ₚ accepted y.
Proof.
  intros H Hs Hph. destruct (bin_reachable_inv y H) as (Hnd & Hp & [_ Hsz] & _ & Hi & _).
  destruct (bin_reachable_live y H Hs) as [Hd _ Hl Hc _ Hdone]. destruct (Hdone Hph) as (Hcl & Hact & Ht & Hin).
  destruct (Hc Hcl) as (He & Hpe & _). rewrite Hact, map_size_empty in Hsz.
  apply NoDup_Permutation; [|exact Hnd|].
  - apply cnt_NoDup_inv. intros x. specialize (Hp x). pose proof (cnt_NoDup _ Hnd x). unfold places in Hp. lia.
  - intros x. specialize (Hp x). unfold places in Hp. rewrite He, Hpe, Ht, Hl in Hp.
    destruct (b_running (bsys y)); [|done]. destruct (b_events (bsys y)); [|done].
    assert (disp_queue (bsys y) = []) as Hq.
    { unfold unacked, disp_queue in *. destruct (b_disp (bsys y)) as [d|]; [|done]. destruct (cd_queue d); [done|]. simpl in Hi. lia. }
    rewrite Hq in Hp. simpl in Hp. rewrite <- !cnt_elem. lia.
Qed.

Lemma binary_close_delivers_witness :
  ∃ y, map fst (b_calls (bsys y)) ≡ₚ accepted y ∧ b_responses (bsys y) = [CloseComplete (Ok tt)].
Proof.
  destruct binary_run as (y & Hrun & Hs & Hph & _ & _ & Hresp). exists y. split; [|exact Hresp].
  exact (binary_close_delivers y Hrun Hs Hph).
Defined.
