(* ===== verification/Client.v ===== *)
(** * The client facade

    [src/meow_client.rs]: a client owns an executor of transfers and one of in-memory downloads,
    both created on first use. Every admission of work happens under the lifecycle's lock; a close
    moves the lifecycle from open to closing, tears the executors down and publishes the outcome.

    An executor is what [ClosableExecutor] says of it; the instances are the transfer executor's
    handle and the one of [BinaryExec]. Calls of the client that run at the same time are threads
    of a step relation, cut where the code releases the lock or awaits. *)
From S2P Require Import Prelude Errors HttpHeaders DownloadIdentity RangeDownload DownloadPrepare BinaryDownload BinaryExec.

(** ** Executors that can be closed *)

(** [close_outcome] is what the other threads answer during a close. *)
Class ClosableExecutor (X O : Type) := {
  exec_close : O → X → X * result unit MeowError;
  is_close_complete : X → bool;
  close_ok_complete : ∀ o x x' u, exec_close o x = (x', Ok u) → is_close_complete x' = true;
  close_keeps_complete : ∀ o x, is_close_complete x = true → is_close_complete (exec_close o x).1 = true;
}.

(** An executor whose close fails is not torn down. *)
Class StrictClose (X O : Type) `{!ClosableExecutor X O} :=
  close_err_incomplete : ∀ o x x' e, is_close_complete x = false → exec_close o x = (x', Err e) → is_close_complete x' = false.

(** [Executor::close]: the flag [close_invoked], from what sending the command, the scheduler's
    answer and joining its thread give. *)
Record CloseOutcome (A : Type) := mkCloseOutcome {
  co_sent : result unit string;
  co_response : result A string;
  co_join : result unit MeowError;
}.
Arguments mkCloseOutcome {A} _ _ _.
Arguments co_sent {A} _.
Arguments co_response {A} _.
Arguments co_join {A} _.

Definition executor_close (o : CloseOutcome (result unit MeowError)) (close_invoked : bool) : bool * result unit MeowError :=
  match co_sent o with
  | Err e => (close_invoked, Err (from_code CommandSendFailed ("close_failed: " +:+ e)))
  | Ok _ =>
      match co_response o with
      | Err e => (close_invoked, Err (from_code CommandResponseFailed ("close response failed: " +:+ e)))
      | Ok (Err e) => (close_invoked, Err e)
      | Ok (Ok _) => match co_join o with Ok _ => (true, Ok tt) | Err e => (close_invoked, Err e) end
      end
  end.

#[export] Instance executor_closable : ClosableExecutor bool (CloseOutcome (result unit MeowError)).
Proof.
  refine {| exec_close := executor_close; is_close_complete := id |}.
  - intros o x x' u. unfold executor_close. repeat case_match; intros ?; by simplify_eq.
  - intros o x. unfold executor_close. by repeat case_match.
Defined.
#[export] Instance executor_strict : StrictClose bool (CloseOutcome (result unit MeowError)).
Proof. intros o x x' e Hx. cbn. unfold executor_close. repeat case_match; intros ?; by simplify_eq. Qed.

(** [BinaryExecutor::close] *)
Definition binary_executor_close (o : CloseOutcome CloseResponse) (st : CloseState) : CloseState * result unit MeowError :=
  match close_enter st with
  | (st, Some r) => (st, r)
  | (_, None) => close_exit (co_sent o) (co_response o) (co_join o)
  end.

#[export] Instance binary_closable : ClosableExecutor CloseState (CloseOutcome CloseResponse).
Proof.
  refine {| exec_close := binary_executor_close;
            is_close_complete st := match st with CLOSE_COMPLETE => true | _ => false end |}.
  - intros o st st' u. unfold binary_executor_close, close_exit. destruct st; cbn; repeat case_match; intros ?; by simplify_eq.
  - intros o []; try done.
Defined.

(** ** The client *)

Inductive BinaryLifecycle :=
| LOpen
| LClosing
| LClosed
| LCloseFailed (pounce_closed binary_closed : bool).

Definition client_closed_error : MeowError := from_code_str ClientClosed "meow client is already closed".

(** A call of [close] that has begun. *)
Inductive CloseThread :=
(** the notification is enabled, at this many notifications *)
| CtRegistered (seen : nat)
| CtWaiting (seen : nat)
(** only the transfer executor exists *)
| CtPlain
| CtPlainDone (r : result unit MeowError)
(** the supervisor: its progress and the two results *)
| CtMixed (pounce_closed binary_closed : bool) (pr br : option (result unit MeowError))
(** the outcome is published but nobody was notified yet *)
| CtPublished (r : result unit MeowError)
| CtReturned (r : result unit MeowError)
| CtDropped.

(** The calls the executors receive, in order. *)
Inductive ClientCall := CallEnqueue | CallControl | CallClose (complete : bool) | CallBinaryEnqueue | CallBinaryClose (complete : bool).

(** The executor a control call goes to. *)
Inductive ControlTarget := ToPounce | ToBinary.

Section Client.
Context {P PO B BO : Type} `{PX : !ClosableExecutor P PO} `{BX : !ClosableExecutor B BO}.

Record ClientState := mkClient {
  c_lifecycle : BinaryLifecycle;
  c_closed : bool;
  c_pounce : option P;
  c_binary : option B;
  (** how often the waiters were notified *)
  c_notified : nat;
  c_threads : gmap nat CloseThread;
  c_log : list ClientCall;
  (** a close of the transfer executor alone was dropped while it ran *)
  c_abandoned : bool;
  (** control calls that released the lock and did not reach their executor yet *)
  c_controls : gmap nat ControlTarget;
}.

Definition client_new : ClientState := mkClient LOpen false None None 0 ∅ [] false ∅.

Definition ensure_open (s : ClientState) : result unit MeowError := if c_closed s then Err client_closed_error else Ok tt.

Definition lock_open_lifecycle (s : ClientState) : result unit MeowError :=
  match c_lifecycle s with
  | LOpen => if c_closed s then Err client_closed_error else Ok tt
  | _ => Err client_closed_error
  end.

Definition set_executors (pounce : option P) (binary : option B) (log : list ClientCall) (s : ClientState) : ClientState :=
  mkClient (c_lifecycle s) (c_closed s) pounce binary (c_notified s) (c_threads s) log (c_abandoned s) (c_controls s).

(** [get_exec_locked]; [created] is the outcome of [Executor::new]. *)
Definition get_exec_locked (created : result P MeowError) (s : ClientState) : ClientState * result P MeowError :=
  match c_pounce s with
  | Some x => (s, Ok x)
  | None =>
      match created with
      | Err e => (s, Err e)
      | Ok x => (set_executors (Some x) (c_binary s) (c_log s) s, Ok x)
      end
  end.

Definition get_binary_exec_locked (created : result B MeowError) (s : ClientState) : ClientState * result B MeowError :=
  match c_binary s with
  | Some x => (s, Ok x)
  | None =>
      match created with
      | Err e => (s, Err e)
      | Ok x => (set_executors (c_pounce s) (Some x) (c_log s) s, Ok x)
      end
  end.

Definition log_call (c : ClientCall) (s : ClientState) : ClientState :=
  set_executors (c_pounce s) (c_binary s) (c_log s ++ [c]) s.

(** [try_enqueue] and [try_enqueue_paused] from the lock on. *)
Definition admit_task (created : result P MeowError) (answer : result nat MeowError) (s : ClientState)
    : ClientState * result nat MeowError :=
  match lock_open_lifecycle s with
  | Err e => (s, Err e)
  | Ok _ =>
      match get_exec_locked created s with
      | (s, Err e) => (s, Err e)
      | (s, Ok _) => (log_call CallEnqueue s, answer)
      end
  end.

(** [pause], [resume], [cancel] and [snapshot] under the lock: [in_binary] says whether the task is
    one of the binary executor's, which knows only [cancel]. The executor is called after the lock
    was released. *)
Inductive ControlOp := OpPause | OpResume | OpCancel | OpSnapshot.
Definition control_task (op : ControlOp) (in_binary : result bool MeowError) (created : result P MeowError)
    (s : ClientState) : ClientState * result ControlTarget MeowError :=
  match lock_open_lifecycle s with
  | Err e => (s, Err e)
  | Ok _ =>
      match (match op, c_binary s with OpSnapshot, _ => Ok false | _, Some _ => in_binary | _, None => Ok false end) with
      | Err e => (s, Err e)
      | Ok true =>
          match op with
          | OpPause => (s, Err (from_code_str InvalidTaskState "binary tasks do not support pause"))
          | OpResume => (s, Err (from_code_str InvalidTaskState "binary tasks do not support resume"))
          | _ => (s, Ok ToBinary)
          end
      | Ok false =>
          match get_exec_locked created s with
          | (s, Err e) => (s, Err e)
          | (s, Ok _) => (s, Ok ToPounce)
          end
      end
  end.
Definition set_controls (controls : gmap nat ControlTarget) (s : ClientState) : ClientState :=
  mkClient (c_lifecycle s) (c_closed s) (c_pounce s) (c_binary s) (c_notified s) (c_threads s) (c_log s) (c_abandoned s) controls.
(** The call that was waiting reaches its executor. *)
Definition control_call (cid : nat) (s : ClientState) : ClientState :=
  log_call CallControl (set_controls (delete cid (c_controls s)) s).

(** [try_enqueue_binary_task]; [valid] is the outcome of the task's validation. *)
Definition admit_binary_task (valid : result unit MeowError) (created : result B MeowError) (answer : result nat MeowError)
    (s : ClientState) : ClientState * result nat MeowError :=
  match lock_open_lifecycle s with
  | Err e => (s, Err e)
  | Ok _ =>
      match valid with
      | Err e => (s, Err e)
      | Ok _ =>
          match get_binary_exec_locked created s with
          | (s, Err e) => (s, Err e)
          | (s, Ok _) => (log_call CallBinaryEnqueue s, answer)
          end
      end
  end.

(** The whole calls: the first check reads the state [before] the task is prepared or the lock taken. *)
Definition client_try_enqueue (before : ClientState) (is_empty : bool) (prepared : result unit MeowError)
    (created : result P MeowError) (answer : result nat MeowError) (s : ClientState) : ClientState * result nat MeowError :=
  match ensure_open before with
  | Err e => (s, Err e)
  | Ok _ =>
      if is_empty then (s, Err (from_code1 ParameterEmpty))
      else match prepared with Err e => (s, Err e) | Ok _ => admit_task created answer s end
  end.
Definition client_control (cid : nat) (before : ClientState) (op : ControlOp) (in_binary : result bool MeowError)
    (created : result P MeowError) (s : ClientState) : ClientState * result unit MeowError :=
  match ensure_open before with
  | Err e => (s, Err e)
  | Ok _ =>
      match control_task op in_binary created s with
      | (s, Err e) => (s, Err e)
      | (s, Ok target) => (set_controls (<[cid := target]> (c_controls s)) s, Ok tt)
      end
  end.

(** ** Close *)

Inductive ClosePlan := PlanWait | PlanReject | PlanRun (pounce_closed binary_closed mixed : bool).

(** The decision under the lock. *)
Definition close_plan (s : ClientState) : ClosePlan :=
  match c_lifecycle s with
  | LClosing => PlanWait
  | LClosed => PlanReject
  | LCloseFailed pounce_closed binary_closed => PlanRun pounce_closed binary_closed true
  | LOpen => if c_closed s then PlanReject else PlanRun false false (bool_decide (is_Some (c_binary s)))
  end.

Definition set_thread (tid : nat) (ct : CloseThread) (s : ClientState) : ClientState :=
  mkClient (c_lifecycle s) (c_closed s) (c_pounce s) (c_binary s) (c_notified s) (<[tid := ct]> (c_threads s)) (c_log s) (c_abandoned s) (c_controls s).
Definition set_lifecycle (l : BinaryLifecycle) (closed : bool) (s : ClientState) : ClientState :=
  mkClient l closed (c_pounce s) (c_binary s) (c_notified s) (c_threads s) (c_log s) (c_abandoned s) (c_controls s).

Definition close_decide (tid seen : nat) (s : ClientState) : ClientState :=
  match close_plan s with
  | PlanWait => set_thread tid (CtWaiting seen) s
  | PlanReject => set_thread tid (CtReturned (Err client_closed_error)) s
  | PlanRun pounce_closed binary_closed mixed =>
      set_thread tid (if mixed then CtMixed pounce_closed binary_closed None None else CtPlain) (set_lifecycle LClosing true s)
  end.

(** The transfer executor's close: alone, and as one half of the supervisor's. *)
Definition close_pounce (o : PO) (s : ClientState) : ClientState * result unit MeowError :=
  match c_pounce s with
  | None => (s, Ok tt)
  | Some x =>
      let '(x', r) := exec_close o x in
      (set_executors (Some x') (c_binary s) (c_log s ++ [CallClose (is_close_complete x)]) s, r)
  end.
Definition close_binary (o : BO) (s : ClientState) : ClientState * result unit MeowError :=
  match c_binary s with
  | None => (s, Ok tt)
  | Some x =>
      let '(x', r) := exec_close o x in
      (set_executors (c_pounce s) (Some x') (c_log s ++ [CallBinaryClose (is_close_complete x)]) s, r)
  end.

Definition pounce_complete (s : ClientState) : bool := match c_pounce s with Some x => is_close_complete x | None => true end.
Definition binary_complete (s : ClientState) : bool := match c_binary s with Some x => is_close_complete x | None => true end.

Definition publish_plain (r : result unit MeowError) (s : ClientState) : ClientState :=
  if is_ok r then set_lifecycle LClosed (c_closed s) s else set_lifecycle LOpen false s.

(** [run_mixed_close_attempt], one executor at a time. *)
Definition mixed_pounce (o : PO) (pounce_closed : bool) (s : ClientState) : ClientState * bool * result unit MeowError :=
  if pounce_closed then (s, true, Ok tt)
  else
    let '(s, r) := close_pounce o s in
    (s, is_ok r || pounce_complete s, r).
Definition mixed_binary (o : BO) (binary_closed : bool) (s : ClientState) : ClientState * bool * result unit MeowError :=
  if binary_closed then (s, true, Ok tt)
  else
    let '(s, r) := close_binary o s in
    (s, is_ok r || binary_complete s, r).

Definition mixed_result (pr br : result unit MeowError) : result unit MeowError :=
  match pr, br with
  | Err e, _ => Err e
  | _, Err e => Err e
  | Ok _, Ok _ => Ok tt
  end.

(** [publish_mixed_close_result] *)
Definition publish_mixed (pounce_closed binary_closed : bool) (s : ClientState) : ClientState :=
  set_lifecycle (if pounce_closed && binary_closed then LClosed else LCloseFailed pounce_closed binary_closed) (c_closed s) s.

(** [reconcile_close_progress], then the publication. *)
Definition finish_mixed (pounce_closed binary_closed : bool) (s : ClientState) : ClientState :=
  publish_mixed (pounce_closed || pounce_complete s) (binary_closed || binary_complete s) s.

Definition notify_waiters (s : ClientState) : ClientState :=
  mkClient (c_lifecycle s) (c_closed s) (c_pounce s) (c_binary s) (S (c_notified s)) (c_threads s) (c_log s) (c_abandoned s) (c_controls s).

Inductive client_step : ClientState → ClientState → Prop :=
(** work *)
| cs_admit s before is_empty prepared created answer :
    (∀ x, created = Ok x → is_close_complete x = false) →
    client_step s (client_try_enqueue before is_empty prepared created answer s).1
| cs_control s cid before op in_binary created :
    (∀ x, created = Ok x → is_close_complete x = false) → c_controls s !! cid = None →
    client_step s (client_control cid before op in_binary created s).1
| cs_control_call s cid : is_Some (c_controls s !! cid) → client_step s (control_call cid s)
| cs_admit_binary s valid created answer :
    (∀ x, created = Ok x → is_close_complete x = false) → client_step s (admit_binary_task valid created answer s).1
(** close: entered, on a callback thread or not, decided, waited for or dropped *)
| cs_enter s tid on_callback :
    c_threads s !! tid = None →
    client_step s (set_thread tid
      (if on_callback : bool then
         CtReturned (Err (from_code_str InvalidTaskState
           "close cannot be awaited from a transfer callback; schedule it after the callback returns"))
       else CtRegistered (c_notified s)) s)
| cs_decide s tid seen : c_threads s !! tid = Some (CtRegistered seen) → client_step s (close_decide tid seen s)
| cs_woken s tid seen :
    c_threads s !! tid = Some (CtWaiting seen) → (seen < c_notified s)%nat →
    client_step s (set_thread tid (CtReturned (Err client_closed_error)) s)
| cs_drop_waiting s tid seen :
    c_threads s !! tid = Some (CtWaiting seen) → client_step s (set_thread tid CtDropped s)
(** only the transfer executor *)
| cs_plain s tid o : c_threads s !! tid = Some CtPlain → client_step s (set_thread tid (CtPlainDone (close_pounce o s).2) (close_pounce o s).1)
| cs_plain_publish s tid r :
    c_threads s !! tid = Some (CtPlainDone r) → client_step s (set_thread tid (CtPublished r) (publish_plain r s))
| cs_drop_plain s tid :
    c_threads s !! tid = Some CtPlain →
    client_step s (mkClient (c_lifecycle s) (c_closed s) (c_pounce s) (c_binary s) (c_notified s)
      (<[tid := CtDropped]> (c_threads s)) (c_log s) true (c_controls s))
(** both, on the supervisor's thread, which outlives the caller *)
| cs_mixed_pounce s tid pc bc br o s' pc' r :
    c_threads s !! tid = Some (CtMixed pc bc None br) → mixed_pounce o pc s = (s', pc', r) →
    client_step s (set_thread tid (CtMixed pc' bc (Some r) br) s')
| cs_mixed_binary s tid pc bc pr o s' bc' r :
    c_threads s !! tid = Some (CtMixed pc bc pr None) → mixed_binary o bc s = (s', bc', r) →
    client_step s (set_thread tid (CtMixed pc bc' pr (Some r)) s')
| cs_mixed_finish s tid pc bc pr br :
    c_threads s !! tid = Some (CtMixed pc bc (Some pr) (Some br)) →
    client_step s (set_thread tid (CtPublished (mixed_result pr br)) (finish_mixed pc bc s))
(** the supervisor's runtime cannot be built, or its attempt panics *)
| cs_mixed_fail s tid pc bc pr br e :
    c_threads s !! tid = Some (CtMixed pc bc pr br) →
    client_step s (set_thread tid (CtPublished (Err e)) (finish_mixed pc bc s))
(** its thread cannot be spawned *)
| cs_mixed_spawn s tid pc bc e :
    c_threads s !! tid = Some (CtMixed pc bc None None) →
    client_step s (set_thread tid (CtPublished (Err e)) (publish_mixed pc bc s))
| cs_notify s tid r :
    c_threads s !! tid = Some (CtPublished r) → client_step s (set_thread tid (CtReturned r) (notify_waiters s)).

End Client.
#[global] Arguments ClientState : clear implicits.
