(* ===== verification/ClientProps.v ===== *)
(** * What the client facade promises

    Properties of every reachable state of [Client.client_step]: a close that succeeded is final
    and left both executors torn down, no executor is torn down twice, no in-memory download is
    admitted once its executor was told to close, and every concurrent close returns. *)
From S2P Require Import Prelude Errors HttpHeaders DownloadIdentity RangeDownload DownloadPrepare BinaryDownload BinaryExec Client.

Section Props.
Context {P PO B BO : Type} `{PX : !ClosableExecutor P PO} `{BX : !ClosableExecutor B BO} `{!StrictClose P PO}.
Implicit Types s : ClientState P B.

(** ** The invariant *)

Definition closer (ct : CloseThread) : bool :=
  match ct with CtPlain | CtPlainDone _ | CtMixed _ _ _ _ => true | _ => false end.
Definition will_notify (ct : CloseThread) : bool := closer ct || match ct with CtPublished _ => true | _ => false end.

Definition pounce_open s : Prop := ∀ x, c_pounce s = Some x → is_close_complete x = false.
Definition binary_open s : Prop := ∀ x, c_binary s = Some x → is_close_complete x = false.
Definition is_binary_close (c : ClientCall) : bool := match c with CallBinaryClose _ => true | _ => false end.
Definition no_binary_close s : Prop := Forall (λ c, is_binary_close c = false) (c_log s).

(** Somebody will notify the waiters, unless a close was abandoned. *)
Definition pending_notify s : Prop :=
  c_abandoned s = true ∨ ∃ t ct, c_threads s !! t = Some ct ∧ will_notify ct = true.

Definition thread_ok s (ct : CloseThread) : Prop :=
  match ct with
  | CtRegistered seen => (seen ≤ c_notified s)%nat
  | CtWaiting seen => (seen < c_notified s)%nat ∨ (seen = c_notified s ∧ pending_notify s)
  | CtPublished r | CtReturned r => is_ok r = true → c_lifecycle s = LClosed
  | CtDropped => True
  | CtPlain => c_lifecycle s = LClosing ∧ c_abandoned s = false ∧ c_binary s = None ∧ pounce_open s ∧ no_binary_close s
  | CtPlainDone r =>
      c_lifecycle s = LClosing ∧ c_abandoned s = false ∧ c_binary s = None ∧ no_binary_close s
      ∧ if is_ok r then pounce_complete s = true else pounce_open s
  | CtMixed pc bc pr br =>
      c_lifecycle s = LClosing ∧ c_abandoned s = false
      ∧ (if pc then pounce_complete s = true else pounce_open s) ∧ (if bc then binary_complete s = true else binary_open s)
      ∧ (∀ r, pr = Some r → is_ok r = true → pc = true) ∧ (∀ r, br = Some r → is_ok r = true → bc = true)
  end.

Definition life_ok s : Prop :=
  match c_lifecycle s with
  | LOpen => c_closed s = false ∧ c_abandoned s = false ∧ pounce_open s ∧ binary_open s ∧ no_binary_close s
  | LClosing => c_closed s = true ∧ (c_abandoned s = true ∨ ∃ t ct, c_threads s !! t = Some ct ∧ closer ct = true)
  | LClosed => c_closed s = true ∧ c_abandoned s = false ∧ pounce_complete s = true ∧ binary_complete s = true
  | LCloseFailed pc bc =>
      c_closed s = true ∧ c_abandoned s = false
      ∧ (if pc then pounce_complete s = true else pounce_open s) ∧ (if bc then binary_complete s = true else binary_open s)
  end.

Definition call_fresh (c : ClientCall) : Prop :=
  match c with CallClose complete | CallBinaryClose complete => complete = false | _ => True end.
(** No in-memory download is handed over behind a close. *)
Fixpoint binary_ordered (log : list ClientCall) : Prop :=
  match log with
  | [] => True
  | CallBinaryClose _ :: log => CallBinaryEnqueue ∉ log ∧ binary_ordered log
  | _ :: log => binary_ordered log
  end.
Definition log_ok s : Prop := Forall call_fresh (c_log s) ∧ binary_ordered (c_log s).

Definition client_inv s : Prop :=
  life_ok s ∧ log_ok s ∧ (∀ t ct, c_threads s !! t = Some ct → thread_ok s ct)
  ∧ ∀ t t' ct ct', c_threads s !! t = Some ct → c_threads s !! t' = Some ct' → closer ct = true → closer ct' = true → t = t'.

Lemma client_new_inv : client_inv client_new.
Proof.
  split; [|split; [|split]].
  - split; [done|]. split; [done|]. split; [by intros x|]. split; [by intros x|]. apply Forall_nil_2.
  - split; [apply Forall_nil_2|done].
  - intros t ct. cbn. by rewrite lookup_empty.
  - intros t t' ct ct'. cbn. by rewrite lookup_empty.
Qed.

(** ** Logs *)

Lemma binary_ordered_app log c :
  binary_ordered log → (c = CallBinaryEnqueue → Forall (λ c, is_binary_close c = false) log) → binary_ordered (log ++ [c]).
Proof.
  induction log as [|d log IH]; [intros; destruct c; simpl; set_solver|]. intros Ho Hc.
  assert (binary_ordered log → binary_ordered (log ++ [c])) as IH'.
  { intros Ho'. apply IH; [done|]. intros E. by apply Hc, Forall_cons in E as [_ ?]. }
  destruct d; try (by apply IH'). destruct Ho as [Hn Ho]. split; [|by apply IH'].
  intros [?|E%list_elem_of_singleton]%elem_of_app; [done|]. symmetry in E. by apply Hc, Forall_cons in E as [? _].
Qed.

Lemma log_ok_app s s' c :
  c_log s' = c_log s ++ [c] → call_fresh c → (c = CallBinaryEnqueue → no_binary_close s) → log_ok s → log_ok s'.
Proof.
  intros E Hf Hc [H1 H2]. unfold log_ok. rewrite E. split; [by apply Forall_app; split; [|apply Forall_singleton]|].
  by apply binary_ordered_app.
Qed.

(** ** One thread moves *)

Lemma quiet_ok_mono s s' ct :
  closer ct = false → thread_ok s ct → (c_notified s ≤ c_notified s')%nat →
  (c_lifecycle s = LClosed → c_lifecycle s' = LClosed) →
  (pending_notify s → pending_notify s' ∨ (c_notified s < c_notified s')%nat) → thread_ok s' ct.
Proof.
  intros Hq H Hn Hl Hp. destruct ct; try done; cbn in *; try (by intros ?; auto).
  - lia.
  - destruct H as [?|[-> H]]; [left; lia|]. destruct (Hp H) as [?|?]; [|by left].
    destruct (decide (c_notified s = c_notified s')) as [E|]; [right; by rewrite <- E|left; lia].
Qed.

Lemma closer_ok_ext s s' ct :
  closer ct = true → thread_ok s ct → c_lifecycle s' = c_lifecycle s → c_abandoned s' = c_abandoned s →
  c_pounce s' = c_pounce s → c_binary s' = c_binary s → c_log s' = c_log s → thread_ok s' ct.
Proof.
  intros Hq H Hl Ha Hp Hb Hg. destruct ct; try done; cbn in *;
    unfold pounce_open, binary_open, no_binary_close, pounce_complete, binary_complete in *; by rewrite Hl, Ha, ?Hp, Hb, ?Hg.
Qed.

Lemma pending_insert s s' tid ct' :
  c_threads s' = <[tid := ct']> (c_threads s) → c_abandoned s' = c_abandoned s →
  (∀ ct, c_threads s !! tid = Some ct → will_notify ct = true → will_notify ct' = true) → pending_notify s → pending_notify s'.
Proof.
  intros Hth Ha Hw [?|(t & ct0 & Ht & Hwn)]; [left; congruence|]. right. rewrite Hth.
  destruct (decide (t = tid)) as [->|Hne]; [exists tid, ct'; rewrite lookup_insert_eq; naive_solver|].
  exists t, ct0. by rewrite lookup_insert_ne.
Qed.

(** A thread that is not a closer moves on and stays none. *)
Lemma quiet_move s s' tid ct' :
  client_inv s → (∀ ct, c_threads s !! tid = Some ct → closer ct = false) → closer ct' = false →
  c_threads s' = <[tid := ct']> (c_threads s) → c_lifecycle s' = c_lifecycle s → c_closed s' = c_closed s →
  c_abandoned s' = c_abandoned s → c_pounce s' = c_pounce s → c_binary s' = c_binary s → c_log s' = c_log s →
  (c_notified s ≤ c_notified s')%nat →
  (∀ ct, c_threads s !! tid = Some ct → will_notify ct = true → (c_notified s < c_notified s')%nat) → thread_ok s' ct' →
  client_inv s'.
Proof.
  intros (Hl & Hg & Ht & Hu) Hq Hq' Hth El Ec Ea Ep Eb Eg Hn Hw Hok. split; [|split; [|split]].
  - unfold life_ok, pounce_open, binary_open, no_binary_close, pounce_complete, binary_complete in *.
    rewrite El, Ec, Ea, Ep, Eb, Eg. destruct (c_lifecycle s); try done. destruct Hl as [? [?|(t & c & Hc & Hcl)]]; [auto|].
    split; [done|]. right. exists t, c. rewrite Hth, lookup_insert_ne; [done|]. intros ->. by rewrite (Hq c) in Hcl.
  - unfold log_ok in *. by rewrite Eg.
  - intros t c. rewrite Hth, lookup_insert_Some. intros [[<- <-]|[Hne Hc]]; [done|].
    destruct (closer c) eqn:Hcl; [by eapply closer_ok_ext; eauto|].
    apply (quiet_ok_mono s); [done|by apply (Ht t)|done|congruence|]. intros Hpe.
    destruct (decide (c_notified s < c_notified s')%nat) as [|Hnl]; [by right|left].
    apply (pending_insert s s' tid ct'); [done..| |done]. intros ct Hct Hwn. by destruct Hnl; apply (Hw ct).
  - intros t t' c c'. rewrite Hth, !lookup_insert_Some. intros [[<- <-]|[_ ?]] [[<- <-]|[_ ?]]; try congruence. eauto.
Qed.

(** The closer moves: the others are none, so that only the state itself matters. *)
Lemma closer_move s s' tid ct ct' :
  client_inv s → c_threads s !! tid = Some ct →
  (∀ t c, c_threads s !! t = Some c → closer c = true → t = tid) →
  c_threads s' = <[tid := ct']> (c_threads s) → c_notified s' = c_notified s →
  (c_lifecycle s = LClosed → c_lifecycle s' = LClosed) → (pending_notify s → pending_notify s') →
  life_ok s' → log_ok s' → thread_ok s' ct' → client_inv s'.
Proof.
  intros (Hl & Hg & Ht & Hu) Hct Hone Hth En Hcl Hp Hl' Hg' Hok. split; [done|]. split; [done|]. split.
  - intros t c. rewrite Hth, lookup_insert_Some. intros [[<- <-]|[Hne Hc]]; [done|].
    destruct (closer c) eqn:Hclo; [by destruct Hne; symmetry; eapply Hone|].
    apply (quiet_ok_mono s); [done|by apply (Ht t)|lia|done|auto].
  - intros t t' c c'. rewrite Hth, !lookup_insert_Some.
    intros [[<- <-]|[Hne ?]] [[<- <-]|[Hne' ?]] H1 H2; [done|destruct Hne'; symmetry; eauto|destruct Hne; symmetry; eauto|eauto].
Qed.

Lemma closer_closing s ct : closer ct = true → thread_ok s ct → c_lifecycle s = LClosing ∧ c_abandoned s = false.
Proof. destruct ct; try done; cbn; tauto. Qed.

(** ** Work *)

Definition is_work (c : ClientCall) : Prop := match c with CallClose _ | CallBinaryClose _ => False | _ => True end.

(** What admitting work changes. *)
Record worked s s' : Prop := mkWorked {
  wk_life : c_lifecycle s' = c_lifecycle s;
  wk_closed : c_closed s' = c_closed s;
  wk_abandoned : c_abandoned s' = c_abandoned s;
  wk_notified : c_notified s' = c_notified s;
  wk_threads : c_threads s' = c_threads s;
  wk_pounce : pounce_open s → pounce_open s';
  wk_binary : binary_open s → binary_open s';
  wk_log : c_log s' = c_log s ∨ ∃ c, c_log s' = c_log s ++ [c] ∧ is_work c;
}.

Lemma worked_refl s : worked s s.
Proof. constructor; auto. Qed.
Lemma get_exec_worked created s :
  (∀ x, created = Ok x → is_close_complete x = false) →
  worked s (get_exec_locked created s).1 ∧ c_log (get_exec_locked created s).1 = c_log s.
Proof.
  intros Hc. unfold get_exec_locked. destruct (c_pounce s) eqn:Hp; [by split; [apply worked_refl|]|].
  destruct created as [x|]; [|by split; [apply worked_refl|]]. split; [|done]. constructor; cbn; auto. intros _ y [= <-]. by apply Hc.
Qed.
Lemma get_binary_worked created s :
  (∀ x, created = Ok x → is_close_complete x = false) →
  worked s (get_binary_exec_locked created s).1 ∧ c_log (get_binary_exec_locked created s).1 = c_log s.
Proof.
  intros Hc. unfold get_binary_exec_locked. destruct (c_binary s) eqn:Hp; [by split; [apply worked_refl|]|].
  destruct created as [x|]; [|by split; [apply worked_refl|]]. split; [|done]. constructor; cbn; auto. intros _ y [= <-]. by apply Hc.
Qed.
Lemma log_call_worked s s1 c : worked s s1 → c_log s1 = c_log s → is_work c → worked s (log_call c s1).
Proof. intros [] E Hw. constructor; cbn; auto. right. exists c. by rewrite E. Qed.

Lemma admit_worked created answer s :
  (∀ x, created = Ok x → is_close_complete x = false) →
  (admit_task created answer s).1 = s ∨ (c_lifecycle s = LOpen ∧ worked s (admit_task created answer s).1).
Proof.
  intros Hc. unfold admit_task, lock_open_lifecycle. destruct (c_lifecycle s); [|by left..]. destruct (c_closed s); [by left|].
  right. split; [done|]. destruct (get_exec_worked created s Hc) as [Hw Hg].
  destruct (get_exec_locked created s) as [s1 []]; [by apply log_call_worked|exact Hw].
Qed.
Lemma control_worked op in_binary created s :
  (∀ x, created = Ok x → is_close_complete x = false) →
  c_lifecycle s = LOpen ∧ worked s (control_task op in_binary created s).1
  ∨ (control_task op in_binary created s).1 = s ∧ ∃ e, (control_task op in_binary created s).2 = Err e.
Proof.
  intros Hc. unfold control_task, lock_open_lifecycle. destruct (c_lifecycle s); [|by right; split; [|eexists]..].
  destruct (c_closed s); [by right; split; [|eexists]|].
  left. split; [done|]. destruct (match op with OpSnapshot => _ | _ => _ end) as [[]|]; [| |apply worked_refl].
  - pose proof (worked_refl s). by destruct op.
  - destruct (get_exec_worked created s Hc) as [Hw Hg]. by destruct (get_exec_locked created s) as [s1 []].
Qed.
Lemma admit_binary_worked valid created answer s :
  (∀ x, created = Ok x → is_close_complete x = false) →
  (admit_binary_task valid created answer s).1 = s
  ∨ (c_lifecycle s = LOpen ∧ worked s (admit_binary_task valid created answer s).1).
Proof.
  intros Hc. unfold admit_binary_task, lock_open_lifecycle. destruct (c_lifecycle s); [|by left..]. destruct (c_closed s); [by left|].
  right. split; [done|]. destruct valid; [|apply worked_refl]. destruct (get_binary_worked created s Hc) as [Hw Hg].
  destruct (get_binary_exec_locked created s) as [s1 []]; [by apply log_call_worked|exact Hw].
Qed.

Lemma enqueue_worked before is_empty prepared created answer s :
  (∀ x, created = Ok x → is_close_complete x = false) →
  (client_try_enqueue before is_empty prepared created answer s).1 = s
  ∨ (c_lifecycle s = LOpen ∧ worked s (client_try_enqueue before is_empty prepared created answer s).1).
Proof.
  intros Hc. unfold client_try_enqueue. destruct (ensure_open before); [|by left]. destruct is_empty; [by left|].
  destruct prepared; [by apply admit_worked|by left].
Qed.
Lemma set_controls_worked s s1 controls : worked s s1 → worked s (set_controls controls s1).
Proof. by intros []. Qed.
Lemma client_control_worked cid before op in_binary created s :
  (∀ x, created = Ok x → is_close_complete x = false) →
  (client_control cid before op in_binary created s).1 = s
  ∨ (c_lifecycle s = LOpen ∧ worked s (client_control cid before op in_binary created s).1).
Proof.
  intros Hc. unfold client_control. destruct (ensure_open before); [|by left].
  destruct (control_worked op in_binary created s Hc) as [[Ho Hw]|[E [e Ee]]]; destruct (control_task op in_binary created s) as [s1 r]; cbn in *.
  - right. split; [done|]. destruct r; [by apply set_controls_worked|done].
  - subst s1 r. by left.
Qed.

(** A control call that waited reaches its executor: only the log has it. *)
Lemma no_binary_close_control cid s : no_binary_close s → no_binary_close (control_call cid s).
Proof. unfold no_binary_close. cbn. intros H. apply Forall_app. split; [done|]. by apply Forall_singleton. Qed.
Lemma control_call_inv cid s : client_inv s → client_inv (control_call cid s).
Proof.
  intros (Hl & Hg & Ht & Hu). split; [|split; [|split; [|exact Hu]]].
  - unfold life_ok in *. cbn. destruct (c_lifecycle s); try done.
    destruct Hl as (? & ? & ? & ? & ?). split_and!; try done. by apply no_binary_close_control.
  - by apply (log_ok_app s _ CallControl).
  - intros t ct Hct. pose proof (Ht t ct Hct) as Hok. destruct ct; try done; cbn in *.
    + destruct Hok as (? & ? & ? & ? & ?). split_and!; try done. by apply no_binary_close_control.
    + destruct Hok as (? & ? & ? & ? & ?). split_and!; try done. by apply no_binary_close_control.
Qed.

Lemma worked_inv s s' : client_inv s → s' = s ∨ (c_lifecycle s = LOpen ∧ worked s s') → client_inv s'.
Proof.
  intros Hinv [->|[Ho [El Ec Ea En Eth Hp Hb Hlog]]]; [done|]. destruct Hinv as (Hl & Hg & Ht & Hu).
  unfold life_ok in Hl. rewrite Ho in Hl. destruct Hl as (Hc & Ha & Hpo & Hbo & Hn).
  split; [|split; [|split]].
  - unfold life_ok. rewrite El, Ho, Ec, Ea. split; [done|]. split; [done|]. split; [auto|]. split; [auto|].
    unfold no_binary_close in *. destruct Hlog as [->|(c & -> & Hw)]; [done|]. apply Forall_app. split; [done|].
    apply Forall_singleton. by destruct c.
  - destruct Hlog as [E|(c & E & Hw)]; [unfold log_ok in *; by rewrite E|]. apply (log_ok_app s s' c); auto. by destruct c.
  - intros t c Hc'. rewrite Eth in Hc'. destruct (closer c) eqn:Hcl.
    { destruct (closer_closing s c Hcl (Ht t c Hc')). congruence. }
    apply (quiet_ok_mono s); [done|by apply (Ht t)|lia|congruence|]. unfold pending_notify. rewrite Ea, Eth. auto.
  - intros t t' c c'. rewrite Eth. apply Hu.
Qed.

(** ** Close *)

Ltac quiet s tid ct := eapply (quiet_move s _ tid ct); cbn; try done; try (intros ?; congruence); try lia.

Lemma decide_inv tid seen s : client_inv s → c_threads s !! tid = Some (CtRegistered seen) → client_inv (close_decide tid seen s).
Proof.
  intros Hinv Hct. pose proof Hinv as (Hl & Hg & Ht & Hu). pose proof (Ht tid _ Hct) as Hseen. cbn in Hseen.
  assert (c_lifecycle s ≠ LClosing → ∀ t c, c_threads s !! t = Some c → closer c = true → t = tid) as Hnone.
  { intros Hne t c Hc Hcl. by destruct (closer_closing s c Hcl (Ht t c Hc)). }
  unfold close_decide, close_plan. unfold life_ok in Hl. destruct (c_lifecycle s) eqn:El.
  - destruct Hl as (Hc & Ha & Hpo & Hbo & Hn). rewrite Hc. case_bool_decide as Hb.
    + apply (closer_move s _ tid (CtRegistered seen) (CtMixed false false None None)); try done; cbn.
      * by apply Hnone.
      * by rewrite El.
      * apply (pending_insert s _ tid (CtMixed false false None None)); done.
      * split; [done|]. right. exists tid, (CtMixed false false None None). cbn. by rewrite lookup_insert_eq.
    + apply (closer_move s _ tid (CtRegistered seen) CtPlain); try done; cbn.
      * by apply Hnone.
      * by rewrite El.
      * apply (pending_insert s _ tid CtPlain); done.
      * split; [done|]. right. exists tid, CtPlain. cbn. by rewrite lookup_insert_eq.
      * split_and!; try done. destruct (c_binary s); [by destruct Hb|done].
  - quiet s tid (CtWaiting seen).
    + intros ct Hc. rewrite Hct in Hc. by injection Hc as <-.
    + intros ct Hc. rewrite Hct in Hc. by injection Hc as <-.
    + destruct (decide (seen = c_notified s)) as [E|]; [right|left; lia]. split; [done|].
      destruct Hl as [_ [?|(t & c & Hc & Hcl)]]; [by left|]. right. exists t, c. cbn.
      rewrite lookup_insert_ne; [|intros <-; rewrite Hct in Hc; by injection Hc as <-]. split; [done|]. unfold will_notify. by rewrite Hcl.
  - quiet s tid (CtReturned (Err client_closed_error)); intros ct Hc; rewrite Hct in Hc; by injection Hc as <-.
  - destruct Hl as (Hc & Ha & Hpo & Hbo).
    apply (closer_move s _ tid (CtRegistered seen) (CtMixed pounce_closed binary_closed None None)); try done; cbn.
    + by apply Hnone.
    + by rewrite El.
    + by apply (pending_insert s _ tid (CtMixed pounce_closed binary_closed None None)); try done; intros; unfold will_notify.
    + split; [done|]. right. exists tid, (CtMixed pounce_closed binary_closed None None). cbn. by rewrite lookup_insert_eq.
Qed.

(** The closer is alone. *)
Lemma closer_alone s tid ct :
  client_inv s → c_threads s !! tid = Some ct → closer ct = true → ∀ t c, c_threads s !! t = Some c → closer c = true → t = tid.
Proof. intros (_ & _ & _ & Hu) Hct Hcl t c Hc Hc'. by apply (Hu t tid c ct). Qed.

Lemma close_pounce_spec o s s' r :
  close_pounce o s = (s', r) → pounce_open s →
  c_lifecycle s' = c_lifecycle s ∧ c_closed s' = c_closed s ∧ c_abandoned s' = c_abandoned s ∧ c_notified s' = c_notified s
  ∧ c_threads s' = c_threads s ∧ c_binary s' = c_binary s ∧ (log_ok s → log_ok s') ∧ (no_binary_close s → no_binary_close s')
  ∧ (if is_ok r then pounce_complete s' = true else pounce_open s').
Proof.
  unfold close_pounce. intros H Ho. destruct (c_pounce s) as [x|] eqn:Hp.
  - pose proof (Ho x Hp) as Hx. destruct (exec_close o x) as [x' r'] eqn:Hcl. injection H as <- <-.
    split_and!; try done; cbn.
    + apply (log_ok_app s _ (CallClose (is_close_complete x))); done.
    + unfold no_binary_close. cbn. intros. apply Forall_app. split; [done|]. by apply Forall_singleton.
    + destruct r' as [u|e]; cbn; [by apply (close_ok_complete o x x' u)|]. intros y [= <-].
      by apply (close_err_incomplete o x x' e).
  - injection H as <- <-. split_and!; try done. cbn. unfold pounce_complete. by rewrite Hp.
Qed.

Lemma close_binary_spec o s s' r :
  close_binary o s = (s', r) → binary_open s →
  c_lifecycle s' = c_lifecycle s ∧ c_closed s' = c_closed s ∧ c_abandoned s' = c_abandoned s ∧ c_notified s' = c_notified s
  ∧ c_threads s' = c_threads s ∧ c_pounce s' = c_pounce s ∧ (log_ok s → log_ok s')
  ∧ (is_ok r = true → binary_complete s' = true) ∧ (binary_complete s' = false → binary_open s').
Proof.
  unfold close_binary. intros H Ho. destruct (c_binary s) as [x|] eqn:Hp.
  - pose proof (Ho x Hp) as Hx. destruct (exec_close o x) as [x' r'] eqn:Hcl. injection H as <- <-.
    split_and!; try done; cbn.
    + apply (log_ok_app s _ (CallBinaryClose (is_close_complete x))); done.
    + destruct r' as [u|e]; [|done]. intros _. by apply (close_ok_complete o x x' u).
    + by intros E y [= <-].
  - injection H as <- <-. split_and!; try done. cbn. unfold binary_complete. by rewrite Hp.
Qed.

(** What stays when an executor is closed. *)
Definition same_life s s' : Prop :=
  c_lifecycle s' = c_lifecycle s ∧ c_closed s' = c_closed s ∧ c_abandoned s' = c_abandoned s ∧ c_notified s' = c_notified s
  ∧ c_threads s' = c_threads s.

Lemma same_life_refl s : same_life s s.
Proof. by unfold same_life. Qed.

Lemma mixed_pounce_spec o pc s s' pc' r :
  mixed_pounce o pc s = (s', pc', r) → (if pc then pounce_complete s = true else pounce_open s) → log_ok s →
  same_life s s' ∧ c_binary s' = c_binary s ∧ log_ok s'
  ∧ (if pc' then pounce_complete s' = true else pounce_open s') ∧ (is_ok r = true → pc' = true).
Proof.
  unfold mixed_pounce. destruct pc; [intros [= <- <- <-] ? ?; by split; [apply same_life_refl|]|]. intros H Ho Hg.
  destruct (close_pounce o s) as [s1 r1] eqn:Hc. injection H as <- <- <-.
  destruct (close_pounce_spec o s s1 r1 Hc Ho) as (? & ? & ? & ? & ? & Hb & Hlog & _ & Hr).
  split; [by unfold same_life|]. split; [done|]. split; [auto|]. destruct (is_ok r1); [done|]. split; [|done]. cbn.
  destruct (pounce_complete s1) eqn:E; [done|exact Hr].
Qed.

Lemma mixed_binary_spec o bc s s' bc' r :
  mixed_binary o bc s = (s', bc', r) → (if bc then binary_complete s = true else binary_open s) → log_ok s →
  same_life s s' ∧ c_pounce s' = c_pounce s ∧ log_ok s'
  ∧ (if bc' then binary_complete s' = true else binary_open s') ∧ (is_ok r = true → bc' = true).
Proof.
  unfold mixed_binary. destruct bc; [intros [= <- <- <-] ? ?; by split; [apply same_life_refl|]|]. intros H Ho Hg.
  destruct (close_binary o s) as [s1 r1] eqn:Hc. injection H as <- <- <-.
  destruct (close_binary_spec o s s1 r1 Hc Ho) as (? & ? & ? & ? & ? & Hb & Hlog & Hr & Hr').
  split; [by unfold same_life|]. split; [done|]. split; [auto|]. destruct (is_ok r1); [split; [cbn; auto|done]|]. split; [|done]. cbn.
  destruct (binary_complete s1) eqn:E; [done|by apply Hr'].
Qed.

(** The closer goes on closing. *)
Lemma closing_move s s' tid ct ct' :
  client_inv s → c_threads s !! tid = Some ct → closer ct = true → closer ct' = true → same_life s s' → log_ok s' →
  (c_lifecycle s = LClosing → c_abandoned s = false → thread_ok (set_thread tid ct' s') ct') → client_inv (set_thread tid ct' s').
Proof.
  intros Hinv Hct Hcl Hcl' (El & Ec & Ea & En & Eth) Hg' Hok. pose proof Hinv as (Hl & Hg & Ht & _).
  destruct (closer_closing s ct Hcl (Ht tid ct Hct)) as [Hlc Hab].
  apply (closer_move s _ tid ct ct'); try done; cbn.
  - by apply (closer_alone s tid ct).
  - by rewrite Eth.
  - congruence.
  - apply (pending_insert s _ tid ct'); cbn; [by rewrite Eth|done|]. intros. unfold will_notify. by rewrite Hcl'.
  - unfold life_ok in *. cbn. rewrite El, Hlc in *. split; [rewrite Ec; apply Hl|]. right. exists tid, ct'. by rewrite lookup_insert_eq.
  - by apply Hok.
Qed.

(** The closer publishes. *)
Lemma publish_move s s' tid ct r :
  client_inv s → c_threads s !! tid = Some ct → closer ct = true →
  c_notified s' = c_notified s → c_threads s' = c_threads s → c_abandoned s' = c_abandoned s → c_log s' = c_log s →
  (c_closed s = true → c_abandoned s = false → life_ok (set_thread tid (CtPublished r) s')) →
  (is_ok r = true → c_lifecycle s' = LClosed) → client_inv (set_thread tid (CtPublished r) s').
Proof.
  intros Hinv Hct Hcl En Eth Ea Eg Hl' Hr. pose proof Hinv as (Hl & Hg & Ht & _).
  destruct (closer_closing s ct Hcl (Ht tid ct Hct)) as [Hlc Hab].
  apply (closer_move s _ tid ct (CtPublished r)); try done; cbn.
  - by apply (closer_alone s tid ct).
  - by rewrite Eth.
  - congruence.
  - apply (pending_insert s _ tid (CtPublished r)); cbn; [by rewrite Eth|done|done].
  - apply Hl'; [|done]. unfold life_ok in Hl. rewrite Hlc in Hl. apply Hl.
  - unfold log_ok in *. cbn. by rewrite Eg.
Qed.

Lemma finish_mixed_life s tid ct (pc bc : bool) :
  (if pc then pounce_complete s = true else pounce_open s) → (if bc then binary_complete s = true else binary_open s) →
  c_closed s = true → c_abandoned s = false →
  life_ok (set_thread tid ct (publish_mixed pc bc s)) ∧ life_ok (set_thread tid ct (finish_mixed pc bc s))
  ∧ (pc = true → bc = true → c_lifecycle (finish_mixed pc bc s) = LClosed).
Proof.
  intros Hp Hb Hc Ha. split; [|split].
  - unfold life_ok, publish_mixed. cbn. destruct pc, bc; cbn; by split_and!.
  - unfold life_ok, finish_mixed, publish_mixed. cbn.
    assert (if pc || pounce_complete s then pounce_complete s = true else pounce_open s) as Hp'
      by (destruct pc, (pounce_complete s) eqn:E; done).
    assert (if bc || binary_complete s then binary_complete s = true else binary_open s) as Hb'
      by (destruct bc, (binary_complete s) eqn:E; done).
    destruct (pc || pounce_complete s), (bc || binary_complete s); cbn; by split_and!.
  - by intros -> ->.
Qed.

Lemma client_step_inv s s' : client_inv s → client_step s s' → client_inv s'.
Proof.
  intros Hinv. pose proof Hinv as (Hl & Hg & Ht & Hu).
  destruct 1 as [s before emp prep created answer Hc|s cid before op ib created Hc Hcid|s cid Hcid|s valid created answer Hc|s tid cb Hct|s tid seen Hct|s tid seen Hct Hlt
    |s tid seen Hct|s tid o Hct|s tid r Hct|s tid Hct|s tid pc bc br o s1 pc' r Hct Hm|s tid pc bc pr o s1 bc' r Hct Hm
    |s tid pc bc pr br Hct|s tid pc bc pr br e Hct|s tid pc bc e Hct|s tid r Hct];
    try (pose proof (Ht tid _ Hct) as Hok; cbn in Hok).
  - apply (worked_inv s); [done|]. by apply enqueue_worked.
  - apply (worked_inv s); [done|]. by apply client_control_worked.
  - by apply control_call_inv.
  - apply (worked_inv s); [done|]. by apply admit_binary_worked.
  - eapply (quiet_move s _ tid); cbn; try reflexivity; try done; try (intros ? E; congruence); destruct cb; cbn; done.
  - by apply decide_inv.
  - quiet s tid (CtReturned (Err client_closed_error)); intros ct Hc; rewrite Hct in Hc; by injection Hc as <-.
  - quiet s tid CtDropped; intros ct Hc; rewrite Hct in Hc; by injection Hc as <-.
  - destruct Hok as (_ & _ & Hb & Hp & Hn). destruct (close_pounce o s) as [s1 r] eqn:Hcp. cbn.
    destruct (close_pounce_spec o s s1 r Hcp Hp) as (E1 & E2 & E3 & E4 & E5 & E6 & Hlog & Hnb & Hr).
    apply (closing_move s s1 tid CtPlain); auto; [by unfold same_life|]. intros El Ea. cbn. split_and!; try congruence; auto.
  - destruct Hok as (Hlc & Hab & Hb & Hn & Hr). apply (publish_move s _ tid (CtPlainDone r)); try done.
    1-4: unfold publish_plain; by destruct (is_ok r).
    + intros Hcl _. unfold publish_plain, life_ok. destruct (is_ok r); cbn; (split_and!; try done).
      * unfold binary_complete. cbn. by rewrite Hb.
      * intros x. cbn. by rewrite Hb.
    + unfold publish_plain. by intros ->.
  - apply (closer_move s _ tid CtPlain CtDropped); try done; cbn.
    + by apply (closer_alone s tid CtPlain).
    + by left.
    + destruct Hok as (Hlc & _). unfold life_ok in *. cbn. rewrite Hlc in *. split; [apply Hl|by left].
  - destruct Hok as (Hlc & Hab & Hp & Hb & Hpr & Hbr).
    destruct (mixed_pounce_spec o pc s s1 pc' r Hm Hp Hg) as (Hs & Eb & Hlog & Hp' & Hr). pose proof Hs as (El & _ & Ea & _).
    apply (closing_move s s1 tid (CtMixed pc bc None br)); auto. intros _ _. cbn. split_and!; try congruence; auto.
    + unfold binary_complete, binary_open in *. cbn. by rewrite Eb.
    + intros r0 [= <-]. exact Hr.
  - destruct Hok as (Hlc & Hab & Hp & Hb & Hpr & Hbr).
    destruct (mixed_binary_spec o bc s s1 bc' r Hm Hb Hg) as (Hs & Ep & Hlog & Hb' & Hr). pose proof Hs as (El & _ & Ea & _).
    apply (closing_move s s1 tid (CtMixed pc bc pr None)); auto. intros _ _. cbn. split_and!; try congruence; auto.
    + unfold pounce_complete, pounce_open in *. cbn. by rewrite Ep.
    + intros r0 [= <-]. exact Hr.
  - destruct Hok as (Hlc & Hab & Hp & Hb & Hpr & Hbr). apply (publish_move s _ tid (CtMixed pc bc (Some pr) (Some br))); try done.
    + intros Hcl _. by apply finish_mixed_life.
    + intros Hr. assert (c_closed s = true) as Hcl by (unfold life_ok in Hl; rewrite Hlc in Hl; apply Hl).
      apply (finish_mixed_life s tid CtPlain pc bc Hp Hb Hcl Hab); [apply (Hpr pr)|apply (Hbr br)]; try done;
        destruct pr, br; done.
  - destruct Hok as (Hlc & Hab & Hp & Hb & Hpr & Hbr). apply (publish_move s _ tid (CtMixed pc bc pr br)); try done.
    intros Hcl _. by apply finish_mixed_life.
  - destruct Hok as (Hlc & Hab & Hp & Hb & Hpr & Hbr). apply (publish_move s _ tid (CtMixed pc bc None None)); try done.
    intros Hcl _. by apply finish_mixed_life.
  - eapply (quiet_move s _ tid (CtReturned r)); cbn; try reflexivity; try done; try lia; intros ct Hc; rewrite Hct in Hc; by injection Hc as <-.
Qed.

Lemma client_reachable_inv s : rtc client_step client_new s → client_inv s.
Proof. intros H. apply (rtc_invariant client_step client_inv client_new s); [|apply client_new_inv|done]. eauto using client_step_inv. Qed.

(** ** A closed client stays closed *)

(** The calls that still reach an executor had released the lock before. *)
Definition late_controls s s' : Prop :=
  ∃ n, c_log s' = c_log s ++ replicate n CallControl ∧ (n + size (c_controls s'))%nat = size (c_controls s).
Lemma late_same s s' : c_log s' = c_log s → c_controls s' = c_controls s → late_controls s s'.
Proof. intros El Ec. exists 0%nat. by rewrite El, Ec, app_nil_r. Qed.
Lemma late_trans s1 s2 s3 : late_controls s1 s2 → late_controls s2 s3 → late_controls s1 s3.
Proof.
  intros (n & E1 & H1) (m & E2 & H2). exists (n + m)%nat. rewrite E2, E1, <- (assoc_L (++)), <- replicate_add. split; [done|lia].
Qed.
Lemma late_call cid s : is_Some (c_controls s !! cid) → late_controls s (control_call cid s).
Proof.
  intros [t Ht]. exists 1%nat. split; [done|]. cbn. rewrite map_size_delete, Ht.
  assert (size (c_controls s) ≠ 0%nat) by (intros E; apply map_size_empty_inv in E; by rewrite E, lookup_empty in Ht). cbn. lia.
Qed.

Lemma closed_stays s s' :
  client_inv s → client_step s s' → c_lifecycle s = LClosed → c_lifecycle s' = LClosed ∧ late_controls s s'.
Proof.
  intros (Hl & _ & Ht & _) Hstep Hlc.
  assert (∀ s', c_lifecycle s' = c_lifecycle s → c_log s' = c_log s → c_controls s' = c_controls s → c_lifecycle s' = LClosed ∧ late_controls s s') as Hsame.
  { intros s1 E1 E2 E3. split; [congruence|by apply late_same]. }
  destruct Hstep as [s before emp prep created answer Hc|s cid before op ib created Hc Hcid|s cid Hcid|s valid created answer Hc|s tid cb Hct|s tid seen Hct|s tid seen Hct Hlt
    |s tid seen Hct|s tid o Hct|s tid r Hct|s tid Hct|s tid pc bc br o s1 pc' r Hct Hm|s tid pc bc pr o s1 bc' r Hct Hm
    |s tid pc bc pr br Hct|s tid pc bc pr br e Hct|s tid pc bc e Hct|s tid r Hct];
    try (pose proof (Ht tid _ Hct) as Hok; cbn in Hok; by destruct Hok; congruence); try by apply Hsame.
  - destruct (enqueue_worked before emp prep created answer s Hc) as [->|[? _]]; [by apply Hsame|congruence].
  - destruct (client_control_worked cid before op ib created s Hc) as [->|[? _]]; [by apply Hsame|congruence].
  - split; [done|by apply late_call].
  - unfold admit_binary_task, lock_open_lifecycle. rewrite Hlc. by apply Hsame.
  - unfold close_decide, close_plan. rewrite Hlc. by apply Hsame.
Qed.

Lemma closed_forever s s' :
  client_inv s → rtc client_step s s' → c_lifecycle s = LClosed → c_lifecycle s' = LClosed ∧ late_controls s s' ∧ client_inv s'.
Proof.
  intros Hinv Hrun Hlc.
  apply (rtc_invariant client_step (λ s', c_lifecycle s' = LClosed ∧ late_controls s s' ∧ client_inv s') s s'); [| |done].
  - intros a b (Ha & Hlog & Hi) Hstep. destruct (closed_stays a b Hi Hstep Ha) as [? E].
    eauto using client_step_inv, late_trans.
  - split; [done|]. split; [by apply late_same|done].
Qed.

(** ** Every close can return *)

(** From [s] the closer [t] can return, and nothing else happens to the threads. *)
Definition drives t s : Prop :=
  ∃ s' r, rtc client_step s s' ∧ c_threads s' = <[t := CtReturned r]> (c_threads s) ∧ (c_notified s < c_notified s')%nat
    ∧ c_abandoned s' = c_abandoned s.

Lemma drives_step t ct s s1 :
  client_step s (set_thread t ct s1) → c_threads s1 = c_threads s → c_notified s1 = c_notified s → c_abandoned s1 = c_abandoned s →
  drives t (set_thread t ct s1) → drives t s.
Proof.
  intros Hstep Hth Hn Ha (s' & r & Hrun & Hth' & Hn' & Ha'). exists s', r. split; [by eapply rtc_l|]. cbn in *.
  rewrite Hth', Hth, insert_insert_eq. split; [done|]. split; [lia|congruence].
Qed.

Lemma drives_published t s r : c_threads s !! t = Some (CtPublished r) → drives t s.
Proof.
  intros Ht. exists (set_thread t (CtReturned r) (notify_waiters s)), r. split; [by apply rtc_once, cs_notify|]. cbn.
  split; [done|]. split; [lia|done].
Qed.

Lemma drives_publish t s s1 r :
  client_step s (set_thread t (CtPublished r) s1) → c_threads s1 = c_threads s → c_notified s1 = c_notified s →
  c_abandoned s1 = c_abandoned s → drives t s.
Proof.
  intros Hstep Hth Hn Ha. apply (drives_step t (CtPublished r) s s1); try done. apply (drives_published t _ r). cbn.
  by rewrite lookup_insert_eq.
Qed.

Lemma close_pounce_frame o s : same_life s (close_pounce o s).1.
Proof. unfold close_pounce. destruct (c_pounce s); [destruct (exec_close o _)|]; by unfold same_life. Qed.
Lemma close_binary_frame o s : same_life s (close_binary o s).1.
Proof. unfold close_binary. destruct (c_binary s); [destruct (exec_close o _)|]; by unfold same_life. Qed.

Lemma drives_mixed (po : PO) (bo : BO) t s pc bc pr br : c_threads s !! t = Some (CtMixed pc bc pr br) → drives t s.
Proof.
  assert (∀ s pc bc pr br, c_threads s !! t = Some (CtMixed pc bc (Some pr) (Some br)) → drives t s) as Hfin.
  { clear s pc bc pr br. intros s pc bc pr br Ht.
    by apply (drives_publish t s (finish_mixed pc bc s) (mixed_result pr br)); [apply cs_mixed_finish|..]. }
  assert (∀ s pc bc pr br, c_threads s !! t = Some (CtMixed pc bc (Some pr) br) → drives t s) as Hbin.
  { clear s pc bc pr br. intros s pc bc pr [br|] Ht; [by eapply Hfin|].
    destruct (mixed_binary bo bc s) as [[s1 bc1] r] eqn:Hm.
    assert (same_life s s1) as (_ & _ & Ha & Hn & Hth).
    { unfold mixed_binary in Hm. destruct bc; [injection Hm as <- <- <-; apply same_life_refl|].
      pose proof (close_binary_frame bo s). destruct (close_binary bo s). by injection Hm as <- <- <-. }
    apply (drives_step t (CtMixed pc bc1 (Some pr) (Some r)) s s1); try done; [by eapply cs_mixed_binary|].
    eapply Hfin. cbn. by rewrite lookup_insert_eq. }
  intros Ht. destruct pr as [pr|]; [by eapply Hbin|]. destruct (mixed_pounce po pc s) as [[s1 pc1] r] eqn:Hm.
  assert (same_life s s1) as (_ & _ & Ha & Hn & Hth).
  { unfold mixed_pounce in Hm. destruct pc; [injection Hm as <- <- <-; apply same_life_refl|].
    pose proof (close_pounce_frame po s). destruct (close_pounce po s). by injection Hm as <- <- <-. }
  apply (drives_step t (CtMixed pc1 bc (Some r) br) s s1); try done; [by eapply cs_mixed_pounce|].
  eapply Hbin. cbn. by rewrite lookup_insert_eq.
Qed.

Lemma drive_closer (po : PO) (bo : BO) s t ct : c_threads s !! t = Some ct → will_notify ct = true → drives t s.
Proof.
  assert (∀ s r, c_threads s !! t = Some (CtPlainDone r) → drives t s) as Hplain.
  { intros s0 r Ht. apply (drives_publish t s0 (publish_plain r s0) r); [by apply cs_plain_publish|..];
      unfold publish_plain; by destruct (is_ok r). }
  intros Ht Hw. destruct ct; try done.
  - destruct (close_pounce_frame po s) as (_ & _ & Ha & Hn & Hth).
    apply (drives_step t _ s _ (cs_plain s t po Ht)); try done. eapply Hplain. cbn. by rewrite lookup_insert_eq.
  - by eapply Hplain.
  - by eapply (drives_mixed po bo).
  - by eapply drives_published.
Qed.

(** ** A dropped close *)

(** A close of a client without in-memory downloads runs in the caller's future: when that is
    dropped the lifecycle stays closing, and a close that is called afterwards never returns. *)
Definition stuck s : Prop := c_abandoned s = true ∧ ∀ t ct, c_threads s !! t = Some ct → will_notify ct = false.
Definition stuck_thread s (ct : CloseThread) : Prop :=
  match ct with CtRegistered seen | CtWaiting seen => seen = c_notified s | CtDropped => True | _ => False end.

Lemma stuck_set s tid ct : stuck s → will_notify ct = false → stuck (set_thread tid ct s).
Proof. intros [Ha Hw] Hct. split; [done|]. intros t c. cbn. rewrite lookup_insert_Some. intros [[_ <-]|[_ ?]]; [done|by eapply Hw]. Qed.

Lemma stuck_step s s' tid ct :
  client_inv s → stuck s → c_threads s !! tid = Some ct → stuck_thread s ct → client_step s s' →
  stuck s' ∧ c_notified s' = c_notified s ∧ ∃ ct', c_threads s' !! tid = Some ct' ∧ stuck_thread s' ct'.
Proof.
  intros (Hl & _) Hst Hct Hok Hstep. pose proof Hst as [Hab Hnone].
  assert (c_lifecycle s = LClosing) as Hlc by (unfold life_ok in Hl; rewrite Hab in Hl; destruct (c_lifecycle s); [by destruct Hl as (_ & ? & _)|done|by destruct Hl as (_ & ? & _)..]).
  assert (∀ t c, c_threads s !! t = Some c → will_notify c = true → False) as Hno.
  { intros t c Hc Hw. by rewrite (Hnone t c Hc) in Hw. }
  assert (∀ t c, will_notify c = false → (t = tid → stuck_thread s c) →
    stuck (set_thread t c s) ∧ c_notified (set_thread t c s) = c_notified s
    ∧ ∃ ct', c_threads (set_thread t c s) !! tid = Some ct' ∧ stuck_thread (set_thread t c s) ct') as Hset.
  { intros t c Hw Hc. split; [by apply stuck_set|]. split; [done|]. cbn.
    destruct (decide (t = tid)) as [->|]; [exists c; rewrite lookup_insert_eq; auto|exists ct; by rewrite lookup_insert_ne]. }
  destruct Hstep as [s before emp prep created answer Hc|s cid before op ib created Hc Hcid|s cid Hcid|s valid created answer Hc|s t cb Ht|s t seen Ht|s t seen Ht Hlt
    |s t seen Ht|s t o Ht|s t r Ht|s t Ht|s t pc bc br o s1 pc' r Ht Hm|s t pc bc pr o s1 bc' r Ht Hm
    |s t pc bc pr br Ht|s t pc bc pr br e Ht|s t pc bc e Ht|s t r Ht]; try (by destruct (Hno t _ Ht)).
  - destruct (enqueue_worked before emp prep created answer s Hc) as [->|[? _]]; [eauto|congruence].
  - destruct (client_control_worked cid before op ib created s Hc) as [->|[? _]]; [eauto|congruence].
  - split; [done|]. split; [done|]. by exists ct.
  - unfold admit_binary_task, lock_open_lifecycle. rewrite Hlc. eauto.
  - apply Hset; [by destruct cb|]. intros ->. congruence.
  - unfold close_decide, close_plan. rewrite Hlc. apply Hset; [done|]. intros ->. rewrite Hct in Ht. by injection Ht as ->.
  - apply Hset; [done|]. intros ->. rewrite Hct in Ht. injection Ht as ->. cbn in Hok. lia.
  - by apply Hset.
Qed.

Lemma dropped_close_strands s s' tid :
  rtc client_step client_new s → stuck s → c_threads s !! tid = Some (CtRegistered (c_notified s)) → rtc client_step s s' →
  ∀ r, c_threads s' !! tid ≠ Some (CtReturned r).
Proof.
  intros Hs Hst Hct Hrun.
  destruct (rtc_invariant client_step (λ s', client_inv s' ∧ stuck s' ∧ ∃ ct, c_threads s' !! tid = Some ct ∧ stuck_thread s' ct) s s')
    as (_ & _ & ct & Hct' & Hok); [| |done|].
  - intros a b (Hi & Hsa & ct & Hc & Ho) Hstep. split; [by apply (client_step_inv a)|].
    destruct (stuck_step a b tid ct Hi Hsa Hc Ho Hstep) as (? & _ & ?). done.
  - split; [by apply client_reachable_inv|]. split; [done|]. by exists (CtRegistered (c_notified s)).
  - intros r E. rewrite E in Hct'. by injection Hct' as <-.
Qed.

(** ** The promises *)

(** C38: when some close has returned success, the client is closed, both its executors are torn
    down, and the client stays so whatever is called: it hands no task and no close to an executor
    any more, and of the control calls only those that had released the lifecycle's lock before
    still reach one, each once. *)
Theorem client_close_final s tid s' :
  rtc client_step client_new s → c_threads s !! tid = Some (CtReturned (Ok tt)) → rtc client_step s s' →
  c_lifecycle s' = LClosed ∧ c_closed s' = true ∧ pounce_complete s' = true ∧ binary_complete s' = true
  ∧ ∃ n, c_log s' = c_log s ++ replicate n CallControl ∧ (n + size (c_controls s'))%nat = size (c_controls s).
Proof.
  intros Hs Hct Hrun. pose proof (client_reachable_inv s Hs) as Hinv. pose proof Hinv as (_ & _ & Ht & _).
  pose proof (Ht tid _ Hct eq_refl) as Hlc. cbn in Hlc.
  destruct (closed_forever s s' Hinv Hrun Hlc) as (Hlc' & Hlog & (Hl & _)). unfold life_ok in Hl. rewrite Hlc' in Hl.
  destruct Hl as (? & _ & ? & ?). by split_and!.
Qed.

(** No two closes tear executors down at once, and an executor that is torn down is not closed
    again: a close that is retried closes only what is left. *)
Theorem client_one_teardown s :
  rtc client_step client_new s →
  (∀ complete, CallClose complete ∈ c_log s → complete = false)
  ∧ (∀ complete, CallBinaryClose complete ∈ c_log s → complete = false)
  ∧ ∀ t t' ct ct', c_threads s !! t = Some ct → c_threads s !! t' = Some ct' → closer ct = true → closer ct' = true → t = t'.
Proof.
  intros Hs. destruct (client_reachable_inv s Hs) as (_ & [Hf _] & _ & Hu). rewrite Forall_forall in Hf.
  split; [|split; [|exact Hu]]; intros complete Hin; exact (Hf _ Hin).
Qed.

(** C37: the executor of in-memory downloads never receives a task after it was told to close: the
    order of calls that its own guarantees rely on. *)
Theorem client_orders_binary_calls s l1 complete l2 :
  rtc client_step client_new s → c_log s = l1 ++ CallBinaryClose complete :: l2 → CallBinaryEnqueue ∉ l2.
Proof.
  intros Hs Hlog. destruct (client_reachable_inv s Hs) as (_ & [_ Ho] & _). rewrite Hlog in Ho. clear Hlog.
  induction l1 as [|c l1 IH]; [apply Ho|]. apply IH. destruct c; try exact Ho. apply Ho.
Qed.

(** C39: no close is left waiting: as long as no close of a client without in-memory downloads was
    dropped while it ran, every close that was called and not dropped can return, whatever the
    executors answer; in particular no wake-up is lost. *)
Theorem client_close_returns (po : PO) (bo : BO) s tid ct :
  rtc client_step client_new s → c_abandoned s = false → c_threads s !! tid = Some ct → ct ≠ CtDropped →
  ∃ s' r, rtc client_step s s' ∧ c_threads s' !! tid = Some (CtReturned r).
Proof.
  assert (∀ s tid ct, client_inv s → c_abandoned s = false → c_threads s !! tid = Some ct → ct ≠ CtDropped →
    (∀ seen, ct ≠ CtRegistered seen) → ∃ s' r, rtc client_step s s' ∧ c_threads s' !! tid = Some (CtReturned r)) as Hdec.
  { clear s tid ct. intros s tid ct Hinv Hab Hct Hnd Hnr. destruct (will_notify ct) eqn:Hw.
    { destruct (drive_closer po bo s tid ct Hct Hw) as (s' & r & Hrun & Hth & _). exists s', r. by rewrite Hth, lookup_insert_eq. }
    destruct ct; try done; [by destruct (Hnr seen)| |].
    - destruct Hinv as (_ & _ & Ht & _). pose proof (Ht tid _ Hct) as Hok. cbn in Hok.
      assert (∃ s', rtc client_step s s' ∧ c_threads s' !! tid = Some (CtWaiting seen) ∧ (seen < c_notified s')%nat) as (s' & Hrun & Hct' & Hlt).
      { destruct Hok as [?|[-> [?|(t & c & Hc & Hcw)]]]; [by exists s|congruence|].
        destruct (drive_closer po bo s t c Hc Hcw) as (s' & r & Hrun & Hth & Hn & _). exists s'. rewrite Hth, lookup_insert_ne; [done|].
        intros ->. rewrite Hct in Hc. injection Hc as <-. done. }
      exists (set_thread tid (CtReturned (Err client_closed_error)) s'), (Err client_closed_error).
      split; [eapply rtc_r; [done|by eapply cs_woken]|]. cbn. by rewrite lookup_insert_eq.
    - by exists s, r. }
  intros Hs Hab Hct Hnd. pose proof (client_reachable_inv s Hs) as Hinv.
  destruct ct; try (by eapply Hdec). pose proof (cs_decide s tid seen Hct) as Hstep.
  pose proof (client_step_inv _ _ Hinv Hstep) as Hinv'.
  assert (∃ ct', c_threads (close_decide tid seen s) !! tid = Some ct' ∧ ct' ≠ CtDropped ∧ (∀ seen, ct' ≠ CtRegistered seen)) as (ct' & Hct' & Hd & Hr).
  { unfold close_decide. destruct (close_plan s) as [| |pc bc []]; cbn; rewrite lookup_insert_eq; eexists; by split. }
  destruct (Hdec _ tid ct' Hinv') as (s' & r & Hrun & Hret); try done.
  - unfold close_decide. by destruct (close_plan s).
  - exists s', r. split; [by eapply rtc_l|done].
Qed.
End Props.

(** ** A run *)

Abbreviation demo_client := (ClientState bool CloseState).
Abbreviation client_run := (rtc (client_step (PO := CloseOutcome (result unit MeowError)) (BO := CloseOutcome CloseResponse))).

Definition closes_well : CloseOutcome (result unit MeowError) := mkCloseOutcome (Ok tt) (Ok (Ok tt)) (Ok tt).
Definition binary_retryable : CloseOutcome CloseResponse :=
  mkCloseOutcome (Ok tt) (Ok (CloseRetryable client_closed_error)) (Ok tt).
Definition binary_closes : CloseOutcome CloseResponse := mkCloseOutcome (Ok tt) (Ok (CloseComplete (Ok tt))) (Ok tt).

Tactic Notation "cl_do" uconstr(c) :=
  eapply rtc_l; [eapply c; first [reflexivity | (by intros ? [= <-]) | (vm_compute; lia) | done]|];
  match goal with |- rtc _ ?a _ => let a' := eval vm_compute in a in change a with a' end.

(** Tasks of both kinds; two closes at once, whose teardown of the binary executor fails. *)
Lemma client_run_waiting : ∃ s : demo_client,
  client_run client_new s ∧ c_abandoned s = false ∧ c_threads s !! 2%nat = Some (CtWaiting 0)
  ∧ c_threads s !! 1%nat = Some (CtMixed false false None None) ∧ c_log s = [CallEnqueue; CallBinaryEnqueue].
Proof.
  eexists. split.
  - cl_do (cs_admit _ client_new false (Ok tt) (Ok false) (Ok 5%nat)). cl_do (cs_admit_binary _ (Ok tt) (Ok CLOSE_OPEN) (Ok 6%nat)).
    cl_do (cs_enter _ 1 false). cl_do (cs_enter _ 2 false). cl_do (cs_decide _ 1). cl_do (cs_decide _ 2). apply rtc_refl.
  - by vm_compute.
Qed.

(** The same, and a third close that finishes. *)
Lemma client_run_closed : ∃ s : demo_client,
  client_run client_new s ∧ c_threads s !! 3%nat = Some (CtReturned (Ok tt))
  ∧ c_threads s !! 1%nat = Some (CtReturned (Err client_closed_error))
  ∧ c_log s = [CallEnqueue; CallBinaryEnqueue; CallClose false] ++ CallBinaryClose false :: [CallBinaryClose false].
Proof.
  eexists. split.
  - cl_do (cs_admit _ client_new false (Ok tt) (Ok false) (Ok 5%nat)). cl_do (cs_admit_binary _ (Ok tt) (Ok CLOSE_OPEN) (Ok 6%nat)).
    cl_do (cs_enter _ 1 false). cl_do (cs_enter _ 2 false). cl_do (cs_decide _ 1). cl_do (cs_decide _ 2).
    cl_do (cs_mixed_pounce _ 1 _ _ _ closes_well). cl_do (cs_mixed_binary _ 1 _ _ _ binary_retryable).
    cl_do (cs_mixed_finish _ 1). cl_do (cs_notify _ 1). cl_do (cs_woken _ 2).
    cl_do (cs_enter _ 3 false). cl_do (cs_decide _ 3). cl_do (cs_mixed_pounce _ 3 _ _ _ closes_well).
    cl_do (cs_mixed_binary _ 3 _ _ _ binary_closes). cl_do (cs_mixed_finish _ 3). cl_do (cs_notify _ 3). apply rtc_refl.
  - by vm_compute.
Qed.

(** The transfer executor's close is dropped while it runs. *)
Lemma client_run_dropped : ∃ s : demo_client,
  client_run client_new s ∧ stuck s ∧ c_threads s !! 2%nat = Some (CtRegistered (c_notified s)).
Proof.
  eexists. split.
  - cl_do (cs_admit _ client_new false (Ok tt) (Ok false) (Ok 5%nat)). cl_do (cs_enter _ 1 false). cl_do (cs_decide _ 1). cl_do (cs_drop_plain _ 1).
    cl_do (cs_enter _ 2 false). apply rtc_refl.
  - split; [|by vm_compute]. split; [done|].
    apply (bool_decide_unpack (map_Forall (λ _ ct, will_notify ct = false) _)). by vm_compute.
Qed.

(** A pause released the lock, then the client was closed. *)
Lemma client_run_late : ∃ s : demo_client,
  client_run client_new s ∧ c_threads s !! 1%nat = Some (CtReturned (Ok tt)) ∧ c_controls s = {[4%nat := ToPounce]}
  ∧ c_log s = [CallEnqueue; CallClose false].
Proof.
  eexists. split.
  - cl_do (cs_admit _ client_new false (Ok tt) (Ok false) (Ok 5%nat)). cl_do (cs_control _ 4 client_new OpPause (Ok false) (Ok false)).
    cl_do (cs_enter _ 1 false). cl_do (cs_decide _ 1). cl_do (cs_plain _ 1 closes_well). cl_do (cs_plain_publish _ 1).
    cl_do (cs_notify _ 1). apply rtc_refl.
  - by vm_compute.
Qed.

Lemma client_close_final_witness : ∃ s s' : demo_client,
  c_log s' = c_log s ++ [CallControl] ∧ c_lifecycle s' = LClosed ∧ pounce_complete s' = true ∧ binary_complete s' = true.
Proof.
  destruct client_run_late as (s & Hrun & Hret & Hc & _). exists s, (control_call 4 s). split; [done|].
  assert (client_run s (control_call 4 s)) as Hstep by (apply rtc_once, cs_control_call; rewrite Hc; by eexists).
  destruct (client_close_final s 1 (control_call 4 s) Hrun Hret Hstep) as (? & _ & ? & ? & _). auto.
Defined.

Lemma client_one_teardown_witness : ∃ s : demo_client, CallBinaryClose false ∈ c_log s ∧ CallBinaryClose true ∉ c_log s.
Proof.
  destruct client_run_closed as (s & Hrun & _ & _ & Hlog). exists s. split; [rewrite Hlog; set_solver|].
  intros Hin. destruct (client_one_teardown s Hrun) as (_ & H & _). by pose proof (H true Hin).
Defined.

Lemma client_orders_binary_calls_witness :
  ∃ s : demo_client, CallBinaryEnqueue ∈ c_log s ∧ CallBinaryEnqueue ∉ [CallBinaryClose false].
Proof.
  destruct client_run_closed as (s & Hrun & _ & _ & Hlog). exists s. split; [rewrite Hlog; set_solver|].
  exact (client_orders_binary_calls s _ false _ Hrun Hlog).
Defined.

Lemma client_close_returns_witness :
  ∃ (s s' : demo_client) r, c_threads s !! 2%nat = Some (CtWaiting 0) ∧ c_threads s' !! 2%nat = Some (CtReturned r).
Proof.
  destruct client_run_waiting as (s & Hrun & Hab & Hct & _).
  destruct (client_close_returns closes_well binary_retryable s 2 _ Hrun Hab Hct ltac:(done)) as (s' & r & _ & Hret).
  by exists s, s', r.
Defined.
