(* ===== verification/TaskBuild.v ===== *)
(** * Configuration and construction of tasks

    [src/meow_config.rs], [src/pounce_task.rs], the builders of [src/down_pounce_builder.rs] and
    [src/up_pounce_builder.rs], and [InnerTask::from_pounce] of [src/inner/inner_task.rs]: how a
    configuration is checked, how a task is put together call by call, and what the scheduler
    receives. Protocol plugins are values of the types [U] and [D], HTTP options of a download
    values of [C]; an HTTP client the caller supplies is an identity, and the size of a file, its
    hash and its signature are inputs. *)
From S2P Require Import Prelude Errors Records Sidecar HttpHeaders DownloadIdentity RangeDownload DownloadPrepare UploadFile UploadChunks BinaryDownload.
#[local] Open Scope Z_scope.

(** ** Configuration *)

Record MeowConfig := mkMeowConfig {
  mc_max_upload_concurrency : Z;
  mc_max_download_concurrency : Z;
  mc_range_accept : list Z;
  mc_http_client : option nat;
  (** durations in nanoseconds *)
  mc_http_timeout : Z;
  mc_tcp_keepalive : Z;
  mc_command_queue_capacity : Z;
  mc_worker_event_queue_capacity : Z;
  mc_binary : option BinaryDownloadConfig;
}.

Definition meow_config_default : MeowConfig :=
  mkMeowConfig 2 2 (bs "application/octet-stream") None (5 * 1000000000) (30 * 1000000000) 128 256 None.

Definition validate_non_zero (name : string) (value : Z) : result unit MeowError :=
  if value =? 0 then Err (from_code ParameterEmpty (name +:+ " must be >= 1")) else Ok tt.
Definition validate_positive_duration (name : string) (value : Z) : result unit MeowError :=
  if value =? 0 then Err (from_code ParameterEmpty (name +:+ " must be greater than 0")) else Ok tt.

(** [MeowConfigBuilder::build] *)
Definition config_build (c : MeowConfig) : result MeowConfig MeowError :=
  let? _ := validate_non_zero "max_upload_concurrency" (mc_max_upload_concurrency c) in
  let? _ := validate_non_zero "max_download_concurrency" (mc_max_download_concurrency c) in
  let? _ := validate_non_zero "command_queue_capacity" (mc_command_queue_capacity c) in
  let? _ := validate_non_zero "worker_event_queue_capacity" (mc_worker_event_queue_capacity c) in
  let? _ := validate_positive_duration "http_timeout" (mc_http_timeout c) in
  let? _ := validate_positive_duration "tcp_keepalive" (mc_tcp_keepalive c) in
  let? _ := match mc_binary c with Some b => validate_binary_config b | None => Ok tt end in
  Ok c.

(** ** Tasks *)

Definition DEFAULT_MAX_CHUNK_RETRIES : Z := 3.
Definition DEFAULT_MAX_UPLOAD_PREPARE_RETRIES : Z := 3.
Definition DEFAULT_MAX_PARTS_IN_FLIGHT : Z := 1.

Definition normalized_chunk_size (chunk_size : Z) : Z := if chunk_size =? 0 then 1024 * 1024 else chunk_size.
Definition normalized_max_parts_in_flight (max_parts_in_flight : Z) : Z := Z.max max_parts_in_flight 1.

Section Tasks.
Context {U D C : Type}.

Record PounceTask := mkPounce {
  p_direction : Direction;
  p_file_name : string;
  p_file_path : string;
  p_upload_source : option UploadSource;
  p_total_size : Z;
  p_chunk_size : Z;
  p_url : string;
  p_method : string;
  p_headers : HeaderMap;
  p_client_file_sign : option string;
  p_breakpoint_upload : option U;
  p_breakpoint_download : option D;
  p_breakpoint_download_http : option C;
  p_max_chunk_retries : Z;
  p_max_upload_prepare_retries : Z;
  p_max_parts_in_flight : Z;
}.

(** [PounceTask::is_empty] *)
Definition pounce_is_empty (p : PounceTask) : bool :=
  bool_decide (p_file_name p = EmptyString) || bool_decide (p_url p = EmptyString)
  || match p_direction p with
     | Upload => (p_total_size p =? 0) || bool_decide (p_upload_source p = None)
     | Download => bool_decide (p_file_path p = EmptyString)
     end.

(** ** The builder of downloads *)

Record DownloadPounceBuilder := mkDownBuilder {
  db_file_name : string;
  db_file_path : string;
  db_chunk_size : Z;
  db_url : string;
  db_headers : HeaderMap;
  db_client_file_sign : option string;
  db_breakpoint_download : option D;
  db_breakpoint_download_http : option C;
  db_max_chunk_retries : Z;
  db_max_parts_in_flight : Z;
  db_total_size : Z;
}.

Definition down_new (file_name file_path : string) (chunk_size : Z) (url : string) : DownloadPounceBuilder :=
  mkDownBuilder file_name file_path (normalized_chunk_size chunk_size) url ∅ None None None DEFAULT_MAX_CHUNK_RETRIES
    DEFAULT_MAX_PARTS_IN_FLIGHT 0.

(** The setters. *)
Inductive DownSetter :=
| DWithUrl (url : string)
| DWithFilePath (path : string)
| DWithHeaders (headers : HeaderMap)
| DWithClientFileSign (sign : string)
| DWithBreakpointDownload (download : D)
| DWithBreakpointDownloadHttp (config : C)
| DWithMaxChunkRetries (retries : Z)
| DWithMaxPartsInFlight (max_parts_in_flight : Z)
| DWithTotalSize (total_size : Z).

Definition down_with (b : DownloadPounceBuilder) (set : DownSetter) : DownloadPounceBuilder :=
  let '(mkDownBuilder name path chunk url headers sign download http retries parts total) := b in
  match set with
  | DWithUrl url => mkDownBuilder name path chunk url headers sign download http retries parts total
  | DWithFilePath path => mkDownBuilder name path chunk url headers sign download http retries parts total
  | DWithHeaders headers => mkDownBuilder name path chunk url headers sign download http retries parts total
  | DWithClientFileSign sign => mkDownBuilder name path chunk url headers (Some sign) download http retries parts total
  | DWithBreakpointDownload download => mkDownBuilder name path chunk url headers sign (Some download) http retries parts total
  | DWithBreakpointDownloadHttp http => mkDownBuilder name path chunk url headers sign download (Some http) retries parts total
  | DWithMaxChunkRetries retries => mkDownBuilder name path chunk url headers sign download http retries parts total
  | DWithMaxPartsInFlight parts =>
      mkDownBuilder name path chunk url headers sign download http retries (normalized_max_parts_in_flight parts) total
  | DWithTotalSize total => mkDownBuilder name path chunk url headers sign download http retries parts total
  end.

Definition down_build (b : DownloadPounceBuilder) : PounceTask :=
  mkPounce Download (db_file_name b) (db_file_path b) None (db_total_size b) (db_chunk_size b) (db_url b) "GET"
    (db_headers b) (db_client_file_sign b) None (db_breakpoint_download b) (db_breakpoint_download_http b)
    (db_max_chunk_retries b) DEFAULT_MAX_UPLOAD_PREPARE_RETRIES (db_max_parts_in_flight b).

(** ** The builder of uploads *)

Record UploadPounceBuilder := mkUpBuilder {
  ub_file_name : string;
  ub_upload_source : UploadSource;
  ub_chunk_size : Z;
  ub_url : string;
  ub_method : string;
  ub_headers : HeaderMap;
  ub_breakpoint_upload : option U;
  ub_max_chunk_retries : Z;
  ub_max_upload_prepare_retries : Z;
  ub_max_parts_in_flight : Z;
}.

(** [UploadPounceBuilder::new] and [from_bytes] *)
Definition up_new (file_name : string) (source : UploadSource) (chunk_size : Z) : UploadPounceBuilder :=
  mkUpBuilder file_name source (normalized_chunk_size chunk_size) EmptyString "POST" ∅ None DEFAULT_MAX_CHUNK_RETRIES
    DEFAULT_MAX_UPLOAD_PREPARE_RETRIES DEFAULT_MAX_PARTS_IN_FLIGHT.

Inductive UpSetter :=
| UWithUrl (url : string)
| UWithFilePath (path : string)
| UWithBytes (bytes : list Z)
| UWithMethod (method : string)
| UWithHeaders (headers : HeaderMap)
| UWithBreakpointUpload (upload : U)
| UWithMaxChunkRetries (retries : Z)
| UWithMaxUploadPrepareRetries (retries : Z)
| UWithMaxPartsInFlight (max_parts_in_flight : Z).

Definition up_with (b : UploadPounceBuilder) (set : UpSetter) : UploadPounceBuilder :=
  let '(mkUpBuilder name source chunk url method headers upload retries prepare parts) := b in
  match set with
  | UWithUrl url => mkUpBuilder name source chunk url method headers upload retries prepare parts
  | UWithFilePath path => mkUpBuilder name (SourceFile path) chunk url method headers upload retries prepare parts
  | UWithBytes bytes => mkUpBuilder name (SourceBytes bytes) chunk url method headers upload retries prepare parts
  | UWithMethod method => mkUpBuilder name source chunk url method headers upload retries prepare parts
  | UWithHeaders headers => mkUpBuilder name source chunk url method headers upload retries prepare parts
  | UWithBreakpointUpload upload => mkUpBuilder name source chunk url method headers (Some upload) retries prepare parts
  | UWithMaxChunkRetries retries => mkUpBuilder name source chunk url method headers upload retries prepare parts
  | UWithMaxUploadPrepareRetries prepare => mkUpBuilder name source chunk url method headers upload retries prepare parts
  | UWithMaxPartsInFlight parts =>
      mkUpBuilder name source chunk url method headers upload retries prepare (normalized_max_parts_in_flight parts)
  end.

(** [metadata] gives the length of a file. *)
Definition up_build (metadata : string → result Z IoError) (b : UploadPounceBuilder) : result PounceTask IoError :=
  let? file := match ub_upload_source b with
               | SourceFile path => let? len := metadata path in Ok (path, len)
               | SourceBytes bytes => Ok (ub_file_name b, Z.of_nat (length bytes))
               end in
  Ok (mkPounce Upload (ub_file_name b) file.1 (Some (ub_upload_source b)) file.2 (ub_chunk_size b) (ub_url b) (ub_method b)
        (ub_headers b) None (ub_breakpoint_upload b) None None (ub_max_chunk_retries b) (ub_max_upload_prepare_retries b)
        (ub_max_parts_in_flight b)).

(** ** [InnerTask::from_pounce] *)

(** What the scheduler gets: the task, and what its requests are made with. *)
Record PreparedTask := mkPrepared {
  pr_inner : InnerTask;
  pr_source : option UploadSource;
  pr_method : string;
  pr_headers : HeaderMap;
  pr_upload : U;
  pr_download : D;
  pr_http : C;
  pr_http_client : option nat;
}.

(** [open_and_hash] gives the signature of a file and the size of its verification buffer. *)
Definition from_pounce (W : Z) (open_and_hash : string → Z → Z → result (string * Z) MeowError)
    (calculate_sign_bytes : list Z → string) (id : TaskId) (default_upload : U) (default_download : D) (default_http : C)
    (http_client : option nat) (p : PounceTask) : result PreparedTask MeowError :=
  let source :=
    match p_upload_source p with
    | Some source => Some source
    | None => match p_direction p with Upload => Some (SourceFile (p_file_path p)) | Download => None end
    end in
  let? signed :=
    match p_direction p with
    | Upload =>
        match source with
        | None => Err (from_code_str ParameterEmpty "upload task missing upload source")
        | Some (SourceFile path) =>
            let? _ := validate_chunk_size W (p_chunk_size p) in
            let? signed := open_and_hash path (p_total_size p) (p_chunk_size p) in
            Ok (signed.1, Some signed.2)
        | Some (SourceBytes bytes) => Ok (calculate_sign_bytes bytes, None)
        end
    | Download => Ok (default EmptyString (p_client_file_sign p), None)
    end in
  Ok (mkPrepared
        (mkInnerTask id signed.1 (p_file_name p) (p_file_path p) signed.2 (p_direction p) (p_total_size p) (p_chunk_size p)
           (p_url p) (p_max_chunk_retries p) (p_max_upload_prepare_retries p) (p_max_parts_in_flight p))
        source (p_method p) (p_headers p) (default default_upload (p_breakpoint_upload p)) (default default_download (p_breakpoint_download p))
        (default default_http (p_breakpoint_download_http p)) http_client).

(** ** Tasks that callers can build *)

Definition down_typed (W : Z) (set : DownSetter) : Prop :=
  match set with
  | DWithMaxChunkRetries n => fits U32_MAX n
  | DWithMaxPartsInFlight n => fits (usize_max W) n
  | DWithTotalSize n => fits U64_MAX n
  | _ => True
  end.
Definition up_typed (W : Z) (set : UpSetter) : Prop :=
  match set with
  | UWithMaxChunkRetries n | UWithMaxUploadPrepareRetries n => fits U32_MAX n
  | UWithMaxPartsInFlight n => fits (usize_max W) n
  | UWithBytes bytes => Z.of_nat (length bytes) ≤ U64_MAX
  | _ => True
  end.

Inductive built (W : Z) : PounceTask → Prop :=
| built_download name path chunk url sets :
    fits U64_MAX chunk → Forall (down_typed W) sets → built W (down_build (foldl down_with (down_new name path chunk url) sets))
| built_upload name source chunk sets metadata p :
    fits U64_MAX chunk → (∀ bytes, source = SourceBytes bytes → Z.of_nat (length bytes) ≤ U64_MAX) → Forall (up_typed W) sets →
    (∀ path len, metadata path = Ok len → fits U64_MAX len) →
    up_build metadata (foldl up_with (up_new name source chunk) sets) = Ok p → built W p.

(** What the scheduler and the workers rely on. *)
Record task_ok (W : Z) (t : InnerTask) : Prop := mkTaskOk {
  ok_chunk : 1 ≤ chunk_size t ≤ U64_MAX;
  ok_total : fits U64_MAX (total_size t);
  ok_parts : 1 ≤ max_parts_in_flight t ≤ usize_max W;
  ok_retries : fits U32_MAX (max_chunk_retries t) ∧ fits U32_MAX (max_upload_prepare_retries t);
  ok_names : url t ≠ EmptyString ∧ file_name t ≠ EmptyString;
  ok_upload : direction t = Upload → 0 < total_size t;
  ok_download : direction t = Download → file_path t ≠ EmptyString;
}.

End Tasks.
#[global] Arguments PounceTask : clear implicits.
#[global] Arguments DownloadPounceBuilder : clear implicits.
#[global] Arguments UploadPounceBuilder : clear implicits.
#[global] Arguments DownSetter : clear implicits.
#[global] Arguments UpSetter : clear implicits.
#[global] Arguments PreparedTask : clear implicits.

(** ** What the builders guarantee *)

Section Built.
Context {U D C : Type} (W : Z).
Hypothesis W_ge : 32 ≤ W.

Definition down_ok (b : DownloadPounceBuilder D C) : Prop :=
  1 ≤ db_chunk_size b ≤ U64_MAX ∧ fits U32_MAX (db_max_chunk_retries b) ∧ 1 ≤ db_max_parts_in_flight b ≤ usize_max W
  ∧ fits U64_MAX (db_total_size b).
Definition up_ok (b : UploadPounceBuilder U) : Prop :=
  1 ≤ ub_chunk_size b ≤ U64_MAX ∧ fits U32_MAX (ub_max_chunk_retries b) ∧ fits U32_MAX (ub_max_upload_prepare_retries b)
  ∧ 1 ≤ ub_max_parts_in_flight b ≤ usize_max W
  ∧ (∀ bytes, ub_upload_source b = SourceBytes bytes → Z.of_nat (length bytes) ≤ U64_MAX).

Lemma usize_ge : 2 ^ 32 - 1 ≤ usize_max W.
Proof. unfold usize_max. pose proof (Z.pow_le_mono_r 2 32 W ltac:(lia) W_ge). lia. Qed.

Lemma normalized_chunk_range chunk : fits U64_MAX chunk → 1 ≤ normalized_chunk_size chunk ≤ U64_MAX.
Proof. unfold normalized_chunk_size. intros H. destruct (_ =? _) eqn:E; solve_sat. Qed.

Lemma down_sets_ok name path chunk url sets :
  fits U64_MAX chunk → Forall (down_typed (D := D) (C := C) W) sets → down_ok (foldl down_with (down_new name path chunk url) sets).
Proof.
  intros Hc Hsets. assert (down_ok (down_new name path chunk url)) as H0.
  { pose proof usize_ge. split_and!; cbn; try (by apply normalized_chunk_range);
      unfold DEFAULT_MAX_CHUNK_RETRIES, DEFAULT_MAX_PARTS_IN_FLIGHT; solve_sat. }
  revert H0. generalize (down_new name path chunk url : DownloadPounceBuilder D C).
  induction Hsets as [|set sets Hset _ IH]; intros b Hb; [done|]. apply IH.
  pose proof usize_ge. destruct b, Hb as (H1 & H2 & H3 & H4), set; cbn in *; split_and!; cbn; try solve_sat.
  all: unfold normalized_max_parts_in_flight; solve_sat.
Qed.

Lemma up_sets_ok name source chunk sets :
  fits U64_MAX chunk → (∀ bytes, source = SourceBytes bytes → Z.of_nat (length bytes) ≤ U64_MAX) →
  Forall (up_typed (U := U) W) sets → up_ok (foldl up_with (up_new name source chunk) sets).
Proof.
  intros Hc Hsrc Hsets. assert (up_ok (up_new name source chunk)) as H0.
  { pose proof usize_ge. split_and!; cbn; try (by apply normalized_chunk_range); try done;
      unfold DEFAULT_MAX_CHUNK_RETRIES, DEFAULT_MAX_UPLOAD_PREPARE_RETRIES, DEFAULT_MAX_PARTS_IN_FLIGHT; solve_sat. }
  revert H0. generalize (up_new name source chunk : UploadPounceBuilder U).
  induction Hsets as [|set sets Hset _ IH]; intros b Hb; [done|]. apply IH.
  pose proof usize_ge. destruct b, Hb as (H1 & H2 & H3 & H4 & H5), set; cbn in *; split_and!; cbn; try solve_sat; try done.
  all: try (unfold normalized_max_parts_in_flight; solve_sat). by intros ? [= <-].
Qed.

(** What a built task guarantees before it is signed. *)
Lemma built_ok p :
  built (U := U) (D := D) (C := C) W p →
  1 ≤ p_chunk_size p ≤ U64_MAX ∧ fits U64_MAX (p_total_size p) ∧ 1 ≤ p_max_parts_in_flight p ≤ usize_max W
  ∧ fits U32_MAX (p_max_chunk_retries p) ∧ fits U32_MAX (p_max_upload_prepare_retries p)
  ∧ (p_direction p = Upload ↔ is_Some (p_upload_source p))
  ∧ (∀ bytes, p_upload_source p = Some (SourceBytes bytes) → p_total_size p = Z.of_nat (length bytes)).
Proof.
  destruct 1 as [name path chunk url sets Hc Hsets|name source chunk sets metadata p Hc Hsrc Hsets Hmeta Hp].
  - destruct (down_sets_ok name path chunk url sets Hc Hsets) as (H1 & H2 & H3 & H4). cbn. split_and!; try done; try lia.
  - destruct (up_sets_ok name source chunk sets Hc Hsrc Hsets) as (H1 & H2 & H3 & H4 & H5).
    unfold up_build in Hp. destruct (ub_upload_source (foldl up_with (up_new name source chunk) sets)) as [path|bytes] eqn:Es.
    + destruct (metadata path) as [len|] eqn:Hm; [|done]. injection Hp as <-. cbn.
      destruct (Hmeta path len Hm). split_and!; try done; try lia.
    + injection Hp as <-. specialize (H5 _ eq_refl). cbn. split_and!; try done; try lia; [unfold fits; lia|].
      intros ? [= <-]. done.
Qed.

(** C33: whatever sequence of calls built a task, once it is not empty and was signed, the scheduler
    receives a task with a chunk size, a part window and retry counts in range; an upload has a
    source that is not empty and the signature of that source: of a file what opening and hashing
    it at the task's size gave, of bytes their own signature, with their number as the size; a
    download has no source and the signature the caller gave. *)
Theorem admitted_task_wellformed open_and_hash sign id du dd dc client (p : PounceTask U D C) t :
  built W p → pounce_is_empty p = false → from_pounce W open_and_hash sign id du dd dc client p = Ok t →
  task_ok W (pr_inner t)
  ∧ match direction (pr_inner t), pr_source t with
    | Upload, Some (SourceFile path) =>
        ∃ scratch, open_and_hash path (total_size (pr_inner t)) (chunk_size (pr_inner t)) = Ok (file_sign (pr_inner t), scratch)
    | Upload, Some (SourceBytes bytes) =>
        bytes ≠ [] ∧ total_size (pr_inner t) = Z.of_nat (length bytes) ∧ file_sign (pr_inner t) = sign bytes
    | Upload, None => False
    | Download, source => source = None ∧ file_sign (pr_inner t) = default EmptyString (p_client_file_sign p)
    end.
Proof.
  intros Hb He Hf. destruct (built_ok p Hb) as (H1 & H2 & H3 & H4 & H5 & H6 & H7).
  unfold pounce_is_empty in He. apply orb_false_iff in He as [[Hn%bool_decide_eq_false Hu%bool_decide_eq_false]%orb_false_iff Hd].
  unfold from_pounce in Hf. destruct (p_direction p) eqn:Edir.
  - destruct (proj1 H6 eq_refl) as [src Esrc]. rewrite Esrc in *. apply orb_false_iff in Hd as [Ht _]. zbool.
    destruct src as [path|bytes].
    + destruct (validate_chunk_size W (p_chunk_size p)); [|done].
      destruct (open_and_hash path (p_total_size p) (p_chunk_size p)) as [[sg scratch]|] eqn:Ho; [|done]. injection Hf as <-. cbn.
      split; [constructor; cbn; [done|done|done|done|done|intros _; unfold fits in H2; lia|done]|]. by exists scratch.
    + injection Hf as <-. cbn. specialize (H7 bytes eq_refl).
      split; [constructor; cbn; [done|done|done|done|done|intros _; unfold fits in H2; lia|done]|].
      split; [|done]. intros ->. done.
  - injection Hf as <-. cbn. apply bool_decide_eq_false in Hd.
    destruct (p_upload_source p) eqn:Esrc; [by pose proof (proj2 H6 ltac:(by eexists))|]. split; [by constructor|done].
Qed.

End Built.

Definition demo_up_sets : list (UpSetter unit) := [UWithUrl "https://h/o"; UWithMaxPartsInFlight 0; UWithMaxChunkRetries 0].
Definition demo_pounce (source : UploadSource) : PounceTask unit unit unit :=
  mkPounce Upload "a.bin" "a.bin" (Some source) 3 (1024 * 1024) "https://h/o" "POST" ∅ None None None None 0 3 1.
Definition demo_hash (path : string) (total chunk : Z) : result (string * Z) MeowError := Ok ("f-" +:+ path +:+ "-" +:+ pretty total, chunk).
Definition demo_sign (bytes : list Z) : string := "b-" +:+ pretty (Z.of_nat (length bytes)).

Lemma demo_built source : source = SourceFile "a.bin" ∨ source = SourceBytes [1; 2; 3] → built 64 (demo_pounce source).
Proof.
  intros Hs. apply (built_upload 64 "a.bin" source 0 demo_up_sets (λ _, Ok 3)).
  - by unfold fits.
  - intros bytes ->. by destruct Hs as [|[= ->]].
  - repeat constructor; by unfold fits.
  - by intros ? ? [= <-].
  - destruct Hs as [-> | ->]; reflexivity.
Qed.

(** An upload of a file and one of bytes, each with the signature of its source. *)
Lemma admitted_task_wellformed_witness :
  (∃ t scratch, from_pounce 64 demo_hash demo_sign 9 tt tt tt None (demo_pounce (SourceFile "a.bin")) = Ok t
    ∧ demo_hash "a.bin" 3 (1024 * 1024) = Ok (file_sign (pr_inner t), scratch))
  ∧ (∃ t, from_pounce 64 demo_hash demo_sign 9 tt tt tt None (demo_pounce (SourceBytes [1; 2; 3])) = Ok t
    ∧ 1 ≤ max_parts_in_flight (pr_inner t) ∧ file_sign (pr_inner t) = demo_sign [1; 2; 3]).
Proof.
  split.
  - destruct (admitted_task_wellformed 64 ltac:(lia) demo_hash demo_sign 9 tt tt tt None (demo_pounce (SourceFile "a.bin")) _
      (demo_built _ (or_introl eq_refl)) eq_refl eq_refl) as [_ (scratch & Hs)]. eexists _, scratch. split; [reflexivity|exact Hs].
  - destruct (admitted_task_wellformed 64 ltac:(lia) demo_hash demo_sign 9 tt tt tt None (demo_pounce (SourceBytes [1; 2; 3])) _
      (demo_built _ (or_intror eq_refl)) eq_refl eq_refl) as [[? ? [Hp _]] (_ & _ & Hs)].
    eexists. split; [reflexivity|]. split; [exact Hp|exact Hs].
Defined.

(** ** What a configuration is accepted for *)

Definition config_ok (c : MeowConfig) : Prop :=
  mc_max_upload_concurrency c ≠ 0 ∧ mc_max_download_concurrency c ≠ 0 ∧ mc_command_queue_capacity c ≠ 0
  ∧ mc_worker_event_queue_capacity c ≠ 0 ∧ mc_http_timeout c ≠ 0 ∧ mc_tcp_keepalive c ≠ 0
  ∧ ∀ b, mc_binary c = Some b → validate_binary_config b = Ok tt.

(** A configuration is accepted unchanged exactly when no limit, capacity or duration is zero and
    its in-memory download options are valid. *)
Lemma config_build_exact c c' : config_build c = Ok c' ↔ c' = c ∧ config_ok c.
Proof.
  unfold config_build, config_ok, validate_non_zero, validate_positive_duration.
  do 6 (match goal with |- context [?x =? 0] => destruct (Z.eqb_spec x 0); [split; [done|tauto]|] end).
  destruct (mc_binary c) as [b|].
  - destruct (validate_binary_config b) as [[]|e] eqn:Hb.
    + split; [intros [= <-]|by intros [-> _]]. split_and!; try done. by intros ? [= <-].
    + split; [done|]. intros (_ & _ & _ & _ & _ & _ & _ & H). specialize (H b eq_refl). congruence.
  - split; [intros [= <-]; by split_and!|by intros [-> _]].
Qed.
