(* ===== verification/LogRedact.v ===== *)
(** * Redaction of secrets in log text

    [src/log.rs]: what is removed from URLs and free text before they reach a log or an error
    message. Text is the list of its characters (Unicode scalar values). Some of the code walks
    over the bytes of the UTF-8 encoding; it only ever matches ASCII bytes, which occur in UTF-8
    only as the ASCII characters themselves, so that a walk over characters finds the same. *)
From S2P Require Import Prelude Errors HttpHeaders DownloadIdentity ProviderXml.
#[local] Open Scope Z_scope.

(** ** Characters *)

Definition is_ascii_alphanumeric (c : Z) : bool := in_range 48 57 c || in_range 65 90 c || in_range 97 122 c.
(** [char::is_whitespace] *)
Definition char_is_whitespace (c : Z) : bool :=
  in_range 9 13 c || in_range 8192 8202 c || bool_decide (c ∈ [32; 133; 160; 5760; 8232; 8233; 8239; 8287; 12288]).
Definition lower (l : list Z) : list Z := map to_ascii_lowercase l.

Fixpoint take_while {A} (p : A → bool) (l : list A) : list A :=
  match l with [] => [] | x :: r => if p x then x :: take_while p r else [] end.

Definition ends_with (p l : list Z) : bool := bool_decide (is_Some (strip_suffix p l)).

(** [str::find] and [str::rfind] *)
Fixpoint find_sub (p l : list Z) : option nat :=
  if starts_with p l then Some 0%nat
  else match l with [] => None | _ :: r => S <$> find_sub p r end.
Fixpoint rfind_sub (p l : list Z) : option nat :=
  match l with
  | [] => if starts_with p l then Some 0%nat else None
  | _ :: r =>
      match rfind_sub p r with
      | Some at_ => Some (S at_)
      | None => if starts_with p l then Some 0%nat else None
      end
  end.

(** [char::encode_utf8] and [String::from_utf8] *)
Definition utf8_encode (c : Z) : list Z :=
  if c <=? 127 then [c]
  else if c <=? 2047 then [192 + c / 64; 128 + c mod 64]
  else if c <=? 65535 then [224 + c / 4096; 128 + c / 64 mod 64; 128 + c mod 64]
  else [240 + c / 262144; 128 + c / 4096 mod 64; 128 + c / 64 mod 64; 128 + c mod 64].
Fixpoint utf8_chars (l : list Z) : list Z :=
  match l with
  | [] => []
  | a :: r =>
      if a <=? 127 then a :: utf8_chars r
      else
        match r with
        | b :: r1 =>
            if a <=? 223 then ((a - 192) * 64 + (b - 128)) :: utf8_chars r1
            else
              match r1 with
              | c :: r2 =>
                  if a <=? 239 then ((a - 224) * 4096 + (b - 128) * 64 + (c - 128)) :: utf8_chars r2
                  else
                    match r2 with
                    | d :: r3 => ((a - 240) * 262144 + (b - 128) * 4096 + (c - 128) * 64 + (d - 128)) :: utf8_chars r3
                    | [] => []
                    end
              | [] => []
              end
        | [] => []
        end
  end.
Definition string_from_utf8 (l : list Z) : option (list Z) := if is_utf8 l then Some (utf8_chars l) else None.

(** ** Names of secrets *)

Definition EXACT : list string :=
  ["sig"; "signature"; "authorization"; "x-oss-signature"; "ossaccesskeyid"; "awsaccesskeyid"; "googleaccessid";
   "x-oss-credential"; "x-oss-security-token"; "security-token"; "x-amz-signature"; "x-amz-credential";
   "x-amz-security-token"].
Definition EXACT_COMPACT : list string :=
  ["accesstoken"; "refreshtoken"; "sessiontoken"; "securitytoken"; "clientsecret"; "accesskey"; "accesskeyid";
   "secretaccesskey"; "apikey"].
Definition COMPACT_SUFFIXES : list string :=
  ["sig"; "signature"; "credential"; "token"; "secret"; "password"; "accesskey"; "apikey"].
Definition COMPONENTS : list string := ["sig"; "signature"; "credential"; "token"; "secret"; "password"; "accesskey"].

Definition is_one_of (names : list string) (k : list Z) : bool := existsb (λ n, bool_decide (k = bs n)) names.

(** [str::split] where a character is not alphanumeric. *)
Fixpoint split_components (l : list Z) : list (list Z) :=
  match l with
  | [] => [[]]
  | c :: r =>
      if negb (is_ascii_alphanumeric c) then [] :: split_components r
      else match split_components r with s :: rest => (c :: s) :: rest | [] => [[c]] end
  end.

Definition is_sensitive_param (key : list Z) : bool :=
  let k := lower (trim_by char_is_whitespace key) in
  is_one_of EXACT k || is_one_of EXACT_COMPACT k
  || existsb (λ suffix, (length (bs suffix) <? length k)%nat && ends_with (bs suffix) k) COMPACT_SUFFIXES
  || existsb (is_one_of COMPONENTS) (split_components k).

Definition hex_value (b : Z) : option Z :=
  if in_range 48 57 b then Some (b - 48)
  else if in_range 97 102 b then Some (b - 97 + 10)
  else if in_range 65 70 b then Some (b - 65 + 10)
  else None.

Fixpoint decode_query_loop (input : list Z) : option (list Z) :=
  match input with
  | [] => Some []
  | b :: r =>
      if b =? 37 then
        match r with
        | h :: l :: r =>
            high ← hex_value h; low ← hex_value l; rest ← decode_query_loop r; Some (high * 16 + low :: rest)
        | _ => None
        end
      else rest ← decode_query_loop r; Some ((if b =? 43 then 32 else b) :: rest)
  end.
Definition decode_query_key (raw : list Z) : option (list Z) :=
  decoded ← decode_query_loop (concat (map utf8_encode raw)); string_from_utf8 decoded.

Definition is_sensitive_raw_query_key (raw : list Z) : bool :=
  is_sensitive_param raw
  || match decode_query_key raw with
     | None => false
     | Some decoded_once =>
         is_sensitive_param decoded_once
         || match decode_query_key decoded_once with Some decoded => is_sensitive_param decoded | None => false end
     end.

Definition REDACTED : list Z := bs "REDACTED".

(** ** Percent-encoded assignments *)

(** The length of the first pattern the text starts with, ignoring case. *)
Fixpoint first_len (patterns : list string) (l : list Z) : option nat :=
  match patterns with
  | [] => None
  | p :: patterns =>
      if eq_ignore_ascii_case (take (length (bs p)) l) (bs p) then Some (length (bs p)) else first_len patterns l
  end.

Definition percent_assignment_separator_len : list Z → option nat := first_len ["%253D"; "%253A"; "%3D"; "%3A"].
Definition percent_value_delimiter_len : list Z → option nat := first_len ["%2526"; "%253B"; "%252C"; "%26"; "%3B"; "%2C"].
Definition encoded_boundaries : list string := ["%2526"; "%253b"; "%252f"; "%253f"; "%2523"; "%26"; "%3b"].

Definition is_back_key_char (c : Z) : bool := is_ascii_alphanumeric c || bool_decide (c ∈ [95; 45; 46; 37]).
Definition is_hard_delim (c : Z) : bool := bool_decide (c ∈ [38; 34; 39; 44; 59; 41; 125; 93; 60; 62; 124]).

Fixpoint percent_value_len (l : list Z) : nat :=
  match l with
  | [] => 0
  | c :: r =>
      if is_ascii_whitespace c || is_hard_delim c || bool_decide (is_Some (percent_value_delimiter_len l)) then 0
      else S (percent_value_len r)
  end.

(** The key before a separator at [at_]: the longest run of key characters, cut at the last
    encoded delimiter. *)
Definition percent_key (text : list Z) (at_ : nat) : list Z :=
  let candidate := reverse (take_while is_back_key_char (reverse (take at_ text))) in
  let boundary :=
    foldr (λ d m, match rfind_sub (bs d) (lower candidate) with Some rel => Nat.max (rel + length (bs d)) m | None => m end)
      0%nat encoded_boundaries in
  drop boundary candidate.

Definition char_range (text : list Z) (from to : nat) : list Z := take (to - from) (drop from text).

Fixpoint percent_loop (fuel : nat) (text : list Z) (at_ copied_until : nat) (output : list Z) : list Z :=
  match fuel with
  | O => output ++ drop copied_until text
  | S fuel =>
      if (length text <=? at_)%nat then output ++ drop copied_until text
      else
        match percent_assignment_separator_len (drop at_ text) with
        | None => percent_loop fuel text (S at_) copied_until output
        | Some separator_len =>
            if negb (is_sensitive_raw_query_key (percent_key text at_)) then
              percent_loop fuel text (at_ + separator_len) copied_until output
            else
              let value_start := (at_ + separator_len)%nat in
              let value_end := (value_start + percent_value_len (drop value_start text))%nat in
              percent_loop fuel text value_end value_end (output ++ char_range text copied_until value_start ++ REDACTED)
        end
  end.
Definition redact_percent_encoded_assignments (text : list Z) : list Z := percent_loop (length text) text 0 0 [].

(** ** XML elements *)

Definition is_name_char (c : Z) : bool := is_ascii_alphanumeric c || bool_decide (c ∈ [95; 45; 46; 58]).
(** What follows the last colon. *)
Definition local_name (tag : list Z) : list Z := default tag (last (split_at 58 tag)).

Fixpoint xml_secret_loop (fuel : nat) (text : list Z) (search_from copied_until : nat) (output : list Z) : list Z :=
  match fuel with
  | O => output ++ drop copied_until text
  | S fuel =>
      match find_sub (bs "<") (drop search_from text) with
      | None => output ++ drop copied_until text
      | Some relative_open =>
          let name_start := S (search_from + relative_open) in
          match text !! name_start with
          | None => output ++ drop copied_until text
          | Some first =>
              if bool_decide (first ∈ [47; 33; 63]) then xml_secret_loop fuel text name_start copied_until output
              else
                let tag_name := take_while is_name_char (drop name_start text) in
                let name_end := (name_start + length tag_name)%nat in
                if negb (is_sensitive_param (local_name tag_name)) then xml_secret_loop fuel text name_end copied_until output
                else
                  match find_sub (bs ">") (drop name_end text) with
                  | None => output ++ drop copied_until text
                  | Some relative_open_end =>
                      let open_end := (name_end + relative_open_end)%nat in
                      if bool_decide (text !! pred open_end = Some 47) then
                        xml_secret_loop fuel text (S open_end) copied_until output
                      else
                        let closing := bs "</" ++ lower tag_name ++ bs ">" in
                        let content_start := S open_end in
                        match find_sub closing (lower (drop content_start text)) with
                        | None => output ++ char_range text copied_until content_start ++ REDACTED
                        | Some relative_close =>
                            let close := (content_start + relative_close)%nat in
                            xml_secret_loop fuel text (close + length closing) close
                              (output ++ char_range text copied_until content_start ++ REDACTED)
                        end
                  end
          end
      end
  end.
Definition redact_xml_secret_elements (text : list Z) : list Z := xml_secret_loop (S (length text)) text 0 0 [].

(** ** Assignments and headers *)

Definition is_token_char (c : Z) : bool := is_ascii_alphanumeric c || (c =? 95) || (c =? 45).
Definition is_assignment_key_char (c : Z) : bool := is_token_char c || (c =? 37).
Definition is_unquoted_value_delim (c : Z) : bool := char_is_whitespace c || is_hard_delim c.
Definition is_authorization_value_delim (c : Z) : bool := bool_decide (c ∈ [13; 10; 59; 41; 125; 93; 60; 62; 124]).
Definition is_quote (c : Z) : bool := (c =? 34) || (c =? 39).
Definition is_separator (c : Z) : bool := (c =? 58) || (c =? 61).

Definition whitespace_len (l : list Z) : nat := length (take_while char_is_whitespace l).
Definition at_is (p : Z → bool) (chars : list Z) (i : nat) : bool := match chars !! i with Some c => p c | None => false end.

(** How far a quoted value reaches, and whether its quote is closed. *)
Fixpoint skip_quoted_value (quote : Z) (escaped : bool) (l : list Z) : nat * bool :=
  match l with
  | [] => (0%nat, false)
  | c :: r =>
      if (c =? quote) && negb escaped then (0%nat, true)
      else let '(n, closed) := skip_quoted_value quote (if c =? 92 then negb escaped else false) r in (S n, closed)
  end.

Definition bearer_value_start (chars : list Z) (at_ : nat) : option nat :=
  let end_ := (at_ + 6)%nat in
  if (length chars <? end_)%nat || ((0 <? at_)%nat && at_is is_token_char chars (pred at_))
     || negb (eq_ignore_ascii_case (char_range chars at_ end_) (bs "bearer")) then None
  else
    let value_start :=
      if at_is char_is_whitespace chars end_ then Some (end_ + whitespace_len (drop end_ chars))%nat
      else if eq_ignore_ascii_case (char_range chars end_ (end_ + 3)) (bs "%20") then Some (end_ + 3)%nat
      else None in
    value_start ← value_start; if (value_start <? length chars)%nat then Some value_start else None.

(** The separator after a key that ends at [end_] and starts at [at_]: past its closing quote, if
    it is quoted, and past white space. *)
Definition separator_at (chars : list Z) (at_ end_ : nat) : nat :=
  let separator :=
    if at_is is_quote chars end_ && (0 <? at_)%nat && bool_decide (chars !! pred at_ = chars !! end_) then S end_ else end_ in
  (separator + whitespace_len (drop separator chars))%nat.
(** The value after a separator. *)
Definition value_at (chars : list Z) (separator : nat) : nat := (S separator + whitespace_len (drop (S separator) chars))%nat.

Definition authorization_value_start (chars : list Z) (at_ : nat) : option nat :=
  let end_ := (at_ + 13)%nat in
  if (length chars <? end_)%nat || ((0 <? at_)%nat && at_is is_assignment_key_char chars (pred at_))
     || negb (eq_ignore_ascii_case (char_range chars at_ end_) (bs "authorization")) then None
  else
    let separator := separator_at chars at_ end_ in
    if negb (at_is is_separator chars separator) then None
    else
      let value_start := value_at chars separator in
      if (value_start <? length chars)%nat then Some value_start else None.

(** A value is dropped: what is copied of [from..value], and where the text goes on. *)
Definition drop_value (delim : Z → bool) (chars : list Z) (from value_start : nat) : list Z * nat :=
  if at_is is_quote chars value_start then
    let quote := default 0 (chars !! value_start) in
    let '(n, closed) := skip_quoted_value quote false (drop (S value_start) chars) in
    (char_range chars from (S value_start) ++ REDACTED ++ (if closed then [quote] else []),
     (S value_start + n + (if closed then 1 else 0))%nat)
  else (char_range chars from value_start ++ REDACTED, (value_start + length (take_while (λ c, negb (delim c)) (drop value_start chars)))%nat).

Fixpoint redact_loop (fuel : nat) (chars : list Z) (at_ : nat) (out : list Z) : list Z :=
  match fuel with
  | O => out
  | S fuel =>
      match chars !! at_ with
      | None => out
      | Some c =>
          match authorization_value_start chars at_ with
          | Some value_start =>
              let '(copied, next) := drop_value is_authorization_value_delim chars at_ value_start in
              redact_loop fuel chars next (out ++ copied)
          | None =>
              match bearer_value_start chars at_ with
              | Some value_start =>
                  redact_loop fuel chars
                    (value_start + length (take_while (λ c, negb (is_unquoted_value_delim c)) (drop value_start chars)))
                    (out ++ char_range chars at_ value_start ++ REDACTED)
              | None =>
                  if is_assignment_key_char c && ((at_ =? 0)%nat || negb (at_is is_assignment_key_char chars (pred at_))) then
                    let key := take_while is_assignment_key_char (drop at_ chars) in
                    let key_end := (at_ + length key)%nat in
                    let separator := separator_at chars at_ key_end in
                    if is_sensitive_raw_query_key key && at_is is_separator chars separator then
                      let '(copied, next) := drop_value is_unquoted_value_delim chars at_ (value_at chars separator) in
                      redact_loop fuel chars next (out ++ copied)
                    else redact_loop fuel chars key_end (out ++ key)
                  else redact_loop fuel chars (S at_) (out ++ [c])
              end
          end
      end
  end.

Definition redact_assignments (chars : list Z) : list Z := redact_loop (length chars) chars 0 [].
Definition redact_secrets (text : list Z) : list Z :=
  redact_assignments (redact_xml_secret_elements (redact_percent_encoded_assignments text)).

(** ** URLs *)

Definition redact_url_userinfo (base : list Z) : list Z :=
  let authority_start :=
    match find_sub (bs "://") base with
    | Some at_ => Some (at_ + 3)%nat
    | None => if starts_with (bs "//") base then Some 2%nat else None
    end in
  match authority_start with
  | None => base
  | Some start =>
      let rest := drop start base in
      let authority := match find_sub (bs "/") rest with Some rel => take rel rest | None => rest end in
      match rfind_sub (bs "@") authority with
      | None => base
      | Some userinfo_end => take start base ++ REDACTED ++ drop (start + userinfo_end) base
      end
  end.

Definition sanitize_pair (pair : list Z) : list Z :=
  match split_once 61 pair with
  | Some (k, _) => if is_sensitive_raw_query_key k then k ++ bs "=REDACTED" else pair
  | None => if is_sensitive_raw_query_key pair then pair ++ bs "=REDACTED" else pair
  end.

(** [join]: the parts with a separator between them. *)
Fixpoint join_with (c : Z) (parts : list (list Z)) : list Z :=
  match parts with
  | [] => []
  | [p] => p
  | p :: parts => p ++ c :: join_with c parts
  end.
Definition join_amp : list (list Z) → list Z := join_with 38.

Definition sanitize_url (url : list Z) : list Z :=
  let '(without_fragment, fragment) :=
    match split_once 35 url with Some (b, f) => (b, Some f) | None => (url, None) end in
  let tail := match fragment with Some f => 35 :: redact_secrets f | None => [] end in
  match split_once 63 without_fragment with
  | None => redact_secrets (redact_url_userinfo without_fragment) ++ tail
  | Some (base, query) =>
      redact_secrets (redact_url_userinfo base) ++ 63 :: join_amp (map sanitize_pair (split_at 38 query)) ++ tail
  end.

Example sanitize_signed :
  sanitize_url (bs "https://u:p@h.net/c/b?sv=2021&se=2030&Sig=AbC%2Bsecret#token=abc;x")
  = bs "https://REDACTED@h.net/c/b?sv=2021&se=2030&Sig=REDACTED#token=REDACTED;x".
Proof. vm_compute. reflexivity. Qed.
Example redact_texts :
  map redact_secrets [bs "error: GET https://h/o?sv=2021&sig=AbC%2Bsecret failed"; bs "Authorization: Bearer a.b/c; x";
    bs "x sig%3Dabc%26y <Token>abc</Token> ok"; bs "Secret='a\'b' z"]
  = [bs "error: GET https://h/o?sv=2021&sig=REDACTED failed"; bs "Authorization: REDACTED; x";
     bs "x sig%3DREDACTED%26y <Token>REDACTED</Token> ok"; bs "Secret='REDACTED' z"].
Proof. vm_compute. reflexivity. Qed.
