(* ===== verification/LogRedactProps.v ===== *)
(** * Secrets do not reach the log

    Non-interference of the redaction of [LogRedact]: what [sanitize_url] returns does not depend on
    the user information of a URL or on the values of its secret query parameters, what
    [redact_secrets] returns does not depend on the value of a secret assignment, and text without
    secrets is returned unchanged. *)
From S2P Require Import Prelude Errors HttpHeaders DownloadIdentity ProviderXml LogRedact.
#[local] Open Scope Z_scope.

(** ** The loop makes progress *)

Lemma auth_start_gt chars i v : authorization_value_start chars i = Some v → (i < v)%nat.
Proof.
  unfold authorization_value_start. destruct (_ || _); [done|]. destruct (negb _); [done|].
  destruct (_ <? _)%nat; [|done]. intros [= <-]. unfold value_at, separator_at. destruct (_ && _); lia.
Qed.
Lemma bearer_start_gt chars i v : bearer_value_start chars i = Some v → (i < v)%nat.
Proof.
  unfold bearer_value_start. destruct (_ || _); [done|]. destruct (at_is char_is_whitespace chars (i + 6)).
  - cbn [mbind option_bind]. destruct (_ <? _)%nat; [|done]. intros [= <-]. lia.
  - destruct (eq_ignore_ascii_case _ _); [|done]. cbn [mbind option_bind]. destruct (_ <? _)%nat; [|done]. intros [= <-]. lia.
Qed.
Lemma drop_value_ge delim chars from v : (v ≤ (drop_value delim chars from v).2)%nat.
Proof. unfold drop_value. destruct (at_is is_quote chars v); [destruct (skip_quoted_value _ _ _) as [n []]|]; cbn; lia. Qed.

Lemma key_run_nonempty chars i c :
  chars !! i = Some c → is_assignment_key_char c = true → (0 < length (take_while is_assignment_key_char (drop i chars)))%nat.
Proof. intros Hc Hk. rewrite (drop_S chars c i Hc). cbn [take_while]. rewrite Hk. simpl. lia. Qed.

(** Every round of the loop moves on, so that it ends within the length of the text. *)
Lemma redact_loop_fuel n m chars i out :
  (length chars - i ≤ n)%nat → (length chars - i ≤ m)%nat → redact_loop n chars i out = redact_loop m chars i out.
Proof.
  revert m i out. induction n as [|n IH]; intros m i out Hn Hm.
  - assert (chars !! i = None) as Hi by (apply lookup_ge_None; lia). destruct m; cbn [redact_loop]; [done|]. by rewrite Hi.
  - destruct (chars !! i) as [c|] eqn:Hi; [|destruct m; cbn [redact_loop]; by rewrite ?Hi].
    pose proof (lookup_lt_Some _ _ _ Hi). destruct m as [|m]; [lia|]. cbn [redact_loop]. rewrite Hi.
    destruct (authorization_value_start chars i) as [v|] eqn:Ha.
    { pose proof (auth_start_gt _ _ _ Ha). pose proof (drop_value_ge is_authorization_value_delim chars i v).
      destruct (drop_value _ _ _ _) as [copied next]. cbn in *. apply IH; lia. }
    destruct (bearer_value_start chars i) as [v|] eqn:Hb.
    { pose proof (bearer_start_gt _ _ _ Hb). apply IH; lia. }
    destruct (is_assignment_key_char c && _) eqn:Hk; [|apply IH; lia].
    apply andb_true_iff in Hk as [Hk _]. pose proof (key_run_nonempty chars i c Hi Hk) as Hlen.
    set (key := take_while is_assignment_key_char (drop i chars)) in *. destruct (_ && _); [|apply IH; lia].
    set (sep := separator_at chars i (i + length key)).
    assert (i < value_at chars sep)%nat as Hgt by (unfold sep, value_at, separator_at; destruct (_ && _); lia).
    pose proof (drop_value_ge is_unquoted_value_delim chars i (value_at chars sep)).
    destruct (drop_value _ _ _ _) as [copied next]. cbn in *. apply IH; lia.
Qed.

(** So do the passes before it. *)
Lemma first_len_pos patterns l n : Forall (λ p, p ≠ EmptyString) patterns → first_len patterns l = Some n → (0 < n)%nat.
Proof.
  induction 1 as [|p patterns Hp _ IH]; [done|]. cbn [first_len]. destruct (eq_ignore_ascii_case _ _); [|done].
  intros [= <-]. destruct p; [done|cbn; lia].
Qed.
Lemma percent_loop_fuel n m text i copied out :
  (length text - i ≤ n)%nat → (length text - i ≤ m)%nat → percent_loop n text i copied out = percent_loop m text i copied out.
Proof.
  revert m i copied out. induction n as [|n IH]; intros m i copied out Hn Hm.
  - destruct m; cbn [percent_loop]; [done|]. by rewrite (proj2 (Nat.leb_le (length text) i)) by lia.
  - cbn [percent_loop]. destruct m as [|m]; cbn [percent_loop]; [by rewrite (proj2 (Nat.leb_le (length text) i)) by lia|].
    destruct (Nat.leb_spec (length text) i); [done|].
    destruct (percent_assignment_separator_len (drop i text)) as [len|] eqn:Hs; [|apply IH; lia].
    apply first_len_pos in Hs; [|by repeat constructor]. destruct (negb _); apply IH; lia.
Qed.
Lemma find_sub_lt b l n : find_sub [b] l = Some n → (n < length l)%nat.
Proof.
  revert n. induction l as [|c l IH]; intros n; [done|]. cbn [find_sub]. destruct (starts_with [b] (c :: l)); [intros [= <-]; simpl; lia|].
  destruct (find_sub [b] l) as [k|]; [|done]. intros [= <-]. specialize (IH k eq_refl). simpl. lia.
Qed.
Lemma xml_loop_fuel n m text i copied out :
  (length text - i < n)%nat → (length text - i < m)%nat → xml_secret_loop n text i copied out = xml_secret_loop m text i copied out.
Proof.
  revert m i copied out. induction n as [|n IH]; intros m i copied out Hn Hm; [lia|]. destruct m as [|m]; [lia|]. cbn [xml_secret_loop].
  change (bs "<") with [60]. destruct (find_sub [60] (drop i text)) as [rel|] eqn:Hf; [|done]. apply find_sub_lt in Hf. rewrite length_drop in Hf.
  destruct (text !! S (i + rel)) as [first|]; [|done]. destruct (bool_decide _); [apply IH; lia|].
  destruct (negb _); [apply IH; lia|]. destruct (find_sub (bs ">") _) as [re|]; [|done]. destruct (bool_decide _); [apply IH; lia|].
  destruct (find_sub (bs "</" ++ _) _) as [rc|]; [apply IH; lia|done].
Qed.

(** ** The loop looks back one character *)

Lemma at_is_app p q l i : at_is p (q ++ l) (length q + i) = at_is p l i.
Proof. unfold at_is. by rewrite lookup_app_r, Nat.add_sub' by lia. Qed.
Lemma char_range_app q l i j : char_range (q ++ l) (length q + i) (length q + j) = char_range l i j.
Proof. unfold char_range. rewrite drop_app_add. replace (length q + j - (length q + i))%nat with (j - i)%nat by lia. done. Qed.
Lemma drop_app_shift (q l : list Z) i : drop (length q + i) (q ++ l) = drop i l.
Proof. apply drop_app_add. Qed.
Lemma pred_shift (q : list Z) i : (0 < i)%nat → pred (length q + i) = (length q + pred i)%nat.
Proof. lia. Qed.
Lemma ltb_shift (q : list Z) i j : (length q + i <? length q + j)%nat = (i <? j)%nat.
Proof. destruct (Nat.ltb_spec i j), (Nat.ltb_spec (length q + i) (length q + j)); lia || done. Qed.
Lemma pos_shift (q : list Z) i : (0 < i)%nat → (0 <? length q + i)%nat = (0 <? i)%nat.
Proof. intros H. destruct (Nat.ltb_spec 0 i), (Nat.ltb_spec 0 (length q + i)); lia || done. Qed.

Lemma separator_shift q l i e :
  (0 < i)%nat → separator_at (q ++ l) (length q + i) (length q + e) = (length q + separator_at l i e)%nat.
Proof.
  intros Hi. unfold separator_at. rewrite at_is_app, pos_shift, pred_shift by done.
  assert (∀ n, (q ++ l) !! (length q + n)%nat = l !! n) as Hl by (intros; by rewrite lookup_app_r, Nat.add_sub' by lia).
  rewrite !Hl. destruct (_ && _).
  - rewrite <- Nat.add_succ_r, drop_app_shift. lia.
  - rewrite drop_app_shift. lia.
Qed.
Lemma value_shift q l s : value_at (q ++ l) (length q + s) = (length q + value_at l s)%nat.
Proof. unfold value_at. rewrite <- Nat.add_succ_r, drop_app_shift. lia. Qed.

Lemma auth_shift q l i :
  (0 < i)%nat → authorization_value_start (q ++ l) (length q + i) = (λ v, (length q + v)%nat) <$> authorization_value_start l i.
Proof.
  intros Hi. unfold authorization_value_start. rewrite <- Nat.add_assoc, length_app, ltb_shift, pos_shift, pred_shift, at_is_app by done.
  rewrite char_range_app. destruct (_ || _); [done|]. rewrite separator_shift, at_is_app by done. destruct (negb _); [done|].
  rewrite value_shift, ltb_shift. by destruct (_ <? _)%nat.
Qed.
Lemma bearer_shift q l i :
  (0 < i)%nat → bearer_value_start (q ++ l) (length q + i) = (λ v, (length q + v)%nat) <$> bearer_value_start l i.
Proof.
  intros Hi. unfold bearer_value_start. rewrite <- !Nat.add_assoc, length_app, ltb_shift, pos_shift, pred_shift, at_is_app by done.
  rewrite char_range_app. destruct (_ || _); [done|]. rewrite at_is_app, !char_range_app, drop_app_shift.
  destruct (at_is char_is_whitespace l (i + 6)).
  - cbn [mbind option_bind]. rewrite !Nat.add_assoc, <- !(Nat.add_assoc (length q)), ltb_shift. by destruct (_ <? _)%nat.
  - destruct (eq_ignore_ascii_case _ _); [|done]. cbn [mbind option_bind]. rewrite !Nat.add_assoc, <- !(Nat.add_assoc (length q)), ltb_shift.
    by destruct (_ <? _)%nat.
Qed.
Lemma drop_value_shift delim q l i v :
  drop_value delim (q ++ l) (length q + i) (length q + v)
  = ((drop_value delim l i v).1, (length q + (drop_value delim l i v).2)%nat).
Proof.
  unfold drop_value. rewrite at_is_app. destruct (at_is is_quote l v).
  - rewrite lookup_app_r, Nat.add_sub' by lia. rewrite <- Nat.add_succ_r, drop_app_shift, char_range_app.
    destruct (skip_quoted_value _ _ _) as [n closed]. cbn [fst snd]. f_equal. lia.
  - rewrite char_range_app, drop_app_shift. cbn [fst snd]. f_equal. lia.
Qed.

(** From its second character on, the text before a suffix no longer matters. *)
Lemma redact_loop_shift n q l i out : (0 < i)%nat → redact_loop n (q ++ l) (length q + i) out = redact_loop n l i out.
Proof.
  revert i out. induction n as [|n IH]; intros i out Hi; [done|]. cbn [redact_loop].
  rewrite lookup_app_r, Nat.add_sub' by lia. destruct (l !! i) as [c|] eqn:Hc; [|done].
  rewrite auth_shift, bearer_shift by done. destruct (authorization_value_start l i) as [v|] eqn:Ha; cbn [fmap option_fmap option_map].
  { rewrite drop_value_shift. pose proof (auth_start_gt _ _ _ Ha). pose proof (drop_value_ge is_authorization_value_delim l i v).
    destruct (drop_value _ l i v) as [copied next]. cbn in *. apply IH. lia. }
  destruct (bearer_value_start l i) as [v|] eqn:Hb; cbn [fmap option_fmap option_map].
  { pose proof (bearer_start_gt _ _ _ Hb). rewrite drop_app_shift, char_range_app, <- Nat.add_assoc. apply IH. lia. }
  rewrite pred_shift, at_is_app, drop_app_shift by done.
  replace (length q + i =? 0)%nat with (i =? 0)%nat by (destruct i; [lia|rewrite Nat.add_succ_r; done]).
  destruct (is_assignment_key_char c && _); [|rewrite <- Nat.add_succ_r; apply IH; lia].
  set (key := take_while is_assignment_key_char (drop i l)). rewrite <- Nat.add_assoc, separator_shift, at_is_app by done.
  destruct (_ && _); [|apply IH; lia]. rewrite value_shift, drop_value_shift.
  assert (i < value_at l (separator_at l i (i + length key)))%nat as Hgt by (unfold value_at, separator_at; destruct (_ && _); lia).
  pose proof (drop_value_ge is_unquoted_value_delim l i (value_at l (separator_at l i (i + length key)))).
  destruct (drop_value _ l i _) as [copied next]. cbn in *. apply IH. lia.
Qed.

(** ** Text without secrets passes *)

Lemma redact_loop_out n chars i out : redact_loop n chars i out = out ++ redact_loop n chars i [].
Proof.
  revert i out. induction n as [|n IH]; intros i out; cbn [redact_loop]; [by rewrite app_nil_r|].
  destruct (chars !! i); [|by rewrite app_nil_r].
  destruct (authorization_value_start chars i); [destruct (drop_value _ _ _ _)|destruct (bearer_value_start chars i);
    [|destruct (_ && _); [destruct (_ && _); [destruct (drop_value _ _ _ _)|]|]]];
    rewrite IH; symmetry; rewrite IH; by rewrite (assoc_L (++)).
Qed.

(** A word of lower-case letters. *)
Definition letters (w : list Z) : Prop := Forall (λ b, 97 ≤ b ≤ 122) w.

Lemma letters_dec w : forallb (λ b, (97 <=? b) && (b <=? 122)) w = true → letters w.
Proof. intros H. apply Forall_forall. intros b Hb. eapply forallb_forall in H; [|by apply elem_of_list_In, Hb || by apply list_elem_of_In, Hb]. zbool. lia. Qed.

Lemma lower_letter_key c b : to_ascii_lowercase c = b → 97 ≤ b ≤ 122 → is_assignment_key_char c = true.
Proof.
  unfold to_ascii_lowercase, is_assignment_key_char, is_token_char, is_ascii_alphanumeric, in_range. intros <-.
  destruct ((65 <=? c) && (c <=? 90)) eqn:E; intros H; [by rewrite (orb_comm (_ && _) true) || (rewrite orb_true_r; done)|].
  replace ((97 <=? c) && (c <=? 122)) with true; [by rewrite !orb_true_r|]. symmetry. apply andb_true_iff. split; apply Z.leb_le; lia.
Qed.

Lemma eq_word_keys l w : letters w → eq_ignore_ascii_case l w = true → Forall (λ c, is_assignment_key_char c = true) l ∧ length l = length w.
Proof.
  intros Hw H. apply bool_decide_eq_true in H.
  assert (map to_ascii_lowercase w = w) as Hlow.
  { clear H. induction Hw as [|b w Hb Hw IH]; [done|]. cbn [map]. rewrite IH. f_equal. unfold to_ascii_lowercase.
    destruct ((65 <=? b) && (b <=? 90)) eqn:E; [|done]. zbool. lia. }
  rewrite Hlow in H. split; [|apply (f_equal length) in H; by rewrite length_map in H]. clear Hlow. subst w.
  induction l as [|c l IH]; [constructor|]. apply Forall_cons in Hw as [Hc Hw]. constructor; [by eapply lower_letter_key|by apply IH].
Qed.

(** A word does not reach across a character that is none of its own. *)
Lemma no_word_across w p c l i :
  letters w → is_assignment_key_char c = false → (i ≤ length p)%nat → (length p < i + length w)%nat →
  eq_ignore_ascii_case (char_range (p ++ c :: l) i (i + length w)) w = false.
Proof.
  intros Hw Hc Hi Hlt. destruct (eq_ignore_ascii_case _ _) eqn:E; [|done]. apply eq_word_keys in E as [Hk _]; [|done].
  exfalso. unfold char_range in Hk. rewrite drop_app_le in Hk by done.
  assert (take (i + length w - i) (drop i p ++ c :: l) !! (length p - i)%nat = Some c) as Hin.
  { rewrite lookup_take_lt by lia. rewrite lookup_app_r by (rewrite length_drop; lia). rewrite length_drop.
    by replace (length p - i - (length p - i))%nat with 0%nat by lia. }
  rewrite Forall_lookup in Hk. specialize (Hk _ _ Hin). cbn in Hk. congruence.
Qed.

Definition no_word (w l : list Z) : Prop := ∀ i, eq_ignore_ascii_case (char_range l i (i + length w)) w = false.

(** What a text may have before a secret. *)
Record plain_before (pre : list Z) : Prop := mkPlain {
  pb_end : ∀ c, last pre = Some c → is_assignment_key_char c = false;
  pb_auth : no_word (bs "authorization") pre;
  pb_bearer : no_word (bs "bearer") pre;
  pb_keys : ∀ i, (i = 0%nat ∨ at_is is_assignment_key_char pre (pred i) = false) →
              is_sensitive_raw_query_key (take_while is_assignment_key_char (drop i pre)) = false;
}.

Lemma word_in_prefix w pre suf i :
  letters w → (0 < length w)%nat → no_word w pre → (∀ c, last pre = Some c → is_assignment_key_char c = false) → (i < length pre)%nat →
  eq_ignore_ascii_case (char_range (pre ++ suf) i (i + length w)) w = false.
Proof.
  intros Hw Hw0 Hno Hend Hi. destruct (decide (i + length w ≤ length pre)%nat) as [Hle|Hgt].
  - rewrite <- (Hno i). f_equal. unfold char_range. rewrite drop_app_le by lia. rewrite take_app_le; [done|rewrite length_drop; lia].
  - destruct (exists_last (l := pre)) as (p & c & ->); [intros ->; simpl in Hi; lia|]. rewrite <- (assoc_L (++)).
    rewrite length_app in *. simpl in *. apply no_word_across; [done| |lia|lia]. apply Hend. by rewrite last_snoc.
Qed.

Lemma take_while_app_stop {A} (p : A → bool) l k c r :
  Forall (λ x, p x = true) l → p c = false → k = c :: r → take_while p (l ++ k) = l.
Proof. intros Hl Hc ->. induction Hl as [|x l Hx Hl IH]; cbn; [by rewrite Hc|by rewrite Hx, IH]. Qed.

Lemma take_while_prefix {A} (p : A → bool) l k :
  (∀ c, last l = Some c → p c = false) → l ≠ [] → take_while p (l ++ k) = take_while p l.
Proof.
  intros Hend. induction l as [|x l IH]; [done|]. intros _. cbn. destruct (p x) eqn:E; [|done]. f_equal.
  destruct l as [|y l]; [exfalso; specialize (Hend x eq_refl); congruence|]. apply IH; [|done]. intros c Hc. apply Hend. by rewrite last_cons_cons.
Qed.

Lemma take_while_take {A} (p : A → bool) (l : list A) : take_while p l ++ drop (length (take_while p l)) l = l.
Proof. induction l as [|x l IH]; [done|]. cbn. destruct (p x); [|done]. cbn. by rewrite IH. Qed.

Lemma redact_pass pre suf n i out :
  plain_before pre → (i ≤ length pre)%nat → (length (pre ++ suf) - i ≤ n)%nat →
  redact_loop n (pre ++ suf) i out = redact_loop n (pre ++ suf) (length pre) (out ++ drop i pre).
Proof.
  intros [Hend Hauth Hbear Hkeys]. remember (length pre - i)%nat as k eqn:Hk. revert n i out Hk.
  induction k as [k IH] using lt_wf_ind. intros n i out Hk Hi Hn.
  destruct (decide (i = length pre)) as [->|Hne]; [by rewrite drop_all, app_nil_r|].
  assert (is_Some (pre !! i)) as [c Hc] by (apply lookup_lt_is_Some; lia).
  assert ((pre ++ suf) !! i = Some c) as Hc' by (rewrite lookup_app_l by lia; done).
  rewrite length_app in Hn. destruct n as [|n]; [lia|]. cbn [redact_loop]. rewrite Hc'.
  assert (authorization_value_start (pre ++ suf) i = None) as ->.
  { unfold authorization_value_start.
    pose proof (word_in_prefix (bs "authorization") pre suf i (letters_dec (bs "authorization") eq_refl) ltac:(cbn; lia) Hauth Hend ltac:(lia)) as Hw.
    change (length (bs "authorization")) with 13%nat in Hw. rewrite Hw. by rewrite orb_true_r. }
  assert (bearer_value_start (pre ++ suf) i = None) as ->.
  { unfold bearer_value_start.
    pose proof (word_in_prefix (bs "bearer") pre suf i (letters_dec (bs "bearer") eq_refl) ltac:(cbn; lia) Hbear Hend ltac:(lia)) as Hw.
    change (length (bs "bearer")) with 6%nat in Hw. rewrite Hw. by rewrite orb_true_r. }
  assert (∀ j out', (i < j ≤ length pre)%nat → out' = out ++ char_range pre i j →
    redact_loop n (pre ++ suf) j out' = redact_loop (S n) (pre ++ suf) (length pre) (out ++ drop i pre)) as Hgo.
  { intros j out' Hj ->. rewrite (IH (length pre - j)%nat) by (rewrite ?length_app; lia). rewrite <- (assoc_L (++)).
    unfold char_range. replace (drop j pre) with (drop (j - i) (drop i pre)) by (rewrite drop_drop; f_equal; lia).
    rewrite take_drop. apply redact_loop_fuel; rewrite length_app; lia. }
  assert (drop i (pre ++ suf) = drop i pre ++ suf) as Hdrop by (apply drop_app_le; lia).
  assert (drop i pre ≠ []) as Hnn by (rewrite (drop_S pre c i Hc); done).
  assert (take_while is_assignment_key_char (drop i (pre ++ suf)) = take_while is_assignment_key_char (drop i pre)) as Hrun.
  { rewrite Hdrop. apply take_while_prefix; [|done]. intros d Hd. apply Hend. rewrite last_lookup, lookup_drop, length_drop in Hd. rewrite last_lookup, <- Hd. f_equal. lia. }
  destruct (is_assignment_key_char c && _) eqn:Hck.
  - apply andb_true_iff in Hck as [Hck Hstart]. rewrite Hrun. set (key := take_while is_assignment_key_char (drop i pre)) in *.
    assert (is_sensitive_raw_query_key key = false) as ->.
    { apply Hkeys. apply orb_true_iff in Hstart as [H|H]; [left; by apply Nat.eqb_eq|right].
      apply negb_true_iff in H. unfold at_is in *. rewrite lookup_app_l in H by lia. done. }
    cbn [andb]. pose proof (key_run_nonempty pre i c Hc Hck). fold key in H.
    assert (length key ≤ length (drop i pre))%nat as Hle.
    { pose proof (f_equal length (take_while_take is_assignment_key_char (drop i pre))) as Hl. rewrite length_app in Hl. fold key in Hl. lia. }
    rewrite length_drop in Hle. apply Hgo; [lia|]. f_equal. unfold char_range. replace (i + length key - i)%nat with (length key) by lia.
    rewrite <- (take_while_take is_assignment_key_char (drop i pre)). fold key. by rewrite take_app_length.
  - apply Hgo; [lia|]. f_equal. unfold char_range. rewrite (drop_S pre c i Hc). by replace (S i - i)%nat with 1%nat by lia.
Qed.

(** ** A secret assignment *)

Definition is_key (key : list Z) : Prop :=
  Forall (λ c, is_assignment_key_char c = true) key ∧ is_sensitive_raw_query_key key = true
  ∧ eq_ignore_ascii_case (take 13 key) (bs "authorization") = false ∧ eq_ignore_ascii_case (take 6 key) (bs "bearer") = false.
Definition is_value (v : list Z) : Prop := v ≠ [] ∧ Forall (λ c, is_unquoted_value_delim c = false) v.
(** A value ends with the text or at a delimiter. *)
Definition ends_value (rest : list Z) : Prop := ∀ c, head rest = Some c → is_unquoted_value_delim c = true.

(** The classes of characters do not overlap. *)
Lemma delim_not_key c : is_unquoted_value_delim c = true → is_assignment_key_char c = false.
Proof.
  unfold is_unquoted_value_delim, char_is_whitespace, is_hard_delim, is_assignment_key_char, is_token_char, is_ascii_alphanumeric, in_range.
  intros H. repeat (apply orb_true_iff in H as [H|H]).
  1-2: apply andb_true_iff in H as [?%Z.leb_le ?%Z.leb_le].
  3-4: apply bool_decide_eq_true in H; repeat (apply elem_of_cons in H as [->|H]; [reflexivity|]); by apply elem_of_nil in H.
  all: repeat match goal with
    | |- context [?a <=? ?b] => destruct (Z.leb_spec a b); try lia
    | |- context [?a =? ?b] => destruct (Z.eqb_spec a b); try lia
    end; done.
Qed.
Lemma sep_plain c : is_separator c = true →
  is_assignment_key_char c = false ∧ is_quote c = false ∧ char_is_whitespace c = false.
Proof. unfold is_separator. intros H. apply orb_true_iff in H as [->%Z.eqb_eq| ->%Z.eqb_eq]; done. Qed.
Lemma no_delim_plain c : is_unquoted_value_delim c = false → is_quote c = false ∧ char_is_whitespace c = false.
Proof.
  unfold is_unquoted_value_delim. intros [Hw Hd]%orb_false_iff. split; [|done]. unfold is_quote.
  apply orb_false_iff. split; apply Z.eqb_neq; intros ->; done.
Qed.

(** A word of letters does not start where a character is none. *)
Lemma no_word_at w c l : letters w → w ≠ [] → is_assignment_key_char c = false →
  eq_ignore_ascii_case (char_range (c :: l) 0 (length w)) w = false.
Proof.
  intros Hw Hne Hc. apply (no_word_across w [] c l 0); [done..|simpl; lia|]. destruct w; [done|simpl; lia].
Qed.
(** A word within a key does not reach past its end. *)
Lemma no_word_key w key c l : letters w → eq_ignore_ascii_case (take (length w) key) w = false → is_assignment_key_char c = false →
  eq_ignore_ascii_case (char_range (key ++ c :: l) 0 (length w)) w = false.
Proof.
  intros Hw Hk Hc. destruct (decide (length w ≤ length key)%nat).
  - unfold char_range. rewrite drop_0, Nat.sub_0_r, take_app_le by done. done.
  - apply (no_word_across w key c l 0); [done..|lia|lia].
Qed.

Lemma take_while_all {A} (p : A → bool) l : Forall (λ x, p x = true) l → take_while p l = l.
Proof. induction 1 as [|x l Hx Hl IH]; cbn; [done|]. by rewrite Hx, IH. Qed.

Lemma auth_none_at chars i :
  eq_ignore_ascii_case (char_range chars i (i + 13)) (bs "authorization") = false → authorization_value_start chars i = None.
Proof. unfold authorization_value_start. intros ->. by rewrite orb_true_r. Qed.
Lemma bearer_none_at chars i :
  eq_ignore_ascii_case (char_range chars i (i + 6)) (bs "bearer") = false → bearer_value_start chars i = None.
Proof. unfold bearer_value_start. intros ->. by rewrite orb_true_r. Qed.

(** What follows a value is redacted as if it stood alone. *)
Lemma redact_rest n q rest out :
  ends_value rest → (length rest ≤ n)%nat → redact_loop n (q ++ rest) (length q) out = out ++ redact_assignments rest.
Proof.
  intros Hd Hn. unfold redact_assignments. destruct rest as [|d rest].
  { rewrite app_nil_r. destruct n; cbn; [by rewrite app_nil_r|]. rewrite (lookup_ge_None_2 q) by lia. by rewrite app_nil_r. }
  specialize (Hd d eq_refl). pose proof (delim_not_key d Hd) as Hk. destruct n as [|n]; [simpl in Hn; lia|]. cbn [length redact_loop].
  rewrite list_lookup_middle by done. cbn [lookup list_lookup].
  assert (∀ w, letters w → w ≠ [] → eq_ignore_ascii_case (char_range (q ++ d :: rest) (length q) (length q + length w)) w = false) as Hw.
  { intros w Hw Hne. rewrite <- (Nat.add_0_r (length q)) at 1. rewrite char_range_app. by apply no_word_at. }
  rewrite auth_none_at by (by apply (Hw (bs "authorization")); [apply letters_dec|]).
  rewrite bearer_none_at by (by apply (Hw (bs "bearer")); [apply letters_dec|]). rewrite Hk. cbn [andb].
  rewrite auth_none_at by (by apply (no_word_at (bs "authorization")); [apply letters_dec|..]).
  rewrite bearer_none_at by (by apply (no_word_at (bs "bearer")); [apply letters_dec|..]).
  rewrite <- Nat.add_1_r, redact_loop_shift by lia. rewrite (redact_loop_fuel n (length rest)) by (simpl in *; lia).
  rewrite redact_loop_out, (redact_loop_out _ _ _ [d]). by rewrite <- (assoc_L (++)).
Qed.

Lemma at_drop p (chars l : list Z) c i : drop i chars = c :: l → at_is p chars i = p c.
Proof. intros H. unfold at_is. rewrite <- (Nat.add_0_r i), <- lookup_drop, H. done. Qed.

Section Assignment.
Context (q key v rest : list Z) (sep : Z).
Context (Hend : ∀ c, last q = Some c → is_assignment_key_char c = false).
Context (Hkey : is_key key) (Hsep : is_separator sep = true) (Hv : is_value v) (Hrest : ends_value rest).
Let chars : list Z := q ++ key ++ sep :: v ++ rest.

Lemma key_nonempty : key ≠ [].
Proof. intros ->. by destruct Hkey as (_ & H & _). Qed.
Lemma drop_q : drop (length q) chars = key ++ sep :: v ++ rest.
Proof. apply drop_app_length. Qed.
Lemma drop_key : drop (length q + length key) chars = sep :: v ++ rest.
Proof. unfold chars. rewrite (assoc_L (++) q key), <- length_app. apply drop_app_length. Qed.
Lemma drop_sep : drop (S (length q + length key)) chars = v ++ rest.
Proof. rewrite <- Nat.add_1_r, <- drop_drop, drop_key. done. Qed.

Lemma key_word w : letters w → eq_ignore_ascii_case (take (length w) key) w = false →
  eq_ignore_ascii_case (char_range chars (length q) (length q + length w)) w = false.
Proof.
  intros Hw Hk. rewrite <- (Nat.add_0_r (length q)) at 1. unfold chars. rewrite char_range_app.
  apply no_word_key; [done..|]. by apply sep_plain.
Qed.
Lemma key_run : take_while is_assignment_key_char (drop (length q) chars) = key.
Proof. rewrite drop_q. destruct Hkey as (Hk & _). eapply take_while_app_stop; [done| |done]. by apply sep_plain. Qed.
Lemma key_separator : separator_at chars (length q) (length q + length key) = (length q + length key)%nat.
Proof.
  unfold separator_at. rewrite (at_drop _ _ _ _ _ drop_key). destruct (sep_plain sep Hsep) as (_ & -> & Hw). cbn [andb].
  rewrite drop_key. unfold whitespace_len. cbn [take_while]. rewrite Hw. simpl. lia.
Qed.
Lemma key_value : value_at chars (length q + length key) = S (length q + length key).
Proof.
  unfold value_at. rewrite drop_sep. unfold whitespace_len. destruct Hv as [Hne Hd]. destruct v as [|c v']; [done|].
  apply Forall_cons in Hd as [Hc _]. apply no_delim_plain in Hc as [_ Hw]. cbn [app take_while]. rewrite Hw. simpl. lia.
Qed.
Lemma key_drop :
  drop_value is_unquoted_value_delim chars (length q) (S (length q + length key))
  = (key ++ sep :: REDACTED, length (q ++ key ++ sep :: v)).
Proof.
  destruct Hv as [Hne Hd]. unfold drop_value.
  assert (at_is is_quote chars (S (length q + length key)) = false) as ->.
  { pose proof drop_sep as Hs. assert (∃ c v', v = c :: v') as (c & v' & Ev) by (destruct v; [done|eauto]).
    rewrite Ev in Hs, Hd. rewrite (at_drop _ _ _ _ _ Hs). apply Forall_cons in Hd as [Hc _]. by apply no_delim_plain in Hc as [? _]. }
  rewrite drop_sep. unfold char_range. rewrite drop_q.
  replace (S (length q + length key) - length q)%nat with (length (key ++ [sep])) by (rewrite length_app; simpl; lia).
  assert (key ++ sep :: v ++ rest = (key ++ [sep]) ++ v ++ rest) as -> by (by rewrite <- (assoc_L (++))).
  rewrite take_app_length. f_equal; [by rewrite <- (assoc_L (++))|].
  assert (take_while (λ c, negb (is_unquoted_value_delim c)) (v ++ rest) = v) as ->.
  { assert (Forall (λ c, negb (is_unquoted_value_delim c) = true) v) as Hd' by (eapply Forall_impl; [done|]; by intros c ->).
    destruct rest as [|d rest']; [rewrite app_nil_r; by apply take_while_all|].
    eapply take_while_app_stop; [done| |done]. by rewrite (Hrest d eq_refl). }
  rewrite !length_app. simpl. lia.
Qed.

(** The round of the loop at the key, and what follows it. *)
Lemma redact_key n out :
  (length chars - length q ≤ n)%nat →
  redact_loop n chars (length q) out = out ++ key ++ sep :: REDACTED ++ redact_assignments rest.
Proof.
  intros Hn. pose proof drop_q as Hq. destruct Hkey as (Hk & Hs & Ha & Hb). 
  assert (∃ c k, key = c :: k) as (c & k & Ek) by (pose proof key_nonempty; destruct key; [done|eauto]).
  assert (chars !! length q = Some c) as Hc by (rewrite <- (Nat.add_0_r (length q)), <- lookup_drop, Hq, Ek; done).
  assert (length chars = (length (q ++ key ++ sep :: v) + length rest)%nat) as Hlen
    by (unfold chars; rewrite <- length_app; f_equal; by rewrite <- !(assoc_L (++))).
  assert (0 < length key)%nat by (rewrite Ek; simpl; lia).
  destruct n as [|n]; [rewrite Hlen, !length_app in Hn; simpl in Hn; lia|]. cbn [redact_loop]. rewrite Hc.
  rewrite auth_none_at by (apply (key_word (bs "authorization")); [by apply letters_dec|done]).
  rewrite bearer_none_at by (apply (key_word (bs "bearer")); [by apply letters_dec|done]).
  assert (is_assignment_key_char c = true) as -> by (rewrite Ek in Hk; by apply Forall_cons in Hk as [? _]).
  assert ((length q =? 0)%nat || negb (at_is is_assignment_key_char chars (pred (length q))) = true) as ->.
  { destruct (Nat.eqb_spec (length q) 0); [done|]. cbn. apply negb_true_iff.
    unfold at_is, chars. rewrite lookup_app_l by lia. rewrite <- last_lookup. destruct (last q) as [e|] eqn:E; [by apply Hend|done]. }
  cbn [andb]. rewrite key_run, key_separator, Hs, (at_drop _ _ _ _ _ drop_key), Hsep. cbn [andb]. rewrite key_value, key_drop.
  assert (chars = (q ++ key ++ sep :: v) ++ rest) as -> by (unfold chars; by rewrite <- !(assoc_L (++))).
  rewrite redact_rest; [by rewrite <- !(assoc_L (++))|done|]. rewrite Hlen, !length_app in Hn. simpl in Hn. lia.
Qed.
End Assignment.

Lemma redact_assignment pre key sep v rest :
  plain_before pre → is_key key → is_separator sep = true → is_value v → ends_value rest →
  redact_assignments (pre ++ key ++ sep :: v ++ rest) = pre ++ key ++ sep :: REDACTED ++ redact_assignments rest.
Proof.
  intros Hp Hk Hs Hv Hr. unfold redact_assignments at 1. rewrite (redact_pass pre) by (done || lia).
  rewrite redact_key; [done|by apply Hp|done..|lia].
Qed.

(** ** The passes before it *)

Lemma lower_37 b : to_ascii_lowercase b = 37 → b = 37.
Proof. unfold to_ascii_lowercase. destruct (_ && _) eqn:E; [|done]. zbool. lia. Qed.
Lemma first_len_none patterns l :
  Forall (λ p, head (bs p) = Some 37) patterns → 37 ∉ l → first_len patterns l = None.
Proof.
  intros Hp Hl. induction Hp as [|p patterns Hp _ IH]; [done|]. cbn [first_len].
  destruct (eq_ignore_ascii_case _ _) eqn:E; [|done]. exfalso. apply bool_decide_eq_true in E.
  destruct (bs p) as [|b r]; [done|]. injection Hp as ->. destruct l as [|c l]; [done|]. cbn [length take map] in E.
  injection E as E _. apply lower_37 in E as ->. apply Hl. left.
Qed.

Lemma percent_loop_id n text i : 37 ∉ text → percent_loop n text i 0 [] = text.
Proof.
  intros Hn. revert i. induction n as [|n IH]; intros i; [done|]. cbn [percent_loop]. destruct (_ <=? _)%nat; [done|].
  unfold percent_assignment_separator_len. rewrite first_len_none; [apply IH|by repeat constructor|].
  intros H. apply Hn. by eapply subseteq_drop.
Qed.
Lemma find_sub_none b l : b ∉ l → find_sub [b] l = None.
Proof.
  induction l as [|c l IH]; intros Hn; [done|]. cbn [find_sub]. unfold starts_with. cbn [strip_prefix].
  destruct (Z.eqb_spec b c) as [->|Hbc]; [exfalso; apply Hn; left|]. cbn. rewrite IH; [done|]. intros H. apply Hn. by right.
Qed.
Lemma passes_id text : 37 ∉ text → 60 ∉ text → redact_secrets text = redact_assignments text.
Proof.
  intros Hp Hx. unfold redact_secrets, redact_percent_encoded_assignments, redact_xml_secret_elements. rewrite percent_loop_id by done.
  cbn [xml_secret_loop]. change (bs "<") with [60]. rewrite drop_0, find_sub_none by done. done.
Qed.

(** [plain_before], decided. *)
Definition plain_before_b (pre : list Z) : bool :=
  match last pre with Some c => negb (is_assignment_key_char c) | None => true end
  && forallb (λ i, negb (eq_ignore_ascii_case (char_range pre i (i + 13)) (bs "authorization"))
                   && negb (eq_ignore_ascii_case (char_range pre i (i + 6)) (bs "bearer"))
                   && negb (is_sensitive_raw_query_key (take_while is_assignment_key_char (drop i pre))))
       (seq 0 (length pre)).
Lemma plain_before_dec pre : plain_before_b pre = true → plain_before pre.
Proof.
  intros [Hl Hf]%andb_true_iff.
  assert (∀ i, (i < length pre)%nat →
    eq_ignore_ascii_case (char_range pre i (i + 13)) (bs "authorization") = false ∧
    eq_ignore_ascii_case (char_range pre i (i + 6)) (bs "bearer") = false ∧
    is_sensitive_raw_query_key (take_while is_assignment_key_char (drop i pre)) = false) as Hin.
  { intros i Hi. eapply forallb_forall in Hf; [|apply in_seq; split; [apply Nat.le_0_l|exact Hi]].
    rewrite !andb_true_iff, !negb_true_iff in Hf. tauto. }
  assert (∀ i, (length pre ≤ i)%nat → drop i pre = []) as Hout by (intros; by apply drop_ge).
  split.
  - intros c Hc. rewrite Hc in Hl. by apply negb_true_iff.
  - intros i. destruct (decide (i < length pre)%nat); [by apply Hin|]. unfold char_range. by rewrite Hout, take_nil by lia.
  - intros i. destruct (decide (i < length pre)%nat); [by apply Hin|]. unfold char_range. by rewrite Hout, take_nil by lia.
  - intros i _. destruct (decide (i < length pre)%nat); [by apply Hin|]. by rewrite Hout by lia.
Qed.

(** What is logged of a text shows a secret's key and nothing of its value: the value of an
    assignment [key=value] or [key: value] to a sensitive key, as far as the next delimiter, is
    replaced by REDACTED, the text before it is kept and the text after it is redacted as if it
    stood alone. (For texts without percent-encoding and markup, whose own passes come before.) *)
Theorem log_hides_assignment pre key sep v rest :
  37 ∉ pre ++ key ++ sep :: v ++ rest → 60 ∉ pre ++ key ++ sep :: v ++ rest →
  plain_before pre → is_key key → is_separator sep = true → is_value v → ends_value rest →
  redact_secrets (pre ++ key ++ sep :: v ++ rest) = pre ++ key ++ sep :: REDACTED ++ redact_secrets rest.
Proof.
  intros Hp Hx Hpre Hk Hs Hv Hr. rewrite passes_id by done.
  rewrite redact_assignment by done. rewrite passes_id; [done|set_solver..].
Qed.

Lemma log_hides_assignment_witness :
  redact_secrets (bs "GET o failed: " ++ bs "x-oss-signature" ++ 61 :: bs "AbC/z+1" ++ bs "; token: t9 end")
  = bs "GET o failed: " ++ bs "x-oss-signature" ++ 61 :: REDACTED ++ redact_secrets (bs "; token: t9 end").
Proof.
  apply (log_hides_assignment (bs "GET o failed: ") (bs "x-oss-signature") 61 (bs "AbC/z+1") (bs "; token: t9 end")).
  - apply (bool_decide_unpack _). vm_compute. exact I.
  - apply (bool_decide_unpack _). vm_compute. exact I.
  - apply plain_before_dec. vm_compute. reflexivity.
  - split_and!; [|vm_compute; reflexivity..]. apply (bool_decide_unpack _). vm_compute. exact I.
  - reflexivity.
  - split; [done|]. apply (bool_decide_unpack _). vm_compute. exact I.
  - intros c [= <-]. reflexivity.
Defined.

(** ** URLs *)

Lemma find_sub_at b p u l : b ∉ u → find_sub (b :: p) (u ++ b :: p ++ l) = Some (length u).
Proof.
  induction u as [|c u IH]; intros Hn.
  - assert (starts_with (b :: p) (b :: p ++ l) = true) as H by (apply starts_with_spec; by exists l). cbn [app find_sub]. by rewrite H.
  - cbn [app find_sub]. unfold starts_with. cbn [strip_prefix]. destruct (Z.eqb_spec b c) as [->|Hbc]; [exfalso; apply Hn; left|].
    cbn. rewrite IH; [done|]. intros H. apply Hn. by right.
Qed.
Lemma rfind_sub_none b l : b ∉ l → rfind_sub [b] l = None.
Proof.
  induction l as [|c l IH]; intros Hn; [done|]. cbn [rfind_sub]. rewrite IH by set_solver. unfold starts_with. cbn [strip_prefix].
  destruct (Z.eqb_spec b c) as [->|Hbc]; [exfalso; apply Hn; left|]. done.
Qed.
Lemma rfind_sub_last b u l : b ∉ l → rfind_sub [b] (u ++ b :: l) = Some (length u).
Proof.
  intros Hl. induction u as [|c u IH]; cbn [app rfind_sub].
  - rewrite rfind_sub_none by done. unfold starts_with. cbn [strip_prefix]. by rewrite Z.eqb_refl.
  - by rewrite IH.
Qed.

(** The parts of a URL's base: scheme, user information if there is any, host and path. *)
Definition userinfo (user : option (list Z)) : list Z := match user with Some u => u ++ [64] | None => [] end.
Definition url_base (scheme : list Z) (user : option (list Z)) (host path : list Z) : list Z :=
  scheme ++ bs "://" ++ userinfo user ++ host ++ path.
Record base_ok (scheme : list Z) (user : option (list Z)) (host path : list Z) : Prop := mkBaseOk {
  bo_scheme : 58 ∉ scheme;
  bo_user : 47 ∉ userinfo user;
  bo_host : 47 ∉ host ∧ 64 ∉ host;
  bo_path : path = [] ∨ head path = Some 47;
  bo_parts : 35 ∉ url_base scheme user host path ∧ 63 ∉ url_base scheme user host path;
}.

(** User information is replaced, its absence shows. *)
Definition hidden (user : option (list Z)) : option (list Z) := option_map (λ _, REDACTED) user.

Lemma redact_base scheme user host path :
  base_ok scheme user host path → redact_url_userinfo (url_base scheme user host path) = url_base scheme (hidden user) host path.
Proof.
  intros [Hs Hu [Hh Ha] Hp _]. unfold redact_url_userinfo, url_base. change (bs "://") with (58 :: [47; 47]).
  assert (find_sub [58; 47; 47] (scheme ++ [58; 47; 47] ++ userinfo user ++ host ++ path) = Some (length scheme)) as ->
    by (by apply (find_sub_at 58 [47; 47])).
  replace (length scheme + 3)%nat with (length (scheme ++ [58; 47; 47])) by (rewrite length_app; done).
  assert (∀ r, scheme ++ [58; 47; 47] ++ r = (scheme ++ [58; 47; 47]) ++ r) as Hassoc by (intros; by rewrite <- (assoc_L (++))).
  rewrite !Hassoc, drop_app_length, take_app_length.
  assert (match find_sub (bs "/") (userinfo user ++ host ++ path) with
          | Some rel => take rel (userinfo user ++ host ++ path)
          | None => userinfo user ++ host ++ path
          end = userinfo user ++ host) as ->.
  { change (bs "/") with [47]. assert (47 ∉ userinfo user ++ host) as Hn by set_solver.
    rewrite (assoc_L (++) (userinfo user)).
    destruct Hp as [->|Hp]; [rewrite app_nil_r, find_sub_none by done; done|]. destruct path as [|? path]; [done|]. injection Hp as ->.
    change (47 :: path) with (47 :: [] ++ path). rewrite (find_sub_at 47 []) by done. by rewrite take_app_length. }
  change (bs "@") with [64]. destruct user as [u|]; cbn [userinfo hidden option_map].
  - rewrite <- !(assoc_L (++) u). cbn [app]. rewrite rfind_sub_last by done.
    rewrite drop_app_add, drop_app_length. by rewrite <- !(assoc_L (++)).
  - cbn [app]. by rewrite rfind_sub_none.
Qed.

Lemma split_once_none c l : c ∉ l → split_once c l = None.
Proof.
  intros Hn. destruct (split_once c l) as [[x y]|] eqn:E; [|done]. apply split_once_inv in E as [-> _]. set_solver.
Qed.
Lemma split_once_at c l r : c ∉ l → split_once c (l ++ c :: r) = Some (l, r).
Proof. intros Hn. apply split_once_spec. apply Forall_forall. intros b Hb ->. done. Qed.

Lemma split_at_none c l : c ∉ l → split_at c l = [l].
Proof.
  induction l as [|b l IH]; intros Hn; [done|]. cbn [split_at]. destruct (Z.eqb_spec b c) as [->|Hne]; [exfalso; apply Hn; left|].
  rewrite IH by set_solver. done.
Qed.
Lemma split_at_app c l r : c ∉ l → split_at c (l ++ c :: r) = l :: split_at c r.
Proof.
  induction l as [|b l IH]; intros Hn; cbn [app split_at]; [by rewrite Z.eqb_refl|].
  destruct (Z.eqb_spec b c) as [->|Hne]; [exfalso; apply Hn; left|]. rewrite IH by set_solver. done.
Qed.
Lemma split_join c parts : parts ≠ [] → Forall (λ p, c ∉ p) parts → split_at c (join_with c parts) = parts.
Proof.
  intros Hne Hf. induction Hf as [|p parts Hp Hf IH]; [done|]. destruct parts as [|p' parts]; [by apply split_at_none|].
  cbn [join_with]. rewrite split_at_app by done. f_equal. by apply IH.
Qed.

(** The same parameter, but for the value of a secret. *)
Inductive same_public : list Z → list Z → Prop :=
| Same_plain p : same_public p p
| Same_secret k v v' : 61 ∉ k → is_sensitive_raw_query_key k = true → same_public (k ++ 61 :: v) (k ++ 61 :: v').

Lemma sanitize_same p p' : same_public p p' → sanitize_pair p = sanitize_pair p'.
Proof. destruct 1 as [p|k v v' Hk Hs]; [done|]. unfold sanitize_pair. rewrite !split_once_at by done. by rewrite Hs. Qed.

Definition query_ok (pairs : list (list Z)) : Prop := pairs ≠ [] ∧ Forall (λ p, 38 ∉ p ∧ 35 ∉ p) pairs.
Lemma query_no_hash pairs : query_ok pairs → 35 ∉ join_amp pairs.
Proof.
  intros [_ Hf]. unfold join_amp. induction Hf as [|p pairs [_ Hp] Hf IH]; [by apply not_elem_of_nil|]. destruct pairs as [|p' pairs]; [done|].
  cbn [join_with]. intros H. apply elem_of_app in H as [H|H]; [done|]. apply elem_of_cons in H as [H|H]; [done|]. by apply IH.
Qed.

(** A URL with a query and a fragment, if it has them. *)
Definition full_url (base : list Z) (query : option (list (list Z))) (fragment : option (list Z)) : list Z :=
  (base ++ match query with Some pairs => 63 :: join_amp pairs | None => [] end)
  ++ match fragment with Some f => 35 :: f | None => [] end.

Lemma sanitize_full scheme user host path query fragment :
  base_ok scheme user host path → (∀ pairs, query = Some pairs → query_ok pairs) →
  sanitize_url (full_url (url_base scheme user host path) query fragment)
  = redact_secrets (url_base scheme (hidden user) host path)
    ++ match query with Some pairs => 63 :: join_amp (map sanitize_pair pairs) | None => [] end
    ++ match fragment with Some f => 35 :: redact_secrets f | None => [] end.
Proof.
  intros Hb Hq. pose proof (redact_base _ _ _ _ Hb) as Hr.
  destruct Hb as [_ _ _ _ [H35 H63]]. unfold sanitize_url, full_url. set (base := url_base scheme user host path) in *.
  destruct query as [pairs|].
  - specialize (Hq pairs eq_refl). pose proof (query_no_hash _ Hq) as Hh. destruct Hq as [Hne Hf].
    assert (35 ∉ base ++ 63 :: join_amp pairs) as Hn by set_solver.
    assert (split_at 38 (join_amp pairs) = pairs) as Hs by (apply split_join; [done|]; eapply Forall_impl; [done|]; by intros p [? _]).
    destruct fragment as [f|]; [rewrite split_once_at by done|rewrite app_nil_r, split_once_none by done];
      rewrite split_once_at by done; by rewrite Hr, Hs.
  - rewrite app_nil_r. destruct fragment as [f|]; [rewrite split_once_at by done|rewrite app_nil_r, split_once_none by done];
      rewrite split_once_none by done; by rewrite Hr.
Qed.

(** The same queries, but for the values of secrets. *)
Definition same_query (query query' : option (list (list Z))) : Prop :=
  match query, query' with
  | Some pairs, Some pairs' => query_ok pairs ∧ query_ok pairs' ∧ Forall2 same_public pairs pairs'
  | None, None => True
  | _, _ => False
  end.

(** C34: What is logged of a URL says nothing of its secrets: two URLs with a scheme that both have
    user information before the host or both have none, and both have a query or both have none,
    and that differ only in the user information and in the values of sensitive query parameters
    (decoded up to twice to judge the name), are logged as the same text. *)
Theorem url_secrets_hidden scheme user user' host path query query' fragment :
  base_ok scheme user host path → base_ok scheme user' host path → (is_Some user ↔ is_Some user') →
  same_query query query' →
  sanitize_url (full_url (url_base scheme user host path) query fragment)
  = sanitize_url (full_url (url_base scheme user' host path) query' fragment).
Proof.
  intros Hb Hb' Hu Hq.
  assert (hidden user = hidden user') as Hh.
  { destruct user as [u|], user' as [u'|]; [done| | |done].
    - by destruct (proj1 Hu ltac:(by eexists)).
    - by destruct (proj2 Hu ltac:(by eexists)). }
  destruct query as [pairs|], query' as [pairs'|]; [|done..|by rewrite !sanitize_full, Hh by done].
  destruct Hq as (Hq & Hq' & Hp). rewrite !sanitize_full by (done || by intros ? [= <-]). rewrite Hh. do 4 f_equal.
  clear Hq Hq'. induction Hp as [|p p' pairs pairs' Hp _ IH]; [done|]. cbn [map]. by rewrite (sanitize_same _ _ Hp), IH.
Qed.

(** A URL with user information and a presigned one without. *)
Lemma url_secrets_hidden_witness :
  (sanitize_url (bs "https://u:p@h.net/c?sv=1&Sig=AbC%2B#x") = sanitize_url (bs "https://other@h.net/c?sv=1&Sig=other#x")
   ∧ sanitize_url (bs "https://u:p@h.net/c?sv=1&Sig=AbC%2B#x") = bs "https://REDACTED@h.net/c?sv=1&Sig=REDACTED#x")
  ∧ sanitize_url (bs "https://h.net/c?sv=1&Sig=AbC%2B") = sanitize_url (bs "https://h.net/c?sv=1&Sig=other").
Proof.
  assert (∀ u, u = Some (bs "u:p") ∨ u = Some (bs "other") ∨ u = None → base_ok (bs "https") u (bs "h.net") (bs "/c")) as Hb.
  { intros u [->|[->| ->]]; (split; [apply (bool_decide_unpack _); vm_compute; exact I..| |]).
    1, 3, 5: by right. all: split; apply (bool_decide_unpack _); vm_compute; exact I. }
  assert (∀ v, v = bs "AbC%2B" ∨ v = bs "other" → query_ok [bs "sv=1"; bs "Sig" ++ 61 :: v]) as Hq.
  { intros v [->| ->]; (split; [done|]); apply (bool_decide_unpack _); vm_compute; exact I. }
  assert (same_query (Some [bs "sv=1"; bs "Sig" ++ 61 :: bs "AbC%2B"]) (Some [bs "sv=1"; bs "Sig" ++ 61 :: bs "other"])) as Hs.
  { split; [by apply Hq; left|]. split; [by apply Hq; right|].
    constructor; [apply Same_plain|]. constructor; [|constructor].
    apply Same_secret; [apply (bool_decide_unpack _); vm_compute; exact I|vm_compute; reflexivity]. }
  split; [split; [|vm_compute; reflexivity]|].
  - apply (url_secrets_hidden (bs "https") (Some (bs "u:p")) (Some (bs "other")) (bs "h.net") (bs "/c")
      (Some [bs "sv=1"; bs "Sig" ++ 61 :: bs "AbC%2B"]) (Some [bs "sv=1"; bs "Sig" ++ 61 :: bs "other"]) (Some (bs "x"))); auto.
    split; by eexists.
  - apply (url_secrets_hidden (bs "https") None None (bs "h.net") (bs "/c")
      (Some [bs "sv=1"; bs "Sig" ++ 61 :: bs "AbC%2B"]) (Some [bs "sv=1"; bs "Sig" ++ 61 :: bs "other"]) None); auto.
Defined.
