(* ===== verification/ProtocolDefaults.v ===== *)
(** * The default protocols

    [src/http_breakpoint.rs] and the default methods of [src/download_trait.rs]: the standard range
    download with its resume identity, and the default multipart-form upload. The JSON parser, the
    request itself and the texts of its errors are parameters; the body of a response is the list
    of its characters. *)
From stdpp Require Import sorting.
From S2P Require Import Prelude Errors Sidecar HttpHeaders DownloadIdentity DownloadTask RangeDownload DownloadPrepare UploadChunks PresignedDownload LogRedact.
#[local] Open Scope Z_scope.

(** ** Headers *)

Definition RANGE : string := "range".
Definition IF_RANGE : string := "if-range".
Definition ACCEPT : string := "accept".

(** [http_breakpoint::insert_header]: a value that is no header value is left out. *)
Definition insert_header_text (name value : string) (h : HeaderMap) : HeaderMap :=
  match header_value_from_str value with
  | Some v => insert_header name v h
  | None => h
  end.

(** ** The resume identity *)

Definition name_le (a b : string * list (list Z)) : Prop := bytes_leb (bs a.1) (bs b.1) = true.
#[export] Instance name_le_dec : RelDecision name_le.
Proof. intros a b. unfold name_le. apply _. Defined.

(** The headers that select a representation, by name. *)
Definition kept_headers (h : HeaderMap) : HeaderMap :=
  filter (λ kv, kv.2 ≠ []) (delete IF_RANGE (delete IF_MATCH (delete RANGE h))).

Definition header_group (kv : string * list (list Z)) : list Z :=
  identity_field (bs kv.1) ++ to_be_bytes 8 (Z.of_nat (length kv.2)) ++ concat (map identity_field kv.2).

Definition canonical_resume_headers (headers : HeaderMap) : list Z :=
  bs "rusty-cat/range-headers/v1" ++ [0]
  ++ concat (map header_group (merge_sort name_le (map_to_list (kept_headers headers)))).

(** [range_accept]: the option of the task's HTTP configuration. *)
Definition accept_of (range_accept : option string) : string := default (str_of DEFAULT_RANGE_ACCEPT) range_accept.

Definition standard_range_resume_identity (headers : HeaderMap) (range_accept : option string) : list Z :=
  canonical_resume_headers (insert_header_text ACCEPT (accept_of range_accept) headers).

(** ** The standard range download *)

Definition default_merge_range_get_headers (range_accept : option string) (range_value : string) (base : HeaderMap)
    : result HeaderMap MeowError :=
  Ok (insert_header_text ACCEPT (accept_of range_accept) (insert_header_text RANGE range_value base)).

Definition standard_range_protocol (url : string) (range_accept : option string) : RangeProtocol :=
  mkRangeProtocol (λ _ range_value base, default_merge_range_get_headers range_accept range_value base) (λ _, url).

(** [StandardRangeDownload], and the defaults of the trait where it does not override them. *)
Definition standard_range_download (url : string) (range_accept : option string) : BreakpointDownload :=
  mkBreakpoint (standard_range_protocol url range_accept)
    (λ t, Ok (Some (standard_range_resume_identity (pt_headers t) range_accept)))
    (λ _, None) true (λ _, url) (λ _ h, Ok h) total_size_from_head.

(** ** The default upload *)

(** What a message says of a response: its characters with the secrets removed, as UTF-8. *)
Definition safe_body (body : list Z) : string := str_of (concat (map utf8_encode (redact_secrets body))).

Section DefaultUpload.
Context (from_json : list Z → result (option string * option Z) string) (status_text : Z → string).
Context (text : HttpResponse → result (list Z) string).

Inductive FormValue := FormText (value : string) | FormFile (file_name mime : string) (bytes : list Z).
Abbreviation Form := (list (string * FormValue)).

Definition parse_default_upload_response (body : list Z) : result UploadResumeInfo MeowError :=
  if bool_decide (trim_by char_is_whitespace body = []) then Ok (mkResumeInfo None None None)
  else
    match from_json body with
    | Err e => Err (from_code ResponseParseError ("upload response json: " +:+ e +:+ ", body: " +:+ safe_body body))
    | Ok (file_id, next_byte) =>
        match next_byte with
        | Some next =>
            if next <? 0 then
              Err (from_code InvalidRange ("upload response nextByte must be non-negative: " +:+ pretty next))
            else Ok (mkResumeInfo file_id (Some next) None)
        | None => Ok (mkResumeInfo file_id None None)
        end
    end.

Definition send_upload_request (send : Form → result HttpResponse string) (form : Form) : result (list Z) MeowError :=
  match send form with
  | Err e => Err (map_reqwest e)
  | Ok resp =>
      match text resp with
      | Err e => Err (map_reqwest e)
      | Ok body =>
          if negb (is_success (resp_status resp)) then
            Err (with_http_status (from_code ResponseStatusError ("upload HTTP " +:+ status_text (resp_status resp) +:+ ": "
              +:+ safe_body body)) (resp_status resp))
          else Ok body
      end
  end.

(** What the forms take from the task. *)
Record FormTask := mkFormTask { ft_file_sign : string; ft_file_name : string; ft_total_size : Z }.

Definition prepare_form (category : string) (t : FormTask) : Form :=
  [("fileMd5", FormText (ft_file_sign t)); ("fileName", FormText (ft_file_name t)); ("category", FormText category);
   ("totalSize", FormText (pretty (ft_total_size t)))].

Definition chunk_form (category : string) (t : FormTask) (offset : Z) (chunk : list Z) : Form :=
  [("file", FormFile "upload_chunk_data" "application/octet-stream" chunk); ("fileMd5", FormText (ft_file_sign t));
   ("fileName", FormText (ft_file_name t)); ("category", FormText category); ("offset", FormText (pretty offset));
   ("partSize", FormText (pretty (Z.of_nat (length chunk)))); ("totalSize", FormText (pretty (ft_total_size t)))].

Definition default_upload_prepare (send : Form → result HttpResponse string) (category : string) (t : FormTask)
    : result UploadResumeInfo MeowError :=
  let? body := send_upload_request send (prepare_form category t) in
  parse_default_upload_response body.

Definition default_upload_chunk (send : Form → result HttpResponse string) (category : string) (t : FormTask) (offset : Z)
    (chunk : list Z) : result UploadResumeInfo MeowError :=
  let? body := send_upload_request send (chunk_form category t offset chunk) in
  parse_default_upload_response body.

(** The offset a server acknowledges is a [u64], since the JSON number is an [i64]. *)
Lemma default_ack_fits body info n :
  (∀ b id next, from_json b = Ok (id, Some next) → - 2 ^ 63 ≤ next < 2 ^ 63) →
  parse_default_upload_response body = Ok info → next_byte info = Some n → fits U64_MAX n ∧ n < 2 ^ 63.
Proof.
  intros Hj. unfold parse_default_upload_response. case_bool_decide; [by intros [= <-]|].
  destruct (from_json body) as [[id [next|]]|] eqn:E; [|by intros [= <-]|done].
  destruct (next <? 0) eqn:En; [done|]. intros [= <-] [= <-]. specialize (Hj _ _ _ E). solve_sat.
Qed.
End DefaultUpload.

(** ** The identity determines the headers *)

Definition volatile (name : string) : Prop := name = RANGE ∨ name = IF_MATCH ∨ name = IF_RANGE.

(** Lengths that fit their prefixes. *)
Definition headers_fit (h : HeaderMap) : Prop :=
  ∀ name values, h !! name = Some values →
    field_ok (bs name) ∧ Z.of_nat (length values) < 2 ^ 64 ∧ Forall field_ok values.

Lemma fields_inj l l' r r' :
  length l = length l' → Forall field_ok l → Forall field_ok l' →
  concat (map identity_field l) ++ r = concat (map identity_field l') ++ r' → l = l' ∧ r = r'.
Proof.
  intros Hlen Hl. revert l' Hlen. induction Hl as [|x l Hx Hl IH]; intros [|y l'] Hlen Hl' H; try done.
  apply Forall_cons in Hl' as [Hy Hl']. cbn [map concat] in H. rewrite <- !(assoc_L (++)) in H.
  apply identity_field_inj in H as [-> H]; [|done..]. destruct (IH l' ltac:(simpl in Hlen; lia) Hl' H) as [-> ->]. done.
Qed.

Definition group_ok (kv : string * list (list Z)) : Prop :=
  field_ok (bs kv.1) ∧ Z.of_nat (length kv.2) < 2 ^ 64 ∧ Forall field_ok kv.2.

Lemma be8_inj a b : 0 ≤ a < 2 ^ 64 → 0 ≤ b < 2 ^ 64 → to_be_bytes 8 a = to_be_bytes 8 b → a = b.
Proof.
  unfold to_be_bytes. intros Ha Hb H. apply (f_equal reverse) in H. rewrite !reverse_involutive in H.
  apply (f_equal from_le_bytes) in H. by rewrite !le_value in H by lia.
Qed.

Lemma length_be8 a : length (to_be_bytes 8 a) = 8%nat.
Proof. unfold to_be_bytes. rewrite length_reverse, length_to_le_bytes; lia. Qed.

Lemma groups_inj l l' :
  Forall group_ok l → Forall group_ok l' → concat (map header_group l) = concat (map header_group l') → l = l'.
Proof.
  intros Hl. revert l'. induction Hl as [|[n vs] l (Hn & Hv & Hvs) Hl IH]; intros [|[n' vs'] l'] Hl' H; cbn [map concat] in H; [done| | |].
  1, 2: apply (f_equal length) in H; unfold header_group in H; rewrite !length_app, length_identity_field in H; simpl in H; lia.
  apply Forall_cons in Hl' as [(Hn' & Hv' & Hvs') Hl']. unfold header_group in H. cbn [fst snd] in *. rewrite <- !(assoc_L (++)) in H.
  apply identity_field_inj in H as [Hnn H]; [|done..]. apply bs_inj in Hnn as ->.
  apply app_inj_1 in H as [H1 H]; [|by rewrite !length_be8]. apply be8_inj in H1; [|lia..].
  apply fields_inj in H as [-> H]; [|lia|done..]. by rewrite (IH l' Hl' H).
Qed.

Lemma lookup_kept h name : ¬ volatile name → get_all (kept_headers h) name = get_all h name.
Proof.
  intros Hv. unfold get_all, kept_headers. rewrite map_lookup_filter, !lookup_delete_ne by (unfold volatile in Hv; intuition congruence).
  destruct (h !! name) as [[|v vs]|] eqn:E; cbn; [|by rewrite option_guard_True by done|done].
  by rewrite option_guard_False by tauto.
Qed.

Lemma kept_volatile h name : volatile name → kept_headers h !! name = None.
Proof.
  intros Hv. apply map_lookup_filter_None. left. unfold volatile in Hv.
  destruct Hv as [->|[->| ->]]; rewrite ?lookup_delete_eq; [|by rewrite lookup_delete_ne, lookup_delete_eq|done].
  by rewrite lookup_delete_ne, lookup_delete_ne, lookup_delete_eq.
Qed.

Lemma kept_eq h h' : kept_headers h = kept_headers h' ↔ ∀ name, ¬ volatile name → get_all h name = get_all h' name.
Proof.
  split.
  - intros E name Hv. by rewrite <- (lookup_kept h), <- (lookup_kept h'), E.
  - intros E. apply map_eq. intros name. assert (volatile name ∨ ¬ volatile name) as [Hv|Hv].
    { unfold volatile. destruct (decide (name = RANGE)), (decide (name = IF_MATCH)), (decide (name = IF_RANGE)); tauto. }
    { by rewrite !kept_volatile. }
    specialize (E name Hv). rewrite <- (lookup_kept h), <- (lookup_kept h') in E by done. unfold get_all in E.
    assert (∀ g, kept_headers g !! name ≠ Some []) as Hne.
    { intros g Hg. unfold kept_headers in Hg. apply map_lookup_filter_Some in Hg as [_ Hg]. by cbn in Hg. }
    pose proof (Hne h). pose proof (Hne h'). destruct (kept_headers h !! name), (kept_headers h' !! name); cbn in E; congruence.
Qed.

Lemma kept_groups_ok h : headers_fit h → Forall group_ok (merge_sort name_le (map_to_list (kept_headers h))).
Proof.
  intros Hh. apply Forall_forall. intros [n vs] Hin. rewrite merge_sort_Permutation, elem_of_map_to_list in Hin.
  unfold kept_headers in Hin. apply map_lookup_filter_Some in Hin as [Hin _].
  repeat (apply lookup_delete_Some in Hin as [_ Hin]). by apply Hh.
Qed.

(** The canonical encoding of a request's headers, which a checkpoint's identity contains, is
    equal for two header maps exactly when they agree, value by value, on every header but
    [Range], [If-Match] and [If-Range]. *)
Lemma canonical_headers_exact h h' :
  headers_fit h → headers_fit h' →
  canonical_resume_headers h = canonical_resume_headers h' ↔ ∀ name, ¬ volatile name → get_all h name = get_all h' name.
Proof.
  intros Hh Hh'. rewrite <- kept_eq. split; [|intros E; unfold canonical_resume_headers; by rewrite E].
  intros H. unfold canonical_resume_headers in H. do 2 apply app_inv_head in H.
  apply groups_inj in H; [|by apply kept_groups_ok..].
  assert (map_to_list (kept_headers h) ≡ₚ map_to_list (kept_headers h')) as Hp.
  { rewrite <- (merge_sort_Permutation name_le), H. apply merge_sort_Permutation. }
  by apply map_to_list_inj.
Qed.

(** ** The requests of the standard download *)

Lemma get_all_insert_text_ne name name' value h : name ≠ name' → get_all (insert_header_text name value h) name' = get_all h name'.
Proof.
  intros Hne. unfold insert_header_text, get_all, insert_header. destruct (header_value_from_str value); [|done].
  by rewrite lookup_insert_ne.
Qed.
Lemma get_all_insert_ne name name' v h : name ≠ name' → get_all (insert_header name v h) name' = get_all h name'.
Proof. intros Hne. unfold get_all, insert_header. by rewrite lookup_insert_ne. Qed.
Lemma get_all_insert name v h : get_all (insert_header name v h) name = [v].
Proof. unfold get_all, insert_header. by rewrite lookup_insert_eq. Qed.

(** The headers of the request, with the validator [e] the generation is pinned to. *)
Definition standard_request (range_value : string) (e : option (list Z)) (accept : option string) (base : HeaderMap) : HeaderMap :=
  insert_header_text ACCEPT (accept_of accept) (insert_header_text RANGE range_value
    (match e with Some v => insert_header IF_MATCH v (set_accept_encoding_identity base) | None => set_accept_encoding_identity base end)).

Section StandardRequest.
Context (range_value : string) (rv : list Z) (e : option (list Z)) (accept : option string) (base : HeaderMap).
Hypothesis range_ok : header_value_from_str range_value = Some rv.
Let request : HeaderMap := standard_request range_value e accept base.

Lemma request_encoding : get_all request ACCEPT_ENCODING = [bs "identity"].
Proof.
  unfold request, standard_request. rewrite !get_all_insert_text_ne by done.
  destruct e; [rewrite get_all_insert_ne by done|]; apply get_all_insert.
Qed.
Lemma request_validator v : e = Some v → get_all request IF_MATCH = [v].
Proof. intros ->. unfold request, standard_request. rewrite !get_all_insert_text_ne by done. apply get_all_insert. Qed.
Lemma request_range : get_all request RANGE = [rv].
Proof.
  unfold request, standard_request. rewrite get_all_insert_text_ne by done. unfold insert_header_text. rewrite range_ok.
  apply get_all_insert.
Qed.
(** Every other header is what the resume identity was made of. *)
Lemma request_other name :
  ¬ volatile name → name ≠ ACCEPT_ENCODING → get_all request name = get_all (insert_header_text ACCEPT (accept_of accept) base) name.
Proof.
  unfold volatile. intros Hv Hae. unfold request, standard_request. set (g := insert_header_text RANGE _ _).
  assert (∀ n, n ≠ RANGE → n ≠ IF_MATCH → n ≠ ACCEPT_ENCODING → get_all g n = get_all base n) as Hg.
  { intros n N1 N2 N3. unfold g. rewrite get_all_insert_text_ne by done. unfold set_accept_encoding_identity.
    destruct e; rewrite !get_all_insert_ne by done; done. }
  destruct (decide (name = ACCEPT)) as [->|]; [|rewrite !get_all_insert_text_ne by done; apply Hg; tauto].
  unfold insert_header_text. destruct (header_value_from_str (accept_of accept)); [by rewrite !get_all_insert|by apply Hg].
Qed.

(** It passes the checks of the executor. *)
Lemma standard_build url t :
  expected_if_match_header t = Ok e →
  build_download_range_request (standard_range_protocol url accept) range_value base t = Ok (url, request).
Proof.
  intros He.
  assert (ensure_accept_encoding_identity request "download Range request" = Ok tt) as Hid.
  { unfold ensure_accept_encoding_identity, require_single_header. by rewrite request_encoding. }
  assert (match e with Some v => ensure_expected_if_match_preserved request v | None => Ok tt end = Ok tt) as Hpres.
  { pose proof request_validator as Hm. destruct e as [v|]; [|done]. unfold ensure_expected_if_match_preserved.
    rewrite (Hm v) by done. cbn. by rewrite bool_decide_eq_true_2. }
  transitivity (let? _ := match e with Some v => ensure_expected_if_match_preserved request v | None => Ok tt end in
                let? _ := ensure_accept_encoding_identity request "download Range request" in Ok (url, request)).
  { unfold build_download_range_request. by rewrite He. }
  by rewrite Hpres, Hid.
Qed.
End StandardRequest.

(** The standard download's range request passes the executor's checks of it, and carries
    exactly one [Range], one [Accept-Encoding: identity] and, if the generation is pinned, one
    [If-Match] with its validator; whatever else two tasks with the same resume identity send is
    the same. *)
Theorem standard_request_bound url accept base range_value rv t expected :
  header_value_from_str range_value = Some rv → expected_if_match_header t = Ok expected →
  ∃ h, build_download_range_request (standard_range_protocol url accept) range_value base t = Ok (url, h)
    ∧ get_all h RANGE = [rv] ∧ get_all h ACCEPT_ENCODING = [bs "identity"]
    ∧ (∀ v, expected = Some v → get_all h IF_MATCH = [v])
    ∧ ∀ url' accept' base' h' t', headers_fit (insert_header_text ACCEPT (accept_of accept) base) →
        headers_fit (insert_header_text ACCEPT (accept_of accept') base') →
        standard_range_resume_identity base accept = standard_range_resume_identity base' accept' →
        build_download_range_request (standard_range_protocol url' accept') range_value base' t' = Ok (url', h') →
        ∀ name, name ≠ IF_MATCH → name ≠ IF_RANGE → get_all h name = get_all h' name.
Proof.
  intros Hrv Hexp. exists (standard_request range_value expected accept base). split; [by apply standard_build|].
  split; [by apply request_range|]. split; [apply request_encoding|]. split; [intros v; apply request_validator|].
  intros url' accept' base' h' t' Hf Hf' Hid Hb name Hn1 Hn2.
  destruct (expected_if_match_header t') as [e'|] eqn:He'; [|unfold build_download_range_request in Hb; by rewrite He' in Hb].
  rewrite (standard_build range_value e' accept' base' url' t' He') in Hb. injection Hb as <-.
  destruct (decide (name = RANGE)) as [->|Hn3]; [by rewrite !(request_range _ rv)|].
  destruct (decide (name = ACCEPT_ENCODING)) as [->|Hn4]; [by rewrite !request_encoding|].
  assert (¬ volatile name) as Hv by (unfold volatile; tauto).
  pose proof (proj1 (canonical_headers_exact _ _ Hf Hf') Hid name Hv) as Heq. by rewrite !request_other.
Qed.

(** The second part of a download whose generation is pinned. *)
Lemma standard_request_bound_witness :
  ∃ h, build_download_range_request (standard_range_protocol "https://h/o" None) "bytes=8-15" ∅ (pt_dl (demo_prepared true))
         = Ok ("https://h/o", h)
    ∧ get_all h RANGE = [bs "bytes=8-15"] ∧ get_all h IF_MATCH = [demo_etag].
Proof.
  destruct (standard_request_bound "https://h/o" None ∅ "bytes=8-15" (bs "bytes=8-15") (pt_dl (demo_prepared true)) (Some demo_etag))
    as (h & Hb & Hr & _ & Hm & _); [by vm_compute|by vm_compute|].
  exists h. split; [exact Hb|]. split; [exact Hr|by apply Hm].
Defined.
