(* ===== verification/ProviderSigning.v ===== *)
(** * Signed requests of the direct providers

    [src/aliyun-oss-direct/signing.rs] and [src/azure-blob-direct/signing.rs] with the downloads
    built on them and the caches of key material in the uploads: the text that is signed, the
    headers that carry the signature, and the resume identity of such a download. HMAC, SHA-256,
    Base64, the URL parser and the check of header names are parameters; a point in time is its UTC
    calendar fields. Text is the list of its bytes. *)
From stdpp Require Import sorting.
From S2P Require Import Prelude Errors Sidecar HttpHeaders DownloadIdentity DownloadTask RangeDownload DownloadPrepare TargetLease ProviderXml PresignedDownload LogRedact ProtocolDefaults.
#[local] Open Scope Z_scope.

(** The fields of [time::OffsetDateTime], in UTC; [u_weekday] counts from Monday. *)
Record UtcTime := mkUtc {
  u_year : Z;
  u_month : nat;
  u_day : Z;
  u_hour : Z;
  u_minute : Z;
  u_second : Z;
  u_weekday : nat;
}.

(** The formats [{:04}] and [{:02}] of a number that is not negative. *)
Definition pad (width : nat) (n : Z) : list Z :=
  let digits := bs (pretty n) in replicate (width - length digits) 48 ++ digits.

(** What the signers use of a parsed URL: its path, its raw query and the decoded pairs of it. *)
Record SignedUrl := mkSignedUrl { su_path : list Z; su_query : option (list Z); su_pairs : list (list Z * list Z) }.

(** [HeaderValue::from_str] with the error of the signers. *)
Definition header_value (v : list Z) : result (list Z) MeowError :=
  if forallb (λ b, ((32 <=? b) && negb (b =? 127)) || (b =? 9)) v then Ok v
  else Err (from_code ParameterEmpty "invalid header value: failed to parse header value").

Definition hex_encode (bytes : list Z) : list Z := concat (map hex_byte bytes).

(** [signing_key_cache]: a date and the key derived for it. *)
Abbreviation KeyCache := (option (list Z * list Z)).

Section Signing.
Context (hmac : list Z → list Z → list Z) (sha256 : list Z → list Z).
Context (b64_encode : list Z → list Z) (b64_decode : list Z → result (list Z) string).
Context (parse_url : string → result SignedUrl string) (header_name : string → result string string).

(** ** OSS: time and key *)

Definition OSS_UNSIGNED_PAYLOAD : list Z := bs "UNSIGNED-PAYLOAD".

Definition oss_date (now : UtcTime) : list Z := pad 4 (u_year now) ++ pad 2 (Z.of_nat (u_month now)) ++ pad 2 (u_day now).
Definition format_iso8601_basic_z (t : UtcTime) : list Z :=
  pad 4 (u_year t) ++ pad 2 (Z.of_nat (u_month t)) ++ pad 2 (u_day t) ++ bs "T" ++ pad 2 (u_hour t) ++ pad 2 (u_minute t)
  ++ pad 2 (u_second t) ++ bs "Z".

Definition derive_signing_key (access_key_secret date region : list Z) : list Z :=
  let signing_key := hmac (bs "aliyun_v4" ++ access_key_secret) date in
  let signing_key := hmac signing_key region in
  let signing_key := hmac signing_key (bs "oss") in
  hmac signing_key (bs "aliyun_v4_request").

(** ** OSS: the canonical request *)

(** The components of a raw query, with a plus sign as an encoded space. *)
Definition query_components (raw_query : list Z) : list (list Z * list Z) :=
  let normalized := concat (map (λ c, if c =? 43 then bs "%20" else [c]) raw_query) in
  map (λ component, default (component, []) (split_once 61 component))
    (List.filter (λ component, negb (bool_decide (component = []))) (split_at 38 normalized)).

(** The last value of a name. *)
Definition last_value (pairs : list (list Z * list Z)) (name : list Z) : list Z :=
  default [] (snd <$> last (List.filter (λ kv : list Z * list Z, bool_decide (kv.1 = name)) pairs)).

Definition canonical_query (raw_query : list Z) : list Z :=
  let pairs := query_components raw_query in
  join_amp (map (λ name, match last_value pairs name with [] => name | value => name ++ 61 :: value end)
              (merge_sort bytes_le (map fst pairs))).

(** [sort_by] on the names: stable. *)
Fixpoint insert_entry (e : list Z * list Z) (l : list (list Z * list Z)) : list (list Z * list Z) :=
  match l with
  | [] => [e]
  | f :: r => if bytes_leb e.1 f.1 then e :: l else f :: insert_entry e r
  end.
Definition sort_entries (l : list (list Z * list Z)) : list (list Z * list Z) := foldr insert_entry [] l.

Definition oss_entries (iso8601 : list Z) (sign_pairs : list (string * list Z)) : list (list Z * list Z) :=
  sort_entries ((bs "x-oss-content-sha256", OSS_UNSIGNED_PAYLOAD) :: (bs "x-oss-date", iso8601)
                :: map (λ kv : string * list Z, (lower (bs kv.1), kv.2)) sign_pairs).

Definition canonical_request (method canonical_uri : list Z) (raw_query : option (list Z)) (sign_pairs : list (string * list Z))
    (additional_headers : list Z) (iso8601 : list Z) : list Z :=
  let canonical_headers := concat (map (λ kv : list Z * list Z, kv.1 ++ 58 :: kv.2 ++ [10]) (oss_entries iso8601 sign_pairs)) in
  method ++ 10 :: canonical_uri ++ 10 :: canonical_query (default [] raw_query) ++ 10 :: canonical_headers ++ 10
    :: additional_headers ++ 10 :: OSS_UNSIGNED_PAYLOAD.

Definition oss_scope (now : UtcTime) (region : list Z) : list Z := oss_date now ++ bs "/" ++ region ++ bs "/oss/aliyun_v4_request".

Definition oss_string_to_sign (method canonical_uri : list Z) (raw_query : option (list Z)) (sign_pairs : list (string * list Z))
    (additional_headers region : list Z) (now : UtcTime) : list Z :=
  let iso8601 := format_iso8601_basic_z now in
  let request := canonical_request method canonical_uri raw_query sign_pairs additional_headers iso8601 in
  bs "OSS4-HMAC-SHA256" ++ 10 :: iso8601 ++ 10 :: oss_scope now region ++ 10 :: hex_encode (sha256 request).

(** The headers that are signed are sent. *)
Fixpoint insert_sign_pairs (sign_pairs : list (string * list Z)) (headers : HeaderMap) : result HeaderMap MeowError :=
  match sign_pairs with
  | [] => Ok headers
  | (k, v) :: sign_pairs =>
      match header_name k with
      | Err e => Err (from_code ParameterEmpty ("invalid header name '" +:+ k +:+ "': " +:+ e))
      | Ok name =>
          let? v := header_value v in
          insert_sign_pairs sign_pairs (insert_header name v headers)
      end
  end.

Definition oss_signed_headers_with_key (method canonical_uri : list Z) (raw_query : option (list Z))
    (sign_pairs : list (string * list Z)) (additional_headers : option (list Z)) (access_key_id region : list Z)
    (now : UtcTime) (signing_key : list Z) : result HeaderMap MeowError :=
  let additional_headers := default [] additional_headers in
  let text := oss_string_to_sign method canonical_uri raw_query sign_pairs additional_headers region now in
  let signature := hex_encode (hmac signing_key text) in
  let? iso8601 := header_value (format_iso8601_basic_z now) in
  let? payload := header_value OSS_UNSIGNED_PAYLOAD in
  let? headers :=
    insert_sign_pairs sign_pairs (insert_header "x-oss-content-sha256" payload (insert_header "x-oss-date" iso8601 ∅)) in
  let auth :=
    bs "OSS4-HMAC-SHA256 Credential=" ++ access_key_id ++ bs "/" ++ oss_scope now region
    ++ match additional_headers with [] => [] | _ => bs ",AdditionalHeaders=" ++ additional_headers end
    ++ bs ",Signature=" ++ signature in
  let? auth := header_value auth in
  Ok (insert_header "authorization" auth headers).

Definition oss_signed_headers (method canonical_uri : list Z) (raw_query : option (list Z)) (sign_pairs : list (string * list Z))
    (additional_headers : option (list Z)) (access_key_id access_key_secret region : list Z) (now : UtcTime)
    : result HeaderMap MeowError :=
  oss_signed_headers_with_key method canonical_uri raw_query sign_pairs additional_headers access_key_id region now
    (derive_signing_key access_key_secret (oss_date now) region).

(** ** OSS: the cache of the upload *)

(** [AliOssDirectUpload]'s credentials, and its cache of the key of a day. *)
Record OssSigner := mkOssSigner {
  os_bucket : list Z;
  os_access_key_id : list Z;
  os_access_key_secret : list Z;
  os_region : list Z;
}.

Definition signing_key_for (s : OssSigner) (date : list Z) (cache : KeyCache) : KeyCache * list Z :=
  let derived := derive_signing_key (os_access_key_secret s) date (os_region s) in
  match cache with
  | Some (cached_date, key) => if bool_decide (cached_date = date) then (cache, key) else (Some (date, derived), derived)
  | None => (Some (date, derived), derived)
  end.

(** The arguments of one signature. *)
Record SignRequest := mkSignRequest {
  sr_method : list Z;
  sr_canonical_uri : list Z;
  sr_raw_query : option (list Z);
  sr_sign_pairs : list (string * list Z);
  sr_additional_headers : option (list Z);
}.

Definition build_signed_headers (s : OssSigner) (now : UtcTime) (r : SignRequest) (cache : KeyCache)
    : KeyCache * result HeaderMap MeowError :=
  let '(cache, signing_key) := signing_key_for s (oss_date now) cache in
  (cache, oss_signed_headers_with_key (sr_method r) (sr_canonical_uri r) (sr_raw_query r) (sr_sign_pairs r)
            (sr_additional_headers r) (os_access_key_id s) (os_region s) now signing_key).

(** ** OSS: the download *)

Definition oss_apply_signed_headers (s : OssSigner) (url : string) (method : list Z) (now : UtcTime) (base : HeaderMap)
    : result HeaderMap MeowError :=
  match parse_url url with
  | Err e => Err (from_code ParameterEmpty e)
  | Ok u =>
      let canonical_uri := bs "/" ++ os_bucket s ++ su_path u in
      let? headers :=
        oss_signed_headers method canonical_uri (su_query u) [] None (os_access_key_id s) (os_access_key_secret s) (os_region s) now in
      Ok (headers ∪ base)
  end.

(** A header the task does not have. *)
Definition or_accept (h : HeaderMap) : HeaderMap :=
  match get h ACCEPT with Some _ => h | None => insert_header ACCEPT DEFAULT_RANGE_ACCEPT h end.

Definition oss_resume_identity (s : OssSigner) (headers : HeaderMap) : list Z :=
  canonical_resume_headers (or_accept headers) ++ bs "rusty-cat/aliyun-oss-direct/v1" ++ [0]
  ++ identity_field (os_bucket s) ++ identity_field (os_access_key_id s) ++ identity_field (os_region s).

Definition oss_merge_range_get_headers (s : OssSigner) (url : string) (now : UtcTime) (range_value : string) (base : HeaderMap)
    : result HeaderMap MeowError :=
  let? v := header_value (bs range_value) in
  oss_apply_signed_headers s url (bs "GET") now (or_accept (insert_header RANGE v base)).

Definition oss_direct_download (s : OssSigner) (url : string) (now : UtcTime) : BreakpointDownload :=
  mkBreakpoint (mkRangeProtocol (λ _ range_value base, oss_merge_range_get_headers s url now range_value base) (λ _, url))
    (λ t, Ok (Some (oss_resume_identity s (pt_headers t)))) (λ _, None) false (λ _, url)
    (λ _ base, oss_apply_signed_headers s url (bs "HEAD") now base) total_size_from_head.

(** ** Azure: the text that is signed *)

Definition weekday (w : nat) : list Z := bs (nth w ["Mon"; "Tue"; "Wed"; "Thu"; "Fri"; "Sat"; "Sun"] EmptyString).
Definition month (m : nat) : list Z :=
  bs (nth (pred m) ["Jan"; "Feb"; "Mar"; "Apr"; "May"; "Jun"; "Jul"; "Aug"; "Sep"; "Oct"; "Nov"; "Dec"] EmptyString).
Definition rfc1123_gmt (t : UtcTime) : list Z :=
  weekday (u_weekday t) ++ bs ", " ++ pad 2 (u_day t) ++ bs " " ++ month (u_month t) ++ bs " " ++ pad 4 (u_year t) ++ bs " "
  ++ pad 2 (u_hour t) ++ bs ":" ++ pad 2 (u_minute t) ++ bs ":" ++ pad 2 (u_second t) ++ bs " GMT".

Definition HEADER_MS_DATE : string := "x-ms-date".
Definition HEADER_MS_VERSION : string := "x-ms-version".
Definition HEADER_AUTHORIZATION : string := "authorization".
Definition MS_VERSION : list Z := bs "2023-11-03".

Definition header_map_value (headers : HeaderMap) (name : string) : list Z :=
  match get headers name with
  | Some v => match to_str v with Some s => trim s | None => [] end
  | None => []
  end.
Definition canonicalized_content_length (headers : HeaderMap) : list Z :=
  let raw := header_map_value headers "content-length" in
  if bool_decide (raw = bs "0") then [] else raw.

Definition is_ms_header (name : string) : bool := starts_with (bs "x-ms-") (bs name).
(** The lines of one header; [None] where a value is no text. *)
Definition header_lines (kv : string * list (list Z)) : option (list (list Z)) :=
  mapM (λ v, s ← to_str v; Some (bs kv.1 ++ 58 :: trim s)) kv.2.
Definition ms_lines (headers : HeaderMap) : option (list (list Z)) :=
  lines ← mapM header_lines (merge_sort name_le (map_to_list (filter (λ kv, is_ms_header kv.1 = true) headers)));
  Some (concat lines).
Definition canonicalized_headers (headers : HeaderMap) : result (list Z) MeowError :=
  match ms_lines headers with
  | Some lines => Ok (concat (map (λ line, line ++ [10]) lines))
  | None => Err (from_code ParameterEmpty "x-ms header is not valid ASCII: failed to convert header to a str")
  end.

(** [BTreeMap::entry] with [push]. *)
Fixpoint push_query (k v : list Z) (m : list (list Z * list (list Z))) : list (list Z * list (list Z)) :=
  match m with
  | [] => [(k, [v])]
  | (k', vs) :: r =>
      if bool_decide (k = k') then (k', vs ++ [v]) :: r
      else if bytes_leb k k' then (k, [v]) :: m
      else (k', vs) :: push_query k v r
  end.
Definition canonicalized_resource (url : SignedUrl) (account_name : list Z) : list Z :=
  let query_map := foldl (λ m kv, push_query (lower kv.1) kv.2 m) [] (su_pairs url) in
  bs "/" ++ account_name ++ su_path url
  ++ concat (map (λ kvs, 10 :: kvs.1 ++ 58 :: join_with 44 (merge_sort bytes_le kvs.2)) query_map).

(** What is signed before the headers of the service and the resource. *)
Definition signed_fields (method : list Z) (headers : HeaderMap) : list (list Z) :=
  [method; header_map_value headers "content-encoding"; header_map_value headers "content-language";
   canonicalized_content_length headers; header_map_value headers "content-md5"; header_map_value headers "content-type"; [];
   header_map_value headers "if-modified-since"; header_map_value headers IF_MATCH; header_map_value headers "if-none-match";
   header_map_value headers "if-unmodified-since"; header_map_value headers RANGE].
Definition string_to_sign (method : list Z) (url : SignedUrl) (headers : HeaderMap) (account_name : list Z)
    : result (list Z) MeowError :=
  let? canonicalized_headers := canonicalized_headers headers in
  Ok (concat (map (λ field, field ++ [10]) (signed_fields method headers)) ++ canonicalized_headers
      ++ canonicalized_resource url account_name).

Definition build_authorization_with_key (method : list Z) (url : SignedUrl) (headers : HeaderMap) (account_name account_key : list Z)
    : result (list Z) MeowError :=
  let? text := string_to_sign method url headers account_name in
  Ok (bs "SharedKey " ++ account_name ++ bs ":" ++ b64_encode (hmac account_key text)).

(** ** Azure: the headers *)

Definition az_insert_header (name : string) (value : list Z) (headers : HeaderMap) : result HeaderMap MeowError :=
  match header_name name with
  | Err e => Err (from_code ParameterEmpty ("invalid header name '" +:+ name +:+ "': " +:+ e))
  | Ok name =>
      match header_value value with
      | Err _ => Err (from_code ParameterEmpty ("invalid header value for '" +:+ name +:+ "': failed to parse header value"))
      | Ok v => Ok (insert_header name v headers)
      end
  end.
Fixpoint az_insert_headers (pairs : list (string * list Z)) (headers : HeaderMap) : result HeaderMap MeowError :=
  match pairs with
  | [] => Ok headers
  | (k, v) :: pairs => let? headers := az_insert_header k v headers in az_insert_headers pairs headers
  end.

Definition az_signed_headers_with_key (method : list Z) (url : SignedUrl) (content_length : option Z) (content_type : option (list Z))
    (extra_headers : list (string * list Z)) (account_name account_key : list Z) (now : UtcTime) : result HeaderMap MeowError :=
  let? headers := az_insert_header HEADER_MS_VERSION MS_VERSION ∅ in
  let? headers := az_insert_header HEADER_MS_DATE (rfc1123_gmt now) headers in
  let? headers := match content_type with Some v => az_insert_header "content-type" v headers | None => Ok headers end in
  let? headers :=
    match content_length with Some v => az_insert_header "content-length" (bs (pretty v)) headers | None => Ok headers end in
  let? headers := az_insert_headers extra_headers headers in
  let? authorization := build_authorization_with_key method url headers account_name account_key in
  az_insert_header HEADER_AUTHORIZATION authorization headers.

Definition decode_account_key (account_key_b64 : list Z) : result (list Z) MeowError :=
  match b64_decode account_key_b64 with
  | Ok key => Ok key
  | Err e => Err (from_code ParameterEmpty ("decode azure account key failed: " +:+ e))
  end.
Definition build_authorization (method : list Z) (url : SignedUrl) (headers : HeaderMap) (account_name account_key_b64 : list Z)
    : result (list Z) MeowError :=
  let? key := decode_account_key account_key_b64 in
  build_authorization_with_key method url headers account_name key.

Definition az_apply_signed_headers (task_url : string) (method : list Z) (account_name account_key_b64 : list Z) (now : UtcTime)
    (base : HeaderMap) : result HeaderMap MeowError :=
  match parse_url task_url with
  | Err e =>
      Err (from_code ParameterEmpty ("invalid azure blob url: " +:+ str_of (sanitize_url (bs task_url)) +:+ " (" +:+ e +:+ ")"))
  | Ok url =>
      let? base := az_insert_header HEADER_MS_VERSION MS_VERSION base in
      let? base := az_insert_header HEADER_MS_DATE (rfc1123_gmt now) base in
      let? auth := build_authorization method url base account_name account_key_b64 in
      az_insert_header HEADER_AUTHORIZATION auth base
  end.

(** [AzureBlobDirectUpload::account_key]: the key is decoded once. *)
Definition account_key (account_key_b64 : list Z) (cache : option (list Z)) : option (list Z) * result (list Z) MeowError :=
  match cache with
  | Some key => (cache, Ok key)
  | None =>
      match decode_account_key account_key_b64 with
      | Ok key => (Some key, Ok key)
      | Err e => (None, Err e)
      end
  end.

(** ** Azure: the download *)

Definition az_resume_identity (account_name : list Z) (headers : HeaderMap) : list Z :=
  canonical_resume_headers (insert_header HEADER_MS_VERSION MS_VERSION (or_accept headers))
  ++ bs "rusty-cat/azure-blob-direct/v1" ++ [0] ++ identity_field account_name.

Definition az_merge_range_get_headers (account_name account_key_b64 : list Z) (url : string) (now : UtcTime) (range_value : string)
    (base : HeaderMap) : result HeaderMap MeowError :=
  let? v := header_value (bs range_value) in
  az_apply_signed_headers url (bs "GET") account_name account_key_b64 now (or_accept (insert_header RANGE v base)).

Definition az_range_protocol (account_name account_key_b64 : list Z) (url : string) (now : UtcTime) : RangeProtocol :=
  mkRangeProtocol (λ _ range_value base, az_merge_range_get_headers account_name account_key_b64 url now range_value base) (λ _, url).
Definition az_direct_download (account_name account_key_b64 : list Z) (url : string) (now : UtcTime) : BreakpointDownload :=
  mkBreakpoint (az_range_protocol account_name account_key_b64 url now)
    (λ t, Ok (Some (az_resume_identity account_name (pt_headers t)))) (λ _, None) false (λ _, url)
    (λ _ base, az_apply_signed_headers url (bs "HEAD") account_name account_key_b64 now base) total_size_from_head.

End Signing.
