(* ===== verification/ProviderSigningProps.v ===== *)
(** * What a provider's signature covers

    The text that is signed determines the request: two OSS requests with the same signature, or
    two Azure range requests with the same authorization, ask for the same thing, unless the two
    texts collide under SHA-256 or HMAC. The cached keys of an upload sign as freshly derived keys
    do, and the order of query parameters does not matter. *)
From stdpp Require Import sorting.
From S2P Require Import Prelude Errors Sidecar HttpHeaders DownloadIdentity DownloadTask RangeDownload DownloadPrepare TargetLease ProviderXml PresignedDownload LogRedact LogRedactProps ProtocolDefaults ProviderSigning.
#[local] Open Scope Z_scope.

Example canonical_query_rules :
  map (λ q, str_of (canonical_query (bs q)))
    ["z=last&a=space%20value&a=plus%2Bvalue&plus=raw+plus&slash=%2F&amp=%26&encoded=%252F&bare&empty=&lower=%2f&&";
     "uploads"; EmptyString; "bad=%GG"; "=value&&a=1"]
  = ["a=plus%2Bvalue&a=plus%2Bvalue&amp=%26&bare&empty&encoded=%252F&lower=%2f&plus=raw%20plus&slash=%2F&z=last";
     "uploads"; EmptyString; "bad=%GG"; "=value&a=1"].
Proof. vm_compute. reflexivity. Qed.

(** ** Lines *)

Definition one_line (l : list Z) : Prop := 10 ∉ l.

Lemma line_inj x y t t' : one_line x → one_line y → x ++ 10 :: t = y ++ 10 :: t' → x = y ∧ t = t'.
Proof.
  intros Hx Hy H. apply (f_equal (split_once 10)) in H. rewrite !split_once_at in H by done. by injection H as -> ->.
Qed.
Lemma lines_inj l l' t t' :
  length l = length l' → Forall one_line l → Forall one_line l' →
  concat (map (λ x, x ++ [10]) l) ++ t = concat (map (λ x, x ++ [10]) l') ++ t' → l = l' ∧ t = t'.
Proof.
  intros Hlen Hl. revert l' Hlen. induction Hl as [|x l Hx Hl IH]; intros [|y l'] Hlen Hl' H; try done.
  apply Forall_cons in Hl' as [Hy Hl']. cbn [map concat] in H. rewrite <- !(assoc_L (++)) in H. cbn [app] in H.
  apply line_inj in H as [-> H]; [|done..]. destruct (IH l' ltac:(simpl in Hlen; lia) Hl' H) as [-> ->]. done.
Qed.
(** Lines that a character ends which none of them starts with. *)
Lemma lines_until c l l' t t' :
  Forall (λ x, one_line x ∧ x ≠ [] ∧ head x ≠ Some c) l → Forall (λ x, one_line x ∧ x ≠ [] ∧ head x ≠ Some c) l' →
  concat (map (λ x, x ++ [10]) l) ++ c :: t = concat (map (λ x, x ++ [10]) l') ++ c :: t' → l = l' ∧ t = t'.
Proof.
  intros Hl. revert l'. induction Hl as [|x l (Hx & Hne & Hh) Hl IH]; intros l' Hl' H.
  - destruct Hl' as [|y l' (_ & Hne & Hh) _]; cbn in H; [by injection H as ->|].
    exfalso. destruct y as [|b y]; [done|]. cbn in *. congruence.
  - destruct Hl' as [|y l' (Hy & Hne' & Hh') Hl'].
    { exfalso. destruct x as [|b x]; [done|]. cbn in *. congruence. }
    cbn [map concat] in H. rewrite <- !(assoc_L (++)) in H. cbn [app] in H.
    apply line_inj in H as [-> H]; [|done..]. destruct (IH l' Hl' H) as [-> ->]. done.
Qed.

Lemma one_line_app x y : one_line x → one_line y → one_line (x ++ y).
Proof. unfold one_line. intros. rewrite elem_of_app. tauto. Qed.

(** ** OSS *)

(** A request whose parts are single lines, and whose header names have no colon. *)
Record oss_clean (r : SignRequest) : Prop := mkOssClean {
  oc_method : one_line (sr_method r);
  oc_uri : one_line (sr_canonical_uri r);
  oc_query : one_line (default [] (sr_raw_query r));
  oc_pairs : Forall (λ kv : string * list Z, one_line (bs kv.1) ∧ 58 ∉ bs kv.1 ∧ one_line kv.2) (sr_sign_pairs r);
  oc_additional : one_line (default [] (sr_additional_headers r));
}.

Lemma lower_notin c l : ¬ (97 ≤ c ≤ 122) → c ∉ l → c ∉ lower l.
Proof.
  intros Hl Hn. unfold lower. rewrite list_elem_of_fmap. intros (b & -> & Hb).
  unfold to_ascii_lowercase in *. destruct (_ && _) eqn:E; [zbool; lia|]. done.
Qed.
Lemma split_at_parts c l : Forall (λ p, ∀ x, x ∈ p → x ∈ l) (split_at c l).
Proof.
  induction l as [|b l IH]; cbn [split_at]; [constructor; [done|constructor]|].
  assert (Forall (λ p, ∀ x, x ∈ p → x ∈ b :: l) (split_at c l)) as IH' by (eapply Forall_impl; [exact IH|]; intros; by right; auto).
  destruct (b =? c); [constructor; [by intros ? ?%not_elem_of_nil|done]|].
  destruct (split_at c l) as [|s rest]; [constructor; [intros x Hx; apply list_elem_of_singleton in Hx as ->; by left|constructor]|].
  apply Forall_cons in IH' as [Hs Hr]. constructor; [|done]. intros x Hx. apply elem_of_cons in Hx as [->|Hx]; [by left|auto].
Qed.
Lemma one_line_concat l : Forall one_line l → one_line (concat l).
Proof. induction 1; [by apply not_elem_of_nil|]. by apply one_line_app. Qed.
Lemma one_line_join c l : c ≠ 10 → Forall one_line l → one_line (join_with c l).
Proof.
  intros Hc. induction 1 as [|x l Hx Hl IH]; [by apply not_elem_of_nil|]. destruct l as [|y l]; [done|].
  cbn [join_with]. apply one_line_app; [done|]. unfold one_line. rewrite elem_of_cons. intros [?|?]; [done|]. by apply IH.
Qed.

(** The names and values of a query without line breaks have none. *)
Lemma components_one_line raw : one_line raw → Forall (λ kv, one_line kv.1 ∧ one_line kv.2) (query_components raw).
Proof.
  intros Hr. unfold query_components. set (normalized := concat _).
  assert (one_line normalized) as Hn.
  { apply one_line_concat, Forall_fmap, Forall_forall. intros b Hb. cbn. destruct (b =? 43); [by apply (bool_decide_unpack _); vm_compute|].
    intros H. apply list_elem_of_singleton in H as <-. done. }
  apply Forall_fmap, Forall_forall. intros c Hc. apply list_elem_of_In, filter_In in Hc as [Hc _]. apply list_elem_of_In in Hc.
  pose proof (split_at_parts 38 normalized) as Hp. rewrite Forall_forall in Hp. specialize (Hp c Hc).
  assert (one_line c) as Hcl by (intros H; by apply Hn, Hp). cbn.
  destruct (split_once 61 c) as [[k v]|] eqn:E; cbn; [|split; [done|by apply not_elem_of_nil]].
  apply split_once_inv in E as [-> _]. unfold one_line in *. rewrite elem_of_app, elem_of_cons in Hcl. tauto.
Qed.
Lemma canonical_query_one_line raw : one_line raw → one_line (canonical_query raw).
Proof.
  intros Hr. pose proof (components_one_line raw Hr) as Hc. unfold canonical_query. apply one_line_join; [done|].
  apply Forall_fmap. rewrite merge_sort_Permutation. apply Forall_fmap. eapply Forall_impl; [exact Hc|]. intros [k v] [Hk _]. cbn in *.
  assert (one_line (last_value (query_components raw) k)) as Hl.
  { unfold last_value. destruct (last _) as [kv|] eqn:E; [|by apply not_elem_of_nil]. cbn. apply last_Some_elem_of, list_elem_of_In, filter_In in E as [E _].
    rewrite Forall_forall in Hc. apply (Hc kv). by apply list_elem_of_In. }
  destruct (last_value _ k); [done|]. apply one_line_app; [done|]. unfold one_line. rewrite elem_of_cons. intros [?|?]; done.
Qed.

Lemma insert_entry_perm e l : insert_entry e l ≡ₚ e :: l.
Proof. induction l as [|f l IH]; [done|]. cbn [insert_entry]. destruct (bytes_leb e.1 f.1); [done|]. rewrite IH. apply Permutation_swap. Qed.
Lemma sort_entries_perm l : sort_entries l ≡ₚ l.
Proof. induction l as [|e l IH]; [done|]. cbn. by rewrite insert_entry_perm, IH. Qed.

Definition entry_line (kv : list Z * list Z) : list Z := kv.1 ++ 58 :: kv.2.
Lemma entry_line_inj l l' :
  Forall (λ kv : list Z * list Z, 58 ∉ kv.1) l → Forall (λ kv : list Z * list Z, 58 ∉ kv.1) l' →
  map entry_line l = map entry_line l' → l = l'.
Proof.
  intros Hl. revert l'. induction Hl as [|[k v] l Hk Hl IH]; intros [|[k' v'] l'] Hl' H; try done.
  apply Forall_cons in Hl' as [Hk' Hl']. injection H as H1 H2. f_equal; [|by apply IH].
  apply (f_equal (split_once 58)) in H1. unfold entry_line in H1. cbn in *. rewrite !split_once_at in H1 by done. by injection H1 as -> ->.
Qed.

(** The lines and names of the headers that are signed. *)
Lemma oss_entries_ok r iso :
  oss_clean r → one_line iso →
  Forall (λ kv : list Z * list Z, 58 ∉ kv.1 ∧ one_line kv.1 ∧ one_line kv.2) (oss_entries iso (sr_sign_pairs r)).
Proof.
  intros Hc Hi. unfold oss_entries. rewrite sort_entries_perm. constructor; [|constructor].
  - split_and!; apply (bool_decide_unpack _); by vm_compute.
  - split_and!; [apply (bool_decide_unpack _); by vm_compute..|done].
  - apply Forall_fmap. eapply Forall_impl; [apply Hc|]. intros [k v] (H1 & H2 & H3). cbn in *.
    split_and!; [by apply lower_notin; [lia|]..|done].
Qed.

Lemma canonical_request_inj r r' iso :
  oss_clean r → oss_clean r' → one_line iso →
  canonical_request (sr_method r) (sr_canonical_uri r) (sr_raw_query r) (sr_sign_pairs r) (default [] (sr_additional_headers r)) iso
  = canonical_request (sr_method r') (sr_canonical_uri r') (sr_raw_query r') (sr_sign_pairs r') (default [] (sr_additional_headers r')) iso →
  sr_method r = sr_method r' ∧ sr_canonical_uri r = sr_canonical_uri r'
  ∧ canonical_query (default [] (sr_raw_query r)) = canonical_query (default [] (sr_raw_query r'))
  ∧ oss_entries iso (sr_sign_pairs r) = oss_entries iso (sr_sign_pairs r')
  ∧ default [] (sr_additional_headers r) = default [] (sr_additional_headers r').
Proof.
  intros Hc Hc' Hi H. unfold canonical_request in H.
  apply line_inj in H as [-> H]; [|apply Hc|apply Hc']. apply line_inj in H as [-> H]; [|apply Hc|apply Hc'].
  apply line_inj in H as [-> H]; [|apply canonical_query_one_line; [apply Hc || apply Hc']..].
  assert (∀ l : list (list Z * list Z), concat (map (λ kv : list Z * list Z, kv.1 ++ 58 :: kv.2 ++ [10]) l)
    = concat (map (λ x, x ++ [10]) (map entry_line l))) as Hl.
  { intros l. rewrite map_map. f_equal. apply map_ext. intros [k v]. unfold entry_line. cbn. by rewrite <- (assoc_L (++)). }
  rewrite !Hl in H. pose proof (oss_entries_ok r iso Hc Hi) as He. pose proof (oss_entries_ok r' iso Hc' Hi) as He'.
  assert (∀ l, Forall (λ kv : list Z * list Z, 58 ∉ kv.1 ∧ one_line kv.1 ∧ one_line kv.2) l →
    Forall (λ x, one_line x ∧ x ≠ [] ∧ head x ≠ Some 10) (map entry_line l)) as Hlines.
  { intros l Hf. apply Forall_fmap. eapply Forall_impl; [exact Hf|]. intros [k v] (H1 & H2 & H3). unfold entry_line. cbn in *.
    assert (one_line (k ++ 58 :: v)) as Hk by (apply one_line_app; [done|]; unfold one_line; rewrite elem_of_cons; intros [?|?]; done).
    split_and!; [done|by destruct k|]. intros E. apply Hk. destruct (k ++ 58 :: v); [done|]. injection E as ->. left. }
  apply lines_until in H as [Hm H]; [|by apply Hlines..]. apply entry_line_inj in Hm as ->; [|eapply Forall_impl; [done|]; by intros ? []..].
  apply line_inj in H as [-> _]; [|apply Hc|apply Hc']. done.
Qed.

Lemma header_value_Ok v v' : header_value v = Ok v' → v' = v ∧ one_line v.
Proof.
  unfold header_value. destruct (forallb _ v) eqn:E; [|done]. intros [= <-]. split; [done|]. intros H.
  eapply forallb_forall in E; [|by apply list_elem_of_In, H]. done.
Qed.

Section Oss.
Context (hmac : list Z → list Z → list Z) (sha256 : list Z → list Z) (header_name : string → result string string).
(** Both functions return bytes, and HMAC-SHA-256 returns 32 of them. *)
Hypothesis hmac_bytes : ∀ k x, Forall (λ b, 0 ≤ b < 256) (hmac k x) ∧ length (hmac k x) = 32%nat.
Hypothesis sha256_bytes : ∀ x, Forall (λ b, 0 ≤ b < 256) (sha256 x).

Definition oss_sign (r : SignRequest) (access_key_id region : list Z) (now : UtcTime) (key : list Z) : result HeaderMap MeowError :=
  oss_signed_headers_with_key hmac sha256 header_name (sr_method r) (sr_canonical_uri r) (sr_raw_query r) (sr_sign_pairs r)
    (sr_additional_headers r) access_key_id region now key.
Definition oss_canonical (r : SignRequest) (now : UtcTime) : list Z :=
  canonical_request (sr_method r) (sr_canonical_uri r) (sr_raw_query r) (sr_sign_pairs r) (default [] (sr_additional_headers r))
    (format_iso8601_basic_z now).
Definition oss_text (r : SignRequest) (region : list Z) (now : UtcTime) : list Z :=
  oss_string_to_sign sha256 (sr_method r) (sr_canonical_uri r) (sr_raw_query r) (sr_sign_pairs r)
    (default [] (sr_additional_headers r)) region now.

Lemma oss_sign_Ok r akid region now key h :
  oss_sign r akid region now key = Ok h →
  one_line (format_iso8601_basic_z now)
  ∧ ∃ prefix, get_all h "authorization" = [prefix ++ hex_encode (hmac key (oss_text r region now))].
Proof.
  unfold oss_sign, oss_signed_headers_with_key. fold (oss_text r region now).
  destruct (header_value (format_iso8601_basic_z now)) as [iso|] eqn:Hi; [|done].
  destruct (header_value OSS_UNSIGNED_PAYLOAD) as [pay|]; [|done]. destruct (insert_sign_pairs _ _ _) as [hs|]; [|done].
  match goal with |- context [header_value ?a] => destruct (header_value a) as [auth|] eqn:Ha end; [|done]. intros [= <-].
  apply header_value_Ok in Hi as [_ Hi]. apply header_value_Ok in Ha as [-> _]. split; [done|].
  rewrite get_all_insert. eexists. rewrite !(assoc_L (++)). done.
Qed.

Lemma length_hex l : length (hex_encode l) = (2 * length l)%nat.
Proof. unfold hex_encode. induction l as [|b l IH]; [done|]. cbn. unfold hex_encode in IH. lia. Qed.

(** C17: two requests that OSS is sent with the same authorization, signed at the same instant with
    the same key, are the same request to OSS: the same method, resource, canonical query, signed
    headers and list of additional headers; otherwise their canonical requests collide under
    SHA-256 or the texts signed for them under HMAC. *)
Theorem oss_authorization_binds r r' akid akid' region now key h h' :
  oss_clean r → oss_clean r' →
  oss_sign r akid region now key = Ok h → oss_sign r' akid' region now key = Ok h' →
  get_all h "authorization" = get_all h' "authorization" →
  (sr_method r = sr_method r' ∧ sr_canonical_uri r = sr_canonical_uri r'
   ∧ canonical_query (default [] (sr_raw_query r)) = canonical_query (default [] (sr_raw_query r'))
   ∧ oss_entries (format_iso8601_basic_z now) (sr_sign_pairs r) = oss_entries (format_iso8601_basic_z now) (sr_sign_pairs r')
   ∧ default [] (sr_additional_headers r) = default [] (sr_additional_headers r'))
  ∨ (oss_canonical r now ≠ oss_canonical r' now ∧ sha256 (oss_canonical r now) = sha256 (oss_canonical r' now))
  ∨ (oss_text r region now ≠ oss_text r' region now ∧ hmac key (oss_text r region now) = hmac key (oss_text r' region now)).
Proof.
  intros Hc Hc' [Hi [p Hp]]%oss_sign_Ok [_ [p' Hp']]%oss_sign_Ok Heq. rewrite Hp, Hp' in Heq. injection Heq as Heq.
  apply app_inj_2 in Heq as [_ Hsig]; [|by rewrite !length_hex, !(proj2 (hmac_bytes _ _))].
  apply hex_inj in Hsig; [|apply hmac_bytes..].
  destruct (decide (oss_text r region now = oss_text r' region now)) as [Ht|]; [|by right; right].
  unfold oss_text, oss_string_to_sign in Ht. apply app_inv_head in Ht. injection Ht as Ht. apply app_inv_head in Ht. injection Ht as Ht.
  apply app_inv_head in Ht. injection Ht as Ht. apply hex_inj in Ht; [|apply sha256_bytes..].
  destruct (decide (oss_canonical r now = oss_canonical r' now)) as [Hr|]; [|by right; left]. left. by apply canonical_request_inj.
Qed.

(** ** The cached key *)

(** The requests of an upload, signed one after the other. *)
Fixpoint sign_all (s : OssSigner) (requests : list (UtcTime * SignRequest)) (cache : KeyCache) : list (result HeaderMap MeowError) :=
  match requests with
  | [] => []
  | (now, r) :: requests =>
      let '(cache, h) := build_signed_headers hmac sha256 header_name s now r cache in
      h :: sign_all s requests cache
  end.

Definition cache_ok (s : OssSigner) (cache : KeyCache) : Prop :=
  ∀ date key, cache = Some (date, key) → key = derive_signing_key hmac (os_access_key_secret s) date (os_region s).

Lemma signing_key_for_ok s date cache :
  cache_ok s cache → cache_ok s (signing_key_for hmac s date cache).1
  ∧ (signing_key_for hmac s date cache).2 = derive_signing_key hmac (os_access_key_secret s) date (os_region s).
Proof.
  intros Hc. unfold signing_key_for. destruct cache as [[d k]|]; [destruct (bool_decide_reflect (d = date)) as [<-|]|]; cbn.
  - split; [done|by apply Hc].
  - split; [by intros ? ? [= <- <-]|done].
  - split; [by intros ? ? [= <- <-]|done].
Qed.

(** The cache of the signing key changes nothing: whatever the days on which an upload signs
    its requests, and in whatever order, each is signed as with a key derived for it. *)
Theorem oss_cache_transparent s requests :
  sign_all s requests None
  = map (λ nr : UtcTime * SignRequest,
      oss_signed_headers hmac sha256 header_name (sr_method nr.2) (sr_canonical_uri nr.2) (sr_raw_query nr.2) (sr_sign_pairs nr.2)
        (sr_additional_headers nr.2) (os_access_key_id s) (os_access_key_secret s) (os_region s) nr.1) requests.
Proof.
  assert (cache_ok s None) as Hc by done. revert Hc. generalize (None : KeyCache).
  induction requests as [|[now r] requests IH]; intros cache Hc; [done|]. cbn [sign_all map fst snd]. unfold build_signed_headers.
  destruct (signing_key_for_ok s (oss_date now) cache Hc) as [Hc' Hk]. destruct (signing_key_for hmac s (oss_date now) cache) as [cache' key].
  cbn in *. subst key. f_equal. by apply IH.
Qed.
End Oss.

(** ** The order of parameters *)

#[local] Instance bytes_le_antisym : AntiSymm (=) bytes_le.
Proof. intros a b. apply bytes_leb_antisym. Qed.
#[local] Instance bytes_le_is_total : Total bytes_le.
Proof. intros a b. apply bytes_leb_total. Qed.
#[local] Instance bytes_le_is_trans : Transitive bytes_le.
Proof. intros a b c. apply bytes_leb_trans. Qed.

Lemma last_value_elem pairs k v : NoDup pairs.*1 → (k, v) ∈ pairs → last_value pairs k = v.
Proof.
  unfold last_value. induction pairs as [|[k' v'] pairs IH]; [by intros _ ?%not_elem_of_nil|]. intros Hnd Hin. cbn in Hnd.
  apply NoDup_cons in Hnd as [Hk Hnd]. cbn [List.filter]. cbn [fst]. apply elem_of_cons in Hin as [[= <- <-]|Hin].
  - rewrite bool_decide_true by done. rewrite (filter_none (λ kv : list Z * list Z, bool_decide (kv.1 = k))); [done|].
    apply Forall_forall. intros [k2 v2] H2. apply bool_decide_eq_false. cbn. intros ->. apply Hk. by apply (list_elem_of_fmap_2 fst) in H2.
  - rewrite bool_decide_false; [by apply IH|]. intros <-. apply Hk. by apply (list_elem_of_fmap_2 fst) in Hin.
Qed.

(** Parameters with different names may be given in any order. *)
Lemma canonical_query_order q q' :
  NoDup (query_components q).*1 → query_components q ≡ₚ query_components q' → canonical_query q = canonical_query q'.
Proof.
  intros Hnd Hp. unfold canonical_query. f_equal.
  assert (merge_sort bytes_le (query_components q).*1 = merge_sort bytes_le (query_components q').*1) as Hs.
  { apply (Sorted_unique bytes_le); [apply Sorted_merge_sort, _..|]. rewrite !merge_sort_Permutation. by rewrite Hp. }
  change (map fst (query_components q)) with ((query_components q).*1). change (map fst (query_components q')) with ((query_components q').*1).
  rewrite <- Hs. apply map_ext_in. intros k Hk. apply list_elem_of_In in Hk. rewrite merge_sort_Permutation in Hk.
  apply list_elem_of_fmap in Hk as ([k' v] & -> & Hin). cbn. rewrite (last_value_elem _ k' v), (last_value_elem (query_components q') k' v); [done|by rewrite <- Hp..|done|done].
Qed.

(** Two requests that differ in the order of their parameters. *)
Definition demo_hmac (k x : list Z) : list Z := take 32 (map (λ b, b mod 256) (x ++ k) ++ replicate 32 0).
Definition demo_sign_request (q : string) : SignRequest :=
  mkSignRequest (bs "PUT") (bs "/bucket/object") (Some (bs q)) [("Content-Type", bs "application/xml")] (Some (bs "content-type")).
Definition demo_now : UtcTime := mkUtc 2026 6 27 1 2 3 5.

Lemma demo_hmac_bytes k x : Forall (λ b, 0 ≤ b < 256) (demo_hmac k x) ∧ length (demo_hmac k x) = 32%nat.
Proof.
  unfold demo_hmac. split.
  - apply Forall_take, Forall_app. split; [apply Forall_fmap, Forall_true; intros; apply Z.mod_pos_bound; lia|].
    apply Forall_replicate. lia.
  - rewrite length_take, length_app, length_replicate. lia.
Qed.
Lemma demo_request_clean q : one_line (bs q) → oss_clean (demo_sign_request q).
Proof.
  intros Hq. split; cbn [sr_method sr_canonical_uri sr_raw_query sr_sign_pairs sr_additional_headers demo_sign_request default];
    [apply (bool_decide_unpack _); by vm_compute|apply (bool_decide_unpack _); by vm_compute|done| |apply (bool_decide_unpack _); by vm_compute].
  repeat constructor; cbn [fst snd]; apply (bool_decide_unpack _); by vm_compute.
Qed.

Definition demo_oss_sign (q : string) : result HeaderMap MeowError :=
  oss_sign demo_hmac (demo_hmac []) Ok (demo_sign_request q) (bs "id") (bs "cn") demo_now (bs "key").
Definition authorization_of (r : result HeaderMap MeowError) : option (list (list Z)) :=
  match r with Ok h => Some (get_all h "authorization") | Err _ => None end.

Lemma authorization_Ok r a : authorization_of r = Some a → ∃ h, r = Ok h ∧ get_all h "authorization" = a.
Proof. destruct r as [h|]; [|done]. intros [= <-]. by exists h. Qed.

Lemma oss_authorization_binds_witness :
  authorization_of (demo_oss_sign "uploadId=a&partNumber=1") = authorization_of (demo_oss_sign "partNumber=1&uploadId=a")
  ∧ canonical_query (bs "uploadId=a&partNumber=1") = canonical_query (bs "partNumber=1&uploadId=a").
Proof.
  assert (authorization_of (demo_oss_sign "uploadId=a&partNumber=1") = authorization_of (demo_oss_sign "partNumber=1&uploadId=a")) as Ha
    by (vm_compute; reflexivity).
  split; [exact Ha|].
  destruct (authorization_of (demo_oss_sign "partNumber=1&uploadId=a")) as [a|] eqn:H'; [|by vm_compute in H'].
  destruct (authorization_Ok _ _ Ha) as (h & Hh & Hau). destruct (authorization_Ok _ _ H') as (h' & Hh' & Hau').
  destruct (oss_authorization_binds demo_hmac (demo_hmac []) Ok demo_hmac_bytes (λ x, proj1 (demo_hmac_bytes [] x))
    (demo_sign_request "uploadId=a&partNumber=1") (demo_sign_request "partNumber=1&uploadId=a") (bs "id") (bs "id")
    (bs "cn") demo_now (bs "key") h h') as [(_ & _ & Hq & _)|[[Hne _]|[Hne _]]].
  - apply demo_request_clean. apply (bool_decide_unpack _). by vm_compute.
  - apply demo_request_clean. apply (bool_decide_unpack _). by vm_compute.
  - exact Hh.
  - exact Hh'.
  - by rewrite Hau, Hau'.
  - exact Hq.
  - destruct Hne. by vm_compute.
  - destruct Hne. by vm_compute.
Defined.

(** ** Azure: the text determines the request *)

Lemma trim_start_subset ws l x : x ∈ trim_start_by ws l → x ∈ l.
Proof. induction l as [|b l IH]; [done|]. cbn. destruct (ws b); [|done]. intros H. right. by apply IH. Qed.
Lemma trim_subset l x : x ∈ trim l → x ∈ l.
Proof.
  unfold trim, trim_by. rewrite elem_of_reverse. intros H%trim_start_subset. rewrite elem_of_reverse in H. by apply trim_start_subset in H.
Qed.
Lemma to_str_one_line v s : to_str v = Some s → one_line (trim s).
Proof.
  unfold to_str. destruct (forallb is_visible_ascii v) eqn:E; [|done]. intros [= <-] H%trim_subset.
  eapply forallb_forall in E; [|by apply list_elem_of_In, H]. done.
Qed.
Lemma header_map_value_one_line h name : one_line (header_map_value h name).
Proof.
  unfold header_map_value. destruct (get h name) as [v|]; [|by apply not_elem_of_nil].
  destruct (to_str v) as [s|] eqn:E; [by eapply to_str_one_line|by apply not_elem_of_nil].
Qed.
Lemma signed_fields_one_line m h : one_line m → Forall one_line (signed_fields m h).
Proof.
  intros Hm. unfold signed_fields, canonicalized_content_length.
  repeat (apply Forall_cons; split; [first [done|apply header_map_value_one_line|by apply not_elem_of_nil|idtac]|]); [|apply Forall_nil; done].
  destruct (bool_decide _); [by apply not_elem_of_nil|apply header_map_value_one_line].
Qed.

(** Header names have neither line breaks nor colons. *)
Definition names_ok (h : HeaderMap) : Prop := ∀ name vs, h !! name = Some vs → one_line (bs name) ∧ 58 ∉ bs name.

Lemma header_lines_ok kv lines :
  header_lines kv = Some lines →
  lines = map (λ v, bs kv.1 ++ 58 :: trim v) kv.2 ∧ Forall (λ v, one_line (trim v)) kv.2.
Proof.
  unfold header_lines. destruct kv as [k vs]. cbn [fst snd]. revert lines. induction vs as [|v vs IH]; intros lines; cbn [mapM].
  { intros [= <-]. by split; [|constructor]. }
  destruct (to_str v) as [s|] eqn:Hv; [|done]. cbn. destruct (mapM _ vs) as [ls|]; [|done]. cbn. intros [= <-].
  destruct (IH ls eq_refl) as [-> Hf]. pose proof (to_str_one_line _ _ Hv) as Ho. unfold to_str in Hv.
  destruct (forallb _ v); [|done]. injection Hv as <-. split; [done|by constructor].
Qed.
Lemma mapM_lines l ls :
  mapM header_lines l = Some ls →
  ls = map (λ kv : string * list (list Z), map (λ v, bs kv.1 ++ 58 :: trim v) kv.2) l
  ∧ Forall (λ kv : string * list (list Z), Forall (λ v, one_line (trim v)) kv.2) l.
Proof.
  revert ls. induction l as [|kv l IH]; intros ls; cbn [mapM]; [intros [= <-]; by split; [|constructor]|].
  destruct (header_lines kv) as [x|] eqn:Hx; [|done]. cbn. destruct (mapM header_lines l) as [xs|]; [|done]. cbn. intros [= <-].
  destruct (IH xs eq_refl) as [-> Hf]. apply header_lines_ok in Hx as [-> Hx]. split; [done|by constructor].
Qed.

Definition ms_groups (h : HeaderMap) : list (string * list (list Z)) :=
  merge_sort name_le (map_to_list (filter (λ kv, is_ms_header kv.1 = true) h)).
Lemma elem_of_ms_groups h k vs : (k, vs) ∈ ms_groups h ↔ h !! k = Some vs ∧ is_ms_header k = true.
Proof. unfold ms_groups. rewrite merge_sort_Permutation, elem_of_map_to_list, map_lookup_filter_Some. done. Qed.

Lemma ms_lines_ok h lines :
  names_ok h → ms_lines h = Some lines →
  lines = concat (map (λ kv : string * list (list Z), map (λ v, bs kv.1 ++ 58 :: trim v) kv.2) (ms_groups h))
  ∧ Forall (λ x, one_line x ∧ x ≠ [] ∧ head x ≠ Some 47) lines.
Proof.
  intros Hn. unfold ms_lines. fold (ms_groups h). destruct (mapM header_lines (ms_groups h)) as [ls|] eqn:E; [|done]. cbn. intros [= <-].
  apply mapM_lines in E as [-> Hf]. split; [done|]. apply Forall_concat, Forall_fmap, Forall_forall. intros [k vs] Hk. cbn.
  rewrite Forall_forall in Hf. pose proof (Hf _ Hk) as Hvs. cbn in Hvs. apply elem_of_ms_groups in Hk as [Hk Hms].
  destruct (Hn k vs Hk) as [H1 H2]. apply Forall_fmap. eapply Forall_impl; [exact Hvs|]. intros v Hv. cbn. split_and!.
  - apply one_line_app; [done|]. unfold one_line. rewrite elem_of_cons. intros [?|?]; done.
  - by destruct (bs k).
  - unfold is_ms_header in Hms. apply starts_with_spec in Hms as [r ->]. done.
Qed.

(** The lines of one header. *)
Definition lines_of (k : string) (lines : list (list Z)) : list (list Z) :=
  List.filter (λ line, bool_decide (split_once 58 line = Some (bs k, default [] (snd <$> split_once 58 line)))) lines.
Lemma lines_of_group k k' vs :
  58 ∉ bs k' → lines_of k (map (λ v, bs k' ++ 58 :: trim v) vs) = if decide (k = k') then map (λ v, bs k' ++ 58 :: trim v) vs else [].
Proof.
  intros Hk. unfold lines_of. destruct (decide (k = k')) as [->|Hne].
  - apply filter_all, Forall_fmap, Forall_true. intros v. cbn. rewrite split_once_at by done. by rewrite bool_decide_true.
  - apply filter_none, Forall_fmap, Forall_true. intros v. cbn. rewrite split_once_at by done. apply bool_decide_false.
    intros [= H]. apply Hne. symmetry. by apply bs_inj.
Qed.
Lemma lines_of_groups k (l : list (string * list (list Z))) :
  NoDup l.*1 → Forall (λ kv : string * list (list Z), 58 ∉ bs kv.1) l →
  lines_of k (concat (map (λ kv : string * list (list Z), map (λ v, bs kv.1 ++ 58 :: trim v) kv.2) l))
  = map (λ v, bs k ++ 58 :: trim v) (default [] (snd <$> find (λ kv : string * list (list Z), bool_decide (kv.1 = k)) l)).
Proof.
  intros Hnd Hf. induction Hf as [|[k' vs] l Hk Hf IH]; [done|]. cbn in Hnd. apply NoDup_cons in Hnd as [Hin Hnd]. specialize (IH Hnd).
  cbn [map concat fst snd find]. unfold lines_of in *. rewrite List.filter_app. fold (lines_of k (map (λ v, bs k' ++ 58 :: trim v) vs)).
  rewrite lines_of_group by done. rewrite IH. destruct (decide (k = k')) as [->|Hne].
  - rewrite bool_decide_true by done. cbn. destruct (find _ l) as [[k2 vs2]|] eqn:E; [|by rewrite app_nil_r].
    exfalso. apply find_some in E as [E1 E2]. apply bool_decide_eq_true in E2. cbn in E2. subst k2.
    apply list_elem_of_In in E1. apply Hin. by apply (list_elem_of_fmap_2 fst) in E1.
  - rewrite bool_decide_false by (cbn; congruence). done.
Qed.

Lemma ms_groups_find h k :
  is_ms_header k = true →
  default [] (snd <$> find (λ kv : string * list (list Z), bool_decide (kv.1 = k)) (ms_groups h)) = get_all h k.
Proof.
  intros Hms. unfold get_all. destruct (find _ (ms_groups h)) as [[k' vs]|] eqn:E.
  - apply find_some in E as [E1 E2]. apply bool_decide_eq_true in E2. cbn in E2. subst k'.
    apply list_elem_of_In, elem_of_ms_groups in E1 as [-> _]. done.
  - destruct (h !! k) as [vs|] eqn:Hk; [|done]. exfalso.
    assert ((k, vs) ∈ ms_groups h) as Hin by (by apply elem_of_ms_groups). apply list_elem_of_In in Hin.
    pose proof (find_none _ _ E _ Hin) as Hf. cbn in Hf. by apply bool_decide_eq_false in Hf.
Qed.
Lemma ms_groups_names h : NoDup (ms_groups h).*1.
Proof. unfold ms_groups. rewrite merge_sort_Permutation. apply NoDup_fst_map_to_list. Qed.

Lemma ms_lines_inj h h' lines k :
  names_ok h → names_ok h' → ms_lines h = Some lines → ms_lines h' = Some lines → is_ms_header k = true →
  map trim (get_all h k) = map trim (get_all h' k).
Proof.
  intros Hn Hn' H H' Hk. apply ms_lines_ok in H as [H _]; [|done]. apply ms_lines_ok in H' as [H' _]; [|done].
  assert (∀ g, names_ok g → lines_of k (concat (map (λ kv : string * list (list Z), map (λ v, bs kv.1 ++ 58 :: trim v) kv.2) (ms_groups g)))
    = map (λ v, bs k ++ 58 :: trim v) (get_all g k)) as Hg.
  { intros g Hgn. rewrite lines_of_groups; [by rewrite ms_groups_find|apply ms_groups_names|].
    apply Forall_forall. intros [k2 vs2] H2. apply elem_of_ms_groups in H2 as [H2 _]. by apply (Hgn _ _ H2). }
  assert (map (λ v, bs k ++ 58 :: trim v) (get_all h k) = map (λ v, bs k ++ 58 :: trim v) (get_all h' k)) as Heq
    by (rewrite <- !Hg by done; congruence).
  clear -Heq. revert Heq. generalize (get_all h k) (get_all h' k). induction l as [|x l IH]; intros [|y l'] Heq; try done.
  cbn in *. injection Heq as H1 H2. apply app_inv_head in H1. injection H1 as H1. by rewrite H1, (IH _ H2).
Qed.

(** A path without line breaks ends where the query begins. *)
Lemma resource_path u u' a :
  one_line (su_path u) → one_line (su_path u') → canonicalized_resource u a = canonicalized_resource u' a → su_path u = su_path u'.
Proof.
  intros Hu Hu' H. unfold canonicalized_resource in H. cbn [app bs] in H. injection H as H. apply app_inv_head in H.
  assert (∀ l : list (list Z * list (list Z)), concat (map (λ kvs, 10 :: kvs.1 ++ 58 :: join_with 44 (merge_sort bytes_le kvs.2)) l) = []
    ∨ ∃ r, concat (map (λ kvs, 10 :: kvs.1 ++ 58 :: join_with 44 (merge_sort bytes_le kvs.2)) l) = 10 :: r) as Hq
    by (intros [|kv l]; [by left|right; by eexists]).
  match type of H with _ ++ ?q = _ ++ ?q' => set (t := q) in *; set (t' := q') in * end.
  assert (t = [] ∨ ∃ r, t = 10 :: r) as Ht by apply Hq. assert (t' = [] ∨ ∃ r, t' = 10 :: r) as Ht' by apply Hq.
  clearbody t t'. destruct Ht as [->|[r ->]], Ht' as [->|[r' ->]].
  - by rewrite !app_nil_r in H.
  - exfalso. rewrite app_nil_r in H. apply Hu. rewrite H. set_solver.
  - exfalso. rewrite app_nil_r in H. apply Hu'. rewrite <- H. set_solver.
  - by apply line_inj in H as [-> _].
Qed.

Lemma Ok_inj {A E} (a b : A) : @Ok A E a = Ok b → a = b.
Proof. by intros [= ->]. Qed.

(** What the signature covers. *)
Definition signed_names : list string :=
  ["content-encoding"; "content-language"; "content-md5"; "content-type"; "if-modified-since"; IF_MATCH; "if-none-match";
   "if-unmodified-since"; RANGE].
Record same_signed (u u' : SignedUrl) (h h' : HeaderMap) : Prop := mkSameSigned {
  ss_path : su_path u = su_path u';
  ss_headers : ∀ name, name ∈ signed_names → header_map_value h name = header_map_value h' name;
  ss_length : canonicalized_content_length h = canonicalized_content_length h';
  ss_ms : ∀ name, is_ms_header name = true → map trim (get_all h name) = map trim (get_all h' name);
}.

Lemma string_to_sign_inj m m' u u' h h' a text :
  one_line m → one_line m' → one_line (su_path u) → one_line (su_path u') → names_ok h → names_ok h' →
  string_to_sign m u h a = Ok text → string_to_sign m' u' h' a = Ok text →
  m = m' ∧ canonicalized_resource u a = canonicalized_resource u' a ∧ same_signed u u' h h'.
Proof.
  intros Hm Hm' Hu Hu' Hn Hn'. unfold string_to_sign, canonicalized_headers.
  destruct (ms_lines h) as [ls|] eqn:El; [|done]. destruct (ms_lines h') as [ls'|] eqn:El'; [|done]. intros Ht H.
  rewrite <- Ht in H. apply Ok_inj in H. symmetry in H. apply lines_inj in H as [Hfields H]; [|done|by apply signed_fields_one_line..].
  assert (∀ v, ∃ r, canonicalized_resource v a = 47 :: r) as Hres by (intros; by eexists).
  destruct (Hres u) as [r Hr], (Hres u') as [r' Hr']. rewrite Hr, Hr' in H.
  destruct (ms_lines_ok h ls Hn El) as [_ Hls]. destruct (ms_lines_ok h' ls' Hn' El') as [_ Hls'].
  apply lines_until in H as [-> ->]; [|done..]. rewrite <- Hr in Hr'. injection Hfields as -> H1 H2 H3 H4 H5 H6 H7 H8 H9 H10.
  split; [done|]. split; [done|]. split; [by eapply resource_path| |done|].
  - intros name Hname. unfold signed_names in Hname. repeat (apply elem_of_cons in Hname as [->|Hname]; [done|]). by apply not_elem_of_nil in Hname.
  - intros name. by apply (ms_lines_inj h h' ls').
Qed.

(** ** Azure: the executor's range request *)

Section Azure.
Context (hmac : list Z → list Z → list Z) (b64_encode : list Z → list Z) (b64_decode : list Z → result (list Z) string).
Context (parse_url : string → result SignedUrl string) (header_name : string → result string string).
Hypothesis b64_roundtrip : ∀ x, b64_decode (b64_encode x) = Ok x.
(** The names of the service are header names. *)
Hypothesis ms_names : ∀ n, n ∈ [HEADER_MS_VERSION; HEADER_MS_DATE; HEADER_AUTHORIZATION] → header_name n = Ok n.

Lemma az_insert_Ok n v h h' :
  n ∈ [HEADER_MS_VERSION; HEADER_MS_DATE; HEADER_AUTHORIZATION] → az_insert_header header_name n v h = Ok h' → h' = insert_header n v h.
Proof.
  intros Hn. unfold az_insert_header. rewrite ms_names by done. destruct (header_value v) as [w|] eqn:E; [|done].
  apply header_value_Ok in E as [-> _]. by intros [= <-].
Qed.

Lemma names_insert n v h : one_line (bs n) → 58 ∉ bs n → names_ok h → names_ok (insert_header n v h).
Proof.
  intros H1 H2 Hn k vs. unfold insert_header. destruct (decide (n = k)) as [<-|Hne]; [by rewrite lookup_insert_eq|].
  rewrite lookup_insert_ne by done. apply Hn.
Qed.

(** The authorization does not sign itself. *)
Lemma string_to_sign_auth m u h a auth :
  string_to_sign m u (insert_header HEADER_AUTHORIZATION auth h) a = string_to_sign m u h a.
Proof.
  assert (∀ n, n ≠ HEADER_AUTHORIZATION → header_map_value (insert_header HEADER_AUTHORIZATION auth h) n = header_map_value h n) as Hv.
  { intros n Hne. unfold header_map_value, get. by rewrite get_all_insert_ne. }
  unfold string_to_sign, canonicalized_headers, ms_lines, signed_fields, canonicalized_content_length.
  rewrite !Hv by done. unfold insert_header. rewrite map_filter_insert_not; [done|]. by intros y.
Qed.

Lemma names_or_accept h : names_ok h → names_ok (or_accept h).
Proof.
  intros Hn. unfold or_accept. destruct (get h ACCEPT); [done|].
  apply names_insert; [apply (bool_decide_unpack _); by vm_compute..|done].
Qed.

(** A range request that leaves the executor carries the signature of its own headers. *)
Lemma az_range_signed a k64 url now rv base t w h u :
  parse_url url = Ok u → names_ok base →
  build_download_range_request (az_range_protocol hmac b64_encode b64_decode parse_url header_name a k64 url now) rv base t = Ok (w, h) →
  names_ok h ∧ ∃ key text, decode_account_key b64_decode k64 = Ok key ∧ string_to_sign (bs "GET") u h a = Ok text
    ∧ get_all h HEADER_AUTHORIZATION = [bs "SharedKey " ++ a ++ bs ":" ++ b64_encode (hmac key text)].
Proof.
  intros Hu Hn. unfold build_download_range_request. destruct (expected_if_match_header t) as [e|]; [|done].
  set (h0 := match e with Some v => insert_header IF_MATCH v (set_accept_encoding_identity base) | None => set_accept_encoding_identity base end).
  cbn [merge_range_get_headers range_url az_range_protocol].
  destruct (az_merge_range_get_headers _ _ _ _ _ a k64 url now rv h0) as [h1|] eqn:Hm; [|done].
  intros Hrest. assert (h1 = h) as -> by (revert Hrest; clear; repeat case_match; congruence).
  clear Hrest. assert (names_ok h0) as Hn0.
  { unfold h0, set_accept_encoding_identity. destruct e; repeat (apply names_insert; [apply (bool_decide_unpack _); by vm_compute..|]); done. }
  unfold az_merge_range_get_headers in Hm. destruct (header_value (bs rv)) as [v|]; [|done]. unfold az_apply_signed_headers in Hm. rewrite Hu in Hm.
  destruct (az_insert_header header_name HEADER_MS_VERSION _ _) as [b1|] eqn:H1; [|done]. apply az_insert_Ok in H1 as ->; [|set_solver].
  destruct (az_insert_header header_name HEADER_MS_DATE _ _) as [b2|] eqn:H2; [|done]. apply az_insert_Ok in H2 as ->; [|set_solver].
  unfold build_authorization in Hm. destruct (decode_account_key b64_decode k64) as [key|] eqn:Hk; [|done].
  set (b := insert_header HEADER_MS_DATE _ _) in *.
  assert (names_ok b) as Hb.
  { unfold b. repeat (apply names_insert; [apply (bool_decide_unpack _); by vm_compute..|]). apply names_or_accept.
    by apply names_insert; [apply (bool_decide_unpack _); by vm_compute..|]. }
  clearbody b. unfold build_authorization_with_key in Hm. destruct (string_to_sign (bs "GET") u b a) as [text|] eqn:Ht; [|done].
  apply az_insert_Ok in Hm as ->; [|set_solver]. split; [by apply names_insert; [apply (bool_decide_unpack _); by vm_compute..|]|].
  exists key, text. split; [done|]. rewrite string_to_sign_auth. split; [done|]. apply get_all_insert.
Qed.

(** C18: two range requests that leave the executor with the same Azure authorization ask for the
    same path, with the same Range and If-Match and the same headers of the service, unless the two
    texts that were signed collide under HMAC: a signature cannot be moved to another range or
    another generation of the blob. *)
Theorem azure_authorization_binds a k64 url url' now now' rv rv' base base' t t' w w' h h' u u' :
  parse_url url = Ok u → parse_url url' = Ok u' → one_line (su_path u) → one_line (su_path u') → names_ok base → names_ok base' →
  build_download_range_request (az_range_protocol hmac b64_encode b64_decode parse_url header_name a k64 url now) rv base t = Ok (w, h) →
  build_download_range_request (az_range_protocol hmac b64_encode b64_decode parse_url header_name a k64 url' now') rv' base' t' = Ok (w', h') →
  get_all h HEADER_AUTHORIZATION = get_all h' HEADER_AUTHORIZATION →
  same_signed u u' h h'
  ∨ ∃ key text text', string_to_sign (bs "GET") u h a = Ok text ∧ string_to_sign (bs "GET") u' h' a = Ok text'
      ∧ text ≠ text' ∧ hmac key text = hmac key text'.
Proof.
  intros Hu Hu' Hp Hp' Hb Hb' H H' Ha.
  destruct (az_range_signed _ _ _ _ _ _ _ _ _ _ Hu Hb H) as (Hn & key & text & Hk & Ht & Hauth).
  destruct (az_range_signed _ _ _ _ _ _ _ _ _ _ Hu' Hb' H') as (Hn' & key' & text' & Hk' & Ht' & Hauth').
  rewrite Hk in Hk'. injection Hk' as <-. rewrite Hauth, Hauth' in Ha. injection Ha as Ha.
  apply app_inv_head in Ha. injection Ha as Ha.
  apply (f_equal b64_decode) in Ha. rewrite !b64_roundtrip in Ha. injection Ha as Ha.
  destruct (decide (text = text')) as [<-|Hne]; [left|right; by exists key, text, text'].
  assert (one_line (bs "GET")) as Hget by (apply (bool_decide_unpack _); by vm_compute).
  by destruct (string_to_sign_inj _ _ _ _ _ _ _ _ Hget Hget Hp Hp' Hn Hn' Ht Ht') as (_ & _ & ?).
Qed.
End Azure.

(** The second part of a pinned download, asked for twice. *)
Definition demo_b64 (x : list Z) : list Z := map (Z.add 1000) x.
Definition demo_unb64 (x : list Z) : result (list Z) string := Ok (map (λ b, b - 1000) x).
Definition demo_signed_url : SignedUrl := mkSignedUrl (bs "/c/blob") None [].
Definition demo_az_request (base : HeaderMap) : result (string * HeaderMap) MeowError :=
  build_download_range_request
    (az_range_protocol (++) demo_b64 demo_unb64 (λ _, Ok demo_signed_url) Ok (bs "acct") (demo_b64 (bs "key")) "https://h/c/blob" demo_now)
    "bytes=8-15" base (pt_dl (demo_prepared true)).
Definition az_auth (r : result (string * HeaderMap) MeowError) : option (list (list Z)) :=
  match r with Ok (_, h) => Some (get_all h HEADER_AUTHORIZATION) | Err _ => None end.
Lemma az_auth_Ok r x : az_auth r = Some x → ∃ w h, r = Ok (w, h) ∧ get_all h HEADER_AUTHORIZATION = x.
Proof. destruct r as [[w h]|]; [|done]. intros [= <-]. by exists w, h. Qed.

Definition demo_agent : HeaderMap := insert_header "user-agent" (bs "x") ∅.
Lemma demo_az_same :
  bool_decide (is_Some (az_auth (demo_az_request demo_agent)) ∧ az_auth (demo_az_request ∅) = az_auth (demo_az_request demo_agent)) = true.
Proof. vm_compute. reflexivity. Qed.
Lemma names_empty : names_ok ∅.
Proof. intros k vs H. by rewrite lookup_empty in H. Qed.
Lemma demo_agent_names : names_ok demo_agent.
Proof. apply names_insert; [apply (bool_decide_unpack _); by vm_compute..|apply names_empty]. Qed.
Lemma demo_path_line : one_line (su_path demo_signed_url).
Proof. apply (bool_decide_unpack _). by vm_compute. Qed.
Lemma demo_b64_roundtrip x : demo_unb64 (demo_b64 x) = Ok x.
Proof. unfold demo_unb64, demo_b64. rewrite map_map. f_equal. rewrite (map_ext _ id) by (intros; unfold id; lia). apply map_id. Qed.

Lemma azure_authorization_binds_witness :
  ∃ w h w' h', demo_az_request ∅ = Ok (w, h) ∧ demo_az_request demo_agent = Ok (w', h')
    ∧ header_map_value h RANGE = header_map_value h' RANGE ∧ header_map_value h IF_MATCH = header_map_value h' IF_MATCH.
Proof.
  destruct (bool_decide_eq_true_1 _ demo_az_same) as [[x H'] Ha]. rewrite H' in Ha.
  destruct (az_auth_Ok _ _ Ha) as (w & h & Hh & Hx). destruct (az_auth_Ok _ _ H') as (w' & h' & Hh' & Hx').
  exists w, h, w', h'. split; [exact Hh|]. split; [exact Hh'|].
  assert (same_signed demo_signed_url demo_signed_url h h') as Hs.
  { destruct (azure_authorization_binds (++) demo_b64 demo_unb64 (λ _, Ok demo_signed_url) Ok
      demo_b64_roundtrip (λ n _, eq_refl) (bs "acct") (demo_b64 (bs "key")) "https://h/c/blob" "https://h/c/blob" demo_now demo_now "bytes=8-15" "bytes=8-15"
      ∅ demo_agent (pt_dl (demo_prepared true)) (pt_dl (demo_prepared true)) w w' h h' demo_signed_url demo_signed_url)
      as [Hs|(key & text & text' & _ & _ & Hne & Heq)].
    - exact eq_refl.
    - exact eq_refl.
    - exact demo_path_line.
    - exact demo_path_line.
    - exact names_empty.
    - exact demo_agent_names.
    - exact Hh.
    - exact Hh'.
    - rewrite Hx, Hx'. exact eq_refl.
    - exact Hs.
    - apply app_inv_head in Heq. destruct (Hne Heq). }
  split; apply (ss_headers _ _ _ _ Hs); apply (bool_decide_unpack _); exact I.
Defined.
