(* ===== verification/SidecarFs.v ===== *)
(** * The sidecar's namespace on a shared file system

    The file operations of [src/dflt/download_progress.rs]: where a sidecar lies, how the private
    directory beside a target is claimed, and how a sidecar is published, loaded, cleaned up and
    deleted, call by call. An operation of the code is a program: a tree of file-system calls whose
    branches are the answers. A call may fail at any time, a write after any number of bytes, and
    between two calls other tasks and processes may change the tree. *)
From S2P Require Import Prelude Errors HttpHeaders DownloadIdentity ProviderXml.
#[local] Open Scope Z_scope.

(** ** The file system *)

Abbreviation Name := (list Z).
Abbreviation FsPath := (list (list Z)).

(** What [symlink_metadata] tells apart. *)
Inductive Node := NFile (content : list Z) | NDir | NLink.
#[export] Instance Node_eq_dec : EqDecision Node.
Proof. solve_decision. Defined.

Abbreviation FileTree := (gmap FsPath Node).

Inductive FsOp : Type → Type :=
| SymlinkMetadata (p : FsPath) : FsOp Node
| CreateDir (p : FsPath) : FsOp unit
| ReadDir (p : FsPath) : FsOp (list Name)
| CreateNew (p : FsPath) : FsOp unit
| WriteAll (p : FsPath) (bytes : list Z) : FsOp unit
| SyncAll (p : FsPath) : FsOp unit
| Rename (p q : FsPath) : FsOp unit
| RemoveFile (p : FsPath) : FsOp unit
| ReadFile (p : FsPath) : FsOp (list Z).

Definition is_missing (e : IoError) : bool := bool_decide (io_kind e = NotFound).
Definition is_existing (e : IoError) : bool := bool_decide (io_kind e = AlreadyExists).

(** The entries of a directory. *)
Definition child_of (dir : FsPath) (p : FsPath) : option Name :=
  match reverse p with
  | name :: up => if bool_decide (reverse up = dir) then Some name else None
  | [] => None
  end.
Definition children (dir : FsPath) (fs : FileTree) : list Name := omap (child_of dir) (map fst (map_to_list fs)).

Definition parent_of (p : FsPath) : FsPath := reverse (tail (reverse p)).

(** The answer of a call that does not fail. *)
Definition fs_call {R} (op : FsOp R) (fs : FileTree) : FileTree * result R IoError :=
  match op in FsOp R return FileTree * result R IoError with
  | SymlinkMetadata p =>
      (fs, match fs !! p with Some node => Ok node | None => Err (io_new NotFound "no such file or directory") end)
  | CreateDir p =>
      match fs !! p with
      | Some _ => (fs, Err (io_new AlreadyExists "file exists"))
      | None =>
          if bool_decide (fs !! parent_of p = Some NDir) then (<[p := NDir]> fs, Ok tt)
          else (fs, Err (io_new NotFound "no such file or directory"))
      end
  | ReadDir p =>
      (fs, if bool_decide (fs !! p = Some NDir) then Ok (children p fs) else Err (io_other "not a directory"))
  | CreateNew p =>
      match fs !! p with
      | Some _ => (fs, Err (io_new AlreadyExists "file exists"))
      | None =>
          if bool_decide (fs !! parent_of p = Some NDir) then (<[p := NFile []]> fs, Ok tt)
          else (fs, Err (io_new NotFound "no such file or directory"))
      end
  | WriteAll p bytes =>
      match fs !! p with
      | Some (NFile content) => (<[p := NFile (content ++ bytes)]> fs, Ok tt)
      | _ => (fs, Ok tt)
      end
  | SyncAll _ => (fs, Ok tt)
  | Rename p q =>
      match fs !! p with
      | None => (fs, Err (io_new NotFound "no such file or directory"))
      | Some node =>
          if bool_decide (fs !! q = Some NDir) then (fs, Err (io_other "is a directory"))
          else (<[q := node]> (delete p fs), Ok tt)
      end
  | RemoveFile p =>
      match fs !! p with
      | None => (fs, Err (io_new NotFound "no such file or directory"))
      | Some NDir => (fs, Err (io_other "is a directory"))
      | Some _ => (delete p fs, Ok tt)
      end
  | ReadFile p =>
      (fs, match fs !! p with
           | Some (NFile content) => Ok content
           | Some _ => Err (io_other "not a file")
           | None => Err (io_new NotFound "no such file or directory")
           end)
  end.

(** A failure that the state of the tree does not explain. *)
Definition is_fault (e : IoError) : Prop := io_kind e ≠ NotFound ∧ io_kind e ≠ AlreadyExists.

(** What a call may do: what it is meant to, or fail, a write with a part of its bytes written. *)
Definition outcome {R} (op : FsOp R) (fs fs' : FileTree) (r : result R IoError) : Prop :=
  (fs', r) = fs_call op fs
  ∨ ∃ e, is_fault e ∧ r = Err e
      ∧ (fs' = fs ∨ match op with WriteAll p bytes => ∃ n, fs' = fst (fs_call (WriteAll p (take n bytes)) fs) | _ => False end).

(** ** Programs *)

Inductive Prog (A : Type) : Type :=
| Ret (a : A)
| Call {R : Type} (op : FsOp R) (k : result R IoError → Prog A).
Arguments Ret {A} a.
Arguments Call {A R} op k.

Fixpoint bind {A B} (m : Prog A) (f : A → Prog B) : Prog B :=
  match m with
  | Ret a => f a
  | Call op k => Call op (λ r, bind (k r) f)
  end.

(** Fallible programs: a call or a program whose error is returned. *)
Abbreviation IoProg A := (Prog (result A IoError)).
Definition try {A B} (m : IoProg A) (f : A → IoProg B) : IoProg B :=
  bind m (λ r, match r with Ok a => f a | Err e => Ret (Err e) end).
Definition call {R} (op : FsOp R) : IoProg R := Call op Ret.
Notation "'do?' x ':=' m 'in' f" := (try m (λ x, f)) (at level 10, x pattern, m at level 100, f at level 200) : rust_scope.

(** ** Names *)

Definition SIDECAR_NAMESPACE : Name := bs ".rusty-cat".
Definition SIDECAR_NAMESPACE_MARKER : Name := bs ".download-state-v1".

Section Names.
Context (sha256 : list Z → list Z).

(** The name of the sidecar of a target with this file name. *)
Definition sidecar_name (component : Name) : Name :=
  concat (map hex_byte (sha256 (bs "rusty-cat/download-sidecar-path/v1" ++ [0] ++ component))) ++ bs ".rcdl".

(** [parent] is the directory of the target. *)
Definition sidecar_path (parent : FsPath) (component : Name) : FsPath :=
  parent ++ [SIDECAR_NAMESPACE; sidecar_name component].
End Names.

(** ** Claiming the namespace *)

Section Namespace.
(** The private directory. *)
Context (namespace : FsPath).

Definition marker : FsPath := namespace ++ [SIDECAR_NAMESPACE_MARKER].

Definition validate_namespace_directory : IoProg unit :=
  do? metadata := call (SymlinkMetadata namespace) in
  match metadata with
  | NDir => Ret (Ok tt)
  | _ => Ret (Err (io_new AlreadyExists "reserved rusty-cat download namespace is not a real directory"))
  end.
Definition validate_namespace_marker : IoProg unit :=
  do? metadata := call (SymlinkMetadata marker) in
  match metadata with
  | NFile [] => Ret (Ok tt)
  | _ => Ret (Err (io_new AlreadyExists "rusty-cat download namespace marker is not owned by this format"))
  end.

(** An empty directory is claimed. *)
Definition claim_marker : IoProg unit :=
  Call (CreateNew marker) (λ opened,
  match opened with
  | Ok _ =>
      do? _ := call (SyncAll marker) in
      do? _ := call (SyncAll namespace) in
      call (SyncAll (parent_of namespace))
  | Err e => if is_existing e then validate_namespace_marker else Ret (Err e)
  end).
(** A directory with entries must have been claimed meanwhile. *)
Definition recheck_marker : IoProg unit :=
  Call (SymlinkMetadata marker) (λ found,
  match found with
  | Ok _ => validate_namespace_marker
  | Err e =>
      if negb (is_missing e) then Ret (Err e)
      else Ret (Err (io_new AlreadyExists "reserved rusty-cat download namespace is non-empty and has no ownership marker"))
  end).
(** [ensure_sidecar_namespace], once the directory exists. *)
Definition check_namespace : IoProg unit :=
  Call (SymlinkMetadata marker) (λ found,
  match found with
  | Ok _ => validate_namespace_marker
  | Err e =>
      if negb (is_missing e) then Ret (Err e)
      else
        do? entries := call (ReadDir namespace) in
        match entries with
        | _ :: _ => recheck_marker
        | [] => claim_marker
        end
  end).
Definition ensure_sidecar_namespace : IoProg unit :=
  Call (CreateDir namespace) (λ created,
  do? _ := match created with
           | Ok _ => Ret (Ok tt)
           | Err e => if is_existing e then validate_namespace_directory else Ret (Err e)
           end in
  check_namespace).

Definition sidecar_namespace_is_owned : IoProg bool :=
  Call (SymlinkMetadata namespace) (λ found,
  match found with
  | Err e => if is_missing e then Ret (Ok false) else Ret (Err e)
  | Ok _ =>
      do? _ := validate_namespace_directory in
      Call (SymlinkMetadata marker) (λ found,
      match found with
      | Ok _ => do? _ := validate_namespace_marker in Ret (Ok true)
      | Err e => if is_missing e then Ret (Ok false) else Ret (Err e)
      end)
  end).

(** ** One sidecar *)

Context (name : Name).
Definition sidecar : FsPath := namespace ++ [name].

Definition sidecar_destination_is_absent : IoProg bool :=
  Call (SymlinkMetadata sidecar) (λ found,
  match found with
  | Err e => if is_missing e then Ret (Ok true) else Ret (Err e)
  | Ok (NFile _) => Ret (Ok false)
  | Ok _ => Ret (Err (io_new AlreadyExists "download sidecar destination is not an owned regular file"))
  end).

(** [pid] is the process id, [sequence n] the n-th number this call draws from the counter. *)
Context (pid : Name) (sequence : nat → Z).
Definition temp_name (n : nat) : Name := name ++ bs ".tmp." ++ pid ++ bs "." ++ bs (pretty (sequence n)).

(** [None] when the attempts are used up. *)
Fixpoint create_checkpoint_temp (fuel n : nat) : Prog (option (result FsPath IoError)) :=
  match fuel with
  | O => Ret None
  | S fuel =>
      let tmp := namespace ++ [temp_name n] in
      Call (CreateNew tmp) (λ opened,
      match opened with
      | Ok _ => Ret (Some (Ok tmp))
      | Err e => if is_existing e then create_checkpoint_temp fuel (S n) else Ret (Some (Err e))
      end)
  end.

(** [persist_snapshot_atomic], from the encoded bytes on. *)
Definition persist_body (bytes : list Z) (tmp : FsPath) : IoProg unit :=
  do? _ := call (WriteAll tmp bytes) in
  do? _ := call (SyncAll tmp) in
  do? _ := sidecar_destination_is_absent in
  do? _ := call (Rename tmp sidecar) in
  call (SyncAll namespace).
Definition persist_sidecar (fuel : nat) (bytes : list Z) : Prog (option (result unit IoError)) :=
  bind ensure_sidecar_namespace (λ claimed,
  match claimed with
  | Err e => Ret (Some (Err e))
  | Ok _ =>
      bind (create_checkpoint_temp fuel 0) (λ created,
      match created with
      | None => Ret None
      | Some (Err e) => Ret (Some (Err e))
      | Some (Ok tmp) =>
          bind (persist_body bytes tmp) (λ result,
          match result with
          | Ok _ => Ret (Some (Ok tt))
          | Err e => Call (RemoveFile tmp) (λ _, Ret (Some (Err e)))
          end)
      end)
  end).

(** [DownloadProgress::delete] *)
Definition delete_sidecar_file : IoProg unit :=
  do? owned := sidecar_namespace_is_owned in
  if negb owned then Ret (Ok tt)
  else
    do? absent := sidecar_destination_is_absent in
    if absent then Ret (Ok tt)
    else
      Call (RemoveFile sidecar) (λ removed,
      match removed with
      | Ok _ => Ret (Ok tt)
      | Err e => if is_missing e then Ret (Ok tt) else Ret (Err e)
      end).

Definition is_temp_name (entry : Name) : bool :=
  bool_decide (entry = name ++ bs ".tmp") || starts_with (name ++ bs ".tmp.") entry.
Fixpoint remove_temps (entries : list Name) : Prog unit :=
  match entries with
  | [] => Ret tt
  | entry :: entries =>
      if is_temp_name entry then Call (RemoveFile (namespace ++ [entry])) (λ _, remove_temps entries)
      else remove_temps entries
  end.
Definition cleanup_stale_checkpoint_temps : Prog unit :=
  bind sidecar_namespace_is_owned (λ owned,
  match owned with
  | Ok true =>
      Call (ReadDir namespace) (λ entries,
      match entries with
      | Ok entries => remove_temps entries
      | Err _ => Ret tt
      end)
  | _ => Ret tt
  end).

(** [read_sidecar_bounded]: the opening, the length check and the bounded read are one call here,
    with the file's content at that moment. *)
Definition read_sidecar_file (expected_len : nat) : IoProg (option (list Z)) :=
  Call (SymlinkMetadata sidecar) (λ found,
  match found with
  | Err e => if is_missing e then Ret (Ok None) else Ret (Err e)
  | Ok (NFile _) =>
      Call (ReadFile sidecar) (λ content,
      match content with
      | Err e => if is_missing e then Ret (Ok None) else Ret (Err e)
      | Ok raw => Ret (Ok (if bool_decide (length raw = expected_len) then Some raw else None))
      end)
  | Ok _ => Ret (Err (io_new AlreadyExists "download sidecar is not an owned regular file"))
  end).

(** What loading does to the namespace: [load_or_create] and [load_or_create_serial] up to the
    decoding. *)
Definition load_sidecar_file (expected_len : nat) : IoProg (option (list Z)) :=
  do? owned := sidecar_namespace_is_owned in
  if negb owned then Ret (Ok None)
  else bind cleanup_stale_checkpoint_temps (λ _, read_sidecar_file expected_len).
End Namespace.
