(* ===== verification/SidecarFsProps.v ===== *)
(** * The sidecar's namespace, shared and claimed safely

    A small program logic for the programs of [SidecarFs], with the changes other tasks may make
    between two calls (rely) and the changes a call makes (guarantee), and what it shows: downloads
    into one directory race for its namespace without failing each other, each sees its sidecar as
    a private cell that is written all at once or not at all, whatever calls fail, and a directory
    that is not the library's own is left alone. *)
From S2P Require Import Prelude Errors HttpHeaders DownloadIdentity ProviderXml SidecarFs.
#[local] Open Scope Z_scope.

(** ** Programs under interference *)

Fixpoint safe (R G : FileTree → FileTree → Prop) {A} (m : Prog A) (Q : A → FileTree → Prop) (fs : FileTree) : Prop :=
  match m with
  | Ret a => Q a fs
  | Call op k => ∀ fs1, R fs fs1 → ∀ fs2 r, outcome op fs1 fs2 r → G fs1 fs2 ∧ safe R G (k r) Q fs2
  end.

Section Logic.
Context (R G : FileTree → FileTree → Prop).

Lemma safe_mono {A} (m : Prog A) (Q Q' : A → FileTree → Prop) fs :
  (∀ a fs', Q a fs' → Q' a fs') → safe R G m Q fs → safe R G m Q' fs.
Proof.
  intros HQ. revert fs. induction m as [a|X op k IH]; intros fs; cbn; [apply HQ|].
  intros H fs1 HR fs2 r Ho. destruct (H fs1 HR fs2 r Ho) as [HG Hk]. split; [done|]. by apply IH.
Qed.
Lemma safe_bind {A B} (m : Prog A) (f : A → Prog B) Q fs :
  safe R G m (λ a, safe R G (f a) Q) fs → safe R G (bind m f) Q fs.
Proof.
  revert fs. induction m as [a|X op k IH]; intros fs; cbn; [done|].
  intros H fs1 HR fs2 r Ho. destruct (H fs1 HR fs2 r Ho) as [HG Hk]. split; [done|]. by apply IH.
Qed.
Lemma safe_and {A} (m : Prog A) (Q Q' Q'' : A → FileTree → Prop) fs :
  safe R G m Q fs → safe R G m Q' fs → (∀ a fs', Q a fs' → Q' a fs' → Q'' a fs') → safe R G m Q'' fs.
Proof.
  intros H H' HQ. revert fs H H'. induction m as [a|X op k IH]; intros fs; cbn; [apply HQ|].
  intros H H' fs1 HR fs2 r Ho. split; [by eapply H|]. apply IH; [by eapply H|by eapply H'].
Qed.
(** An error is returned, a value is used. *)
Lemma safe_try {A B} (m : IoProg A) (f : A → IoProg B) Q P fs :
  safe R G m P fs → (∀ a fs', P (Ok a) fs' → safe R G (f a) Q fs') → (∀ e fs', P (Err e) fs' → Q (Err e) fs') →
  safe R G (try m f) Q fs.
Proof.
  intros Hm Hok Herr. unfold try. apply safe_bind. eapply safe_mono; [|exact Hm]. intros [a|e] fs' H; cbn; auto.
Qed.
End Logic.

(** ** Threads *)

(** Any number of programs on one tree. *)
Inductive pool_step {A} : FileTree * list (Prog A) → FileTree * list (Prog A) → Prop :=
| pool_call i X (op : FsOp X) k fs fs' r pool :
    pool !! i = Some (Call op k) → outcome op fs fs' r → pool_step (fs, pool) (fs', <[i := k r]> pool).

Section Pool.
Context {A : Type} (R G : nat → FileTree → FileTree → Prop) (Q : nat → A → FileTree → Prop).
Hypothesis rely_trans : ∀ i fs1 fs2 fs3, R i fs1 fs2 → R i fs2 fs3 → R i fs1 fs3.
Hypothesis guarantee : ∀ i j fs fs', i ≠ j → G i fs fs' → R j fs fs'.
Hypothesis stable : ∀ i a fs fs', R i fs fs' → Q i a fs → Q i a fs'.

(** A thread is safe from the tree as it left it, and the tree has since changed as it relies on. *)
Definition thread_ok (i : nat) (m : Prog A) (fs : FileTree) : Prop := ∃ fs0, safe (R i) (G i) m (Q i) fs0 ∧ R i fs0 fs.
Definition pool_ok (s : FileTree * list (Prog A)) : Prop := ∀ i m, s.2 !! i = Some m → thread_ok i m s.1.

Lemma pool_step_ok s s' : (∀ i fs, R i fs fs) → pool_ok s → pool_step s s' → pool_ok s' ∧ ∃ i, G i s.1 s'.1.
Proof.
  intros Hrefl Hp Hstep. destruct Hstep as [i X op k fs fs' r pool Hi Ho]. cbn in *. destruct (Hp i _ Hi) as (fs0 & Hs & HR). cbn in *.
  destruct (Hs fs HR fs' r Ho) as [HG Hk]. split; [|by exists i]. intros j m. cbn. destruct (decide (j = i)) as [->|Hne].
  - rewrite list_lookup_insert_eq by (by eapply lookup_lt_Some). intros [= <-]. exists fs'. by split.
  - rewrite list_lookup_insert_ne by done. intros Hj. destruct (Hp j m Hj) as (fs1 & Hs1 & HR1). exists fs1. split; [done|].
    eapply rely_trans; [exact HR1|]. eapply guarantee; [|exact HG]. done.
Qed.
Lemma pool_reachable_ok s s' : (∀ i fs, R i fs fs) → pool_ok s → rtc pool_step s s' → pool_ok s' ∧ rtc (λ a b, ∃ i, G i a b) s.1 s'.1.
Proof.
  intros Hrefl Hp Hr. revert Hp. induction Hr as [s|s s1 s' Hstep Hr IH]; intros Hp; [by split; [|constructor]|].
  destruct (pool_step_ok s s1 Hrefl Hp Hstep) as [Hp1 HG]. destruct (IH Hp1) as [Hp' HGs]. split; [done|]. by econstructor.
Qed.
Lemma pool_result s i a : pool_ok s → s.2 !! i = Some (Ret a) → Q i a s.1.
Proof. intros Hp Hi. destruct (Hp i _ Hi) as (fs0 & Hs & HR). by eapply stable. Qed.
End Pool.

(** ** The tree around a namespace *)

Lemma parent_of_app (dir : FsPath) n : parent_of (dir ++ [n]) = dir.
Proof. unfold parent_of. rewrite reverse_snoc. cbn [tail]. apply reverse_involutive. Qed.
Lemma child_of_app dir n p : child_of dir p = Some n ↔ p = dir ++ [n].
Proof.
  unfold child_of. destruct (reverse p) as [|m up] eqn:E.
  - split; [done|]. intros ->. by rewrite reverse_snoc in E.
  - apply (f_equal reverse) in E. rewrite reverse_involutive, reverse_cons in E. subst p.
    destruct (bool_decide_reflect (reverse up = dir)) as [<-|Hne].
    + split; [by intros [= ->]|]. intros H. apply app_inj_2 in H as [_ [= ->]]; done.
    + split; [done|]. intros H. apply app_inj_2 in H as [H _]; done.
Qed.
Lemma elem_of_children dir n fs : n ∈ children dir fs ↔ is_Some (fs !! (dir ++ [n])).
Proof.
  unfold children. rewrite list_elem_of_omap. split.
  - intros (p & Hp & Hc). apply child_of_app in Hc as ->. apply list_elem_of_fmap in Hp as ([q x] & -> & Hq).
    apply elem_of_map_to_list in Hq. by eexists.
  - intros [x Hx]. exists (dir ++ [n]). split; [|by apply child_of_app].
    apply list_elem_of_fmap. exists (dir ++ [n], x). split; [done|]. by apply elem_of_map_to_list.
Qed.

Definition own_name (name entry : Name) : Prop := entry = name ∨ is_temp_name name entry = true.

Section Namespace.
Context (dir : FsPath).
Let ns : FsPath := dir ++ [SIDECAR_NAMESPACE].

(** The namespace can be claimed or is claimed: it does not exist yet, is an empty directory, or
    has its marker. *)
Definition claimed (fs : FileTree) : Prop := fs !! ns = Some NDir ∧ fs !! marker ns = Some (NFile []).
Definition claim_ok (fs : FileTree) : Prop :=
  (((fs !! ns = None ∧ fs !! dir = Some NDir) ∨ fs !! ns = Some NDir) ∧ ∀ n, fs !! (ns ++ [n]) = None) ∨ claimed fs.
(** Claims are not taken back. *)
Definition keeps_claim (fs fs' : FileTree) : Prop :=
  claim_ok fs' ∧ (fs !! ns = Some NDir → fs' !! ns = Some NDir) ∧ (claimed fs → claimed fs').

(** The task that owns the sidecar [name], and the contents it publishes. *)
Section Owner.
Context (name : Name) (published : option Node → Prop).
Definition own (p : FsPath) : Prop := ∃ entry, p = ns ++ [entry] ∧ own_name name entry.

Definition rely (fs fs' : FileTree) : Prop :=
  claim_ok fs → keeps_claim fs fs' ∧ ∀ p, own p → fs' !! p = fs !! p.
Definition guar (fs fs' : FileTree) : Prop :=
  claim_ok fs →
  keeps_claim fs fs' ∧ (∀ p, ¬ own p → p ≠ ns → p ≠ marker ns → fs' !! p = fs !! p)
  ∧ (fs' !! sidecar ns name = fs !! sidecar ns name ∨ published (fs' !! sidecar ns name)).

Hypothesis marker_foreign : ¬ own_name name SIDECAR_NAMESPACE_MARKER.

Lemma keeps_claim_refl fs : claim_ok fs → keeps_claim fs fs.
Proof. intros H. by unfold keeps_claim. Qed.
Lemma rely_refl fs : rely fs fs.
Proof. intros H. by split; [apply keeps_claim_refl|]. Qed.
Lemma rely_trans fs1 fs2 fs3 : rely fs1 fs2 → rely fs2 fs3 → rely fs1 fs3.
Proof.
  intros H12 H23 H1. destruct (H12 H1) as [(Hc & Hd & Hm) Ho]. destruct (H23 Hc) as [(Hc' & Hd' & Hm') Ho'].
  split; [unfold keeps_claim; split_and!; auto|]. intros p Hp. by rewrite Ho', Ho.
Qed.
Lemma guar_refl fs : guar fs fs.
Proof. intros H. split; [by apply keeps_claim_refl|]. split; [done|by left]. Qed.
Lemma own_sidecar : own (sidecar ns name).
Proof. exists name. split; [done|by left]. Qed.

Lemma ns_child n : ns ++ [n] ≠ ns.
Proof. intros H. apply (f_equal length) in H. rewrite length_app in H. simpl in H. lia. Qed.
Lemma own_ns p : own p → p ≠ ns.
Proof. intros (n & -> & _). apply ns_child. Qed.
Lemma own_marker p : own p → p ≠ marker ns.
Proof. intros (n & -> & Hn) H. unfold marker in H. apply app_inj_2 in H as [_ [= ->]]; done. Qed.
Lemma dir_ns : dir ≠ ns.
Proof. intros H. apply (f_equal length) in H. unfold ns in H. rewrite length_app in H. simpl in H. lia. Qed.
Lemma dir_child n : dir ≠ ns ++ [n].
Proof. intros H. apply (f_equal length) in H. unfold ns in H. rewrite !length_app in H. simpl in H. lia. Qed.

(** The namespace is created. *)
Lemma guar_create_ns fs :
  claim_ok fs → fs !! ns = None → claim_ok (<[ns := NDir]> fs) ∧ guar fs (<[ns := NDir]> fs) ∧ ∀ p, own p → <[ns := NDir]> fs !! p = fs !! p.
Proof.
  intros [[_ Hno]|[Hd _]] Hn; [|congruence].
  assert (claim_ok (<[ns := NDir]> fs)) as Hc.
  { left. split; [right; apply lookup_insert_eq|]. intros n. rewrite lookup_insert_ne by (intros H; symmetry in H; by apply ns_child in H). apply Hno. }
  split; [done|]. split.
  - intros _. split; [unfold keeps_claim; split_and!; [done|by rewrite lookup_insert_eq|intros [? _]; congruence]|].
    split; [intros p _ Hp _; by rewrite lookup_insert_ne|left; rewrite lookup_insert_ne; [done|]].
    intros H. symmetry in H. by apply ns_child in H.
  - intros p Hp. rewrite lookup_insert_ne; [done|]. intros <-. by apply own_ns in Hp.
Qed.
(** The marker is created. *)
Lemma guar_create_marker fs :
  fs !! ns = Some NDir → claimed (<[marker ns := NFile []]> fs) ∧ guar fs (<[marker ns := NFile []]> fs)
  ∧ ∀ p, own p → <[marker ns := NFile []]> fs !! p = fs !! p.
Proof.
  intros Hd. assert (claimed (<[marker ns := NFile []]> fs)) as Hc.
  { split; [|apply lookup_insert_eq]. rewrite lookup_insert_ne; [done|apply ns_child]. }
  split; [done|]. split.
  - intros _. split; [unfold keeps_claim; split_and!; [by right|intros _; apply Hc|done]|]. 
    split; [intros p _ _ Hp; by rewrite lookup_insert_ne|left; rewrite lookup_insert_ne; [done|]].
    intros H. symmetry in H. by apply own_marker in H; [|apply own_sidecar].
  - intros p Hp. rewrite lookup_insert_ne; [done|]. intros <-. by apply own_marker in Hp.
Qed.
(** Own files are changed once the namespace is claimed. *)
Lemma guar_own fs fs' :
  claimed fs → (∀ p, ¬ own p → fs' !! p = fs !! p) →
  fs' !! sidecar ns name = fs !! sidecar ns name ∨ published (fs' !! sidecar ns name) → claimed fs' ∧ guar fs fs'.
Proof.
  intros [Hd Hm] Hs Hv. assert (claimed fs') as Hc.
  { split; rewrite Hs; [done|by intros ?%own_ns|done|by intros ?%own_marker]. }
  split; [done|]. intros _. split; [unfold keeps_claim; split_and!; [by right|intros _; apply Hc|done]|]. split; [|done]. intros p Hp _ _. by apply Hs.
Qed.

(** ** Programs of the owner *)

(** The tree later on, as the owner of [name] finds it. *)
Definition later (fs fs' : FileTree) : Prop := keeps_claim fs fs' ∧ ∀ p, own p → fs' !! p = fs !! p.

Lemma later_refl fs : claim_ok fs → later fs fs.
Proof. intros H. by split; [apply keeps_claim_refl|]. Qed.
Lemma later_trans fs1 fs2 fs3 : later fs1 fs2 → later fs2 fs3 → later fs1 fs3.
Proof.
  intros [(Hc & Hd & Hm) Ho] [(Hc' & Hd' & Hm') Ho']. split; [unfold keeps_claim; split_and!; auto|]. intros p Hp. by rewrite Ho', Ho.
Qed.
Lemma later_ok fs fs' : later fs fs' → claim_ok fs'.
Proof. by intros [[? _] _]. Qed.
Lemma later_claimed fs fs' : later fs fs' → claimed fs → claimed fs'.
Proof. intros [(_ & _ & H) _]. exact H. Qed.
Lemma later_dir fs fs' : later fs fs' → fs !! ns = Some NDir → fs' !! ns = Some NDir.
Proof. intros [(_ & H & _) _]. exact H. Qed.
Lemma later_own fs fs' p : later fs fs' → own p → fs' !! p = fs !! p.
Proof. intros [_ H]. apply H. Qed.

Definition is_read {X} (op : FsOp X) : Prop :=
  match op with SymlinkMetadata _ | ReadDir _ | SyncAll _ | ReadFile _ => True | _ => False end.
Abbreviation osafe := (safe rely guar).

(** A call that only looks. *)
Lemma safe_read {A X : Type} (op : FsOp X) (k : result X IoError → Prog A) Q fs :
  is_read op → claim_ok fs →
  (∀ fs1, later fs fs1 → osafe (k (snd (fs_call op fs1))) Q fs1) →
  (∀ fs1 e, later fs fs1 → is_fault e → osafe (k (Err e)) Q fs1) →
  osafe (Call op k) Q fs.
Proof.
  intros Hr Hc Hok Hf fs1 HR fs2 r Ho. specialize (HR Hc). destruct Ho as [Ho|(e & He & -> & Hfs)].
  - assert (fs2 = fs1) as -> by (destruct op; try done; by injection Ho).
    split; [apply guar_refl|]. replace r with (snd (fs_call op fs1)) by (by rewrite <- Ho). by apply Hok.
  - assert (fs2 = fs1) as -> by (destruct Hfs as [|Hfs]; [done|]; by destruct op). split; [apply guar_refl|]. by apply Hf.
Qed.

(** What a program of the namespace returns: success, or a fault of the file system. *)
Definition ok_or_fault {A} (r : result A IoError) (P : A → Prop) : Prop :=
  match r with Ok a => P a | Err e => is_fault e end.

Lemma validate_directory_safe fs :
  claim_ok fs → fs !! ns = Some NDir →
  osafe (validate_namespace_directory ns) (λ r fs', later fs fs' ∧ ok_or_fault r (λ _, True)) fs.
Proof.
  intros Hc Hd. apply safe_read; [done..| |].
  - intros fs1 Hl. cbn. rewrite (later_dir _ _ Hl Hd). cbn. done.
  - intros fs1 e Hl He. cbn. done.
Qed.
Lemma validate_marker_safe fs :
  claimed fs → osafe (validate_namespace_marker ns) (λ r fs', later fs fs' ∧ ok_or_fault r (λ _, True)) fs.
Proof.
  intros Hc. apply safe_read; [done|by right| |].
  - intros fs1 Hl. cbn. destruct (later_claimed _ _ Hl Hc) as [_ ->]. cbn. done.
  - intros fs1 e Hl He. cbn. done.
Qed.

(** A marker that was seen is still there. *)
Lemma marker_seen fs node : claim_ok fs → fs !! marker ns = Some node → claimed fs.
Proof. intros [[_ Hno]|Hc] Hm; [|done]. unfold marker in Hm. by rewrite Hno in Hm. Qed.

Lemma is_missing_not e : is_fault e → is_missing e = false.
Proof. intros [H _]. unfold is_missing. by apply bool_decide_eq_false. Qed.
Lemma is_existing_not e : is_fault e → is_existing e = false.
Proof. intros [_ H]. unfold is_existing. by apply bool_decide_eq_false. Qed.

Definition claims (fs0 : FileTree) (r : result unit IoError) (fs : FileTree) : Prop :=
  later fs0 fs ∧ ok_or_fault r (λ _, claimed fs).

Lemma validate_marker_claims fs0 fs : later fs0 fs → claimed fs → osafe (validate_namespace_marker ns) (claims fs0) fs.
Proof.
  intros Hl Hc. eapply safe_mono; [|by apply validate_marker_safe]. intros r fs' [Hl' Hr]. split; [by eapply later_trans|].
  destruct r; [by eapply later_claimed|done].
Qed.

Lemma parent_of_ns : parent_of ns = dir.
Proof. apply parent_of_app. Qed.
Lemma parent_of_child n : parent_of (ns ++ [n]) = ns.
Proof. apply parent_of_app. Qed.

Lemma sync_safe {A : Type} (fs0 fs : FileTree) (p : FsPath) (k : IoProg A) (Q : result A IoError → FileTree → Prop) :
  later fs0 fs → claimed fs → (∀ fs', later fs0 fs' → claimed fs' → osafe k Q fs') →
  (∀ fs' e, later fs0 fs' → claimed fs' → is_fault e → Q (Err e) fs') → osafe (do? _ := call (SyncAll p) in k) Q fs.
Proof.
  intros Hl Hc Hk Hf. apply safe_read; [done|by right| |].
  - intros fs1 H1. cbn. apply Hk; [by eapply later_trans|by eapply later_claimed].
  - intros fs1 e H1 He. cbn. apply Hf; [by eapply later_trans|by eapply later_claimed|done].
Qed.

Lemma claim_marker_safe fs0 fs : later fs0 fs → fs !! ns = Some NDir → osafe (claim_marker ns) (claims fs0) fs.
Proof.
  intros Hl Hd fs1 HR fs2 r Ho. specialize (HR (later_ok _ _ Hl)). pose proof (later_trans _ _ _ Hl HR) as Hl1.
  pose proof (later_dir _ _ HR Hd) as Hd1. destruct Ho as [Ho|(e & He & -> & [->|[]])].
  2: { split; [apply guar_refl|]. rewrite is_existing_not by done. done. }
  cbn in Ho. destruct (fs1 !! marker ns) as [node|] eqn:Hm.
  - injection Ho as -> ->. split; [apply guar_refl|]. cbn. apply validate_marker_claims; [done|].
    eapply marker_seen; [by eapply later_ok|done].
  - assert (parent_of (marker ns) = ns) as Hpar by apply parent_of_child. rewrite Hpar, bool_decide_true in Ho by done. injection Ho as -> ->.
    destruct (guar_create_marker fs1 Hd1) as (Hc & HG & Hown). split; [done|].
    assert (later fs0 (<[marker ns := NFile []]> fs1)) as Hl2.
    { eapply later_trans; [exact Hl1|]. split; [|done]. apply (HG (later_ok _ _ Hl1)). }
    eapply sync_safe; [done..| |by split]. intros fs3 H3 Hc3. eapply sync_safe; [done..| |by split]. intros fs4 H4 Hc4.
    apply safe_read; [done|by right| |].
    + intros fs5 H5. cbn. split; [by eapply later_trans|by eapply later_claimed].
    + intros fs5 e H5 He. cbn. split; [by eapply later_trans|done].
Qed.

Lemma recheck_safe fs0 fs : later fs0 fs → claimed fs → osafe (recheck_marker ns) (claims fs0) fs.
Proof.
  intros Hl Hc. apply safe_read; [done|by right| |].
  - intros fs1 H1. pose proof (later_claimed _ _ H1 Hc) as Hc1. cbn [fs_call snd]. rewrite (proj2 Hc1).
    apply validate_marker_claims; [by eapply later_trans|done].
  - intros fs1 e H1 He. rewrite is_missing_not by done. cbn. split; [by eapply later_trans|done].
Qed.

Lemma entries_claimed fs n l : claim_ok fs → children ns fs = n :: l → claimed fs.
Proof.
  intros [[_ Hno]|] Hch; [|done]. assert (n ∈ children ns fs) as Hin by (rewrite Hch; left).
  apply elem_of_children in Hin as [x Hx]. by rewrite Hno in Hx.
Qed.

Lemma check_namespace_safe fs0 fs : later fs0 fs → fs !! ns = Some NDir → osafe (check_namespace ns) (claims fs0) fs.
Proof.
  intros Hl Hd. apply safe_read; [done|by eapply later_ok| |].
  2: { intros fs1 e H1 He. rewrite is_missing_not by done. cbn. split; [by eapply later_trans|done]. }
  intros fs1 H1. pose proof (later_trans _ _ _ Hl H1) as Hl1. cbn [fs_call snd].
  destruct (fs1 !! marker ns) as [node|] eqn:Hm.
  { apply validate_marker_claims; [done|]. eapply marker_seen; [by eapply later_ok|done]. }
  apply safe_read; [done|by eapply later_ok| |].
  2: { intros fs2 e H2 He. cbn. split; [by eapply later_trans|done]. }
  intros fs2 H2. pose proof (later_trans _ _ _ Hl1 H2) as Hl2. pose proof (later_dir _ _ H2 (later_dir _ _ H1 Hd)) as Hd2.
  cbn [fs_call snd]. rewrite bool_decide_true by done. cbn [bind]. destruct (children ns fs2) as [|n l] eqn:Hch.
  - by apply claim_marker_safe.
  - apply recheck_safe; [done|]. eapply entries_claimed; [by eapply later_ok|done].
Qed.

Lemma ensure_safe fs : claim_ok fs → osafe (ensure_sidecar_namespace ns) (claims fs) fs.
Proof.
  intros Hc fs1 HR fs2 r Ho. specialize (HR Hc). pose proof (later_ok _ _ HR) as Hc1. destruct Ho as [Ho|(e & He & -> & [->|[]])].
  2: { split; [apply guar_refl|]. rewrite is_existing_not by done. cbn. done. }
  cbn in Ho. destruct (fs1 !! ns) as [node|] eqn:Hn.
  - injection Ho as -> ->. split; [apply guar_refl|].
    assert (fs1 !! ns = Some NDir) as Hd1 by (destruct Hc1 as [[[[? _]|?] _]|[? _]]; congruence).
    eapply safe_try; [by apply validate_directory_safe| |].
    + intros [] fs3 [H3 _]. apply check_namespace_safe; [by eapply later_trans|by eapply later_dir].
    + intros e fs3 [H3 He]. split; [by eapply later_trans|done].
  - assert (fs1 !! dir = Some NDir) as Hdir by (destruct Hc1 as [[[[_ ?]|?] _]|[? _]]; congruence).
    rewrite parent_of_ns, bool_decide_true in Ho by done. injection Ho as -> ->.
    destruct (guar_create_ns fs1 Hc1 Hn) as (Hc2 & HG & Hown). split; [done|]. cbn [try bind].
    apply check_namespace_safe; [|apply lookup_insert_eq]. eapply later_trans; [exact HR|]. split; [by apply HG|done].
Qed.

(** ** The sidecar of the owner *)

Lemma nothing_inside fs : claim_ok fs → ¬ claimed fs → ∀ n, fs !! (ns ++ [n]) = None.
Proof. intros [[_ H]|H] Hn; [exact H|done]. Qed.

(** A namespace that is not claimed has no sidecar. *)
Lemma owned_safe fs :
  claim_ok fs →
  osafe (sidecar_namespace_is_owned ns)
    (λ r fs', later fs fs' ∧ ok_or_fault r (λ b, if b then claimed fs' else fs !! sidecar ns name = None)) fs.
Proof.
  intros Hc.
  assert (∀ fs1, later fs fs1 → ¬ claimed fs1 → fs !! sidecar ns name = None) as Hnone.
  { intros fs1 H1 Hn. rewrite <- (later_own _ _ _ H1 own_sidecar). apply nothing_inside; [by eapply later_ok|done]. }
  apply safe_read; [done..| |].
  2: { intros fs1 e H1 He. rewrite is_missing_not by done. cbn. done. }
  intros fs1 H1. cbn [fs_call snd]. destruct (fs1 !! ns) as [node|] eqn:Hn.
  2: { cbn. split; [done|]. apply (Hnone fs1 H1). intros [? _]. congruence. }
  assert (fs1 !! ns = Some NDir) as Hd by (destruct (later_ok _ _ H1) as [[[[? _]|?] _]|[? _]]; congruence).
  eapply safe_try; [by apply validate_directory_safe; [by eapply later_ok|]| |intros e fs2 [H2 He]; split; [by eapply later_trans|done]].
  intros [] fs2 [H2 _]. pose proof (later_trans _ _ _ H1 H2) as H12. apply safe_read; [done|by eapply later_ok| |].
  2: { intros fs3 e H3 He. rewrite is_missing_not by done. cbn. split; [by eapply later_trans|done]. }
  intros fs3 H3. pose proof (later_trans _ _ _ H12 H3) as H13. cbn [fs_call snd]. destruct (fs3 !! marker ns) as [node'|] eqn:Hm.
  2: { cbn. split; [done|]. apply (Hnone fs3 H13). intros [_ ?]. congruence. }
  assert (claimed fs3) as Hc3 by (eapply marker_seen; [by eapply later_ok|done]).
  eapply safe_try; [by apply validate_marker_safe| |].
  - intros [] fs4 [H4 _]. cbn. split; [by eapply later_trans|by eapply later_claimed].
  - intros e fs4 [H4 He]. cbn. split; [by eapply later_trans|done].
Qed.

(** The claimed namespace with this sidecar: what the owner's programs keep track of. *)
Definition holds (cell : option (list Z)) (fs : FileTree) : Prop := claimed fs ∧ fs !! sidecar ns name = NFile <$> cell.

Lemma holds_later c fs fs' : holds c fs → later fs fs' → holds c fs'.
Proof. intros [Hc Hs] Hl. split; [by eapply later_claimed|]. rewrite (later_own _ _ _ Hl); [done|apply own_sidecar]. Qed.
Lemma holds_ok c fs : holds c fs → claim_ok fs.
Proof. intros [? _]. by right. Qed.
Lemma holds_rely c fs fs' : holds c fs → rely fs fs' → later fs fs'.
Proof. intros Hh HR. apply HR. by eapply holds_ok. Qed.

Lemma absent_safe c fs :
  holds c fs →
  osafe (sidecar_destination_is_absent ns name) (λ r fs', later fs fs' ∧ ok_or_fault r (λ b, b = bool_decide (c = None))) fs.
Proof.
  intros Hh. apply safe_read; [done|by eapply holds_ok| |].
  - intros fs1 H1. cbn [fs_call snd]. destruct (holds_later _ _ _ Hh H1) as [_ ->]. destruct c as [c|]; cbn; split; done.
  - intros fs1 e H1 He. rewrite is_missing_not by done. cbn. done.
Qed.

(** Calls on one path of the owner's. *)
Definition touches {X} (op : FsOp X) (p : FsPath) : Prop :=
  match op with CreateNew q | WriteAll q _ | RemoveFile q => q = p | _ => False end.
Lemma touches_frame {X} (op : FsOp X) p fs fs' r q : touches op p → outcome op fs fs' r → q ≠ p → fs' !! q = fs !! q.
Proof.
  intros Ht Ho Hq. destruct Ho as [Ho|(e & _ & _ & [->|Hw])]; [|done|].
  - destruct op; try done; cbn in Ho, Ht; subst; repeat case_match; injection Ho as -> ->; by rewrite ?lookup_insert_ne, ?lookup_delete_ne.
  - destruct op; try done. destruct Hw as [n ->]. cbn in *. subst. repeat case_match; cbn; by rewrite ?lookup_insert_ne.
Qed.

Lemma safe_temp {A X : Type} (op : FsOp X) (k : result X IoError → Prog A) Q fs c p :
  touches op p → own p → p ≠ sidecar ns name → holds c fs →
  (∀ fs1 fs2 r, later fs fs1 → outcome op fs1 fs2 r → holds c fs2 → osafe (k r) Q fs2) → osafe (Call op k) Q fs.
Proof.
  intros Ht Hp Hne Hh Hk fs1 HR fs2 r Ho. pose proof (holds_rely _ _ _ Hh HR) as H1. pose proof (holds_later _ _ _ Hh H1) as [Hc1 Hs1].
  assert (fs2 !! sidecar ns name = fs1 !! sidecar ns name) as Hs by (by eapply touches_frame).
  destruct (guar_own fs1 fs2 Hc1) as [Hc2 HG]; [|by left|].
  - intros q Hq. eapply touches_frame; [done..|]. by intros ->.
  - split; [done|]. eapply Hk; [done..|]. split; [done|]. by rewrite Hs.
Qed.

Section Persist.
Context (pid : Name) (sequence : nat → Z).
Abbreviation tmp n := (ns ++ [temp_name name pid sequence n]).

Lemma own_tmp n : own (tmp n).
Proof.
  eexists. split; [done|]. right. unfold is_temp_name, temp_name. apply orb_true_iff. right. apply starts_with_spec.
  exists (pid ++ bs "." ++ bs (pretty (sequence n))). by rewrite <- (assoc_L (++)).
Qed.
Lemma tmp_sidecar n : tmp n ≠ sidecar ns name.
Proof.
  intros H. apply app_inj_2 in H as [_ [= H]]; [|done]. unfold temp_name in H. apply (f_equal length) in H.
  rewrite length_app in H. cbn in H. lia.
Qed.

Definition temp_result (c : option (list Z)) (r : option (result FsPath IoError)) (fs : FileTree) : Prop :=
  holds c fs ∧ match r with
               | None => True
               | Some (Ok t) => (∃ n, t = tmp n) ∧ fs !! t = Some (NFile [])
               | Some (Err e) => is_fault e
               end.
Lemma create_temp_safe fuel n c fs :
  holds c fs → osafe (create_checkpoint_temp ns name pid sequence fuel n) (temp_result c) fs.
Proof.
  revert n fs. induction fuel as [|fuel IH]; intros n fs Hh; [by split|]. cbn [create_checkpoint_temp].
  eapply safe_temp; [done|apply own_tmp|apply tmp_sidecar|done|]. intros fs1 fs2 r H1 Ho Hh2.
  pose proof (holds_later _ _ _ Hh H1) as [[Hd1 _] _]. destruct Ho as [Ho|(e & He & -> & _)].
  2: { rewrite is_existing_not by done. by split. }
  cbn in Ho. destruct (fs1 !! tmp n) as [node|] eqn:Ht; [injection Ho as -> ->; by apply IH|].
  rewrite parent_of_child, bool_decide_true in Ho by done. injection Ho as -> ->. split; [done|]. split; [by exists n|apply lookup_insert_eq].
Qed.

Definition persist_result (c : option (list Z)) (bytes : list Z) (r : result unit IoError) (fs : FileTree) : Prop :=
  match r with
  | Ok _ => holds (Some bytes) fs
  | Err e => is_fault e ∧ (holds c fs ∨ holds (Some bytes) fs)
  end.

(** The temporary file keeps what was written to it. *)
Lemma later_tmp fs fs' n : later fs fs' → fs' !! tmp n = fs !! tmp n.
Proof. intros H. apply (later_own _ _ _ H), own_tmp. Qed.

Lemma rename_safe c bytes n fs (k : IoProg unit) :
  published (Some (NFile bytes)) → holds c fs → fs !! tmp n = Some (NFile bytes) →
  (∀ fs', holds (Some bytes) fs' → osafe k (persist_result c bytes) fs') →
  osafe (do? _ := call (Rename (tmp n) (sidecar ns name)) in k) (persist_result c bytes) fs.
Proof.
  intros Hpub Hh Ht Hk fs1 HR fs2 r Ho. pose proof (holds_rely _ _ _ Hh HR) as H1. pose proof (holds_later _ _ _ Hh H1) as Hh1.
  destruct Ho as [Ho|(e & He & -> & [->|[]])].
  2: { split; [apply guar_refl|]. cbn. split; [done|by left]. }
  cbn in Ho. rewrite (later_tmp _ _ _ H1), Ht in Ho. rewrite bool_decide_false in Ho by (destruct Hh1 as [_ ->]; by destruct c).
  injection Ho as -> ->. destruct Hh1 as [Hc1 Hs1].
  destruct (guar_own fs1 (<[sidecar ns name := NFile bytes]> (delete (tmp n) fs1)) Hc1) as [Hc2 HG].
  - intros p Hp. rewrite lookup_insert_ne by (intros <-; by apply Hp, own_sidecar).
    rewrite lookup_delete_ne; [done|]. intros <-. by apply Hp, own_tmp.
  - right. by rewrite lookup_insert_eq.
  - split; [done|]. apply Hk. split; [done|apply lookup_insert_eq].
Qed.

Lemma persist_body_safe c bytes n fs :
  published (Some (NFile bytes)) → holds c fs → fs !! tmp n = Some (NFile []) →
  osafe (persist_body ns name bytes (tmp n)) (persist_result c bytes) fs.
Proof.
  intros Hpub Hh Ht. eapply safe_temp; [done|apply own_tmp|apply tmp_sidecar|done|]. intros fs1 fs2 r H1 Ho Hh2.
  destruct Ho as [Ho|(e & He & -> & _)]; [|by cbn; auto]. cbn in Ho. rewrite (later_tmp _ _ _ H1), Ht in Ho. cbn in Ho. injection Ho as -> ->.
  set (fs2 := <[tmp n := NFile bytes]> fs1) in *. assert (fs2 !! tmp n = Some (NFile bytes)) as Ht2 by apply lookup_insert_eq. clearbody fs2.
  apply (safe_read (SyncAll (tmp n))); [done|by eapply holds_ok| |].
  2: { intros fs3 e H3 He. cbn. split; [done|left; by eapply holds_later]. }
  intros fs3 H3. cbn [fs_call snd]. pose proof (holds_later _ _ _ Hh2 H3) as Hh3. pose proof (later_tmp _ _ n H3) as Ht3. rewrite Ht2 in Ht3.
  eapply safe_try; [by apply absent_safe| |intros e fs4 [H4 He]; split; [done|left; by eapply holds_later]].
  intros b fs4 [H4 _]. apply (rename_safe _ _ _ _ (call (SyncAll ns))); [done|by eapply holds_later|by rewrite (later_tmp _ _ _ H4)|].
  intros fs5 Hh5. apply safe_read; [done|by eapply holds_ok| |].
  - intros fs6 H6. cbn. by eapply holds_later.
  - intros fs6 e H6 He. cbn. split; [done|right; by eapply holds_later].
Qed.
End Persist.

(** What the owner's operations do to its cell. *)
Definition in_cell (c : option (list Z)) (fs : FileTree) : Prop := claim_ok fs ∧ fs !! sidecar ns name = NFile <$> c.

Lemma holds_cell c fs : holds c fs → in_cell c fs.
Proof. intros [Hc Hs]. split; [by right|done]. Qed.
Lemma cell_later c fs fs' : in_cell c fs → later fs fs' → in_cell c fs'.
Proof. intros [_ Hs] Hl. split; [by eapply later_ok|]. rewrite (later_own _ _ _ Hl); [done|apply own_sidecar]. Qed.
Lemma cell_rely c fs fs' : in_cell c fs → rely fs fs' → in_cell c fs'.
Proof. intros Hc HR. eapply cell_later; [done|]. apply HR. apply Hc. Qed.
Lemma cell_holds c fs fs' : in_cell c fs → later fs fs' → claimed fs' → holds c fs'.
Proof. intros Hc Hl Hcl. split; [done|]. apply (cell_later _ _ _ Hc Hl). Qed.

Definition persist_post (c : option (list Z)) (bytes : list Z) (r : option (result unit IoError)) (fs : FileTree) : Prop :=
  match r with
  | None => in_cell c fs
  | Some (Ok _) => in_cell (Some bytes) fs
  | Some (Err e) => is_fault e ∧ (in_cell c fs ∨ in_cell (Some bytes) fs)
  end.

Lemma persist_safe pid sequence fuel c bytes fs :
  published (Some (NFile bytes)) → in_cell c fs → osafe (persist_sidecar ns name pid sequence fuel bytes) (persist_post c bytes) fs.
Proof.
  intros Hpub Hc. apply safe_bind. eapply safe_mono; [|apply ensure_safe, Hc]. intros [[]|e] fs1 [H1 Hr]; cbn in Hr.
  2: { cbn. split; [done|left]. by eapply cell_later. }
  apply safe_bind. eapply safe_mono; [|apply create_temp_safe; by eapply cell_holds]. intros [[t|e]|] fs2 [Hh2 Ht].
  3: { cbn. by apply holds_cell. }
  2: { cbn. split; [done|left]. by apply holds_cell. }
  destruct Ht as [[n ->] Ht]. apply safe_bind. eapply safe_mono; [|by apply persist_body_safe]. intros [[]|e] fs3 Hr3; cbn in Hr3.
  { cbn. by apply holds_cell. }
  destruct Hr3 as [He Hcase]. assert (∃ d, holds d fs3 ∧ (d = c ∨ d = Some bytes)) as (d & Hd & Hcd) by naive_solver.
  eapply safe_temp; [done|apply own_tmp|apply tmp_sidecar|done|]. intros fs4 fs5 r _ _ Hh5. cbn. split; [done|].
  apply holds_cell in Hh5. destruct Hcd as [->| ->]; auto.
Qed.

Lemma temp_not_sidecar entry : is_temp_name name entry = true → ns ++ [entry] ≠ sidecar ns name.
Proof.
  intros Ht H. apply app_inj_2 in H as [_ [= ->]]; [|done]. unfold is_temp_name in Ht. apply orb_true_iff in Ht as [Ht|Ht].
  - apply bool_decide_eq_true in Ht. apply (f_equal length) in Ht. rewrite length_app in Ht. cbn in Ht. lia.
  - apply starts_with_spec in Ht as [r Ht]. apply (f_equal length) in Ht. rewrite !length_app in Ht. cbn in Ht. lia.
Qed.
Lemma remove_temps_safe entries c fs : holds c fs → osafe (remove_temps ns name entries) (λ _ fs', holds c fs') fs.
Proof.
  revert fs. induction entries as [|entry entries IH]; intros fs Hh; [done|]. cbn [remove_temps].
  destruct (is_temp_name name entry) eqn:Ht; [|by apply IH].
  eapply safe_temp; [done| |by apply temp_not_sidecar|done|intros; by apply IH]. exists entry. split; [done|by right].
Qed.
Lemma cleanup_safe c fs : in_cell c fs → osafe (cleanup_stale_checkpoint_temps ns name) (λ _ fs', in_cell c fs') fs.
Proof.
  intros Hc. apply safe_bind. eapply safe_mono; [|apply owned_safe, Hc]. intros [[|]|e] fs1 [H1 Hr]; cbn in Hr |- *; try by eapply cell_later.
  pose proof (cell_holds _ _ _ Hc H1 Hr) as Hh1. apply (safe_read (ReadDir ns)); [done|by eapply holds_ok| |].
  - intros fs2 H2. pose proof (holds_later _ _ _ Hh1 H2) as Hh2. cbn [fs_call snd]. rewrite bool_decide_true by apply Hh2.
    eapply safe_mono; [|by apply remove_temps_safe]. intros u fs3. apply holds_cell.
  - intros fs2 e H2 He. cbn. by eapply holds_cell, holds_later.
Qed.

(** A sidecar of another length is not read. *)
Definition of_length (len : nat) (c : option (list Z)) : option (list Z) :=
  match c with Some raw => if bool_decide (length raw = len) then Some raw else None | None => None end.

Definition load_post (len : nat) (c : option (list Z)) (r : result (option (list Z)) IoError) (fs : FileTree) : Prop :=
  in_cell c fs ∧ ok_or_fault r (λ v, v = of_length len c).

Lemma read_safe len c fs : in_cell c fs → osafe (read_sidecar_file ns name len) (load_post len c) fs.
Proof.
  intros Hc. apply safe_read; [done|apply Hc| |].
  2: { intros fs1 e H1 He. rewrite is_missing_not by done. cbn. split; [by eapply cell_later|done]. }
  intros fs1 H1. pose proof (cell_later _ _ _ Hc H1) as Hc1. cbn [fs_call snd]. rewrite (proj2 Hc1).
  destruct c as [raw|]; cbn [fmap option_fmap option_map]; [|by cbn; split].
  apply safe_read; [done|apply Hc1| |].
  - intros fs2 H2. pose proof (cell_later _ _ _ Hc1 H2) as Hc2. cbn [fs_call snd]. rewrite (proj2 Hc2). cbn. by split.
  - intros fs2 e H2 He. rewrite is_missing_not by done. cbn. split; [by eapply cell_later|done].
Qed.
Lemma load_safe len c fs : in_cell c fs → osafe (load_sidecar_file ns name len) (load_post len c) fs.
Proof.
  intros Hc. eapply safe_try; [apply owned_safe, Hc| |].
  - intros [|] fs1 [H1 Hr]; cbn in Hr; cbn [negb].
    + apply safe_bind. eapply safe_mono; [|apply cleanup_safe; by eapply cell_later]. intros u fs2 Hc2. by apply read_safe.
    + split; [by eapply cell_later|]. destruct Hc as [_ Hs]. rewrite Hr in Hs. by destruct c.
  - intros e fs1 [H1 He]. split; [by eapply cell_later|done].
Qed.

Definition delete_post (c : option (list Z)) (r : result unit IoError) (fs : FileTree) : Prop :=
  match r with Ok _ => in_cell None fs | Err e => is_fault e ∧ in_cell c fs end.

Lemma delete_safe c fs : published None → in_cell c fs → osafe (delete_sidecar_file ns name) (delete_post c) fs.
Proof.
  intros Hpub Hc. eapply safe_try; [apply owned_safe, Hc| |intros e fs1 [H1 He]; split; [done|by eapply cell_later]].
  intros [|] fs1 [H1 Hr]; cbn in Hr; cbn [negb].
  2: { destruct Hc as [Hok Hs]. rewrite Hr in Hs. destruct c; [done|]. by eapply cell_later. }
  pose proof (cell_holds _ _ _ Hc H1 Hr) as Hh1.
  eapply safe_try; [by apply absent_safe| |intros e fs2 [H2 He]; split; [done|by eapply holds_cell, holds_later]].
  intros b fs2 [H2 Hb]. cbn in Hb. pose proof (holds_later _ _ _ Hh1 H2) as Hh2. destruct b.
  { symmetry in Hb. apply bool_decide_eq_true in Hb as ->. cbn. by apply holds_cell. }
  symmetry in Hb. apply bool_decide_eq_false in Hb. destruct c as [raw|]; [|done].
  intros fs3 HR fs4 r Ho. pose proof (holds_rely _ _ _ Hh2 HR) as H3. pose proof (holds_later _ _ _ Hh2 H3) as [Hc3 Hs3].
  destruct Ho as [Ho|(e & He & -> & [->|[]])].
  2: { split; [apply guar_refl|]. rewrite is_missing_not by done. cbn. split; [done|]. apply holds_cell. by split. }
  cbn in Ho, Hs3. rewrite Hs3 in Ho. injection Ho as -> ->.
  destruct (guar_own fs3 (delete (sidecar ns name) fs3) Hc3) as [Hc4 HG].
  - intros p Hp. rewrite lookup_delete_ne; [done|]. intros <-. apply Hp, own_sidecar.
  - right. by rewrite lookup_delete_eq.
  - split; [done|]. cbn. apply holds_cell. split; [done|apply lookup_delete_eq].
Qed.
End Owner.
End Namespace.
