(* ===== verification/SidecarShare.v ===== *)
(** * Downloads that share a directory

    Any number of downloads publish, load and delete their sidecars in one namespace at the same
    time, call by call and with calls that fail. To each of them its sidecar is a private cell that
    is written all at once or not at all; the rest of the tree is left alone, and so is a directory
    that happens to have the namespace's name. *)
From S2P Require Import Prelude Errors HttpHeaders DownloadIdentity ProviderXml SidecarFs SidecarFsProps.
#[local] Open Scope Z_scope.

(** ** The sequence of a download's operations *)

Inductive SidecarTask :=
| TaskPersist (sequence : nat → Z) (fuel : nat) (bytes : list Z)
| TaskLoad (expected_len : nat)
| TaskDelete.
Inductive TaskOut :=
| OutPersist (r : option (result unit IoError))
| OutLoad (r : result (option (list Z)) IoError)
| OutDelete (r : result unit IoError).

Definition run_task (ns : FsPath) (name pid : Name) (t : SidecarTask) : Prog TaskOut :=
  match t with
  | TaskPersist sequence fuel bytes => bind (persist_sidecar ns name pid sequence fuel bytes) (λ r, Ret (OutPersist r))
  | TaskLoad len => bind (load_sidecar_file ns name len) (λ r, Ret (OutLoad r))
  | TaskDelete => bind (delete_sidecar_file ns name) (λ r, Ret (OutDelete r))
  end.
Fixpoint run_tasks (ns : FsPath) (name pid : Name) (ts : list SidecarTask) : Prog (list TaskOut) :=
  match ts with
  | [] => Ret []
  | t :: ts => bind (run_task ns name pid t) (λ out, bind (run_tasks ns name pid ts) (λ outs, Ret (out :: outs)))
  end.

(** ** The specification: a cell *)

Inductive cell_step : SidecarTask → option (list Z) → option (list Z) → TaskOut → Prop :=
| cell_persist sequence fuel bytes c : cell_step (TaskPersist sequence fuel bytes) c (Some bytes) (OutPersist (Some (Ok tt)))
| cell_persist_fault sequence fuel bytes c c' e :
    is_fault e → c' = c ∨ c' = Some bytes → cell_step (TaskPersist sequence fuel bytes) c c' (OutPersist (Some (Err e)))
(** the names that were tried are taken *)
| cell_persist_again sequence fuel bytes c : cell_step (TaskPersist sequence fuel bytes) c c (OutPersist None)
| cell_load len c : cell_step (TaskLoad len) c c (OutLoad (Ok (of_length len c)))
| cell_load_fault len c e : is_fault e → cell_step (TaskLoad len) c c (OutLoad (Err e))
| cell_delete c : cell_step TaskDelete c None (OutDelete (Ok tt))
| cell_delete_fault c e : is_fault e → cell_step TaskDelete c c (OutDelete (Err e)).

Inductive cells_run : list SidecarTask → option (list Z) → option (list Z) → list TaskOut → Prop :=
| cells_nil c : cells_run [] c c []
| cells_cons t ts c c1 c2 out outs : cell_step t c c1 out → cells_run ts c1 c2 outs → cells_run (t :: ts) c c2 (out :: outs).

(** What a download may leave in its sidecar. *)
Definition publishes (ts : list SidecarTask) (node : option Node) : Prop :=
  match node with
  | None => TaskDelete ∈ ts
  | Some (NFile bytes) => ∃ sequence fuel, TaskPersist sequence fuel bytes ∈ ts
  | _ => False
  end.

Section Download.
Context (dir : FsPath) (name pid : Name) (published : option Node → Prop).
Let ns : FsPath := dir ++ [SIDECAR_NAMESPACE].
Hypothesis marker_foreign : ¬ own_name name SIDECAR_NAMESPACE_MARKER.

Lemma run_task_safe t c fs :
  (∀ node, publishes [t] node → published node) → in_cell dir name c fs →
  safe (rely dir name) (guar dir name published) (run_task ns name pid t)
    (λ out fs', ∃ c', cell_step t c c' out ∧ in_cell dir name c' fs') fs.
Proof.
  intros Hpub Hc. destruct t as [sequence fuel bytes|len|]; apply safe_bind.
  - eapply safe_mono; [|apply persist_safe; [done| |done]; apply Hpub; exists sequence, fuel; left].
    intros [[[]|e]|] fs' H; cbn in *.
    + by exists (Some bytes); split; [constructor|].
    + destruct H as [He [H|H]]; [exists c|exists (Some bytes)]; (split; [|done]); constructor; auto.
    + exists c. by split; [constructor|].
  - eapply safe_mono; [|by apply load_safe]. intros [v|e] fs' [H Hr]; cbn in *; exists c; (split; [|done]); [subst v|]; by constructor.
  - eapply safe_mono; [|apply delete_safe; [done| |done]; apply Hpub; left]. intros [[]|e] fs' H; cbn in *.
    + exists None. by split; [constructor|].
    + destruct H as [He H]. exists c. split; [by constructor|done].
Qed.
Lemma run_tasks_safe ts c fs :
  (∀ node, publishes ts node → published node) → in_cell dir name c fs →
  safe (rely dir name) (guar dir name published) (run_tasks ns name pid ts)
    (λ outs fs', ∃ c', cells_run ts c c' outs ∧ in_cell dir name c' fs') fs.
Proof.
  revert c fs. induction ts as [|t ts IH]; intros c fs Hpub Hc; cbn [run_tasks].
  { exists c. by split; [constructor|]. }
  apply safe_bind. eapply safe_mono; [|apply run_task_safe; [|exact Hc]].
  - intros out fs1 (c1 & Hs & Hc1). apply safe_bind. eapply safe_mono; [|apply IH; [|exact Hc1]].
    + intros outs fs2 (c2 & Hr & Hc2). exists c2. by split; [econstructor|].
    + intros node Hn. apply Hpub. destruct node as [[bytes| |]|]; cbn in *; [|done..|by right].
      destruct Hn as (sequence & fuel & Hn). exists sequence, fuel. by right.
  - intros node Hn. apply Hpub. destruct node as [[bytes| |]|]; cbn in *; [|done..|apply list_elem_of_singleton in Hn as <-; left].
    destruct Hn as (sequence & fuel & Hn). apply list_elem_of_singleton in Hn as <-. exists sequence, fuel. left.
Qed.
End Download.

(** ** Names *)

(** A name that belongs to a sidecar starts with the sidecar's name. *)
Lemma own_name_prefix name entry : own_name name entry → ∃ r, entry = name ++ r.
Proof.
  intros [->|Ht]; [exists []; by rewrite app_nil_r|]. unfold is_temp_name in Ht. apply orb_true_iff in Ht as [Ht|Ht].
  - apply bool_decide_eq_true in Ht. by eexists.
  - apply starts_with_spec in Ht as [r ->]. eexists. by rewrite <- (assoc_L (++)).
Qed.

Section Sha.
Context (sha256 : list Z → list Z).
Hypothesis sha256_length : ∀ x, length (sha256 x) = 32%nat.

Lemma length_hex_bytes l : length (concat (map hex_byte l)) = (2 * length l)%nat.
Proof. induction l as [|b l IH]; [done|]. cbn [map concat]. rewrite length_app, IH. cbn. lia. Qed.
Lemma length_sidecar_name c : length (sidecar_name sha256 c) = 69%nat.
Proof. unfold sidecar_name. rewrite length_app, length_hex_bytes, sha256_length. done. Qed.
Lemma marker_not_owned c : ¬ own_name (sidecar_name sha256 c) SIDECAR_NAMESPACE_MARKER.
Proof.
  intros [r H]%own_name_prefix. apply (f_equal length) in H. rewrite length_app, length_sidecar_name in H. cbn in H. lia.
Qed.
(** Two sidecars share no name. *)
Lemma own_disjoint dir c c' p :
  own dir (sidecar_name sha256 c) p → own dir (sidecar_name sha256 c') p → sidecar_name sha256 c = sidecar_name sha256 c'.
Proof.
  intros (e & -> & [r ->]%own_name_prefix) (e' & H & [r' ->]%own_name_prefix). apply app_inj_2 in H as [_ [= H]]; [|done].
  apply app_inj_1 in H as [-> _]; [done|]. by rewrite !length_sidecar_name.
Qed.
(** Targets with different file names have different sidecars, unless SHA-256 collides on them. *)
Lemma sidecar_name_inj c c' :
  (∀ x, Forall (λ b, 0 ≤ b < 256) (sha256 x)) → sidecar_name sha256 c = sidecar_name sha256 c' →
  c = c' ∨ ∃ x y, x ≠ y ∧ sha256 x = sha256 y ∧ x = bs "rusty-cat/download-sidecar-path/v1" ++ [0] ++ c
    ∧ y = bs "rusty-cat/download-sidecar-path/v1" ++ [0] ++ c'.
Proof.
  intros Hb H. unfold sidecar_name in H. apply app_inv_tail in H. apply hex_inj in H; [|apply Hb..].
  destruct (decide (c = c')) as [|Hne]; [by left|right]. do 2 eexists. split_and!; [|exact H|done|done].
  intros Heq. apply Hne. by apply app_inv_head, app_inv_head in Heq.
Qed.

(** ** The downloads *)

Record Download := mkDownload {
  d_component : Name;
  d_pid : Name;
  d_tasks : list SidecarTask;
  d_cell : option (list Z);
}.
Definition d_name (d : Download) : Name := sidecar_name sha256 (d_component d).
Definition thread (dir : FsPath) (d : Download) : Prog (list TaskOut) :=
  run_tasks (dir ++ [SIDECAR_NAMESPACE]) (d_name d) (d_pid d) (d_tasks d).

Section Shared.
Context (dir : FsPath) (downloads : list Download).
Hypothesis distinct : NoDup (map d_name downloads).

Definition rely_of (i : nat) (fs fs' : FileTree) : Prop :=
  match downloads !! i with Some d => rely dir (d_name d) fs fs' | None => True end.
Definition guar_of (i : nat) (fs fs' : FileTree) : Prop :=
  match downloads !! i with Some d => guar dir (d_name d) (publishes (d_tasks d)) fs fs' | None => False end.
Definition post_of (i : nat) (outs : list TaskOut) (fs : FileTree) : Prop :=
  match downloads !! i with
  | Some d => ∃ c, cells_run (d_tasks d) (d_cell d) c outs ∧ in_cell dir (d_name d) c fs
  | None => False
  end.

Lemma names_differ i j d d' : i ≠ j → downloads !! i = Some d → downloads !! j = Some d' → d_name d ≠ d_name d'.
Proof.
  intros Hij Hi Hj Heq. apply Hij. eapply NoDup_lookup; [exact distinct| |].
  - rewrite list_lookup_fmap, Hi. done.
  - rewrite list_lookup_fmap, Hj. cbn. by rewrite Heq.
Qed.
Lemma guar_rely i j fs fs' : i ≠ j → guar_of i fs fs' → rely_of j fs fs'.
Proof.
  unfold guar_of, rely_of. intros Hij HG. destruct (downloads !! i) as [d|] eqn:Hi; [|done]. destruct (downloads !! j) as [d'|] eqn:Hj; [|done].
  intros Hc. destruct (HG Hc) as (Hk & Hf & _). split; [done|]. intros p Hp. apply Hf.
  - intros Hp'. eapply names_differ; [exact Hij|done..|]. by eapply own_disjoint.
  - by apply own_ns in Hp.
  - apply (own_marker dir (d_name d')); [apply marker_not_owned|done].
Qed.

Lemma rely_of_refl i fs : rely_of i fs fs.
Proof. unfold rely_of. case_match; [apply rely_refl|done]. Qed.
Lemma rely_of_trans i fs1 fs2 fs3 : rely_of i fs1 fs2 → rely_of i fs2 fs3 → rely_of i fs1 fs3.
Proof. unfold rely_of. case_match; [apply rely_trans|done]. Qed.
Lemma post_of_stable i outs fs fs' : rely_of i fs fs' → post_of i outs fs → post_of i outs fs'.
Proof.
  unfold rely_of, post_of. case_match; [|done]. intros HR (c & Hrun & Hc). exists c. split; [done|]. by eapply cell_rely.
Qed.
Lemma sidecar_path_own d : sidecar_path sha256 dir (d_component d) = sidecar (dir ++ [SIDECAR_NAMESPACE]) (d_name d).
Proof. unfold sidecar_path, sidecar. by rewrite <- (assoc_L (++)). Qed.

Lemma pool_starts fs :
  claim_ok dir fs → (∀ d, d ∈ downloads → fs !! sidecar_path sha256 dir (d_component d) = NFile <$> d_cell d) →
  pool_ok rely_of guar_of post_of (fs, map (thread dir) downloads).
Proof.
  intros Hc Hcells i m. cbn. rewrite list_lookup_fmap. destruct (downloads !! i) as [d|] eqn:Hi; [|done]. intros [= <-].
  exists fs. split; [|apply rely_of_refl]. unfold rely_of, guar_of, post_of. rewrite Hi. apply run_tasks_safe; [apply marker_not_owned|done|].
  split; [done|]. rewrite <- sidecar_path_own. apply Hcells. by eapply list_elem_of_lookup_2.
Qed.

(** A path is outside the namespace. *)
Definition outside (p : FsPath) : Prop := ∀ rest, p ≠ dir ++ SIDECAR_NAMESPACE :: rest.

Lemma guar_outside i fs fs' p : claim_ok dir fs → guar_of i fs fs' → outside p → fs' !! p = fs !! p.
Proof.
  unfold guar_of. intros Hc HG Hp. destruct (downloads !! i) as [d|]; [|done]. destruct (HG Hc) as (_ & Hf & _). apply Hf.
  - intros (e & -> & _). apply (Hp [e]). by rewrite <- (assoc_L (++)).
  - intros ->. by apply (Hp []).
  - intros ->. apply (Hp [SIDECAR_NAMESPACE_MARKER]). unfold marker. by rewrite <- (assoc_L (++)).
Qed.
Lemma guar_sidecar i j d fs fs' :
  claim_ok dir fs → guar_of i fs fs' → downloads !! j = Some d →
  fs' !! sidecar_path sha256 dir (d_component d) = fs !! sidecar_path sha256 dir (d_component d)
  ∨ publishes (d_tasks d) (fs' !! sidecar_path sha256 dir (d_component d)).
Proof.
  intros Hc HG Hj. rewrite sidecar_path_own. destruct (decide (i = j)) as [->|Hij].
  - unfold guar_of in HG. rewrite Hj in HG. apply (HG Hc).
  - left. pose proof (guar_rely i j fs fs' Hij HG) as HR. unfold rely_of in HR. rewrite Hj in HR. apply (HR Hc), own_sidecar.
Qed.
Lemma guars_frame fs fs' :
  claim_ok dir fs → rtc (λ a b, ∃ i, guar_of i a b) fs fs' →
  (∀ p, outside p → fs' !! p = fs !! p)
  ∧ ∀ j d, downloads !! j = Some d →
      fs' !! sidecar_path sha256 dir (d_component d) = fs !! sidecar_path sha256 dir (d_component d)
      ∨ publishes (d_tasks d) (fs' !! sidecar_path sha256 dir (d_component d)).
Proof.
  intros Hc Hr. revert Hc. induction Hr as [fs|fs fs1 fs' [i HG] Hr IH]; intros Hc; [split; auto|].
  assert (claim_ok dir fs1) as Hc1.
  { unfold guar_of in HG. destruct (downloads !! i); [|done]. apply (HG Hc). }
  destruct (IH Hc1) as [Ho Hs]. split.
  - intros p Hp. rewrite Ho by done. by eapply guar_outside.
  - intros j d Hj. destruct (Hs j d Hj) as [->|H]; [|by right]. by eapply guar_sidecar.
Qed.
End Shared.

(** C6: Any number of downloads with different sidecars run their operations (publish, load,
    delete) in one directory at the same time: their file-system calls interleave in any order,
    any call may fail and a write may stop half-way, and the namespace may have to be created and
    claimed first. At every moment the tree outside the namespace is as it was, and each sidecar
    holds either what it held at the start or one complete snapshot its own download publishes,
    never a part of one. A download that has finished has seen its sidecar as a private cell: its
    answers and the content it leaves are those of its operations run alone one after the other,
    an error only where one of its own calls failed. So downloads that race for the namespace
    never fail each other. *)
Theorem namespace_refines_cells dir downloads fs fs' pool :
  NoDup (map d_name downloads) → claim_ok dir fs →
  (∀ d, d ∈ downloads → fs !! sidecar_path sha256 dir (d_component d) = NFile <$> d_cell d) →
  rtc pool_step (fs, map (thread dir) downloads) (fs', pool) →
  (∀ p, outside dir p → fs' !! p = fs !! p)
  ∧ ∀ i d, downloads !! i = Some d →
      (fs' !! sidecar_path sha256 dir (d_component d) = NFile <$> d_cell d
       ∨ publishes (d_tasks d) (fs' !! sidecar_path sha256 dir (d_component d)))
      ∧ ∀ outs, pool !! i = Some (Ret outs) →
          ∃ c, cells_run (d_tasks d) (d_cell d) c outs ∧ fs' !! sidecar_path sha256 dir (d_component d) = NFile <$> c.
Proof.
  intros Hnd Hc Hcells Hr.
  destruct (pool_reachable_ok (rely_of dir downloads) (guar_of dir downloads) (post_of dir downloads)
              (rely_of_trans dir downloads) (λ i j fs fs', guar_rely dir downloads Hnd i j fs fs') _ _
              (rely_of_refl dir downloads) (pool_starts dir downloads fs Hc Hcells) Hr) as [Hok HGs].
  destruct (guars_frame dir downloads Hnd fs fs' Hc HGs) as [Hout Hsc]. split; [done|]. intros i d Hi. split.
  - rewrite <- (Hcells d) by (by eapply list_elem_of_lookup_2). by eapply Hsc.
  - intros outs Hp. pose proof (pool_result _ _ _ (post_of_stable dir downloads) _ i outs Hok Hp) as HQ.
    unfold post_of in HQ. rewrite Hi in HQ. destruct HQ as (c & Hrun & _ & Hs). exists c. by rewrite sidecar_path_own.
Qed.
End Sha.

(** ** A name for the temporary file is found *)

Section Returns.
Context (dir : FsPath) (name pid : Name) (sequence : nat → Z).
Hypothesis marker_foreign : ¬ own_name name SIDECAR_NAMESPACE_MARKER.
Hypothesis distinct : ∀ a b, sequence a = sequence b → a = b.
Abbreviation ns := (dir ++ [SIDECAR_NAMESPACE]).
Abbreviation tmp n := (ns ++ [temp_name name pid sequence n]).
Abbreviation any := (λ _ : option Node, True).

Lemma temp_name_inj a b : temp_name name pid sequence a = temp_name name pid sequence b → a = b.
Proof.
  unfold temp_name. intros H. do 4 apply app_inv_head in H. apply bs_inj in H. apply (inj pretty) in H. by apply distinct.
Qed.
Lemma temp_is_temp n : is_temp_name name (temp_name name pid sequence n) = true.
Proof.
  unfold is_temp_name, temp_name. apply orb_true_iff. right. apply starts_with_spec.
  exists (pid ++ bs "." ++ bs (pretty (sequence n))). by rewrite <- (assoc_L (++)).
Qed.
(** The files of earlier attempts. *)
Definition stale (fs : FileTree) : list Name := filter (λ n, is_temp_name name n = true) (children ns fs).

Lemma some_name_free fuel fs : (length (stale fs) < fuel)%nat → ∃ m, (m < fuel)%nat ∧ fs !! tmp m = None.
Proof.
  intros Hlt. destruct (decide (Exists (λ m, fs !! tmp m = None) (seq 0 fuel))) as [He|Hn].
  { apply Exists_exists in He as (m & Hm & He). apply elem_of_seq in Hm. exists m. split; [lia|done]. }
  exfalso. apply not_Exists_Forall in Hn; [|intros ?; apply _]. rewrite Forall_forall in Hn.
  enough (length (map (temp_name name pid sequence) (seq 0 fuel)) ≤ length (stale fs))%nat by (rewrite length_map, length_seq in *; lia).
  apply submseteq_length, NoDup_submseteq.
  - apply NoDup_fmap_2_strong; [|apply NoDup_seq]. intros a b _ _. apply temp_name_inj.
  - intros x (m & -> & Hm)%list_elem_of_fmap. apply list_elem_of_filter. split; [apply temp_is_temp|].
    apply elem_of_children. specialize (Hn m Hm). cbn in Hn. by destruct (fs !! tmp m) eqn:E; [eexists|].
Qed.

Lemma create_temp_found fuel n c fs m :
  holds dir name c fs → (n ≤ m < n + fuel)%nat → fs !! tmp m = None →
  safe (rely dir name) (guar dir name any) (create_checkpoint_temp ns name pid sequence fuel n) (λ r _, r ≠ None) fs.
Proof.
  revert n fs. induction fuel as [|fuel IH]; intros n fs Hh Hm Hf; [lia|]. cbn [create_checkpoint_temp].
  eapply (safe_temp dir name any); [done|done|apply own_tmp|apply tmp_sidecar|exact Hh|]. intros fs1 fs2 r H1 Ho Hh2.
  destruct Ho as [Ho|(e & He & -> & _)]; [|by rewrite is_existing_not].
  cbn [fs_call] in Ho. destruct (fs1 !! tmp n) as [node|] eqn:Ht.
  - injection Ho as -> ->. cbn. assert (fs1 !! tmp m = None) as Hf1 by (rewrite <- Hf; eapply later_own; [exact H1|apply own_tmp]).
    apply IH; [done| |done]. destruct (decide (n = m)) as [->|]; [congruence|lia].
  - by case_bool_decide; injection Ho as -> ->.
Qed.

(** Publishing a sidecar comes to an end: the counter gives every attempt another name, so the
    loop that looks for a free name for the temporary file makes at most one attempt more than
    there are files of earlier attempts, whatever the other tasks do and whatever calls fail
    meanwhile. *)
Theorem persist_returns fuel bytes c fs :
  in_cell dir name c fs → (length (stale fs) < fuel)%nat →
  safe (rely dir name) (guar dir name any) (persist_sidecar ns name pid sequence fuel bytes) (λ r _, r ≠ None) fs.
Proof.
  intros Hc Hlt. destruct (some_name_free fuel fs Hlt) as (m & Hm & Hf).
  apply safe_bind. eapply safe_mono; [|apply ensure_safe; [done|apply Hc]]. intros [[]|e] fs1 [H1 Hr]; [|done]. cbn in Hr.
  assert (fs1 !! tmp m = None) as Hf1 by (rewrite <- Hf; eapply later_own; [exact H1|apply own_tmp]).
  pose proof (cell_holds _ _ _ _ _ Hc H1 Hr) as Hh1. apply safe_bind. eapply safe_and; [by eapply create_temp_found with (m := m); [|lia|]|by apply create_temp_safe|].
  intros [[t|e]|] fs2 Hne [Hh2 Ht]; [|done|done]. destruct Ht as [[n ->] Ht].
  apply safe_bind. eapply safe_mono; [|by apply persist_body_safe]. intros [[]|e] fs3 Hr3; [done|].
  destruct Hr3 as [_ Hcase]. assert (∃ d, holds dir name d fs3) as [d Hd] by (destruct Hcase; eauto).
  by eapply (safe_temp dir name any); [done|done|apply own_tmp|apply tmp_sidecar|exact Hd|].
Qed.
End Returns.

(** ** A directory that is not the library's *)

(** The reserved name is taken by something else: not a directory, a directory with another marker,
    or a directory with entries and no marker. *)
Definition foreign (dir : FsPath) (fs : FileTree) : Prop :=
  let ns := dir ++ [SIDECAR_NAMESPACE] in
  match fs !! ns with
  | None => False
  | Some NDir => match fs !! marker ns with
                 | None => children ns fs ≠ []
                 | Some node => node ≠ NFile []
                 end
  | Some _ => True
  end.

Section Foreign.
Context (dir : FsPath) (fs : FileTree).
Hypothesis taken : foreign dir fs.
Abbreviation ns := (dir ++ [SIDECAR_NAMESPACE]).
Abbreviation alone := (safe eq eq).

Lemma alone_read {A X : Type} (op : FsOp X) (k : result X IoError → Prog A) Q :
  is_read op → alone (k (snd (fs_call op fs))) Q fs → (∀ e, is_fault e → alone (k (Err e)) Q fs) → alone (Call op k) Q fs.
Proof.
  intros Hop Hok Hf fs1 <- fs2 r Ho. destruct Ho as [Ho|(e & He & -> & Hfs)].
  - assert (fs2 = fs) as -> by (destruct op; try done; by injection Ho).
    split; [done|]. replace r with (snd (fs_call op fs)) by (by rewrite <- Ho). done.
  - assert (fs2 = fs) as -> by (destruct Hfs as [|Hfs]; [done|]; by destruct op). split; [done|]. by apply Hf.
Qed.

(** The checks fail. *)
Abbreviation refused := (λ r _, ∃ e, r = Err e).

Lemma alone_try {A B : Type} (m : IoProg A) (f : A → IoProg B) : alone m (λ r _, ∃ e, r = Err e) fs → alone (try m f) (λ r _, ∃ e, r = Err e) fs.
Proof. intros H. eapply safe_try; [exact H|intros a fs' [e He]; done|intros e fs' _; by exists e]. Qed.

Lemma directory_refused : fs !! ns ≠ Some NDir → alone (validate_namespace_directory ns) refused fs.
Proof.
  intros Hd. apply alone_read; [done| |by intros e _; exists e]. cbn [fs_call snd].
  destruct (fs !! ns) as [[content| |]|]; [| done| |]; cbn; by eexists.
Qed.
Lemma marker_refused node : fs !! marker ns = Some node → node ≠ NFile [] → alone (validate_namespace_marker ns) refused fs.
Proof.
  intros Hm Hne. apply alone_read; [done| |by intros e _; exists e]. cbn [fs_call snd]. rewrite Hm. cbn.
  destruct node as [[|b l]| |]; [done| | |]; cbn; by eexists.
Qed.
Lemma check_refused : fs !! ns = Some NDir → alone (check_namespace ns) refused fs.
Proof.
  intros Hd. unfold foreign in taken. rewrite Hd in taken. apply alone_read; [done| |].
  2: { intros e He. rewrite is_missing_not by done. by exists e. }
  cbn [fs_call snd]. destruct (fs !! marker ns) as [node|] eqn:Hm; [by eapply marker_refused|].
  apply alone_read; [done| |by intros e _; exists e]. cbn [fs_call snd]. rewrite bool_decide_true by done. cbn [bind].
  destruct (children ns fs) as [|x l]; [done|]. apply alone_read; [done| |].
  - cbn [fs_call snd]. rewrite Hm. cbn. by eexists.
  - intros e He. rewrite is_missing_not by done. by exists e.
Qed.
Lemma ensure_refused : alone (ensure_sidecar_namespace ns) refused fs.
Proof.
  assert (∃ node, fs !! ns = Some node) as [node Hn] by (unfold foreign in taken; destruct (fs !! ns); [eauto|done]).
  intros fs1 <- fs2 r Ho. destruct Ho as [Ho|(e & He & -> & [->|[]])].
  2: { split; [done|]. rewrite is_existing_not by done. cbn. by exists e. }
  cbn [fs_call] in Ho. rewrite Hn in Ho. injection Ho as -> ->. split; [done|]. cbn [is_existing]. 
  destruct (decide (node = NDir)) as [->|Hne]; [|apply alone_try, directory_refused; congruence].
  eapply safe_try with (P := λ _ fs', fs' = fs).
  - apply alone_read; [done| |done]. cbn [fs_call snd]. rewrite Hn. done.
  - intros [] fs' ->. by apply check_refused.
  - intros e fs' _. by exists e.
Qed.
(** At best the namespace is taken for one that is not there. *)
Lemma not_owned : alone (sidecar_namespace_is_owned ns) (λ r fs', fs' = fs ∧ r ≠ Ok true) fs.
Proof.
  apply alone_read; [done| |]; [|intros e He; rewrite is_missing_not by done; done]. cbn [fs_call snd].
  destruct (fs !! ns) as [node|] eqn:Hn; [|done].
  eapply safe_try with (P := λ r fs', fs' = fs ∧ (r = Ok tt → node = NDir)); [| |by intros e fs' [-> _]].
  { apply alone_read; [done| |done]. cbn [fs_call snd]. rewrite Hn. by destruct node. }
  intros [] fs' [-> Hnode]. specialize (Hnode eq_refl) as ->. unfold foreign in taken. rewrite Hn in taken.
  apply alone_read; [done| |intros e He; rewrite is_missing_not by done; done]. cbn [fs_call snd].
  destruct (fs !! marker ns) as [node|] eqn:Hm; [|done].
  eapply safe_try with (P := λ r fs', fs' = fs ∧ ∃ e, r = Err e); [|by intros [] fs' [_ [e He]]|by intros e fs' [-> _]].
  apply alone_read; [done| |intros e _; split; [done|by exists e]]. cbn [fs_call snd]. rewrite Hm. cbn.
  destruct node as [[|b l]| |]; [done| | |]; cbn; split; [done|by eexists|done|by eexists|done|by eexists].
Qed.

(** C26: Where the reserved name beside a target is taken by something that is not the library's
    own (a file or a link, a directory with another marker, a directory with entries and no
    marker), no call of publishing, loading, cleaning up or deleting a sidecar changes anything in
    the tree, whatever calls fail: publishing returns an error, and loading finds no checkpoint or
    returns an error. *)
Theorem foreign_namespace_untouched name pid sequence fuel bytes len :
  alone (persist_sidecar ns name pid sequence fuel bytes) (λ r _, ∃ e, r = Some (Err e)) fs
  ∧ alone (load_sidecar_file ns name len) (λ r _, r = Ok None ∨ ∃ e, r = Err e) fs
  ∧ alone (cleanup_stale_checkpoint_temps ns name) (λ _ _, True) fs
  ∧ alone (delete_sidecar_file ns name) (λ _ _, True) fs.
Proof.
  split_and!.
  - apply safe_bind. eapply safe_mono; [|exact ensure_refused]. intros r fs' [e ->]. cbn. by eexists.
  - eapply safe_try; [exact not_owned| |intros e fs' _; right; by exists e]. intros [|] fs' [-> Hne]; [done|]. by left.
  - apply safe_bind. eapply safe_mono; [|exact not_owned]. intros [[|]|e] fs' [-> Hne]; done.
  - eapply safe_try; [exact not_owned| |done]. intros [|] fs' [-> Hne]; done.
Qed.
End Foreign.

(** ** Runs *)

(** The calls in this order of threads, none of which fails. *)
Fixpoint run_schedule {A} (schedule : list nat) (s : FileTree * list (Prog A)) : FileTree * list (Prog A) :=
  match schedule with
  | [] => s
  | i :: schedule =>
      run_schedule schedule
        match s.2 !! i with
        | Some (Call op k) => let '(fs, r) := fs_call op s.1 in (fs, <[i := k r]> s.2)
        | _ => s
        end
  end.
Lemma run_schedule_steps {A : Type} (schedule : list nat) (s : FileTree * list (Prog A)) : rtc pool_step s (run_schedule schedule s).
Proof.
  revert s. induction schedule as [|i schedule IH]; intros [fs pool]; [done|]. cbn [run_schedule fst snd].
  destruct (pool !! i) as [[a|X op k]|] eqn:Hi; [apply IH| |apply IH].
  destruct (fs_call op fs) as [fs' r] eqn:Hc. eapply rtc_l; [|apply IH]. econstructor; [done|left]. by rewrite Hc.
Qed.

Module Demo.
Definition sha (x : list Z) : list Z := replicate 32 (Z.of_nat (length x) mod 256).
Definition folder : FsPath := [bs "videos"].
Definition movie : FsPath := [bs "videos"; bs "movie"].
Definition tree : FileTree := <[folder := NDir]> (<[movie := NFile [7]]> ∅).
Definition first : Download := mkDownload (bs "a.bin") (bs "11") [TaskPersist Z.of_nat 4 [1; 2]; TaskLoad 2; TaskDelete] None.
Definition second : Download := mkDownload (bs "bb.bin") (bs "11") [TaskPersist (λ n, Z.of_nat n + 9) 4 [3]; TaskLoad 5] None.
(** Both create and claim the namespace at the same time. *)
Definition finish := run_schedule (concat (replicate 60 [0; 1]%nat)) (tree, map (thread sha folder) [first; second]).

Lemma demo_claim_ok : claim_ok folder tree.
Proof. left. split; [left; by split|]. intros n. unfold tree. by rewrite !lookup_insert_ne. Qed.

Lemma namespace_refines_cells_witness :
  finish.2 !! 0%nat = Some (Ret [OutPersist (Some (Ok tt)); OutLoad (Ok (Some [1; 2])); OutDelete (Ok tt)])
  ∧ finish.2 !! 1%nat = Some (Ret [OutPersist (Some (Ok tt)); OutLoad (Ok None)])
  ∧ finish.1 !! movie = tree !! movie
  ∧ ∃ c, cells_run (d_tasks second) None c [OutPersist (Some (Ok tt)); OutLoad (Ok None)]
       ∧ finish.1 !! sidecar_path sha folder (d_component second) = NFile <$> c.
Proof.
  assert (finish.2 !! 1%nat = Some (Ret [OutPersist (Some (Ok tt)); OutLoad (Ok None)])) as H1 by (vm_compute; reflexivity).
  split; [vm_compute; reflexivity|]. split; [done|].
  destruct (namespace_refines_cells sha (λ x, length_replicate 32 _) folder [first; second] tree finish.1 finish.2) as [Hout Hd].
  - apply (bool_decide_unpack _). vm_compute. exact I.
  - exact demo_claim_ok.
  - intros d [->|[->|[]%not_elem_of_nil]%elem_of_cons]%elem_of_cons; vm_compute; reflexivity.
  - rewrite <- surjective_pairing. apply run_schedule_steps.
  - split; [apply Hout; intros rest; done|]. apply (Hd 1%nat second eq_refl). exact H1.
Defined.

Lemma persist_returns_witness :
  safe (rely folder (bs "x.rcdl")) (guar folder (bs "x.rcdl") (λ _, True))
    (persist_sidecar (folder ++ [SIDECAR_NAMESPACE]) (bs "x.rcdl") (bs "11") Z.of_nat 1 [1; 2]) (λ r _, r ≠ None) tree.
Proof.
  apply (persist_returns folder (bs "x.rcdl") (bs "11") Z.of_nat) with (c := None).
  - intros [H|H]; [by vm_compute in H|by vm_compute in H].
  - intros a b H. lia.
  - split; [exact demo_claim_ok|vm_compute; reflexivity].
  - vm_compute. lia.
Defined.

Lemma foreign_namespace_untouched_witness :
  let fs : FileTree := <[folder ++ [SIDECAR_NAMESPACE; bs "notes"] := NFile [1]]> (<[folder ++ [SIDECAR_NAMESPACE] := NDir]> tree) in
  foreign folder fs
  ∧ safe eq eq (delete_sidecar_file (folder ++ [SIDECAR_NAMESPACE]) (bs "x.rcdl")) (λ _ _, True) fs.
Proof.
  intros fs. assert (foreign folder fs) as H by (vm_compute; done). split; [exact H|].
  exact (proj2 (proj2 (proj2 (foreign_namespace_untouched folder fs H (bs "x.rcdl") (bs "11") Z.of_nat 1 [1] 2)))).
Defined.
End Demo.
