(* ===== verification/TargetGuard.v ===== *)
(** * Targets outside the sidecar's namespace

    The check of [src/dflt/download_progress.rs] that a visible download target does not lie in a
    namespace of sidecars, under its own path or under the one it resolves to. Path resolution and
    link metadata belong to the operating system and are parameters; where a path leads is a
    relation on them. *)
From S2P Require Import Prelude Errors HttpHeaders DownloadIdentity TargetLease SidecarFs SidecarFsProps SidecarShare.
#[local] Open Scope Z_scope.

Inductive FileKind := KindSymlink | KindOther.
Record GuardFs := mkGuardFs {
  gf_canonicalize : Path → result Path IoError;
  gf_symlink_metadata : Path → result FileKind IoError;
}.

Section Guard.
Context (os : TargetOs).

Definition is_sidecar_namespace_component (name : string) : bool :=
  match os with
  | OsWindows | OsMacos => eq_ignore_ascii_case (bs name) SIDECAR_NAMESPACE
  | _ => bool_decide (bs name = SIDECAR_NAMESPACE)
  end.

(** The loop over the ancestors; the last of them, the root or the empty path, has no file name. *)
Fixpoint ancestors_outside (rev_comps : list string) : result unit IoError :=
  match rev_comps with
  | [] => Ok tt
  | last :: parent =>
      match file_name_of last with
      | None => ancestors_outside parent
      | Some name =>
          if negb (is_sidecar_namespace_component name) then ancestors_outside parent
          else Err (io_new InvalidInput "download target is inside the reserved rusty-cat checkpoint namespace")
      end
  end.
Definition ensure_path_outside_sidecar_namespace (target : Path) : result unit IoError :=
  ancestors_outside (rev (path_comps target)).

(** The loop, over the components from the last one; a parent without components is the root or
    the current directory, which have no file name. *)
Fixpoint normalize_existing (fs : GuardFs) (abs : bool) (rev_comps missing : list string) : result Path IoError :=
  let cursor := mkPathOf abs (rev rev_comps) in
  match gf_canonicalize fs cursor with
  | Ok canonical => Ok (foldl path_push canonical (rev missing))
  | Err error =>
      if bool_decide (io_kind error = NotFound) then
        match gf_symlink_metadata fs cursor with
        | Ok KindSymlink => Err (io_new InvalidInput "download target contains a dangling or unresolvable symbolic link")
        | Ok _ => Err error
        | Err metadata_error =>
            if bool_decide (io_kind metadata_error = NotFound) then
              match rev_comps with
              | [] => Err error
              | last :: parent =>
                  match file_name_of last with
                  | Some name => normalize_existing fs abs parent (missing ++ [name])
                  | None => Err error
                  end
              end
            else Err metadata_error
        end
      else Err error
  end.
Definition normalize_longest_existing_prefix (fs : GuardFs) (path : Path) : result Path IoError :=
  normalize_existing fs (path_abs path) (rev (path_comps path)) [].

Definition ensure_target_outside_sidecar_namespace (fs : GuardFs) (target : Path) : result unit IoError :=
  let? _ := ensure_path_outside_sidecar_namespace target in
  let? normalized := normalize_longest_existing_prefix fs target in
  if bool_decide (normalized = target) then Ok tt else ensure_path_outside_sidecar_namespace normalized.

(** ** Where a path leads *)

(** The file that opening or creating a path reaches: what exists is resolved; a name that is not
    there is one in the directory its parent leads to; a link that cannot be resolved is followed. *)
Section Leads.
Context (fs : GuardFs) (link_target : Path → Path).

Inductive leads_to : Path → Path → Prop :=
| leads_existing p q : gf_canonicalize fs p = Ok q → leads_to p q
| leads_missing abs parent name q e e' :
    gf_canonicalize fs (mkPathOf abs (parent ++ [name])) = Err e → io_kind e = NotFound →
    gf_symlink_metadata fs (mkPathOf abs (parent ++ [name])) = Err e' → io_kind e' = NotFound →
    leads_to (mkPathOf abs parent) q → leads_to (mkPathOf abs (parent ++ [name])) (path_push q name)
| leads_dangling p q e :
    gf_canonicalize fs p = Err e → gf_symlink_metadata fs p = Ok KindSymlink → leads_to (link_target p) q → leads_to p q.

Definition reserved (p : Path) : Prop := ∃ c, c ∈ path_comps p ∧ is_sidecar_namespace_component c = true.

Lemma file_name_namespace c : is_sidecar_namespace_component c = true → file_name_of c = Some c.
Proof.
  unfold file_name_of. destruct (String.eqb_spec c "..") as [->|]; [|done]. unfold is_sidecar_namespace_component. by destruct os.
Qed.
Lemma ancestors_outside_spec l :
  match ancestors_outside l with
  | Ok _ => ∀ c, c ∈ l → is_sidecar_namespace_component c = false
  | Err e => ∃ c, c ∈ l ∧ is_sidecar_namespace_component c = true
  end.
Proof.
  induction l as [|x l IH]; cbn [ancestors_outside]; [by intros c ?%not_elem_of_nil|].
  assert (is_sidecar_namespace_component x = false →
    match ancestors_outside l with
    | Ok _ => ∀ c, c ∈ x :: l → is_sidecar_namespace_component c = false
    | Err e => ∃ c, c ∈ x :: l ∧ is_sidecar_namespace_component c = true
    end) as Hstep.
  { intros Hx. destruct (ancestors_outside l); [intros c [->|Hc]%elem_of_cons; auto|].
    destruct IH as (c & Hc & Hr). exists c. split; [by right|done]. }
  destruct (is_sidecar_namespace_component x) eqn:Hx.
  - rewrite (file_name_namespace x Hx), Hx. cbn. exists x. split; [left|done].
  - unfold file_name_of. destruct (String.eqb x ".."); [by apply Hstep|]. rewrite Hx. by apply Hstep.
Qed.
(** The loop over the ancestors looks at every component. *)
Lemma path_outside_spec p : ensure_path_outside_sidecar_namespace p = Ok tt ↔ ¬ reserved p.
Proof.
  unfold ensure_path_outside_sidecar_namespace, reserved. pose proof (ancestors_outside_spec (rev (path_comps p))) as H.
  destruct (ancestors_outside _) as [[]|e].
  - split; [|done]. intros _ (c & Hc & Hr). rewrite (H c) in Hr; [done|]. by apply list_elem_of_In, in_rev, list_elem_of_In in Hc.
  - split; [done|]. intros Hn. destruct Hn. destruct H as (c & Hc & Hr). exists c. split; [|done].
    apply list_elem_of_In, in_rev, list_elem_of_In. exact Hc.
Qed.

Lemma foldl_push q l : foldl path_push q l = mkPathOf (path_abs q) (path_comps q ++ l).
Proof.
  revert q. induction l as [|x l IH]; intros [a cs]; cbn; [by rewrite app_nil_r|]. rewrite IH. cbn. by rewrite <- (assoc_L (++)).
Qed.
Lemma app_not_nil {A} (l : list A) x : l ++ [x] ≠ [].
Proof. by destruct l. Qed.

(** Normalisation follows a path to where it leads. *)
Lemma normalize_leads abs l missing r q :
  normalize_existing fs abs (rev l) missing = Ok r → leads_to (mkPathOf abs l) q → r = foldl path_push q (rev missing).
Proof.
  intros Hn Hl. remember (mkPathOf abs l) as p eqn:Hp. revert abs l missing r Hn Hp.
  induction Hl as [p q Hc|abs' parent name q e e' Hc He Hm He' Hl IH|p q e Hc Hm Hl IH]; intros abs l missing r Hn Hp.
  - subst p. destruct (rev l) as [|x up] eqn:Hrev; cbn [normalize_existing] in Hn; rewrite <- Hrev, rev_involutive, Hc in Hn; congruence.
  - injection Hp as <- <-. rewrite rev_unit in Hn. cbn [normalize_existing rev] in Hn. rewrite rev_involutive, Hc in Hn.
    rewrite bool_decide_true, Hm, bool_decide_true in Hn by done. destruct (file_name_of name) as [n|] eqn:Hf; [|done].
    assert (n = name) as -> by (unfold file_name_of in Hf; destruct (String.eqb name ".."); congruence).
    rewrite (IH _ _ _ _ Hn eq_refl), rev_unit. cbn. done.
  - subst p. destruct (rev l) as [|x up] eqn:Hrev; cbn [normalize_existing] in Hn; rewrite <- Hrev, rev_involutive, Hc, Hm in Hn; by case_bool_decide.
Qed.

Lemma namespace_component c : bs c = SIDECAR_NAMESPACE → is_sidecar_namespace_component c = true.
Proof. intros H. unfold is_sidecar_namespace_component, eq_ignore_ascii_case. rewrite H. destruct os; by apply bool_decide_eq_true. Qed.
Lemma not_reserved_outside q dir : ¬ reserved q → outside dir (map bs (path_comps q)).
Proof.
  intros Hn rest Heq. apply Hn. assert (SIDECAR_NAMESPACE ∈ map bs (path_comps q)) as (c & Hc & Hin)%list_elem_of_fmap.
  { rewrite Heq. apply elem_of_app. right. left. }
  exists c. split; [done|]. by apply namespace_component.
Qed.

(** C27: A target that passes the check does not lead into a namespace of sidecars: no component
    of its path is the reserved name (in any case, on Windows and macOS), and none of the file it
    leads to, whether the file exists, lies in directories that are yet to be created, or is
    reached through links, dangling ones included. So the operations on sidecars in any directory
    leave the file alone. A target with the reserved name in its path is refused. *)
Theorem checked_target_outside target :
  (ensure_target_outside_sidecar_namespace fs target = Ok tt →
   ¬ reserved target ∧ ∀ q, leads_to target q → ¬ reserved q ∧ ∀ dir, outside dir (map bs (path_comps q)))
  ∧ (reserved target → ∃ e, ensure_target_outside_sidecar_namespace fs target = Err e).
Proof.
  unfold ensure_target_outside_sidecar_namespace. destruct target as [abs comps]. split.
  - pose proof (path_outside_spec (mkPathOf abs comps)) as Hself.
    destruct (ensure_path_outside_sidecar_namespace (mkPathOf abs comps)) as [[]|]; [|done].
    destruct Hself as [Hself _]. specialize (Hself eq_refl).
    unfold normalize_longest_existing_prefix. cbn [path_abs path_comps].
    destruct (normalize_existing fs abs (rev comps) []) as [r|] eqn:Hn; [|done]. cbn. intros Hr.
    assert (¬ reserved r) as Hfree.
    { case_bool_decide as Heq; [by subst r|by apply path_outside_spec]. }
    split; [done|]. intros q Hl. apply (normalize_leads abs comps [] r q) in Hl; [|done]. cbn in Hl. subst r.
    split; [done|]. intros dir. by apply not_reserved_outside.
  - intros Hres. destruct (ensure_path_outside_sidecar_namespace (mkPathOf abs comps)) as [[]|e] eqn:He; [|by exists e].
    by apply path_outside_spec in He.
Qed.
End Leads.
End Guard.

(** ** Targets behind links *)

Module LinkDemo.
Definition missing_file : IoError := io_new NotFound "no such file or directory".
(** [/safe] leads to [/home/.rusty-cat]; [/old] is a link to [/home/.rusty-cat/x], which does not
    exist; [/home] is a directory. *)
Definition links : GuardFs := {|
  gf_canonicalize p :=
    match path_comps p with
    | ["safe"] => Ok (mkPathOf true ["home"; ".rusty-cat"])
    | ["home"] => Ok (mkPathOf true ["home"])
    | _ => Err missing_file
    end%string;
  gf_symlink_metadata p :=
    match path_comps p with
    | ["safe"] | ["old"] => Ok KindSymlink
    | ["home"] => Ok KindOther
    | _ => Err missing_file
    end%string |}.
Definition follow (_ : Path) : Path := mkPathOf true ["home"; ".rusty-cat"; "x"]%string.

Example through_link_refused : ∃ e, ensure_target_outside_sidecar_namespace OsLinux links (mkPathOf true ["safe"; "x"]%string) = Err e.
Proof. by eexists. Qed.
Example dangling_refused : ∃ e, ensure_target_outside_sidecar_namespace OsLinux links (mkPathOf true ["old"]%string) = Err e.
Proof. by eexists. Qed.

Lemma checked_target_outside_witness :
  ensure_target_outside_sidecar_namespace OsLinux links (mkPathOf true ["home"; "new"; "a"]%string) = Ok tt
  ∧ leads_to links follow (mkPathOf true ["home"; "new"; "a"]%string) (mkPathOf true ["home"; "new"; "a"]%string)
  ∧ outside [bs "home"] [bs "home"; bs "new"; bs "a"].
Proof.
  assert (ensure_target_outside_sidecar_namespace OsLinux links (mkPathOf true ["home"; "new"; "a"]%string) = Ok tt) as Hok by reflexivity.
  assert (leads_to links follow (mkPathOf true ["home"; "new"; "a"]%string) (mkPathOf true ["home"; "new"; "a"]%string)) as Hl.
  { apply (leads_missing links follow true ["home"; "new"]%string "a" (mkPathOf true ["home"; "new"]%string) missing_file missing_file); try reflexivity.
    apply (leads_missing links follow true ["home"]%string "new" (mkPathOf true ["home"]%string) missing_file missing_file); try reflexivity.
    by apply leads_existing. }
  split; [exact Hok|]. split; [exact Hl|].
  exact (proj2 (proj2 (proj1 (checked_target_outside OsLinux links follow (mkPathOf true ["home"; "new"; "a"]%string)) Hok) _ Hl) [bs "home"]).
Defined.
End LinkDemo.
