(* ===== verification/ProviderRequest.v ===== *)
(** * Requests of the direct providers and their error bodies

    [src/provider_body.rs]: the query of a provider request, made of the caller's query and the
    pairs the provider's protocol owns, and the bounded text of an error response; with the URLs
    that [src/aliyun-oss-direct/upload.rs] and [src/azure-blob-direct/upload.rs] build from them.

    Parsing and serialising queries are the URL library's: parameters, with what its documentation
    says of them as hypotheses. *)
From S2P Require Import Prelude Errors HttpHeaders DownloadIdentity RangeDownload ProviderXml OssUpload AzureUpload LogRedact LogRedactProps.
#[local] Open Scope Z_scope.

(** What a request uses of a URL: its text before the query, and the query. *)
Record RequestUrl := mkRequestUrl { rq_base : list Z; rq_query : option (list Z) }.

Abbreviation Pair := (list Z * list Z)%type.

Section Requests.
(** [Url::query_pairs] of a query, the text of [query_pairs_mut().append_pair], the encoding of
    [Url::set_query], and [Url::parse]. *)
Context (query_pairs : list Z → list Pair) (serialize : list Pair → list Z) (encode_query : list Z → list Z).
Context (parse_url : string → result RequestUrl string).

(** [replace('+', "%20")] *)
Fixpoint plus_to_20 (l : list Z) : list Z :=
  match l with
  | [] => []
  | b :: r => if b =? 43 then [37; 50; 48] ++ plus_to_20 r else b :: plus_to_20 r
  end.

Definition set_query (q : list Z) (u : RequestUrl) : RequestUrl := mkRequestUrl (rq_base u) (Some (encode_query q)).

Definition append_query_pairs_preserving_raw (u : RequestUrl) (pairs : list Pair) : RequestUrl * list Z :=
  let existing := default [] (rq_query u) in
  let generated := plus_to_20 (serialize pairs) in
  let combined :=
    match existing, generated with
    | _ :: _, _ :: _ => existing ++ [38] ++ generated
    | _ :: _, [] => existing
    | [], _ => generated
    end in
  (set_query combined u, combined).

Definition append_raw_query_component (u : RequestUrl) (component : list Z) : RequestUrl * list Z :=
  let combined :=
    match rq_query u with
    | Some ((_ :: _) as existing) => existing ++ [38] ++ component
    | _ => component
    end in
  (set_query combined u, combined).

Definition pairs_of (u : RequestUrl) : list Pair := match rq_query u with Some q => query_pairs q | None => [] end.

(** [AliOssDirectUpload::build_query_url] *)
Definition oss_build_query_url (task_url : string) (pairs : list Pair) : result (RequestUrl * list Z) MeowError :=
  match parse_url task_url with
  | Err e => Err (from_code ParameterEmpty e)
  | Ok url =>
      let? _ := reject_reserved_query_keys (pairs_of url) OSS_RESERVED_QUERY_KEYS "Aliyun OSS" in
      Ok (append_query_pairs_preserving_raw url pairs)
  end.
(** [AzureBlobDirectUpload::build_query_url] *)
Definition az_build_query_url (task_url : string) (sanitized : string) (pairs : list Pair) : result RequestUrl MeowError :=
  match parse_url task_url with
  | Err e => Err (from_code ParameterEmpty ("invalid azure blob url: " +:+ sanitized +:+ " (" +:+ e +:+ ")"))
  | Ok url =>
      let? _ := reject_reserved_query_keys (pairs_of url) AZURE_RESERVED_QUERY_KEYS "Azure Blob" in
      Ok (append_query_pairs_preserving_raw url pairs).1
  end.
(** The URL of a page of the multipart listing, and of a new session; [root] is the text before
    the query with the path set to the root. *)
Definition oss_initiate_url (task_url : string) : result (RequestUrl * list Z) MeowError :=
  match parse_url task_url with
  | Err e => Err (from_code ParameterEmpty e)
  | Ok url =>
      let? _ := reject_reserved_query_keys (pairs_of url) OSS_RESERVED_QUERY_KEYS "Aliyun OSS" in
      Ok (append_raw_query_component url (bs "uploads"))
  end.
Definition oss_list_url (task_url : string) (root : list Z) (pairs : list Pair) : result (RequestUrl * list Z) MeowError :=
  match parse_url task_url with
  | Err e => Err (from_code ParameterEmpty e)
  | Ok url =>
      let? _ := reject_reserved_query_keys (pairs_of url) OSS_RESERVED_QUERY_KEYS "Aliyun OSS" in
      Ok (append_query_pairs_preserving_raw (append_raw_query_component (mkRequestUrl root (rq_query url)) (bs "uploads")).1 pairs)
  end.

(** ** Error bodies *)

Definition MAX_PROVIDER_ERROR_BODY_BYTES : Z := 64 * 1024.
Definition ERROR_BODY_TRUNCATED : list Z := bs "[provider error body truncated]".

Definition append_bounded (body chunk : list Z) (limit : Z) : list Z * bool :=
  let remaining := sat_sub limit (Z.of_nat (length body)) in
  let take_len := Z.min remaining (Z.of_nat (length chunk)) in
  (body ++ take (Z.to_nat take_len) chunk, take_len <? Z.of_nat (length chunk)).

Definition declared_error_body_is_oversize (declared_length : option Z) : bool :=
  match declared_length with Some length => MAX_PROVIDER_ERROR_BODY_BYTES <? length | None => false end.
Definition should_mark_error_body_truncated (dropped_chunk_bytes : bool) (collected_len : Z) (declared_length : option Z) : bool :=
  dropped_chunk_bytes
  || ((collected_len =? MAX_PROVIDER_ERROR_BODY_BYTES) && bool_decide (declared_length ≠ Some MAX_PROVIDER_ERROR_BODY_BYTES)).

(** [String::from_utf8_lossy] *)
Context (lossy : list Z → list Z).

Fixpoint error_body_loop (declared_length : option Z) (items : list BodyItem) (body : list Z) : result (list Z) string :=
  match items with
  | [] => Ok (lossy body)
  | BodyError text :: _ => Err text
  | BodyChunk chunk :: items =>
      let '(body, truncated) := append_bounded body chunk MAX_PROVIDER_ERROR_BODY_BYTES in
      if truncated || (Z.of_nat (length body) =? MAX_PROVIDER_ERROR_BODY_BYTES) then
        let mark_truncated := should_mark_error_body_truncated truncated (Z.of_nat (length body)) declared_length in
        Ok (lossy body ++ (if mark_truncated then ERROR_BODY_TRUNCATED else []))
      else error_body_loop declared_length items body
  end.
Definition read_error_body (declared_length : option Z) (items : list BodyItem) : result (list Z) string :=
  if declared_error_body_is_oversize declared_length then Ok ERROR_BODY_TRUNCATED
  else error_body_loop declared_length items [].

(** ** What a request asks *)

(** The text of a Rust string. *)
Definition text_ok (l : list Z) : Prop := is_utf8 l = true ∧ Forall (λ b, 0 ≤ b < 256) l.
Definition pairs_ok (pairs : list Pair) : Prop := Forall (λ kv : Pair, text_ok kv.1 ∧ text_ok kv.2) pairs.

(** The values of a name that the provider compares without case. *)
Definition values_of (name : string) (pairs : list Pair) : list (list Z) :=
  map snd (List.filter (λ kv : Pair, eq_ignore_ascii_case kv.1 (bs name)) pairs).

Section Exact.
(** A query is split at its ampersands, serialisation is undone by parsing, and text that is
    encoded already is not encoded again. *)
Hypothesis pairs_nil : query_pairs [] = [].
Hypothesis pairs_split : ∀ a b, query_pairs (a ++ [38] ++ b) = query_pairs a ++ query_pairs b.
Hypothesis pairs_serialize : ∀ pairs, pairs_ok pairs → query_pairs (plus_to_20 (serialize pairs)) = pairs.
Hypothesis encode_split : ∀ a b, encode_query (a ++ [38] ++ b) = encode_query a ++ [38] ++ encode_query b.
Hypothesis encode_serialized : ∀ pairs, encode_query (plus_to_20 (serialize pairs)) = plus_to_20 (serialize pairs).
Hypothesis encode_parsed : ∀ url u q, parse_url url = Ok u → rq_query u = Some q → encode_query q = q.

Definition encoded (u : RequestUrl) : Prop := ∀ q, rq_query u = Some q → encode_query q = q.

(** The request adds these pairs to the caller's and changes nothing else; what is sent is what is
    signed. *)
Definition asks (before : RequestUrl) (base : list Z) (pairs : list Pair) (after : RequestUrl) (raw : list Z) : Prop :=
  rq_base after = base ∧ rq_query after = Some raw ∧ (∃ rest, raw = default [] (rq_query before) ++ rest)
  ∧ query_pairs raw = pairs_of before ++ pairs.

Lemma pairs_of_default u : pairs_of u = query_pairs (default [] (rq_query u)).
Proof. unfold pairs_of. destruct (rq_query u); cbn; [done|by rewrite pairs_nil]. Qed.
Lemma append_pairs_asks u pairs :
  encoded u → pairs_ok pairs →
  asks u (rq_base u) pairs (append_query_pairs_preserving_raw u pairs).1 (append_query_pairs_preserving_raw u pairs).2.
Proof.
  intros He Hok. pose proof (pairs_serialize pairs Hok) as Hs. pose proof (encode_serialized pairs) as Hg.
  unfold append_query_pairs_preserving_raw, asks. rewrite pairs_of_default.
  assert (default [] (rq_query u) = [] ∨ encode_query (default [] (rq_query u)) = default [] (rq_query u)) as Hx.
  { destruct (rq_query u) as [q|] eqn:Hq; [right; by apply He|by left]. }
  destruct (default [] (rq_query u)) as [|b l] eqn:Hd; cbn [fst snd set_query rq_base rq_query].
  - split_and!; [done|by rewrite Hg|by eexists|]. by rewrite Hs, pairs_nil.
  - destruct Hx as [|Hx]; [done|]. destruct (plus_to_20 (serialize pairs)) as [|b' l'] eqn:Hg'.
    + split_and!; [done|by rewrite Hx|exists []; by rewrite app_nil_r|]. rewrite pairs_nil in Hs. subst pairs. by rewrite app_nil_r.
    + split_and!; [done| |by eexists|by rewrite pairs_split, Hs]. by rewrite encode_split, Hx, Hg.
Qed.
Lemma append_raw_asks u component :
  encoded u → encode_query component = component →
  asks u (rq_base u) (query_pairs component) (append_raw_query_component u component).1 (append_raw_query_component u component).2.
Proof.
  intros He Hc. unfold append_raw_query_component, asks. rewrite pairs_of_default.
  destruct (rq_query u) as [[|b l]|] eqn:Hq; cbn [fst snd set_query rq_base rq_query default id].
  - split_and!; [done|by rewrite Hc|by eexists|by rewrite pairs_nil].
  - split_and!; [done| |by eexists|by rewrite pairs_split]. rewrite encode_split, Hc. by rewrite (He _ Hq).
  - split_and!; [done|by rewrite Hc|by eexists|by rewrite pairs_nil].
Qed.

(** A component, then pairs, at another path. *)
Lemma append_both_asks u root component pairs :
  encoded u → encode_query component = component → pairs_ok pairs →
  let both := append_query_pairs_preserving_raw (append_raw_query_component (mkRequestUrl root (rq_query u)) component).1 pairs in
  asks u root (query_pairs component ++ pairs) both.1 both.2.
Proof.
  intros He Hc Hok both.
  destruct (append_raw_asks (mkRequestUrl root (rq_query u)) component He Hc) as (Hb1 & Hq1 & [r1 Hr1] & Hs1).
  set (mid := append_raw_query_component _ _) in *.
  assert (encoded mid.1) as Hmid.
  { intros q. rewrite Hq1. intros [= <-]. unfold mid, append_raw_query_component in Hq1 |- *. cbn in Hq1 |- *. by injection Hq1. }
  destruct (append_pairs_asks mid.1 pairs Hmid Hok) as (Hb2 & Hq2 & [r2 Hr2] & Hs2). fold both in Hb2, Hq2, Hr2, Hs2.
  split_and!; [by rewrite Hb2, Hb1|done| |].
  - rewrite Hq1 in Hr2. exists (r1 ++ r2). rewrite Hr2. cbn [default id]. rewrite Hr1. cbn [rq_query]. by rewrite <- (assoc_L (++)).
  - rewrite Hs2, pairs_of_default, Hq1. cbn [default id]. rewrite Hs1. unfold pairs_of. cbn [rq_query]. by rewrite (assoc_L (++)).
Qed.

(** The caller's query has none of the provider's names. *)
Lemma reject_values pairs reserved provider name :
  reject_reserved_query_keys pairs reserved provider = Ok tt → name ∈ reserved → values_of name pairs = [].
Proof.
  unfold reject_reserved_query_keys, values_of. destruct (find _ pairs) as [kv|] eqn:Hf; [done|]. intros _ Hin.
  destruct (List.filter _ pairs) as [|kv l] eqn:Hl; [done|]. exfalso.
  assert (In kv (kv :: l)) as Hkv by (by left). rewrite <- Hl in Hkv. apply filter_In in Hkv as [Hkv Heq].
  pose proof (find_none _ _ Hf kv Hkv) as Hn. apply not_true_iff_false in Hn. apply Hn. apply existsb_exists. exists name. split; [by apply list_elem_of_In|done].
Qed.
Lemma asks_values before base pairs after raw reserved provider name :
  asks before base pairs after raw → reject_reserved_query_keys (pairs_of before) reserved provider = Ok tt → name ∈ reserved →
  values_of name (query_pairs raw) = values_of name pairs.
Proof.
  intros (_ & _ & _ & ->) Hr Hin. pose proof (reject_values _ _ _ _ Hr Hin) as Hv. unfold values_of in *.
  by rewrite List.filter_app, map_app, Hv.
Qed.
Lemma parsed_encoded url u : parse_url url = Ok u → encoded u.
Proof. intros Hp q Hq. by eapply encode_parsed. Qed.
(** C19: The URL of a provider request asks for what the provider's protocol means and keeps what
    the caller asked for. Of the names the protocol owns (the upload, the part, the block, the
    listing and its markers), compared without case, the query has exactly the values the upload
    put there; the caller's own query comes first, byte for byte; and the query that is signed is
    the one that is sent. *)
Theorem provider_query_exact task_url sanitized root pairs :
  pairs_ok pairs → encode_query (bs "uploads") = bs "uploads" →
  (∀ u raw, oss_build_query_url task_url pairs = Ok (u, raw) →
     ∃ before, parse_url task_url = Ok before ∧ asks before (rq_base before) pairs u raw
       ∧ ∀ name, name ∈ OSS_RESERVED_QUERY_KEYS → values_of name (query_pairs raw) = values_of name pairs)
  ∧ (∀ u raw, oss_list_url task_url root pairs = Ok (u, raw) →
     ∃ before, parse_url task_url = Ok before ∧ asks before root (query_pairs (bs "uploads") ++ pairs) u raw
       ∧ ∀ name, name ∈ OSS_RESERVED_QUERY_KEYS →
           values_of name (query_pairs raw) = values_of name (query_pairs (bs "uploads") ++ pairs))
  ∧ ∀ u, az_build_query_url task_url sanitized pairs = Ok u →
     ∃ before raw, parse_url task_url = Ok before ∧ asks before (rq_base before) pairs u raw
       ∧ ∀ name, name ∈ AZURE_RESERVED_QUERY_KEYS → values_of name (query_pairs raw) = values_of name pairs.
Proof.
  intros Hok Hup. unfold oss_build_query_url, oss_list_url, az_build_query_url.
  destruct (parse_url task_url) as [url|e] eqn:Hp; [|done]. pose proof (parsed_encoded _ _ Hp) as He. split_and!.
  - intros u raw. destruct (reject_reserved_query_keys _ _ _) as [[]|] eqn:Hr; [|done]. intros [= <- <-].
    pose proof (append_pairs_asks url pairs He Hok) as Ha. exists url. split_and!; [done|exact Ha|].
    intros name Hin. by eapply asks_values.
  - intros u raw. destruct (reject_reserved_query_keys _ _ _) as [[]|] eqn:Hr; [|done]. intros [= <- <-].
    pose proof (append_both_asks url root (bs "uploads") pairs He Hup Hok) as Ha. exists url. split_and!; [done|exact Ha|].
    intros name Hin. by eapply asks_values.
  - intros u. destruct (reject_reserved_query_keys _ _ _) as [[]|] eqn:Hr; [|done]. intros [= <-].
    pose proof (append_pairs_asks url pairs He Hok) as Ha. exists url. eexists. split_and!; [done|exact Ha|].
    intros name Hin. by eapply asks_values.
Qed.
End Exact.

(** ** What is kept of an error body *)

Abbreviation LIMIT := MAX_PROVIDER_ERROR_BODY_BYTES.
Abbreviation len l := (Z.of_nat (length l)).

Lemma append_bounded_spec body chunk :
  len body < LIMIT → append_bounded body chunk LIMIT = (take (Z.to_nat LIMIT) (body ++ chunk), LIMIT <? len (body ++ chunk)).
Proof.
  intros Hb. unfold append_bounded, sat_sub. rewrite take_app, length_app. f_equal.
  - rewrite (take_ge body) by lia. f_equal. destruct (decide (len chunk ≤ LIMIT - len body)).
    + rewrite !take_ge by lia. done.
    + f_equal. lia.
  - apply eq_bool_prop_intro. rewrite !Is_true_true, !Z.ltb_lt. lia.
Qed.
Lemma error_body_loop_spec declared chunks body :
  len body < LIMIT →
  ∃ mark : bool, error_body_loop declared (map BodyChunk chunks) body
    = Ok (if len (body ++ concat chunks) <? LIMIT then lossy (body ++ concat chunks)
          else lossy (take (Z.to_nat LIMIT) (body ++ concat chunks)) ++ (if mark then ERROR_BODY_TRUNCATED else []))
  ∧ (declared = None → mark = true) ∧ (declared = Some LIMIT → len (body ++ concat chunks) = LIMIT → mark = false).
Proof.
  revert body. induction chunks as [|chunk chunks IH]; intros body Hb; cbn [map error_body_loop concat].
  { rewrite app_nil_r. rewrite (proj2 (Z.ltb_lt _ _)) by done. destruct declared; [exists false|exists true]; done. }
  rewrite append_bounded_spec by done. rewrite length_take. destruct (Z.ltb_spec (len (body ++ chunk)) LIMIT) as [Hlt|Hge].
  - rewrite (proj2 (Z.ltb_ge _ _)) by lia. rewrite (proj2 (Z.eqb_neq _ _)) by lia. cbn [orb].
    rewrite take_ge by lia. destruct (IH (body ++ chunk) Hlt) as (mark & Hm). exists mark. by rewrite (assoc_L (++)).
  - replace (_ || _) with true by (symmetry; apply orb_true_iff; right; apply Z.eqb_eq; lia).
    unfold should_mark_error_body_truncated. rewrite (proj2 (Z.eqb_eq _ LIMIT)) by lia. cbn [andb].
    rewrite (assoc_L (++)), (length_app (body ++ chunk)). rewrite (proj2 (Z.ltb_ge (Z.of_nat (length (body ++ chunk) + _)) _)) by lia.
    rewrite (take_app_le (body ++ chunk)) by lia. eexists. split; [reflexivity|]. split.
    + intros ->. rewrite bool_decide_true by done. apply orb_true_r.
    + intros -> Hlen. rewrite bool_decide_false by auto. rewrite (proj2 (Z.ltb_ge _ _)) by lia. done.
Qed.

(** The text of an error response is the whole body when it is shorter than 64 KiB, or when
    its length was declared and is exactly that; otherwise at most 64 KiB of it are kept and the
    cut is marked, without reading a body that is declared to be longer. *)
Theorem error_body_exact declared chunks :
  (∀ n, declared = Some n → n = len (concat chunks)) →
  read_error_body declared (map BodyChunk chunks)
  = Ok (if LIMIT <? len (concat chunks) then
          match declared with
          | Some _ => ERROR_BODY_TRUNCATED
          | None => lossy (take (Z.to_nat LIMIT) (concat chunks)) ++ ERROR_BODY_TRUNCATED
          end
        else lossy (concat chunks)
             ++ match declared with None => if len (concat chunks) =? LIMIT then ERROR_BODY_TRUNCATED else [] | Some _ => [] end).
Proof.
  intros Hd. unfold read_error_body, declared_error_body_is_oversize.
  destruct (error_body_loop_spec declared chunks []) as (mark & -> & Hnone & Hsome); [done|]. cbn [app] in *.
  destruct declared as [n|].
  - rewrite (Hd n eq_refl) in *. destruct (Z.ltb_spec LIMIT (len (concat chunks))); [done|]. rewrite app_nil_r.
    destruct (Z.ltb_spec (len (concat chunks)) LIMIT); [done|]. rewrite Hsome by (try f_equal; lia).
    rewrite take_ge by lia. by rewrite app_nil_r.
  - rewrite (Hnone eq_refl). destruct (Z.ltb_spec LIMIT (len (concat chunks))); [by rewrite (proj2 (Z.ltb_ge _ _)) by lia|].
    destruct (Z.ltb_spec (len (concat chunks)) LIMIT).
    + rewrite (proj2 (Z.eqb_neq _ _)) by lia. by rewrite app_nil_r.
    + rewrite (proj2 (Z.eqb_eq _ _)) by lia. by rewrite take_ge by lia.
Qed.
End Requests.

(** ** A form codec *)

Module Form.
Definition escape (l : list Z) : list Z := concat (map (λ b, 37 :: hex_byte b) l).
Definition unescape (l : list Z) : list Z := default l (decode_query_loop l).
Definition form_serialize (pairs : list Pair) : list Z := join_with 38 (map (λ kv : Pair, escape kv.1 ++ 61 :: escape kv.2) pairs).
Definition form_component (c : list Z) : Pair :=
  let kv := default (c, []) (split_once 61 c) in (unescape kv.1, unescape kv.2).
Definition form_pairs (q : list Z) : list Pair := map form_component (List.filter (λ c, negb (bool_decide (c = []))) (split_at 38 q)).

Lemma split_at_both c a b : split_at c (a ++ [c] ++ b) = split_at c a ++ split_at c b.
Proof.
  induction a as [|x a IH]; cbn [app split_at]; [by rewrite Z.eqb_refl|]. cbn [app] in IH. rewrite IH.
  destruct (x =? c); [done|]. assert (split_at c a ≠ []) by (destruct a as [|y a']; [done|]; cbn; by repeat case_match).
  by destruct (split_at c a).
Qed.
Lemma form_split a b : form_pairs (a ++ [38] ++ b) = form_pairs a ++ form_pairs b.
Proof. unfold form_pairs. by rewrite split_at_both, List.filter_app, map_app. Qed.

Lemma hex_digit_value d : 0 ≤ d < 16 → hex_value (hex_digit d) = Some d.
Proof.
  intros Hd. unfold hex_value, hex_digit, in_range. destruct (Z.ltb_spec d 10).
  - rewrite (proj2 (andb_true_iff _ _)) by (split; apply Z.leb_le; lia). f_equal. lia.
  - replace ((48 <=? 87 + d) && (87 + d <=? 57)) with false by (symmetry; apply andb_false_iff; right; apply Z.leb_gt; lia).
    rewrite (proj2 (andb_true_iff _ _)) by (split; apply Z.leb_le; lia). f_equal. lia.
Qed.
Lemma hex_digit_range d : 0 ≤ d < 16 → 48 ≤ hex_digit d < 58 ∨ 97 ≤ hex_digit d < 103.
Proof. intros Hd. unfold hex_digit. destruct (Z.ltb_spec d 10); lia. Qed.
Lemma escape_byte b : 0 ≤ b < 256 → 0 ≤ b / 16 < 16 ∧ 0 ≤ b mod 16 < 16 ∧ b / 16 * 16 + b mod 16 = b.
Proof. intros Hb. pose proof (Z.div_mod b 16). pose proof (Z.mod_pos_bound b 16). lia. Qed.
Lemma unescape_escape l : Forall (λ b, 0 ≤ b < 256) l → unescape (escape l) = l.
Proof.
  intros Hl. unfold unescape. enough (decode_query_loop (escape l) = Some l) as -> by done.
  induction Hl as [|b l Hb Hl IH]; [done|]. destruct (escape_byte b Hb) as (H1 & H2 & H3).
  unfold escape in *. cbn [map concat app hex_byte decode_query_loop]. rewrite Z.eqb_refl, !hex_digit_value by done. cbn. rewrite IH. cbn.
  by rewrite H3.
Qed.
Lemma escape_bytes l x : Forall (λ b, 0 ≤ b < 256) l → x ∈ escape l → x = 37 ∨ 48 ≤ x < 58 ∨ 97 ≤ x < 103.
Proof.
  induction 1 as [|b l Hb Hl IH]; [by intros ?%not_elem_of_nil|]. destruct (escape_byte b Hb) as (H1 & H2 & _).
  unfold escape. cbn [map concat app hex_byte]. rewrite !elem_of_cons. intros [->|[->|[->|Hx]]]; [by left|right; by apply hex_digit_range..|auto].
Qed.
Lemma plus_to_20_id l : 43 ∉ l → plus_to_20 l = l.
Proof.
  induction l as [|b l IH]; [done|]. intros Hn. cbn [plus_to_20]. destruct (Z.eqb_spec b 43) as [->|]; [destruct Hn; left|].
  f_equal. apply IH. set_solver.
Qed.
Lemma join_with_elem c parts x : x ∈ join_with c parts → x = c ∨ ∃ p, p ∈ parts ∧ x ∈ p.
Proof.
  induction parts as [|p [|p' parts] IH]; cbn [join_with]; [by intros ?%not_elem_of_nil|intros Hx; right; exists p; split; [left|done]|].
  intros [Hx|[->|Hx]%elem_of_cons]%elem_of_app; [right; exists p; split; [left|done]|by left|].
  destruct (IH Hx) as [->|(q & Hq & Hx')]; [by left|right; exists q; split; [by right|done]].
Qed.
Lemma component_bytes kv x : text_ok kv.1 ∧ text_ok kv.2 → x ∈ escape kv.1 ++ 61 :: escape kv.2 → x ≠ 38 ∧ x ≠ 43.
Proof.
  intros [[_ H1] [_ H2]] [Hx|[->|Hx]%elem_of_cons]%elem_of_app; [apply escape_bytes in Hx; [lia|done]|lia|apply escape_bytes in Hx; [lia|done]].
Qed.
Lemma form_roundtrip pairs : pairs_ok pairs → form_pairs (plus_to_20 (form_serialize pairs)) = pairs.
Proof.
  intros Hok. unfold pairs_ok in Hok. rewrite Forall_forall in Hok.
  rewrite plus_to_20_id.
  2: { intros [|(p & (kv & -> & Hkv)%list_elem_of_fmap & Hx)]%join_with_elem; [done|]. by apply (component_bytes kv) in Hx; [lia|apply Hok]. }
  destruct pairs as [|kv0 rest]; [done|]. unfold form_pairs, form_serialize. rewrite split_join.
  - generalize dependent (kv0 :: rest). intros pairs Hok. induction pairs as [|kv pairs IH]; [done|]. cbn [map List.filter].
    rewrite bool_decide_false by (by destruct (escape kv.1)). cbn [negb map].
    rewrite IH by (intros; apply Hok; by right). f_equal. destruct (Hok kv) as [[_ H1] [_ H2]]; [left|].
    unfold form_component. rewrite split_once_at by (intros Hx; apply escape_bytes in Hx; [lia|done]). cbn [default id fst snd].
    rewrite !unescape_escape by done. by destruct kv.
  - done.
  - apply Forall_forall. intros p (kv & -> & Hkv)%list_elem_of_fmap Hx. by apply (component_bytes kv) in Hx; [lia|apply Hok].
Qed.

Definition demo_url (url : string) : result RequestUrl string := Ok (mkRequestUrl (bs "https://b/o") (Some (bs url))).
Definition demo_pairs : list Pair := [(bs "uploadId", bs "A/+ &"); (bs "partNumber", bs "7")].

Lemma provider_query_exact_witness :
  ∃ u raw, oss_build_query_url form_pairs form_serialize id demo_url "x=1&Y" demo_pairs = Ok (u, raw)
    ∧ rq_query u = Some raw ∧ values_of "partNumber" (form_pairs raw) = [bs "7"].
Proof.
  destruct (provider_query_exact form_pairs form_serialize id demo_url eq_refl form_split form_roundtrip (λ a b, eq_refl) (λ l, eq_refl)
    (λ url u q _ _, eq_refl) "x=1&Y" "" [] demo_pairs) as [H _].
  - repeat (constructor; [split; (split; [by vm_compute|apply (bool_decide_unpack _); by vm_compute])|]). constructor.
  - reflexivity.
  - eexists _, _. split; [reflexivity|]. destruct (H _ _ eq_refl) as (before & Hp & (_ & Hq & _) & Hv). split; [exact Hq|].
    rewrite Hv; [by vm_compute|]. apply (bool_decide_unpack _). by vm_compute.
Defined.

Lemma error_body_exact_witness :
  read_error_body id (Some 4) (map BodyChunk [bs "ab"; bs "cd"]) = Ok (bs "abcd").
Proof. rewrite (error_body_exact id); [by vm_compute|]. intros n [= <-]. reflexivity. Defined.
End Form.
