(* ===== verification/ClientWait.v ===== *)
(** * Waiting for a transfer

    [MeowClient::enqueue_and_wait] of [src/meow_client.rs]: a submission whose callbacks send the
    outcome of the task through a channel, once. What the caller gets is tied to what the
    scheduler of [SchedulerSys] reports for the task, through the callback thread of [Dispatcher]. *)
From S2P Require Import Prelude Errors Lifecycle Records Scheduler SchedulerInv SchedulerSys Dispatcher.
#[local] Open Scope Z_scope.

Record TaskOutcome := mkTaskOutcome { to_task_id : TaskId; to_payload : option string }.

(** What goes through the channel. *)
Abbreviation TerminalMsg := (result (TaskId * option string) MeowError).

(** The slot of the sender, shared by the two callbacks, and the channel. *)
Record WaitSlot := mkWaitSlot { ws_sender : bool; ws_message : option TerminalMsg }.

Definition send_terminal_once (msg : TerminalMsg) (s : WaitSlot) : WaitSlot :=
  if ws_sender s then mkWaitSlot false (Some msg) else s.

Definition canceled_error : MeowError := from_code_str TaskCanceled "task was canceled".
Definition not_notified_error : MeowError :=
  from_code_str CommandResponseFailed "transfer terminal channel closed without notification".

Section Wait.
(** The identity of the two callbacks, and whether the caller's own progress callback panics. *)
Context (p c : Z) (panics : FileTransferRecord → bool).

(** The progress callback: the caller's first. *)
Definition wait_progress (record : FileTransferRecord) (s : WaitSlot) : WaitSlot :=
  if panics record then s
  else
    match rec_status record with
    | StatusFailed err => send_terminal_once (Err err) s
    | Canceled => send_terminal_once (Err canceled_error) s
    | _ => s
    end.
Definition wait_complete (task_id : TaskId) (payload : option string) (s : WaitSlot) : WaitSlot :=
  send_terminal_once (Ok (task_id, payload)) s.

(** A call of the callback thread. *)
Definition wait_call (s : WaitSlot) (job : CbJob) : WaitSlot :=
  match job with
  | ProgressJob cb record => if cb =? p then wait_progress record s else s
  | CompleteJob cb tid payload => if cb =? c then wait_complete tid payload s else s
  end.
Definition wait_calls (jobs : list CbJob) : WaitSlot := foldl wait_call (mkWaitSlot true None) jobs.

(** What the caller gets, [None] while it waits: [admitted] is the outcome of [try_enqueue],
    [calls] the calls so far; the channel is closed when the callbacks are dropped. *)
Definition enqueue_and_wait (admitted : result TaskId MeowError) (calls : list CbJob) (callbacks_dropped : bool)
    : option (result TaskOutcome MeowError) :=
  match admitted with
  | Err e => Some (Err e)
  | Ok _ =>
      match ws_message (wait_calls calls) with
      | Some (Ok (task_id, payload)) => Some (Ok (mkTaskOutcome task_id payload))
      | Some (Err err) => Some (Err err)
      | None => if callbacks_dropped then Some (Err not_notified_error) else None
      end
  end.

(** ** The first message counts *)

Definition terminal_of (job : CbJob) : option TerminalMsg :=
  match job with
  | ProgressJob cb record =>
      if (cb =? p) && negb (panics record) then
        match rec_status record with
        | StatusFailed err => Some (Err err)
        | Canceled => Some (Err canceled_error)
        | _ => None
        end
      else None
  | CompleteJob cb tid payload => if cb =? c then Some (Ok (tid, payload)) else None
  end.

Lemma wait_call_message job s :
  ws_message (wait_call s job) = (if ws_sender s then match terminal_of job with Some m => Some m | None => ws_message s end else ws_message s)
  ∧ ws_sender (wait_call s job) = ws_sender s && bool_decide (terminal_of job = None).
Proof.
  destruct s as [[|] m]; destruct job as [cb record|cb tid payload];
    unfold wait_call, wait_progress, wait_complete, send_terminal_once, terminal_of; cbn [ws_sender ws_message].
  all: destruct (cb =? _); cbn [andb]; try done.
  all: destruct (panics record); cbn [negb]; try done; by destruct (rec_status record).
Qed.
Lemma wait_calls_first jobs : ws_message (wait_calls jobs) = head (omap terminal_of jobs).
Proof.
  unfold wait_calls. enough (∀ s, ws_message (foldl wait_call s jobs)
    = if ws_sender s then match head (omap terminal_of jobs) with Some m => Some m | None => ws_message s end else ws_message s) as H.
  { rewrite H. cbn. by destruct (head _). }
  induction jobs as [|job jobs IH]; intros s; [cbn; by destruct (ws_sender s)|]. cbn [foldl]. rewrite IH.
  destruct (wait_call_message job s) as [-> ->]. destruct (ws_sender s); cbn [andb]; [|done]. cbn [omap list_omap].
  destruct (terminal_of job) as [m|]; cbn; [done|]. by destruct (head _).
Qed.

(** Frames of progress carry no message, so losing them changes nothing. *)
Lemma terminal_lossless jobs : omap terminal_of (lossless jobs) = omap terminal_of jobs.
Proof.
  induction jobs as [|job jobs IH]; [done|]. unfold lossless in *. rewrite filter_cons. cbn [omap list_omap].
  case_decide as Hl; cbn [omap list_omap]; rewrite IH; [done|]. destruct job as [cb record|]; [|done].
  cbn in Hl |- *. unfold is_sampling_frame in Hl. destruct (rec_status record); try done. by destruct (_ && _).
Qed.
End Wait.

(** ** The callbacks hear what is reported *)

Definition jobs_of (es : list Effect) : list CbJob := omap (λ e, match e with Submit job => Some job | _ => None end) es.

Lemma jobs_of_app es es' : jobs_of (es ++ es') = jobs_of es ++ jobs_of es'.
Proof. apply omap_app. Qed.

Section Echo.
(** The waiting caller's callbacks and task, and what happened before. *)
Context (p c : Z) (tid : TaskId) (base : list Effect).

Inductive Heard := HeardStatus (st : TransferStatus) | HeardComplete (tid : TaskId) (payload : option string).
Definition heard_job (job : CbJob) : option Heard :=
  match job with
  | ProgressJob cb record => if cb =? p then Some (HeardStatus (rec_status record)) else None
  | CompleteJob cb t payload => if cb =? c then Some (HeardComplete t payload) else None
  end.
Definition heard (es : list Effect) : list Heard := omap heard_job (jobs_of es).

Lemma heard_app es es' : heard (es ++ es') = heard es ++ heard es'.
Proof. unfold heard. by rewrite jobs_of_app, omap_app. Qed.

(** A status is heard as it is; a completion is heard with a call of its own. *)
Definition shape (h : Heard) : option TransferStatus := match h with HeardStatus st => Some st | HeardComplete _ _ => None end.
Definition expand (st : TransferStatus) : list (option TransferStatus) :=
  Some st :: match st with Complete => [None] | _ => [] end.
Definition about_task (h : Heard) : Prop := match h with HeardStatus _ => True | HeardComplete t _ => t = tid end.
Definition echo (es : list Effect) : Prop :=
  map shape (heard es) = concat (map expand (history tid (statuses es))) ∧ Forall about_task (heard es).

Lemma echo_app es es' : echo es → echo es' → echo (es ++ es').
Proof.
  intros [H1 F1] [H2 F2]. split; [|rewrite heard_app; by apply Forall_app].
  by rewrite heard_app, statuses_app, history_app, !map_app, concat_app, H1, H2.
Qed.

(** The callbacks of an entry: the waiting caller's for its task, others for other tasks. *)
Definition hears (t : TaskId) (cbs : TaskCallbacks) : Prop :=
  if decide (t = tid) then cbs = mkTaskCallbacks (Some p) (Some c) else progress_cb cbs ≠ Some p ∧ complete_cb cbs ≠ Some c.
Definition listeners_other (s : SchedulerState) : Prop := ∀ ls, global_progress_listener s = Some ls → p ∉ ls.

Lemma invoke_progress_heard cb dto w :
  cb_submit (sched w) = true →
  ∃ es, invoke_progress_cb cb dto w = effect es w ∧ statuses es = [] ∧ heard es = if decide (cb = p) then [HeardStatus (rec_status dto)] else [].
Proof.
  intros Hc. unfold invoke_progress_cb. rewrite Hc. exists [Submit (ProgressJob cb dto)]. split_and!; [done|done|].
  cbn. destruct (Z.eqb_spec cb p); case_decide; done.
Qed.
Lemma effect_no_effect w : effect [] w = w.
Proof. unfold effect. rewrite app_nil_r. by destruct w. Qed.
Lemma global_heard dto w :
  cb_submit (sched w) = true → listeners_other (sched w) →
  ∃ es, emit_global_progress dto w = effect es w ∧ statuses es = [] ∧ heard es = [].
Proof.
  intros Hc Hl. unfold emit_global_progress. destruct (global_progress_listener (sched w)) as [ls|] eqn:Hls.
  2: { exists []. by rewrite effect_no_effect. }
  specialize (Hl ls Hls). clear Hls. revert w Hc Hl. induction ls as [|cb ls IH]; intros w Hc Hl; cbn [fold_left].
  { exists []. by rewrite effect_no_effect. }
  destruct (invoke_progress_heard cb dto w Hc) as (es & -> & Hs & Hh). rewrite decide_False in Hh by set_solver.
  destruct (IH (effect es w)) as (es' & -> & Hs' & Hh'); [done|set_solver|]. exists (es ++ es').
  rewrite effect_effect, statuses_app, heard_app, Hs, Hs', Hh, Hh'. done.
Qed.

Lemma emit_status_heard e st tr tot w :
  cb_submit (sched w) = true → listeners_other (sched w) → hears (task_id (inner e)) (callbacks e) →
  ∃ es, emit_status e st tr tot w = effect es w ∧ statuses es = [(task_id (inner e), st)]
    ∧ heard es = if decide (task_id (inner e) = tid) then [HeardStatus st] else [].
Proof.
  intros Hc Hl Hm. unfold emit_status. set (dto := to_record_inner _ _ _ _). set (w1 := effect _ w).
  assert (∃ es, match progress_cb (callbacks e) with Some cb => invoke_progress_cb cb dto w1 | None => w1 end = effect es w1
    ∧ statuses es = [] ∧ heard es = if decide (task_id (inner e) = tid) then [HeardStatus st] else []) as (es1 & -> & Hs1 & Hh1).
  { unfold hears in Hm. destruct (decide (task_id (inner e) = tid)).
    - rewrite Hm. cbn. destruct (invoke_progress_heard p dto w1) as (es & -> & Hs & Hh); [done|]. exists es. by rewrite decide_True in Hh.
    - destruct (progress_cb (callbacks e)) as [cb|]; [|exists []; by rewrite effect_no_effect].
      destruct (invoke_progress_heard cb dto w1) as (es & -> & Hs & Hh); [done|]. exists es. rewrite decide_False in Hh by naive_solver. done. }
  destruct (global_heard dto (effect es1 w1)) as (es2 & -> & Hs2 & Hh2); [done|done|]. unfold w1. rewrite !effect_effect. eexists.
  split; [reflexivity|]. rewrite !statuses_app, !heard_app, Hs1, Hs2, Hh1, Hh2, !app_nil_r. done.
Qed.
Lemma status_echo e st es :
  statuses es = [(task_id (inner e), st)] → st ≠ Complete →
  heard es = (if decide (task_id (inner e) = tid) then [HeardStatus st] else []) → echo es.
Proof.
  intros Hs Hne Hh. unfold echo. rewrite Hs, Hh, history_one. case_decide; [rewrite bool_decide_true by done|by rewrite bool_decide_false].
  split; [by destruct st|by constructor].
Qed.

(** ** Worlds in which the callbacks hear what is reported *)

Definition echoes (w : World) : Prop := ∃ es, trace w = base ++ es ∧ echo es.

Record tuned (w : World) : Prop := {
  tu_submit : cb_submit (sched w) = true;
  tu_listeners : listeners_other (sched w);
  tu_groups : ∀ k g, groups (sched w) !! k = Some g → hears (task_id (inner (entry g))) (callbacks (entry g));
  tu_echo : echoes w;
}.

Lemma tuned_effect es w : echo es → tuned w → tuned (effect es w).
Proof.
  intros He [H1 H2 H3 (es0 & Ht & H4)]. split; try done. exists (es0 ++ es). cbn. rewrite Ht, (assoc_L (++)). split; [done|by apply echo_app].
Qed.
Lemma tuned_same w w' : sched w' = sched w → trace w' = trace w → tuned w → tuned w'.
Proof. intros Hs Ht [H1 H2 H3 H4]. split; unfold echoes; by rewrite ?Hs, ?Ht. Qed.
Lemma tuned_upd f w :
  cb_submit (f (sched w)) = cb_submit (sched w) → global_progress_listener (f (sched w)) = global_progress_listener (sched w) →
  groups (f (sched w)) ⊆ groups (sched w) → tuned w → tuned (upd f w).
Proof.
  intros Hc Hl Hg [H1 H2 H3 H4]. split; cbn; [by rewrite Hc|unfold listeners_other; by rewrite Hl| |done].
  intros k g Hk. eapply H3, lookup_weaken; done.
Qed.
Lemma tuned_status e st tr tot w :
  st ≠ Complete → hears (task_id (inner e)) (callbacks e) → tuned w → tuned (emit_status e st tr tot w).
Proof.
  intros Hst Hm Hw. destruct (emit_status_heard e st tr tot w) as (es & -> & Hs & Hh); [apply Hw..|done|].
  apply tuned_effect; [by eapply status_echo|done].
Qed.
Lemma tuned_completion e tr tot payload w :
  hears (task_id (inner e)) (callbacks e) → tuned w →
  tuned match complete_cb (callbacks e) with
        | Some cb => invoke_complete_cb cb (task_id (inner e)) payload (emit_status e Complete tr tot w)
        | None => emit_status e Complete tr tot w
        end.
Proof.
  intros Hm Hw. destruct (emit_status_heard e Complete tr tot w) as (es & -> & Hs & Hh); [apply Hw..|done|].
  unfold hears in Hm. destruct (decide (task_id (inner e) = tid)) as [Ht|Ht].
  - rewrite Hm. cbn [complete_cb]. unfold invoke_complete_cb. cbn [sched effect]. rewrite (tu_submit _ Hw), effect_effect.
    apply tuned_effect; [|done]. unfold echo. rewrite statuses_app, heard_app, Hs, Hh.
    assert (heard [Submit (CompleteJob c (task_id (inner e)) payload)] = [HeardComplete (task_id (inner e)) payload]) as ->
      by (unfold heard; cbn; by rewrite Z.eqb_refl).
    rewrite history_app, history_one, bool_decide_true by done. split; [done|]. by repeat constructor.
  - assert (tuned (effect es w)) as Hw'.
    { apply tuned_effect; [|done]. unfold echo. rewrite Hs, Hh, history_one, bool_decide_false by done. by split. }
    destruct (complete_cb (callbacks e)) as [cb|]; [|done]. unfold invoke_complete_cb. rewrite (tu_submit _ Hw').
    apply tuned_effect; [|done]. unfold echo, heard. cbn. destruct (Z.eqb_spec cb c); [naive_solver|]. by split.
Qed.
(** Effects that neither report a status nor call back. *)
Definition silent (e : Effect) : bool := match e with StatusLine _ _ _ _ | Submit _ => false | _ => true end.
Lemma silent_echo e : silent e = true → echo [e].
Proof. by destruct e. Qed.

(** One update or silent effect after the other. *)
Ltac tune :=
  repeat first
    [ assumption
    | apply tuned_effect; [by apply silent_echo|]
    | apply tuned_upd; [by rewrite ?sched_emit_status|by rewrite ?sched_emit_status|
        first [done | apply delete_subseteq | by etrans; [apply delete_subseteq|]]|] ].

Lemma tuned_insert_active k tok w w' :
  sched w' = insert_active k tok (sched w) → trace w' = trace w → tuned w → tuned w'.
Proof.
  intros Hs Ht [H1 H2 H3 H4]. split; unfold echoes; rewrite ?Hs, ?Ht; try done; unfold insert_active, listeners_other in *; destruct (k.1); done.
Qed.
Lemma tuned_remove_active k w : tuned w → tuned (retire k w).
Proof.
  intros Hw. unfold retire. apply tuned_upd; [| | |done]; unfold remove_active, set_canceling; cbn; by destruct (k.1).
Qed.
Lemma tuned_unpause k w : tuned w → tuned (unpause k w).
Proof. intros Hw. unfold unpause. by tune. Qed.
Lemma tuned_remove_group k g w : tuned w → tuned (remove_group k g w).
Proof. intros Hw. unfold remove_group. tune. Qed.
Lemma tuned_pause_lifecycle t w : tuned w → tuned (begin_terminal_pause t w).2.
Proof. intros Hw. unfold begin_terminal_pause. destruct (begin_pause _). cbn. by apply (tuned_same w). Qed.
Lemma tuned_cancel_lifecycle t w : tuned w → tuned (begin_terminal_cancel t w).2.
Proof. intros Hw. unfold begin_terminal_cancel. destruct (begin_cancel _). cbn. by apply (tuned_same w). Qed.
Lemma tuned_reset t w : tuned w → tuned (reset_terminal_pause t w).
Proof. intros Hw. by apply (tuned_same w). Qed.
Lemma tuned_cancel_token k w : tuned w → tuned (cancel_worker_token k w).
Proof. intros Hw. unfold cancel_worker_token. case_match; [by apply (tuned_same w)|done]. Qed.

(** A report for a live group. *)
Lemma tuned_report k g st tr tot w :
  groups (sched w) !! k = Some g → st ≠ Complete → tuned w → tuned (emit_status (entry g) st tr tot w).
Proof. intros Hg Hst Hw. apply tuned_status; [done|by eapply tu_groups|done]. Qed.

Lemma tuned_start_group k g w : groups (sched w) !! k = Some g → tuned w → tuned (start_group k g w).
Proof.
  intros Hg Hw. unfold start_group. apply tuned_effect; [done|]. eapply tuned_insert_active; [done|done|].
  destruct (_ && _); [done|]. by eapply tuned_report.
Qed.
Lemma tuned_start_one w : tuned w → tuned (start_one w).1.
Proof.
  intros Hw. unfold start_one. destruct (queued (sched w)) as [|k rest]; [done|]. set (w1 := upd _ w).
  assert (tuned w1) as Hw1 by (unfold w1; tune). clearbody w1.
  repeat case_match; cbn [fst]; try (by tune). by apply tuned_start_group.
Qed.
Lemma tuned_start_round n w : tuned w → tuned (start_round n w).1.
Proof.
  revert w. induction n as [|n IH]; intros w Hw; [done|]. cbn. pose proof (tuned_start_one w Hw) as H1.
  destruct (start_one w) as [w1 l1]. specialize (IH w1 H1). by destruct (start_round n w1).
Qed.
Lemma tuned_try_start w : tuned w → tuned (try_start_next w).1.
Proof.
  unfold try_start_next. generalize (S (length (queued (sched w)))). intros fuel. revert w. induction fuel as [|fuel IH]; intros w Hw; [done|].
  cbn [try_start_loop]. destruct (queued (sched w)); [done|]. set (n := length _). pose proof (tuned_start_round n w Hw) as H1.
  destruct (start_round n w) as [w1 [|k ks]]; [done|]. specialize (IH w1 H1). by destruct (try_start_loop fuel w1).
Qed.

Lemma tuned_on_progress k off tot w : tuned w → tuned (on_progress k off tot w).
Proof.
  intros Hw. unfold on_progress. destruct (groups (sched w) !! k) as [g|] eqn:Hg; [|done]. set (w1 := upd _ w).
  assert (tuned w1) as Hw1 by (unfold w1; tune). assert (groups (sched w1) !! k = Some g) as Hg1 by done. clearbody w1.
  case_match; [done|]. by eapply tuned_report.
Qed.
Lemma tuned_handle ev w : tuned w → tuned (handle_worker_event ev w).
Proof.
  intros Hw. destruct ev as [k off tot|k tot payload|k e tot|k tot]; cbn [handle_worker_event]; [by apply tuned_on_progress|..].
  - unfold on_completed. set (w1 := upd _ (unpause k _)). assert (tuned w1) as Hw1 by (unfold w1; tune; by apply tuned_remove_active).
    clearbody w1. tune. destruct (groups (sched w1) !! k) as [g|] eqn:Hg; [|done].
    apply tuned_completion; [by eapply tu_groups|]. by apply tuned_remove_group.
  - unfold on_failed. set (w1 := unpause _ _). assert (tuned w1) as Hw1 by (by apply tuned_unpause, tuned_remove_active).
    clearbody w1. tune. destruct (groups (sched w1) !! k) as [g|] eqn:Hg; [|done].
    apply tuned_status; [done|by eapply tu_groups|]. by apply tuned_remove_group.
  - unfold on_canceled. set (w1 := retire k w). assert (tuned w1) as Hw1 by (by apply tuned_remove_active). clearbody w1.
    destruct (_ && _).
    + destruct (groups (sched w1) !! k) as [g|] eqn:Hg; [|done]. eapply tuned_report; [|done|by apply tuned_reset]. done.
    + set (w2 := unpause k w1). assert (tuned w2) as Hw2 by (by apply tuned_unpause). clearbody w2. tune.
      destruct (groups (sched w2) !! k) as [g|] eqn:Hg; [|done]. apply tuned_status; [done|by eapply tu_groups|]. by apply tuned_remove_group.
Qed.
Lemma tuned_quiescent ev w : tuned w → tuned (handle_quiescent_worker_event ev w).
Proof.
  intros Hw. apply tuned_handle. unfold abort_quiescent_upload, release_snapshot_handle.
  set (w1 := if may_change_scheduler_readiness ev then _ else w). assert (tuned w1) as Hw1 by (unfold w1; repeat case_match; by tune).
  clearbody w1. repeat case_match; by tune.
Qed.

Lemma tuned_pause_group k w : tuned w → tuned (pause_group k w).2.
Proof.
  intros Hw. unfold pause_group. destruct (if bool_decide (is_Some (active (sched w) !! k)) then _ else _) as [d w1] eqn:E.
  assert (tuned w1) as Hw1.
  { case_bool_decide; [|by simplify_eq]. case_match; [|by simplify_eq]. pose proof (tuned_pause_lifecycle (leader_inner g) w Hw) as H'. by rewrite E in H'. }
  set (w2 := match d with InterruptNow => _ | _ => _ end). assert (tuned w2) as Hw2 by (unfold w2; destruct d; [by apply tuned_cancel_token|done]).
  clearbody w2. set (w3 := upd _ (upd _ w2)). assert (tuned w3) as Hw3 by (unfold w3; tune). clearbody w3. cbn [snd].
  case_bool_decide; [done|]. destruct (groups (sched w3) !! k) as [g|] eqn:Hg; [|done]. by eapply tuned_report.
Qed.
Lemma tuned_resume_group k w : tuned w → tuned (resume_group k w).2.
Proof.
  intros Hw. unfold resume_group. destruct (negb _); [done|]. destruct (bool_decide _); [done|].
  set (w1 := unpause k w). assert (tuned w1) as Hw1 by (by apply tuned_unpause). clearbody w1.
  destruct (groups (sched w1) !! k) as [g|] eqn:Hg; [|done]. set (w2 := emit_status _ _ _ _ w1).
  assert (tuned w2) as Hw2 by (by eapply tuned_report). clearbody w2. cbn [snd]. destruct (_ && _); by tune.
Qed.
Lemma tuned_cancel_group k w : tuned w → tuned (cancel_group k w).2.
Proof.
  intros Hw. unfold cancel_group. set (w1 := if bool_decide (is_Some (active (sched w) !! k)) then _ else w).
  assert (tuned w1) as Hw1.
  { unfold w1. case_bool_decide; [|done]. destruct (match groups (sched w) !! k with Some _ => _ | None => _ end) as [d w'] eqn:E.
    assert (tuned w') as Hw'.
    { case_match; [|by simplify_eq]. pose proof (tuned_cancel_lifecycle (leader_inner g) w Hw) as H'. by rewrite E in H'. }
    destruct d; [by apply tuned_cancel_token|done]. }
  clearbody w1. set (w2 := unpause k _). assert (tuned w2) as Hw2 by (apply tuned_unpause; tune). clearbody w2.
  case_bool_decide; cbn [snd]; [case_match; by tune|]. tune. destruct (groups (sched w2) !! k) as [g|] eqn:Hg; [|done]. tune.
  apply tuned_status; [done|by eapply tu_groups|]. tune. apply tuned_cancel_lifecycle. tune.
Qed.
Lemma tuned_control op id w : (∀ k w, tuned w → tuned (op k w).2) → tuned w → tuned (control_cmd op id w).
Proof.
  intros Hop Hw. unfold control_cmd. apply tuned_try_start. destruct (task_id_to_dedupe (sched w) !! id) as [k|]; [|by tune].
  pose proof (Hop k w Hw) as H1. destruct (op k w) as [r w1]. by tune.
Qed.

(** A refusal is heard by the callbacks that came with the task, and nobody's status. *)
Lemma reject_heard existing cbs w :
  cb_submit (sched w) = true → listeners_other (sched w) →
  ∃ es, reject_duplicate existing cbs w = effect es w ∧ statuses es = []
    ∧ heard es = if decide (progress_cb cbs = Some p) then [HeardStatus (StatusFailed (from_code1 DuplicateTaskError))] else [].
Proof.
  intros Hc Hl. unfold reject_duplicate. set (dto := to_record_inner _ _ _ _).
  assert (∃ es, match progress_cb cbs with Some cb => invoke_progress_cb cb dto w | None => w end = effect es w ∧ statuses es = []
    ∧ heard es = if decide (progress_cb cbs = Some p) then [HeardStatus (StatusFailed (from_code1 DuplicateTaskError))] else [])
    as (es1 & -> & Hs1 & Hh1).
  { destruct (progress_cb cbs) as [cb|]; [|exists []; by rewrite effect_no_effect, decide_False].
    destruct (invoke_progress_heard cb dto w Hc) as (es & -> & Hs & Hh). exists es. split_and!; [done|done|]. rewrite Hh.
    destruct (decide (cb = p)) as [->|]; [by rewrite decide_True|by rewrite decide_False by congruence]. }
  destruct (global_heard dto (effect es1 w)) as (es2 & -> & Hs2 & Hh2); [done|done|]. rewrite effect_effect. eexists.
  split; [reflexivity|]. split; [by rewrite statuses_app, Hs1, Hs2|by rewrite heard_app, Hh1, Hh2, app_nil_r].
Qed.

Lemma tuned_register t cbs w : hears (task_id t) cbs → tuned w → tuned (register_group t cbs w).
Proof.
  intros Hh [H1 H2 H3 H4]. split; try done. cbn. intros k g. rewrite lookup_insert_Some. intros [[_ <-]|[_ Hg]]; [done|by eapply H3].
Qed.
Lemma tuned_enqueue_new t cbs w :
  hears (task_id t) cbs → groups (sched w) !! dedupe_key t = None → tuned w →
  tuned (cmd_enqueue t cbs w) ∧ tuned (cmd_enqueue_paused t cbs w).
Proof.
  intros Hh Hg Hw. unfold cmd_enqueue, cmd_enqueue_paused. rewrite Hg. set (w1 := register_group t cbs w).
  assert (tuned w1) as Hw1 by (by apply tuned_register). split.
  - apply tuned_try_start. set (w2 := if bool_decide _ then emit_status _ Transmission _ _ _ else _).
    assert (tuned w2) as Hw2 by (unfold w2; destruct (bool_decide _); repeat (apply tuned_status; [done|done|]); done).
    clearbody w2. destruct (_ && _); by tune.
  - apply tuned_status; [done|done|]. tune.
Qed.
Lemma tuned_enqueue_other t cbs w :
  task_id t ≠ tid → progress_cb cbs ≠ Some p → complete_cb cbs ≠ Some c → tuned w →
  tuned (cmd_enqueue t cbs w) ∧ tuned (cmd_enqueue_paused t cbs w).
Proof.
  intros Ht Hp Hc Hw. destruct (groups (sched w) !! dedupe_key t) as [g|] eqn:Hg.
  - unfold cmd_enqueue, cmd_enqueue_paused. rewrite Hg. destruct (reject_heard g cbs w) as (es & -> & Hs & Hh); [apply Hw..|].
    rewrite decide_False in Hh by done. split; apply tuned_effect; try done; unfold echo; rewrite Hs, Hh; by split.
  - apply tuned_enqueue_new; [|done|done]. unfold hears. by rewrite decide_False.
Qed.

Lemma tuned_close_stop k w : tuned w → tuned (close_stop k w).
Proof.
  intros Hw. unfold close_stop. case_bool_decide; [by apply tuned_cancel_token|].
  destruct (match groups (sched w) !! k with Some _ => _ | None => _ end) as [d w1] eqn:E.
  assert (tuned w1) as Hw1.
  { case_match; [|by simplify_eq]. pose proof (tuned_pause_lifecycle (leader_inner g) w Hw) as H'. by rewrite E in H'. }
  destruct d; [apply tuned_cancel_token|]; tune.
Qed.
Lemma tuned_fold (f : World → UniqueId → World) ks w : (∀ w k, tuned w → tuned (f w k)) → tuned w → tuned (fold_left f ks w).
Proof. intros Hf. revert w. induction ks as [|k ks IH]; intros w Hw; [done|]. cbn. by apply IH, Hf. Qed.
Lemma tuned_close_begin w : tuned w → tuned (close_begin w).
Proof.
  intros Hw. unfold close_begin. apply tuned_fold.
  - intros w' k Hw'. unfold close_pause_inactive. destruct (groups (sched w') !! k) as [g|] eqn:Hg; [by eapply tuned_report|done].
  - apply tuned_fold; [|done]. intros w' k Hw'. by apply tuned_close_stop.
Qed.
End Echo.

(** ** Everybody else *)

Definition submitted (cmd : TransferCmd) : option (InnerTask * TaskCallbacks) :=
  match cmd with CmdEnqueue t cbs | CmdEnqueuePaused t cbs => Some (t, cbs) | _ => None end.

(** The steps of the system in which nobody submits with the waiting caller's task id or
    callbacks: it can be controlled, by its id, like any other task. *)
Inductive other_step (p c : Z) (tid : TaskId) : Sys → Sys → Prop :=
| os_enqueue cmd t cbs y :
    phase y = PhaseOpen → submitted cmd = Some (t, cbs) → task_id t ∉ used_ids y → task_id t ≠ tid →
    progress_cb cbs ≠ Some p → complete_cb cbs ≠ Some c →
    other_step p c tid y (with_ids (accept_id t y) (sys_op (handle_cmd cmd (world y)) (chan y) PhaseOpen y))
| os_control cmd y :
    phase y = PhaseOpen → submitted cmd = None → other_step p c tid y (sys_op (handle_cmd cmd (world y)) (chan y) PhaseOpen y)
| os_progress k off tot y :
    k ∈ running y → other_step p c tid y (mkSys (world y) (running y) (chan y ++ [EvProgress k off tot]) (phase y) (used_ids y))
| os_terminal ev i y :
    may_change_scheduler_readiness ev = true → running y !! i = Some (event_key ev) →
    other_step p c tid y (mkSys (world y) (delete i (running y)) (chan y ++ [ev]) (phase y) (used_ids y))
| os_lifecycle id o y : other_step p c tid y (sys_op (worker_lifecycle id o (world y)) (chan y) (phase y) y)
| os_listeners ls y :
    (∀ l, ls = Some l → p ∉ l) → other_step p c tid y (sys_op (set_listeners ls (world y)) (chan y) (phase y) y)
| os_deliver ev rest y :
    phase y = PhaseOpen → chan y = ev :: rest → other_step p c tid y (sys_op (deliver_event ev (world y)) rest PhaseOpen y)
| os_close_begin y : phase y = PhaseOpen → other_step p c tid y (sys_op (close_begin (world y)) (chan y) PhaseClosing y)
| os_close_drain ev rest y :
    phase y = PhaseClosing → active (sched (world y)) ≠ ∅ → chan y = ev :: rest →
    other_step p c tid y (sys_op (handle_quiescent_worker_event ev (world y)) rest PhaseClosing y)
| os_close_finish y :
    phase y = PhaseClosing → active (sched (world y)) = ∅ →
    other_step p c tid y (sys_op (close_finish (world y)) (chan y) PhaseClosed y).

Section Others.
Context (p c : Z) (tid : TaskId).

Lemma other_is_step y y' : other_step p c tid y y' → sys_step y y'.
Proof.
  destruct 1 as [cmd t cbs y Ho Hs Hu| cmd y Ho Hs| | | | | | | |]; try by econstructor.
  - eapply sys_enqueue; [done| |done]. by destruct cmd; simplify_eq/=.
  - apply sys_control; [done|]. by destruct cmd.
Qed.
Lemma others_are_steps y y' : rtc (other_step p c tid) y y' → rtc sys_step y y'.
Proof. intros H. induction H; [done|]. econstructor; [by apply other_is_step|done]. Qed.

Lemma tuned_cmd base cmd w :
  (∀ t cbs, submitted cmd = Some (t, cbs) → task_id t ≠ tid ∧ progress_cb cbs ≠ Some p ∧ complete_cb cbs ≠ Some c) →
  tuned p c tid base w → tuned p c tid base (handle_cmd cmd w).
Proof.
  intros Hs Hw. destruct cmd as [t cbs|t cbs|id|id|id|]; cbn [handle_cmd].
  - destruct (Hs t cbs eq_refl) as (? & ? & ?). by apply tuned_enqueue_other.
  - destruct (Hs t cbs eq_refl) as (? & ? & ?). by apply tuned_enqueue_other.
  - apply tuned_control; [intros; by apply tuned_pause_group|done].
  - apply tuned_control; [intros; by apply tuned_resume_group|done].
  - apply tuned_control; [intros; by apply tuned_cancel_group|done].
  - apply tuned_effect; [by apply silent_echo|done].
Qed.

(** The callbacks hear what is reported until the client is closed, and nothing afterwards. *)
Definition listening (base : list Effect) (y : Sys) : Prop :=
  (phase y ≠ PhaseClosed → tuned p c tid base (world y)) ∧ echoes p c tid base (world y).

Lemma listening_open base w' ch ph y : ph ≠ PhaseClosed → tuned p c tid base w' → listening base (sys_op w' ch ph y).
Proof. intros Hp Hw. split; [done|apply Hw]. Qed.
Lemma close_finish_echoes base w : echoes p c tid base w → echoes p c tid base (close_finish w).
Proof.
  intros (es & Ht & He). exists (es ++ [DispatcherShutdown; Respond (Ok tt)]). unfold close_finish. cbn. rewrite Ht, <- !(assoc_L (++)).
  split; [done|]. apply echo_app; [done|]. by apply (echo_app p c tid [_] [_]).
Qed.
Lemma listening_step base y y' : other_step p c tid y y' → listening base y → listening base y'.
Proof.
  intros Hst [Hw He].
  destruct Hst as [cmd t cbs y Ho Hs Hu Ht Hp Hc|cmd y Ho Hs|k off tot y Hk|ev i y Hev Hi|id o y|ls y Hls|ev rest y Ho Hch|y Ho|ev rest y Ho Ha Hch|y Ho Ha].
  - assert (tuned p c tid base (handle_cmd cmd (world y))) as Hw'.
    { apply tuned_cmd; [|apply Hw; by rewrite Ho]. intros t' cbs' Hs'. rewrite Hs in Hs'. by injection Hs' as <- <-. }
    split; [done|apply Hw'].
  - apply listening_open; [done|]. apply tuned_cmd; [by rewrite Hs|apply Hw; by rewrite Ho].
  - by split.
  - by split.
  - split; [|done]. intros Hp. by apply (tuned_same p c tid base (world y)), Hw.
  - split; [|done]. intros Hp. destruct (Hw Hp) as [H1 H2 H3 H4]. by split.
  - apply listening_open; [done|]. unfold deliver_event. assert (tuned p c tid base (handle_quiescent_worker_event ev (world y)))
      by (apply tuned_quiescent, Hw; by rewrite Ho). case_match; [by apply tuned_try_start|done].
  - apply listening_open; [done|]. apply tuned_close_begin, Hw. by rewrite Ho.
  - apply listening_open; [done|]. apply tuned_quiescent, Hw. by rewrite Ho.
  - split; [done|]. by apply close_finish_echoes.
Qed.
Lemma listening_steps base y y' : rtc (other_step p c tid) y y' → listening base y → listening base y'.
Proof. intros H. induction H as [|a b y' Hs Hr IH]; [done|]. intros Ha. by eapply IH, listening_step. Qed.

(** The caller's id stays its own. *)
Lemma others_ids y y' : rtc (other_step p c tid) y y' → tid ∈ used_ids y' ↔ tid ∈ used_ids y.
Proof.
  induction 1 as [|y y1 y' Hs Hr IH]; [done|]. rewrite IH. destruct Hs; try done. cbn. unfold accept_id. case_match; set_solver.
Qed.
Lemma never_reported y y' :
  sys_inv y → tid ∉ used_ids y → history tid (statuses (trace (world y))) = [] → rtc (other_step p c tid) y y' →
  history tid (statuses (trace (world y'))) = [].
Proof.
  intros Hi Hu Hh Hr. induction Hr as [|y y1 y' Hs Hr IH]; [done|].
  assert (tid ∉ used_ids y1) as Hu1 by (rewrite (others_ids y y1); [done|by eapply rtc_once]).
  assert (sys_inv y1) as Hi1 by (by eapply sys_step_inv, other_is_step).
  apply IH; [done|done|]. assert (phase y1 = PhaseClosed ∨ phase y1 ≠ PhaseClosed) as [Hc|Hc] by (destruct (phase y1); auto); [|by apply (hi_fresh _ _ _ (sy_hist _ Hi1 Hc))].
  destruct Hs; cbn in *; try done; try congruence.
  unfold close_finish. cbn. rewrite !statuses_app. cbn. by rewrite !app_nil_r.
Qed.
End Others.

(** ** The outcome *)

Section Outcome.
Context (p c : Z) (panics : FileTransferRecord → bool) (tid : TaskId).
Hypothesis final_returns : ∀ r, is_final (rec_status r) = true → panics r = false.

(** The message a call that is heard sends. *)
Definition message_of (h : Heard) : option TerminalMsg :=
  match h with
  | HeardStatus (StatusFailed e) => Some (Err e)
  | HeardStatus Canceled => Some (Err canceled_error)
  | HeardStatus _ => None
  | HeardComplete t payload => Some (Ok (t, payload))
  end.

Lemma terminal_heard (jobs : list CbJob) : omap (terminal_of p c panics) jobs = omap message_of (omap (heard_job p c) jobs).
Proof.
  induction jobs as [|job jobs IH]; [done|]. cbn [omap list_omap]. rewrite IH. destruct job as [cb r|cb t payload]; cbn.
  - destruct (cb =? p); [|done]. cbn [omap list_omap]. destruct (is_final (rec_status r)) eqn:Hf.
    + rewrite (final_returns r Hf). cbn. by destruct (rec_status r).
    + destruct (panics r); cbn; by destruct (rec_status r).
  - by destruct (cb =? c).
Qed.

(** What the task's final status becomes. *)
Definition outcome_of (es : list Effect) (st : TransferStatus) (m : TerminalMsg) : Prop :=
  match st with
  | Complete => ∃ payload, m = Ok (tid, payload) ∧ Submit (CompleteJob c tid payload) ∈ es
  | StatusFailed e => m = Err e
  | Canceled => m = Err canceled_error
  | _ => False
  end.

Lemma quiet_shape pre hs :
  Forall (λ st, is_final st = false) pre → map shape hs = concat (map expand pre) → omap message_of hs = [].
Proof.
  intros Hp. revert hs. induction Hp as [|st pre Hst Hp IH]; intros hs Hs; [by destruct hs|].
  assert (expand st = [Some st]) as Hx by (by destruct st). cbn [map concat] in Hs. rewrite Hx in Hs. destruct hs as [|h hs]; [done|].
  injection Hs as Hh Hs. cbn [omap list_omap]. rewrite (IH hs Hs). destruct h as [st'|]; cbn in Hh; [|done]. injection Hh as ->. by destruct st.
Qed.
Lemma heard_complete es payload : HeardComplete tid payload ∈ heard p c es → Submit (CompleteJob c tid payload) ∈ es.
Proof.
  unfold heard, jobs_of. rewrite list_elem_of_omap. intros (job & Hj & Hh). rewrite list_elem_of_omap in Hj. destruct Hj as (e & He & Hj).
  destruct e; try done. injection Hj as ->. destruct job as [cb r|cb t pl]; cbn in Hh.
  - by destruct (cb =? p).
  - destruct (Z.eqb_spec cb c) as [->|]; [|done]. by injection Hh as -> ->.
Qed.
Lemma echo_outcome es pre st :
  echo p c tid es → history tid (statuses es) = pre ++ [st] → Forall (λ st, is_final st = false) pre → is_final st = true →
  ∃ m, outcome_of es st m ∧ omap message_of (heard p c es) = [m].
Proof.
  intros [He Hf] Hh Hpre Hst. rewrite Hh, map_app, concat_app in He. cbn in He. rewrite app_nil_r in He.
  apply fmap_app_inv in He as (h1 & h2 & He1 & He2 & Heq). rewrite Heq, omap_app.
  rewrite (quiet_shape pre h1 Hpre (eq_sym He1)). cbn [app]. symmetry in He2. destruct h2 as [|h h2]; [by destruct st|]. injection He2 as Hs He2.
  destruct h as [st'|]; cbn in Hs; [|done]. injection Hs as ->. destruct st; try done; cbn in He2.
  - destruct h2 as [|[|t payload] [|]]; try done. rewrite Heq in Hf. apply Forall_app in Hf as [_ Hf].
    inversion_clear Hf as [|? ? _ Hf']. inversion_clear Hf' as [|? ? Ht _]. cbn in Ht. subst t.
    eexists. split; [|done]. exists payload. split; [done|]. apply heard_complete. rewrite Heq. apply elem_of_app. right. right. left.
  - destruct h2; [|done]. by eexists.
  - destruct h2; [|done]. by eexists.
Qed.
End Outcome.

Definition answer_of (m : TerminalMsg) : result TaskOutcome MeowError :=
  match m with Ok (task_id, payload) => Ok (mkTaskOutcome task_id payload) | Err e => Err e end.

(** The caller has no answer yet or this one, and this one once every call was made. *)
Definition answers (got : bool → option (result TaskOutcome MeowError)) (m : TerminalMsg) (all_called : Prop) : Prop :=
  (got false = None ∨ got false = Some (answer_of m)) ∧ (all_called → ∀ dropped, got dropped = Some (answer_of m)).

Section Calls.
Context (p c : Z) (panics : FileTransferRecord → bool) (call_panics : CbJob → bool).

Lemma calls_messages owner jobs d :
  rtc (disp_step call_panics) (start_for owner jobs) d →
  ∃ rest, omap (terminal_of p c panics) jobs = omap (terminal_of p c panics) (map fst (called d)) ++ rest
    ∧ (queue d = [] → todo d = [] → rest = []).
Proof.
  intros Hr. pose proof (di_lossless _ _ _ (disp_reachable_inv call_panics owner jobs d Hr)) as Hl.
  exists (omap (terminal_of p c panics) (queue d ++ todo d)). split; [|by intros -> ->].
  rewrite <- (terminal_lossless p c panics jobs), <- Hl, terminal_lossless. apply omap_app.
Qed.
Lemma answers_message owner jobs d id m :
  rtc (disp_step call_panics) (start_for owner jobs) d → omap (terminal_of p c panics) jobs = [m] →
  answers (enqueue_and_wait p c panics (Ok id) (map fst (called d))) m (queue d = [] ∧ todo d = []).
Proof.
  intros Hr Hm. destruct (calls_messages owner jobs d Hr) as (rest & Heq & Hall). rewrite Hm in Heq.
  unfold answers, enqueue_and_wait. rewrite wait_calls_first. destruct (omap _ (map fst (called d))) as [|m' ms]; cbn in Heq |- *.
  - split; [by left|]. intros [Hq Ht]. by rewrite (Hall Hq Ht) in Heq.
  - injection Heq as <- _. destruct m as [[t payload]|e]; split; auto.
Qed.
Lemma answers_nothing owner jobs d id :
  rtc (disp_step call_panics) (start_for owner jobs) d → omap (terminal_of p c panics) jobs = [] →
  enqueue_and_wait p c panics (Ok id) (map fst (called d)) false = None
  ∧ enqueue_and_wait p c panics (Ok id) (map fst (called d)) true = Some (Err not_notified_error).
Proof.
  intros Hr Hm. destruct (calls_messages owner jobs d Hr) as (rest & Heq & _). rewrite Hm in Heq. symmetry in Heq.
  apply app_nil in Heq as [Heq _]. unfold enqueue_and_wait. rewrite wait_calls_first, Heq. done.
Qed.
End Calls.

(** The submission of the waiting caller, taken by the scheduler. *)
Definition wait_submit (p c : Z) (t : InnerTask) (y : Sys) : Sys :=
  with_ids (accept_id t y) (sys_op (handle_cmd (CmdEnqueue t (mkTaskCallbacks (Some p) (Some c))) (world y)) (chan y) PhaseOpen y).

Section Waiting.
Context (up down : Z) (ls : option (list Z)) (p c : Z) (t : InnerTask) (y0 y : Sys).
Abbreviation tid := (task_id t).
Abbreviation jobs := (jobs_of (trace (world y))).
Hypothesis up_nonneg : 0 ≤ up.
Hypothesis down_nonneg : 0 ≤ down.
Hypothesis listeners : ∀ l, ls = Some l → p ∉ l.
Hypothesis before : rtc (other_step p c tid) (sys_init up down ls) y0.
Hypothesis open : phase y0 = PhaseOpen.
Hypothesis after : rtc (other_step p c tid) (wait_submit p c t y0) y.

Lemma init_listening : listening p c tid [] (sys_init up down ls).
Proof.
  assert (echoes p c tid [] (world (sys_init up down ls))) as He by (exists []; by repeat split).
  split; [|done]. intros _. split; [done|done|cbn; intros k g; by rewrite lookup_empty|done].
Qed.
Lemma fresh_id : tid ∉ used_ids y0.
Proof. rewrite (others_ids p c tid _ _ before). cbn. set_solver. Qed.
Lemma before_inv : sys_inv y0.
Proof. eapply (sys_reachable_inv up down ls); [done..|]. by eapply others_are_steps. Qed.
Lemma submit_step : sys_step y0 (wait_submit p c t y0).
Proof. apply (sys_enqueue _ t); [done|done|apply fresh_id]. Qed.
Lemma wait_submit_inv : sys_inv (wait_submit p c t y0).
Proof. eapply sys_step_inv; [apply before_inv|apply submit_step]. Qed.
Lemma after_inv : sys_inv y.
Proof. eapply (sys_reachable_inv up down ls); [done..|]. etrans; [by eapply others_are_steps|]. eapply rtc_l; [apply submit_step|by eapply others_are_steps]. Qed.
Lemma before_tuned : tuned p c tid [] (world y0).
Proof. apply (listening_steps p c tid [] _ _ before init_listening). by rewrite open. Qed.

(** Nothing is said to the caller's callbacks before its submission. *)
Lemma before_silent : heard p c (trace (world y0)) = [].
Proof.
  destruct (tu_echo _ _ _ _ _ before_tuned) as (es & Ht & He & _). cbn in Ht. rewrite <- Ht in He.
  rewrite (hi_fresh _ _ _ (sy_hist _ before_inv ltac:(by rewrite open)) tid fresh_id) in He. by destruct (heard p c _).
Qed.

(** The task was accepted. *)
Lemma accepted_history :
  groups (sched (world y0)) !! dedupe_key t = None →
  let h := history tid (statuses (trace (world y))) in
  Forall (λ st, is_final st = false) h ∨ ∃ pre st, h = pre ++ [st] ∧ Forall (λ st, is_final st = false) pre ∧ is_final st = true.
Proof.
  intros Hg h. assert (tid ∈ used_ids y) as Hu.
  { rewrite (others_ids p c tid _ _ after). cbn. unfold accept_id. rewrite Hg. set_solver. }
  assert (phase y = PhaseClosed ∨ phase y ≠ PhaseClosed) as [Hc|Hc] by (destruct (phase y); auto).
  - destruct (sy_closed _ after_inv Hc) as [_ Hcl]. destruct (Hcl tid Hu) as (pre & st & Hh & Hpre & [Hst| ->]).
    + right. by exists pre, st.
    + left. unfold h. rewrite Hh. apply Forall_app. split; [done|by constructor].
  - destruct (sy_hist _ after_inv Hc) as [_ Hl Hd _].
    destruct (decide (Exists (λ kg : UniqueId * GroupState, task_id (leader_inner kg.2) = tid) (map_to_list (groups (sched (world y))))))
      as [Hex|Hnex].
    + left. apply Exists_exists in Hex as ([k g] & Hin%elem_of_map_to_list & He). apply Hl. by exists k, g.
    + right. destruct (Hd tid Hu) as (pre & st & Hh & Hst & Hpre); [|by exists pre, st].
      intros (k & g & Hg' & He). apply Hnex, Exists_exists. exists (k, g). split; [by apply elem_of_map_to_list|done].
Qed.
Lemma accepted_echo : groups (sched (world y0)) !! dedupe_key t = None → echo p c tid (trace (world y)).
Proof.
  intros Hg. assert (listening p c tid [] (wait_submit p c t y0)) as Hl.
  { assert (tuned p c tid [] (cmd_enqueue t (mkTaskCallbacks (Some p) (Some c)) (world y0))) as Hw.
    { apply tuned_enqueue_new; [|done|apply before_tuned]. unfold hears. by rewrite decide_True. }
    split; [done|apply Hw]. }
  destruct (listening_steps p c tid [] _ _ after Hl) as [_ (es & Ht & He)]. cbn in Ht. by rewrite Ht.
Qed.

(** The task was refused: its key is another task's. *)
Lemma refused_heard g :
  groups (sched (world y0)) !! dedupe_key t = Some g →
  heard p c (trace (world y)) = [HeardStatus (StatusFailed (from_code1 DuplicateTaskError))].
Proof.
  intros Hg. pose proof before_tuned as [H1 H2 H3 _]. set (cbs := mkTaskCallbacks (Some p) (Some c)).
  destruct (reject_heard p c g cbs (world y0) H1 H2) as (es & Hr & Hs & Hh). rewrite decide_True in Hh by done.
  assert (world (wait_submit p c t y0) = effect es (world y0)) as Hw.
  { unfold wait_submit. cbn. unfold cmd_enqueue. rewrite Hg. exact Hr. }
  set (base := trace (world (wait_submit p c t y0))).
  assert (listening p c tid base (wait_submit p c t y0)) as Hl.
  { assert (echoes p c tid base (world (wait_submit p c t y0))) as He by (exists []; rewrite app_nil_r; by repeat split).
    split; [|done]. intros _. split; [| | |done]; by rewrite Hw. }
  destruct (listening_steps p c tid base _ _ after Hl) as [_ (es' & Ht & He & _)].
  assert (history tid (statuses (trace (world y))) = []) as Hnone.
  { apply (never_reported p c tid (wait_submit p c t y0)); [apply wait_submit_inv| | |exact after].
    - cbn. unfold accept_id. rewrite Hg. apply fresh_id.
    - rewrite Hw. cbn. rewrite statuses_app, Hs, app_nil_r. apply (hi_fresh _ _ _ (sy_hist _ before_inv ltac:(by rewrite open))), fresh_id. }
  rewrite Ht, statuses_app, history_app in Hnone. apply app_nil in Hnone as [_ Hnone]. rewrite Hnone in He.
  rewrite Ht, heard_app. replace (heard p c es') with (@nil Heard) by (by destruct (heard p c es')). unfold base. rewrite Hw. cbn [trace effect].
  by rewrite heard_app, before_silent, Hh.
Qed.

(** C8: [enqueue_and_wait] answers with the task's own final status and nothing else, whatever
    other tasks do, however the task is paused, resumed and canceled, and however the callback
    thread keeps up. A completed task gives its id and the payload its completion carried, a failed
    one its error, a canceled one the cancellation, and a task that is refused as a duplicate
    that error; the answer is there once the calls made for the task have run. While no final
    status has been reported the caller waits; if the callbacks are dropped then, as at the end of
    a close, it is told that it was not notified. *)
Theorem wait_returns_outcome panics call_panics owner d :
  (∀ r, is_final (rec_status r) = true → panics r = false) →
  rtc (disp_step call_panics) (start_for owner jobs) d →
  let got := enqueue_and_wait p c panics (Ok tid) (map fst (called d)) in
  let all_called := queue d = [] ∧ todo d = [] in
  match groups (sched (world y0)) !! dedupe_key t with
  | Some _ => answers got (Err (from_code1 DuplicateTaskError)) all_called
  | None =>
      let h := history tid (statuses (trace (world y))) in
      (∃ pre st m, h = pre ++ [st] ∧ Forall (λ st, is_final st = false) pre ∧ is_final st = true
         ∧ outcome_of c tid (trace (world y)) st m ∧ answers got m all_called)
      ∨ (Forall (λ st, is_final st = false) h ∧ got false = None ∧ got true = Some (Err not_notified_error))
  end.
Proof.
  intros Hp Hr got all_called. destruct (groups (sched (world y0)) !! dedupe_key t) as [g|] eqn:Hg.
  - eapply answers_message; [exact Hr|]. rewrite terminal_heard by done. change (omap (heard_job p c) jobs) with (heard p c (trace (world y))).
    by rewrite (refused_heard g Hg).
  - pose proof (accepted_echo Hg) as He. destruct (accepted_history Hg) as [Hh|(pre & st & Hh & Hpre & Hst)].
    + right. split; [done|]. eapply answers_nothing; [exact Hr|]. rewrite terminal_heard by done. by eapply quiet_shape, He.
    + left. destruct (echo_outcome p c tid _ pre st He Hh Hpre Hst) as (m & Hm & Hms). exists pre, st, m. split_and!; [done..|].
      eapply answers_message; [exact Hr|]. by rewrite terminal_heard.
Qed.
End Waiting.

(** ** Global listeners *)

(** The registry: ids with the listeners, in the order of registration. A broadcast of
    [Scheduler.emit_global_progress] goes to the listeners registered when it begins. The counter
    is the process's; other clients may advance it. *)
Record Listeners := mkListeners { li_next : Z; li_list : list (Z * Z) }.

Definition register_global_progress_listener (listener : Z) (s : Listeners) : Listeners * Z :=
  let '(id, next) := next_non_zero (li_next s) in
  (mkListeners next (li_list s ++ [(id, listener)]), id).

Fixpoint position (id : Z) (l : list (Z * Z)) : option nat :=
  match l with
  | [] => None
  | (k, _) :: l => if k =? id then Some 0%nat else S <$> position id l
  end.
Definition unregister_global_progress_listener (id : Z) (s : Listeners) : Listeners * bool :=
  match position id (li_list s) with
  | Some pos => (mkListeners (li_next s) (delete pos (li_list s)), true)
  | None => (s, false)
  end.
Definition clear_global_listener (s : Listeners) : Listeners := mkListeners (li_next s) [].

(** Ids are distinct while the counter has not wrapped around. *)
Definition listeners_ok (s : Listeners) : Prop :=
  NoDup (map fst (li_list s)) ∧ Forall (λ kl : Z * Z, kl.1 < li_next s) (li_list s).

Lemma register_ok listener s :
  listeners_ok s → 0 ≤ li_next s < U64_MAX → listeners_ok (register_global_progress_listener listener s).1.
Proof.
  intros [Hn Hf] Hlt. assert (next_non_zero (li_next s) = (li_next s, li_next s + 1)) as Hnext.
  { unfold next_non_zero, checked_add. rewrite (proj2 (Z.leb_le _ _)) by lia. rewrite (proj2 (Z.eqb_neq _ _)) by lia. done. }
  unfold register_global_progress_listener. rewrite Hnext. split; cbn.
  - rewrite map_app. apply NoDup_app. split_and!; [done| |apply NoDup_singleton].
    intros k Hk Hk'. apply list_elem_of_singleton in Hk'. apply list_elem_of_fmap in Hk as (kl & -> & Hin).
    rewrite Forall_forall in Hf. specialize (Hf kl Hin). cbn in *. lia.
  - apply Forall_app. split; [|constructor; [cbn; lia|constructor]]. eapply Forall_impl; [exact Hf|]. intros kl. cbn. lia.
Qed.
(** The listener with the id goes, the others stay in their order. *)
Lemma unregister_exact id s :
  listeners_ok s →
  let '(s', found) := unregister_global_progress_listener id s in
  li_list s' = filter (λ kl, kl.1 ≠ id) (li_list s) ∧ found = bool_decide (id ∈ map fst (li_list s)) ∧ listeners_ok s'.
Proof.
  destruct s as [next l]. intros [Hn Hf]. unfold unregister_global_progress_listener. cbn in *.
  assert (match position id l with
          | Some pos => delete pos l = filter (λ kl, kl.1 ≠ id) l ∧ id ∈ map fst l
          | None => filter (λ kl, kl.1 ≠ id) l = l ∧ id ∉ map fst l
          end) as Hpos.
  { clear Hf. induction l as [|[k x] l IH]; [split; [done|set_solver]|]. cbn [map fst position] in *. apply NoDup_cons in Hn as [Hk Hn]. specialize (IH Hn).
    destruct (Z.eqb_spec k id) as [->|Hne].
    - split; [|set_solver]. rewrite filter_cons_False by (cbn; tauto). clear IH Hn. induction l as [|[k' x'] l IH]; [done|].
      cbn [map fst] in Hk. rewrite filter_cons_True by (cbn; set_solver). cbn. f_equal. apply IH. set_solver.
    - rewrite filter_cons_True by done. destruct (position id l) as [pos|]; cbn [fmap option_fmap option_map]; destruct IH as [IH1 IH2].
      + split; [|set_solver]. change (delete (S pos) ((k, x) :: l)) with ((k, x) :: delete pos l). by rewrite IH1.
      + split; [by rewrite IH1|set_solver]. }
  destruct (position id l) as [pos|]; cbn; destruct Hpos as [Hl Hin].
  - rewrite bool_decide_true by done. rewrite Hl. split_and!; [done|done|]. split; cbn.
    + eapply sublist_NoDup; [exact Hn|]. apply fmap_sublist, sublist_filter.
    + rewrite Forall_forall in Hf |- *. intros kl [_ Hkl]%list_elem_of_filter. by apply Hf.
  - by rewrite bool_decide_false, Hl.
Qed.

(** ** A run *)

(** The scheduler submits, then the thread calls. *)
Fixpoint run_dispatcher (call_panics : CbJob → bool) (n : nat) (d : Dispatcher) : Dispatcher :=
  match n with
  | O => d
  | S n =>
      run_dispatcher call_panics n
        match todo d with
        | j :: js => default d (submit j (set_todo js d))
        | [] => default d (dispatch_one call_panics d)
        end
  end.
Lemma run_dispatcher_steps call_panics n d : rtc (disp_step call_panics) d (run_dispatcher call_panics n d).
Proof.
  revert d. induction n as [|n IH]; intros d; [done|]. cbn [run_dispatcher]. destruct (todo d) as [|j js] eqn:Ht.
  - destruct (dispatch_one call_panics d) as [d'|] eqn:Hd; [|apply IH]. eapply rtc_l; [by apply disp_dispatch|apply IH].
  - destruct (submit j (set_todo js d)) as [d'|] eqn:Hd; [|apply IH]. eapply rtc_l; [by eapply disp_submit|apply IH].
Qed.

Module WaitDemo.
Definition wait_task : InnerTask := demo_download 7 "a"%string.
Definition wait_start : Sys := sys_init 1 1 (Some []).
Definition wait_done : WorkerEvent := EvCompleted (Download, "a"%string) 5 (Some "stored"%string).
Definition wait_sent : Sys :=
  let y := wait_submit 1 2 wait_task wait_start in
  mkSys (world y) (delete 0%nat (running y)) (chan y ++ [wait_done]) (phase y) (used_ids y).
Definition wait_end : Sys := sys_op (deliver_event wait_done (world wait_sent)) [] PhaseOpen wait_sent.
Definition wait_thread : Dispatcher := run_dispatcher (λ _, false) 20 (start_for 0 (jobs_of (trace (world wait_end)))).

Lemma wait_end_reachable : rtc (other_step 1 2 7) (wait_submit 1 2 wait_task wait_start) wait_end.
Proof.
  eapply rtc_l; [apply (os_terminal 1 2 7 wait_done 0); [done|by vm_compute]|].
  eapply rtc_l; [|apply rtc_refl]. apply (os_deliver 1 2 7 wait_done [] wait_sent); [done|by vm_compute].
Qed.

Lemma wait_returns_outcome_witness :
  enqueue_and_wait 1 2 (λ _, false) (Ok 7) (map fst (called wait_thread)) false = Some (Ok (mkTaskOutcome 7 (Some "stored"%string)))
  ∧ ∃ m, outcome_of 2 7 (trace (world wait_end)) Complete m.
Proof.
  split; [by vm_compute|].
  destruct (wait_returns_outcome 1 1 (Some []) 1 2 wait_task wait_start wait_end ltac:(done) ltac:(done) (λ l H, ltac:(injection H as <-; set_solver))
    (rtc_refl _ _) eq_refl wait_end_reachable (λ _, false) (λ _, false) 0 wait_thread (λ _ _, eq_refl) (run_dispatcher_steps _ 20 _))
    as [(pre & st & m & Hh & _ & Hst & Hm & _)|(Hf & _)].
  - exists m. assert (last (history 7 (statuses (trace (world wait_end)))) = Some Complete) as Hl by (by vm_compute).
    change (task_id wait_task) with 7 in Hh, Hm. rewrite Hh, last_snoc in Hl. injection Hl as ->. exact Hm.
  - exfalso. rewrite Forall_forall in Hf. assert (is_final Complete = false) as H; [|done]. apply Hf.
    assert (history (task_id wait_task) (statuses (trace (world wait_end))) = [Pending; Complete]) as -> by (by vm_compute). right. left.
Defined.
End WaitDemo.
