(* ===== verification/ExecutorHandle.v ===== *)
(** * The handle of the transfer executor

    [Executor] of [src/inner/executor.rs]: the bounded command channel between the callers'
    threads and the scheduler's, one answer channel for each control call, close and drop. The
    scheduler's side of a command is [Scheduler.handle_cmd]; what workers do to the scheduler's
    state between two commands is arbitrary here. *)
From S2P Require Import Prelude Errors Lifecycle Records Scheduler.
#[local] Open Scope Z_scope.

Inductive Request := ReqPause (tid : TaskId) | ReqResume (tid : TaskId) | ReqCancel (tid : TaskId) | ReqSnapshot | ReqClose.

(** A command in the channel; the answer of a request goes to the call with this number, which for
    the close sent by [Drop] nobody waits for. *)
Inductive Command := CommandTask (cmd : TransferCmd) | CommandRequest (req : Request) (call : option nat).

Inductive Answer := AnsUnit (r : result unit MeowError) | AnsSnapshot (r : result TransferSnapshot MeowError).

Definition failed (req : Request) (e : MeowError) : Answer :=
  match req with ReqSnapshot => AnsSnapshot (Err e) | _ => AnsUnit (Err e) end.
(** The command could not be sent: the scheduler is gone. *)
Definition send_failed (req : Request) (e : string) : Answer :=
  failed req (from_code CommandSendFailed
    (match req with
     | ReqPause _ => "pause_failed: " | ReqResume _ => "resume_failed: " | ReqCancel _ => "cancel_failed: "
     | ReqSnapshot => "snapshot cmd_tx send failed: " | ReqClose => "close_failed: "
     end +:+ e)).
(** The scheduler ended without an answer. *)
Definition response_failed (req : Request) (e : string) : Answer :=
  failed req (from_code CommandResponseFailed
    (match req with
     | ReqPause _ => "pause response failed: " | ReqResume _ => "resume response failed: " | ReqCancel _ => "cancel response failed: "
     | ReqSnapshot => "snapshot rx.await failed: " | ReqClose => "close response failed: "
     end +:+ e)).

(** A call of the handle: waiting for room in the channel, waiting for its answer, done, or its
    future dropped by the caller. *)
Inductive CallState := Sending (req : Request) | Waiting (req : Request) | Returned (req : Request) (a : Answer) | Abandoned.
(** The scheduler's loop: running, inside its Close arm for this call, or ended with its receiver. *)
Inductive LoopPhase := LoopRuns | LoopCloses (call : option nat) | LoopEnded.

Record Handle := mkHandle {
  h_capacity : nat;
  h_queue : list Command;
  h_phase : LoopPhase;
  (** the [Executor] was dropped, and its sender with it *)
  h_dropped : bool;
  h_world : World;
  h_calls : gmap nat CallState;
  (** commands sent, and commands taken by the loop, in order; the answers given *)
  h_sent : list Command;
  h_taken : list Command;
  h_answered : list (nat * Request * Answer);
}.

Definition set_calls (calls : gmap nat CallState) (h : Handle) : Handle :=
  mkHandle (h_capacity h) (h_queue h) (h_phase h) (h_dropped h) (h_world h) calls (h_sent h) (h_taken h) (h_answered h).
Definition set_call (i : nat) (cs : CallState) (h : Handle) : Handle := set_calls (<[i := cs]> (h_calls h)) h.
Definition push_command (c : Command) (h : Handle) : Handle :=
  mkHandle (h_capacity h) (h_queue h ++ [c]) (h_phase h) (h_dropped h) (h_world h) (h_calls h) (h_sent h ++ [c]) (h_taken h) (h_answered h).
Definition set_world (w : World) (h : Handle) : Handle :=
  mkHandle (h_capacity h) (h_queue h) (h_phase h) (h_dropped h) w (h_calls h) (h_sent h) (h_taken h) (h_answered h).

(** [Executor::new]: the dispatcher's thread, then the scheduler's with the handshake on its runtime. *)
Definition handle_new (capacity : nat) (w : World) : Handle := mkHandle capacity [] LoopRuns false w ∅ [] [] [].
Definition executor_new (capacity : nat) (w : World) (dispatcher : result unit MeowError)
    (startup : result (result unit string) string) : result Handle MeowError :=
  match dispatcher with
  | Err e => Err e
  | Ok _ =>
      match startup with
      | Err e => Err (from_code RuntimeCreationFailedError ("runtime startup handshake failed: " +:+ e))
      | Ok (Err e) => Err (from_code RuntimeCreationFailedError ("runtime build failed: " +:+ e))
      | Ok (Ok _) => Ok (handle_new capacity w)
      end
  end.

(** [mpsc::Sender::try_send] *)
Definition loop_ended (h : Handle) : bool := match h_phase h with LoopEnded => true | _ => false end.
Definition try_send_command (c : Command) (h : Handle) : Handle * result unit string :=
  if loop_ended h then (h, Err "channel closed"%string)
  else if (h_capacity h <=? length (h_queue h))%nat then (h, Err "no available capacity"%string)
  else (push_command c h, Ok tt).

(** [Executor::try_enqueue] and [try_enqueue_paused] *)
Definition executor_enqueue (name : string) (cmd : TransferCmd) (id : TaskId) (h : Handle) : Handle * result TaskId MeowError :=
  match try_send_command (CommandTask cmd) h with
  | (h, Err e) => (h, Err (from_code CommandSendFailed (name +:+ "_failed: " +:+ e)))
  | (h, Ok _) => (h, Ok id)
  end.
Definition executor_try_enqueue (t : InnerTask) (cbs : TaskCallbacks) : Handle → Handle * result TaskId MeowError :=
  executor_enqueue "try_enqueue" (CmdEnqueue t cbs) (task_id t).
Definition executor_try_enqueue_paused (t : InnerTask) (cbs : TaskCallbacks) : Handle → Handle * result TaskId MeowError :=
  executor_enqueue "try_enqueue_paused" (CmdEnqueuePaused t cbs) (task_id t).

(** [pause], [resume], [cancel], [snapshot] and [close] up to the wait for the answer: [None] while
    the channel is full. *)
Definition executor_send (req : Request) (i : nat) (h : Handle) : option Handle :=
  if loop_ended h then Some (set_call i (Returned req (send_failed req "channel closed")) h)
  else if (h_capacity h <=? length (h_queue h))%nat then None
  else Some (set_call i (Waiting req) (push_command (CommandRequest req (Some i)) h)).

(** [Drop for Executor] *)
Definition executor_drop (close_invoked : bool) (h : Handle) : Handle :=
  let h := if close_invoked then h else (try_send_command (CommandRequest ReqClose None) h).1 in
  mkHandle (h_capacity h) (h_queue h) (h_phase h) true (h_world h) (h_calls h) (h_sent h) (h_taken h) (h_answered h).

(** [join_worker_thread]: what is left in [worker_join], and the result. *)
Inductive JoinOutcome := JoinTaskFailed (e : string) | ThreadPanicked | ThreadEnded.
Definition join_worker_thread (poisoned : option string) (worker_join : option JoinOutcome) : option JoinOutcome * result unit MeowError :=
  match poisoned with
  | Some e => (worker_join, Err (from_code LockPoisoned ("worker join handle lock poisoned: " +:+ e)))
  | None =>
      (None, match worker_join with
             | None | Some ThreadEnded => Ok tt
             | Some (JoinTaskFailed e) => Err (from_code Unknown ("worker thread join task failed: " +:+ e))
             | Some ThreadPanicked => Err (from_code Unknown "worker thread panicked during shutdown")
             end)
  end.

(** The scheduler's answer to a request but Close, which [close_finish] answers. *)
Definition control_answer (op : UniqueId → World → result unit MeowError * World) (tid : TaskId) (w : World) : result unit MeowError :=
  match task_id_to_dedupe (sched w) !! tid with
  | Some key => (op key w).1
  | None => Err (task_not_found_error tid)
  end.
Definition answer_to (req : Request) (w : World) : Answer :=
  match req with
  | ReqPause tid => AnsUnit (control_answer pause_group tid w)
  | ReqResume tid => AnsUnit (control_answer resume_group tid w)
  | ReqCancel tid => AnsUnit (control_answer cancel_group tid w)
  | ReqSnapshot =>
      AnsSnapshot (Ok (mkSnapshot (length (queued (sched w))) (size (active (sched w))) (map_to_list (active (sched w))).*1))
  | ReqClose => AnsUnit (Ok tt)
  end.
Definition request_cmd (req : Request) : option TransferCmd :=
  match req with
  | ReqPause tid => Some (CmdPause tid)
  | ReqResume tid => Some (CmdResume tid)
  | ReqCancel tid => Some (CmdCancel tid)
  | ReqSnapshot => Some CmdSnapshot
  | ReqClose => None
  end.

(** An answer reaches its call unless nobody waits for it. *)
Definition answer_call (call : option nat) (a : Answer) (calls : gmap nat CallState) : gmap nat CallState :=
  match call with
  | Some i => match calls !! i with Some (Waiting req) => <[i := Returned req a]> calls | _ => calls end
  | None => calls
  end.
Definition note_answer (call : option nat) (req : Request) (a : Answer) : list (nat * Request * Answer) :=
  match call with Some i => [(i, req, a)] | None => [] end.
(** The commands that are left when the loop ends are dropped with their answer channels. *)
Definition drop_command (calls : gmap nat CallState) (c : Command) : gmap nat CallState :=
  match c with
  | CommandTask _ => calls
  | CommandRequest req call => answer_call call (response_failed req "channel closed") calls
  end.

(** The loop takes the next command. *)
Definition take_command (h : Handle) : Handle :=
  match h_queue h with
  | [] => h
  | CommandTask cmd as c :: rest =>
      mkHandle (h_capacity h) rest LoopRuns (h_dropped h) (handle_cmd cmd (h_world h)) (h_calls h) (h_sent h) (h_taken h ++ [c]) (h_answered h)
  | CommandRequest req call as c :: rest =>
      match request_cmd req with
      | Some cmd =>
          let a := answer_to req (h_world h) in
          mkHandle (h_capacity h) rest LoopRuns (h_dropped h) (handle_cmd cmd (h_world h)) (answer_call call a (h_calls h))
            (h_sent h) (h_taken h ++ [c]) (h_answered h ++ note_answer call req a)
      | None =>
          mkHandle (h_capacity h) rest (LoopCloses call) (h_dropped h) (close_begin (h_world h)) (h_calls h)
            (h_sent h) (h_taken h ++ [c]) (h_answered h)
      end
  end.
(** The Close arm is through: its call is answered and the receiver dropped. *)
Definition end_loop (call : option nat) (h : Handle) : Handle :=
  let a := answer_to ReqClose (h_world h) in
  mkHandle (h_capacity h) [] LoopEnded (h_dropped h) (close_finish (h_world h))
    (foldl drop_command (answer_call call a (h_calls h)) (h_queue h)) (h_sent h) (h_taken h) (h_answered h ++ note_answer call ReqClose a).
(** [recv] returned nothing: every sender is gone. *)
Definition end_of_commands (h : Handle) : Handle :=
  mkHandle (h_capacity h) [] LoopEnded (h_dropped h) (effect [DispatcherShutdown] (upd take_cb_submit (h_world h)))
    (h_calls h) (h_sent h) (h_taken h) (h_answered h).

Definition pending (cs : CallState) : bool := match cs with Sending _ | Waiting _ => true | _ => false end.

Inductive handle_step : Handle → Handle → Prop :=
| hs_enqueue t cbs h : h_dropped h = false → handle_step h (executor_try_enqueue t cbs h).1
| hs_enqueue_paused t cbs h : h_dropped h = false → handle_step h (executor_try_enqueue_paused t cbs h).1
| hs_call i req h : h_dropped h = false → h_calls h !! i = None → handle_step h (set_call i (Sending req) h)
| hs_send i req h h' : h_calls h !! i = Some (Sending req) → executor_send req i h = Some h' → handle_step h h'
| hs_abandon i cs h : h_calls h !! i = Some cs → pending cs = true → handle_step h (set_call i Abandoned h)
| hs_drop close_invoked h :
    h_dropped h = false → map_Forall (λ _ cs, pending cs = false) (h_calls h) → handle_step h (executor_drop close_invoked h)
| hs_workers w h : loop_ended h = false → handle_step h (set_world w h)
| hs_take h : h_phase h = LoopRuns → h_queue h ≠ [] → handle_step h (take_command h)
| hs_end_loop call h : h_phase h = LoopCloses call → active (sched (h_world h)) = ∅ → handle_step h (end_loop call h)
| hs_end_of_commands h : h_phase h = LoopRuns → h_queue h = [] → h_dropped h = true → handle_step h (end_of_commands h).

(** What the loop does next when its workers stop as [quiesce] says. *)
Definition loop_turn (quiesce : World → World) (h : Handle) : Handle :=
  match h_phase h with
  | LoopRuns =>
      match h_queue h with
      | [] => if h_dropped h then end_of_commands h else h
      | _ :: _ => take_command h
      end
  | LoopCloses call => end_loop call (set_world (quiesce (h_world h)) h)
  | LoopEnded => h
  end.

(** ** The channel and the calls *)

Definition caller (c : Command) : option nat := match c with CommandRequest _ call => call | CommandTask _ => None end.
Definition awaited (h : Handle) (i : nat) (req : Request) : Prop :=
  CommandRequest req (Some i) ∈ h_queue h ∨ h_phase h = LoopCloses (Some i) ∧ req = ReqClose.
Definition call_ok (h : Handle) (i : nat) (cs : CallState) : Prop :=
  match cs with
  | Sending _ => i ∉ omap caller (h_sent h)
  | Waiting req => awaited h i req
  | Returned req a =>
      (i, req, a) ∈ h_answered h
      ∨ h_phase h = LoopEnded ∧ (a = send_failed req "channel closed" ∨ a = response_failed req "channel closed")
  | Abandoned => True
  end.

Record handle_inv (h : Handle) : Prop := {
  hi_order : if loop_ended h then h_taken h `prefix_of` h_sent h ∧ h_queue h = [] else h_taken h ++ h_queue h = h_sent h;
  hi_capacity : (length (h_queue h) ≤ h_capacity h)%nat;
  hi_once : NoDup (omap caller (h_sent h));
  hi_called i : i ∈ omap caller (h_sent h) → is_Some (h_calls h !! i);
  hi_calls : map_Forall (call_ok h) (h_calls h);
  hi_closes call : h_phase h = LoopCloses call → CommandRequest ReqClose call ∈ h_taken h;
  hi_answered i req a : (i, req, a) ∈ h_answered h → CommandRequest req (Some i) ∈ h_taken h;
}.

Lemma handle_new_inv capacity w : handle_inv (handle_new capacity w).
Proof. split; cbn; [done|lia|apply NoDup_nil_2|by intros i ?%elem_of_nil|apply map_Forall_empty|done|by intros i req a ?%elem_of_nil]. Qed.

Lemma caller_in (l : list Command) req i : CommandRequest req (Some i) ∈ l → i ∈ omap caller l.
Proof. intros H. apply list_elem_of_omap. by eexists. Qed.
Lemma caller_once (l l' : list Command) req req' i :
  NoDup (omap caller (l ++ l')) → CommandRequest req (Some i) ∈ l → CommandRequest req' (Some i) ∉ l'.
Proof. rewrite omap_app. intros (_ & Hd & _)%NoDup_app H1%caller_in H2%caller_in. by eapply Hd. Qed.
Lemma taken_sent h c : handle_inv h → c ∈ h_taken h → c ∈ h_sent h.
Proof.
  intros Hi Hc. pose proof (hi_order _ Hi) as H. destruct (loop_ended h); [|rewrite <- H; set_solver].
  destruct H as [[l ->] _]. set_solver.
Qed.
Lemma call_not_sent i h : handle_inv h → h_calls h !! i = None → i ∉ omap caller (h_sent h).
Proof. intros Hi Hn Hin. destruct (hi_called _ Hi i Hin) as [? ?]. congruence. Qed.

(** What a step leaves to the calls it does not touch. *)
Lemma call_ok_mono h h' i cs :
  (i ∈ omap caller (h_sent h') → i ∈ omap caller (h_sent h)) → (∀ req, cs = Waiting req → awaited h i req → awaited h' i req) →
  (∀ x, x ∈ h_answered h → x ∈ h_answered h') → (h_phase h = LoopEnded → h_phase h' = LoopEnded) → call_ok h i cs → call_ok h' i cs.
Proof. intros H1 H2 H3 H4. destruct cs as [|req|req a|]; cbn; naive_solver. Qed.


(** A command of somebody who does not wait. *)
Lemma push_silent_inv c h :
  caller c = None → loop_ended h = false → (length (h_queue h) < h_capacity h)%nat → handle_inv h → handle_inv (push_command c h).
Proof.
  intros Hc Ha Hcap [H1 H2 H3 H4 H5 H6 H7]. rewrite Ha in H1.
  assert (omap caller (h_sent h ++ [c]) = omap caller (h_sent h)) as Ho by (rewrite omap_app; cbn; by rewrite Hc, app_nil_r).
  split; cbn [h_sent h_calls h_taken h_queue h_capacity h_answered h_phase push_command loop_ended]; rewrite ?Ho; try done.
  - change (loop_ended (push_command c h)) with (loop_ended h). by rewrite Ha, <- H1, (assoc_L (++)).
  - rewrite length_app. cbn. lia.
  - intros i cs Hcs. eapply (call_ok_mono h); [cbn; by rewrite Ho| |done|done|by apply H5].
    intros req _ [?|?]; [left; cbn; set_solver|by right].
Qed.
Lemma try_send_inv c h : caller c = None → handle_inv h → handle_inv (try_send_command c h).1.
Proof.
  intros Hc Hi. unfold try_send_command. destruct (loop_ended h) eqn:Ha; [done|].
  destruct (Nat.leb_spec (h_capacity h) (length (h_queue h))); [done|]. by apply push_silent_inv.
Qed.
Lemma enqueue_inv name cmd id h : handle_inv h → handle_inv (executor_enqueue name cmd id h).1.
Proof.
  intros Hi. unfold executor_enqueue. pose proof (try_send_inv (CommandTask cmd) h eq_refl Hi) as H.
  by destruct (try_send_command _ h) as [h' [|]].
Qed.
Lemma drop_inv b h : handle_inv h → handle_inv (executor_drop b h).
Proof.
  intros Hi. unfold executor_drop. set (h' := if b then h else _).
  assert (handle_inv h') as [H1 H2 H3 H4 H5 H6 H7] by (subst h'; destruct b; [done|by apply try_send_inv]). by split.
Qed.

(** A call's state changes, nothing else does. *)
Lemma set_call_inv i cs h : call_ok h i cs → handle_inv h → handle_inv (set_call i cs h).
Proof.
  intros Hok [H1 H2 H3 H4 H5 H6 H7]. split; try done.
  - intros j Hj. cbn. destruct (decide (i = j)) as [->|]; [rewrite lookup_insert_eq; by eexists|rewrite lookup_insert_ne by done; by apply H4].
  - cbn. by apply map_Forall_insert_2.
Qed.
Lemma send_inv i req h h' : h_calls h !! i = Some (Sending req) → executor_send req i h = Some h' → handle_inv h → handle_inv h'.
Proof.
  intros Hc Hs Hi. pose proof (hi_calls _ Hi _ _ Hc) as Hnot. cbn in Hnot. unfold executor_send in Hs. destruct (loop_ended h) eqn:Ha.
  - injection Hs as <-. apply set_call_inv; [|done]. right. split; [|by left]. unfold loop_ended in Ha. by destruct (h_phase h).
  - destruct (Nat.leb_spec (h_capacity h) (length (h_queue h))); [done|]. injection Hs as <-. destruct Hi as [H1 H2 H3 H4 H5 H6 H7].
    rewrite Ha in H1. set (c := CommandRequest req (Some i)).
    assert (omap caller (h_sent h ++ [c]) = omap caller (h_sent h) ++ [i]) as Ho by (by rewrite omap_app).
    split; cbn [h_sent h_calls h_taken h_queue h_capacity h_answered h_phase push_command set_call set_calls]; rewrite ?Ho; try done.
    + change (loop_ended (set_call i (Waiting req) (push_command c h))) with (loop_ended h). by rewrite Ha, <- H1, (assoc_L (++)).
    + rewrite length_app. cbn. lia.
    + apply NoDup_app. split_and!; [done|set_solver|apply NoDup_singleton].
    + intros j Hj. destruct (decide (i = j)) as [->|]; [rewrite lookup_insert_eq; by eexists|rewrite lookup_insert_ne by done]. apply H4. set_solver.
    + intros j cs. destruct (decide (i = j)) as [<-|Hne]; [rewrite lookup_insert_eq; intros [= <-]; left; cbn; set_solver|].
      rewrite lookup_insert_ne by done. intros Hcs. eapply (call_ok_mono h); [cbn; rewrite Ho; set_solver| |done|done|by apply H5].
      intros r _ [?|?]; [left; cbn; set_solver|by right].
Qed.

(** What an answer, and the end of the loop, do to a call. *)
Lemma answer_call_cases call a calls i cs :
  answer_call call a calls !! i = Some cs →
  calls !! i = Some cs ∧ (call = Some i → ∀ req, cs ≠ Waiting req)
  ∨ ∃ req, call = Some i ∧ calls !! i = Some (Waiting req) ∧ cs = Returned req a.
Proof.
  destruct call as [j|]; cbn; [|naive_solver].
  destruct (decide (j = i)) as [->|Hne]; [|repeat case_match; rewrite ?lookup_insert_ne by done; naive_solver].
  destruct (calls !! i) as [[req|req|req b|]|] eqn:E; rewrite ?lookup_insert_eq, ?E; naive_solver.
Qed.
Lemma answer_call_some call a calls i : is_Some (calls !! i) → is_Some (answer_call call a calls !! i).
Proof. intros Hs. destruct call as [j|]; cbn; [|done]. repeat case_match; rewrite ?lookup_insert_is_Some'; auto. Qed.
Lemma drop_commands_cases rest calls i cs :
  foldl drop_command calls rest !! i = Some cs →
  calls !! i = Some cs ∧ (∀ req r, cs = Waiting req → CommandRequest r (Some i) ∉ rest)
  ∨ ∃ req r, calls !! i = Some (Waiting req) ∧ CommandRequest r (Some i) ∈ rest ∧ cs = Returned req (response_failed r "channel closed").
Proof.
  revert calls. induction rest as [|c rest IH]; intros calls; cbn [foldl]; [intros ?; left; split; [done|set_solver]|].
  intros [[Hc Hn]|(req & r & Hc & Hin & ->)]%IH.
  - destruct c as [cmd|r call]; [left; set_solver|]. cbn in Hc. apply answer_call_cases in Hc as [[Hc Hne]|(req & -> & Hc & ->)].
    + left. split; [done|]. intros req r' -> [[= -> <-]|?]%elem_of_cons; [by eapply Hne|by eapply Hn].
    + right. exists req, r. split_and!; [done|left|done].
  - right. destruct c as [cmd|r' call]; [exists req, r; set_solver|]. cbn in Hc. apply answer_call_cases in Hc as [[Hc Hne]|(req' & _ & _ & ?)]; [|done].
    exists req, r. set_solver.
Qed.
Lemma drop_commands_some rest calls i : is_Some (calls !! i) → is_Some (foldl drop_command calls rest !! i).
Proof.
  revert calls. induction rest as [|c rest IH]; intros calls; cbn [foldl]; [done|]. intros Hs. apply IH.
  destruct c; cbn; [done|by apply answer_call_some].
Qed.

(** The head of the channel is the only command of its call there. *)
Lemma head_only h req i rest r :
  handle_inv h → h_phase h = LoopRuns → h_queue h = CommandRequest req (Some i) :: rest → awaited h i r → r = req ∧ CommandRequest r (Some i) ∉ rest.
Proof.
  intros Hi Hp Hq [Hin|[? _]]; [|congruence]. pose proof (hi_order _ Hi) as H1. pose proof (hi_once _ Hi) as H3.
  unfold loop_ended in H1. rewrite Hp in H1. rewrite <- H1, Hq, (cons_middle _ (h_taken h)), (assoc_L (++)) in H3.
  assert (∀ r', CommandRequest r' (Some i) ∉ rest) as Hrest by (intros r'; eapply (caller_once _ _ req); [exact H3|set_solver]).
  rewrite Hq in Hin. apply elem_of_cons in Hin as [[= ->]|Hin]; [done|by destruct (Hrest r)].
Qed.

Lemma take_task_inv cmd rest h :
  h_phase h = LoopRuns → h_queue h = CommandTask cmd :: rest → handle_inv h → handle_inv (take_command h).
Proof.
  intros Hp Hq [H1 H2 H3 H4 H5 H6 H7]. unfold take_command. rewrite Hq in *. unfold loop_ended in H1. rewrite Hp in H1. cbn in H2.
  split; cbn; try done; [by rewrite <- (assoc_L (++))|lia| |set_solver].
  intros i cs Hcs. eapply (call_ok_mono h); [done| |done|by rewrite Hp|by apply H5].
  intros r _ [Hin|[? _]]; [|congruence]. left. cbn. rewrite Hq in Hin. set_solver.
Qed.
Lemma take_answered_inv req call cmd rest h :
  h_phase h = LoopRuns → h_queue h = CommandRequest req call :: rest → request_cmd req = Some cmd → handle_inv h → handle_inv (take_command h).
Proof.
  intros Hp Hq Hr Hi. pose proof (λ i r, head_only h req i rest r Hi Hp) as Hhead. destruct Hi as [H1 H2 H3 H4 H5 H6 H7].
  unfold take_command. rewrite Hq in H1, H2, Hhead |- *. rewrite Hr. unfold loop_ended in H1. rewrite Hp in H1. cbn in H2.
  split; cbn [h_sent h_calls h_taken h_queue h_capacity h_answered h_phase loop_ended]; try done.
  - by rewrite <- (assoc_L (++)).
  - lia.
  - intros i Hs. apply answer_call_some. by apply H4.
  - intros i cs [[Hcs Hne]|(r & -> & Hcs & ->)]%answer_call_cases.
    + eapply (call_ok_mono h); [done| |cbn; set_solver|by rewrite Hp|by apply H5].
      intros r -> [Hin|[? _]]; [|congruence]. left. cbn. rewrite Hq in Hin. apply elem_of_cons in Hin as [[= -> <-]|?]; [|done].
      exfalso. by eapply (Hne eq_refl).
    + pose proof (H5 _ _ Hcs) as Haw. destruct (Hhead i r) as [-> _]; [done..|]. left. cbn. set_solver.
  - intros i r b [Hin|Hin]%elem_of_app; [set_solver|]. destruct call as [j|]; cbn in Hin; [|by apply elem_of_nil in Hin].
    apply list_elem_of_singleton in Hin. simplify_eq. set_solver.
Qed.
Lemma take_close_inv call rest h :
  h_phase h = LoopRuns → h_queue h = CommandRequest ReqClose call :: rest → handle_inv h → handle_inv (take_command h).
Proof.
  intros Hp Hq [H1 H2 H3 H4 H5 H6 H7]. unfold take_command. rewrite Hq in *. unfold loop_ended in H1. rewrite Hp in H1. cbn in H2.
  split; cbn; try done; [by rewrite <- (assoc_L (++))|lia| | |set_solver].
  - intros i cs Hcs. eapply (call_ok_mono h); [done| |done|by rewrite Hp|by apply H5].
    intros r _ [Hin|[? _]]; [|congruence]. rewrite Hq in Hin. apply elem_of_cons in Hin as [[= -> <-]|?]; [by right|by left].
  - intros c [= <-]. set_solver.
Qed.
Lemma take_inv h : h_phase h = LoopRuns → h_queue h ≠ [] → handle_inv h → handle_inv (take_command h).
Proof.
  intros Hp Hq Hi. destruct (h_queue h) as [|[cmd|req call] rest] eqn:E; [done|by eapply take_task_inv|].
  destruct (request_cmd req) as [cmd|] eqn:Hr; [by eapply take_answered_inv|]. destruct req; try done. by eapply take_close_inv.
Qed.

(** The commands left behind at the end belong to other calls than the one that closed. *)
Lemma left_behind h call r r' i :
  handle_inv h → h_phase h = LoopCloses call → h_calls h !! i = Some (Waiting r) → CommandRequest r' (Some i) ∈ h_queue h → r' = r ∧ call ≠ Some i.
Proof.
  intros Hi Hp Hw Hin. pose proof (hi_order _ Hi) as H1. pose proof (hi_once _ Hi) as H3. unfold loop_ended in H1. rewrite Hp in H1.
  rewrite <- H1 in H3. assert (call ≠ Some i) as Hne by (intros ->; eapply caller_once; [exact H3|by apply (hi_closes _ Hi)|exact Hin]).
  split; [|done]. destruct (hi_calls _ Hi _ _ Hw) as [Hin'|[? _]]; [|congruence].
  rewrite omap_app in H3. apply NoDup_app in H3 as (_ & _ & H3). clear -H3 Hin Hin'. induction (h_queue h) as [|c l IH]; [by apply elem_of_nil in Hin|].
  apply elem_of_cons in Hin as [<-|Hin]; apply elem_of_cons in Hin' as [Heq|Hin'].
  - by injection Heq.
  - exfalso. eapply (caller_once [_] l); [exact H3|left|exact Hin'].
  - exfalso. eapply (caller_once [_] l); [exact H3|rewrite Heq; left|exact Hin].
  - apply IH; try done. clear -H3. cbn in H3.
    destruct (caller c); [by apply NoDup_cons in H3 as [_ H3]|done].
Qed.
Lemma end_loop_inv call h : h_phase h = LoopCloses call → handle_inv h → handle_inv (end_loop call h).
Proof.
  intros Hp Hi. pose proof (left_behind h call) as Hleft. pose proof Hi as Hi'. destruct Hi as [H1 H2 H3 H4 H5 H6 H7].
  unfold loop_ended in H1. rewrite Hp in H1. split; cbn [h_sent h_calls h_taken h_queue h_capacity h_answered h_phase end_loop loop_ended]; try done.
  - split; [by exists (h_queue h)|done].
  - cbn. lia.
  - intros i Hs. by apply drop_commands_some, answer_call_some, H4.
  - intros i cs [[[[Hc Hne]|(r & -> & Hc & ->)]%answer_call_cases Hn]|(r & r' & [[Hc Hne]|(? & _ & _ & ?)]%answer_call_cases & Hin & ->)]%drop_commands_cases; [| | |done].
    + destruct cs as [r|r|r a|]; [by apply (H5 _ _ Hc)| |left; cbn; destruct (H5 _ _ Hc) as [?|[? _]]; [set_solver|congruence]|done].
      destruct (H5 _ _ Hc) as [Hin|[Hcl ->]]; [by destruct (Hn r r eq_refl)|]. rewrite Hp in Hcl. injection Hcl as ->. by destruct (Hne eq_refl ReqClose).
    + destruct (H5 _ _ Hc) as [Hin|[_ ->]]; [by destruct (Hleft r r i Hi' Hp Hc Hin)|]. left. cbn. set_solver.
    + destruct (Hleft r r' i Hi' Hp Hc Hin) as [-> _]. right. split; [done|by right].
  - intros i r b [Hin|Hin]%elem_of_app; [by eapply H7|]. destruct call as [j|]; cbn in Hin; [|by apply elem_of_nil in Hin].
    apply list_elem_of_singleton in Hin. simplify_eq. by apply H6.
Qed.
Lemma end_of_commands_inv h : h_phase h = LoopRuns → h_queue h = [] → handle_inv h → handle_inv (end_of_commands h).
Proof.
  intros Hp Hq [H1 H2 H3 H4 H5 H6 H7]. unfold loop_ended in H1. rewrite Hp, Hq, app_nil_r in H1. split; cbn; try done; [by rewrite H1|lia|].
  intros i cs Hcs. eapply (call_ok_mono h); [done| |done|done|by apply H5].
  intros r _ [Hin|[? _]]; [rewrite Hq in Hin; by apply elem_of_nil in Hin|congruence].
Qed.

Lemma handle_step_inv h h' : handle_inv h → handle_step h h' → handle_inv h'.
Proof.
  intros Hi Hs. destruct Hs as [| |i req h Hd Hn|i req h h' Hc Hs|i cs h Hcs Hp| |w h Ha|h Ha Hq|call h Hp Ha|h Ha Hq Hd].
  - by apply enqueue_inv.
  - by apply enqueue_inv.
  - apply set_call_inv; [by apply call_not_sent|done].
  - by eapply send_inv.
  - by apply set_call_inv.
  - by apply drop_inv.
  - by destruct Hi; split.
  - by apply take_inv.
  - by apply end_loop_inv.
  - by apply end_of_commands_inv.
Qed.
Lemma handle_reach_inv capacity w h : rtc handle_step (handle_new capacity w) h → handle_inv h.
Proof. eapply (rtc_invariant _ handle_inv); [intros ????; by eapply handle_step_inv|apply handle_new_inv]. Qed.

(** ** The loop serves every call *)

Section Turns.
Context (quiesce : World → World) (Hquiesce : ∀ w, active (sched (quiesce w)) = ∅).

Lemma loop_turn_steps h : rtc handle_step h (loop_turn quiesce h).
Proof using Hquiesce.
  unfold loop_turn. destruct (h_phase h) as [|call|] eqn:Hp; [| |reflexivity].
  - destruct (h_queue h) as [|c rest] eqn:Hq; [|apply rtc_once, hs_take; [done|by rewrite Hq]].
    destruct (h_dropped h) eqn:Hd; [by apply rtc_once, hs_end_of_commands|reflexivity].
  - eapply rtc_l; [apply (hs_workers (quiesce (h_world h))); unfold loop_ended; by rewrite Hp|].
    apply rtc_once, hs_end_loop; [done|apply Hquiesce].
Qed.
Lemma loop_turns_steps n h : rtc handle_step h (Nat.iter n (loop_turn quiesce) h).
Proof using Hquiesce. induction n as [|n IH]; cbn; [reflexivity|]. etrans; [exact IH|apply loop_turn_steps]. Qed.
Lemma turn_inv h : handle_inv h → handle_inv (loop_turn quiesce h).
Proof using Hquiesce. intros Hi. eapply (rtc_invariant _ handle_inv); [intros ????; by eapply handle_step_inv|exact Hi|apply loop_turn_steps]. Qed.
Lemma turns_inv n h : handle_inv h → handle_inv (Nat.iter n (loop_turn quiesce) h).
Proof using Hquiesce. intros Hi. induction n; cbn; [done|by apply turn_inv]. Qed.

(** Nothing is left to do. *)
Definition settled (h : Handle) : Prop := h_queue h = [] ∧ ∀ call, h_phase h ≠ LoopCloses call.
Lemma loop_settles n h : handle_inv h → (length (h_queue h) ≤ n)%nat → settled (Nat.iter (S n) (loop_turn quiesce) h).
Proof using Hquiesce.
  revert h. induction n as [|n IH]; intros h Hi Hn.
  - cbn. destruct (h_queue h) eqn:Hq; [|cbn in Hn; lia]. unfold loop_turn. rewrite Hq.
    destruct (h_phase h) eqn:Hp; [destruct (h_dropped h)| |]; split; cbn; rewrite ?Hq, ?Hp; done.
  - rewrite Nat.iter_succ_r. apply IH; [by apply turn_inv|]. unfold loop_turn. destruct (h_phase h) eqn:Hp; cbn; [|lia|].
    + unfold take_command. destruct (h_queue h) as [|[|]] eqn:Hq; [destruct (h_dropped h); cbn; rewrite ?Hq; cbn; lia|..]; cbn in Hn |- *; repeat case_match; cbn; lia.
    + pose proof (hi_order _ Hi) as H1. unfold loop_ended in H1. rewrite Hp in H1. destruct H1 as [_ ->]. cbn. lia.
Qed.

(** A call that was sent keeps waiting, or returns. *)
Definition served (req : Request) (cs : CallState) : Prop := cs = Waiting req ∨ ∃ a, cs = Returned req a.
Lemma answer_call_served call a calls i req cs :
  calls !! i = Some cs → served req cs → ∃ cs', answer_call call a calls !! i = Some cs' ∧ served req cs'.
Proof.
  intros Hc Hs. destruct (answer_call_some call a calls i) as [cs' Hcs']; [by eexists|]. exists cs'. split; [done|].
  apply answer_call_cases in Hcs' as [[? _]|(r & _ & ? & ->)]; [by simplify_eq|]. destruct Hs as [->|[b ->]]; simplify_eq. right. by eexists.
Qed.
Lemma turn_served h i req cs :
  h_calls h !! i = Some cs → served req cs → ∃ cs', h_calls (loop_turn quiesce h) !! i = Some cs' ∧ served req cs'.
Proof.
  intros Hc Hs. unfold loop_turn, take_command. destruct (h_phase h) as [|call|]; [| |by exists cs].
  - destruct (h_queue h) as [|[cmd|r call] rest]; [destruct (h_dropped h); by exists cs|by exists cs|].
    destruct (request_cmd r); [by eapply answer_call_served|by exists cs].
  - cbn [end_loop h_calls h_queue set_world h_world]. set (calls := answer_call _ _ _).
    assert (∃ cs', calls !! i = Some cs' ∧ served req cs') as Hc' by (by eapply answer_call_served). clearbody calls.
    induction (h_queue h) as [|c rest IH] in calls, Hc' |- *; cbn; [done|]. apply IH. destruct Hc' as (cs' & ? & ?).
    destruct c; cbn; [by exists cs'|by eapply answer_call_served].
Qed.
Lemma turns_served n h i req : h_calls h !! i = Some (Waiting req) →
  ∃ cs, h_calls (Nat.iter n (loop_turn quiesce) h) !! i = Some cs ∧ served req cs.
Proof.
  intros Hc. induction n as [|n (cs & IH & Hs)]; cbn; [eexists; split; [done|by left]|]. by eapply turn_served.
Qed.
Lemma turn_dropped h : h_dropped (loop_turn quiesce h) = h_dropped h.
Proof. unfold loop_turn, take_command. by repeat (case_match; cbn). Qed.
Lemma turns_dropped n h : h_dropped (Nat.iter n (loop_turn quiesce) h) = h_dropped h.
Proof. induction n; cbn; [done|by rewrite turn_dropped]. Qed.

Lemma waiting_served h i req n :
  handle_inv h → h_calls h !! i = Some (Waiting req) → settled (Nat.iter n (loop_turn quiesce) h) →
  ∃ a, h_calls (Nat.iter n (loop_turn quiesce) h) !! i = Some (Returned req a).
Proof using Hquiesce.
  intros Hi Hc [Hq Hp]. destruct (turns_served n h i req Hc) as (cs & Hcs & [->|[a ->]]); [|by exists a].
  destruct (hi_calls _ (turns_inv n h Hi) _ _ Hcs) as [Hin|[Hcl _]]; [rewrite Hq in Hin; by apply elem_of_nil in Hin|by apply Hp in Hcl].
Qed.
Lemma dropped_ends h n :
  h_dropped h = true → settled (Nat.iter n (loop_turn quiesce) h) → h_phase (Nat.iter (S n) (loop_turn quiesce) h) = LoopEnded.
Proof.
  intros Hd [Hq Hp]. rewrite Nat.iter_succ. set (h' := Nat.iter n _ h) in *. assert (h_dropped h' = true) as Hd' by (unfold h'; by rewrite turns_dropped). clearbody h'.
  unfold loop_turn.
  destruct (h_phase h') as [|call|] eqn:E; [by rewrite Hq, Hd'|by destruct (Hp call)|done].
Qed.
End Turns.

(** The scheduler's loop answers a request with [answer_to] and starts what can be started. *)
Lemma control_cmd_answer op tid w :
  control_cmd op tid w =
  (try_start_next (effect [Respond (control_answer op tid w)]
     (match task_id_to_dedupe (sched w) !! tid with Some key => (op key w).2 | None => w end))).1.
Proof. unfold control_cmd, control_answer. destruct (task_id_to_dedupe (sched w) !! tid); [|done]. by destruct (op _ w). Qed.

(** Whatever callers and workers do, commands are taken in the order they were sent, the channel
    stays within its capacity, a call sends its command at most once, and a call that returned has
    the scheduler's answer to its own command or an error because the loop ended. Once the workers
    stop, a bounded number of turns of the loop answers every call that waits, also the calls whose
    commands a close leaves in the channel, and a dropped handle ends the loop even when the channel
    had no room for the drop's Close. *)
Theorem handle_answers_calls quiesce capacity w h :
  (∀ w, active (sched (quiesce w)) = ∅) → rtc handle_step (handle_new capacity w) h →
  let h' := Nat.iter (2 + length (h_queue h)) (loop_turn quiesce) h in
  h_taken h `prefix_of` h_sent h ∧ (length (h_queue h) ≤ h_capacity h)%nat ∧ NoDup (omap caller (h_sent h))
  ∧ (∀ i req a, h_calls h !! i = Some (Returned req a) →
       (i, req, a) ∈ h_answered h ∧ CommandRequest req (Some i) ∈ h_taken h
       ∨ h_phase h = LoopEnded ∧ (a = send_failed req "channel closed" ∨ a = response_failed req "channel closed"))
  ∧ rtc handle_step h h'
  ∧ (∀ i req, h_calls h !! i = Some (Waiting req) → ∃ a, h_calls h' !! i = Some (Returned req a))
  ∧ (h_dropped h = true → h_phase h' = LoopEnded).
Proof.
  intros Hquiesce Hreach. pose proof (handle_reach_inv _ _ _ Hreach) as Hi. cbn zeta.
  pose proof (loop_settles quiesce Hquiesce (length (h_queue h)) h Hi (le_n _)) as Hs1.
  pose proof (loop_settles quiesce Hquiesce (S (length (h_queue h))) h Hi (Nat.le_succ_diag_r _)) as Hs2.
  split_and!; [|apply Hi|apply Hi| |by apply loop_turns_steps|intros i req Hc; by eapply waiting_served|intros Hd; by apply dropped_ends].
  - pose proof (hi_order _ Hi) as H. destruct (loop_ended h); [by destruct H|by exists (h_queue h)].
  - intros i req a Hc. destruct (hi_calls _ Hi _ _ Hc) as [Ha|He]; [left; split; [done|by eapply (hi_answered _ Hi)]|by right].
Qed.

(** ** An example: a full channel, a close that leaves a call behind *)
Module HandleDemo.
Definition w0 : World := mkWorld (scheduler_new 1 1 None) ∅ ∅ 0 [].
Definition call (req : Request) (i : nat) (h : Handle) : Handle := set_call i (Sending req) h.
Definition send (req : Request) (i : nat) (h : Handle) : Handle := default h (executor_send req i h).
(** A pause, a close and a snapshot are called; the channel has room for two. *)
Definition h1 : Handle :=
  send ReqClose 1 (send (ReqPause 7) 0 (call ReqSnapshot 2 (call ReqClose 1 (call (ReqPause 7) 0 (handle_new 2 w0))))).
Definition h2 : Handle := send ReqSnapshot 2 (take_command h1).

Lemma send_step req i h x :
  rtc handle_step x h → h_calls h !! i = Some (Sending req) → bool_decide (is_Some (executor_send req i h)) = true → rtc handle_step x (send req i h).
Proof. intros Hx Hc [h' Hs]%bool_decide_eq_true_1. eapply rtc_r; [exact Hx|]. unfold send. rewrite Hs. by eapply hs_send. Qed.
Lemma call_step req i h x :
  rtc handle_step x h → h_dropped h = false → h_calls h !! i = None → rtc handle_step x (call req i h).
Proof. intros Hx Hd Hc. eapply rtc_r; [exact Hx|]. by apply hs_call. Qed.
Lemma h2_reach : rtc handle_step (handle_new 2 w0) h2.
Proof.
  apply send_step; [|vm_compute; reflexivity..]. eapply rtc_r; [|apply hs_take; [vm_compute; reflexivity|vm_compute; discriminate]].
  do 2 (apply send_step; [|vm_compute; reflexivity..]). do 3 (apply call_step; [|vm_compute; reflexivity..]). reflexivity.
Qed.
Example full_channel : executor_send ReqSnapshot 2 h1 = None.
Proof. vm_compute. reflexivity. Qed.
(** With its one worker-free state the loop answers the pause, closes, and the snapshot that was
    sent meanwhile returns with an error. *)
Lemma handle_answers_calls_witness :
  h_calls h2 !! 0%nat = Some (Returned (ReqPause 7) (AnsUnit (Err (task_not_found_error 7))))
  ∧ ∃ a, h_calls (Nat.iter 4 (loop_turn (λ _, w0)) h2) !! 2%nat = Some (Returned ReqSnapshot a).
Proof.
  split; [vm_compute; reflexivity|].
  destruct (handle_answers_calls (λ _, w0) 2 w0 h2) as (_ & _ & _ & _ & _ & H & _); [done|apply h2_reach|].
  apply (H 2%nat ReqSnapshot). vm_compute. reflexivity.
Defined.
Example left_behind_call :
  h_calls (Nat.iter 4 (loop_turn (λ _, w0)) h2) !! 2%nat = Some (Returned ReqSnapshot (response_failed ReqSnapshot "channel closed")).
Proof. vm_compute. reflexivity. Qed.
End HandleDemo.
